(* ===== verification/_CoqProject ===== *)
-Q . S2P
Prelude.v
Effects.v
Budget.v
Contract.v
Config.v
Resource.v
Reservation.v
Context.v
Tcb.v
Store.v
Chain.v
Ready.v
Ownership.v
Wait.v
Switch.v
Invariant.v
Dispatch.v
Inherit.v
Donation.v
Sync.v
Moves.v
Permit.v
Slide.v
Lean.v
Handoff.v
Mutex.v
Lock.v
Acquire.v
Exclusion.v
Timer.v
Frame.v
Touch.v
Wake.v
Deadlines.v
Slots.v
Statics.v
Tasks.v
Snapshot.v
Driver.v
Birth.v
Start.v
Machine.v
Storage.v
Leave.v
Fit.v
System.v
Upkeep.v
Policy.v
Reach.v
Threads.v
Rearm.v
Ws63.v
