(* ===== verification/Prelude.v ===== *)
(** * hisi-rtos: a verification development of the single-hart scheduler

    hisi-rtos ([src/src/]) schedules up to seventeen tasks on one hart and gives them
    semaphores, mutexes with priority inheritance, sleeping, CPU budgets, resource
    handles and task-slot reservations. All its state sits behind one critical
    section; a task gives up the hart by recording a switch intent that the trap
    epilogue later carries out, so an interrupt may run between the decision and the
    dispatch. The development models that state and every critical section as a
    function of a small state-and-fault monad, and proves what the sections promise.

    ** How the files correspond to the code

    - [Prelude]: machine integers at their width ([saturating_*], [checked_*],
      [wrapping_*]), record update, list access that says what an index out of range
      does, and the automation. [Effects]: the monad [M S A := S -> outcome (A * S)];
      [Fault Panicked] is a Rust panic, [Fault Hung] a run that does not come back (an
      exhausted fuel, or a callback of type [-> !]), [Fault BadPointer] an access to an
      object that does not exist; [wp m Q s] says that [m] returns (so: no panic, no
      endless loop) in a state that satisfies [Q].
    - [Budget]: [scheduling.rs], the CPU quota. [Config]: [config.rs]. [Contract]: the
      names of the driver contract crate the code uses. [Context]: the frame of
      [context.rs]; [Machine]: its assembly, instruction by instruction.
    - [Resource]: [runtime/resource.rs]. [Reservation]: [runtime/reservation.rs].
    - [Tcb]: the records of [runtime/scheduler.rs] ([Tcb], [Sched]) and
      [runtime/sync.rs] ([SemState], [MutexState]), and the store [World]: the
      scheduler and the semaphores and mutexes reachable by address. [Store]: reading
      and writing the store. [Chain]: the intrusive lists, as a map [Queues] from queue
      names to lists of slots that the links in the store represent ([queues w q]).
    - [Ready], [Wait]: the ready queues, and the wait queues with the search for wait
      cycles. [Ownership]: [ready_ownership_audit]. [Snapshot]: the diagnostics.
      [Switch]: intents, dispatch, the scheduler lock, run policies. [Inherit]: priority
      inheritance. [Sync]: the critical sections of semaphores and mutexes. [Timer]:
      waking, the timer interrupt and the timer's deadline. [Slots]: dynamic slots
      against the promises of the reservation table.
    - [Statics], [Tasks]: the process-wide state [Rtos] and the entry points of
      [runtime.rs] and [runtime/time.rs]. [Driver]: [HisiRuntime] of
      [runtime/driver.rs]. [Storage]: [storage.rs]. [Ws63]: [ws63.rs], the runtime on
      the hardware of the chip.

    A critical section is a value of [M World A]; an entry point, which runs several of
    them and calls the injected clock, allocator and port in between, is a value of
    [M (Rtos H) A]. A thread that gives up the hart stops inside [execute_switch]; what
    it does when it runs again is a definition of its own ([after_switch],
    [after_down], [after_lock], [after_unlock]).

    ** The invariants

    - [Invariant]: [owned w q d] -- every task is in exactly the place its state says:
      running, in the ready queue of its priority, in the wait queue it names, detached
      as the target of the pending switch, or in the hand [d] of a task that is about
      to switch. [Dispatch] shows that every step of a handoff keeps it.
    - [Donation], [Lean]: [inheritance w exc] -- the donation counters are exact and
      every task but [exc] runs at the best of its base priority and its donations;
      [leaning] says by how much the counters are off in the middle of an operation.
      [Slide] lets a record update pass a priority walk that does not look at it.
    - [Permit]: [semaphores w q] -- grants, counts and queues of the semaphores agree.
      [Mutex]: [kernel w q] -- all of these together with the state of the mutexes.
      [Moves], [Handoff]: entering and leaving a wait queue, changing the owner.
      [Lock], [Acquire]: unlocking, cancelling and locking. [Exclusion]: the properties.
    - [Frame], [Touch]: what an operation leaves alone, read off its code. [Wake],
      [Deadlines]: the sweep, the interrupt and the deadline of the timer. [Birth],
      [Start]: spawning and [init]. [Leave]: sleeping, yielding, leaving.
    - [Fit]: what every single task satisfies. [System]: [system c w], all invariants in
      one record, kept by every operation ([System], [Upkeep], [Policy]).
    - [Reach]: the critical sections as the events of one transition system from [init]
      on, with [legal] the conditions under which a caller may enter one.
    - [Threads]: the same system with the place every thread has reached in
      [execute_switch], whose own critical sections -- the check of the intent and the
      rounds of the loop -- are steps beside the events.
    - [Rearm]: the calls of [rearm_timer] step by step, interleaved with each other and
      with those events.

    ** What the properties show

    Every reachable state of the ported runtime satisfies all the invariants together,
    and no critical section a caller may enter panics or hangs there, with one
    exception ([threads_safe]): the check in [execute_switch] panics when the target of
    the intent has run and exited before the thread came to check, which the source
    allows ([stranding_steps] is such a run). The registries and
    queues refine abstract maps and stable priority queues; the reservation and quota
    accounting is exact and never panics over any run; permits are conserved; mutexes
    hand over to the best oldest waiter and refuse cycles of waits; effective priorities
    are exactly what inheritance promises; a committed switch is dispatched exactly
    once and no task is ever lost; the timer's deadline is never later than anything that
    is due, except for the exhaustion of a running task's quota that was spent before
    the task was dispatched ([timer_misses_nothing] asks for a remaining quota,
    [spent_quota_runs_unarmed] shows why), and a stale deadline is never the last; an
    interrupt handler returns unless the scheduler lock was held past its limit, when
    the port's fail-stop function is called ([ws63_interrupts_served]). They are proved through [wp], so each
    includes that the code returns.

    The repository's own Kani harnesses fix small systems. What they check there holds of
    all systems by: [switch_intent_is_consumed_at_most_once] --
    [ticket_dispatched_once]; [stale_switch_identity_cannot_commit],
    [resumed_previous_cancels_intent_and_restores_target] --
    [intent_commits_or_restores]; [switch_away_prepare_or_observe_resume_is_atomic] --
    [switch_away_atomic]; [ready_ownership_audit_detects_invalid_ownership] --
    [audit_exact]; [higher_ready_work_has_a_dispatch_deadline_for_preemptive_current] --
    [timer_misses_nothing]; the semaphore races -- [permits_conserved];
    [mutex_handoff_preserves_priority_fifo_and_restores_owner] --
    [unlock_hands_to_best_waiter]; [mutex_wait_chain_rejects_cycles] --
    [wait_chain_rejects_cycles]; [stale_timer_rearm_ticket_cannot_validate_after_new_claim]
    -- [rearms_converge].

    ** Assumptions on callers

    [legal] asks of the callers of the critical sections: objects and tasks exist; a
    thread blocks only while it runs and has consumed its last grant; a task that exits
    holds neither the scheduler lock nor a mutex; the policy of the idle task is not
    changed; the list of retired stacks has room for one more; 2^31 permits of a
    semaphore and 2^64 switch tickets do not run out, and a thread is not dispatched
    2^32 times while it waits in [execute_switch] ([may]); times are [u64]s below the
    sentinel; stacks hold a trap frame of 272 bytes. The transition system is the one
    of a ported runtime; the port-less one switches in the caller's own thread
    ([execute_switch], [Machine]).

    ** Bounds and fuel

    A walk along a list or a chain of owners takes the number of slots plus one as
    fuel ([task_slots_nat] is seventeen), which is enough because a list has no
    duplicates and the wait-for graph has no cycle; [wp] statements prove that the
    fuel is never exhausted. Budget boundaries are walked with one step per period.
    The loop of [rearm_timer] runs once when nothing interferes ([rearm_alone]); [Rearm]
    treats it with interference.

    ** What is not modelled

    The driver contract crate, the HAL, the heap behind [CHeap], the embassy time queue
    and the injected allocator, clock and port are not part of the repository: they are
    parameters ([Hal], [CHeap], [StackHeap], [Outside]) or values the definitions take.
    The events of [Reach] are the critical sections on the scheduler; the two that take a
    diagnostics snapshot are not among them: they only read ([Snapshot], [audit_exact]).
    In the runs of [slot_event] a spawn and an exit are reduced to what they do to the
    state of their slot; the whole of both is in [Birth] and [Leave]. The traps that
    floating-point instructions take when [mstatus.FS] is off are not modelled.
    The trap entry that saves the frame before [__hisi_irq_epilogue] belongs to the
    runtime crate of the target; its result, the address of a frame, is an argument.
    Type-level code (capability markers, [RuntimeHandle], the [Binding] trait) has no
    run-time content. [runtime/conformance.rs] and the unit tests are test code: the
    former implements the contract crate's conformance actions, whose scenarios are not
    in the repository, over a bare [Sched]. *)

From stdpp Require Export prelude list gmap.
From Stdlib Require Export ZArith Lia.

#[global] Set Default Goal Selector "!".
#[global] Set Default Proof Using "Type".
#[global] Set Warnings "-clear-no-such-hyp".

Declare Scope machine_scope.
Delimit Scope machine_scope with machine.
Open Scope Z_scope.

(** ** Machine integers

    An unsigned integer of the source is a [Z] together with its maximum. The
    operations below are Rust's [saturating_*], [wrapping_*] and [checked_*]
    methods; plain [+] and [-] are the checked forms with a panic, since the
    source is verified under the profile with overflow checks (debug, test). *)

Definition u8_max : Z := 255.
Definition u16_max : Z := 65535.
Definition u32_max : Z := 4294967295.
Definition u64_max : Z := 18446744073709551615.
Definition i32_max : Z := 2147483647.
(** [usize] on the WS63 application core, an [rv32imfc] hart. *)
Definition USIZE_BITS : Z := 32.
Definition usize_max : Z := 4294967295.

Definition saturating_add (max a b : Z) : Z := Z.min max (a + b).
Definition saturating_sub (a b : Z) : Z := Z.max 0 (a - b).
Definition saturating_mul (max a b : Z) : Z := Z.min max (a * b).
Definition wrapping_add (max a b : Z) : Z := (a + b) mod (max + 1).
Definition checked_add (max a b : Z) : option Z :=
  if a + b <=? max then Some (a + b) else None.
Definition checked_sub (a b : Z) : option Z :=
  if b <=? a then Some (a - b) else None.

(** [counter.saturating_add(1)] on a [u32] diagnostic counter. *)
Definition sat_incr_u32 (a : Z) : Z := saturating_add u32_max a 1.
Definition sat_incr_u8 (a : Z) : Z := saturating_add u8_max a 1.

Notation "a +sat[ max ] b" := (saturating_add max a b)
  (at level 50, left associativity) : machine_scope.
Notation "a -sat b" := (saturating_sub a b)
  (at level 50, left associativity) : machine_scope.

Create HintDb machine discriminated.
#[export] Hint Constants Opaque : machine.

Lemma saturating_sub_nonneg a b : 0 <= saturating_sub a b.
Proof. unfold saturating_sub. lia. Qed.

Lemma saturating_sub_le a b : 0 <= a → 0 <= b → saturating_sub a b <= a.
Proof. unfold saturating_sub. lia. Qed.

Lemma saturating_sub_exact a b : b <= a → saturating_sub a b = a - b.
Proof. unfold saturating_sub. lia. Qed.

Lemma saturating_add_le max a b : saturating_add max a b <= max.
Proof. unfold saturating_add. lia. Qed.

Lemma saturating_add_ge max a b : a <= max → 0 <= b → a <= saturating_add max a b.
Proof. unfold saturating_add. lia. Qed.

Lemma saturating_add_exact max a b : a + b <= max → saturating_add max a b = a + b.
Proof. unfold saturating_add. lia. Qed.

Lemma sat_incr_u8_pos a : 0 <= a → 0 < sat_incr_u8 a.
Proof. unfold sat_incr_u8, saturating_add, u8_max. lia. Qed.

#[export] Hint Resolve saturating_sub_nonneg saturating_add_le sat_incr_u8_pos : machine.

(** Opens every machine operation of the goal and the context, then calls [lia]. *)
Ltac mlia :=
  unfold sat_incr_u32, sat_incr_u8, saturating_add, saturating_sub, saturating_mul,
    u8_max, u16_max, u32_max, u64_max, i32_max, usize_max, USIZE_BITS in *; lia.

(** Case analysis on every integer comparison of the goal. *)
Ltac zcases :=
  repeat match goal with
  | |- context [?a <=? ?b] => destruct (Z.leb_spec a b)
  | |- context [?a <? ?b] => destruct (Z.ltb_spec a b)
  | |- context [?a =? ?b] => destruct (Z.eqb_spec a b)
  end; simpl.

(** ** Record fields

    [r <| f := v |>] and [r <| f ::= g |>] are the functional form of the
    source's field assignments. A record type gives its eta expansion once and
    each field an instance derived from it. *)

Class Eta (R : Type) := eta : R → R.
Class Field {R E : Type} (p : R → E) := upd : (E → E) → R → R.
Arguments upd {R E} p {_} _ _.

Ltac derive_field :=
  match goal with
  | |- @Field ?R ?E ?p =>
      exact (fun (g : E → E) (r : R) => ltac:(
        let b := eval cbv beta delta [eta] in (eta r) in
        let b := eval hnf in b in
        match b with context C [p r] => let b' := context C [g (p r)] in exact b' end))
  end.

Notation "r <| p ::= g |>" := (upd p g r)
  (at level 1, left associativity, format "r <| p  ::=  g |>").
Notation "r <| p := v |>" := (upd p (fun _ => v) r)
  (at level 1, left associativity, format "r <| p  :=  v |>").

(** ** Arrays

    A Rust array is a list indexed by a [usize], a [Z] here; [idx] is [None]
    exactly where the source's indexing panics. *)

Section Arrays.
  Context {A : Type}.
  Implicit Types l : list A.

Fixpoint idx l (i : Z) : option A :=
    match l with
    | [] => None
    | x :: l' => if i =? 0 then Some x else idx l' (i - 1)
    end.

Fixpoint alter_at (g : A → A) l (i : Z) : list A :=
    match l with
    | [] => []
    | x :: l' => if i =? 0 then g x :: l' else x :: alter_at g l' (i - 1)
    end.

  (** Reading with a default, for statements where the index is in range. *)
Definition at_ (d : A) l (i : Z) : A := default d (idx l i).

Definition in_range l (i : Z) : Prop := 0 <= i < Z.of_nat (length l).

Lemma idx_is_Some l i : is_Some (idx l i) ↔ in_range l i.
  Proof.
    unfold in_range. revert i. induction l as [|x l IH]; intros i; simpl.
    - split; [by intros [? ?]|lia].
    - destruct (Z.eqb_spec i 0) as [->|Hi].
      + split; [lia|eauto].
      + rewrite IH. lia.
  Qed.

Lemma idx_None l i : idx l i = None ↔ ¬ in_range l i.
  Proof. rewrite <-idx_is_Some, <-not_eq_None_Some. destruct (idx l i); naive_solver. Qed.

Lemma idx_at d l i : in_range l i → idx l i = Some (at_ d l i).
  Proof. intros [x Hx]%idx_is_Some. unfold at_. by rewrite Hx. Qed.

Lemma idx_at_inv d l i x : idx l i = Some x → in_range l i ∧ at_ d l i = x.
  Proof.
    intros H. split; [by apply idx_is_Some; eauto|]. unfold at_. by rewrite H.
  Qed.

Lemma length_alter_at g l i : length (alter_at g l i) = length l.
  Proof.
    revert i. induction l as [|x l IH]; intros i; simpl; [done|].
    destruct (i =? 0); simpl; auto.
  Qed.

Lemma in_range_alter_at g l i j : in_range (alter_at g l i) j ↔ in_range l j.
  Proof. unfold in_range. by rewrite length_alter_at. Qed.

Lemma idx_alter_eq g l i : idx (alter_at g l i) i = g <$> idx l i.
  Proof.
    revert i. induction l as [|x l IH]; intros i; simpl; [done|].
    destruct (i =? 0) eqn:E; simpl; rewrite E; [done|apply IH].
  Qed.

Lemma idx_alter_ne g l i j : i ≠ j → idx (alter_at g l i) j = idx l j.
  Proof.
    revert i j. induction l as [|x l IH]; intros i j Hij; simpl; [done|].
    destruct (Z.eqb_spec i 0), (Z.eqb_spec j 0); simpl;
      repeat case_match; try lia; auto; apply IH; lia.
  Qed.

Lemma at_alter_eq d g l i : in_range l i → at_ d (alter_at g l i) i = g (at_ d l i).
  Proof. intros H. unfold at_. rewrite idx_alter_eq, (idx_at d l i H). done. Qed.

Lemma at_alter_ne d g l i j : i ≠ j → at_ d (alter_at g l i) j = at_ d l j.
  Proof. intros H. unfold at_. by rewrite idx_alter_ne. Qed.

Lemma at_alter d g l i j :
    in_range l i →
    at_ d (alter_at g l i) j = if decide (i = j) then g (at_ d l j) else at_ d l j.
  Proof.
    intros H. case_decide as E.
    - subst j. by apply at_alter_eq.
    - by apply at_alter_ne.
  Qed.

Lemma idx_lookup l i : 0 <= i → idx l i = l !! Z.to_nat i.
  Proof.
    revert i. induction l as [|x l IH]; intros i Hi; simpl; [done|].
    destruct (Z.eqb_spec i 0) as [->|Hne]; [done|].
    rewrite IH by lia.
    replace (Z.to_nat i) with (S (Z.to_nat (i - 1))) by lia. done.
  Qed.

Lemma idx_replicate (n : nat) (x : A) i :
    idx (replicate n x) i = if (0 <=? i) && (i <? Z.of_nat n) then Some x else None.
  Proof.
    revert i. induction n as [|n IH]; intros i; simpl replicate; simpl idx.
    - zcases; done || lia.
    - rewrite IH. zcases; done || lia.
  Qed.
End Arrays.

Arguments idx {A} !_ _ /.
Arguments in_range {A} _ _ : simpl never.
Arguments at_ {A} _ _ _ : simpl never.

(** Index ranges [lo..hi] of the source's [for] loops. *)
Definition range (lo hi : Z) : list Z :=
  (λ n, lo + Z.of_nat n) <$> seq 0 (Z.to_nat (hi - lo)).

Lemma elem_of_range lo hi i : i ∈ range lo hi ↔ lo <= i < hi.
Proof.
  unfold range. rewrite list_elem_of_fmap. split.
  - intros (n & -> & Hn%elem_of_seq). lia.
  - intros H. exists (Z.to_nat (i - lo)). split; [lia|]. apply elem_of_seq. lia.
Qed.

Lemma NoDup_range lo hi : NoDup (range lo hi).
Proof. apply NoDup_fmap_2; [intros ??; lia|apply NoDup_seq]. Qed.

(** [iter().position(f)]: the first index whose element satisfies [f]. *)
Fixpoint position {A} (f : A → bool) (l : list A) : option Z :=
  match l with
  | [] => None
  | x :: l' => if f x then Some 0 else Z.succ <$> position f l'
  end.

Lemma position_Some {A} (f : A → bool) (l : list A) i :
  position f l = Some i →
  in_range l i ∧ (∃ x, idx l i = Some x ∧ f x = true) ∧
  (∀ j x, 0 <= j < i → idx l j = Some x → f x = false).
Proof.
  revert i. induction l as [|x l IH]; intros i; simpl; [done|].
  destruct (f x) eqn:Hf.
  - intros [= <-]. unfold in_range; simpl. split; [lia|]. split; [eauto|]. lia.
  - destruct (position f l) as [k|] eqn:Hp; simpl; [|done]. intros [= <-].
    destruct (IH k eq_refl) as (Hr & (y & Hy & Hfy) & Hall).
    unfold in_range in *; simpl. split; [lia|]. split.
    + exists y. destruct (Z.eqb_spec (Z.succ k) 0); [lia|].
      by replace (Z.succ k - 1) with k by lia.
    + intros j z Hj Hz. destruct (Z.eqb_spec j 0); [congruence|].
      eapply (Hall (j - 1)); [lia|done].
Qed.

Lemma position_None {A} (f : A → bool) (l : list A) :
  position f l = None → ∀ j x, idx l j = Some x → f x = false.
Proof.
  induction l as [|x l IH]; simpl; [done|]. destruct (f x) eqn:Hf; [done|].
  destruct (position f l); [done|]. intros _ j y Hj.
  destruct (Z.eqb_spec j 0); [congruence|]. by eapply IH.
Qed.

(** Fields of a packed identifier: [(hi << bits) | lo] with [lo] below [2^bits]. *)
Lemma lor_shiftl_pack hi lo bits :
  0 <= bits → 0 <= lo < 2 ^ bits →
  Z.lor (Z.shiftl hi bits) lo = hi * 2 ^ bits + lo.
Proof.
  intros Hb Hlo. rewrite Z.shiftl_mul_pow2 by done.
  assert (Z.land (hi * 2 ^ bits) lo = 0) as Hland.
  { apply Z.bits_inj'. intros n Hn. rewrite Z.land_spec, Z.bits_0.
    destruct (Z.lt_ge_cases n bits) as [Hlt|Hge].
    - by rewrite Z.mul_pow2_bits_low.
    - rewrite <-(Z.mod_small lo (2 ^ bits)), Z.mod_pow2_bits_high by lia.
      apply andb_false_r. }
  by rewrite <-Z.lxor_lor, Z.add_nocarry_lxor.
Qed.

Lemma land_mask x bits : 0 <= bits → Z.land x (Z.shiftl 1 bits - 1) = x mod 2 ^ bits.
Proof.
  intros Hb. rewrite <-Z.land_ones by done. f_equal.
Qed.

Lemma pack_div hi lo n : 0 <= lo < n → (hi * n + lo) / n = hi.
Proof. intros. rewrite Z.div_add_l, Z.div_small by lia. lia. Qed.

Lemma pack_mod hi lo n : 0 <= lo < n → (hi * n + lo) mod n = lo.
Proof. intros. rewrite Z.add_comm, Z.mod_add, Z.mod_small by lia. done. Qed.

(** Sums over a list. *)
Definition zsum {A} (f : A → Z) (l : list A) : Z := foldr (λ x acc, f x + acc) 0 l.

Lemma zsum_app {A} (f : A → Z) l1 l2 : zsum f (l1 ++ l2) = zsum f l1 + zsum f l2.
Proof. induction l1 as [|x l1 IH]; simpl; [done|]. rewrite IH. lia. Qed.

Lemma zsum_alter {A} (f : A → Z) g l i x :
  idx l i = Some x → zsum f (alter_at g l i) = zsum f l - f x + f (g x).
Proof.
  revert i. induction l as [|y l IH]; intros i; simpl; [done|].
  destruct (i =? 0) eqn:E; simpl.
  - intros [= ->]. lia.
  - intros H. rewrite (IH (i - 1)) by done. lia.
Qed.

Lemma idx_nonneg {A} (l : list A) j y : idx l j = Some y → 0 <= j.
Proof. intros H. apply (idx_at_inv y) in H as [[? ?] _]. done. Qed.

Lemma idx_cons_succ {A} (x : A) l j y : idx l j = Some y → idx (x :: l) (j + 1) = Some y.
Proof.
  intros H. pose proof (idx_nonneg l j y H). simpl.
  destruct (Z.eqb_spec (j + 1) 0); [lia|]. by replace (j + 1 - 1) with j by lia.
Qed.

Lemma zsum_bound {A} (f : A → Z) l b :
  (∀ i x, idx l i = Some x → 0 <= f x <= b) → 0 <= zsum f l <= b * Z.of_nat (length l).
Proof.
  induction l as [|x l IH]; intros H; simpl; [lia|].
  pose proof (H 0 x eq_refl). enough (0 <= zsum f l <= b * Z.of_nat (length l)) by lia.
  apply IH. intros i y Hi. by eapply H, idx_cons_succ.
Qed.

Lemma zsum_nonneg {A} (f : A → Z) l :
  (∀ i x, idx l i = Some x → 0 <= f x) → 0 <= zsum f l.
Proof.
  induction l as [|x l IH]; intros H; simpl; [lia|].
  pose proof (H 0 x eq_refl). enough (0 <= zsum f l) by lia.
  apply IH. intros i y Hi. by eapply H, idx_cons_succ.
Qed.

Lemma zsum_ge_elem {A} (f : A → Z) l i x :
  (∀ j y, idx l j = Some y → 0 <= f y) → idx l i = Some x → f x <= zsum f l.
Proof.
  revert i. induction l as [|y l IH]; intros i Hpos Hi; simpl in *; [done|].
  assert (∀ j z, idx l j = Some z → 0 <= f z) as Hpos'.
  { intros j z Hj. by eapply (Hpos (j + 1)), idx_cons_succ. }
  pose proof (zsum_nonneg f l Hpos'). pose proof (Hpos 0 y eq_refl).
  destruct (i =? 0); [injection Hi as ->; lia|].
  specialize (IH (i - 1) Hpos' Hi). lia.
Qed.

Lemma alter_at_ext {A} (f g : A → A) l i :
  (∀ x, idx l i = Some x → f x = g x) → alter_at f l i = alter_at g l i.
Proof.
  revert i. induction l as [|x l IH]; intros i H; simpl in *; [done|].
  destruct (i =? 0); [by rewrite H|]. f_equal. by apply IH.
Qed.

Lemma alter_at_compose {A} (f g : A → A) l i :
  alter_at f (alter_at g l i) i = alter_at (λ x, f (g x)) l i.
Proof.
  revert i. induction l as [|x l IH]; intros i; simpl; [done|].
  destruct (i =? 0) eqn:E; simpl; rewrite E; [done|]. f_equal. apply IH.
Qed.
