(* ===== verification/Effects.v ===== *)
(** * Effects of the scheduler code

    The source mutates a scheduler behind a critical section, panics on failed
    assertions and out-of-range indices, and returns [Result]s. [M S A] threads a
    state [S] and ends in a value or in a [fault]; a [Result] is a value of
    [M S (result E A)], so a state change made before an early [return Err(..)]
    stays in the state, as it does in the source. [wp] is the total-correctness
    predicate of the development: it holds only of runs that end in a value. *)

From S2P Require Import Prelude.

(** How a run fails to produce a value: a Rust panic, a loop that does not end,
    or a dereference of an address no live object owns. *)
Inductive fault := Panicked | Hung | BadPointer.

#[export] Instance fault_eq_dec : EqDecision fault.
Proof. solve_decision. Defined.

Inductive outcome (A : Type) : Type :=
| Done (a : A)
| Fault (f : fault).
Arguments Done {A} _.
Arguments Fault {A} _.

Definition M (S A : Type) : Type := S → outcome (A * S).

#[export] Instance M_ret {S} : MRet (M S) := λ A a s, Done (a, s).
#[export] Instance M_bind {S} : MBind (M S) := λ A B f m s,
  match m s with
  | Done (a, s') => f a s'
  | Fault e => Fault e
  end.

Definition fail {S A} (f : fault) : M S A := λ _, Fault f.
Definition panic {S A} : M S A := fail Panicked.
Definition gets {S A} (f : S → A) : M S A := λ s, Done (f s, s).
Definition modify {S} (f : S → S) : M S unit := λ s, Done (tt, f s).
(** [assert!(b)] *)
Definition assert_ {S} (b : bool) : M S unit := if b then mret tt else panic.
(** [opt.expect(..)] and [opt.unwrap()] *)
Definition expect {S A} (o : option A) : M S A :=
  match o with Some a => mret a | None => panic end.
Definition when {S} (b : bool) (m : M S unit) : M S unit := if b then m else mret tt.

(** Runs [m] on a part of a larger state. *)
Definition zoom {S T A} (get : T → S) (put : S → T → T) (m : M S A) : M T A := λ t,
  match m (get t) with
  | Done (a, s) => Done (a, put s t)
  | Fault e => Fault e
  end.

(** [for x in xs { body(x) }] *)
Fixpoint for_each {S A} (xs : list A) (body : A → M S unit) : M S unit :=
  match xs with
  | [] => mret tt
  | x :: xs' => body x ;; for_each xs' body
  end.

(** Rust's [Result<A, E>]. *)
Inductive result (E A : Type) : Type :=
| Ok (a : A)
| Err (e : E).
Arguments Ok {E A} _.
Arguments Err {E A} _.

#[export] Instance result_eq_dec `{EqDecision E, EqDecision A} : EqDecision (result E A).
Proof. solve_decision. Defined.

Definition is_ok {E A} (r : result E A) : bool := match r with Ok _ => true | Err _ => false end.
Definition is_err {E A} (r : result E A) : bool := negb (is_ok r).
Definition ok_or {E A} (o : option A) (e : E) : result E A :=
  match o with Some a => Ok a | None => Err e end.

(** The [?] operator. *)
Definition try_bind {S E A B} (m : M S (result E A)) (k : A → M S (result E B)) :
    M S (result E B) :=
  r ← m; match r with Ok a => k a | Err e => mret (Err e) end.
Notation "x ←? m ; k" := (try_bind m (λ x, k))
  (at level 20, m at level 100, k at level 200, right associativity,
   format "x  ←?  m ;  '/' k") : stdpp_scope.
Definition res_bind {E A B} (m : result E A) (k : A → result E B) : result E B :=
  match m with Ok a => k a | Err e => Err e end.
Notation "x ←! m ; k" := (res_bind m (λ x, k))
  (at level 20, m at level 100, k at level 200, right associativity,
   format "x  ←!  m ;  '/' k") : stdpp_scope.

(** ** Total correctness *)

Definition wp {S A} (m : M S A) (Q : A → S → Prop) (s : S) : Prop :=
  match m s with
  | Done (a, s') => Q a s'
  | Fault _ => False
  end.

(** The result of a run that ends, for stating equations between runs. *)
Definition run {S A} (m : M S A) (s : S) : option (A * S) :=
  match m s with Done r => Some r | Fault _ => None end.

Section Wp.
  Context {S : Type}.
  Implicit Types s : S.

Lemma wp_ret {A} (a : A) (Q : A → S → Prop) s : Q a s → wp (mret a) Q s.
  Proof. done. Qed.

Lemma wp_bind {A B} (m : M S A) (f : A → M S B) Q s :
    wp m (λ a s', wp (f a) Q s') s → wp (m ≫= f) Q s.
  Proof. unfold wp, mbind, M_bind. by destruct (m s) as [[a s']|]. Qed.

Lemma wp_bind_inv {A B} (m : M S A) (f : A → M S B) Q s :
    wp (m ≫= f) Q s → wp m (λ a s', wp (f a) Q s') s.
  Proof. unfold wp, mbind, M_bind. by destruct (m s) as [[a s']|]. Qed.

Lemma wp_try_bind {E A B} (m : M S (result E A)) (k : A → M S (result E B)) Q s :
    wp m (λ r s', match r with Ok a => wp (k a) Q s' | Err e => Q (Err e) s' end) s →
    wp (try_bind m k) Q s.
  Proof.
    intros H. apply wp_bind. revert H. unfold wp.
    destruct (m s) as [[[a|e] s']|]; done.
  Qed.

Lemma wp_mono {A} (m : M S A) (Q Q' : A → S → Prop) s :
    (∀ a s', Q a s' → Q' a s') → wp m Q s → wp m Q' s.
  Proof. unfold wp. destruct (m s) as [[a s']|]; auto. Qed.

Lemma wp_and {A} (m : M S A) (Q Q' : A → S → Prop) s :
    wp m Q s → wp m Q' s → wp m (λ a s', Q a s' ∧ Q' a s') s.
  Proof. unfold wp. destruct (m s) as [[a s']|]; auto. Qed.

Lemma wp_gets {A} (f : S → A) Q s : Q (f s) s → wp (gets f) Q s.
  Proof. done. Qed.

Lemma wp_modify (f : S → S) (Q : unit → S → Prop) s : Q tt (f s) → wp (modify f) Q s.
  Proof. done. Qed.

Lemma wp_assert b (Q : unit → S → Prop) s : b = true → Q tt s → wp (assert_ b) Q s.
  Proof. by intros ->. Qed.

Lemma wp_expect {A} (o : option A) (a : A) (Q : A → S → Prop) s :
    o = Some a → Q a s → wp (expect o) Q s.
  Proof. by intros ->. Qed.

Lemma wp_when b (m : M S unit) (Q : unit → S → Prop) s :
    (b = true → wp m Q s) → (b = false → Q tt s) → wp (when b m) Q s.
  Proof. destruct b; intros H1 H2; [by apply H1|by apply H2]. Qed.

Lemma wp_run {A} (m : M S A) Q s :
    wp m Q s ↔ ∃ a s', m s = Done (a, s') ∧ Q a s'.
  Proof.
    unfold wp. destruct (m s) as [[a s']|]; [|split; [done|by intros (? & ? & ? & _)]].
    split; [eauto|]. by intros (? & ? & [= <- <-] & ?).
  Qed.

  (** A [for] loop by an invariant over the part of the list that is done. *)
Lemma wp_for_each {A} (I : list A → S → Prop) (Q : unit → S → Prop)
      (xs : list A) (body : A → M S unit) s :
    I [] s →
    (∀ done_ x rest s', xs = done_ ++ x :: rest → I done_ s' →
       wp (body x) (λ _, I (done_ ++ [x])) s') →
    (∀ s', I xs s' → Q tt s') →
    wp (for_each xs body) Q s.
  Proof.
    intros H0 Hstep HQ.
    cut (∀ done_ rest s', xs = done_ ++ rest → I done_ s' → wp (for_each rest body) Q s').
    { intros H. by apply (H [] xs). }
    intros done_ rest. revert done_.
    induction rest as [|x rest IH]; intros done_ s' Hxs HI; simpl.
    - apply wp_ret, HQ. rewrite Hxs, app_nil_r. done.
    - apply wp_bind. eapply wp_mono; [|by eapply Hstep]. intros [] s'' HI'.
      apply (IH (done_ ++ [x]) s''); [|done]. rewrite Hxs, <-app_assoc. done.
  Qed.
End Wp.

(** [wp_step] runs one primitive; [wp_steps] runs until a call that needs a
    specification, which the caller applies with [wp_apply]. *)
Ltac wp_step :=
  lazymatch goal with
  | |- wp (mbind _ _) _ _ => apply wp_bind
  | |- wp (mret _) _ _ => apply wp_ret
  | |- wp (gets _) _ _ => apply wp_gets
  | |- wp (modify _) _ _ => apply wp_modify
  | |- wp (try_bind _ _) _ _ => apply wp_try_bind
  end.
Ltac wp_steps := repeat (wp_step; cbv beta).
Ltac wp_apply lem := eapply wp_mono; [|apply lem].
