(* ===== verification/Budget.v ===== *)
(** * Periodic CPU quota ([src/scheduling.rs])

    [BudgetSpec], [RunPolicy] and the pure quota state [BudgetState] the scheduler
    charges. Times are [u64] milliseconds, the quota a [u32]; every operation
    saturates as the source does. The [while] loop of
    [throttle_after_lock_overrun] runs with the number of periods it has to
    cross as fuel, and [Hung] when that were not enough. *)

From S2P Require Import Prelude Effects.

Record BudgetSpec := mkBudgetSpec {
  capacity : Z;
  replenishment_period : Z;
}.

#[export] Instance BudgetSpec_eq_dec : EqDecision BudgetSpec.
Proof. solve_decision. Defined.

(** [NonZeroU32] fields and the guard of [try_new]. *)
Definition BudgetSpec_wf (spec : BudgetSpec) : Prop :=
  1 <= spec.(capacity) <= spec.(replenishment_period) ∧
  spec.(replenishment_period) <= u32_max.

Definition try_new (capacity replenishment_period : Z) : option BudgetSpec :=
  if capacity <=? replenishment_period
  then Some (mkBudgetSpec capacity replenishment_period)
  else None.

Inductive RunPolicy :=
| Cooperative
| Budgeted (spec : BudgetSpec)
| Preemptive (time_slice : Z).

#[export] Instance RunPolicy_eq_dec : EqDecision RunPolicy.
Proof. solve_decision. Defined.

Definition is_preemptive (p : RunPolicy) : bool :=
  match p with Preemptive _ => true | _ => false end.

Definition RunPolicy_wf (p : RunPolicy) : Prop :=
  match p with
  | Cooperative => True
  | Budgeted spec => BudgetSpec_wf spec
  | Preemptive time_slice => 1 <= time_slice <= u32_max
  end.

Inductive BudgetExpiry :=
| NotBudgeted
| StillAvailable
| ThrottleNow
| DeferredBySchedulerLock.

Record BudgetState := mkBudgetState {
  spec : option BudgetSpec;
  remaining : Z;
  replenishes_at : Z;
  running_since : option Z;
  lock_overrun_pending : bool;
}.

#[export] Instance eta_BudgetState : Eta BudgetState := λ b,
  mkBudgetState (spec b) (remaining b) (replenishes_at b) (running_since b)
    (lock_overrun_pending b).
#[export] Instance field_spec : Field spec. Proof. derive_field. Defined.
#[export] Instance field_remaining : Field remaining. Proof. derive_field. Defined.
#[export] Instance field_replenishes_at : Field replenishes_at. Proof. derive_field. Defined.
#[export] Instance field_running_since : Field running_since. Proof. derive_field. Defined.
#[export] Instance field_lock_overrun_pending : Field lock_overrun_pending.
Proof. derive_field. Defined.

Definition none : BudgetState := mkBudgetState None 0 0 None false.

Definition for_policy (policy : RunPolicy) (now : Z) : BudgetState :=
  match policy with
  | Budgeted spec =>
      mkBudgetState (Some spec) spec.(capacity)
        (saturating_add u64_max now spec.(replenishment_period)) None false
  | _ => none
  end.

(** Replenishes a non-running task while preserving the original phase. *)
Definition replenish_if_due (now : Z) (b : BudgetState) : bool * BudgetState :=
  match b.(spec) with
  | None => (false, b)
  | Some spec =>
      if b.(lock_overrun_pending) || (now <? b.(replenishes_at)) then (false, b)
      else
        let period := spec.(replenishment_period) in
        let elapsed_periods := (now - b.(replenishes_at)) / period + 1 in
        let b := b <| replenishes_at ::= λ r,
          saturating_add u64_max r (saturating_mul u64_max elapsed_periods period) |> in
        (true, b <| remaining := spec.(capacity) |>)
  end.

Definition on_dispatch (now : Z) (b : BudgetState) : BudgetState :=
  let b := snd (replenish_if_due now b) in
  match b.(spec) with
  | Some _ => b <| running_since := Some now |>
  | None => b
  end.

Definition charge_until (now : Z) (b : BudgetState) : BudgetState :=
  match b.(running_since) with
  | None => b
  | Some started =>
      let elapsed := Z.min (saturating_sub now started) u32_max in
      (b <| remaining ::= λ r, saturating_sub r elapsed |>) <| running_since := Some now |>
  end.

Definition on_switch_out (now : Z) (b : BudgetState) : BudgetState :=
  (charge_until now b) <| running_since := None |>.

Definition exhaustion_deadline (b : BudgetState) : option Z :=
  started ← b.(running_since);
  if negb (b.(remaining) =? 0) then Some (saturating_add u64_max started b.(remaining))
  else None.

Definition on_timer (now : Z) (scheduler_locked : bool) (b : BudgetState) :
    BudgetExpiry * BudgetState :=
  match b.(spec) with
  | None => (NotBudgeted, b)
  | Some _ =>
      let b := charge_until now b in
      if negb (b.(remaining) =? 0) then (StillAvailable, b)
      else
        let b := b <| running_since := None |> in
        if scheduler_locked
        then (DeferredBySchedulerLock, b <| lock_overrun_pending := true |>)
        else (ThrottleNow, b)
  end.

(** The loop of [throttle_after_lock_overrun]: next boundary after [now]. *)
Fixpoint advance_boundary (fuel : nat) (now period r : Z) : outcome Z :=
  match fuel with
  | O => Fault Hung
  | S fuel =>
      if r <=? now then
        let next := saturating_add u64_max r period in
        if next =? r then Done u64_max else advance_boundary fuel now period next
      else Done r
  end.

(** One iteration per period between the boundary and [now], one to leave. *)
Definition boundary_fuel (now period r : Z) : nat := S (Z.to_nat ((now - r) / period + 1)).

(** Applies a lock-deferred exhaustion and returns the next eligible time. *)
Definition throttle_after_lock_overrun (now : Z) : M BudgetState (option Z) := λ b,
  if negb b.(lock_overrun_pending) then Done (None, b)
  else match b.(spec) with
  | None => Done (None, b)
  | Some spec =>
      let b := b <| lock_overrun_pending := false |> in
      let b := b <| remaining := 0 |> in
      let b := b <| running_since := None |> in
      let period := spec.(replenishment_period) in
      match advance_boundary (boundary_fuel now period b.(replenishes_at))
              now period b.(replenishes_at) with
      | Fault e => Fault e
      | Done r => Done (Some r, b <| replenishes_at := r |>)
      end
  end.

(** ** The quota invariant *)

Definition time_ok (t : Z) : Prop := 0 <= t <= u64_max.

Definition budget_ok (b : BudgetState) : Prop :=
  match b.(spec) with
  | None => b = none
  | Some spec =>
      BudgetSpec_wf spec ∧
      0 <= b.(remaining) <= spec.(capacity) ∧
      time_ok b.(replenishes_at) ∧
      (∀ t, b.(running_since) = Some t → time_ok t)
  end.

Lemma for_policy_ok policy now :
  RunPolicy_wf policy → time_ok now → budget_ok (for_policy policy now).
Proof.
  unfold budget_ok, time_ok. destruct policy as [|s|]; simpl; try done.
  intros [??] ?. repeat split; try done; mlia.
Qed.

Lemma replenish_if_due_spec now b : spec (snd (replenish_if_due now b)) = spec b.
Proof. unfold replenish_if_due. by repeat case_match. Qed.

Lemma replenish_if_due_ok now b :
  time_ok now → budget_ok b → budget_ok (snd (replenish_if_due now b)).
Proof.
  unfold budget_ok at 1, replenish_if_due. intros Hnow Hb.
  destruct (spec b) as [s|] eqn:Es; [|by subst b].
  destruct Hb as ((Hc & Hp) & Hr & Hat & Hrun).
  destruct (_ || _) eqn:E; simpl; [by unfold budget_ok; rewrite Es|].
  unfold budget_ok; simpl; rewrite Es; unfold time_ok in *;
    repeat split; try done; try lia; try (by apply Hrun).
  - apply orb_false_iff in E as [_ E%Z.ltb_ge]. unfold time_ok in *.
    pose proof (Z.div_pos (now - replenishes_at b) (replenishment_period s)).
    unfold saturating_add, saturating_mul, u64_max in *. nia.
  - apply saturating_add_le.
Qed.

Lemma on_dispatch_ok now b : time_ok now → budget_ok b → budget_ok (on_dispatch now b).
Proof.
  intros Hnow Hb. unfold on_dispatch.
  pose proof (replenish_if_due_ok now b Hnow Hb) as H. revert H.
  generalize (snd (replenish_if_due now b)) as b'. clear b Hb. intros b Hb.
  destruct (spec b) as [s|] eqn:Es; [|done]. unfold budget_ok in *; simpl.
  rewrite Es in *. destruct Hb as (? & ? & ? & ?). split_and!; try tauto.
  by intros t [= <-].
Qed.

Lemma charge_until_ok now b : time_ok now → budget_ok b → budget_ok (charge_until now b).
Proof.
  unfold budget_ok, charge_until. intros Hnow Hb.
  destruct (running_since b) as [t|] eqn:Er; [|by rewrite Er].
  simpl. destruct (spec b) as [s|] eqn:Es; [|by subst b].
  destruct Hb as (Hs & Hr & Hat & Hrun). split_and!; try done.
  - apply saturating_sub_nonneg.
  - unfold saturating_sub, time_ok in *. mlia.
  - by intros ? [= <-].
Qed.

Lemma stop_running_ok b : budget_ok b → budget_ok (b <| running_since := None |>).
Proof.
  unfold budget_ok; simpl. destruct (spec b); [|by intros ->]. naive_solver.
Qed.

Lemma on_switch_out_ok now b : time_ok now → budget_ok b → budget_ok (on_switch_out now b).
Proof. intros. by apply stop_running_ok, charge_until_ok. Qed.

Lemma on_timer_ok now locked b :
  time_ok now → budget_ok b → budget_ok (snd (on_timer now locked b)).
Proof.
  intros Hnow Hb. unfold on_timer. destruct (spec b) as [s|] eqn:Es; [|done].
  pose proof (charge_until_ok now b Hnow Hb) as H.
  assert (spec (charge_until now b) = Some s) as Es'.
  { unfold charge_until. by case_match. }
  revert H Es'. generalize (charge_until now b) as b'. intros b' Hb' Es'.
  unfold budget_ok in *. repeat case_match; simpl in *; naive_solver.
Qed.

(** ** Boundaries of the replenishment grid *)

(** The closed form of the source's boundary loop: the first boundary of the
    grid [r, r + period, ..] after [now], saturated at [u64::MAX]. *)
Definition next_boundary (now period r : Z) : Z :=
  if r <=? now then Z.min u64_max (r + ((now - r) / period + 1) * period) else r.

Lemma next_boundary_step now period r :
  1 <= period → r <= now → r + period <= u64_max →
  next_boundary now period (r + period) = next_boundary now period r.
Proof.
  intros Hp Hr Hmax. unfold next_boundary.
  replace (now - (r + period)) with (now - r + (-1) * period) by lia.
  rewrite Z.div_add by lia. destruct (Z.leb_spec r now); [|lia].
  destruct (Z.leb_spec (r + period) now) as [|Hlt].
  - f_equal. lia.
  - assert ((now - r) / period = 0) as -> by (apply Z.div_small; lia). lia.
Qed.

Lemma next_boundary_saturated now period r :
  1 <= period → r <= now → u64_max < r + period → next_boundary now period r = u64_max.
Proof.
  intros. unfold next_boundary. destruct (Z.leb_spec r now); [|lia].
  pose proof (Z.div_pos (now - r) period). nia.
Qed.

Lemma advance_boundary_closed fuel now period r :
  1 <= period → time_ok now → time_ok r →
  (boundary_fuel now period r <= fuel)%nat →
  advance_boundary fuel now period r = Done (next_boundary now period r).
Proof.
  intros Hp Hnow. unfold time_ok, boundary_fuel in *. revert r.
  induction fuel as [|fuel IH]; intros r Hr Hf; [lia|]. simpl.
  destruct (Z.leb_spec r now) as [Hle|Hlt];
    [|unfold next_boundary; destruct (Z.leb_spec r now); [lia|done]].
  pose proof (Z.div_pos (now - r) period) as Hk.
  unfold saturating_add. destruct (Z.le_gt_cases (r + period) u64_max) as [Hfit|Hsat].
  - rewrite Z.min_r by lia. destruct (Z.eqb_spec (r + period) r); [lia|].
    rewrite <-next_boundary_step by lia. apply IH; [lia|].
    replace (now - (r + period)) with (now - r + (-1) * period) by lia.
    rewrite Z.div_add by lia. lia.
  - rewrite Z.min_l, next_boundary_saturated by lia.
    destruct (Z.eqb_spec u64_max r); [done|].
    destruct fuel as [|fuel]; [lia|]. simpl.
    destruct (Z.leb_spec u64_max now); [|done].
    unfold saturating_add. rewrite Z.min_l by lia. by rewrite Z.eqb_refl.
Qed.


Lemma next_boundary_ok now period r :
  1 <= period → time_ok now → time_ok r → time_ok (next_boundary now period r).
Proof.
  unfold time_ok, next_boundary. intros Hp Hnow Hr.
  destruct (Z.leb_spec r now); [|lia]. pose proof (Z.div_pos (now - r) period). nia.
Qed.

Lemma next_boundary_first now period r :
  1 <= period → now + period <= u64_max → r <= now →
  now < next_boundary now period r <= now + period ∧
  ∃ k, 1 <= k ∧ next_boundary now period r = r + k * period.
Proof.
  intros Hp Hmax Hr. unfold next_boundary. destruct (Z.leb_spec r now); [|lia].
  pose proof (Z.div_mod (now - r) period ltac:(lia)) as Hdm.
  pose proof (Z.mod_pos_bound (now - r) period ltac:(lia)).
  pose proof (Z.div_pos (now - r) period ltac:(lia) ltac:(lia)).
  split; [nia|]. exists ((now - r) / period + 1). nia.
Qed.

Lemma throttle_unfold now b s :
  budget_ok b → time_ok now → spec b = Some s → lock_overrun_pending b = true →
  throttle_after_lock_overrun now b =
    Done (Some (next_boundary now (replenishment_period s) (replenishes_at b)),
      mkBudgetState (Some s) 0 (next_boundary now (replenishment_period s) (replenishes_at b))
        None false).
Proof.
  intros Hb Hnow Es Hp. unfold throttle_after_lock_overrun. rewrite Hp, Es.
  unfold budget_ok, BudgetSpec_wf in Hb. rewrite Es in Hb.
  destruct Hb as (? & _ & ? & _). cbv zeta. cbn [negb].
  rewrite advance_boundary_closed; [|lia|done|done|done].
  by rewrite <-Es.
Qed.

Lemma throttle_ok now b :
  budget_ok b → time_ok now →
  wp (throttle_after_lock_overrun now) (λ _ b', budget_ok b') b.
Proof.
  intros Hb Hnow. destruct (lock_overrun_pending b) eqn:Hp.
  2: { unfold wp, throttle_after_lock_overrun. by rewrite Hp. }
  destruct (spec b) as [s|] eqn:Es.
  2: { unfold wp, throttle_after_lock_overrun. by rewrite Hp, Es. }
  unfold wp. rewrite (throttle_unfold now b s) by done.
  unfold budget_ok in *. rewrite Es in Hb. simpl.
  destruct Hb as (Hs & Hr & Hat & _). unfold BudgetSpec_wf in Hs.
  split_and!; try lia; try done. apply next_boundary_ok; lia || done.
Qed.

(** ** Runs of the quota state machine *)

(** The calls the scheduler makes on a task's quota. *)
Inductive budget_op :=
| Dispatch (now : Z)
| SwitchOut (now : Z)
| Timer (now : Z) (scheduler_locked : bool)
| Replenish (now : Z)
| UnlockOverrun (now : Z).

Definition op_time (op : budget_op) : Z :=
  match op with
  | Dispatch now | SwitchOut now | Timer now _ | Replenish now | UnlockOverrun now => now
  end.

Definition budget_exec (op : budget_op) : M BudgetState unit :=
  match op with
  | Dispatch now => modify (on_dispatch now)
  | SwitchOut now => modify (on_switch_out now)
  | Timer now locked => modify (λ b, snd (on_timer now locked b))
  | Replenish now => modify (λ b, snd (replenish_if_due now b))
  | UnlockOverrun now => throttle_after_lock_overrun now ;; mret tt
  end.

Lemma budget_exec_ok op b :
  budget_ok b → time_ok (op_time op) → wp (budget_exec op) (λ _ b', budget_ok b') b.
Proof.
  intros Hb Ht. destruct op as [now|now|now locked|now|now]; simpl in *.
  - by apply wp_modify, on_dispatch_ok.
  - by apply wp_modify, on_switch_out_ok.
  - by apply wp_modify, on_timer_ok.
  - by apply wp_modify, replenish_if_due_ok.
  - apply wp_bind. eapply wp_mono; [|by apply throttle_ok]. intros _r b' Hb'.
    by apply wp_ret.
Qed.

(** C35: whatever sequence of dispatches, switch-outs, timer charges,
    replenishments and lock-overrun throttles the scheduler applies to a quota
    created for a well-formed policy, every call ends (no loop hangs), and the
    quota left never exceeds its capacity. *)
Theorem quota_run_safe (policy : RunPolicy) (start : Z) (ops : list budget_op) :
  RunPolicy_wf policy → time_ok start → Forall (λ op, time_ok (op_time op)) ops →
  wp (for_each ops budget_exec)
    (λ _ b, budget_ok b ∧
       ∀ s, spec b = Some s → 0 <= remaining b <= capacity s)
    (for_policy policy start).
Proof.
  intros Hp Hs Hops.
  apply (wp_for_each (λ _ b, budget_ok b)); [by apply for_policy_ok| |].
  - intros d op rest b Heq Hb. apply budget_exec_ok; [done|].
    subst ops. by apply Forall_app in Hops as [_ [? _]%Forall_cons].
  - intros b Hb. split; [done|]. intros s Es. unfold budget_ok in Hb.
    rewrite Es in Hb. tauto.
Qed.

Lemma quota_run_safe_witness :
  RunPolicy_wf (Budgeted (mkBudgetSpec 5 20)) ∧
  wp (for_each [Dispatch 100; Timer 105 true; UnlockOverrun 145; Replenish 160] budget_exec)
    (λ _ b, budget_ok b ∧ ∀ s, spec b = Some s → 0 <= remaining b <= capacity s)
    (for_policy (Budgeted (mkBudgetSpec 5 20)) 100).
Proof.
  split; [by vm_compute|].
  apply (quota_run_safe (Budgeted (mkBudgetSpec 5 20)) 100
    [Dispatch 100; Timer 105 true; UnlockOverrun 145; Replenish 160]).
  - by vm_compute.
  - by vm_compute.
  - repeat constructor; by vm_compute.
Defined.

(** ** Charging *)

Lemma charge_until_running now b s t :
  budget_ok b → spec b = Some s → running_since b = Some t →
  charge_until now b =
    mkBudgetState (Some s) (saturating_sub (remaining b) (saturating_sub now t))
      (replenishes_at b) (Some now) (lock_overrun_pending b).
Proof.
  intros Hb Es Er. unfold charge_until. rewrite Er. unfold budget_ok in Hb.
  rewrite Es in Hb. destruct Hb as ([? ?] & ? & _ & _).
  destruct b as [sp r ra rs lo]; simpl in *. subst.
  assert (saturating_sub r (saturating_sub now t) =
    saturating_sub r (Z.min (saturating_sub now t) u32_max)) as -> by mlia.
  done.
Qed.

Lemma on_dispatch_before_boundary now b s :
  spec b = Some s → now < replenishes_at b →
  on_dispatch now b = b <| running_since := Some now |>.
Proof.
  intros Es Hlt. unfold on_dispatch, replenish_if_due. rewrite Es.
  destruct (Z.ltb_spec now (replenishes_at b)); [|lia]. rewrite orb_true_r. simpl.
  by rewrite Es.
Qed.

(** One dispatch-to-switch interval. *)
Definition run_slice (b : BudgetState) (slice : Z * Z) : BudgetState :=
  on_switch_out (snd slice) (on_dispatch (fst slice) b).

Definition slice_lengths (slices : list (Z * Z)) : Z :=
  foldr (λ sl acc, (snd sl - fst sl) + acc) 0 slices.

Lemma run_slice_before_boundary b s st en :
  budget_ok b → spec b = Some s → 0 <= st <= en → en < replenishes_at b →
  run_slice b (st, en) =
    mkBudgetState (Some s) (saturating_sub (remaining b) (en - st))
      (replenishes_at b) None (lock_overrun_pending b).
Proof.
  intros Hb Es Hse Hlt. unfold run_slice, on_switch_out; simpl.
  assert (budget_ok (on_dispatch st b)) as Hd.
  { apply on_dispatch_ok; [|done]. unfold budget_ok, time_ok in *. rewrite Es in Hb. lia. }
  rewrite (on_dispatch_before_boundary st b s) in * by (done || lia).
  rewrite (charge_until_running _ _ s st) by done.
  rewrite (saturating_sub_exact en st) by lia. done.
Qed.

(** C36: within one replenishment period, yields and blocks neither refill the
    quota nor lose any of it: after any sequence of run intervals that ends
    before the boundary, the quota left is the initial quota less exactly the
    total run time (RTOS-BUDGET-002, RTOS-BUDGET-005), and the phase stays. *)
Theorem quota_charged_exactly (b : BudgetState) (s : BudgetSpec) (slices : list (Z * Z)) :
  budget_ok b → spec b = Some s →
  Forall (λ sl, 0 <= fst sl <= snd sl ∧ snd sl < replenishes_at b) slices →
  let b' := fold_left run_slice slices b in
  remaining b' = saturating_sub (remaining b) (slice_lengths slices) ∧
  replenishes_at b' = replenishes_at b ∧ spec b' = Some s.
Proof.
  revert b. induction slices as [|[st en] slices IH]; intros b Hb Es Hall; simpl.
  - unfold budget_ok in Hb. rewrite Es in Hb. unfold saturating_sub. split_and!; [lia|done..].
  - apply Forall_cons in Hall as [[Hse Hlt] Hall]; simpl in *.
    assert (budget_ok (run_slice b (st, en))) as Hb'.
    { unfold budget_ok, time_ok in Hb. pose proof Hb as Hb0. rewrite Es in Hb0.
      unfold run_slice; simpl. apply on_switch_out_ok; [unfold time_ok; lia|].
      apply on_dispatch_ok; [unfold time_ok; lia|done]. }
    rewrite (run_slice_before_boundary b s st en) in * by done.
    specialize (IH _ Hb' eq_refl Hall) as (-> & -> & ->); simpl.
    split_and!; try done.
    assert (0 <= slice_lengths slices).
    { clear -Hall. induction slices as [|[??] ? IH]; simpl in *; [lia|].
      apply Forall_cons in Hall as [? ?]; simpl in *. specialize (IH ltac:(done)). lia. }
    unfold saturating_sub. lia.
Qed.

Lemma quota_charged_exactly_witness :
  let b := for_policy (Budgeted (mkBudgetSpec 5 20)) 100 in
  let b' := fold_left run_slice [(101, 103); (105, 106)] b in
  remaining b' = saturating_sub (remaining b) (slice_lengths [(101, 103); (105, 106)]) ∧
  replenishes_at b' = replenishes_at b ∧ spec b' = Some (mkBudgetSpec 5 20).
Proof.
  apply (quota_charged_exactly (for_policy (Budgeted (mkBudgetSpec 5 20)) 100)).
  - apply for_policy_ok; by vm_compute.
  - done.
  - repeat constructor; by vm_compute.
Defined.

(** C37: the exhaustion deadline is exact. For a running task with quota left,
    a timer tick strictly before [exhaustion_deadline] leaves it eligible and a
    tick at or after it exhausts it: throttled at once with no scheduler lock
    held, recorded as pending under a scheduler lock. *)
Theorem exhaustion_deadline_exact (b : BudgetState) (t now d : Z) (locked : bool) :
  budget_ok b → running_since b = Some t → t <= now → time_ok now →
  exhaustion_deadline b = Some d →
  (now < d → fst (on_timer now locked b) = StillAvailable) ∧
  (d <= now → t + remaining b <= u64_max →
     fst (on_timer now locked b) = (if locked then DeferredBySchedulerLock else ThrottleNow) ∧
     remaining (snd (on_timer now locked b)) = 0 ∧
     lock_overrun_pending (snd (on_timer now locked b)) =
       (lock_overrun_pending b || locked)).
Proof.
  intros Hb Er Hle Hnow Hd. unfold exhaustion_deadline in Hd. rewrite Er in Hd. simpl in Hd.
  destruct (Z.eqb_spec (remaining b) 0) as [|Hne]; [done|]. injection Hd as <-.
  destruct (spec b) as [s|] eqn:Es; [|unfold budget_ok in Hb; rewrite Es in Hb; by subst b].
  unfold on_timer. rewrite Es, (charge_until_running now b s t) by done. simpl.
  rewrite (saturating_sub_exact now t) by done.
  unfold budget_ok in Hb. rewrite Es in Hb. destruct Hb as (_ & Hr & _ & _).
  unfold saturating_add, saturating_sub, time_ok in *.
  split.
  - intros Hlt. destruct (Z.eqb_spec (Z.max 0 (remaining b - (now - t))) 0); [lia|done].
  - intros Hge Hfit. destruct (Z.eqb_spec (Z.max 0 (remaining b - (now - t))) 0) as [->|]; [|lia].
    destruct locked; simpl; rewrite ?orb_true_r, ?orb_false_r; done.
Qed.

Lemma exhaustion_deadline_exact_witness :
  let b := on_dispatch 102 (for_policy (Budgeted (mkBudgetSpec 5 20)) 100) in
  (106 < 107 → fst (on_timer 106 false b) = StillAvailable) ∧
  (107 <= 106 → 102 + remaining b <= u64_max →
    fst (on_timer 106 false b) = ThrottleNow ∧
    remaining (snd (on_timer 106 false b)) = 0 ∧
    lock_overrun_pending (snd (on_timer 106 false b)) = (lock_overrun_pending b || false)).
Proof.
  apply (exhaustion_deadline_exact
    (on_dispatch 102 (for_policy (Budgeted (mkBudgetSpec 5 20)) 100)) 102 106 107 false);
    try done.
  apply on_dispatch_ok; [by vm_compute|]. apply for_policy_ok; by vm_compute.
Defined.

(** C38: replenishment keeps the phase. A due, unlocked quota is restored to
    exactly its capacity and its next boundary is the first point of the
    original grid strictly after [now], however many periods were missed
    (RTOS-BUDGET-004); before the boundary, or with a lock overrun pending,
    nothing changes. *)
Theorem replenish_keeps_phase (now : Z) (b : BudgetState) (s : BudgetSpec) :
  budget_ok b → spec b = Some s → time_ok now →
  (lock_overrun_pending b = true ∨ now < replenishes_at b →
     replenish_if_due now b = (false, b)) ∧
  (lock_overrun_pending b = false → replenishes_at b <= now →
   now + replenishment_period s <= u64_max →
     fst (replenish_if_due now b) = true ∧
     let b' := snd (replenish_if_due now b) in
     remaining b' = capacity s ∧
     now < replenishes_at b' <= now + replenishment_period s ∧
     (∃ k, 1 <= k ∧ replenishes_at b' = replenishes_at b + k * replenishment_period s)).
Proof.
  intros Hb Es Hnow. unfold budget_ok, BudgetSpec_wf, time_ok in *. rewrite Es in Hb.
  destruct Hb as ((Hc & Hp) & _ & Hat & _).
  unfold replenish_if_due. rewrite Es. split.
  - intros [->|Hlt]; [done|]. destruct (Z.ltb_spec now (replenishes_at b)); [|lia].
    by rewrite orb_true_r.
  - intros -> Hdue Hfit. destruct (Z.ltb_spec now (replenishes_at b)); [lia|]. simpl.
    pose proof (next_boundary_first now (replenishment_period s) (replenishes_at b)
      ltac:(lia) Hfit Hdue) as [Hrange (k & Hk & Hnext)].
    set (q := (now - replenishes_at b) / replenishment_period s) in *.
    assert (0 <= q) by (apply Z.div_pos; lia).
    pose proof (Z.mul_div_le (now - replenishes_at b) (replenishment_period s) ltac:(lia)).
    fold q in H1.
    assert (saturating_add u64_max (replenishes_at b)
              (saturating_mul u64_max (q + 1) (replenishment_period s)) =
            next_boundary now (replenishment_period s) (replenishes_at b)) as ->.
    { unfold next_boundary. destruct (Z.leb_spec (replenishes_at b) now); [|lia].
      fold q. unfold saturating_add, saturating_mul. nia. }
    split_and!; try done; try lia. by exists k.
Qed.

Lemma replenish_keeps_phase_witness :
  let s := mkBudgetSpec 5 20 in
  let b := for_policy (Budgeted s) 100 in
  (lock_overrun_pending b = true ∨ 1000 < replenishes_at b →
     replenish_if_due 1000 b = (false, b)) ∧
  (lock_overrun_pending b = false → replenishes_at b <= 1000 →
   1000 + replenishment_period s <= u64_max →
     fst (replenish_if_due 1000 b) = true ∧
     let b' := snd (replenish_if_due 1000 b) in
     remaining b' = capacity s ∧
     1000 < replenishes_at b' <= 1000 + replenishment_period s ∧
     (∃ k, 1 <= k ∧ replenishes_at b' = replenishes_at b + k * replenishment_period s)).
Proof.
  apply (replenish_keeps_phase 1000 (for_policy (Budgeted (mkBudgetSpec 5 20)) 100)
    (mkBudgetSpec 5 20)); [apply for_policy_ok; by vm_compute|done|by vm_compute].
Defined.

(** C39: a scheduler lock cannot erase an exhaustion (RTOS-BUDGET-006). Once a
    timer charge under a scheduler lock has exhausted the quota, no
    replenishment at any later time takes effect until the outermost unlock;
    the unlock's loop ends, leaves no quota, and postpones eligibility to the
    first boundary of the original grid strictly after the unlock. *)
Theorem lock_overrun_survives (b : BudgetState) (s : BudgetSpec) (at_timer at_unlock : Z) :
  budget_ok b → spec b = Some s → time_ok at_timer → time_ok at_unlock →
  at_unlock + replenishment_period s <= u64_max →
  fst (on_timer at_timer true b) = DeferredBySchedulerLock →
  let b' := snd (on_timer at_timer true b) in
  (∀ t, replenish_if_due t b' = (false, b')) ∧
  wp (throttle_after_lock_overrun at_unlock) (λ r b'',
       r = Some (replenishes_at b'') ∧ remaining b'' = 0 ∧
       lock_overrun_pending b'' = false ∧ at_unlock < replenishes_at b'' ∧
       (∃ k, 0 <= k ∧ replenishes_at b'' = replenishes_at b + k * replenishment_period s) ∧
       (∀ t, t < replenishes_at b'' → fst (replenish_if_due t b'') = false)) b'.
Proof.
  intros Hb Es Ht Hu Hfit Hdef.
  pose proof (on_timer_ok at_timer true b Ht Hb) as Hok.
  assert (spec (snd (on_timer at_timer true b)) = Some s ∧
    lock_overrun_pending (snd (on_timer at_timer true b)) = true ∧
    replenishes_at (snd (on_timer at_timer true b)) = replenishes_at b) as (Es' & Hl & Hat).
  { revert Hdef. unfold on_timer. rewrite Es. unfold charge_until.
    destruct (running_since b); simpl; case_match; done. }
  revert Hok Es' Hl Hat. generalize (snd (on_timer at_timer true b)) as b'.
  intros b' Hok Es' Hl Hat. split.
  - intros t. unfold replenish_if_due. by rewrite Es', Hl.
  - unfold wp. rewrite (throttle_unfold at_unlock b' s) by done. simpl.
    assert (1 <= replenishment_period s) as Hp.
    { unfold budget_ok, BudgetSpec_wf in Hb. rewrite Es in Hb. lia. }
    assert (at_unlock < next_boundary at_unlock (replenishment_period s) (replenishes_at b') ∧
      ∃ k, 0 <= k ∧ next_boundary at_unlock (replenishment_period s) (replenishes_at b') =
        replenishes_at b + k * replenishment_period s) as [Hlt Hk].
    { rewrite <-Hat. destruct (Z.le_gt_cases (replenishes_at b') at_unlock) as [Hle|Hgt].
      - destruct (next_boundary_first at_unlock (replenishment_period s) (replenishes_at b'))
          as [? (k & ? & ?)]; [lia..|]. split; [lia|]. exists k. lia.
      - unfold next_boundary. destruct (Z.leb_spec (replenishes_at b') at_unlock); [lia|].
        split; [lia|]. exists 0. lia. }
    split_and!; try done. intros t Hlt'. unfold replenish_if_due; simpl.
    zcases; [done|lia].
Qed.

Lemma lock_overrun_survives_witness :
  let s := mkBudgetSpec 5 20 in
  let b := on_dispatch 100 (for_policy (Budgeted s) 100) in
  let b' := snd (on_timer 105 true b) in
  (∀ t, replenish_if_due t b' = (false, b')) ∧
  wp (throttle_after_lock_overrun 145) (λ r b'',
       r = Some (replenishes_at b'') ∧ remaining b'' = 0 ∧
       lock_overrun_pending b'' = false ∧ 145 < replenishes_at b'' ∧
       (∃ k, 0 <= k ∧ replenishes_at b'' = replenishes_at b + k * replenishment_period s) ∧
       (∀ t, t < replenishes_at b'' → fst (replenish_if_due t b'') = false)) b'.
Proof.
  apply (lock_overrun_survives (on_dispatch 100 (for_policy (Budgeted (mkBudgetSpec 5 20)) 100))
    (mkBudgetSpec 5 20) 105 145); [|done|by vm_compute..|done].
  apply on_dispatch_ok; [by vm_compute|]. apply for_policy_ok; by vm_compute.
Defined.
