(* ===== verification/Contract.v ===== *)
(** * The names of the driver contract ([hisi_rf_rtos_driver])

    The crate is not part of the repository. What the repository's code uses of it
    is data: error and outcome values it returns, requests it reads through
    accessors, and identifiers it builds from and turns back into integers. The
    types below list exactly the variants and accessors the source names; a
    [TaskId], a [TaskReservation] and a handle are the integers their [from_raw]
    takes and their [into_raw] gives back. *)

From S2P Require Import Prelude Effects.

Inductive DriverError :=
| InvalidContext
| InvalidHandle
| NoTaskSlots
| ResourceExhausted
| Runtime
| IncompatibleExecutionProfile
| IncompatibleContract.

#[export] Instance DriverError_eq_dec : EqDecision DriverError.
Proof. solve_decision. Defined.

Inductive TaskAdmissionError :=
| AdmissionRuntime (e : DriverError)
| InsufficientTaskSlots (required available : Z)
| InsufficientTaskGroupSlots (owner required available : Z)
| InsufficientTaskStackMemory (required available : Z)
| InsufficientTaskGroupStackMemory (owner required available largest_contiguous : Z).

#[export] Instance TaskAdmissionError_eq_dec : EqDecision TaskAdmissionError.
Proof. solve_decision. Defined.

(** The accessors of [TaskResourceRequirements]. *)
Record TaskResourceRequirements := mkRequirements {
  task_slots : Z;
  stack_bytes_per_task : Z;
  total_stack_bytes : Z;
}.

(** The accessors of one group of a [TaskResourcePlan]. *)
Record TaskResourceGroup := mkGroup {
  owner : Z;
  resources : TaskResourceRequirements;
}.

(** [plan.groups()] *)
Abbreviation TaskResourcePlan := (list TaskResourceGroup) (only parsing).

(** [NonZeroUsize] slots and stack size. *)
Definition requirements_wf (r : TaskResourceRequirements) : Prop :=
  1 <= r.(task_slots) <= usize_max ∧ 1 <= r.(stack_bytes_per_task) <= usize_max.

Abbreviation TaskId := Z (only parsing).
Abbreviation TaskReservation := Z (only parsing).

Inductive WaitCancellationOutcome := Cancelled | NotWaiting.
Inductive WaitOutcome := Acquired | TimedOut.
Inductive WaitTimeout := NoWait | Milliseconds (value : Z) | Forever.

#[export] Instance WaitCancellationOutcome_eq_dec : EqDecision WaitCancellationOutcome.
Proof. solve_decision. Defined.

Inductive TaskExecutionPolicy :=
| ExecCooperative
| ExecBudgeted (capacity_ms replenishment_period_ms : Z)
| ExecPreemptive (time_slice_ms : Z).

(** [TASK_PRIORITY_LEVELS]: the contract's priorities are 0 (highest) to 31. *)
Definition PRIORITY_LEVELS : Z := 32.
