(* ===== verification/Config.v ===== *)
(** * Configuration and diagnostics records ([src/config.rs])

    The scheduler's constants, the start configurations, and the records of the
    read-only snapshots. [Diagnostics] fields carry the prefix [d_] and
    [TaskDiagnostic] fields [td_], since Rocq projections share one name space. *)

From S2P Require Import Prelude Effects Budget Contract.

Definition ADOPTED_MAIN_TASKS : Z := 1.
Definition INTERNAL_IDLE_TASKS : Z := 1.
Definition DYNAMIC_TASK_CAPACITY : Z := 15.
Definition NO_READY_QUEUE_BUCKET : Z := u8_max.
Definition TASK_SLOT_COUNT : Z :=
  ADOPTED_MAIN_TASKS + INTERNAL_IDLE_TASKS + DYNAMIC_TASK_CAPACITY.
(** The same bound as loop fuel. *)
Definition task_slots_nat : nat := 17.

(** [src/runtime.rs]: the idle slot, the no-task sentinel of intrusive links, and
    the layout of a task identity. *)
Definition IDLE_SLOT : Z := 1.
Definition IDLE_STACK_SIZE : Z := 2048.
Definition NIL : Z := usize_max.
Definition TASK_SLOT_BITS : Z := 8.
Definition TASK_SLOT_MASK : Z := Z.shiftl 1 TASK_SLOT_BITS - 1.

Inductive ContractViolation :=
| SchedulerLockOverrun (task_slot held_ms limit_ms : Z).

Record CooperativeConfig := mkCooperativeConfig {
  cc_minimum_stack_size : Z;
}.
Definition CooperativeConfig_default : CooperativeConfig := mkCooperativeConfig (24 * 1024).

Record PortedConfig := mkPortedConfig {
  pc_minimum_stack_size : Z;
  pc_radio_task_policy : RunPolicy;
  pc_max_scheduler_lock_duration : Z;
}.
Definition PortedConfig_default : PortedConfig :=
  mkPortedConfig CooperativeConfig_default.(cc_minimum_stack_size) Cooperative 100.

Inductive StartError := AlreadyStarted | StartDriver (e : DriverError).

Record Diagnostics := mkDiagnostics {
  d_context_switches : Z;
  d_irq_preemptions : Z;
  d_timer_interrupts : Z;
  d_software_interrupts : Z;
  d_switch_race_recoveries : Z;
  d_switch_intents_created : Z;
  d_switch_intents_committed : Z;
  d_switch_intents_cancelled_stale : Z;
  d_switch_intents_cancelled_identity : Z;
  d_switch_intents_completed : Z;
  d_detached_pending_priority_mutations : Z;
  d_detached_pending_policy_mutations : Z;
  d_ready_ownership_violations : Z;
  d_ready_queue_duplicate_memberships : Z;
  d_ready_queue_wrong_priorities : Z;
  d_ready_queue_invalid_links : Z;
  d_time_slice_preemptions : Z;
  d_priority_inheritances : Z;
  d_yields : Z;
  d_sleeps : Z;
  d_sleeper_wakes : Z;
  d_semaphore_blocks : Z;
  d_semaphore_wakes : Z;
  d_semaphore_timeouts : Z;
  d_scheduler_locks : Z;
  d_scheduler_lock_overruns : Z;
  d_budget_exhaustions : Z;
  d_budget_throttles : Z;
  d_budget_replenishments : Z;
  d_budget_lock_overruns : Z;
  d_current_task : Z;
  d_ready_tasks : Z;
  d_blocked_tasks : Z;
  d_sleeping_tasks : Z;
  d_throttled_tasks : Z;
  d_internal_tasks : Z;
  d_dynamic_capacity : Z;
  d_dynamic_used : Z;
  d_dynamic_reserved : Z;
  d_dynamic_free : Z;
  d_current_lock_depth : Z;
}.

#[export] Instance eta_Diagnostics : Eta Diagnostics := λ d,
  mkDiagnostics
    (d_context_switches d) (d_irq_preemptions d) (d_timer_interrupts d)
    (d_software_interrupts d) (d_switch_race_recoveries d) (d_switch_intents_created d)
    (d_switch_intents_committed d) (d_switch_intents_cancelled_stale d)
    (d_switch_intents_cancelled_identity d) (d_switch_intents_completed d)
    (d_detached_pending_priority_mutations d) (d_detached_pending_policy_mutations d)
    (d_ready_ownership_violations d) (d_ready_queue_duplicate_memberships d)
    (d_ready_queue_wrong_priorities d) (d_ready_queue_invalid_links d)
    (d_time_slice_preemptions d) (d_priority_inheritances d) (d_yields d) (d_sleeps d)
    (d_sleeper_wakes d) (d_semaphore_blocks d) (d_semaphore_wakes d)
    (d_semaphore_timeouts d) (d_scheduler_locks d) (d_scheduler_lock_overruns d)
    (d_budget_exhaustions d) (d_budget_throttles d) (d_budget_replenishments d)
    (d_budget_lock_overruns d) (d_current_task d) (d_ready_tasks d) (d_blocked_tasks d)
    (d_sleeping_tasks d) (d_throttled_tasks d) (d_internal_tasks d) (d_dynamic_capacity d)
    (d_dynamic_used d) (d_dynamic_reserved d) (d_dynamic_free d) (d_current_lock_depth d).
#[export] Instance field_d_context_switches : Field d_context_switches.
Proof. derive_field. Defined.
#[export] Instance field_d_irq_preemptions : Field d_irq_preemptions.
Proof. derive_field. Defined.
#[export] Instance field_d_timer_interrupts : Field d_timer_interrupts.
Proof. derive_field. Defined.
#[export] Instance field_d_software_interrupts : Field d_software_interrupts.
Proof. derive_field. Defined.
#[export] Instance field_d_switch_race_recoveries : Field d_switch_race_recoveries.
Proof. derive_field. Defined.
#[export] Instance field_d_switch_intents_created : Field d_switch_intents_created.
Proof. derive_field. Defined.
#[export] Instance field_d_switch_intents_committed : Field d_switch_intents_committed.
Proof. derive_field. Defined.
#[export] Instance field_d_switch_intents_cancelled_stale : Field d_switch_intents_cancelled_stale.
Proof. derive_field. Defined.
#[export] Instance field_d_switch_intents_cancelled_identity : Field d_switch_intents_cancelled_identity.
Proof. derive_field. Defined.
#[export] Instance field_d_switch_intents_completed : Field d_switch_intents_completed.
Proof. derive_field. Defined.
#[export] Instance field_d_detached_pending_priority_mutations : Field d_detached_pending_priority_mutations.
Proof. derive_field. Defined.
#[export] Instance field_d_detached_pending_policy_mutations : Field d_detached_pending_policy_mutations.
Proof. derive_field. Defined.
#[export] Instance field_d_ready_ownership_violations : Field d_ready_ownership_violations.
Proof. derive_field. Defined.
#[export] Instance field_d_ready_queue_duplicate_memberships : Field d_ready_queue_duplicate_memberships.
Proof. derive_field. Defined.
#[export] Instance field_d_ready_queue_wrong_priorities : Field d_ready_queue_wrong_priorities.
Proof. derive_field. Defined.
#[export] Instance field_d_ready_queue_invalid_links : Field d_ready_queue_invalid_links.
Proof. derive_field. Defined.
#[export] Instance field_d_time_slice_preemptions : Field d_time_slice_preemptions.
Proof. derive_field. Defined.
#[export] Instance field_d_priority_inheritances : Field d_priority_inheritances.
Proof. derive_field. Defined.
#[export] Instance field_d_yields : Field d_yields.
Proof. derive_field. Defined.
#[export] Instance field_d_sleeps : Field d_sleeps.
Proof. derive_field. Defined.
#[export] Instance field_d_sleeper_wakes : Field d_sleeper_wakes.
Proof. derive_field. Defined.
#[export] Instance field_d_semaphore_blocks : Field d_semaphore_blocks.
Proof. derive_field. Defined.
#[export] Instance field_d_semaphore_wakes : Field d_semaphore_wakes.
Proof. derive_field. Defined.
#[export] Instance field_d_semaphore_timeouts : Field d_semaphore_timeouts.
Proof. derive_field. Defined.
#[export] Instance field_d_scheduler_locks : Field d_scheduler_locks.
Proof. derive_field. Defined.
#[export] Instance field_d_scheduler_lock_overruns : Field d_scheduler_lock_overruns.
Proof. derive_field. Defined.
#[export] Instance field_d_budget_exhaustions : Field d_budget_exhaustions.
Proof. derive_field. Defined.
#[export] Instance field_d_budget_throttles : Field d_budget_throttles.
Proof. derive_field. Defined.
#[export] Instance field_d_budget_replenishments : Field d_budget_replenishments.
Proof. derive_field. Defined.
#[export] Instance field_d_budget_lock_overruns : Field d_budget_lock_overruns.
Proof. derive_field. Defined.
#[export] Instance field_d_current_task : Field d_current_task.
Proof. derive_field. Defined.
#[export] Instance field_d_ready_tasks : Field d_ready_tasks.
Proof. derive_field. Defined.
#[export] Instance field_d_blocked_tasks : Field d_blocked_tasks.
Proof. derive_field. Defined.
#[export] Instance field_d_sleeping_tasks : Field d_sleeping_tasks.
Proof. derive_field. Defined.
#[export] Instance field_d_throttled_tasks : Field d_throttled_tasks.
Proof. derive_field. Defined.
#[export] Instance field_d_internal_tasks : Field d_internal_tasks.
Proof. derive_field. Defined.
#[export] Instance field_d_dynamic_capacity : Field d_dynamic_capacity.
Proof. derive_field. Defined.
#[export] Instance field_d_dynamic_used : Field d_dynamic_used.
Proof. derive_field. Defined.
#[export] Instance field_d_dynamic_reserved : Field d_dynamic_reserved.
Proof. derive_field. Defined.
#[export] Instance field_d_dynamic_free : Field d_dynamic_free.
Proof. derive_field. Defined.
#[export] Instance field_d_current_lock_depth : Field d_current_lock_depth.
Proof. derive_field. Defined.

Definition Diagnostics_EMPTY : Diagnostics := {|
  d_context_switches := 0;
  d_irq_preemptions := 0;
  d_timer_interrupts := 0;
  d_software_interrupts := 0;
  d_switch_race_recoveries := 0;
  d_switch_intents_created := 0;
  d_switch_intents_committed := 0;
  d_switch_intents_cancelled_stale := 0;
  d_switch_intents_cancelled_identity := 0;
  d_switch_intents_completed := 0;
  d_detached_pending_priority_mutations := 0;
  d_detached_pending_policy_mutations := 0;
  d_ready_ownership_violations := 0;
  d_ready_queue_duplicate_memberships := 0;
  d_ready_queue_wrong_priorities := 0;
  d_ready_queue_invalid_links := 0;
  d_time_slice_preemptions := 0;
  d_priority_inheritances := 0;
  d_yields := 0;
  d_sleeps := 0;
  d_sleeper_wakes := 0;
  d_semaphore_blocks := 0;
  d_semaphore_wakes := 0;
  d_semaphore_timeouts := 0;
  d_scheduler_locks := 0;
  d_scheduler_lock_overruns := 0;
  d_budget_exhaustions := 0;
  d_budget_throttles := 0;
  d_budget_replenishments := 0;
  d_budget_lock_overruns := 0;
  d_current_task := 0;
  d_ready_tasks := 0;
  d_blocked_tasks := 0;
  d_sleeping_tasks := 0;
  d_throttled_tasks := 0;
  d_internal_tasks := ADOPTED_MAIN_TASKS + INTERNAL_IDLE_TASKS;
  d_dynamic_capacity := DYNAMIC_TASK_CAPACITY;
  d_dynamic_used := 0;
  d_dynamic_reserved := 0;
  d_dynamic_free := DYNAMIC_TASK_CAPACITY;
  d_current_lock_depth := 0;
|}.

Inductive TaskState := TFree | TReady | TRunning | TBlocked | TSleeping | TThrottled.

Record TaskDiagnostic := mkTaskDiagnostic {
  td_task : Z;
  td_generation : Z;
  td_state : TaskState;
  td_ready_queued : bool;
  td_pending_switch_target : bool;
  td_ready_queue_bucket : Z;
  td_ready_queue_memberships : Z;
  td_entry : Z;
  td_stack_size : Z;
  td_waiting_sem : Z;
  td_waiting_mutex : Z;
  td_wake_at : Z;
  td_base_priority : Z;
  td_priority : Z;
  td_scheduler_lock_depth : Z;
  td_run_policy : RunPolicy;
  td_budget_remaining : Z;
  td_budget_replenishes_at : Z;
  td_cpu_time_ms : Z;
  td_irq_time_ms : Z;
  td_dispatches : Z;
  td_budget_exhaustions : Z;
  td_max_continuous_run_ms : Z;
  td_max_ready_latency_ms : Z;
  td_scheduler_lock_entries : Z;
  td_max_scheduler_lock_ms : Z;
  td_irq_entries : Z;
  td_max_irq_span_ms : Z;
}.
