(* ===== verification/Resource.v ===== *)
(** * Generation-bearing resource handles ([src/runtime/resource.rs])

    The registry maps a handle, a [usize] packing a slot and a generation, to the
    address of a live semaphore or mutex. The theorems state the packing as a
    round trip, the registry as a finite map keyed by handles, and that a handle
    of a destroyed resource stays dead until its slot's generation has wrapped. *)

From S2P Require Import Prelude Effects Contract.

Definition HANDLE_SLOT_BITS : Z := 8.
Definition HANDLE_SLOT_MASK : Z := Z.shiftl 1 HANDLE_SLOT_BITS - 1.
Definition HANDLE_GENERATION_MAX : Z := Z.shiftr usize_max HANDLE_SLOT_BITS.
Definition RESOURCE_HANDLE_CAPACITY : Z := 32.

Inductive ResourceKind := KSemaphore | KMutex.

#[export] Instance ResourceKind_eq_dec : EqDecision ResourceKind.
Proof. solve_decision. Defined.

Record ResourceSlot := mkSlot {
  pointer : Z;
  generation : Z;
  kind : ResourceKind;
}.

#[export] Instance eta_ResourceSlot : Eta ResourceSlot := λ e,
  mkSlot (pointer e) (generation e) (kind e).
#[export] Instance field_pointer : Field pointer. Proof. derive_field. Defined.
#[export] Instance field_generation : Field generation. Proof. derive_field. Defined.
#[export] Instance field_kind : Field kind. Proof. derive_field. Defined.

Definition ResourceSlot_EMPTY : ResourceSlot := mkSlot 0 0 KSemaphore.

(** [ResourceTable<N>] is its array of slots, of length [N]. *)
Abbreviation ResourceTable := (list ResourceSlot) (only parsing).

Definition new (N : nat) : ResourceTable := replicate N ResourceSlot_EMPTY.

Definition next_generation (current : Z) : Z :=
  if (current =? 0) || (current =? HANDLE_GENERATION_MAX) then 1 else current + 1.

Definition encode_handle (slot generation : Z) : result DriverError Z :=
  if (HANDLE_SLOT_MASK <=? slot) || (generation =? 0) || (HANDLE_GENERATION_MAX <? generation)
  then Err Runtime
  else
    let raw := Z.lor (Z.shiftl generation HANDLE_SLOT_BITS) (slot + 1) in
    if raw =? 0 then Err Runtime else Ok raw.

Definition decode_handle (N : Z) (raw : Z) : result DriverError (Z * Z) :=
  let encoded_slot := Z.land raw HANDLE_SLOT_MASK in
  let generation := Z.shiftr raw HANDLE_SLOT_BITS in
  if (encoded_slot =? 0) || (N <? encoded_slot) || (generation =? 0)
  then Err InvalidHandle
  else Ok (encoded_slot - 1, generation).

(** [&self.slots[slot]]; the source panics out of range. *)
Definition slot_at (slot : Z) : M ResourceTable ResourceSlot :=
  t ← gets id; expect (idx t slot).

Definition resolve (handle : Z) (k : ResourceKind) : M ResourceTable (result DriverError Z) :=
  t ← gets id;
  match decode_handle (Z.of_nat (length t)) handle with
  | Err e => mret (Err e)
  | Ok (slot, gen) =>
      entry ← slot_at slot;
      if (entry.(pointer) =? 0) || negb (entry.(generation) =? gen)
         || negb (bool_decide (entry.(kind) = k))
      then mret (Err InvalidHandle)
      else mret (Ok entry.(pointer))
  end.

Definition insert (ptr : Z) (k : ResourceKind) : M ResourceTable (result DriverError Z) :=
  t ← gets id;
  match position (λ e, e.(pointer) =? 0) t with
  | None => mret (Err ResourceExhausted)
  | Some slot =>
      entry ← slot_at slot;
      let gen := next_generation entry.(generation) in
      modify (λ t, alter_at (λ e,
        e <| generation := gen |> <| pointer := ptr |> <| kind := k |>) t slot) ;;
      mret (encode_handle slot gen)
  end.

Definition remove (handle : Z) (k : ResourceKind) : M ResourceTable (result DriverError Z) :=
  ptr ←? resolve handle k;
  t ← gets id;
  match decode_handle (Z.of_nat (length t)) handle with
  | Err e => mret (Err e)
  | Ok (slot, _) =>
      _ ← slot_at slot;
      modify (λ t, alter_at (λ e, e <| pointer := 0 |>) t slot) ;;
      mret (Ok ptr)
  end.

(** ** The packing *)

Lemma handle_constants :
  HANDLE_SLOT_MASK = 255 ∧ HANDLE_GENERATION_MAX = 16777215 ∧ HANDLE_SLOT_BITS = 8.
Proof. done. Qed.

Definition slot_ok (N slot : Z) : Prop := 0 <= slot < N ∧ N <= 255.
Definition generation_ok (gen : Z) : Prop := 1 <= gen <= HANDLE_GENERATION_MAX.

Lemma encode_handle_Ok N slot gen :
  slot_ok N slot → generation_ok gen →
  encode_handle slot gen = Ok (gen * 256 + (slot + 1)).
Proof.
  unfold slot_ok, generation_ok, encode_handle. destruct handle_constants as (-> & -> & ->).
  intros Hs Hg. rewrite lor_shiftl_pack by lia. change (2 ^ 8) with 256.
  zcases; done || lia.
Qed.

Lemma decode_handle_pack N slot gen :
  slot_ok N slot → generation_ok gen →
  decode_handle N (gen * 256 + (slot + 1)) = Ok (slot, gen).
Proof.
  unfold slot_ok, generation_ok, decode_handle. intros Hs Hg.
  change HANDLE_SLOT_MASK with (Z.shiftl 1 8 - 1). rewrite land_mask by lia.
  change HANDLE_SLOT_BITS with 8. rewrite Z.shiftr_div_pow2 by lia.
  change (2 ^ 8) with 256. rewrite pack_div, pack_mod by lia.
  zcases; try lia. do 2 f_equal; lia.
Qed.

Lemma decode_handle_inv N raw slot gen :
  0 <= raw <= usize_max → N <= 255 → decode_handle N raw = Ok (slot, gen) →
  raw = gen * 256 + (slot + 1) ∧ slot_ok N slot ∧ generation_ok gen.
Proof.
  unfold decode_handle, slot_ok, generation_ok. intros Hraw HN.
  change HANDLE_SLOT_MASK with (Z.shiftl 1 8 - 1). rewrite land_mask by lia.
  change HANDLE_SLOT_BITS with 8. rewrite Z.shiftr_div_pow2 by lia. change (2 ^ 8) with 256.
  destruct handle_constants as (_ & -> & _).
  pose proof (Z.div_mod raw 256 ltac:(lia)). pose proof (Z.mod_pos_bound raw 256 ltac:(lia)).
  unfold usize_max in *. zcases; try done. intros [= <- <-]. lia.
Qed.

(** The handle packing is a bijection between the slots and generations of a
    table and the handles it decodes. Every slot of a table of at most 255 slots
    with a generation in range encodes to a [usize] that decodes back to it, and
    every [usize] the decoder accepts is the encoding of what it returns. *)
Theorem handle_roundtrip (N : Z) :
  N <= 255 →
  (∀ slot gen, 0 <= slot < N → generation_ok gen →
     ∃ raw, encode_handle slot gen = Ok raw ∧ 0 < raw <= usize_max ∧
       decode_handle N raw = Ok (slot, gen)) ∧
  (∀ raw slot gen, 0 <= raw <= usize_max → decode_handle N raw = Ok (slot, gen) →
     0 <= slot < N ∧ generation_ok gen ∧ encode_handle slot gen = Ok raw).
Proof.
  intros HN. split.
  - intros slot gen Hs Hg. exists (gen * 256 + (slot + 1)).
    split; [by apply (encode_handle_Ok N)|]. split; [|by apply decode_handle_pack].
    unfold generation_ok, usize_max in *. destruct handle_constants as (_ & Hm & _). lia.
  - intros raw slot gen Hraw Hd.
    destruct (decode_handle_inv N raw slot gen Hraw HN Hd) as (-> & Hs & Hg).
    split; [apply Hs|]. split; [done|]. by apply (encode_handle_Ok N).
Qed.

Lemma handle_roundtrip_witness :
  (∀ slot gen, 0 <= slot < 32 → generation_ok gen →
     ∃ raw, encode_handle slot gen = Ok raw ∧ 0 < raw <= usize_max ∧
       decode_handle 32 raw = Ok (slot, gen)) ∧
  (∀ raw slot gen, 0 <= raw <= usize_max → decode_handle 32 raw = Ok (slot, gen) →
     0 <= slot < 32 ∧ generation_ok gen ∧ encode_handle slot gen = Ok raw).
Proof. apply (handle_roundtrip 32). lia. Defined.

(** ** The registry as a finite map *)

(** What the table promises about a handle: the address and kind it names. *)
Definition live (t : ResourceTable) (h : Z) : option (Z * ResourceKind) :=
  match decode_handle (Z.of_nat (length t)) h with
  | Err _ => None
  | Ok (slot, gen) =>
      e ← idx t slot;
      if negb (e.(pointer) =? 0) && (e.(generation) =? gen)
      then Some (e.(pointer), e.(kind)) else None
  end.

Definition slot_entry_ok (e : ResourceSlot) : Prop :=
  0 <= e.(generation) <= HANDLE_GENERATION_MAX ∧ (e.(pointer) ≠ 0 → 1 <= e.(generation)).

Definition table_ok (t : ResourceTable) : Prop :=
  Z.of_nat (length t) <= 255 ∧ ∀ i e, idx t i = Some e → slot_entry_ok e.

Lemma new_ok N : Z.of_nat N <= 255 → table_ok (new N).
Proof.
  intros HN. unfold table_ok, new. rewrite length_replicate. split; [done|].
  intros i e. rewrite idx_replicate. case_match; [|done]. intros [= <-].
  unfold slot_entry_ok. simpl. destruct handle_constants as (_ & -> & _). lia.
Qed.

Lemma next_generation_ok g :
  0 <= g <= HANDLE_GENERATION_MAX → generation_ok (next_generation g).
Proof.
  unfold next_generation, generation_ok. destruct handle_constants as (_ & -> & _).
  intros. zcases; lia.
Qed.

Lemma decode_in_table t h slot gen :
  table_ok t → decode_handle (Z.of_nat (length t)) h = Ok (slot, gen) → in_range t slot.
Proof.
  unfold table_ok, in_range, decode_handle. intros [Hl _].
  change HANDLE_SLOT_MASK with (Z.shiftl 1 8 - 1). rewrite land_mask by lia.
  pose proof (Z.mod_pos_bound h (2 ^ 8) ltac:(lia)).
  zcases; try done. intros [= <- <-]. lia.
Qed.

(** [resolve] reads the map: it never panics and never changes the table. *)
Lemma resolve_live t h k :
  table_ok t →
  resolve h k t = Done (
    match live t h with
    | Some (p, k') => if decide (k' = k) then Ok p else Err InvalidHandle
    | None => Err InvalidHandle
    end, t).
Proof.
  intros Ht. unfold resolve, live, slot_at, expect, gets, mbind, M_bind, id.
  destruct (decode_handle _ h) as [[slot gen]|e] eqn:Hd.
  - destruct (idx_is_Some t slot) as [_ Hs].
    destruct Hs as [e He]; [by eapply decode_in_table|]. rewrite He. simpl.
    unfold mret, M_ret, bool_decide.
    destruct (pointer e =? 0), (generation e =? gen); simpl; repeat case_decide; done.
  - unfold decode_handle in Hd. revert Hd. zcases; by intros [= <-].
Qed.

Lemma live_in_range t h p k :
  live t h = Some (p, k) →
  ∃ slot gen e, decode_handle (Z.of_nat (length t)) h = Ok (slot, gen) ∧
    idx t slot = Some e ∧ e.(pointer) = p ∧ e.(kind) = k ∧ e.(generation) = gen ∧ p ≠ 0.
Proof.
  unfold live. destruct (decode_handle _ h) as [[slot gen]|]; [|done].
  destruct (idx t slot) as [e|] eqn:He; [|done]. simpl.
  destruct (Z.eqb_spec (pointer e) 0), (Z.eqb_spec (generation e) gen); simpl; try done.
  intros [= <- <-]. naive_solver.
Qed.

(** Changing one slot changes [live] at the handles of that slot only. *)
Lemma live_alter t g slot h :
  live (alter_at g t slot) h =
    match decode_handle (Z.of_nat (length t)) h with
    | Err _ => None
    | Ok (s, gen) =>
        e ← (if decide (s = slot) then g <$> idx t slot else idx t s);
        if negb (e.(pointer) =? 0) && (e.(generation) =? gen)
        then Some (e.(pointer), e.(kind)) else None
    end.
Proof.
  unfold live. rewrite length_alter_at.
  destruct (decode_handle _ h) as [[s gen]|]; [|done].
  case_decide as Hs; [subst; by rewrite idx_alter_eq|by rewrite idx_alter_ne].
Qed.

Lemma table_ok_alter t g slot :
  table_ok t → (∀ e, idx t slot = Some e → slot_entry_ok (g e)) →
  table_ok (alter_at g t slot).
Proof.
  intros [Hl Ht] Hg. split; [by rewrite length_alter_at|]. intros i e.
  destruct (decide (slot = i)) as [<-|Hne].
  - rewrite idx_alter_eq. intros (e0 & He0 & ->)%fmap_Some. by apply Hg.
  - rewrite idx_alter_ne by done. apply Ht.
Qed.

(** The specification of the registry: a partial map from handles. *)
Definition insert_spec (ptr : Z) (k : ResourceKind) (t : ResourceTable)
    (r : result DriverError Z) (t' : ResourceTable) : Prop :=
  match r with
  | Ok h => live t h = None ∧ 0 < h <= usize_max ∧
      (∀ h', 0 <= h' <= usize_max →
         live t' h' = if decide (h' = h) then Some (ptr, k) else live t h')
  | Err e => e = ResourceExhausted ∧ t' = t ∧
      (∀ i e, idx t i = Some e → pointer e ≠ 0)
  end.

Definition remove_spec (h : Z) (k : ResourceKind) (t : ResourceTable)
    (r : result DriverError Z) (t' : ResourceTable) : Prop :=
  match r with
  | Ok p => live t h = Some (p, k) ∧
      (∀ h', 0 <= h' <= usize_max →
         live t' h' = if decide (h' = h) then None else live t h')
  | Err e => e = InvalidHandle ∧ t' = t ∧ ∀ p, live t h ≠ Some (p, k)
  end.

Lemma decode_same_slot t h h' slot gen gen' :
  table_ok t → 0 <= h <= usize_max → 0 <= h' <= usize_max →
  decode_handle (Z.of_nat (length t)) h = Ok (slot, gen) →
  decode_handle (Z.of_nat (length t)) h' = Ok (slot, gen') →
  h = h' ↔ gen = gen'.
Proof.
  intros [Hl _] Hh Hh' Hd Hd'.
  apply decode_handle_inv in Hd as (-> & _ & _); [|done..].
  apply decode_handle_inv in Hd' as (-> & _ & _); [|done..]. lia.
Qed.

Lemma insert_refines ptr k t :
  table_ok t → ptr ≠ 0 →
  wp (insert ptr k) (λ r t', table_ok t' ∧ length t' = length t ∧ insert_spec ptr k t r t') t.
Proof.
  intros Ht Hp. unfold insert. wp_steps. unfold id.
  destruct (position _ t) as [slot|] eqn:Hpos.
  - apply position_Some in Hpos as (Hr & (e & He & Hfree%Z.eqb_eq) & _).
    unfold slot_at. wp_steps. eapply wp_expect; [exact He|]. wp_steps. unfold id.
    pose proof (proj2 Ht slot e He) as [Hg _].
    set (gen := next_generation (generation e)).
    assert (generation_ok gen) as Hgen by (by apply next_generation_ok).
    assert (slot_ok (Z.of_nat (length t)) slot) as Hslot.
    { split; [exact Hr|apply Ht]. }
    rewrite (encode_handle_Ok (Z.of_nat (length t)) slot gen) by done.
    pose proof (decode_handle_pack (Z.of_nat (length t)) slot gen Hslot Hgen) as Hdec.
    unfold generation_ok, slot_ok, usize_max in *.
    destruct handle_constants as (_ & Hmax & _).
    split; [|split; [by rewrite length_alter_at|]].
    + apply table_ok_alter; [done|]. intros e0 _. unfold slot_entry_ok; simpl. lia.
    + split_and!.
      * unfold live. rewrite Hdec, He. simpl. by rewrite Hfree.
      * lia.
      * unfold usize_max; lia.
      * intros h' Hh'. rewrite live_alter. unfold live.
        destruct (decode_handle _ h') as [[s' g']|] eqn:Hd'.
        2: { case_decide; [|done]. subst h'. congruence. }
        case_decide as Hs'; [subst s'|by case_decide; [subst h'; congruence|]].
        pose proof (decode_same_slot t (gen * 256 + (slot + 1)) h' slot gen g' Ht
          ltac:(unfold usize_max; lia) Hh' Hdec Hd') as Hiff.
        rewrite He. simpl. destruct (Z.eqb_spec ptr 0); [done|]. simpl.
        rewrite Hfree. simpl.
        destruct (Z.eqb_spec gen g'), (decide (h' = gen * 256 + (slot + 1)));
          try done; exfalso; intuition congruence.
  - wp_steps. split; [done|]. split; [done|]. split_and!; try done.
    intros i e Hi. eapply position_None in Hpos; [|done].
    by apply Z.eqb_neq in Hpos.
Qed.

Lemma remove_refines h k t :
  table_ok t → 0 <= h <= usize_max →
  wp (remove h k) (λ r t', table_ok t' ∧ length t' = length t ∧ remove_spec h k t r t') t.
Proof.
  intros Ht Hh. unfold remove. wp_steps. unfold wp. rewrite resolve_live by done.
  destruct (live t h) as [[p k']|] eqn:Hl; [case_decide as Hk|]; simpl.
  2, 3: do 4 (split; [done|]); intros p' Hl'; congruence.
  subst k'. destruct (live_in_range t h p k Hl) as (slot & gen & e & Hd & He & Hp & Hk & Hg & Hne).
  unfold mbind, M_bind, gets, id. rewrite Hd. unfold slot_at, mbind, M_bind, gets, id.
  rewrite He. simpl. split; [|split; [by rewrite length_alter_at|split; [done|]]].
  - apply table_ok_alter; [done|]. intros e0 He0. pose proof (proj2 Ht slot e0 He0) as [? _].
    unfold slot_entry_ok; simpl. lia.
  - intros h' Hh'. rewrite live_alter. unfold live.
    destruct (decode_handle _ h') as [[s' g']|] eqn:Hd'; [|by case_decide].
    case_decide as Hs'.
    + subst s'. rewrite He. simpl.
      pose proof (decode_same_slot t h h' slot gen g' Ht Hh Hh' Hd Hd') as Hiff.
      case_decide; [done|]. destruct (Z.eqb_spec (generation e) g'); [|by rewrite andb_false_r].
      exfalso. destruct Hiff as [_ Hiff]. apply H. symmetry. apply Hiff. congruence.
    + case_decide; [|done]. subst h'. congruence.
Qed.

(** C33: the handle registry refines a finite map (RTOS-WAIT-003). On a
    well-formed table, [resolve], [insert] and [remove] never panic; a
    successful insertion returns a handle no live resource has and adds exactly
    that entry, failing only when every slot is taken and then changing
    nothing; a removal deletes exactly its handle and refuses a handle that is
    stale, duplicated or of the other kind without touching the table. *)
Theorem registry_refines_map (t : ResourceTable) :
  table_ok t →
  (∀ h k, wp (resolve h k) (λ r t', t' = t ∧
     ∀ p, r = Ok p ↔ live t h = Some (p, k)) t) ∧
  (∀ ptr k, ptr ≠ 0 →
     wp (insert ptr k) (λ r t', table_ok t' ∧ insert_spec ptr k t r t') t) ∧
  (∀ h k, 0 <= h <= usize_max →
     wp (remove h k) (λ r t', table_ok t' ∧ remove_spec h k t r t') t).
Proof.
  intros Ht. split_and!.
  - intros h k. unfold wp. rewrite resolve_live by done. split; [done|]. intros p.
    destruct (live t h) as [[p' k']|]; [case_decide; subst|]; naive_solver.
  - intros ptr k Hp. eapply wp_mono; [|by apply insert_refines]. simpl. tauto.
  - intros h k Hh. eapply wp_mono; [|by apply remove_refines]. simpl. tauto.
Qed.

Lemma registry_refines_map_witness :
  table_ok (new 32) ∧
  (∀ ptr k, ptr ≠ 0 →
     wp (insert ptr k) (λ r t', table_ok t' ∧ insert_spec ptr k (new 32) r t') (new 32)).
Proof.
  assert (table_ok (new 32)) as H by (apply new_ok; lia).
  split; [exact H|]. apply (registry_refines_map (new 32) H).
Defined.

(** ** Stale handles *)

Inductive table_op :=
| OpInsert (ptr : Z) (k : ResourceKind)
| OpRemove (h : Z) (k : ResourceKind).

Definition is_insert (op : table_op) : bool :=
  match op with OpInsert _ _ => true | OpRemove _ _ => false end.

Definition table_exec (op : table_op) : M ResourceTable unit :=
  match op with
  | OpInsert ptr k => insert ptr k ;; mret tt
  | OpRemove h k => remove h k ;; mret tt
  end.

(** The [n]-th generation after [g]: generations run 1, 2, .., MAX, 1, .. *)
Definition generation_after (g : Z) (n : nat) : Z :=
  (g - 1 + Z.of_nat n) mod HANDLE_GENERATION_MAX + 1.

Lemma generation_after_S g n :
  next_generation (generation_after g n) = generation_after g (S n).
Proof.
  unfold next_generation, generation_after. destruct handle_constants as (_ & -> & _).
  rewrite Nat2Z.inj_succ. replace (g - 1 + Z.succ (Z.of_nat n)) with (g - 1 + Z.of_nat n + 1) by lia.
  set (x := g - 1 + Z.of_nat n).
  pose proof (Z.mod_pos_bound x 16777215 ltac:(lia)).
  rewrite <-(Z.add_mod_idemp_l x 1 16777215) by lia.
  destruct (Z.eqb_spec (x mod 16777215 + 1) 0); [lia|].
  destruct (Z.eqb_spec (x mod 16777215 + 1) 16777215) as [E|E]; simpl.
  - rewrite E. done.
  - rewrite (Z.mod_small (x mod 16777215 + 1)) by lia. done.
Qed.

Lemma generation_after_0 g : generation_ok g → generation_after g 0 = g.
Proof.
  unfold generation_ok, generation_after. intros. rewrite Z.mod_small by lia. lia.
Qed.

Lemma generation_after_fresh g n :
  generation_ok g → generation_after g n = g →
  (Z.of_nat n < HANDLE_GENERATION_MAX) → n = 0%nat.
Proof.
  unfold generation_ok, generation_after. destruct handle_constants as (_ & -> & _).
  intros Hg He Hn.
  pose proof (Z.div_mod (g - 1 + Z.of_nat n) 16777215 ltac:(lia)).
  assert ((g - 1 + Z.of_nat n) / 16777215 = 0 ∨ (g - 1 + Z.of_nat n) / 16777215 = 1) as [E|E]
    by (pose proof (Z.div_pos (g - 1 + Z.of_nat n) 16777215);
        pose proof (Z.div_lt_upper_bound (g - 1 + Z.of_nat n) 16777215 2); lia).
  all: rewrite E in *; lia.
Qed.

(** The slot of a dead handle after at most [n] insertions: its generation has
    moved on by some [m <= n], and while it has not moved the slot is free. *)
Definition slot_moved (slot gen : Z) (n : nat) (t : ResourceTable) : Prop :=
  ∃ e m, idx t slot = Some e ∧ generation e = generation_after gen m ∧ (m <= n)%nat ∧
    (m = 0%nat → pointer e = 0).

Lemma insert_moves slot gen n ptr k t :
  table_ok t → slot_moved slot gen n t →
  wp (insert ptr k) (λ _ t', slot_moved slot gen (S n) t') t.
Proof.
  intros Ht (e & m & He & Hg & Hm & Hfree). unfold insert. wp_steps. unfold id.
  destruct (position _ t) as [s|] eqn:Hpos.
  - apply position_Some in Hpos as (Hr & (e' & He' & _) & _).
    unfold slot_at. wp_steps. eapply wp_expect; [exact He'|]. wp_steps.
    destruct (decide (s = slot)) as [->|Hne].
    + rewrite He in He'. injection He' as <-.
      eexists _, (S m). rewrite idx_alter_eq, He. simpl. split_and!; [done| |lia|lia].
      by rewrite Hg, generation_after_S.
    + exists e, m. rewrite idx_alter_ne by done. split_and!; try done. lia.
  - wp_steps. exists e, m. split_and!; try done. lia.
Qed.

Lemma remove_moves slot gen n h k t :
  table_ok t → slot_moved slot gen n t →
  wp (remove h k) (λ _ t', slot_moved slot gen n t') t.
Proof.
  intros Ht (e & m & He & Hg & Hm & Hfree). unfold remove. wp_steps. unfold wp.
  rewrite resolve_live by done.
  assert (slot_moved slot gen n t) as Hsame by (exists e, m; done).
  destruct (live t h) as [[p k']|] eqn:Hl; [|done]. case_decide; [|done].
  destruct (live_in_range t h p k' Hl) as (s & g' & e' & Hd & He' & _).
  unfold mbind, M_bind, gets, id. rewrite Hd. unfold slot_at, mbind, M_bind, gets, id.
  rewrite He'. simpl. destruct (decide (s = slot)) as [->|Hne].
  - rewrite He in He'. injection He' as <-. eexists _, m.
    rewrite idx_alter_eq, He. simpl. by split_and!.
  - exists e, m. rewrite idx_alter_ne by done. done.
Qed.

Definition op_ok (op : table_op) : Prop :=
  match op with OpInsert ptr _ => ptr ≠ 0 | OpRemove h _ => 0 <= h <= usize_max end.

Definition inserts (ops : list table_op) : nat := length (filter (λ op, is_insert op = true) ops).

Lemma op_moves op slot gen n t :
  table_ok t → op_ok op → slot_moved slot gen n t →
  wp (table_exec op)
    (λ _ t', table_ok t' ∧ length t' = length t ∧ slot_moved slot gen (inserts [op] + n) t') t.
Proof.
  intros Ht Hop Hm. destruct op as [ptr k|h k]; simpl in *; apply wp_bind.
  - eapply wp_mono; [|apply wp_and; [by apply insert_refines|by apply (insert_moves slot gen n)]].
    simpl. intros r t' ((? & ? & _) & ?). apply wp_ret. done.
  - eapply wp_mono; [|apply wp_and; [by apply remove_refines|by apply (remove_moves slot gen n)]].
    simpl. intros r t' ((? & ? & _) & ?). apply wp_ret. done.
Qed.

Lemma ops_move ops slot gen n t :
  table_ok t → Forall op_ok ops → slot_moved slot gen n t →
  wp (for_each ops table_exec)
    (λ _ t', table_ok t' ∧ length t' = length t ∧ slot_moved slot gen (inserts ops + n) t') t.
Proof.
  intros Ht Hops Hm.
  apply (wp_for_each (λ d t', table_ok t' ∧ length t' = length t ∧
    slot_moved slot gen (inserts d + n) t')); [done| |done].
  intros d op rest t' -> (Ht' & Hl & Hm').
  apply Forall_app in Hops as [_ [Hop _]%Forall_cons].
  eapply wp_mono; [|by apply (op_moves op slot gen (inserts d + n))].
  simpl. intros _r t'' (? & ? & Hm''). split_and!; [done|congruence|].
  replace (inserts (d ++ [op]) + n)%nat with (inserts [op] + (inserts d + n))%nat; [done|].
  unfold inserts. rewrite filter_app, length_app. simpl. lia.
Qed.

Lemma remove_live h k p t :
  table_ok t → 0 <= h <= usize_max → live t h = Some (p, k) →
  wp (remove h k) (λ _ t', table_ok t' ∧ length t' = length t ∧
    ∃ slot gen, decode_handle (Z.of_nat (length t)) h = Ok (slot, gen) ∧
      slot_moved slot gen 0 t') t.
Proof.
  intros Ht Hh Hp.
  destruct (live_in_range t h p k Hp) as (slot & gen & e & Hd & He & Hpe & Hk & Hge & Hne).
  pose proof (decode_handle_inv _ h slot gen Hh (proj1 Ht) Hd) as (_ & _ & Hgen).
  pose proof (remove_refines h k t Ht Hh) as Hr. revert Hr.
  unfold wp, remove, try_bind, mbind, M_bind. rewrite resolve_live by done. rewrite Hp.
  rewrite decide_True by done. unfold gets, id. rewrite Hd.
  unfold slot_at, mbind, M_bind, gets, id. rewrite He. simpl.
  intros (Hok & Hlen & _). split_and!; try done. exists slot, gen. split; [done|].
  eexists _, 0%nat. rewrite idx_alter_eq, He. simpl. split_and!; try done.
  by rewrite generation_after_0.
Qed.

Lemma moved_unresolved h k slot gen n t :
  table_ok t → 0 <= h <= usize_max →
  decode_handle (Z.of_nat (length t)) h = Ok (slot, gen) → slot_moved slot gen n t →
  Z.of_nat n < HANDLE_GENERATION_MAX →
  wp (resolve h k) (λ r _, r = Err InvalidHandle) t.
Proof.
  intros Ht Hh Hd (e & m & He & Hg & Hm & Hfree) Hn. unfold wp. rewrite resolve_live by done.
  pose proof (decode_handle_inv _ h slot gen Hh (proj1 Ht) Hd) as (_ & _ & Hgen).
  unfold live. rewrite Hd, He. simpl.
  destruct (Z.eqb_spec (pointer e) 0) as [|Hp]; [done|]. simpl.
  destruct (Z.eqb_spec (generation e) gen) as [E|]; [|done].
  exfalso. apply Hp, Hfree, (generation_after_fresh gen); [done|congruence|lia].
Qed.

(** C34: a destroyed resource's handle stays dead (RTOS-ID-001 for resources).
    After a handle has been removed, it resolves to [InvalidHandle] under either
    kind after every sequence of insertions and removals with fewer than
    [HANDLE_GENERATION_MAX] = 2^24 - 1 insertions, however its slot is reused in
    between: a stale handle cannot name the slot's new owner. *)
Theorem removed_handle_stays_dead (t : ResourceTable) (h : Z) (k : ResourceKind)
    (ops : list table_op) :
  table_ok t → 0 <= h <= usize_max → (∃ p, live t h = Some (p, k)) →
  Forall op_ok ops → Z.of_nat (inserts ops) < HANDLE_GENERATION_MAX →
  ∀ k', wp (remove h k ;; for_each ops table_exec ;; resolve h k')
    (λ r _, r = Err InvalidHandle) t.
Proof.
  intros Ht Hh [p Hp] Hops Hcount k'. apply wp_bind.
  eapply wp_mono; [|by apply (remove_live h k p)]. simpl.
  intros _r t1 (Ht1 & Hl1 & slot & gen & Hd & Hm). apply wp_bind.
  eapply wp_mono; [|by apply (ops_move ops slot gen 0)]. simpl.
  intros _u t2 (Ht2 & Hl2 & Hm2). apply (moved_unresolved h k' slot gen (inserts ops + 0)); try done.
  - by rewrite Hl2, Hl1.
  - lia.
Qed.

Lemma removed_handle_stays_dead_witness :
  let t := alter_at (λ e, e <| generation := 1 |> <| pointer := 4096 |>) (new 2) 0 in
  wp (remove 257 KSemaphore ;;
      for_each [OpInsert 8192 KSemaphore] table_exec ;; resolve 257 KSemaphore)
    (λ r _, r = Err InvalidHandle) t.
Proof.
  apply (removed_handle_stays_dead _ 257 KSemaphore [OpInsert 8192 KSemaphore]).
  - apply table_ok_alter; [apply new_ok; lia|]. intros e [= <-].
    unfold slot_entry_ok; simpl. destruct handle_constants as (_ & -> & _). lia.
  - unfold usize_max. lia.
  - by exists 4096.
  - by repeat constructor.
  - by vm_compute.
Defined.
