(* ===== verification/Reservation.v ===== *)
(** * Task-slot reservations ([src/runtime/reservation.rs])

    An owner-bound reservation promises dynamic task slots and, when made with
    stacks, one preallocated stack per promised slot. The table keeps one entry
    per live reservation and the number of slots promised in total.

    The number of entries is the contract's [TASK_RESOURCE_GROUP_CAPACITY], a
    constant of a crate outside the repository: [new] takes it as an argument and
    the theorems ask only that it fits the token's eight slot bits. *)

From S2P Require Import Prelude Effects Contract Config.

Definition RESERVATION_SLOT_BITS : Z := 8.
Definition RESERVATION_SLOT_MASK : Z := Z.shiftl 1 RESERVATION_SLOT_BITS - 1.

Record ReservationEntry := mkEntry {
  e_generation : Z;
  e_remaining : Z;
  e_next_stack : Z;
  e_stack_count : Z;
  e_stack_size : Z;
  e_stacks : list Z;
  e_active : bool;
}.

#[export] Instance eta_ReservationEntry : Eta ReservationEntry := λ e,
  mkEntry (e_generation e) (e_remaining e) (e_next_stack e) (e_stack_count e)
    (e_stack_size e) (e_stacks e) (e_active e).
#[export] Instance field_e_generation : Field e_generation. Proof. derive_field. Defined.
#[export] Instance field_e_remaining : Field e_remaining. Proof. derive_field. Defined.
#[export] Instance field_e_next_stack : Field e_next_stack. Proof. derive_field. Defined.
#[export] Instance field_e_stack_count : Field e_stack_count. Proof. derive_field. Defined.
#[export] Instance field_e_stack_size : Field e_stack_size. Proof. derive_field. Defined.
#[export] Instance field_e_stacks : Field e_stacks. Proof. derive_field. Defined.
#[export] Instance field_e_active : Field e_active. Proof. derive_field. Defined.

(** [[0; DYNAMIC_TASK_CAPACITY]] *)
Definition no_stacks : list Z := replicate 15 0.

Definition ReservationEntry_EMPTY : ReservationEntry := mkEntry 0 0 0 0 0 no_stacks false.

Record ReservedStack := mkReservedStack {
  rs_pointer : Z;
  rs_size : Z;
}.

(** The source returns a fixed array and a count; [released_stacks] is the array
    and [released_count] the count. *)
Record ReleasedTaskResources := mkReleased {
  released_stacks : list Z;
  released_count : Z;
}.

Record ReservationTable := mkTable {
  entries : list ReservationEntry;
  total_remaining : Z;
}.

#[export] Instance eta_ReservationTable : Eta ReservationTable := λ t,
  mkTable (entries t) (total_remaining t).
#[export] Instance field_entries : Field entries. Proof. derive_field. Defined.
#[export] Instance field_total_remaining : Field total_remaining. Proof. derive_field. Defined.

Definition ReservationTable_new (capacity : nat) : ReservationTable :=
  mkTable (replicate capacity ReservationEntry_EMPTY) 0.

Definition entry_at (slot : Z) : M ReservationTable ReservationEntry :=
  t ← gets entries; expect (idx t slot).

Definition set_entry (slot : Z) (g : ReservationEntry → ReservationEntry) :
    M ReservationTable unit :=
  _ ← entry_at slot; modify (λ t, t <| entries ::= λ es, alter_at g es slot |>).

(** [self.total_remaining += n] and [-= n] on a [usize]. *)
Definition add_total (n : Z) : M ReservationTable unit :=
  t ← gets total_remaining; v ← expect (checked_add usize_max t n);
  modify (λ t, t <| total_remaining := v |>).
Definition sub_total (n : Z) : M ReservationTable unit :=
  t ← gets total_remaining; v ← expect (checked_sub t n);
  modify (λ t, t <| total_remaining := v |>).

(** [u8::try_from(n)] *)
Definition u8_try_from (n : Z) : option Z := if n <=? u8_max then Some n else None.

Definition encode_reservation (generation slot : Z) : Z :=
  Z.lor (Z.shiftl generation RESERVATION_SLOT_BITS) (slot + 1).

Definition reserve (required available : Z) :
    M ReservationTable (result TaskAdmissionError TaskReservation) :=
  if available <? required then mret (Err (InsufficientTaskSlots required available))
  else
    es ← gets entries;
    match position (λ e, negb e.(e_active)) es with
    | None => mret (Err (AdmissionRuntime ResourceExhausted))
    | Some slot =>
        match u8_try_from required with
        | None => mret (Err (AdmissionRuntime ResourceExhausted))
        | Some remaining =>
            entry ← entry_at slot;
            let generation := Z.max (wrapping_add u16_max entry.(e_generation) 1) 1 in
            set_entry slot (λ e,
              e <| e_generation := generation |> <| e_remaining := remaining |>
                <| e_next_stack := 0 |> <| e_stack_count := 0 |> <| e_stack_size := 0 |>
                <| e_stacks := no_stacks |> <| e_active := true |>) ;;
            add_total required ;;
            let raw := encode_reservation generation slot in
            assert_ (negb (raw =? 0)) ;;
            mret (Ok raw)
        end
    end.

Definition resolve_slot (reservation : TaskReservation) :
    M ReservationTable (result DriverError Z) :=
  if negb (Z.shiftr reservation (RESERVATION_SLOT_BITS + 16) =? 0)
  then mret (Err InvalidHandle)
  else
    let encoded_slot := Z.land reservation RESERVATION_SLOT_MASK in
    let generation := Z.shiftr reservation RESERVATION_SLOT_BITS mod (u16_max + 1) in
    if (encoded_slot =? 0) || (generation =? 0) then mret (Err InvalidHandle)
    else
      let slot := encoded_slot - 1 in
      es ← gets entries;
      match idx es slot with
      | None => mret (Err InvalidHandle)
      | Some entry =>
          if negb entry.(e_active) || negb (entry.(e_generation) =? generation)
          then mret (Err InvalidHandle)
          else mret (Ok slot)
      end.

Definition resolve (reservation : TaskReservation) :
    M ReservationTable (result DriverError ReservationEntry) :=
  slot ←? resolve_slot reservation; entry ← entry_at slot; mret (Ok entry).

(** [.map_err(TaskAdmissionError::Runtime)] *)
Definition map_err_admission {A} (r : result DriverError A) : result TaskAdmissionError A :=
  match r with Ok a => Ok a | Err e => Err (AdmissionRuntime e) end.

Definition reserve_with_stacks (required : TaskResourceRequirements) (available : Z)
    (stacks : list Z) : M ReservationTable (result TaskAdmissionError TaskReservation) :=
  reservation ←? reserve required.(task_slots) available;
  slot ←? (r ← resolve_slot reservation; mret (map_err_admission r));
  match u8_try_from required.(task_slots) with
  | None => mret (Err (AdmissionRuntime ResourceExhausted))
  | Some count =>
      set_entry slot (λ e,
        e <| e_stack_count := count |> <| e_stack_size := required.(stack_bytes_per_task) |>
          <| e_stacks := stacks |>) ;;
      mret (Ok reservation)
  end.

Definition stack_size (reservation : TaskReservation) :
    M ReservationTable (result DriverError (option Z)) :=
  entry ←? resolve reservation;
  mret (Ok (if negb (entry.(e_stack_count) =? 0) then Some entry.(e_stack_size) else None)).

Definition ensure_consumable (reservation : TaskReservation) :
    M ReservationTable (result DriverError unit) :=
  entry ←? resolve reservation;
  mret (if entry.(e_remaining) =? 0 then Err NoTaskSlots else Ok tt).

(** [entry.remaining -= 1], [entry.next_stack += 1] on [u8] fields. *)
Definition consume (reservation : TaskReservation) :
    M ReservationTable (result DriverError (option ReservedStack)) :=
  slot ←? resolve_slot reservation;
  entry ← entry_at slot;
  if entry.(e_remaining) =? 0 then mret (Err NoTaskSlots)
  else
    stack ← (if entry.(e_stack_count) =? 0 then mret None
             else
               let index := entry.(e_next_stack) in
               pointer ← expect (idx entry.(e_stacks) index);
               assert_ (negb (pointer =? 0)) ;;
               next ← expect (checked_add u8_max entry.(e_next_stack) 1);
               set_entry slot (λ e,
                 e <| e_stacks ::= λ s, alter_at (λ _, 0) s index |> <| e_next_stack := next |>) ;;
               mret (Some (mkReservedStack pointer entry.(e_stack_size))));
    remaining ← expect (checked_sub entry.(e_remaining) 1);
    set_entry slot (λ e, e <| e_remaining := remaining |>) ;;
    sub_total 1 ;;
    mret (Ok stack).

(** [&stacks[lo..hi]]; the source panics when [hi < lo] or [hi] is past the end. *)
Definition slice {A} (l : list A) (lo hi : Z) : option (list A) :=
  if (0 <=? lo) && (lo <=? hi) && (hi <=? Z.of_nat (length l))
  then Some (take (Z.to_nat (hi - lo)) (drop (Z.to_nat lo) l)) else None.

(** The collection loop of [release]: non-null pointers fill the result array. *)
Fixpoint collect_released (pointers : list Z) (released : ReleasedTaskResources) :
    option ReleasedTaskResources :=
  match pointers with
  | [] => Some released
  | p :: pointers =>
      if negb (p =? 0) then
        _ ← idx released.(released_stacks) released.(released_count);
        collect_released pointers
          (mkReleased (alter_at (λ _, p) released.(released_stacks) released.(released_count))
            (released.(released_count) + 1))
      else collect_released pointers released
  end.

Definition release (reservation : TaskReservation) :
    M ReservationTable (result DriverError ReleasedTaskResources) :=
  slot ←? resolve_slot reservation;
  entry ← entry_at slot;
  pointers ← expect (slice entry.(e_stacks) entry.(e_next_stack) entry.(e_stack_count));
  released ← expect (collect_released pointers (mkReleased no_stacks 0));
  sub_total entry.(e_remaining) ;;
  set_entry slot (λ e,
    e <| e_remaining := 0 |> <| e_next_stack := 0 |> <| e_stack_count := 0 |>
      <| e_stack_size := 0 |> <| e_stacks := no_stacks |> <| e_active := false |>) ;;
  mret (Ok released).

(** The admission check of [reserve_plan_with_stacks], group by group. *)
Fixpoint plan_fits (groups : TaskResourcePlan) (remaining_available : Z) :
    result TaskAdmissionError unit :=
  match groups with
  | [] => Ok tt
  | group :: groups =>
      let required := group.(resources).(task_slots) in
      if remaining_available <? required
      then Err (InsufficientTaskGroupSlots group.(owner) required remaining_available)
      else plan_fits groups (remaining_available - required)
  end.

Definition group_slots (groups : TaskResourcePlan) : Z :=
  foldr (λ g acc, g.(resources).(task_slots) + acc) 0 groups.

(** [for reservation in reservations[..committed] { let _ = self.release(..); }] *)
Definition release_all (reservations : list TaskReservation) : M ReservationTable unit :=
  for_each reservations (λ r, release r ;; mret tt).

(** The committing loop: [done_] are the groups before [groups], [committed]
    the reservations made for them. *)
Fixpoint reserve_groups (done_ groups : TaskResourcePlan) (stacks : list (list Z))
    (available : Z) (committed : list TaskReservation) :
    M ReservationTable (result TaskAdmissionError (list TaskReservation)) :=
  match groups with
  | [] => mret (Ok committed)
  | group :: groups =>
      group_stacks ← expect (idx stacks (Z.of_nat (length done_)));
      r ← reserve_with_stacks group.(resources)
            (saturating_sub available (group_slots done_)) group_stacks;
      match r with
      | Ok reservation =>
          reserve_groups (done_ ++ [group]) groups stacks available (committed ++ [reservation])
      | Err error => release_all committed ;; mret (Err error)
      end
  end.

Definition reserve_plan_with_stacks (plan : TaskResourcePlan) (available : Z)
    (stacks : list (list Z)) :
    M ReservationTable (result TaskAdmissionError (list TaskReservation)) :=
  match plan_fits plan available with
  | Err e => mret (Err e)
  | Ok _ =>
      es ← gets entries;
      if Z.of_nat (length (filter (λ e, e.(e_active) = false) es)) <? Z.of_nat (length plan)
      then mret (Err (AdmissionRuntime ResourceExhausted))
      else reserve_groups [] plan stacks available []
  end.

(** ** Tokens *)

Definition token_ok (slot generation : Z) : Prop := 0 <= slot < 255 ∧ 1 <= generation <= u16_max.

Lemma encode_reservation_eq generation slot :
  token_ok slot generation → encode_reservation generation slot = generation * 256 + (slot + 1).
Proof.
  unfold token_ok, encode_reservation. intros [? ?]. change RESERVATION_SLOT_BITS with 8.
  by rewrite lor_shiftl_pack by lia.
Qed.

(** The slot a live token names, if any. *)
Definition token_slot (t : ReservationTable) (r : TaskReservation) : option Z :=
  match run (resolve_slot r) t with
  | Some (Ok slot, _) => Some slot
  | _ => None
  end.

Lemma resolve_slot_eq r t :
  resolve_slot r t =
    Done (match token_slot t r with Some slot => Ok slot | None => Err InvalidHandle end, t).
Proof.
  unfold token_slot, run, resolve_slot. destruct (negb _); [done|]. destruct (_ || _); [done|].
  unfold mbind, M_bind, gets. destruct (idx _ _); [|done]. destruct (_ || _); done.
Qed.

Lemma token_slot_encode t slot e :
  idx (entries t) slot = Some e → e_active e = true → token_ok slot (e_generation e) →
  token_slot t (encode_reservation (e_generation e) slot) = Some slot.
Proof.
  intros He Ha Hok. rewrite (encode_reservation_eq _ _ Hok). destruct Hok as [Hs Hg].
  unfold u16_max in Hg. unfold token_slot, run, resolve_slot.
  change RESERVATION_SLOT_BITS with 8. change (8 + 16) with 24.
  change RESERVATION_SLOT_MASK with (Z.shiftl 1 8 - 1). rewrite land_mask by lia.
  rewrite !Z.shiftr_div_pow2 by lia. change (2 ^ 24) with 16777216. change (2 ^ 8) with 256.
  change (u16_max + 1) with 65536.
  rewrite (Z.div_small _ 16777216) by lia. simpl.
  rewrite pack_div, pack_mod by lia. rewrite (Z.mod_small (e_generation e)) by lia.
  destruct (Z.eqb_spec (slot + 1) 0); [lia|]. destruct (Z.eqb_spec (e_generation e) 0); [lia|].
  simpl. unfold mbind, M_bind, gets. replace (slot + 1 - 1) with slot by lia.
  rewrite He, Ha. simpl. by rewrite Z.eqb_refl.
Qed.

Lemma token_slot_Some t r slot :
  token_slot t r = Some slot →
  ∃ e, idx (entries t) slot = Some e ∧ e_active e = true ∧
    r = encode_reservation (e_generation e) slot ∧ token_ok slot (e_generation e).
Proof.
  unfold token_slot, run, resolve_slot.
  change RESERVATION_SLOT_BITS with 8. change (8 + 16) with 24.
  change RESERVATION_SLOT_MASK with (Z.shiftl 1 8 - 1). rewrite land_mask by lia.
  rewrite !Z.shiftr_div_pow2 by lia. change (2 ^ 24) with 16777216. change (2 ^ 8) with 256.
  change (u16_max + 1) with 65536.
  destruct (Z.eqb_spec (r / 16777216) 0) as [Hhi|]; [|done]. simpl.
  destruct (Z.eqb_spec (r mod 256) 0) as [|H0]; [done|].
  destruct (Z.eqb_spec ((r / 256) mod 65536) 0) as [|H1]; [done|]. simpl.
  unfold mbind, M_bind, gets.
  destruct (idx (entries t) (r mod 256 - 1)) as [e|] eqn:He; [|done].
  destruct (e_active e) eqn:Ha; [|done]. simpl.
  destruct (Z.eqb_spec (e_generation e) ((r / 256) mod 65536)) as [Hg|]; [|done].
  intros [= <-]. exists e.
  pose proof (Z.div_mod r 16777216 ltac:(lia)). pose proof (Z.mod_pos_bound r 16777216 ltac:(lia)).
  pose proof (Z.div_mod r 256 ltac:(lia)). pose proof (Z.mod_pos_bound r 256 ltac:(lia)).
  assert (0 <= r / 256 < 65536).
  { split; [apply Z.div_pos|apply Z.div_lt_upper_bound]; lia. }
  rewrite Z.mod_small in * by lia.
  assert (token_ok (r mod 256 - 1) (e_generation e)) as Hok by (unfold token_ok, u16_max; lia).
  split_and!; try done. rewrite encode_reservation_eq by done. lia.
Qed.

(** ** The table invariant *)

(** A live entry promises [e_remaining] slots; one made with stacks owns exactly
    the non-null stacks from [e_next_stack] to [e_stack_count], one per slot. *)
Definition entry_ok (e : ReservationEntry) : Prop :=
  0 <= e_generation e <= u16_max ∧ length (e_stacks e) = 15%nat ∧
  0 <= e_remaining e <= DYNAMIC_TASK_CAPACITY ∧
  (e_active e = false → e_remaining e = 0) ∧
  (e_active e = true → 1 <= e_generation e) ∧
  0 <= e_next_stack e <= e_stack_count e ∧ e_stack_count e <= DYNAMIC_TASK_CAPACITY ∧
  (e_stack_count e ≠ 0 → e_remaining e = e_stack_count e - e_next_stack e) ∧
  (∀ i p, e_next_stack e <= i < e_stack_count e → idx (e_stacks e) i = Some p → p ≠ 0).

Definition table_ok (t : ReservationTable) : Prop :=
  Z.of_nat (length (entries t)) <= 255 ∧
  (∀ i e, idx (entries t) i = Some e → entry_ok e) ∧
  total_remaining t = zsum e_remaining (entries t).

(** Reduces the fields of explicit entries, and nothing else. *)
Ltac entry_fields :=
  unfold ReservationEntry_EMPTY; cbn [e_generation e_remaining e_next_stack e_stack_count e_stack_size e_stacks e_active].

Lemma table_new_ok n : Z.of_nat n <= 255 → table_ok (ReservationTable_new n).
Proof.
  intros Hn. unfold table_ok, ReservationTable_new. simpl. rewrite length_replicate.
  split_and!; [done| |by induction n as [|n IH]; [done|apply IH; lia]].
  intros i e. rewrite idx_replicate. case_match; [|done]. intros [= <-].
  unfold entry_ok; entry_fields. unfold u16_max, DYNAMIC_TASK_CAPACITY. split_and!; try done; lia.
Qed.

Lemma table_total_bound t : table_ok t → 0 <= total_remaining t <= 3825.
Proof.
  intros (Hl & He & ->).
  assert (0 <= zsum e_remaining (entries t) <= 15 * Z.of_nat (length (entries t))); [|lia].
  apply zsum_bound. intros i e Hi. by destruct (He i e Hi) as (_ & _ & ? & _).
Qed.

(** Replacing one entry by a well-formed one and the total accordingly. *)
Lemma table_ok_set t slot e e' :
  table_ok t → idx (entries t) slot = Some e → entry_ok e' →
  table_ok (mkTable (alter_at (λ _, e') (entries t) slot)
              (total_remaining t - e_remaining e + e_remaining e')).
Proof.
  intros (Hl & He & Ht) Hs Hok. unfold table_ok; simpl. rewrite length_alter_at.
  split_and!; [done| |].
  - intros i x. destruct (decide (slot = i)) as [<-|Hne].
    + rewrite idx_alter_eq, Hs. by intros [= <-].
    + rewrite idx_alter_ne by done. apply He.
  - rewrite (zsum_alter _ _ _ _ e) by done. lia.
Qed.

Definition fresh_generation (e : ReservationEntry) : Z :=
  Z.max (wrapping_add u16_max (e_generation e) 1) 1.

Lemma fresh_generation_ok e : entry_ok e → 1 <= fresh_generation e <= u16_max.
Proof.
  intros [Hg _]. unfold fresh_generation, wrapping_add, u16_max in *.
  pose proof (Z.mod_pos_bound (e_generation e + 1) (65535 + 1)). lia.
Qed.

(** The entry a reservation without stacks starts from. *)
Definition reserved_entry (generation required : Z) : ReservationEntry :=
  mkEntry generation required 0 0 0 no_stacks true.

Lemma reserved_entry_ok generation required :
  1 <= generation <= u16_max → 1 <= required <= DYNAMIC_TASK_CAPACITY →
  entry_ok (reserved_entry generation required).
Proof. intros. unfold entry_ok, reserved_entry; entry_fields. split_and!; try done; lia. Qed.

Definition replace_entry (t : ReservationTable) (slot : Z) (e e' : ReservationEntry) :
    ReservationTable :=
  mkTable (alter_at (λ _, e') (entries t) slot)
    (total_remaining t - e_remaining e + e_remaining e').

Lemma replace_entry_ok t slot e e' :
  table_ok t → idx (entries t) slot = Some e → entry_ok e' → table_ok (replace_entry t slot e e').
Proof. apply table_ok_set. Qed.

Lemma idx_replace_eq t slot e e' :
  idx (entries t) slot = Some e → idx (entries (replace_entry t slot e e')) slot = Some e'.
Proof. intros H. simpl. by rewrite idx_alter_eq, H. Qed.

Lemma slot_token_ok t slot e :
  table_ok t → idx (entries t) slot = Some e → 1 <= e_generation e <= u16_max →
  token_ok slot (e_generation e).
Proof.
  intros (Hl & _) He Hg. apply (idx_at_inv e) in He as [[? ?] _]. unfold token_ok. lia.
Qed.

(** A live entry's token names its slot, and every live token is one. *)
Lemma live_token t slot e :
  table_ok t → idx (entries t) slot = Some e → e_active e = true →
  token_slot t (encode_reservation (e_generation e) slot) = Some slot.
Proof.
  intros Hok He Ha. apply (token_slot_encode t slot e); [done..|].
  apply (slot_token_ok t); [done..|]. destruct Hok as (_ & H & _).
  destruct (H slot e He) as (? & _ & _ & _ & Hg & _). specialize (Hg Ha). lia.
Qed.

(** Invalidating or replacing an entry kills every token the slot gave out with
    another generation. *)
Lemma token_slot_changed t t' r slot e' :
  token_slot t r = Some slot → idx (entries t') slot = Some e' → e_active e' = false →
  token_slot t' r = None.
Proof.
  intros (e & He & Ha & -> & Hok)%token_slot_Some He' Ha'.
  destruct (token_slot t' _) as [s|] eqn:Hs; [|done]. exfalso.
  apply token_slot_Some in Hs as (e2 & He2 & Ha2 & Heq & Hok2).
  rewrite !encode_reservation_eq in Heq by done.
  destruct Hok, Hok2. assert (s = slot) as -> by lia. congruence.
Qed.

(** ** What each operation does *)

Lemma wp_entry_at slot e (Q : ReservationEntry → ReservationTable → Prop) t :
  idx (entries t) slot = Some e → Q e t → wp (entry_at slot) Q t.
Proof. intros He HQ. unfold entry_at. wp_steps. by eapply wp_expect. Qed.

Lemma wp_set_entry slot g e (Q : unit → ReservationTable → Prop) t :
  idx (entries t) slot = Some e →
  Q tt (mkTable (alter_at g (entries t) slot) (total_remaining t)) → wp (set_entry slot g) Q t.
Proof. intros He HQ. unfold set_entry. wp_steps. eapply wp_entry_at; [done|]. by wp_steps. Qed.

Lemma wp_resolve_slot r (Q : result DriverError Z → ReservationTable → Prop) t :
  Q (match token_slot t r with Some slot => Ok slot | None => Err InvalidHandle end) t →
  wp (resolve_slot r) Q t.
Proof. unfold wp. by rewrite resolve_slot_eq. Qed.

Lemma alter_at_const t slot e g :
  idx (entries t) slot = Some e → alter_at g (entries t) slot = alter_at (λ _, g e) (entries t) slot.
Proof. intros He. apply alter_at_ext. congruence. Qed.

Lemma table_eq t t' :
  entries t = entries t' → total_remaining t = total_remaining t' → t = t'.
Proof. destruct t, t'; simpl. congruence. Qed.

(** How a reservation changes the table: the first inactive entry is made live. *)
Definition reserved_at (t t' : ReservationTable) (slot required : Z) (r : TaskReservation) : Prop :=
  ∃ e, idx (entries t) slot = Some e ∧ e_active e = false ∧
    t' = replace_entry t slot e (reserved_entry (fresh_generation e) required) ∧
    r = encode_reservation (fresh_generation e) slot.

Lemma reserve_spec required available t :
  table_ok t → 0 <= required → available <= DYNAMIC_TASK_CAPACITY →
  wp (reserve required available) (λ r t',
    match r with
    | Ok tok => required <= available ∧ ∃ slot, reserved_at t t' slot required tok
    | Err e => t' = t ∧
        ((available < required ∧ e = InsufficientTaskSlots required available) ∨
         (required <= available ∧ e = AdmissionRuntime ResourceExhausted ∧
          ∀ i x, idx (entries t) i = Some x → e_active x = true))
    end) t.
Proof.
  intros Hok Hr Ha. unfold reserve. unfold DYNAMIC_TASK_CAPACITY in Ha.
  destruct (Z.ltb_spec available required); [wp_steps; auto|]. wp_steps.
  destruct (position _ _) as [slot|] eqn:Hp.
  - apply position_Some in Hp as (_ & (e & He & Hact%negb_true_iff) & _).
    unfold u8_try_from, u8_max. destruct (Z.leb_spec required 255); [|lia]. wp_steps.
    eapply wp_entry_at; [done|]. cbv zeta. wp_steps. eapply wp_set_entry; [done|].
    unfold add_total. wp_steps. pose proof (table_total_bound t Hok).
    assert (entry_ok e) as He'. { destruct Hok as (_ & H' & _). eauto. }
    pose proof (fresh_generation_ok e He') as Hg.
    assert (token_ok slot (fresh_generation e)) as Htok.
    { destruct Hok as (? & _). apply (idx_at_inv e) in He as [[? ?] _]. unfold token_ok. lia. }
    eapply wp_expect.
    { unfold checked_add. simpl. destruct (Z.leb_spec (total_remaining t + required) usize_max);
        [done|]. unfold usize_max in *. lia. }
    wp_steps. apply wp_assert.
    { fold (fresh_generation e). rewrite encode_reservation_eq by done. destruct Htok.
      destruct (Z.eqb_spec (fresh_generation e * 256 + (slot + 1)) 0); [lia|done]. }
    wp_steps. split; [done|]. exists slot, e. split_and!; try done.
    rewrite (alter_at_const t slot e) by done. symmetry. apply table_eq; [done|].
    simpl. destruct He' as (_ & _ & _ & Hrem & _). rewrite Hrem by done. simpl. lia.
  - wp_steps. split; [done|]. right. split_and!; [done..|]. intros i x Hx.
    eapply position_None in Hp; [|done]. by apply negb_false_iff in Hp.
Qed.

Lemma reserved_at_ok t t' slot required r :
  table_ok t → 0 <= required <= DYNAMIC_TASK_CAPACITY → reserved_at t t' slot required r →
  table_ok t' ∧ token_slot t' r = Some slot ∧
  total_remaining t' = total_remaining t + required.
Proof.
  intros Hok Hr (e & He & Ha & -> & ->).
  assert (entry_ok e) as He' by (destruct Hok as (_ & H & _); eauto).
  pose proof (fresh_generation_ok e He') as Hg.
  assert (entry_ok (reserved_entry (fresh_generation e) required)) as Hnew.
  { unfold entry_ok, reserved_entry; entry_fields. unfold DYNAMIC_TASK_CAPACITY in *. split_and!; try done; lia. }
  pose proof (replace_entry_ok t slot e _ Hok He Hnew) as Hok'. split_and!; [done| |].
  - apply (live_token _ slot (reserved_entry (fresh_generation e) required)); [done| |done].
    by apply idx_replace_eq.
  - destruct He' as (_ & _ & _ & Hz & _). simpl. rewrite Hz by done. lia.
Qed.

(** The stacks a caller may attach: an array with a stack for each promised slot. *)
Definition stacks_for (required : Z) (stacks : list Z) : Prop :=
  length stacks = 15%nat ∧ ∀ i p, 0 <= i < required → idx stacks i = Some p → p ≠ 0.

Definition stacked_entry (generation required size : Z) (stacks : list Z) : ReservationEntry :=
  mkEntry generation required 0 required size stacks true.

Definition reserved_stacks_at (t t' : ReservationTable) (slot : Z)
    (required : TaskResourceRequirements) (stacks : list Z) (r : TaskReservation) : Prop :=
  ∃ e, idx (entries t) slot = Some e ∧ e_active e = false ∧
    t' = replace_entry t slot e
      (stacked_entry (fresh_generation e) required.(task_slots) required.(stack_bytes_per_task) stacks) ∧
    r = encode_reservation (fresh_generation e) slot.

Lemma reserve_with_stacks_spec required available stacks t :
  table_ok t → 0 <= required.(task_slots) → available <= DYNAMIC_TASK_CAPACITY →
  wp (reserve_with_stacks required available stacks) (λ r t',
    match r with
    | Ok tok => required.(task_slots) <= available ∧
        ∃ slot, reserved_stacks_at t t' slot required stacks tok
    | Err e => t' = t ∧
        ((available < required.(task_slots) ∧
          e = InsufficientTaskSlots required.(task_slots) available) ∨
         (required.(task_slots) <= available ∧ e = AdmissionRuntime ResourceExhausted ∧
          ∀ i x, idx (entries t) i = Some x → e_active x = true))
    end) t.
Proof.
  intros Hok Hr Ha. unfold reserve_with_stacks. wp_steps.
  wp_apply (reserve_spec required.(task_slots) available t Hok Hr Ha).
  intros [tok|err] t' H; [|exact H]. destruct H as (Hle & slot & Hat).
  destruct (reserved_at_ok t t' slot required.(task_slots) tok Hok ltac:(unfold DYNAMIC_TASK_CAPACITY in *; lia) Hat) as (Hok' & Htok & _).
  wp_steps. apply wp_resolve_slot. rewrite Htok. wp_steps. simpl.
  unfold u8_try_from, u8_max. unfold DYNAMIC_TASK_CAPACITY in Ha.
  destruct (Z.leb_spec required.(task_slots) 255); [|lia]. wp_steps.
  destruct Hat as (e & He & Hact & -> & ->).
  eapply wp_set_entry; [by apply idx_replace_eq|]. wp_steps. split; [done|].
  exists slot, e. split_and!; try done. apply table_eq; [|done]. simpl.
  rewrite alter_at_compose. done.
Qed.

Lemma stacked_at_ok t t' slot required stacks r :
  table_ok t → 0 <= required.(task_slots) <= DYNAMIC_TASK_CAPACITY →
  stacks_for required.(task_slots) stacks →
  reserved_stacks_at t t' slot required stacks r →
  table_ok t' ∧ token_slot t' r = Some slot ∧
  total_remaining t' = total_remaining t + required.(task_slots).
Proof.
  intros Hok Hr [Hlen Hst] (e & He & Ha & -> & ->).
  assert (entry_ok e) as He' by (destruct Hok as (_ & H & _); eauto).
  pose proof (fresh_generation_ok e He') as Hg.
  set (e' := stacked_entry (fresh_generation e) _ _ _).
  assert (entry_ok e') as Hnew.
  { unfold entry_ok, e', stacked_entry; entry_fields. unfold DYNAMIC_TASK_CAPACITY in *.
    split_and!; try done; try lia. }
  pose proof (replace_entry_ok t slot e _ Hok He Hnew) as Hok'. split_and!; [done| |].
  - by apply (live_token _ slot e'); [|apply idx_replace_eq|].
  - destruct He' as (_ & _ & _ & Hz & _). simpl. rewrite Hz by done. lia.
Qed.

(** The entry a consumption leaves and the stack it hands out. *)
Definition consumed_entry (e : ReservationEntry) : ReservationEntry :=
  if e.(e_stack_count) =? 0 then e <| e_remaining ::= Z.pred |>
  else e <| e_stacks ::= λ s, alter_at (λ _, 0) s e.(e_next_stack) |>
         <| e_next_stack ::= Z.succ |> <| e_remaining ::= Z.pred |>.
Definition consumed_stack (e : ReservationEntry) : option ReservedStack :=
  if e.(e_stack_count) =? 0 then None
  else Some (mkReservedStack (at_ 0 e.(e_stacks) e.(e_next_stack)) e.(e_stack_size)).

Lemma consumed_entry_ok e : entry_ok e → e_remaining e ≠ 0 → entry_ok (consumed_entry e).
Proof.
  unfold entry_ok, consumed_entry. intros (Hg & Hl & Hr & Hi & Ha & Hn & Hc & Hs & Hp) Hne.
  unfold DYNAMIC_TASK_CAPACITY in *.
  destruct (Z.eqb_spec (e_stack_count e) 0) as [Hz|Hz]; simpl.
  - split_and!; try done; try lia. intros Hact. specialize (Hi Hact). lia.
  - rewrite length_alter_at. split_and!; try done; try lia.
    + intros Hact. specialize (Hi Hact). lia.
    + intros i p Hip. rewrite idx_alter_ne by lia. apply Hp. lia.
Qed.

Lemma consume_spec r t :
  table_ok t →
  wp (consume r) (λ res t',
    match token_slot t r with
    | None => res = Err InvalidHandle ∧ t' = t
    | Some slot => ∃ e, idx (entries t) slot = Some e ∧
        if e_remaining e =? 0 then res = Err NoTaskSlots ∧ t' = t
        else res = Ok (consumed_stack e) ∧ t' = replace_entry t slot e (consumed_entry e)
    end) t.
Proof.
  intros Hok. unfold consume. wp_steps. apply wp_resolve_slot.
  destruct (token_slot t r) as [slot|] eqn:Htok; [|done].
  destruct (token_slot_Some t r slot Htok) as (e & He & Hact & _).
  assert (entry_ok e) as Heok by (destruct Hok as (_ & H & _); eauto).
  pose proof Heok as (Hg & Hl & Hr & Hi & _ & Hn & Hc & Hs & Hp).
  pose proof Hok as (Hlen & Hall & Htot).
  assert (e_remaining e <= total_remaining t) as Hle.
  { rewrite Htot. eapply zsum_ge_elem; [|done]. intros j y Hj.
    destruct (Hall j y Hj) as (_ & _ & ? & _). lia. }
  wp_steps. eapply wp_entry_at; [done|].
  destruct (Z.eqb_spec (e_remaining e) 0) as [Hz|Hz].
  { wp_steps. exists e. split; [done|]. by rewrite Hz. }
  wp_steps. unfold consumed_stack, consumed_entry, DYNAMIC_TASK_CAPACITY in *.
  destruct (Z.eqb_spec (e_stack_count e) 0) as [Hc0|Hc0].
  - wp_steps. eapply wp_expect; [unfold checked_sub; by destruct (Z.leb_spec 1 (e_remaining e)); [|lia]|].
    wp_steps. eapply wp_set_entry; [done|]. unfold sub_total. wp_steps.
    eapply wp_expect. { simpl. unfold checked_sub. destruct (Z.leb_spec 1 (total_remaining t)); [done|lia]. }
    wp_steps. exists e. split; [done|]. destruct (Z.eqb_spec (e_remaining e) 0); [done|].
    split; [by rewrite Hc0|]. rewrite Hc0; simpl. rewrite (alter_at_const t slot e) by done.
    apply table_eq; [done|]. simpl. lia.
  - specialize (Hs Hc0).
    assert (in_range (e_stacks e) (e_next_stack e)) as Hin by (unfold in_range; rewrite Hl; lia).
    wp_steps. eapply wp_expect; [by apply (idx_at 0)|]. wp_steps.
    apply wp_assert.
    { specialize (Hp (e_next_stack e) _ ltac:(lia) (idx_at 0 _ _ Hin)).
      by destruct (Z.eqb_spec (at_ 0 (e_stacks e) (e_next_stack e)) 0). }
    wp_steps. eapply wp_expect.
    { unfold checked_add, u8_max. destruct (Z.leb_spec (e_next_stack e + 1) 255); [done|lia]. }
    wp_steps. eapply wp_set_entry; [done|]. wp_steps.
    eapply wp_expect; [unfold checked_sub; by destruct (Z.leb_spec 1 (e_remaining e)); [|lia]|].
    wp_steps. eapply wp_set_entry. { simpl. by rewrite idx_alter_eq, He. }
    unfold sub_total. wp_steps.
    eapply wp_expect. { simpl. unfold checked_sub. destruct (Z.leb_spec 1 (total_remaining t)); [done|lia]. }
    wp_steps. exists e. split; [done|]. destruct (Z.eqb_spec (e_remaining e) 0); [done|].
    apply Z.eqb_neq in Hc0. rewrite Hc0. split; [done|].
    simpl. rewrite alter_at_compose, (alter_at_const t slot e) by done.
    apply table_eq; [done|]. simpl. lia.
Qed.

(** *** Release *)

(** An array of capacity fifteen starting with [l], zero after it. *)
Definition padded (l : list Z) : list Z := l ++ replicate (15 - length l) 0.

Lemma idx_app_length {A} (l1 l2 : list A) x :
  idx (l1 ++ x :: l2) (Z.of_nat (length l1)) = Some x.
Proof.
  induction l1 as [|y l1 IH]; [done|]. simpl.
  destruct (Z.eqb_spec (Z.of_nat (S (length l1))) 0); [lia|].
  by replace (Z.of_nat (S (length l1)) - 1) with (Z.of_nat (length l1)) by lia.
Qed.

Lemma alter_app_length {A} (g : A → A) (l1 l2 : list A) x :
  alter_at g (l1 ++ x :: l2) (Z.of_nat (length l1)) = l1 ++ g x :: l2.
Proof.
  induction l1 as [|y l1 IH]; [done|]. simpl.
  destruct (Z.eqb_spec (Z.of_nat (S (length l1))) 0); [lia|].
  replace (Z.of_nat (S (length l1)) - 1) with (Z.of_nat (length l1)) by lia. by rewrite IH.
Qed.

Lemma collect_released_padded pointers done_ :
  Forall (λ p, p ≠ 0) pointers → (length done_ + length pointers <= 15)%nat →
  collect_released pointers (mkReleased (padded done_) (Z.of_nat (length done_))) =
    Some (mkReleased (padded (done_ ++ pointers)) (Z.of_nat (length (done_ ++ pointers)))).
Proof.
  revert done_. induction pointers as [|p pointers IH]; intros done_ Hne Hlen.
  { simpl. by rewrite app_nil_r. }
  apply Forall_cons in Hne as [Hp Hne]. simpl in Hlen |- *.
  apply Z.eqb_neq in Hp. rewrite Hp. simpl.
  assert (padded done_ = done_ ++ 0 :: replicate (15 - length (done_ ++ [p])) 0) as Hpad.
  { unfold padded. f_equal. rewrite length_app. simpl.
    by replace (15 - length done_)%nat with (S (15 - (length done_ + 1))) by lia. }
  rewrite Hpad, idx_app_length, alter_app_length. simpl.
  specialize (IH (done_ ++ [p]) Hne).
  replace (Z.of_nat (length done_) + 1) with (Z.of_nat (length (done_ ++ [p])))
    by (rewrite length_app; simpl; lia).
  replace (done_ ++ p :: _) with (padded (done_ ++ [p]))
    by (unfold padded; by rewrite <-app_assoc).
  rewrite IH, <-app_assoc; [done|]. rewrite length_app. simpl. lia.
Qed.

(** The stacks a live entry still owns. *)
Definition owned_stacks (e : ReservationEntry) : list Z :=
  take (Z.to_nat (e.(e_stack_count) - e.(e_next_stack)))
    (drop (Z.to_nat e.(e_next_stack)) e.(e_stacks)).

Lemma owned_stacks_ok e :
  entry_ok e → Forall (λ p, p ≠ 0) (owned_stacks e) ∧
  Z.of_nat (length (owned_stacks e)) = e_stack_count e - e_next_stack e.
Proof.
  intros (_ & Hl & _ & _ & _ & Hn & Hc & _ & Hp). unfold owned_stacks, DYNAMIC_TASK_CAPACITY in *.
  split.
  - apply Forall_lookup_2. intros i p [Hi Hlt]%lookup_take_Some.
    rewrite lookup_drop in Hi. apply (Hp (e_next_stack e + Z.of_nat i)); [lia|].
    rewrite idx_lookup by lia. rewrite <-Hi. f_equal. lia.
  - rewrite length_take, length_drop, Hl. lia.
Qed.

Definition released_entry (e : ReservationEntry) : ReservationEntry :=
  mkEntry e.(e_generation) 0 0 0 0 no_stacks false.

Lemma released_entry_ok e : entry_ok e → entry_ok (released_entry e).
Proof.
  intros (Hg & _). unfold entry_ok, released_entry; entry_fields. unfold DYNAMIC_TASK_CAPACITY. split_and!; try done; lia.
Qed.

Lemma release_spec r t :
  table_ok t →
  wp (release r) (λ res t',
    match token_slot t r with
    | None => res = Err InvalidHandle ∧ t' = t
    | Some slot => ∃ e, idx (entries t) slot = Some e ∧
        res = Ok (mkReleased (padded (owned_stacks e)) (Z.of_nat (length (owned_stacks e)))) ∧
        t' = replace_entry t slot e (released_entry e) ∧ token_slot t' r = None
    end) t.
Proof.
  intros Hok. unfold release. wp_steps. apply wp_resolve_slot.
  destruct (token_slot t r) as [slot|] eqn:Htok; [|done].
  destruct (token_slot_Some t r slot Htok) as (e & He & Hact & _).
  assert (entry_ok e) as Heok by (destruct Hok as (_ & H & _); eauto).
  pose proof (owned_stacks_ok e Heok) as [Hown Hlown].
  pose proof Heok as (Hg & Hl & Hr & _ & _ & Hn & Hc & _).
  pose proof Hok as (Hlen & Hall & Htot). unfold DYNAMIC_TASK_CAPACITY in *.
  assert (e_remaining e <= total_remaining t) as Hle.
  { rewrite Htot. eapply zsum_ge_elem; [|done]. intros j y Hj.
    destruct (Hall j y Hj) as (_ & _ & ? & _). lia. }
  wp_steps. eapply wp_entry_at; [done|]. wp_steps. eapply (wp_expect _ (owned_stacks e)).
  { unfold slice. rewrite Hl. destruct (Z.leb_spec 0 (e_next_stack e)),
      (Z.leb_spec (e_next_stack e) (e_stack_count e)),
      (Z.leb_spec (e_stack_count e) (Z.of_nat 15)); simpl; try lia. done. }
  wp_steps. eapply wp_expect.
  { apply (collect_released_padded (owned_stacks e) []); [done|]. simpl. lia. }
  unfold sub_total. wp_steps. eapply wp_expect.
  { unfold checked_sub. by destruct (Z.leb_spec (e_remaining e) (total_remaining t)); [|lia]. }
  wp_steps. eapply wp_set_entry; [done|]. wp_steps. exists e. split_and!; try done.
  - simpl. rewrite (alter_at_const t slot e) by done. apply table_eq; [done|]. simpl. lia.
  - eapply (token_slot_changed t _ r slot (released_entry e)); [done| |done].
    simpl. by rewrite idx_alter_eq, He.
Qed.

(** ** Promises of live tokens *)

(** The entry behind a token: what it still promises and owns. *)
Definition promise (t : ReservationTable) (r : TaskReservation) : option ReservationEntry :=
  slot ← token_slot t r; idx (entries t) slot.

Lemma promise_Some t r e :
  promise t r = Some e →
  ∃ slot, token_slot t r = Some slot ∧ idx (entries t) slot = Some e ∧ e_active e = true.
Proof.
  unfold promise. destruct (token_slot t r) as [slot|] eqn:Hs; [|done]. simpl. intros He.
  exists slot. split_and!; [done..|]. apply token_slot_Some in Hs as (e' & He' & Ha & _).
  congruence.
Qed.

(** Touching another slot keeps a promise. *)
Lemma promise_frame t t' r slot e e' :
  entries t' = alter_at (λ _, e') (entries t) slot →
  (token_slot t r ≠ Some slot) → promise t r = Some e → promise t' r = Some e.
Proof.
  intros Ht Hne (s & Hs & He & Ha)%promise_Some.
  assert (slot ≠ s) as Hss by congruence.
  assert (idx (entries t') s = Some e) as He' by (by rewrite Ht, idx_alter_ne).
  apply token_slot_Some in Hs as (e2 & He2 & _ & -> & Htok).
  assert (e2 = e) as -> by congruence. unfold promise.
  by rewrite (token_slot_encode t' s e).
Qed.

Definition inactive_entries (es : list ReservationEntry) : Z :=
  zsum (λ e, if e.(e_active) then 0 else 1) es.

Lemma inactive_entries_filter es :
  Z.of_nat (length (filter (λ e, e.(e_active) = false) es)) = inactive_entries es.
Proof.
  unfold inactive_entries. induction es as [|e es IH]; [done|].
  rewrite filter_cons. simpl zsum. case_decide as He; simpl.
  - rewrite He. lia.
  - destruct (e_active e); [lia|done].
Qed.

Lemma inactive_pos es : 0 < inactive_entries es → ∃ i e, idx es i = Some e ∧ e_active e = false.
Proof.
  unfold inactive_entries. induction es as [|e es IH]; simpl; [lia|]. intros H.
  destruct (e_active e) eqn:Ha; [|by exists 0, e].
  destruct IH as (i & e' & Hi & Ha'); [lia|]. exists (i + 1), e'. split; [|done].
  by apply idx_cons_succ.
Qed.

(** What a reservation with stacks does to every token. *)
Lemma reserved_stacks_promise t t' slot required stacks r :
  table_ok t → 0 <= required.(task_slots) <= DYNAMIC_TASK_CAPACITY →
  stacks_for required.(task_slots) stacks →
  reserved_stacks_at t t' slot required stacks r →
  (∃ g, promise t' r = Some (stacked_entry g required.(task_slots)
                               required.(stack_bytes_per_task) stacks)) ∧
  (∀ r' e, promise t r' = Some e → promise t' r' = Some e) ∧
  inactive_entries (entries t') = inactive_entries (entries t) - 1.
Proof.
  intros Hok Hr Hst Hat.
  destruct (stacked_at_ok t t' slot required stacks r Hok Hr Hst Hat) as (_ & Htok & _).
  destruct Hat as (e & He & Ha & -> & ->). split_and!.
  - exists (fresh_generation e). unfold promise. rewrite Htok. simpl. by rewrite idx_alter_eq, He.
  - intros r' e' Hp. eapply promise_frame; [done| |done].
    intros (e2 & He2 & Ha2 & _)%token_slot_Some. congruence.
  - unfold inactive_entries. simpl. rewrite (zsum_alter _ _ _ _ e) by done. simpl.
    rewrite Ha. lia.
Qed.

(** The stacks of a plan: one array per group. *)
Definition plan_stacks_ok (groups : TaskResourcePlan) (stacks : list (list Z)) : Prop :=
  ∀ i g, idx groups i = Some g →
    ∃ s, idx stacks i = Some s ∧ stacks_for g.(resources).(task_slots) s.

Definition plan_wf (groups : TaskResourcePlan) : Prop :=
  Forall (λ g, 0 <= g.(resources).(task_slots)) groups.

Lemma group_slots_nonneg groups : plan_wf groups → 0 <= group_slots groups.
Proof. unfold group_slots. induction 1; simpl in *; lia. Qed.

Lemma group_slots_app g1 g2 : group_slots (g1 ++ g2) = group_slots g1 + group_slots g2.
Proof. apply zsum_app. Qed.

Lemma plan_fits_iff groups available :
  plan_wf groups → 0 <= available →
  (plan_fits groups available = Ok tt ↔ group_slots groups <= available).
Proof.
  intros Hwf. revert available. induction Hwf as [|g groups Hg Hwf IH]; intros available Ha; simpl.
  - split; [lia|done].
  - pose proof (group_slots_nonneg groups Hwf). fold (group_slots groups).
    destruct (Z.ltb_spec available (task_slots (resources g))); [split; [done|lia]|].
    rewrite IH by lia. lia.
Qed.

(** The promise a plan's group receives. *)
Definition group_promise (t : ReservationTable) (r : TaskReservation) (g : TaskResourceGroup)
    (s : list Z) : Prop :=
  ∃ gen, promise t r =
    Some (stacked_entry gen g.(resources).(task_slots) g.(resources).(stack_bytes_per_task) s).

Lemma reserve_groups_spec done_ groups stacks available committed t :
  table_ok t → plan_wf (done_ ++ groups) → available <= DYNAMIC_TASK_CAPACITY →
  group_slots (done_ ++ groups) <= available →
  Z.of_nat (length groups) <= inactive_entries (entries t) →
  plan_stacks_ok (done_ ++ groups) stacks →
  wp (reserve_groups done_ groups stacks available committed) (λ r t',
    table_ok t' ∧ total_remaining t' = total_remaining t + group_slots groups ∧
    (∀ r' e, promise t r' = Some e → promise t' r' = Some e) ∧
    ∃ toks, r = Ok (committed ++ toks) ∧ length toks = length groups ∧
      ∀ i g s tok, idx groups i = Some g →
        idx stacks (Z.of_nat (length done_) + i) = Some s → idx toks i = Some tok →
        group_promise t' tok g s) t.
Proof.
  revert done_ committed t. induction groups as [|g groups IH]; intros done_ committed t
    Hok Hwf Hav Hsum Hin Hst; simpl.
  { wp_steps. split_and!; [done|unfold group_slots; simpl; lia|auto|]. exists [].
    rewrite app_nil_r. done. }
  destruct (Hst (Z.of_nat (length done_)) g (idx_app_length _ _ _)) as (s & Hs & Hsok).
  wp_steps. eapply wp_expect; [done|]. wp_steps.
  assert (0 <= task_slots (resources g)) as Hg.
  { unfold plan_wf in Hwf. rewrite Forall_app, Forall_cons in Hwf. tauto. }
  assert (plan_wf done_ ∧ plan_wf groups) as [Hwf1 Hwf2].
  { unfold plan_wf in *. rewrite Forall_app, Forall_cons in Hwf. tauto. }
  pose proof (group_slots_nonneg _ Hwf1). pose proof (group_slots_nonneg _ Hwf2).
  rewrite group_slots_app in Hsum. unfold group_slots in Hsum at 2. simpl in Hsum.
  fold (group_slots groups) in Hsum. simpl in Hin. unfold DYNAMIC_TASK_CAPACITY in *.
  wp_apply (reserve_with_stacks_spec (resources g) (saturating_sub available (group_slots done_)) s t);
    [|done..|unfold saturating_sub, DYNAMIC_TASK_CAPACITY; lia].
  intros [tok|err] t1 H1; last first.
  { exfalso. destruct H1 as (-> & [(? & _)|(_ & _ & Hall)]).
    - unfold saturating_sub in *. lia.
    - destruct (inactive_pos (entries t)) as (i & e & Hi & Ha); [lia|].
      rewrite (Hall i e Hi) in Ha. done. }
  destruct H1 as (_ & slot & Hat).
  destruct (stacked_at_ok t t1 slot (resources g) s tok Hok ltac:(unfold DYNAMIC_TASK_CAPACITY; lia) Hsok Hat)
    as (Hok1 & _ & Htot).
  destruct (reserved_stacks_promise t t1 slot (resources g) s tok Hok ltac:(unfold DYNAMIC_TASK_CAPACITY; lia)
    Hsok Hat) as ([gen Hp] & Hkeep & Hin').
  wp_apply (IH (done_ ++ [g]) (committed ++ [tok]) t1); rewrite <-?app_assoc; simpl; try done.
  - intros r t' (Hok' & Htot' & Hkeep' & toks & -> & Hlen & Htoks). split_and!; [done| |auto|].
    + rewrite Htot', Htot. unfold group_slots. simpl. lia.
    + exists (tok :: toks). rewrite <-app_assoc. simpl. split_and!; [done|lia|].
      intros i g' s' tok'. destruct (Z.eqb_spec i 0) as [->|Hi].
      * intros [= <-] Hs' [= <-]. rewrite Z.add_0_r in Hs'. assert (s' = s) as -> by congruence.
        exists gen. auto.
      * intros Hg' Hs' Htok'. eapply (Htoks (i - 1)); [done| |done].
        rewrite length_app. simpl. rewrite <-Hs'. f_equal. lia.
  - rewrite group_slots_app. unfold group_slots at 2. simpl. fold (group_slots groups). lia.
  - lia.
Qed.

(** *** Consumption in order *)

Lemma drop_alter_past {A} (g : A → A) l i n :
  0 <= i < Z.of_nat n → drop n (alter_at g l i) = drop n l.
Proof.
  revert i n. induction l as [|x l IH]; intros i n Hi; [done|].
  destruct n as [|n]; [simpl in Hi; lia|]. simpl.
  destruct (Z.eqb_spec i 0) as [->|]; [done|]. simpl. apply IH. lia.
Qed.

Lemma owned_stacks_consumed e :
  entry_ok e → e_stack_count e ≠ 0 → e_remaining e ≠ 0 →
  owned_stacks e = at_ 0 (e_stacks e) (e_next_stack e) :: owned_stacks (consumed_entry e).
Proof.
  intros (_ & Hl & Hr & _ & _ & Hn & Hc & Hs & _) Hc0 Hr0. specialize (Hs Hc0).
  unfold owned_stacks, consumed_entry, DYNAMIC_TASK_CAPACITY in *.
  pose proof Hc0 as Hc1. apply Z.eqb_neq in Hc1. rewrite Hc1. simpl.
  assert (e_stacks e !! Z.to_nat (e_next_stack e) = Some (at_ 0 (e_stacks e) (e_next_stack e))) as Hx.
  { rewrite <-idx_lookup by lia. apply idx_at. unfold in_range. lia. }
  rewrite (drop_S _ _ _ Hx).
  replace (Z.to_nat (e_stack_count e - e_next_stack e)) with
    (S (Z.to_nat (e_stack_count e - Z.succ (e_next_stack e)))) by lia. simpl. f_equal.
  rewrite drop_alter_past by lia.
  by replace (Z.to_nat (Z.succ (e_next_stack e))) with (S (Z.to_nat (e_next_stack e))) by lia.
Qed.

Lemma promise_replace t r slot e e' :
  table_ok t → token_slot t r = Some slot → idx (entries t) slot = Some e →
  e_generation e' = e_generation e → e_active e' = true →
  promise (replace_entry t slot e e') r = Some e'.
Proof.
  intros Hok Hs He Hg Ha. apply token_slot_Some in Hs as (e2 & He2 & _ & -> & Htok).
  assert (e2 = e) as -> by congruence. unfold promise. rewrite <-Hg in Htok |- *.
  rewrite (token_slot_encode _ slot e'); [|by apply idx_replace_eq|done|done].
  by apply idx_replace_eq.
Qed.

Fixpoint consume_n (n : nat) (r : TaskReservation) :
    M ReservationTable (result DriverError (list (option ReservedStack))) :=
  match n with
  | O => mret (Ok [])
  | S n => stack ←? consume r; stacks ←? consume_n n r; mret (Ok (stack :: stacks))
  end.

Lemma consume_n_spec n r e t :
  table_ok t → promise t r = Some e → e_stack_count e ≠ 0 → Z.of_nat n <= e_remaining e →
  wp (consume_n n r) (λ res t',
    res = Ok ((λ p, Some (mkReservedStack p (e_stack_size e))) <$> take n (owned_stacks e)) ∧
    table_ok t' ∧ total_remaining t' = total_remaining t - Z.of_nat n ∧
    ∃ e', promise t' r = Some e' ∧ owned_stacks e' = drop n (owned_stacks e) ∧
      e_remaining e' = e_remaining e - Z.of_nat n) t.
Proof.
  revert e t. induction n as [|n IH]; intros e t Hok Hp Hc Hn; simpl.
  { wp_steps. split_and!; [done|done|lia|]. exists e. rewrite drop_0. split_and!; [done..|lia]. }
  destruct (promise_Some t r e Hp) as (slot & Hs & He & Ha).
  assert (entry_ok e) as Heok by (destruct Hok as (_ & H & _); eauto).
  assert (e_remaining e ≠ 0) as Hr0 by lia.
  wp_steps. wp_apply (consume_spec r t Hok). rewrite Hs. intros res t1 (e1 & He1 & H1).
  assert (e1 = e) as -> by congruence. pose proof Hr0 as Hr1. apply Z.eqb_neq in Hr1.
  rewrite Hr1 in H1. destruct H1 as (-> & ->).
  pose proof (consumed_entry_ok e Heok Hr0) as Hceok.
  pose proof (owned_stacks_consumed e Heok Hc Hr0) as Hown.
  unfold consumed_stack. pose proof Hc as Hc1. apply Z.eqb_neq in Hc1. rewrite Hc1.
  assert (consumed_entry e = e <| e_stacks ::= λ s, alter_at (λ _, 0) s e.(e_next_stack) |>
         <| e_next_stack ::= Z.succ |> <| e_remaining ::= Z.pred |>) as Hce.
  { unfold consumed_entry. by rewrite Hc1. }
  wp_steps. wp_apply (IH (consumed_entry e)).
  - intros res t2 (-> & Hok2 & Htot & e' & Hp' & Hown' & Hrem').
    wp_steps. rewrite Hown. split_and!; [|done| |].
    + simpl. by rewrite Hce.
    + rewrite Htot. simpl. rewrite Hce. simpl. lia.
    + exists e'. split_and!; [done|done|]. rewrite Hrem', Hce. simpl. lia.
  - by apply replace_entry_ok.
  - apply promise_replace; try done; by rewrite Hce.
  - by rewrite Hce.
  - rewrite Hce. simpl. lia.
Qed.

(** ** Properties *)

(** What the scheduler asks of the table: reservations are made against the free
    dynamic slots less those already promised. *)
Inductive reservation_op :=
| RvReserve (required free : Z)
| RvReserveStacks (required : TaskResourceRequirements) (free : Z) (stacks : list Z)
| RvReservePlan (plan : TaskResourcePlan) (free : Z) (stacks : list (list Z))
| RvConsume (r : TaskReservation)
| RvRelease (r : TaskReservation).

Definition reservation_exec (op : reservation_op) : M ReservationTable unit :=
  promised ← gets total_remaining;
  match op with
  | RvReserve required free => reserve required (saturating_sub free promised) ;; mret tt
  | RvReserveStacks required free stacks =>
      reserve_with_stacks required (saturating_sub free promised) stacks ;; mret tt
  | RvReservePlan plan free stacks =>
      reserve_plan_with_stacks plan (saturating_sub free promised) stacks ;; mret tt
  | RvConsume r => consume r ;; mret tt
  | RvRelease r => release r ;; mret tt
  end.

Definition reservation_op_ok (op : reservation_op) : Prop :=
  match op with
  | RvReserve required free => 1 <= required ∧ 0 <= free <= DYNAMIC_TASK_CAPACITY
  | RvReserveStacks required free stacks => 1 <= required.(task_slots) ∧
      0 <= free <= DYNAMIC_TASK_CAPACITY ∧ stacks_for required.(task_slots) stacks
  | RvReservePlan plan free stacks =>
      plan_wf plan ∧ 0 <= free <= DYNAMIC_TASK_CAPACITY ∧ plan_stacks_ok plan stacks
  | RvConsume _ | RvRelease _ => True
  end.

Lemma reserve_plan_spec plan available stacks t :
  table_ok t → plan_wf plan → 0 <= available <= DYNAMIC_TASK_CAPACITY →
  plan_stacks_ok plan stacks →
  wp (reserve_plan_with_stacks plan available stacks) (λ r t',
    (is_ok r = true ↔ group_slots plan <= available ∧
       Z.of_nat (length plan) <= inactive_entries (entries t)) ∧
    match r with
    | Err _ => t' = t
    | Ok toks => table_ok t' ∧ total_remaining t' = total_remaining t + group_slots plan ∧
        (∀ r' e, promise t r' = Some e → promise t' r' = Some e) ∧
        length toks = length plan ∧
        ∀ i g s tok, idx plan i = Some g → idx stacks i = Some s → idx toks i = Some tok →
          group_promise t' tok g s
    end) t.
Proof.
  intros Hok Hwf Hav Hst. unfold reserve_plan_with_stacks.
  pose proof (plan_fits_iff plan available Hwf ltac:(lia)) as Hfit.
  destruct (plan_fits plan available) as [[]|err].
  2: { wp_steps. split; [|done]. split; [done|]. intros [? _]. destruct Hfit as [_ Hfit].
       by specialize (Hfit ltac:(done)). }
  destruct Hfit as [Hfit _]. specialize (Hfit eq_refl). wp_steps.
  rewrite inactive_entries_filter.
  destruct (Z.ltb_spec (inactive_entries (entries t)) (Z.of_nat (length plan))).
  { wp_steps. split; [|done]. split; [done|lia]. }
  wp_apply (reserve_groups_spec [] plan stacks available [] t); [|done|done|lia|done|lia|done].
  intros r t' (Hok' & Htot & Hkeep & toks & -> & Hlen & Htoks).
  split; [split; auto|]. by split_and!.
Qed.

Lemma replace_total_le t slot e e' :
  e_remaining e' <= e_remaining e → total_remaining (replace_entry t slot e e') <= total_remaining t.
Proof. simpl. lia. Qed.

Lemma reservation_exec_ok op t :
  table_ok t → reservation_op_ok op → total_remaining t <= DYNAMIC_TASK_CAPACITY →
  wp (reservation_exec op) (λ _ t', table_ok t' ∧ total_remaining t' <= DYNAMIC_TASK_CAPACITY) t.
Proof.
  intros Hok Hop Hle. pose proof (table_total_bound t Hok).
  destruct op as [required free|required free stacks|plan free stacks|r|r];
    unfold reservation_exec; simpl in Hop; wp_steps.
  - destruct Hop as (Hr & Hf). wp_apply (reserve_spec required (saturating_sub free (total_remaining t)) t);
      [|done|lia|mlia].
    intros [tok|err] t1 H1; wp_steps; [|by destruct H1 as [-> _]].
    destruct H1 as (Hfit & slot & Hat). apply reserved_at_ok in Hat as (? & _ & ->); [|done|mlia].
    split; [done|mlia].
  - destruct Hop as (Hr & Hf & Hs).
    wp_apply (reserve_with_stacks_spec required (saturating_sub free (total_remaining t)) stacks t);
      [|done|lia|mlia].
    intros [tok|err] t1 H1; wp_steps; [|by destruct H1 as [-> _]].
    destruct H1 as (Hfit & slot & Hat). apply stacked_at_ok in Hat as (? & _ & ->); [|done|mlia|done].
    split; [done|mlia].
  - destruct Hop as (Hwf & Hf & Hs).
    wp_apply (reserve_plan_spec plan (saturating_sub free (total_remaining t)) stacks t);
      [|done|done|mlia|done].
    intros [toks|err] t1 [Hiff H1]; wp_steps; [|by subst].
    destruct Hiff as [Hfit _]. destruct (Hfit eq_refl) as [Hfit1 _].
    destruct H1 as (? & -> & _). split; [done|mlia].
  - wp_apply (consume_spec r t Hok). intros res t1 H1. wp_steps.
    destruct (token_slot t r) as [slot|]; [|by destruct H1 as [_ ->]].
    destruct H1 as (e & He & H1). assert (entry_ok e) as Heok by (destruct Hok as (_ & Ha & _); eauto).
    destruct (Z.eqb_spec (e_remaining e) 0); destruct H1 as [_ ->]; [done|].
    split; [by apply replace_entry_ok; [..|apply consumed_entry_ok]|].
    etrans; [apply replace_total_le|done]. unfold consumed_entry. case_match; simpl; lia.
  - wp_apply (release_spec r t Hok). intros res t1 H1. wp_steps.
    destruct (token_slot t r) as [slot|]; [|by destruct H1 as [_ ->]].
    destruct H1 as (e & He & _ & -> & _).
    assert (entry_ok e) as Heok by (destruct Hok as (_ & Ha & _); eauto).
    split; [by apply replace_entry_ok; [..|apply released_entry_ok]|].
    etrans; [apply replace_total_le|done]. simpl. destruct Heok as (_ & _ & ? & _). lia.
Qed.

(** C29: reservation accounting (RTOS-ADMISSION-001). From a fresh table, any
    sequence of reservations (of one group or of a plan, each asking against the
    free slots less those already promised), consumptions and releases, with
    arbitrary and possibly forged tokens, runs without a panic or an arithmetic
    underflow; at the end the promised total is the sum of what the entries
    promise, no entry is malformed, and no more than the fifteen dynamic slots
    are promised. *)
Theorem reservation_accounting (capacity : nat) (ops : list reservation_op) :
  Z.of_nat capacity <= 255 → Forall reservation_op_ok ops →
  wp (for_each ops reservation_exec) (λ _ t,
    table_ok t ∧ total_remaining t = zsum e_remaining (entries t) ∧
    0 <= total_remaining t <= DYNAMIC_TASK_CAPACITY) (ReservationTable_new capacity).
Proof.
  intros Hc Hops.
  apply (wp_for_each (λ _ t, table_ok t ∧ total_remaining t <= DYNAMIC_TASK_CAPACITY)).
  - split; [by apply table_new_ok|done].
  - intros done_ op rest t -> [Hok Hle]. apply reservation_exec_ok; [done| |done].
    by apply Forall_app in Hops as [_ [? _]%Forall_cons].
  - intros t [Hok Hle]. split_and!; [done| | |done]; [by destruct Hok as (_ & _ & ?)|].
    apply (table_total_bound t Hok).
Qed.

Lemma witness_stacks_ok k : stacks_for k (replicate 15 536870912).
Proof.
  split; [done|]. intros i p Hi. rewrite (idx_replicate 15 536870912 i). case_match; congruence.
Qed.

Definition witness_reservation_ops : list reservation_op :=
  [RvReserve 3 15; RvConsume (encode_reservation 1 0); RvRelease 77;
   RvReserveStacks (mkRequirements 2 4096 8192) 14 (replicate 15 536870912);
   RvRelease (encode_reservation 1 0)].

Lemma witness_reservation_ops_ok : Forall reservation_op_ok witness_reservation_ops.
Proof.
  assert (0 <= 15 <= DYNAMIC_TASK_CAPACITY ∧ 0 <= 14 <= DYNAMIC_TASK_CAPACITY) as [? ?]
    by (unfold DYNAMIC_TASK_CAPACITY; lia).
  unfold witness_reservation_ops.
  repeat (apply Forall_cons_2; [cbn [reservation_op_ok task_slots]|]); try done.
  split; [done|]. split; [done|apply witness_stacks_ok].
Qed.

Lemma reservation_accounting_witness :
  Z.of_nat 4 <= 255 ∧ Forall reservation_op_ok witness_reservation_ops ∧
  wp (for_each witness_reservation_ops reservation_exec) (λ _ t,
    table_ok t ∧ total_remaining t = zsum e_remaining (entries t) ∧
    0 <= total_remaining t <= DYNAMIC_TASK_CAPACITY) (ReservationTable_new 4).
Proof.
  split; [lia|]. split; [apply witness_reservation_ops_ok|].
  apply (reservation_accounting 4); [lia|apply witness_reservation_ops_ok].
Defined.

(** C30: preallocated stacks are handed out exactly once and returned exactly
    once (RTOS-ADMISSION-003). A reservation made with stacks yields, over [n]
    consumptions, the first [n] stacks in order and with the requested size; a
    release then returns exactly the stacks not consumed, gives back their slots
    and kills the token; and once every slot is consumed a further consumption is
    refused with [NoTaskSlots]. *)
Theorem reserved_stacks_roundtrip (t : ReservationTable) (required : TaskResourceRequirements)
    (available : Z) (stacks : list Z) (n : nat) :
  table_ok t → 1 <= required.(task_slots) <= available → available <= DYNAMIC_TASK_CAPACITY →
  stacks_for required.(task_slots) stacks → 0 < inactive_entries (entries t) →
  Z.of_nat n <= required.(task_slots) →
  let owned := take (Z.to_nat required.(task_slots)) stacks in
  wp (reserve_with_stacks required available stacks) (λ r t1, ∃ tok, r = Ok tok ∧
    wp (consume_n n tok) (λ got t2,
      got = Ok ((λ p, Some (mkReservedStack p required.(stack_bytes_per_task))) <$> take n owned) ∧
      (Z.of_nat n = required.(task_slots) → wp (consume tok) (λ r _, r = Err NoTaskSlots) t2) ∧
      wp (release tok) (λ rel t3,
        rel = Ok (mkReleased (padded (drop n owned)) (Z.of_nat (length (drop n owned)))) ∧
        total_remaining t3 = total_remaining t ∧ promise t3 tok = None ∧ table_ok t3) t2) t1) t.
Proof.
  intros Hok Hr Hav Hst Hin Hn owned.
  wp_apply (reserve_with_stacks_spec required available stacks t); [|done|lia|done].
  intros [tok|err] t1 H1; last first.
  { exfalso. destruct H1 as (_ & [[? _]|(_ & _ & Hall)]); [lia|].
    destruct (inactive_pos _ Hin) as (i & e & Hi & Ha). rewrite (Hall i e Hi) in Ha. done. }
  destruct H1 as (_ & slot & Hat). exists tok. split; [done|].
  assert (0 <= required.(task_slots) <= DYNAMIC_TASK_CAPACITY) as Hr' by lia.
  destruct (stacked_at_ok t t1 slot _ _ _ Hok Hr' Hst Hat) as (Hok1 & Htok1 & Htot1).
  destruct (reserved_stacks_promise t t1 slot _ _ _ Hok Hr' Hst Hat) as ([g Hp] & _ & _).
  set (e := stacked_entry _ _ _ _) in Hp.
  assert (owned_stacks e = owned) as Hown.
  { unfold owned_stacks. simpl. by rewrite drop_0, Z.sub_0_r. }
  wp_apply (consume_n_spec n tok e t1 Hok1 Hp); [|simpl; lia|done].
  intros got t2 (-> & Hok2 & Htot2 & e2 & Hp2 & Hown2 & Hrem2). rewrite Hown in *.
  destruct (promise_Some t2 tok e2 Hp2) as (slot2 & Hs2 & He2 & _). split_and!; [done| |].
  - intros Hall. wp_apply (consume_spec tok t2 Hok2). rewrite Hs2.
    intros r t3 (e3 & He3 & H3). assert (e3 = e2) as -> by congruence.
    assert (e_remaining e2 = 0) as Hz by (rewrite Hrem2; simpl; lia).
    rewrite Hz in H3. simpl in H3. by destruct H3.
  - wp_apply (release_spec tok t2 Hok2). rewrite Hs2.
    intros rel t3 (e3 & He3 & -> & -> & Hnone). assert (e3 = e2) as -> by congruence.
    rewrite Hown2. split_and!; [done| | |].
    + simpl. rewrite Hrem2. simpl. rewrite Htot2, Htot1. lia.
    + unfold promise. by rewrite Hnone.
    + apply replace_entry_ok; [done..|]. apply released_entry_ok.
      destruct Hok2 as (_ & Hall & _). eauto.
Qed.

Lemma reserved_stacks_roundtrip_witness :
  let t := ReservationTable_new 4 in
  let required := mkRequirements 3 4096 12288 in
  let stacks := replicate 15 536870912 in
  wp (reserve_with_stacks required 15 stacks) (λ r t1, ∃ tok, r = Ok tok ∧
    wp (consume_n 2 tok) (λ got t2,
      got = Ok ((λ p, Some (mkReservedStack p 4096)) <$> take 2 (take 3 stacks)) ∧
      (Z.of_nat 2 = 3 → wp (consume tok) (λ r _, r = Err NoTaskSlots) t2) ∧
      wp (release tok) (λ rel t3,
        rel = Ok (mkReleased (padded (drop 2 (take 3 stacks))) 1) ∧
        total_remaining t3 = 0 ∧ promise t3 tok = None ∧ table_ok t3) t2) t1) t.
Proof.
  apply (reserved_stacks_roundtrip (ReservationTable_new 4) (mkRequirements 3 4096 12288) 15
    (replicate 15 536870912) 2); simpl; try (unfold DYNAMIC_TASK_CAPACITY; lia).
  - by apply table_new_ok.
  - apply witness_stacks_ok.
Defined.

(** C31: a resource plan is admitted whole or not at all (RTOS-ADMISSION-002). The
    call never panics; it succeeds exactly when all groups together fit the
    available slots and there is a free entry for each; on success every group's
    token promises exactly that group's slots, stack size and stacks while
    earlier reservations keep theirs; on failure the table is as it was. *)
Theorem plan_all_or_nothing (t : ReservationTable) (plan : TaskResourcePlan) (available : Z)
    (stacks : list (list Z)) :
  table_ok t → plan_wf plan → 0 <= available <= DYNAMIC_TASK_CAPACITY →
  plan_stacks_ok plan stacks →
  wp (reserve_plan_with_stacks plan available stacks) (λ r t',
    (is_ok r = true ↔ group_slots plan <= available ∧
       Z.of_nat (length plan) <= inactive_entries (entries t)) ∧
    match r with
    | Err _ => t' = t
    | Ok toks => table_ok t' ∧ total_remaining t' = total_remaining t + group_slots plan ∧
        (∀ r' e, promise t r' = Some e → promise t' r' = Some e) ∧
        length toks = length plan ∧
        ∀ i g s tok, idx plan i = Some g → idx stacks i = Some s → idx toks i = Some tok →
          group_promise t' tok g s
    end) t.
Proof. apply reserve_plan_spec. Qed.

Definition witness_plan : TaskResourcePlan :=
  [mkGroup 1 (mkRequirements 3 4096 12288); mkGroup 2 (mkRequirements 2 8192 16384)].

Lemma plan_all_or_nothing_witness :
  let stacks := [replicate 15 536870912; replicate 15 536870912] in
  wp (reserve_plan_with_stacks witness_plan 15 stacks) (λ r t',
    (is_ok r = true ↔ 5 <= 15 ∧ 2 <= 4) ∧
    match r with
    | Err _ => t' = ReservationTable_new 4
    | Ok toks => table_ok t' ∧ total_remaining t' = 0 + 5 ∧
        (∀ r' e, promise (ReservationTable_new 4) r' = Some e → promise t' r' = Some e) ∧
        length toks = 2%nat ∧
        ∀ i g s tok, idx witness_plan i = Some g → idx stacks i = Some s → idx toks i = Some tok →
          group_promise t' tok g s
    end) (ReservationTable_new 4).
Proof.
  apply (plan_all_or_nothing (ReservationTable_new 4) witness_plan 15).
  - by apply table_new_ok.
  - repeat constructor; simpl; lia.
  - unfold DYNAMIC_TASK_CAPACITY. lia.
  - pose proof witness_stacks_ok as Hs.
    intros i g. simpl. destruct (i =? 0); [eauto|]. destruct (i - 1 =? 0); [eauto|done].
Defined.
