(* ===== verification/Context.v ===== *)
(** * The task context ABI ([src/context.rs])

    The unified trap frame: 68 words, in the field order of the source's
    [#[repr(C)]] struct. A register is a 32-bit word. *)

From S2P Require Import Prelude Effects.

Record TaskContext := mkContext {
  c_mstatus : Z;
  c_mepc : Z;
  c_tp : Z;
  c_sp : Z;
  c_s : list Z;
  c_caller_gpr : list Z;
  c_f : list Z;
  c_fcsr : Z;
  c_reserved : list Z;
}.

#[export] Instance eta_TaskContext : Eta TaskContext := λ t,
  mkContext (c_mstatus t) (c_mepc t) (c_tp t) (c_sp t) (c_s t) (c_caller_gpr t) (c_f t)
    (c_fcsr t) (c_reserved t).
#[export] Instance field_c_mstatus : Field c_mstatus. Proof. derive_field. Defined.
#[export] Instance field_c_mepc : Field c_mepc. Proof. derive_field. Defined.
#[export] Instance field_c_tp : Field c_tp. Proof. derive_field. Defined.
#[export] Instance field_c_sp : Field c_sp. Proof. derive_field. Defined.
#[export] Instance field_c_s : Field c_s. Proof. derive_field. Defined.
#[export] Instance field_c_caller_gpr : Field c_caller_gpr. Proof. derive_field. Defined.
#[export] Instance field_c_f : Field c_f. Proof. derive_field. Defined.
#[export] Instance field_c_fcsr : Field c_fcsr. Proof. derive_field. Defined.
#[export] Instance field_c_reserved : Field c_reserved. Proof. derive_field. Defined.

Definition TaskContext_zero : TaskContext := {|
  c_mstatus := 0;
  c_mepc := 0;
  c_tp := 0;
  c_sp := 0;
  c_s := replicate 12 0;
  c_caller_gpr := replicate 16 0;
  c_f := replicate 32 0;
  c_fcsr := 0;
  c_reserved := replicate 3 0;
|}.

(** The words of a context in memory order. *)
Definition context_words (c : TaskContext) : list Z :=
  [c.(c_mstatus); c.(c_mepc); c.(c_tp); c.(c_sp)] ++ c.(c_s) ++ c.(c_caller_gpr) ++
  c.(c_f) ++ [c.(c_fcsr)] ++ c.(c_reserved).
