(* ===== verification/Tcb.v ===== *)
(** * Task control blocks and the scheduler's state ([src/runtime/scheduler.rs])

    The data of [Sched], [Tcb] and [TaskMetrics], the semaphore and mutex states
    of [src/runtime/sync.rs], and the store the operations run in. The source
    reaches a semaphore or mutex from a task through a raw pointer kept in the
    TCB; here a [World] holds the scheduler and two heaps keyed by address, so
    that the scheduler, the waiting task and the caller all name the same object.

    The configuration is the target's ([riscv32]): the fields [saved_frame] and
    [last_consumed_switch_sequence] exist. *)

From S2P Require Import Prelude Effects Budget Contract Config Context Reservation.

Definition NO_TIMESTAMP : Z := u64_max.

Inductive State := Free | Ready | Running | Blocked | Sleeping | Throttled.

#[export] Instance State_eq_dec : EqDecision State.
Proof. solve_decision. Defined.

(** [a == b] on states. *)
Definition state_eqb (a b : State) : bool := bool_decide (a = b).

Record TaskRef := mkRef {
  ref_slot : Z;
  ref_generation : Z;
}.

Record SwitchIntent := mkIntent {
  si_sequence : Z;
  si_previous : TaskRef;
  si_target : TaskRef;
  si_previous_resume_generation : Z;
}.

Record PendingSwitch := mkPending {
  ps_sequence : Z;
  ps_previous : TaskRef;
  ps_target : TaskRef;
}.

#[export] Instance TaskRef_eq_dec : EqDecision TaskRef.
Proof. solve_decision. Defined.
#[export] Instance PendingSwitch_eq_dec : EqDecision PendingSwitch.
Proof. solve_decision. Defined.

Record TaskMetrics := mkMetrics {
  m_cpu_time_ms : Z;
  m_irq_time_ms : Z;
  m_dispatches : Z;
  m_budget_exhaustions : Z;
  m_max_continuous_run_ms : Z;
  m_max_ready_latency_ms : Z;
  m_scheduler_lock_entries : Z;
  m_max_scheduler_lock_ms : Z;
  m_irq_entries : Z;
  m_max_irq_span_ms : Z;
  m_run_started_at : Z;
  m_ready_since : Z;
}.

#[export] Instance eta_TaskMetrics : Eta TaskMetrics := λ t,
  mkMetrics (m_cpu_time_ms t) (m_irq_time_ms t) (m_dispatches t) (m_budget_exhaustions t)
    (m_max_continuous_run_ms t) (m_max_ready_latency_ms t) (m_scheduler_lock_entries t)
    (m_max_scheduler_lock_ms t) (m_irq_entries t) (m_max_irq_span_ms t) (m_run_started_at t)
    (m_ready_since t).
#[export] Instance field_m_cpu_time_ms : Field m_cpu_time_ms. Proof. derive_field. Defined.
#[export] Instance field_m_irq_time_ms : Field m_irq_time_ms. Proof. derive_field. Defined.
#[export] Instance field_m_dispatches : Field m_dispatches. Proof. derive_field. Defined.
#[export] Instance field_m_budget_exhaustions : Field m_budget_exhaustions. Proof. derive_field. Defined.
#[export] Instance field_m_max_continuous_run_ms : Field m_max_continuous_run_ms. Proof. derive_field. Defined.
#[export] Instance field_m_max_ready_latency_ms : Field m_max_ready_latency_ms. Proof. derive_field. Defined.
#[export] Instance field_m_scheduler_lock_entries : Field m_scheduler_lock_entries. Proof. derive_field. Defined.
#[export] Instance field_m_max_scheduler_lock_ms : Field m_max_scheduler_lock_ms. Proof. derive_field. Defined.
#[export] Instance field_m_irq_entries : Field m_irq_entries. Proof. derive_field. Defined.
#[export] Instance field_m_max_irq_span_ms : Field m_max_irq_span_ms. Proof. derive_field. Defined.
#[export] Instance field_m_run_started_at : Field m_run_started_at. Proof. derive_field. Defined.
#[export] Instance field_m_ready_since : Field m_ready_since. Proof. derive_field. Defined.

Definition TaskMetrics_empty : TaskMetrics := {|
  m_cpu_time_ms := 0;
  m_irq_time_ms := 0;
  m_dispatches := 0;
  m_budget_exhaustions := 0;
  m_max_continuous_run_ms := 0;
  m_max_ready_latency_ms := 0;
  m_scheduler_lock_entries := 0;
  m_max_scheduler_lock_ms := 0;
  m_irq_entries := 0;
  m_max_irq_span_ms := 0;
  m_run_started_at := NO_TIMESTAMP;
  m_ready_since := NO_TIMESTAMP;
|}.

Definition metrics_on_ready (now : Z) (m : TaskMetrics) : TaskMetrics :=
  if m.(m_ready_since) =? NO_TIMESTAMP then m <| m_ready_since := now |> else m.

Definition metrics_on_dispatch (now : Z) (m : TaskMetrics) : TaskMetrics :=
  let m := if negb (m.(m_ready_since) =? NO_TIMESTAMP)
           then m <| m_max_ready_latency_ms ::= Z.max (saturating_sub now m.(m_ready_since)) |>
                  <| m_ready_since := NO_TIMESTAMP |>
           else m in
  m <| m_run_started_at := now |> <| m_dispatches ::= sat_incr_u32 |>.

Definition metrics_on_switch_out (now : Z) (m : TaskMetrics) : TaskMetrics :=
  if m.(m_run_started_at) =? NO_TIMESTAMP then m
  else
    let elapsed := saturating_sub now m.(m_run_started_at) in
    m <| m_cpu_time_ms ::= λ c, saturating_add u64_max c elapsed |>
      <| m_max_continuous_run_ms ::= Z.max elapsed |>
      <| m_run_started_at := NO_TIMESTAMP |>.

Definition running_elapsed (m : TaskMetrics) (now : Z) : Z :=
  if negb (m.(m_run_started_at) =? NO_TIMESTAMP)
  then saturating_sub now m.(m_run_started_at) else 0.

Record Tcb := mkTcb {
  t_ctx : TaskContext;
  t_saved_frame : Z;
  t_resume_generation : Z;
  t_state : State;
  t_stack : Z;
  t_stack_size : Z;
  t_entry : option Z;
  t_arg : Z;
  t_next : Z;
  t_wake_at : Z;
  t_waiting_sem : Z;
  t_waiting_mutex : Z;
  t_sem_granted : bool;
  t_granted_sem : Z;
  t_granted_mutex : Z;
  t_base_priority : Z;
  t_priority : Z;
  t_inherited_waiters : list Z;
  t_scheduler_lock_depth : Z;
  t_scheduler_lock_started_at : option Z;
  t_identity_generation : Z;
  t_run_policy : RunPolicy;
  t_budget : BudgetState;
  t_metrics : TaskMetrics;
}.

#[export] Instance eta_Tcb : Eta Tcb := λ t,
  mkTcb (t_ctx t) (t_saved_frame t) (t_resume_generation t) (t_state t) (t_stack t)
    (t_stack_size t) (t_entry t) (t_arg t) (t_next t) (t_wake_at t) (t_waiting_sem t)
    (t_waiting_mutex t) (t_sem_granted t) (t_granted_sem t) (t_granted_mutex t)
    (t_base_priority t) (t_priority t) (t_inherited_waiters t) (t_scheduler_lock_depth t)
    (t_scheduler_lock_started_at t) (t_identity_generation t) (t_run_policy t) (t_budget t)
    (t_metrics t).
#[export] Instance field_t_ctx : Field t_ctx. Proof. derive_field. Defined.
#[export] Instance field_t_saved_frame : Field t_saved_frame. Proof. derive_field. Defined.
#[export] Instance field_t_resume_generation : Field t_resume_generation. Proof. derive_field. Defined.
#[export] Instance field_t_state : Field t_state. Proof. derive_field. Defined.
#[export] Instance field_t_stack : Field t_stack. Proof. derive_field. Defined.
#[export] Instance field_t_stack_size : Field t_stack_size. Proof. derive_field. Defined.
#[export] Instance field_t_entry : Field t_entry. Proof. derive_field. Defined.
#[export] Instance field_t_arg : Field t_arg. Proof. derive_field. Defined.
#[export] Instance field_t_next : Field t_next. Proof. derive_field. Defined.
#[export] Instance field_t_wake_at : Field t_wake_at. Proof. derive_field. Defined.
#[export] Instance field_t_waiting_sem : Field t_waiting_sem. Proof. derive_field. Defined.
#[export] Instance field_t_waiting_mutex : Field t_waiting_mutex. Proof. derive_field. Defined.
#[export] Instance field_t_sem_granted : Field t_sem_granted. Proof. derive_field. Defined.
#[export] Instance field_t_granted_sem : Field t_granted_sem. Proof. derive_field. Defined.
#[export] Instance field_t_granted_mutex : Field t_granted_mutex. Proof. derive_field. Defined.
#[export] Instance field_t_base_priority : Field t_base_priority. Proof. derive_field. Defined.
#[export] Instance field_t_priority : Field t_priority. Proof. derive_field. Defined.
#[export] Instance field_t_inherited_waiters : Field t_inherited_waiters. Proof. derive_field. Defined.
#[export] Instance field_t_scheduler_lock_depth : Field t_scheduler_lock_depth. Proof. derive_field. Defined.
#[export] Instance field_t_scheduler_lock_started_at : Field t_scheduler_lock_started_at. Proof. derive_field. Defined.
#[export] Instance field_t_identity_generation : Field t_identity_generation. Proof. derive_field. Defined.
#[export] Instance field_t_run_policy : Field t_run_policy. Proof. derive_field. Defined.
#[export] Instance field_t_budget : Field t_budget. Proof. derive_field. Defined.
#[export] Instance field_t_metrics : Field t_metrics. Proof. derive_field. Defined.

Definition Tcb_empty : Tcb := {|
  t_ctx := TaskContext_zero;
  t_saved_frame := 0;
  t_resume_generation := 0;
  t_state := Free;
  t_stack := 0;
  t_stack_size := 0;
  t_entry := None;
  t_arg := 0;
  t_next := NIL;
  t_wake_at := 0;
  t_waiting_sem := 0;
  t_waiting_mutex := 0;
  t_sem_granted := false;
  t_granted_sem := 0;
  t_granted_mutex := 0;
  t_base_priority := PRIORITY_LEVELS - 1;
  t_priority := PRIORITY_LEVELS - 1;
  t_inherited_waiters := replicate 32 0;
  t_scheduler_lock_depth := 0;
  t_scheduler_lock_started_at := None;
  t_identity_generation := 0;
  t_run_policy := Cooperative;
  t_budget := Budget.none;
  t_metrics := TaskMetrics_empty;
|}.

(** [Tcb::max_scheduler_lock_ms] *)
Definition max_scheduler_lock_ms (t : Tcb) (now : Z) : Z :=
  let current := match t.(t_scheduler_lock_started_at) with
                 | Some started_at => saturating_sub now started_at
                 | None => 0
                 end in
  Z.max t.(t_metrics).(m_max_scheduler_lock_ms) current.

Record Sched := mkSched {
  s_tasks : list Tcb;
  s_current : Z;
  s_ready_head : list Z;
  s_ready_tail : list Z;
  s_retired_stacks : list Z;
  s_retired_count : Z;
  s_slot_generations : list Z;
  s_reservations : ReservationTable;
  s_time_slice_pending : bool;
  s_time_slice_deadline : Z;
  s_pending_switch : option PendingSwitch;
  s_next_switch_sequence : Z;
  s_last_consumed_switch_sequence : Z;
  s_started : bool;
  s_diagnostics : Diagnostics;
  s_irq_started_at : Z;
  s_irq_task : Z;
}.

#[export] Instance eta_Sched : Eta Sched := λ s,
  mkSched (s_tasks s) (s_current s) (s_ready_head s) (s_ready_tail s) (s_retired_stacks s)
    (s_retired_count s) (s_slot_generations s) (s_reservations s) (s_time_slice_pending s)
    (s_time_slice_deadline s) (s_pending_switch s) (s_next_switch_sequence s)
    (s_last_consumed_switch_sequence s) (s_started s) (s_diagnostics s) (s_irq_started_at s)
    (s_irq_task s).
#[export] Instance field_s_tasks : Field s_tasks. Proof. derive_field. Defined.
#[export] Instance field_s_current : Field s_current. Proof. derive_field. Defined.
#[export] Instance field_s_ready_head : Field s_ready_head. Proof. derive_field. Defined.
#[export] Instance field_s_ready_tail : Field s_ready_tail. Proof. derive_field. Defined.
#[export] Instance field_s_retired_stacks : Field s_retired_stacks. Proof. derive_field. Defined.
#[export] Instance field_s_retired_count : Field s_retired_count. Proof. derive_field. Defined.
#[export] Instance field_s_slot_generations : Field s_slot_generations. Proof. derive_field. Defined.
#[export] Instance field_s_reservations : Field s_reservations. Proof. derive_field. Defined.
#[export] Instance field_s_time_slice_pending : Field s_time_slice_pending. Proof. derive_field. Defined.
#[export] Instance field_s_time_slice_deadline : Field s_time_slice_deadline. Proof. derive_field. Defined.
#[export] Instance field_s_pending_switch : Field s_pending_switch. Proof. derive_field. Defined.
#[export] Instance field_s_next_switch_sequence : Field s_next_switch_sequence. Proof. derive_field. Defined.
#[export] Instance field_s_last_consumed_switch_sequence : Field s_last_consumed_switch_sequence. Proof. derive_field. Defined.
#[export] Instance field_s_started : Field s_started. Proof. derive_field. Defined.
#[export] Instance field_s_diagnostics : Field s_diagnostics. Proof. derive_field. Defined.
#[export] Instance field_s_irq_started_at : Field s_irq_started_at. Proof. derive_field. Defined.
#[export] Instance field_s_irq_task : Field s_irq_task. Proof. derive_field. Defined.

(** The number of reservation entries is the driver contract's
    [TASK_RESOURCE_GROUP_CAPACITY]. *)
Definition Sched_new (group_capacity : nat) : Sched := {|
  s_tasks := replicate task_slots_nat Tcb_empty;
  s_current := 0;
  s_ready_head := replicate 32 NIL;
  s_ready_tail := replicate 32 NIL;
  s_retired_stacks := replicate task_slots_nat 0;
  s_retired_count := 0;
  s_slot_generations := replicate task_slots_nat 0;
  s_reservations := ReservationTable_new group_capacity;
  s_time_slice_pending := false;
  s_time_slice_deadline := 0;
  s_pending_switch := None;
  s_next_switch_sequence := 0;
  s_last_consumed_switch_sequence := 0;
  s_started := false;
  s_diagnostics := Diagnostics_EMPTY;
  s_irq_started_at := NO_TIMESTAMP;
  s_irq_task := NIL;
|}.

Record SemState := mkSem {
  sem_count : Z;
  sem_wait_head : Z;
  sem_wait_tail : Z;
}.

#[export] Instance eta_SemState : Eta SemState := λ s,
  mkSem (sem_count s) (sem_wait_head s) (sem_wait_tail s).
#[export] Instance field_sem_count : Field sem_count. Proof. derive_field. Defined.
#[export] Instance field_sem_wait_head : Field sem_wait_head. Proof. derive_field. Defined.
#[export] Instance field_sem_wait_tail : Field sem_wait_tail. Proof. derive_field. Defined.

Definition SemState_new (count : Z) : SemState := mkSem count NIL NIL.

Record MutexState := mkMutex {
  mtx_owner : Z;
  mtx_depth : Z;
  mtx_wait_head : Z;
  mtx_wait_tail : Z;
}.

#[export] Instance eta_MutexState : Eta MutexState := λ m,
  mkMutex (mtx_owner m) (mtx_depth m) (mtx_wait_head m) (mtx_wait_tail m).
#[export] Instance field_mtx_owner : Field mtx_owner. Proof. derive_field. Defined.
#[export] Instance field_mtx_depth : Field mtx_depth. Proof. derive_field. Defined.
#[export] Instance field_mtx_wait_head : Field mtx_wait_head. Proof. derive_field. Defined.
#[export] Instance field_mtx_wait_tail : Field mtx_wait_tail. Proof. derive_field. Defined.

Definition MutexState_new : MutexState := mkMutex NIL 0 NIL NIL.

(** The store: the scheduler behind the critical section and the semaphores and
    mutexes reachable by address. *)
Record World := mkWorld {
  w_sched : Sched;
  w_sems : gmap Z SemState;
  w_mutexes : gmap Z MutexState;
}.

#[export] Instance eta_World : Eta World := λ w,
  mkWorld (w_sched w) (w_sems w) (w_mutexes w).
#[export] Instance field_w_sched : Field w_sched. Proof. derive_field. Defined.
#[export] Instance field_w_sems : Field w_sems. Proof. derive_field. Defined.
#[export] Instance field_w_mutexes : Field w_mutexes. Proof. derive_field. Defined.

(** The store before any object is created. *)
Definition World_new (group_capacity : nat) : World := mkWorld (Sched_new group_capacity) ∅ ∅.
