(* ===== verification/Store.v ===== *)
(** * Access to the scheduler's store

    The field and index accesses of the source as operations of [M World]: an
    index past the end of an array panics and an address no live object has is a
    [BadPointer]. The second half gives their specifications in terms of total
    readers ([T], [nx], [hd_of], [tl_of]) and the frame lemmas the components use. *)

From S2P Require Import Prelude Effects Budget Contract Config Context Reservation Tcb.

Definition sched_gets {A} (f : Sched → A) : M World A := gets (λ w, f (w_sched w)).
Definition sched_modify (g : Sched → Sched) : M World unit :=
  modify (λ w, w <| w_sched ::= g |>).

(** [self.tasks[i]] *)
Definition task_at (i : Z) : M World Tcb := ts ← sched_gets s_tasks; expect (idx ts i).
Definition tget {A} (f : Tcb → A) (i : Z) : M World A := t ← task_at i; mret (f t).

(** [self.tasks[i] = g(self.tasks[i])] *)
Definition upd_task (i : Z) (g : Tcb → Tcb) (w : World) : World :=
  w <| w_sched ::= λ s, s <| s_tasks ::= λ ts, alter_at g ts i |> |>.
Definition set_task (i : Z) (g : Tcb → Tcb) : M World unit :=
  _ ← task_at i; modify (upd_task i g).

(** [self.diagnostics.f = self.diagnostics.f.saturating_add(1)] on a [u32]. *)
Definition bump (f : Diagnostics → Z) `{!Field f} : M World unit :=
  sched_modify (λ s, s <| s_diagnostics ::= λ d, d <| f ::= sat_incr_u32 |> |>).

(** The state behind the address [a], reached in the source by a raw pointer. *)
Definition sem_at (a : Z) : M World SemState :=
  ss ← gets w_sems; match ss !! a with Some st => mret st | None => fail BadPointer end.
Definition set_sem (a : Z) (g : SemState → SemState) : M World unit :=
  _ ← sem_at a; modify (λ w, w <| w_sems ::= alter g a |>).
Definition mutex_at (a : Z) : M World MutexState :=
  ms ← gets w_mutexes; match ms !! a with Some st => mret st | None => fail BadPointer end.
Definition set_mutex (a : Z) (g : MutexState → MutexState) : M World unit :=
  _ ← mutex_at a; modify (λ w, w <| w_mutexes ::= alter g a |>).

(** ** Queues

    Every intrusive queue of the scheduler runs through [Tcb::next]: a ready
    queue per priority, a wait queue per semaphore and one per mutex. *)
Inductive qid :=
| QReady (p : Z)
| QSem (a : Z)
| QMtx (a : Z).

#[export] Instance qid_eq_dec : EqDecision qid.
Proof. solve_decision. Defined.

(** [self.ready_head[p]], [state.wait_head]. *)
Definition get_head (id : qid) : M World Z :=
  match id with
  | QReady p => hs ← sched_gets s_ready_head; expect (idx hs p)
  | QSem a => st ← sem_at a; mret st.(sem_wait_head)
  | QMtx a => st ← mutex_at a; mret st.(mtx_wait_head)
  end.
Definition get_tail (id : qid) : M World Z :=
  match id with
  | QReady p => ts ← sched_gets s_ready_tail; expect (idx ts p)
  | QSem a => st ← sem_at a; mret st.(sem_wait_tail)
  | QMtx a => st ← mutex_at a; mret st.(mtx_wait_tail)
  end.

Definition put_head (id : qid) (v : Z) (w : World) : World :=
  match id with
  | QReady p => w <| w_sched ::= λ s, s <| s_ready_head ::= λ h, alter_at (λ _, v) h p |> |>
  | QSem a => w <| w_sems ::= alter (λ st, st <| sem_wait_head := v |>) a |>
  | QMtx a => w <| w_mutexes ::= alter (λ st, st <| mtx_wait_head := v |>) a |>
  end.
Definition put_tail (id : qid) (v : Z) (w : World) : World :=
  match id with
  | QReady p => w <| w_sched ::= λ s, s <| s_ready_tail ::= λ h, alter_at (λ _, v) h p |> |>
  | QSem a => w <| w_sems ::= alter (λ st, st <| sem_wait_tail := v |>) a |>
  | QMtx a => w <| w_mutexes ::= alter (λ st, st <| mtx_wait_tail := v |>) a |>
  end.
Definition set_head (id : qid) (v : Z) : M World unit := _ ← get_head id; modify (put_head id v).
Definition set_tail (id : qid) (v : Z) : M World unit := _ ← get_tail id; modify (put_tail id v).

(** [self.tasks[i].next = v] *)
Definition set_next (i v : Z) : M World unit := set_task i (λ t, t <| t_next := v |>).

(** ** Total readers *)

Definition T (w : World) (i : Z) : Tcb := at_ Tcb_empty (s_tasks (w_sched w)) i.
Definition nx (w : World) (i : Z) : Z := t_next (T w i).
Definition slot_in (i : Z) : Prop := 0 <= i < TASK_SLOT_COUNT.

(** The pending switch, the current task and the target of the pending switch. *)
Definition pending (w : World) : option PendingSwitch := s_pending_switch (w_sched w).
Definition current (w : World) : Z := s_current (w_sched w).

Definition is_target (w : World) (i : Z) : Prop :=
  match pending w with Some p => p.(ps_target).(ref_slot) = i | None => False end.

Definition hd_of (w : World) (id : qid) : Z :=
  match id with
  | QReady p => at_ NIL (s_ready_head (w_sched w)) p
  | QSem a => default NIL (sem_wait_head <$> w_sems w !! a)
  | QMtx a => default NIL (mtx_wait_head <$> w_mutexes w !! a)
  end.
Definition tl_of (w : World) (id : qid) : Z :=
  match id with
  | QReady p => at_ NIL (s_ready_tail (w_sched w)) p
  | QSem a => default NIL (sem_wait_tail <$> w_sems w !! a)
  | QMtx a => default NIL (mtx_wait_tail <$> w_mutexes w !! a)
  end.

(** The queues that exist. *)
Definition valid (w : World) (id : qid) : Prop :=
  match id with
  | QReady p => 0 <= p < PRIORITY_LEVELS
  | QSem a => is_Some (w_sems w !! a)
  | QMtx a => is_Some (w_mutexes w !! a)
  end.

(** The sizes of the scheduler's arrays. *)
Record shape (w : World) : Prop := {
  shape_tasks : Z.of_nat (length (s_tasks (w_sched w))) = TASK_SLOT_COUNT;
  shape_head : Z.of_nat (length (s_ready_head (w_sched w))) = PRIORITY_LEVELS;
  shape_tail : Z.of_nat (length (s_ready_tail (w_sched w))) = PRIORITY_LEVELS;
  shape_generations : Z.of_nat (length (s_slot_generations (w_sched w))) = TASK_SLOT_COUNT;
  shape_retired : Z.of_nat (length (s_retired_stacks (w_sched w))) = TASK_SLOT_COUNT;
}.

Lemma slot_count_value : TASK_SLOT_COUNT = 17.
Proof. done. Qed.

Lemma slot_in_not_NIL i : slot_in i → i ≠ NIL.
Proof. unfold slot_in, NIL, usize_max. rewrite slot_count_value. lia. Qed.

Lemma shape_in w i : shape w → slot_in i → in_range (s_tasks (w_sched w)) i.
Proof. intros [H _ _ _ _] Hi. unfold in_range, slot_in in *. lia. Qed.

Lemma shape_ext w w' :
  length (s_tasks (w_sched w')) = length (s_tasks (w_sched w)) →
  length (s_ready_head (w_sched w')) = length (s_ready_head (w_sched w)) →
  length (s_ready_tail (w_sched w')) = length (s_ready_tail (w_sched w)) →
  length (s_slot_generations (w_sched w')) = length (s_slot_generations (w_sched w)) →
  length (s_retired_stacks (w_sched w')) = length (s_retired_stacks (w_sched w)) →
  shape w → shape w'.
Proof. intros H1 H2 H3 H4 H5 [? ? ? ? ?]. split; congruence. Qed.

Lemma T_upd_task w i g j :
  shape w → slot_in i → T (upd_task i g w) j = if decide (i = j) then g (T w j) else T w j.
Proof. intros Hs Hi. unfold T. simpl. apply at_alter. by apply shape_in. Qed.

Lemma T_upd_eq w i g : shape w → slot_in i → T (upd_task i g w) i = g (T w i).
Proof. intros. rewrite T_upd_task by done. by rewrite decide_True. Qed.

Lemma T_upd_ne w i g j : shape w → slot_in i → i ≠ j → T (upd_task i g w) j = T w j.
Proof. intros. rewrite T_upd_task by done. by rewrite decide_False. Qed.

Lemma shape_upd_task w i g : shape w → shape (upd_task i g w).
Proof. apply shape_ext; try done. apply length_alter_at. Qed.

Lemma shape_put_head w id v : shape w → shape (put_head id v w).
Proof. destruct id; apply shape_ext; try done. apply length_alter_at. Qed.

Lemma shape_put_tail w id v : shape w → shape (put_tail id v w).
Proof. destruct id; apply shape_ext; try done. apply length_alter_at. Qed.

(** A field the update keeps, at any index. *)
Lemma T_upd_field {A} (f : Tcb → A) w i g j :
  (∀ t, f (g t) = f t) → f (T (upd_task i g w) j) = f (T w j).
Proof.
  intros Hg. unfold T, at_. simpl. destruct (decide (i = j)) as [<-|Hne].
  - rewrite idx_alter_eq. by destruct (idx _ i); simpl.
  - by rewrite idx_alter_ne.
Qed.

Lemma T_new n i : T (World_new n) i = Tcb_empty.
Proof. unfold T, at_. simpl s_tasks. rewrite (idx_replicate 17 Tcb_empty). by case_match. Qed.

Lemma upd_task_compose w i g h :
  upd_task i g (upd_task i h w) = upd_task i (λ t, g (h t)) w.
Proof.
  destruct w as [s ss ms]. unfold upd_task. cbv [upd field_w_sched field_s_tasks]. simpl.
  by rewrite alter_at_compose.
Qed.

Create HintDb store discriminated.
#[export] Hint Constants Opaque : store.
#[export] Hint Resolve shape_upd_task shape_put_head shape_put_tail slot_in_not_NIL : store.

(** ** Running the accessors *)

Lemma wp_sched_gets {A} (f : Sched → A) Q w : Q (f (w_sched w)) w → wp (sched_gets f) Q w.
Proof. done. Qed.

Lemma wp_sched_modify g (Q : unit → World → Prop) w :
  Q tt (w <| w_sched ::= g |>) → wp (sched_modify g) Q w.
Proof. done. Qed.

Lemma wp_task_at i (Q : Tcb → World → Prop) w :
  shape w → slot_in i → Q (T w i) w → wp (task_at i) Q w.
Proof.
  intros Hs Hi HQ. unfold task_at. apply wp_bind, wp_sched_gets.
  eapply wp_expect; [by apply idx_at, shape_in|done].
Qed.

Lemma wp_tget {A} (f : Tcb → A) i (Q : A → World → Prop) w :
  shape w → slot_in i → Q (f (T w i)) w → wp (tget f i) Q w.
Proof. intros Hs Hi HQ. unfold tget. apply wp_bind, wp_task_at; done. Qed.

Lemma wp_set_task i g (Q : unit → World → Prop) w :
  shape w → slot_in i → Q tt (upd_task i g w) → wp (set_task i g) Q w.
Proof. intros Hs Hi HQ. unfold set_task. apply wp_bind, wp_task_at; done. Qed.

Lemma wp_get_head id (Q : Z → World → Prop) w :
  shape w → valid w id → Q (hd_of w id) w → wp (get_head id) Q w.
Proof.
  intros Hs Hv HQ. destruct id as [p|a|a]; simpl in *.
  - apply wp_bind, wp_sched_gets. eapply wp_expect; [|exact HQ]. apply idx_at.
    destruct Hs as [_ ? _ _ _]. unfold in_range, PRIORITY_LEVELS in *. lia.
  - apply wp_bind. unfold sem_at. apply wp_bind, wp_gets. destruct Hv as [st Hst].
    rewrite Hst in *. done.
  - apply wp_bind. unfold mutex_at. apply wp_bind, wp_gets. destruct Hv as [st Hst].
    rewrite Hst in *. done.
Qed.

Lemma wp_get_tail id (Q : Z → World → Prop) w :
  shape w → valid w id → Q (tl_of w id) w → wp (get_tail id) Q w.
Proof.
  intros Hs Hv HQ. destruct id as [p|a|a]; simpl in *.
  - apply wp_bind, wp_sched_gets. eapply wp_expect; [|exact HQ]. apply idx_at.
    destruct Hs as [_ _ ? _ _]. unfold in_range, PRIORITY_LEVELS in *. lia.
  - apply wp_bind. unfold sem_at. apply wp_bind, wp_gets. destruct Hv as [st Hst].
    rewrite Hst in *. done.
  - apply wp_bind. unfold mutex_at. apply wp_bind, wp_gets. destruct Hv as [st Hst].
    rewrite Hst in *. done.
Qed.

Lemma wp_set_head id v (Q : unit → World → Prop) w :
  shape w → valid w id → Q tt (put_head id v w) → wp (set_head id v) Q w.
Proof. intros Hs Hv HQ. unfold set_head. apply wp_bind, wp_get_head; done. Qed.

Lemma wp_set_tail id v (Q : unit → World → Prop) w :
  shape w → valid w id → Q tt (put_tail id v w) → wp (set_tail id v) Q w.
Proof. intros Hs Hv HQ. unfold set_tail. apply wp_bind, wp_get_tail; done. Qed.

Lemma wp_sem_at a st (Q : SemState → World → Prop) w :
  w_sems w !! a = Some st → Q st w → wp (sem_at a) Q w.
Proof. intros Ha HQ. unfold sem_at. apply wp_bind, wp_gets. by rewrite Ha. Qed.

Lemma wp_mutex_at a st (Q : MutexState → World → Prop) w :
  w_mutexes w !! a = Some st → Q st w → wp (mutex_at a) Q w.
Proof. intros Ha HQ. unfold mutex_at. apply wp_bind, wp_gets. by rewrite Ha. Qed.

Lemma wp_set_sem a g st (Q : unit → World → Prop) w :
  w_sems w !! a = Some st → Q tt (w <| w_sems ::= alter g a |>) → wp (set_sem a g) Q w.
Proof. intros Ha HQ. unfold set_sem. apply wp_bind. by eapply wp_sem_at. Qed.

Lemma wp_set_mutex a g st (Q : unit → World → Prop) w :
  w_mutexes w !! a = Some st → Q tt (w <| w_mutexes ::= alter g a |>) → wp (set_mutex a g) Q w.
Proof. intros Ha HQ. unfold set_mutex. apply wp_bind. by eapply wp_mutex_at. Qed.

(** [go] runs every primitive access whose side conditions the context has. *)
Ltac shape_side := solve [eauto 8 with store | assumption].
Ltac go1 :=
  first
    [ wp_step
    | lazymatch goal with
      | |- wp (sched_gets _) _ _ => apply wp_sched_gets
      | |- wp (sched_modify _) _ _ => apply wp_sched_modify
      | |- wp (bump _) _ _ => apply wp_sched_modify
      | |- wp (task_at _) _ _ => apply wp_task_at; [shape_side..|]
      | |- wp (tget _ _) _ _ => apply wp_tget; [shape_side..|]
      | |- wp (set_next _ _) _ _ => apply wp_set_task; [shape_side..|]
      | |- wp (set_task _ _) _ _ => apply wp_set_task; [shape_side..|]
      | |- wp (get_head _) _ _ => apply wp_get_head; [shape_side..|]
      | |- wp (get_tail _) _ _ => apply wp_get_tail; [shape_side..|]
      | |- wp (set_head _ _) _ _ => apply wp_set_head; [shape_side..|]
      | |- wp (set_tail _ _) _ _ => apply wp_set_tail; [shape_side..|]
      end ].
Ltac go := repeat (go1; cbv beta).
