(* ===== verification/Chain.v ===== *)
(** * Intrusive queues

    Every queue of the scheduler is a singly linked list through [Tcb::next] with
    a head and a tail kept elsewhere: per priority in the ready arrays, per object
    in a semaphore or mutex. [queues w q] says that in the store [w] the queues
    are exactly the lists [q], no task is in two places, and tails and heads
    agree; the abstract operations on [q] are plain list operations. [core w]
    forgets the links, so [core w' = core w] says an operation changed nothing
    but queue membership. *)

From S2P Require Import Prelude Effects Budget Contract Config Context Reservation Tcb Store.

(** ** Segments *)

Fixpoint seg (f : Z → Z) (h : Z) (l : list Z) (t : Z) : Prop :=
  match l with
  | [] => h = t
  | x :: l => h = x ∧ seg f (f x) l t
  end.

Lemma seg_app f h l1 l2 t :
  seg f h (l1 ++ l2) t ↔ ∃ m, seg f h l1 m ∧ seg f m l2 t.
Proof.
  revert h. induction l1 as [|x l1 IH]; intros h; simpl.
  - split; [by eauto|by intros (m & -> & ?)].
  - rewrite IH. split; [intros (-> & m & ? & ?); eauto|intros (m & [-> ?] & ?); eauto].
Qed.

Lemma seg_ext f g h l t : (∀ i, i ∈ l → f i = g i) → seg f h l t → seg g h l t.
Proof.
  revert h. induction l as [|x l IH]; intros h Hfg; simpl; [done|]. intros [-> Hs].
  split; [done|]. rewrite <-(Hfg x) by set_solver. apply IH; [|done].
  intros i Hi. apply Hfg. set_solver.
Qed.

(** Redirecting the last link of a segment. *)
Lemma seg_redirect f g h l p t v :
  (∀ i, i ∈ l → f i = g i) → g p = v → seg f h (l ++ [p]) t → seg g h (l ++ [p]) v.
Proof.
  intros Hfg Hp. rewrite !seg_app. intros (m & Hl & -> & _). exists p.
  split; [by eapply seg_ext|]. by split.
Qed.

Lemma seg_functional f h l l' :
  seg f h l NIL → seg f h l' NIL → NIL ∉ l → NIL ∉ l' → l = l'.
Proof.
  revert h l'. induction l as [|x l IH]; intros h [|y l']; simpl; try done.
  - intros -> [-> _] _ Hn. set_solver.
  - intros [-> _] -> Hn. set_solver.
  - intros [-> Hs] [<- Hs'] Hn Hn'. f_equal. eapply IH; [done..| |]; set_solver.
Qed.

Lemma last_snoc_or_nil (l : list Z) : l = [] ∨ ∃ l0 p, l = l0 ++ [p].
Proof. induction l as [|p l0 _] using rev_ind; [by left|right; eauto]. Qed.

(** ** The queues of a store *)

Abbreviation Queues := (qid → list Z) (only parsing).

Record queues (w : World) (q : Queues) : Prop := {
  queues_shape : shape w;
  queues_seg id : valid w id → seg (nx w) (hd_of w id) (q id) NIL;
  queues_tail id : valid w id → tl_of w id = default NIL (last (q id));
  queues_valid id i : i ∈ q id → valid w id;
  queues_slot id i : i ∈ q id → slot_in i;
  queues_nodup id : NoDup (q id);
  queues_disjoint id id' i : i ∈ q id → i ∈ q id' → id = id';
}.
#[export] Hint Resolve queues_shape : store.

(** A task in no queue. *)
Definition detached (q : Queues) (i : Z) : Prop := ∀ id, i ∉ q id.

(** Replacing one list. *)
Definition qset (id : qid) (l : list Z) (q : Queues) : Queues :=
  λ id', if decide (id = id') then l else q id'.

Lemma qset_eq id l q : qset id l q id = l.
Proof. unfold qset. by rewrite decide_True. Qed.

Lemma qset_ne id id' l q : id ≠ id' → qset id l q id' = q id'.
Proof. intros. unfold qset. by rewrite decide_False. Qed.

Lemma queues_not_NIL w q id i : queues w q → i ∈ q id → i ≠ NIL.
Proof. intros Hq Hi. eapply slot_in_not_NIL, queues_slot; done. Qed.

Lemma queues_head w q id :
  queues w q → valid w id → hd_of w id = default NIL (head (q id)).
Proof.
  intros Hq Hv. pose proof (queues_seg w q Hq id Hv) as H. destruct (q id); simpl in *; [done|tauto].
Qed.

Lemma queues_head_nil w q id :
  queues w q → valid w id → (hd_of w id = NIL ↔ q id = []).
Proof.
  intros Hq Hv. rewrite (queues_head w q id) by done.
  destruct (q id) as [|x l] eqn:E; simpl; [done|]. split; [|done]. intros ->.
  exfalso. eapply queues_not_NIL; [done| |done]. rewrite E. set_solver.
Qed.

Lemma queues_next_in w q id l1 x l2 :
  queues w q → valid w id → q id = l1 ++ x :: l2 → nx w x = default NIL (head l2).
Proof.
  intros Hq Hv E. pose proof (queues_seg w q Hq id Hv) as Hs. rewrite E in Hs.
  apply seg_app in Hs as (m & _ & _ & Hs). destruct l2; simpl in *; tauto.
Qed.

(** A change confined to the queue [id] and the links of its tasks. *)
Lemma queues_update w w' q id l :
  queues w q → shape w' → valid w id → (∀ id', valid w' id' ↔ valid w id') →
  (∀ id', id' ≠ id → hd_of w' id' = hd_of w id' ∧ tl_of w' id' = tl_of w id') →
  (∀ id' i, id' ≠ id → i ∈ q id' → nx w' i = nx w i) →
  seg (nx w') (hd_of w' id) l NIL → tl_of w' id = default NIL (last l) →
  NoDup l → (∀ i, i ∈ l → slot_in i) →
  (∀ id' i, id' ≠ id → i ∈ l → i ∉ q id') →
  queues w' (qset id l q).
Proof.
  intros Hq Hsh Hv Hval Hends Hnx Hseg Htl Hnd Hin Hdis. split; [done|..].
  - intros id' Hv'. destruct (decide (id = id')) as [<-|Hne].
    + by rewrite qset_eq.
    + rewrite qset_ne by done. destruct (Hends id') as [-> _]; [done|].
      apply (seg_ext (nx w)); [|by apply Hq, Hval]. intros i Hi. symmetry. eauto.
  - intros id' Hv'. destruct (decide (id = id')) as [<-|Hne].
    + by rewrite qset_eq.
    + rewrite qset_ne by done. destruct (Hends id') as [_ ->]; [done|]. by apply Hq, Hval.
  - intros id' i. destruct (decide (id = id')) as [<-|Hne].
    + intros _. by apply Hval.
    + rewrite qset_ne by done. intros Hi. apply Hval. by eapply (queues_valid w).
  - intros id' i. destruct (decide (id = id')) as [<-|Hne].
    + rewrite qset_eq. apply Hin.
    + rewrite qset_ne by done. by eapply (queues_slot w).
  - intros id'. destruct (decide (id = id')) as [<-|Hne].
    + by rewrite qset_eq.
    + rewrite qset_ne by done. by eapply queues_nodup.
  - intros a b i. unfold qset.
    destruct (decide (id = a)) as [<-|Ha], (decide (id = b)) as [<-|Hb]; [done| | |].
    + intros Hi Hi'. exfalso. by eapply (Hdis b i).
    + intros Hi Hi'. exfalso. by eapply (Hdis a i).
    + by apply (queues_disjoint w).
Qed.

(** A change that leaves every link and end alone. *)
Lemma queues_same w w' q :
  queues w q → shape w' → (∀ id, valid w' id ↔ valid w id) →
  (∀ id, hd_of w' id = hd_of w id) → (∀ id, tl_of w' id = tl_of w id) →
  (∀ i, nx w' i = nx w i) → queues w' q.
Proof.
  intros Hq Hsh Hval Hhd Htl Hnx. split; [done|..].
  - intros id Hv. rewrite Hhd. eapply seg_ext; [|by apply Hq, Hval]. by intros.
  - intros id Hv. rewrite Htl. by apply Hq, Hval.
  - intros id i Hi. apply Hval. by eapply (queues_valid w).
  - apply Hq.
  - apply Hq.
  - apply Hq.
Qed.

Lemma queues_ext w q q' : (∀ id, q' id = q id) → queues w q → queues w q'.
Proof.
  intros E [H1 H2 H3 H4 H5 H6 H7]. split; [done|..]; intros id; rewrite ?E; auto.
  - apply H4.
  - apply H5.
  - intros id' i. rewrite E. apply H7.
Qed.

Lemma qset_same id q id' : qset id (q id) q id' = q id'.
Proof. unfold qset. by case_decide; subst. Qed.

(** Updating a task without touching its link. *)
Lemma queues_upd_task w q i g :
  (∀ t, t_next (g t) = t_next t) → queues w q → queues (upd_task i g w) q.
Proof.
  intros Hg Hq. apply (queues_same w); [done|eauto with store|by intros []..|].
  intros j. unfold nx, T. simpl. unfold at_.
  destruct (decide (i = j)) as [<-|Hne].
  - rewrite idx_alter_eq. destruct (idx _ i); simpl; [apply Hg|done].
  - by rewrite idx_alter_ne.
Qed.

(** ** The store without its links *)

Definition core_tcb (t : Tcb) : Tcb := t <| t_next := 0 |>.
Definition core_sem (st : SemState) : SemState := st <| sem_wait_head := 0 |> <| sem_wait_tail := 0 |>.
Definition core_mtx (st : MutexState) : MutexState :=
  st <| mtx_wait_head := 0 |> <| mtx_wait_tail := 0 |>.
Definition core (w : World) : World :=
  w <| w_sched ::= λ s,
         s <| s_tasks ::= fmap core_tcb |> <| s_ready_head := [] |> <| s_ready_tail := [] |> |>
    <| w_sems ::= fmap core_sem |> <| w_mutexes ::= fmap core_mtx |>.

Lemma fmap_alter_at {A B} (f : A → B) g g' l i :
  (∀ x, f (g x) = g' (f x)) → f <$> alter_at g l i = alter_at g' (f <$> l) i.
Proof.
  intros H. revert i. induction l as [|x l IH]; intros i; [done|]. simpl.
  destruct (i =? 0); simpl; f_equal; [apply H|apply IH].
Qed.

Lemma alter_at_id {A} (l : list A) i : alter_at (λ x, x) l i = l.
Proof. revert i. induction l as [|x l IH]; intros i; simpl; [done|]. rewrite IH. by case_match. Qed.

Lemma idx_fmap {A B} (f : A → B) l i : idx (f <$> l) i = f <$> idx l i.
Proof. revert i. induction l as [|x l IH]; intros i; simpl; [done|]. case_match; [done|apply IH]. Qed.

Lemma core_upd_task w i g g' :
  (∀ t, core_tcb (g t) = g' (core_tcb t)) → core (upd_task i g w) = upd_task i g' (core w).
Proof.
  intros H. destruct w as [[ts] ss ms].
  lazy beta iota delta [core upd_task upd field_w_sched field_w_sems field_w_mutexes field_s_tasks
    field_s_ready_head field_s_ready_tail w_sched w_sems w_mutexes s_tasks].
  rewrite (fmap_alter_at core_tcb g g' ts i H). reflexivity.
Qed.

Lemma upd_task_id w i : upd_task i (λ t, t) w = w.
Proof.
  destruct w as [[] ss ms]. unfold upd_task. cbv [upd field_w_sched field_s_tasks]. simpl.
  by rewrite alter_at_id.
Qed.

Lemma core_set_next w i v : core (upd_task i (λ t, t <| t_next := v |>) w) = core w.
Proof. rewrite (core_upd_task _ _ _ (λ t, t)); [apply upd_task_id|done]. Qed.

Lemma fmap_alter_same {A B} (f : A → B) g (m : gmap Z A) a :
  (∀ x, f (g x) = f x) → f <$> alter g a m = f <$> m.
Proof.
  intros H. apply map_eq. intros i. rewrite !lookup_fmap.
  destruct (decide (a = i)) as [<-|Hne].
  - rewrite lookup_alter_eq. destruct (m !! a); simpl; [by rewrite H|done].
  - by rewrite lookup_alter_ne.
Qed.

Lemma core_put_head w id v : core (put_head id v w) = core w.
Proof.
  destruct id as [p|a|a], w as [s ss ms]; unfold core; simpl; [done|..];
    cbv [upd field_w_sems field_w_mutexes field_w_sched]; simpl; f_equal; by apply fmap_alter_same.
Qed.

Lemma core_put_tail w id v : core (put_tail id v w) = core w.
Proof.
  destruct id as [p|a|a], w as [s ss ms]; unfold core; simpl; [done|..];
    cbv [upd field_w_sems field_w_mutexes field_w_sched]; simpl; f_equal; by apply fmap_alter_same.
Qed.

Lemma core_T w i : in_range (s_tasks (w_sched w)) i → T (core w) i = core_tcb (T w i).
Proof.
  intros H. unfold T. simpl. unfold at_. rewrite idx_fmap.
  apply (idx_at Tcb_empty) in H as ->. done.
Qed.

Lemma core_length w w' :
  core w' = core w → length (s_tasks (w_sched w')) = length (s_tasks (w_sched w)).
Proof.
  intros H. assert (length (s_tasks (w_sched (core w'))) = length (s_tasks (w_sched (core w)))) as H'
    by (by rewrite H).
  simpl in H'. by rewrite !length_fmap in H'.
Qed.

(** Every field but the link, for use as [core_field t_priority w w' i eq_refl]. *)
Lemma core_field {A} (f : Tcb → A) w w' i :
  (∀ t, f (core_tcb t) = f t) → core w' = core w → f (T w' i) = f (T w i).
Proof.
  intros Hf H. unfold T, at_.
  assert (idx (s_tasks (w_sched (core w'))) i = idx (s_tasks (w_sched (core w))) i) as Hi
    by (by rewrite H).
  simpl in Hi. rewrite !idx_fmap in Hi.
  destruct (idx (s_tasks (w_sched w')) i) as [t'|], (idx (s_tasks (w_sched w)) i) as [t|];
    simpl in *; try done.
  apply (inj Some) in Hi. by rewrite <-(Hf t'), <-(Hf t), Hi.
Qed.

(** Every scheduler field but the links and the task array. *)
Lemma core_sched {A} (f : Sched → A) w w' :
  (∀ s, f (w_sched (core (mkWorld s ∅ ∅))) = f s) → core w' = core w →
  f (w_sched w') = f (w_sched w).
Proof.
  intros Hf H. rewrite <-(Hf (w_sched w')), <-(Hf (w_sched w)).
  assert (w_sched (core w') = w_sched (core w)) as Hs by (by rewrite H).
  f_equal. exact Hs.
Qed.

Lemma core_sems w w' a :
  core w' = core w → core_sem <$> w_sems w' !! a = core_sem <$> w_sems w !! a.
Proof.
  intros H. rewrite <-!lookup_fmap.
  assert (w_sems (core w') = w_sems (core w)) as Hs by (by rewrite H).
  simpl in Hs. by rewrite Hs.
Qed.

Lemma core_mutexes w w' a :
  core w' = core w → core_mtx <$> w_mutexes w' !! a = core_mtx <$> w_mutexes w !! a.
Proof.
  intros H. rewrite <-!lookup_fmap.
  assert (w_mutexes (core w') = w_mutexes (core w)) as Hs by (by rewrite H).
  simpl in Hs. by rewrite Hs.
Qed.

Lemma core_valid w w' id : core w' = core w → valid w' id ↔ valid w id.
Proof.
  intros H. destruct id as [p|a|a]; simpl; [done|..].
  - pose proof (core_sems w w' a H) as E.
    rewrite <-(fmap_is_Some core_sem), E, fmap_is_Some. done.
  - pose proof (core_mutexes w w' a H) as E.
    rewrite <-(fmap_is_Some core_mtx), E, fmap_is_Some. done.
Qed.

(** ** The four link surgeries *)

Definition link (x v : Z) (w : World) : World := upd_task x (λ t, t <| t_next := v |>) w.

Lemma nx_link w x v i : shape w → slot_in x → nx (link x v w) i = if decide (x = i) then v else nx w i.
Proof. intros Hs Hx. unfold nx, link. rewrite T_upd_task by done. by case_decide. Qed.

Lemma hd_link w x v id : hd_of (link x v w) id = hd_of w id.
Proof. by destruct id. Qed.

Lemma tl_link w x v id : tl_of (link x v w) id = tl_of w id.
Proof. by destruct id. Qed.

Lemma valid_link w x v id : valid (link x v w) id ↔ valid w id.
Proof. by destruct id. Qed.

Lemma nx_put_head w id v i : nx (put_head id v w) i = nx w i.
Proof. by destruct id. Qed.

Lemma nx_put_tail w id v i : nx (put_tail id v w) i = nx w i.
Proof. by destruct id. Qed.

Lemma hd_put_head w id v id' :
  shape w → valid w id → hd_of (put_head id v w) id' = if decide (id = id') then v else hd_of w id'.
Proof.
  intros Hs Hv. destruct id as [p|a|a], id' as [p'|a'|a']; simpl in *; try done.
  - rewrite at_alter; [|unfold in_range; destruct Hs; unfold PRIORITY_LEVELS in *; lia].
    repeat case_decide; congruence.
  - rewrite lookup_alter. destruct Hv as [st Hst].
    repeat case_decide; try congruence; subst; by rewrite Hst.
  - rewrite lookup_alter. destruct Hv as [st Hst].
    repeat case_decide; try congruence; subst; by rewrite Hst.
Qed.

Lemma tl_put_tail w id v id' :
  shape w → valid w id → tl_of (put_tail id v w) id' = if decide (id = id') then v else tl_of w id'.
Proof.
  intros Hs Hv. destruct id as [p|a|a], id' as [p'|a'|a']; simpl in *; try done.
  - rewrite at_alter; [|unfold in_range; destruct Hs; unfold PRIORITY_LEVELS in *; lia].
    repeat case_decide; congruence.
  - rewrite lookup_alter. destruct Hv as [st Hst].
    repeat case_decide; try congruence; subst; by rewrite Hst.
  - rewrite lookup_alter. destruct Hv as [st Hst].
    repeat case_decide; try congruence; subst; by rewrite Hst.
Qed.

Lemma tl_put_head w id v id' : tl_of (put_head id v w) id' = tl_of w id'.
Proof.
  destruct id as [p|a|a], id' as [p'|a'|a']; simpl; try done;
    rewrite lookup_alter; case_decide; [|done| |done]; subst.
  - by destruct (w_sems w !! a').
  - by destruct (w_mutexes w !! a').
Qed.

Lemma hd_put_tail w id v id' : hd_of (put_tail id v w) id' = hd_of w id'.
Proof.
  destruct id as [p|a|a], id' as [p'|a'|a']; simpl; try done;
    rewrite lookup_alter; case_decide; [|done| |done]; subst.
  - by destruct (w_sems w !! a').
  - by destruct (w_mutexes w !! a').
Qed.

Lemma valid_put_head w id v id' : valid (put_head id v w) id' ↔ valid w id'.
Proof. symmetry. apply core_valid. by rewrite core_put_head. Qed.

Lemma valid_put_tail w id v id' : valid (put_tail id v w) id' ↔ valid w id'.
Proof. symmetry. apply core_valid. by rewrite core_put_tail. Qed.

Lemma core_link w x v : core (link x v w) = core w.
Proof. apply core_set_next. Qed.

#[export] Hint Extern 1 (shape (link _ _ _)) => apply shape_upd_task : store.
#[export] Hint Extern 1 (valid (link _ _ _) _) => apply valid_link : store.
#[export] Hint Extern 1 (valid (put_head _ _ _) _) => apply valid_put_head : store.
#[export] Hint Extern 1 (valid (put_tail _ _ _) _) => apply valid_put_tail : store.

(** Computes the readers of a store built by the surgeries. *)
Ltac readers :=
  repeat first
    [ rewrite hd_link | rewrite tl_link
    | rewrite nx_put_head | rewrite nx_put_tail
    | rewrite hd_put_tail | rewrite tl_put_head
    | rewrite nx_link by (eauto 8 with store)
    | rewrite hd_put_head by (eauto 8 with store)
    | rewrite tl_put_tail by (eauto 8 with store) ];
  repeat first [rewrite decide_True by done | rewrite decide_False by congruence].

Ltac valids :=
  intros ?; repeat first [rewrite valid_put_head | rewrite valid_put_tail | rewrite valid_link];
  done.

(** Adding [i] behind the tail. *)
Lemma queues_append w q id i :
  queues w q → valid w id → slot_in i → detached q i →
  let w1 := link i NIL w in
  queues (put_tail id i (if tl_of w id =? NIL then put_head id i w1 else link (tl_of w id) i w1))
    (qset id (q id ++ [i]) q).
Proof.
  intros Hq Hv Hi Hd w1. subst w1. pose proof (queues_shape w q Hq) as Hs.
  pose proof (queues_seg w q Hq id Hv) as Hseg. pose proof (queues_tail w q Hq id Hv) as Htl.
  assert (NoDup (q id ++ [i])) as Hnd.
  { apply NoDup_app. split; [by eapply queues_nodup|]. split; [|apply NoDup_singleton].
    intros x Hx ->%list_elem_of_singleton. by apply (Hd id). }
  assert (∀ x, x ∈ q id ++ [i] → slot_in x) as Hin.
  { intros x [Hx|Hx%list_elem_of_singleton]%elem_of_app; [by eapply queues_slot|by subst]. }
  assert (∀ id' x, id' ≠ id → x ∈ q id ++ [i] → x ∉ q id') as Hdis.
  { intros id' x Hne [Hx|Hx%list_elem_of_singleton]%elem_of_app Hx'; [|subst; by apply (Hd id')].
    apply Hne. by eapply queues_disjoint. }
  destruct (last_snoc_or_nil (q id)) as [E|(l0 & p & E)].
  - rewrite E in Htl. simpl in Htl. rewrite Htl. simpl.
    apply (queues_update w); try done; [eauto 8 with store|valids|..].
    + intros id' Hne. readers. done.
    + intros id' x Hne Hx. readers. case_decide; [|done]. subst. by destruct (Hd id').
    + readers. rewrite E. simpl. split; [done|]. by readers.
    + readers. by rewrite last_snoc.
  - rewrite E, last_snoc in Htl. simpl in Htl. rewrite Htl.
    assert (slot_in p) as Hp by (eapply (queues_slot w q Hq id); rewrite E; set_solver).
    pose proof (slot_in_not_NIL p Hp) as HpN. apply Z.eqb_neq in HpN. rewrite HpN.
    assert (i ≠ p) as Hip by (intros ->; apply (Hd id); rewrite E; set_solver).
    apply (queues_update w); try done; [eauto 8 with store|valids|..].
    + intros id' Hne. readers. done.
    + intros id' x Hne Hx. readers.
      case_decide; [subst; exfalso; apply Hne; eapply (queues_disjoint w q Hq); [done|];
        rewrite E; set_solver|].
      case_decide; [|done]. subst. by destruct (Hd id').
    + readers. rewrite E in Hseg |- *. apply seg_app. exists i. split.
      * eapply seg_redirect; [| |exact Hseg].
        -- intros x Hx. readers. rewrite decide_False.
           2:{ intros ->. rewrite E in Hnd. apply NoDup_app in Hnd as (Hnd & _).
               apply NoDup_app in Hnd as (_ & Hn & _). by apply (Hn x), list_elem_of_singleton. }
           rewrite decide_False; [done|]. intros ->. apply (Hd id). rewrite E. set_solver.
        -- readers. done.
      * simpl. split; [done|]. readers. done.
    + readers. by rewrite last_snoc.
Qed.

(** Removing the head. *)
Lemma queues_pop w q id x l :
  queues w q → valid w id → q id = x :: l →
  let w1 := put_head id (nx w x) w in
  queues (link x NIL (if nx w x =? NIL then put_tail id NIL w1 else w1)) (qset id l q).
Proof.
  intros Hq Hv E w1. subst w1. pose proof (queues_shape w q Hq) as Hs.
  pose proof (queues_seg w q Hq id Hv) as Hseg. pose proof (queues_tail w q Hq id Hv) as Htl.
  pose proof (queues_nodup w q Hq id) as Hnd.
  pose proof (queues_next_in w q id [] x l Hq Hv E) as Hnx.
  assert (slot_in x) as Hx by (eapply (queues_slot w q Hq id); rewrite E; set_solver).
  rewrite E in Hseg, Htl, Hnd. destruct Hseg as [_ Hseg]. apply NoDup_cons in Hnd as [Hxl Hnd].
  assert (∀ id' i, id' ≠ id → i ∈ l → i ∉ q id') as Hdis.
  { intros id' i Hne Hi Hi'. apply Hne. eapply (queues_disjoint w q Hq); [done|].
    rewrite E. set_solver. }
  assert (∀ i, i ∈ l → slot_in i) as Hin.
  { intros i Hi. eapply (queues_slot w q Hq id). rewrite E. set_solver. }
  assert (∀ id' i, id' ≠ id → i ∈ q id' → x ≠ i) as Hxo.
  { intros id' i Hne Hi ->. apply Hne. eapply (queues_disjoint w q Hq); [done|].
    rewrite E. set_solver. }
  destruct l as [|y l]; simpl in Hnx; rewrite Hnx.
  - rewrite Z.eqb_refl. apply (queues_update w); try done; [eauto 8 with store|valids|..].
    + intros id' Hne. readers. done.
    + intros id' i Hne Hi. readers. rewrite decide_False by (by eapply Hxo). done.
    + readers. done.
    + readers. done.
  - assert (y ≠ NIL) as Hy by (apply slot_in_not_NIL, Hin; set_solver).
    apply Z.eqb_neq in Hy. rewrite Hy.
    apply (queues_update w); try done; [eauto 8 with store|valids|..].
    + intros id' Hne. readers. done.
    + intros id' i Hne Hi. readers. rewrite decide_False by (by eapply Hxo). done.
    + rewrite hd_link. readers. rewrite Hnx in Hseg. eapply seg_ext; [|exact Hseg].
      intros i Hi. by readers.
    + readers. rewrite Htl. by rewrite last_cons_cons.
Qed.

(** Unlinking a task from the middle; [prev] is the task before it. *)
Lemma queues_unlink w q id l1 x l2 :
  queues w q → valid w id → q id = l1 ++ x :: l2 →
  let prev := default NIL (last l1) in
  let w1 := if prev =? NIL then put_head id (nx w x) w else link prev (nx w x) w in
  let w2 := if tl_of w id =? x then put_tail id prev w1 else w1 in
  queues (link x NIL w2) (qset id (l1 ++ l2) q).
Proof.
  intros Hq Hv E prev w1 w2. subst w1 w2. pose proof (queues_shape w q Hq) as Hs.
  pose proof (queues_seg w q Hq id Hv) as Hseg. pose proof (queues_tail w q Hq id Hv) as Htl.
  pose proof (queues_nodup w q Hq id) as Hnd. rewrite E in Hseg, Htl, Hnd.
  pose proof (queues_next_in w q id l1 x l2 Hq Hv E) as Hnx.
  assert (∀ i, i ∈ l1 ++ x :: l2 → slot_in i) as Hin0.
  { intros i Hi. eapply (queues_slot w q Hq id). by rewrite E. }
  assert (slot_in x) as Hx by (apply Hin0; set_solver).
  assert (NoDup (l1 ++ l2) ∧ x ∉ l1 ++ l2) as [Hnd' Hxn].
  { revert Hnd. rewrite <-Permutation_middle. by intros [? ?]%NoDup_cons. }
  assert (∀ id' i, id' ≠ id → i ∈ l1 ++ x :: l2 → i ∉ q id') as Hdis.
  { intros id' i Hne Hi Hi'. apply Hne. eapply (queues_disjoint w q Hq); [done|]. by rewrite E. }
  assert (tl_of w id = x ↔ l2 = []) as Htlx.
  { rewrite Htl, last_app_cons. destruct (last_snoc_or_nil l2) as [->|(l0 & p & ->)]; [done|].
    change (x :: l0 ++ [p]) with ([x] ++ l0 ++ [p]). rewrite !last_app, last_singleton. simpl.
    split; [intros ->; set_solver|]. intros ?%app_eq_nil. naive_solver. }
  apply seg_app in Hseg as (m & Hseg1 & -> & Hseg2).
  assert (∀ w3, shape w3 → (∀ id, valid w3 id ↔ valid w id) →
    (∀ i, i ∉ l1 → nx w3 i = nx w i) → hd_of w3 id = hd_of w3 id →
    (∀ id', id' ≠ id → hd_of w3 id' = hd_of w id' ∧ tl_of w3 id' = tl_of w id') →
    seg (nx w3) (hd_of w3 id) l1 (nx w x) → tl_of w3 id = tl_of w id →
    queues (link x NIL (if tl_of w id =? x then put_tail id prev w3 else w3))
      (qset id (l1 ++ l2) q)) as Hgen.
  { intros w3 Hs3 Hval Hnx3 _ Hends Hseg3 Htl3.
    assert (valid w3 id) as Hv3 by (by apply Hval).
    assert (seg (nx w3) (hd_of w3 id) (l1 ++ l2) NIL) as Hseg'.
    { apply seg_app. exists (nx w x). split; [done|]. eapply seg_ext; [|exact Hseg2].
      intros i Hi. symmetry. apply Hnx3. intros Hi1. apply NoDup_app in Hnd' as (_ & Hn & _).
      by apply (Hn i). }
    assert (∀ w4, nx w4 = nx w3 → shape w4 → ∀ i, i ∈ l1 ++ l2 → nx (link x NIL w4) i = nx w3 i) as Hx4.
    { intros w4 Hn Hs4 i Hi. rewrite nx_link, Hn, decide_False by (done || by intros ->). done. }
    assert (∀ id' i, id' ≠ id → i ∈ q id' → x ≠ i ∧ i ∉ l1) as Hout.
    { intros id' i Hne Hi. split; [intros <-|intros Hi1];
        (eapply (Hdis id'); [done| |done]); set_solver. }
    destruct (Z.eqb_spec (tl_of w id) x) as [Ht|Ht];
      (apply (queues_update w); try done; [eauto 8 with store|..]).
    - intros id'. rewrite valid_link, valid_put_tail. apply Hval.
    - intros id' Hne. readers. by apply Hends.
    - intros id' i Hne Hi. destruct (Hout id' i Hne Hi). readers. by apply Hnx3.
    - readers. eapply seg_ext; [|exact Hseg']. intros i Hi. symmetry.
      rewrite nx_link by eauto with store. rewrite decide_False by (by intros ->). readers. done.
    - readers. apply Htlx in Ht as ->. by rewrite app_nil_r.
    - intros i Hi. apply Hin0. set_solver.
    - intros id' i Hne Hi. apply (Hdis id'); [done|]. set_solver.
    - intros id' i Hne Hi. destruct (Hout id' i Hne Hi). readers. by apply Hnx3.
    - readers. eapply seg_ext; [|exact Hseg']. intros i Hi. symmetry. by apply Hx4.
    - readers. rewrite Htl3, Htl, !last_app. destruct l2 as [|y l2']; [|by rewrite last_cons_cons].
      exfalso. apply Ht. by apply Htlx.
    - intros i Hi. apply Hin0. set_solver.
    - intros id' i Hne Hi. apply (Hdis id'); [done|]. set_solver. }
  destruct (last_snoc_or_nil l1) as [El|(l0 & p & El)].
  - subst prev. rewrite El. simpl. rewrite El in Hgen. simpl in Hgen.
    apply Hgen; [eauto with store|valids|..]; try done.
    + intros i _. by readers.
    + intros id' Hne. by readers.
    + by readers.
    + by readers.
  - subst prev. rewrite El, last_snoc. rewrite El, last_snoc in Hgen. simpl in Hgen |- *.
    assert (slot_in p) as Hp by (apply Hin0; rewrite El; set_solver).
    pose proof (slot_in_not_NIL p Hp) as HpN. apply Z.eqb_neq in HpN. rewrite HpN.
    apply Hgen; [eauto with store|valids|..]; try done.
    + intros i Hi. readers. rewrite decide_False; [done|]. intros ->. apply Hi. set_solver.
    + rewrite hd_link. rewrite El in Hseg1. eapply seg_redirect; [| |exact Hseg1].
      * intros i Hi. readers. rewrite decide_False; [done|]. intros ->.
        rewrite El in Hnd'. apply NoDup_app in Hnd' as (Hnd0 & _).
        apply NoDup_app in Hnd0 as (_ & Hn & _). by apply (Hn i), list_elem_of_singleton.
      * by readers.
Qed.

(** Linking a detached task between [l1] and [l2]. *)
Lemma queues_insert w q id l1 x l2 :
  queues w q → valid w id → slot_in x → detached q x → q id = l1 ++ l2 →
  let prev := default NIL (last l1) in
  let cur := default NIL (head l2) in
  let w1 := link x cur w in
  let w2 := if prev =? NIL then put_head id x w1 else link prev x w1 in
  queues (if cur =? NIL then put_tail id x w2 else w2) (qset id (l1 ++ x :: l2) q).
Proof.
  intros Hq Hv Hx Hd E prev cur w1 w2. subst w1 w2. pose proof (queues_shape w q Hq) as Hs.
  pose proof (queues_seg w q Hq id Hv) as Hseg. pose proof (queues_tail w q Hq id Hv) as Htl.
  pose proof (queues_nodup w q Hq id) as Hnd. rewrite E in Hseg, Htl, Hnd.
  assert (∀ i, i ∈ l1 ++ l2 → slot_in i ∧ i ≠ x) as Hin0.
  { intros i Hi. split; [eapply (queues_slot w q Hq id); by rewrite E|].
    intros ->. apply (Hd id). by rewrite E. }
  assert (NoDup (l1 ++ x :: l2)) as Hnd'.
  { rewrite <-Permutation_middle. apply NoDup_cons. split; [|done]. rewrite <-E. apply Hd. }
  assert (∀ i, i ∈ l1 ++ x :: l2 → slot_in i) as Hin.
  { intros i Hi. destruct (decide (i = x)) as [->|]; [done|]. apply Hin0. set_solver. }
  assert (∀ id' i, id' ≠ id → i ∈ l1 ++ x :: l2 → i ∉ q id') as Hdis.
  { intros id' i Hne Hi Hi'. destruct (decide (i = x)) as [->|]; [by apply (Hd id')|].
    apply Hne. eapply (queues_disjoint w q Hq); [done|]. rewrite E. set_solver. }
  assert (cur = NIL ↔ l2 = []) as Hcur.
  { subst cur. destruct l2 as [|y l2]; simpl; [done|]. split; [|done]. intros ->.
    destruct (Hin0 NIL) as [Hn _]; [set_solver|]. by apply slot_in_not_NIL in Hn. }
  apply seg_app in Hseg as (m & Hseg1 & Hseg2).
  assert (m = cur) as -> by (subst cur; destruct l2; simpl in Hseg2 |- *; tauto).
  assert (∀ w3, shape w3 → (∀ id, valid w3 id ↔ valid w id) →
    (∀ i, i ∉ l1 → nx w3 i = nx (link x cur w) i) →
    (∀ id', id' ≠ id → hd_of w3 id' = hd_of w id' ∧ tl_of w3 id' = tl_of w id') →
    seg (nx w3) (hd_of w3 id) l1 x → tl_of w3 id = tl_of w id →
    queues (if cur =? NIL then put_tail id x w3 else w3) (qset id (l1 ++ x :: l2) q)) as Hgen.
  { intros w3 Hs3 Hval Hnx3 Hends Hseg3 Htl3.
    assert (valid w3 id) as Hv3 by (by apply Hval).
    pose proof Hnd' as Hnd2. apply NoDup_app in Hnd2 as (_ & Hn12 & Hnd2).
    apply NoDup_cons in Hnd2 as [Hxl2 _].
    assert (seg (nx w3) (hd_of w3 id) (l1 ++ x :: l2) NIL) as Hseg'.
    { apply seg_app. exists x. split; [done|]. split; [done|].
      rewrite Hnx3 by (intros Hi; apply (Hn12 x Hi); set_solver).
      rewrite nx_link, decide_True by done. eapply seg_ext; [|exact Hseg2].
      intros i Hi. symmetry. rewrite Hnx3 by (intros Hi'; apply (Hn12 i Hi'); set_solver).
      rewrite nx_link, decide_False by (done || by intros ->). done. }
    assert (∀ id' i, id' ≠ id → i ∈ q id' → nx w3 i = nx w i) as Hout.
    { intros id' i Hne Hi. rewrite Hnx3.
      - rewrite nx_link, decide_False by (done || (intros ->; by apply (Hd id'))). done.
      - intros Hi1. eapply (Hdis id'); [done| |done]. set_solver. }
    destruct (Z.eqb_spec cur NIL) as [Hc|Hc];
      (apply (queues_update w); try done; [eauto 8 with store|..]).
    - intros id'. rewrite valid_put_tail. apply Hval.
    - intros id' Hne. readers. by apply Hends.
    - intros id' i Hne Hi. rewrite nx_put_tail. by eapply Hout.
    - rewrite hd_put_tail. eapply seg_ext; [|exact Hseg']. intros i Hi. by rewrite nx_put_tail.
    - readers. apply Hcur in Hc as ->. by rewrite last_snoc.
    - rewrite Htl3, Htl, !last_app. destruct l2 as [|y l2']; [by destruct Hc; apply Hcur|].
      by rewrite last_cons_cons. }
  destruct (last_snoc_or_nil l1) as [El|(l0 & p & El)].
  - subst prev. rewrite El. simpl. rewrite El in Hgen. apply Hgen; [eauto 8 with store|valids|..].
    + intros i _. by readers.
    + intros id' Hne. by readers.
    + by readers.
    + by readers.
  - subst prev. rewrite El, last_snoc. rewrite El in Hgen. simpl in Hgen |- *.
    assert (slot_in p ∧ p ≠ x) as [Hp Hpx] by (apply Hin0; rewrite El; set_solver).
    pose proof (slot_in_not_NIL p Hp) as HpN. apply Z.eqb_neq in HpN. rewrite HpN.
    apply Hgen; [eauto 8 with store|valids|..].
    + intros i Hi. rewrite nx_link by eauto with store.
      rewrite decide_False; [done|]. intros ->. apply Hi. set_solver.
    + intros id' Hne. by readers.
    + rewrite !hd_link. rewrite El in Hseg1. eapply seg_redirect; [| |exact Hseg1].
      * intros i Hi. destruct (Hin0 i) as [_ Hix]; [rewrite El; set_solver|].
        rewrite !nx_link by eauto with store.
        rewrite (decide_False (P := x = i)) by congruence. rewrite decide_False; [done|]. intros ->.
        rewrite El in Hnd. apply NoDup_app in Hnd as (Hnd0 & _).
        apply NoDup_app in Hnd0 as (_ & Hn & _). by apply (Hn i), list_elem_of_singleton.
      * by readers.
    + by readers.
Qed.

(** *** The source's surgery code *)

(** The body that unlinks [x] once the walk has found it behind [previous]. *)
Lemma wp_unlink w q id l1 x l2 (Q : unit → World → Prop) :
  queues w q → valid w id → q id = l1 ++ x :: l2 →
  (∀ w', queues w' (qset id (l1 ++ l2) q) → core w' = core w → Q tt w') →
  wp (next ← tget t_next x;
      (if default NIL (last l1) =? NIL then set_head id next
       else set_next (default NIL (last l1)) next) ;;
      tail ← get_tail id;
      when (tail =? x) (set_tail id (default NIL (last l1))) ;;
      set_next x NIL) Q w.
Proof.
  intros Hq Hv E HQ. pose proof (queues_shape w q Hq) as Hs.
  assert (slot_in x) as Hx by (eapply (queues_slot w q Hq id); rewrite E; set_solver).
  pose proof (queues_unlink w q id l1 x l2 Hq Hv E) as Hfin. cbv zeta in Hfin.
  set (prev := default NIL (last l1)) in *.
  assert (prev ≠ NIL → slot_in prev) as Hprev.
  { subst prev. destruct (last_snoc_or_nil l1) as [->|(l0 & y & ->)]; [done|]. rewrite last_snoc.
    intros _. eapply (queues_slot w q Hq id). rewrite E. set_solver. }
  assert (tl_of w id = tl_of (if prev =? NIL then put_head id (nx w x) w
    else link prev (nx w x) w) id) as Htl by (destruct (prev =? NIL); readers; reflexivity).
  go. fold (nx w x). destruct (Z.eqb_spec prev NIL) as [Ep|Ep].
  - go. rewrite <-Htl. apply wp_when; intros Ht; rewrite Ht in Hfin; go;
      (apply HQ; [exact Hfin|]); rewrite core_set_next, ?core_put_tail; apply core_put_head.
  - specialize (Hprev Ep). unfold set_next. go.
    change (upd_task prev _ w) with (link prev (nx w x) w). rewrite <-Htl.
    apply wp_when; intros Ht; rewrite Ht in Hfin; go;
      (apply HQ; [exact Hfin|]); rewrite core_set_next, ?core_put_tail; apply core_link.
Qed.

(** The body that detaches the head [x]. *)
Lemma wp_unlink_head w q id x l (Q : unit → World → Prop) :
  queues w q → valid w id → q id = x :: l →
  (∀ w', queues w' (qset id l q) → core w' = core w → Q tt w') →
  wp (next ← tget t_next x;
      set_head id next ;;
      head ← get_head id;
      when (head =? NIL) (set_tail id NIL) ;;
      set_next x NIL) Q w.
Proof.
  intros Hq Hv E HQ. pose proof (queues_shape w q Hq) as Hs.
  assert (slot_in x) as Hx by (eapply (queues_slot w q Hq id); rewrite E; set_solver).
  pose proof (queues_pop w q id x l Hq Hv E) as Hfin. cbv zeta in Hfin.
  go. fold (nx w x). rewrite hd_put_head, decide_True by done.
  apply wp_when; intros Hc; rewrite Hc in Hfin; go; (apply HQ; [exact Hfin|]);
    rewrite core_set_next, ?core_put_tail; by rewrite core_put_head.
Qed.

(** Distinct slots are at most seventeen. *)
Lemma slots_length l : NoDup l → (∀ i, i ∈ l → slot_in i) → (length l <= 17)%nat.
Proof.
  intros Hnd Hl. assert (l ⊆+ range 0 17) as Hsub%submseteq_length; [|done].
  apply NoDup_submseteq; [done|]. intros i Hi. apply elem_of_range. specialize (Hl i Hi).
  unfold slot_in in Hl. by rewrite slot_count_value in Hl.
Qed.

(** A queue holds at most one link per slot. *)
Lemma queue_length w q id : queues w q → (length (q id) <= 17)%nat.
Proof.
  intros Hq. apply slots_length; [by eapply queues_nodup|]. intros i. by eapply (queues_slot w).
Qed.

Lemma queues_tail_slot w q id :
  queues w q → valid w id → tl_of w id ≠ NIL → slot_in (tl_of w id).
Proof.
  intros Hq Hv. rewrite (queues_tail w q Hq id Hv).
  destruct (last_snoc_or_nil (q id)) as [El|(l0 & x & El)]; rewrite El; [done|].
  rewrite last_snoc. intros _. eapply (queues_slot w q Hq id). rewrite El. set_solver.
Qed.

(** Creating an object adds its empty queue. *)
Lemma queues_new_sem w q a n :
  queues w q → w_sems w !! a = None →
  queues (w <| w_sems ::= <[ a := SemState_new n ]> |>) q.
Proof.
  intros Hq Ha. assert (q (QSem a) = []) as Hqa.
  { destruct (q (QSem a)) as [|x l] eqn:E; [done|].
    destruct (queues_valid w q Hq (QSem a) x) as [st Hst]; [rewrite E; left|]. congruence. }
  pose proof Hq as [H1 H2 H3 H4 H5 H6 H7]. split; [by apply (shape_ext w)|..|done|done|done].
  - intros [p|b|b] Hv; [by apply (H2 (QReady p))| |by apply (H2 (QMtx b))].
    specialize (H2 (QSem b)). unfold hd_of in *. simpl in *. destruct (decide (a = b)) as [<-|Hne].
    + by rewrite Hqa, lookup_insert_eq.
    + rewrite lookup_insert_ne in Hv |- * by done. auto.
  - intros [p|b|b] Hv; [by apply (H3 (QReady p))| |by apply (H3 (QMtx b))].
    specialize (H3 (QSem b)). unfold tl_of in *. simpl in *. destruct (decide (a = b)) as [<-|Hne].
    + by rewrite Hqa, lookup_insert_eq.
    + rewrite lookup_insert_ne in Hv |- * by done. auto.
  - intros [p|b|b] i Hi; [by apply (H4 (QReady p) i)| |by apply (H4 (QMtx b) i)].
    simpl. apply lookup_insert_is_Some'. right. by apply (H4 (QSem b) i).
Qed.

Lemma queues_new_mutex w q a :
  queues w q → w_mutexes w !! a = None →
  queues (w <| w_mutexes ::= <[ a := MutexState_new ]> |>) q.
Proof.
  intros Hq Ha. assert (q (QMtx a) = []) as Hqa.
  { destruct (q (QMtx a)) as [|x l] eqn:E; [done|].
    destruct (queues_valid w q Hq (QMtx a) x) as [st Hst]; [rewrite E; left|]. congruence. }
  pose proof Hq as [H1 H2 H3 H4 H5 H6 H7]. split; [by apply (shape_ext w)|..|done|done|done].
  - intros [p|b|b] Hv; [by apply (H2 (QReady p))|by apply (H2 (QSem b))|].
    specialize (H2 (QMtx b)). unfold hd_of in *. simpl in *. destruct (decide (a = b)) as [<-|Hne].
    + by rewrite Hqa, lookup_insert_eq.
    + rewrite lookup_insert_ne in Hv |- * by done. auto.
  - intros [p|b|b] Hv; [by apply (H3 (QReady p))|by apply (H3 (QSem b))|].
    specialize (H3 (QMtx b)). unfold tl_of in *. simpl in *. destruct (decide (a = b)) as [<-|Hne].
    + by rewrite Hqa, lookup_insert_eq.
    + rewrite lookup_insert_ne in Hv |- * by done. auto.
  - intros [p|b|b] i Hi; [by apply (H4 (QReady p) i)|by apply (H4 (QSem b) i)|].
    simpl. apply lookup_insert_is_Some'. right. by apply (H4 (QMtx b) i).
Qed.

Definition no_queues : Queues := λ _, [].

Lemma World_new_queues n : queues (World_new n) no_queues.
Proof.
  split; try done; try set_solver.
  - intros [p|a|a] Hv; simpl in *.
    + unfold at_. rewrite (idx_replicate 32 NIL). by case_match.
    + rewrite lookup_empty in Hv. by destruct Hv.
    + rewrite lookup_empty in Hv. by destruct Hv.
  - intros [p|a|a] Hv; simpl in *; [|done..].
    unfold at_. rewrite (idx_replicate 32 NIL). by case_match.
  - intros id. constructor.
Qed.

#[global] Arguments hd_of _ _ : simpl never.
#[global] Arguments tl_of _ _ : simpl never.
#[global] Arguments nx _ _ : simpl never.
#[global] Arguments T _ _ : simpl never.
#[global] Arguments get_head _ : simpl never.
#[global] Arguments get_tail _ : simpl never.
#[global] Arguments put_head _ _ _ : simpl never.
#[global] Arguments put_tail _ _ _ : simpl never.
#[global] Arguments upd_task _ _ _ : simpl never.
