(* ===== verification/Ready.v ===== *)
(** * The ready queues ([src/runtime/scheduler.rs])

    One intrusive FIFO per priority. The operations below are the source's; the
    theorems show that together they are a stable priority queue: a pop takes the
    task of the numerically smallest priority that has waited longest, and no
    operation ever loses, duplicates or reorders another task. *)

From S2P Require Import Prelude Effects Budget Contract Config Context Reservation Tcb Store Chain.

Definition ready_priority (task : Z) : M World Z := tget t_priority task.

Definition ready_push (i : Z) : M World unit :=
  priority ← ready_priority i;
  set_next i NIL ;;
  tail ← get_tail (QReady priority);
  (if tail =? NIL then set_head (QReady priority) i
   else tail ← get_tail (QReady priority); set_next tail i) ;;
  set_tail (QReady priority) i.

Definition make_ready (task now : Z) : M World unit :=
  set_task task (λ t, t <| t_state := Ready |>) ;;
  set_task task (λ t, t <| t_metrics ::= metrics_on_ready now |>) ;;
  when (negb (task =? IDLE_SLOT)) (ready_push task).

(** [for priority in 0..PRIORITY_LEVELS] *)
Definition priorities : list Z := range 0 PRIORITY_LEVELS.

Fixpoint ready_pop_from (ps : list Z) : M World Z :=
  match ps with
  | [] => mret NIL
  | priority :: ps =>
      i ← get_head (QReady priority);
      if negb (i =? NIL) then
        next ← tget t_next i;
        set_head (QReady priority) next ;;
        head ← get_head (QReady priority);
        when (head =? NIL) (set_tail (QReady priority) NIL) ;;
        set_next i NIL ;;
        mret i
      else ready_pop_from ps
  end.
Definition ready_pop : M World Z := ready_pop_from priorities.

Definition ready_pop_or_idle : M World Z :=
  next ← ready_pop; mret (if next =? NIL then IDLE_SLOT else next).

(** The [while] loop of [ready_remove]. *)
Fixpoint ready_remove_loop (fuel : nat) (task priority previous current : Z) : M World unit :=
  match fuel with
  | O => fail Hung
  | S fuel =>
      if current =? NIL then mret tt
      else if current =? task then
        next ← tget t_next current;
        (if previous =? NIL then set_head (QReady priority) next else set_next previous next) ;;
        tail ← get_tail (QReady priority);
        when (tail =? current) (set_tail (QReady priority) previous) ;;
        set_next current NIL
      else
        next ← tget t_next current;
        ready_remove_loop fuel task priority current next
  end.

(** A queue holds at most one link per slot, so one iteration more than there are
    slots reaches its end. *)
Definition ready_remove (task : Z) : M World unit :=
  priority ← ready_priority task;
  current ← get_head (QReady priority);
  ready_remove_loop (S task_slots_nat) task priority NIL current.

(** The inner loop of [ready_contains]. *)
Fixpoint ready_scan (n : nat) (task current : Z) : M World bool :=
  match n with
  | O => mret false
  | S n =>
      if current =? NIL then mret false
      else if current =? task then mret true
      else next ← tget t_next current; ready_scan n task next
  end.

Fixpoint ready_contains_from (ps : list Z) (task : Z) : M World bool :=
  match ps with
  | [] => mret false
  | priority :: ps =>
      current ← get_head (QReady priority);
      found ← ready_scan task_slots_nat task current;
      if found : bool then mret true else ready_contains_from ps task
  end.
Definition ready_contains (task : Z) : M World bool := ready_contains_from priorities task.

(** ** Specifications over the abstract queues *)

Definition priority_ok (w : World) (i : Z) : Prop := 0 <= t_priority (T w i) < PRIORITY_LEVELS.

Lemma valid_ready w p : 0 <= p < PRIORITY_LEVELS → valid w (QReady p).
Proof. done. Qed.
#[export] Hint Resolve valid_ready : store.
#[export] Hint Extern 1 (valid _ (QReady _)) => (simpl; assumption) : store.

Lemma ready_push_spec w q i :
  queues w q → slot_in i → detached q i → priority_ok w i →
  wp (ready_push i) (λ _ w',
    queues w' (qset (QReady (t_priority (T w i))) (q (QReady (t_priority (T w i))) ++ [i]) q) ∧
    core w' = core w) w.
Proof.
  intros Hq Hi Hd Hp. unfold ready_push, ready_priority. set (p := t_priority (T w i)).
  assert (valid w (QReady p)) as Hv by done. pose proof (queues_shape w q Hq) as Hs.
  pose proof (queues_append w q (QReady p) i Hq Hv Hi Hd) as Hfin. cbv zeta in Hfin.
  go. fold p. unfold set_next. go. change (upd_task i _ w) with (link i NIL w).
  rewrite tl_link. destruct (Z.eqb_spec (tl_of w (QReady p)) NIL) as [E|E].
  - go. split; [exact Hfin|]. rewrite core_put_tail, core_put_head. apply core_set_next.
  - pose proof (queues_tail_slot w q (QReady p) Hq Hv E) as Htl.
    go. rewrite tl_link. go. split; [exact Hfin|]. rewrite core_put_tail.
    by rewrite core_set_next, core_link.
Qed.

(** [p] is the best priority with a ready task, [x] its oldest. *)
Definition highest (q : Queues) (p x : Z) (l : list Z) : Prop :=
  0 <= p < PRIORITY_LEVELS ∧ q (QReady p) = x :: l ∧
  ∀ p', 0 <= p' < p → q (QReady p') = [].
Definition no_ready (q : Queues) : Prop := ∀ p, 0 <= p < PRIORITY_LEVELS → q (QReady p) = [].

Lemma ready_pop_from_spec w q lo :
  queues w q → 0 <= lo <= PRIORITY_LEVELS → (∀ p, 0 <= p < lo → q (QReady p) = []) →
  wp (ready_pop_from (range lo PRIORITY_LEVELS)) (λ x w',
    (no_ready q ∧ x = NIL ∧ w' = w) ∨
    (∃ p l, highest q p x l ∧ slot_in x ∧ queues w' (qset (QReady p) l q) ∧ core w' = core w)) w.
Proof.
  intros Hq. remember (Z.to_nat (PRIORITY_LEVELS - lo)) as n eqn:En. revert lo En.
  induction n as [|n IH]; intros lo En Hlo Hempty.
  { unfold range. rewrite <-En. simpl. go. left. split_and!; [|done..]. intros p Hp.
    apply Hempty. lia. }
  assert (range lo PRIORITY_LEVELS = lo :: range (lo + 1) PRIORITY_LEVELS) as ->.
  { unfold range. replace (Z.to_nat (PRIORITY_LEVELS - lo)) with (S n) by lia.
    replace (Z.to_nat (PRIORITY_LEVELS - (lo + 1))) with n by lia.
    rewrite <-cons_seq, <-fmap_S_seq. simpl. f_equal; [lia|]. rewrite <-list_fmap_compose.
    apply list_fmap_ext. intros ? k _. simpl. lia. }
  assert (valid w (QReady lo)) as Hv by (simpl; lia).
  pose proof (queues_shape w q Hq) as Hs. cbn [ready_pop_from]. go.
  rewrite (queues_head w q (QReady lo)) by done.
  destruct (q (QReady lo)) as [|x l] eqn:E; simpl default.
  - rewrite Z.eqb_refl. simpl. apply IH; [lia|lia|]. intros p Hp.
    destruct (decide (p = lo)) as [->|]; [done|]. apply Hempty. lia.
  - assert (slot_in x) as Hx by (eapply (queues_slot w q Hq (QReady lo)); rewrite E; set_solver).
    pose proof (slot_in_not_NIL x Hx) as HxN. apply Z.eqb_neq in HxN. rewrite HxN. simpl.
    go. fold (nx w x). rewrite hd_put_head, decide_True by done.
    pose proof (queues_pop w q (QReady lo) x l Hq Hv E) as Hfin. cbv zeta in Hfin.
    assert (highest q lo x l) as Hh by (split_and!; [lia..|done|done]).
    apply wp_when; intros Hc; rewrite Hc in Hfin; go; right; exists lo, l;
      (split_and!; [done..|exact Hfin|]); rewrite core_set_next, ?core_put_tail; by rewrite core_put_head.
Qed.

Lemma ready_pop_spec w q :
  queues w q →
  wp ready_pop (λ x w',
    (no_ready q ∧ x = NIL ∧ w' = w) ∨
    (∃ p l, highest q p x l ∧ slot_in x ∧ queues w' (qset (QReady p) l q) ∧ core w' = core w)) w.
Proof. intros Hq. apply ready_pop_from_spec; [done|unfold PRIORITY_LEVELS; lia|lia]. Qed.

(** [l] without [x]. *)
Definition without (x : Z) (l : list Z) : list Z := filter (λ y, y ≠ x) l.

Lemma without_not_in x l : x ∉ l → without x l = l.
Proof.
  induction l as [|y l IH]; [done|]. intros Hn. unfold without. rewrite filter_cons.
  rewrite decide_True by set_solver. f_equal. apply IH. set_solver.
Qed.

Lemma without_split l1 x l2 : NoDup (l1 ++ x :: l2) → without x (l1 ++ x :: l2) = l1 ++ l2.
Proof.
  intros Hnd. pose proof Hnd as H. apply NoDup_app in H as (_ & Hn1 & H).
  apply NoDup_cons in H as [Hn2 _]. unfold without. rewrite filter_app, filter_cons.
  rewrite decide_False by (intros Hx; by apply Hx). f_equal; apply without_not_in; [|done].
  intros Hx. apply (Hn1 x Hx). set_solver.
Qed.

Lemma ready_remove_loop_spec fuel w q p task l1 l2 :
  queues w q → 0 <= p < PRIORITY_LEVELS → q (QReady p) = l1 ++ l2 → task ∉ l1 →
  (length l2 < fuel)%nat →
  wp (ready_remove_loop fuel task p (default NIL (last l1)) (default NIL (head l2)))
    (λ _ w', (task ∈ l2 → queues w' (qset (QReady p) (without task (q (QReady p))) q)) ∧
       (task ∉ l2 → w' = w) ∧ core w' = core w) w.
Proof.
  intros Hq Hp. pose proof (queues_shape w q Hq) as Hs.
  assert (valid w (QReady p)) as Hv by done.
  revert l1 l2. induction fuel as [|fuel IH]; intros l1 l2 E Hn Hf; [lia|].
  cbn [ready_remove_loop]. destruct l2 as [|x l2]; cbn [head default].
  { rewrite Z.eqb_refl. go. set_solver. }
  assert (slot_in x) as Hx by (eapply (queues_slot w q Hq (QReady p)); rewrite E; set_solver).
  pose proof (slot_in_not_NIL x Hx) as HxN. apply Z.eqb_neq in HxN. cbn. rewrite HxN.
  pose proof (queues_nodup w q Hq (QReady p)) as Hnd. rewrite E in Hnd.
  destruct (Z.eqb_spec x task) as [->|Hne].
  - eapply wp_unlink; [done..|]. intros w' Hq' Hc. rewrite E, without_split by done.
    split_and!; [done|set_solver|done].
  - go. fold (nx w x). rewrite (queues_next_in w q (QReady p) l1 x l2) by done.
    specialize (IH (l1 ++ [x]) l2). rewrite last_snoc in IH.
    wp_apply IH.
    + intros _ w' (H1 & H2 & H3). split_and!; [|intros Hn2; apply H2; set_solver|done].
      intros Ht. apply H1. set_solver.
    + by rewrite <-app_assoc.
    + set_solver.
    + simpl in Hf. lia.
Qed.

Lemma ready_remove_spec w q i :
  queues w q → slot_in i → priority_ok w i →
  wp (ready_remove i) (λ _ w', core w' = core w ∧
    let id := QReady (t_priority (T w i)) in
    (i ∈ q id → queues w' (qset id (without i (q id)) q)) ∧ (i ∉ q id → w' = w)) w.
Proof.
  intros Hq Hi Hp. unfold ready_remove, ready_priority. set (p := t_priority (T w i)).
  assert (valid w (QReady p)) as Hv by done. pose proof (queues_shape w q Hq) as Hs.
  go. fold p. rewrite (queues_head w q) by done.
  wp_apply (ready_remove_loop_spec (S task_slots_nat) w q p i [] (q (QReady p))); try done.
  - intros _ w' (H1 & H2 & H3). done.
  - set_solver.
  - pose proof (queue_length w q (QReady p) Hq). unfold task_slots_nat. lia.
Qed.

Lemma ready_scan_spec n w q p i l1 l2 :
  queues w q → 0 <= p < PRIORITY_LEVELS → q (QReady p) = l1 ++ l2 → (length l2 <= n)%nat →
  wp (ready_scan n i (default NIL (head l2))) (λ b w', w' = w ∧ b = bool_decide (i ∈ l2)) w.
Proof.
  intros Hq Hp. pose proof (queues_shape w q Hq) as Hs.
  revert l1 l2. induction n as [|n IH]; intros l1 l2 E Hn; cbn [ready_scan].
  { destruct l2; [|simpl in Hn; lia]. by go. }
  destruct l2 as [|x l2]; cbn [head default]; [rewrite Z.eqb_refl; by go|]. cbn.
  assert (slot_in x) as Hx by (eapply (queues_slot w q Hq (QReady p)); rewrite E; set_solver).
  pose proof (slot_in_not_NIL x Hx) as HxN. apply Z.eqb_neq in HxN. rewrite HxN.
  destruct (Z.eqb_spec x i) as [->|Hne].
  - go. split; [done|]. symmetry. apply bool_decide_eq_true. set_solver.
  - go. fold (nx w x). rewrite (queues_next_in w q (QReady p) l1 x l2) by done.
    wp_apply (IH (l1 ++ [x]) l2); [|by rewrite <-app_assoc|simpl in Hn; lia].
    intros b w' [-> ->]. split; [done|]. apply bool_decide_ext. set_solver.
Qed.

Lemma ready_contains_from_spec ps w q i :
  queues w q → (∀ p, p ∈ ps → 0 <= p < PRIORITY_LEVELS) →
  wp (ready_contains_from ps i) (λ b w', w' = w ∧ (b = true ↔ ∃ p, p ∈ ps ∧ i ∈ q (QReady p))) w.
Proof.
  intros Hq. pose proof (queues_shape w q Hq) as Hs.
  induction ps as [|p ps IH]; intros Hps; cbn [ready_contains_from].
  { go. set_solver. }
  assert (0 <= p < PRIORITY_LEVELS) as Hp by (apply Hps; set_solver).
  assert (valid w (QReady p)) as Hv by done. go. rewrite (queues_head w q) by done.
  wp_apply (ready_scan_spec task_slots_nat w q p i [] (q (QReady p)));
    [|done|done|done|by eapply queue_length].
  intros b w' [-> ->]. case_bool_decide as Hin.
  - go. split; [done|]. split; [|done]. intros _. exists p. set_solver.
  - wp_apply IH; [|set_solver]. intros b w' [-> Hb]. split; [done|]. rewrite Hb. set_solver.
Qed.

(** A task in some ready queue. *)
Definition ready_queued (q : Queues) (i : Z) : Prop :=
  ∃ p, 0 <= p < PRIORITY_LEVELS ∧ i ∈ q (QReady p).

Lemma ready_contains_spec w q i :
  queues w q → wp (ready_contains i) (λ b w', w' = w ∧ (b = true ↔ ready_queued q i)) w.
Proof.
  intros Hq. unfold ready_contains. wp_apply (ready_contains_from_spec priorities w q i Hq).
  - intros b w' [-> Hb]. split; [done|]. rewrite Hb. unfold ready_queued, priorities.
    split; intros (p & Hp & Hi); exists p; (split; [|done]); by apply elem_of_range.
  - intros p. apply elem_of_range.
Qed.

(** What [make_ready] does to the task itself. *)
Definition readied (now : Z) (t : Tcb) : Tcb :=
  t <| t_state := Ready |> <| t_metrics ::= metrics_on_ready now |>.

(** The queues after [make_ready]: the reserved idle task is never queued. *)
Definition enqueued (w : World) (i : Z) (q : Queues) : Queues :=
  if decide (i = IDLE_SLOT) then q
  else qset (QReady (t_priority (T w i))) (q (QReady (t_priority (T w i))) ++ [i]) q.

Lemma make_ready_spec w q i now :
  queues w q → slot_in i → detached q i → priority_ok w i →
  wp (make_ready i now) (λ _ w',
    queues w' (enqueued w i q) ∧ core w' = core (upd_task i (readied now) w)) w.
Proof.
  intros Hq Hi Hd Hp. pose proof (queues_shape w q Hq) as Hs. unfold make_ready. go.
  rewrite upd_task_compose. change (upd_task i _ w) with (upd_task i (readied now) w).
  set (w1 := upd_task i (readied now) w).
  assert (queues w1 q) as Hq1 by (by apply queues_upd_task).
  assert (t_priority (T w1 i) = t_priority (T w i)) as Hp1 by (unfold w1; by rewrite T_upd_eq).
  unfold enqueued. destruct (Z.eqb_spec i IDLE_SLOT) as [->|Hne]; cbn [negb when].
  - go. by rewrite decide_True.
  - rewrite decide_False by done.
    wp_apply (ready_push_spec w1 q i Hq1 Hi Hd); [|unfold priority_ok; by rewrite Hp1].
    intros _ w' [Hq' Hc]. by rewrite Hp1 in Hq'.
Qed.

(** ** The abstract ready queue

    A list of tasks in arrival order; the next task is the first one of the
    smallest priority number. *)

Inductive ready_op := RPush (i : Z) | RPop | RRemove (i : Z) | RContains (i : Z).
Inductive ready_result := RUnit | RTask (i : Z) | RBool (b : bool).

Definition ready_exec (op : ready_op) : M World ready_result :=
  match op with
  | RPush i => ready_push i ;; mret RUnit
  | RPop => i ← ready_pop; mret (RTask i)
  | RRemove i => ready_remove i ;; mret RUnit
  | RContains i => b ← ready_contains i; mret (RBool b)
  end.

Fixpoint ready_run (ops : list ready_op) : M World (list ready_result) :=
  match ops with
  | [] => mret []
  | op :: ops => r ← ready_exec op; rs ← ready_run ops; mret (r :: rs)
  end.

Fixpoint first_best (pr : Z → Z) (arrival : list Z) : option Z :=
  match arrival with
  | [] => None
  | x :: rest =>
      match first_best pr rest with
      | Some y => if pr y <? pr x then Some y else Some x
      | None => Some x
      end
  end.

Definition spec_step (pr : Z → Z) (op : ready_op) (arrival : list Z) : ready_result * list Z :=
  match op with
  | RPush i => (RUnit, arrival ++ [i])
  | RPop => match first_best pr arrival with
            | Some x => (RTask x, without x arrival)
            | None => (RTask NIL, arrival)
            end
  | RRemove i => (RUnit, without i arrival)
  | RContains i => (RBool (bool_decide (i ∈ arrival)), arrival)
  end.

Fixpoint spec_run (pr : Z → Z) (ops : list ready_op) (arrival : list Z) :
    list ready_result * list Z :=
  match ops with
  | [] => ([], arrival)
  | op :: ops =>
      let '(r, arrival) := spec_step pr op arrival in
      let '(rs, arrival) := spec_run pr ops arrival in
      (r :: rs, arrival)
  end.

(** Callers push only tasks that are in no queue. *)
Fixpoint legal (pr : Z → Z) (waiting : Z → Prop) (ops : list ready_op) (arrival : list Z) : Prop :=
  match ops with
  | [] => True
  | op :: ops =>
      match op with
      | RPush i => slot_in i ∧ (i ∉ arrival) ∧ (waiting i → False) ∧ 0 <= pr i < PRIORITY_LEVELS
      | RRemove i => slot_in i ∧ 0 <= pr i < PRIORITY_LEVELS
      | _ => True
      end ∧ legal pr waiting ops (spec_step pr op arrival).2
  end.

Definition in_wait_queue (q : Queues) (i : Z) : Prop := ∃ a, i ∈ q (QSem a) ∨ i ∈ q (QMtx a).
Definition same_waits (q q' : Queues) : Prop :=
  ∀ a, q' (QSem a) = q (QSem a) ∧ q' (QMtx a) = q (QMtx a).

(** The ready queues hold the arrivals, split by priority. *)
Record arrivals (pr : Z → Z) (q : Queues) (arrival : list Z) : Prop := {
  arrivals_split p : 0 <= p < PRIORITY_LEVELS → q (QReady p) = filter (λ i, pr i = p) arrival;
  arrivals_nodup : NoDup arrival;
  arrivals_priority i : i ∈ arrival → 0 <= pr i < PRIORITY_LEVELS;
}.

Lemma without_filter x P `{∀ y, Decision (P y)} (l : list Z) :
  without x (filter P l) = filter P (without x l).
Proof.
  unfold without. induction l as [|y l IH]; [done|]. rewrite !filter_cons.
  destruct (decide (P y)), (decide (y ≠ x)); rewrite ?filter_cons;
    rewrite ?decide_True, ?decide_False by done; by rewrite IH.
Qed.

Lemma elem_of_without x y l : y ∈ without x l ↔ y ∈ l ∧ y ≠ x.
Proof. unfold without. rewrite list_elem_of_filter. tauto. Qed.

Lemma first_best_spec pr arrival :
  match first_best pr arrival with
  | None => arrival = []
  | Some x => x ∈ arrival ∧ (∀ y, y ∈ arrival → pr x <= pr y) ∧
      ∃ l, filter (λ i, pr i = pr x) arrival = x :: l
  end.
Proof.
  induction arrival as [|a arrival IH]; simpl; [done|].
  destruct (first_best pr arrival) as [y|].
  - destruct IH as (Hy & Hmin & l & Hl). destruct (Z.ltb_spec (pr y) (pr a)).
    + split_and!; [set_solver| |].
      * intros z [->|Hz]%elem_of_cons; [lia|auto].
      * exists l. rewrite filter_cons, decide_False by lia. done.
    + split_and!; [set_solver| |].
      * intros z [->|Hz]%elem_of_cons; [lia|]. specialize (Hmin z Hz). lia.
      * eexists. rewrite filter_cons, decide_True by done. done.
  - subst. split_and!; [set_solver| |].
    + intros z ?%list_elem_of_singleton. by subst.
    + eexists. rewrite filter_cons, decide_True by done. done.
Qed.

Lemma arrivals_without pr q arrival x :
  arrivals pr q arrival → 0 <= pr x < PRIORITY_LEVELS →
  arrivals pr (qset (QReady (pr x)) (without x (q (QReady (pr x)))) q) (without x arrival).
Proof.
  intros [Hs Hn Hp] Hx. split.
  - intros p Hpr. destruct (decide (pr x = p)) as [<-|Hne].
    + rewrite qset_eq, Hs by done. apply without_filter.
    + rewrite qset_ne by congruence. rewrite Hs by done. rewrite <-without_filter.
      rewrite without_not_in; [done|]. rewrite list_elem_of_filter. tauto.
  - by apply NoDup_filter.
  - intros i [Hi _]%elem_of_without. auto.
Qed.

Lemma arrivals_highest pr q arrival p x l :
  arrivals pr q arrival → highest q p x l →
  p = pr x ∧ first_best pr arrival = Some x ∧ l = without x (q (QReady (pr x))).
Proof.
  intros [Hs Hn Hp] (Hpr & Hq & Hlow). rewrite Hs in Hq by done.
  assert (x ∈ filter (λ i, pr i = p) arrival) as Hx by (rewrite Hq; set_solver).
  apply list_elem_of_filter in Hx as [Hxp Hx]. subst p. split; [done|].
  pose proof (first_best_spec pr arrival) as Hb.
  destruct (first_best pr arrival) as [y|]; [|subst; set_solver].
  destruct Hb as (Hy & Hmin & l' & Hl').
  assert (pr y = pr x) as Heq.
  { specialize (Hmin x Hx). destruct (decide (pr y < pr x)) as [Hlt|]; [|lia].
    pose proof (Hp y Hy). assert (q (QReady (pr y)) = []) as He by (apply Hlow; lia).
    rewrite Hs in He by lia. assert (y ∈ filter (λ i, pr i = pr y) arrival) as Hin
      by (by apply list_elem_of_filter). rewrite He in Hin. set_solver. }
  rewrite Heq, Hq in Hl'. injection Hl' as -> ->. split; [done|].
  rewrite Hs, Hq by done. change (y :: l') with ([] ++ y :: l').
  rewrite without_split; [done|]. simpl. rewrite <-Hq. by apply NoDup_filter.
Qed.

Lemma arrivals_queued pr q arrival i :
  arrivals pr q arrival → (ready_queued q i ↔ i ∈ arrival).
Proof.
  intros [Hs Hn Hp]. split.
  - intros (p & Hpr & Hi). rewrite Hs in Hi by done. by apply list_elem_of_filter in Hi as [_ ?].
  - intros Hi. exists (pr i). split; [auto|]. rewrite Hs by auto. by apply list_elem_of_filter.
Qed.

Lemma bool_decide_ext_true (P : Prop) `{!Decision P} (b : bool) :
  (b = true ↔ P) → b = bool_decide P.
Proof. intros H. destruct b; case_bool_decide; naive_solver. Qed.

(** One operation in step with the abstract queue. *)
Lemma ready_exec_refines w q arrival op :
  let pr := λ i, t_priority (T w i) in
  queues w q → arrivals pr q arrival → legal pr (in_wait_queue q) [op] arrival →
  wp (ready_exec op) (λ r w',
    r = (spec_step pr op arrival).1 ∧ core w' = core w ∧ ∃ q', queues w' q' ∧ same_waits q q' ∧
    arrivals pr q' (spec_step pr op arrival).2) w.
Proof.
  intros pr Hq Ha Hl. pose proof Ha as [Hs Hn Hp].
  destruct op as [i| |i|i]; simpl in Hl; cbn [ready_exec spec_step].
  - destruct Hl as ((Hi & Hni & Hw & Hpr) & _). go.
    assert (detached q i) as Hd.
    { intros [p|a|a] Hin; [|apply Hw; exists a; tauto..].
      pose proof (queues_valid w q Hq _ _ Hin) as Hv. rewrite Hs in Hin by done.
      apply list_elem_of_filter in Hin as [_ Hin]. done. }
    wp_apply (ready_push_spec w q i Hq Hi Hd Hpr). intros _ w' [Hq' Hc]. go.
    split_and!; [done..|]. eexists. split_and!; [exact Hq'|done|].
    fold (pr i). split.
    + intros p Hpp. cbn [snd]. rewrite filter_app, filter_cons, filter_nil.
      destruct (decide (pr i = p)) as [<-|Hne].
      * by rewrite qset_eq, Hs.
      * rewrite qset_ne by congruence. by rewrite app_nil_r, Hs.
    + simpl. apply NoDup_app. split; [done|]. split; [|apply NoDup_singleton].
      intros x Hx ->%list_elem_of_singleton. done.
    + simpl. intros j [Hj|Hj%list_elem_of_singleton]%elem_of_app; [auto|by subst].
  - go. wp_apply (ready_pop_spec w q Hq).
    intros x w' [(Hno & -> & ->)|(p & l & Hh & Hx & Hq' & Hc)]; go.
    + pose proof (first_best_spec pr arrival) as Hb.
      destruct (first_best pr arrival) as [y|]; [|by split_and!; [..|exists q]].
      exfalso. destruct Hb as (Hy & _ & l & Hl').
      rewrite <-Hs, (Hno (pr y)) in Hl' by auto. done.
    + destruct (arrivals_highest pr q arrival p x l Ha Hh) as (-> & -> & ->).
      split_and!; [done..|]. eexists. split_and!; [exact Hq'|done|].
      apply arrivals_without; [done|]. by destruct Hh.
  - destruct Hl as ((Hi & Hpr) & _). go. wp_apply (ready_remove_spec w q i Hq Hi Hpr).
    intros _ w' [Hc [Hin Hout]]. go. split_and!; [done..|].
    destruct (decide (i ∈ q (QReady (t_priority (T w i))))) as [H|H].
    + eexists. split_and!; [by apply Hin|done|]. by apply (arrivals_without pr).
    + rewrite (Hout H). exists q. split_and!; [done..|]. simpl.
      rewrite without_not_in; [done|]. intros Hia. apply H. rewrite Hs by done.
      by apply list_elem_of_filter.
  - go. wp_apply (ready_contains_spec w q i Hq). intros b w' [-> Hb]. go.
    split_and!; [|done|by exists q]. simpl. f_equal.
    apply bool_decide_ext_true. rewrite Hb. by apply arrivals_queued with pr.
Qed.

Lemma first_best_ext pr pr' l : (∀ i, pr i = pr' i) → first_best pr l = first_best pr' l.
Proof.
  intros Hpr. induction l as [|x l IH]; [done|]. simpl. rewrite IH.
  destruct (first_best pr' l); by rewrite ?Hpr.
Qed.

Lemma spec_step_ext pr pr' op arrival :
  (∀ i, pr i = pr' i) → spec_step pr op arrival = spec_step pr' op arrival.
Proof. intros Hpr. destruct op; simpl; by rewrite ?(first_best_ext pr pr') by done. Qed.

Lemma legal_ext pr pr' W W' ops arrival :
  (∀ i, pr i = pr' i) → (∀ i, W i ↔ W' i) → legal pr W ops arrival → legal pr' W' ops arrival.
Proof.
  intros Hpr HW. revert arrival. induction ops as [|op ops IH]; intros arrival; [done|].
  simpl. intros [H1 H2]. split.
  - destruct op; try done; rewrite <-?HW, <-?Hpr; tauto.
  - apply IH. by rewrite <-(spec_step_ext pr pr').
Qed.

Lemma spec_run_ext pr pr' ops arrival :
  (∀ i, pr i = pr' i) → spec_run pr ops arrival = spec_run pr' ops arrival.
Proof.
  intros Hpr. revert arrival. induction ops as [|op ops IH]; intros arrival; [done|].
  simpl. rewrite (spec_step_ext pr pr') by done. destruct (spec_step pr' op arrival). by rewrite IH.
Qed.

Lemma arrivals_ext pr pr' q arrival :
  (∀ i, pr i = pr' i) → arrivals pr q arrival → arrivals pr' q arrival.
Proof.
  intros Hpr [Hs Hn Hp]. split; [|done|intros i Hi; rewrite <-Hpr; auto].
  intros p Hpp. rewrite Hs by done. apply list_filter_iff. intros i. by rewrite Hpr.
Qed.

(** C28: the ready queues are a stable priority queue (RTOS-DISPATCH-001). Whatever
    sequence of pushes, pops, removals and membership tests runs on a store whose
    queues are well formed, no access panics, every loop ends, and the results are
    those of the abstract queue: a pop returns the task that arrived first among
    those of the smallest priority number, a removal takes out exactly its task,
    and every other task keeps its place. Wait queues and all other scheduler
    state are untouched. *)
Theorem ready_queue_is_stable_priority_queue (w : World) (q : Queues) (arrival : list Z)
    (ops : list ready_op) :
  let pr := λ i, t_priority (T w i) in
  queues w q → arrivals pr q arrival → legal pr (in_wait_queue q) ops arrival →
  wp (ready_run ops) (λ rs w', rs = (spec_run pr ops arrival).1 ∧ core w' = core w ∧
    ∃ q', queues w' q' ∧ same_waits q q' ∧ arrivals pr q' (spec_run pr ops arrival).2) w.
Proof.
  cbv zeta. revert w q arrival. induction ops as [|op ops IH]; intros w q arrival Hq Ha Hl.
  { go. split_and!; [done..|by exists q]. }
  cbn [ready_run]. go. destruct Hl as [Hop Hl].
  wp_apply (ready_exec_refines w q arrival op Hq Ha); [|by split].
  intros r w1 (-> & Hc1 & q1 & Hq1 & Hw1 & Ha1). go.
  assert (∀ i, t_priority (T w1 i) = t_priority (T w i)) as Hpr
    by (intros i; by apply (core_field t_priority)).
  cbn [spec_run]. destruct (spec_step _ op arrival) as [r1 arrival1] eqn:Es. simpl in Hl, Ha1 |- *.
  wp_apply (IH w1 q1 arrival1 Hq1).
  - intros rs w2 (-> & Hc2 & q2 & Hq2 & Hw2 & Ha2). go.
    rewrite (spec_run_ext _ (λ i, t_priority (T w i))) by apply Hpr.
    rewrite (spec_run_ext _ (λ i, t_priority (T w i))) in Ha2 by apply Hpr.
    destruct (spec_run _ ops arrival1) as [rs arrival2]. split_and!; [done|by rewrite Hc2|].
    exists q2. split_and!; [done| |eapply arrivals_ext; [|exact Ha2]; apply Hpr].
    intros a. destruct (Hw1 a), (Hw2 a). split; congruence.
  - eapply arrivals_ext; [|exact Ha1]. intros i. symmetry. apply Hpr.
  - eapply legal_ext; [| |exact Hl]; [intros i; by rewrite Hpr|].
    intros i. unfold in_wait_queue. split; intros (a & Ha'); exists a; destruct (Hw1 a) as [E1 E2];
      rewrite E1, E2 in *; done.
Qed.

(** Three tasks of two priorities, as the witnesses use them. *)
Definition witness_tasks : World :=
  upd_task 4 (λ t, t <| t_priority := 1 |>)
    (upd_task 3 (λ t, t <| t_priority := 5 |>)
      (upd_task 2 (λ t, t <| t_priority := 5 |>) (World_new 4))).

Lemma witness_tasks_queues : queues witness_tasks no_queues.
Proof. repeat (apply queues_upd_task; [done|]). apply World_new_queues. Qed.

Definition witness_ready_ops : list ready_op :=
  [RPush 2; RPush 3; RPush 4; RPop; RContains 3; RPop; RRemove 3; RPop].

Lemma ready_queue_is_stable_priority_queue_witness :
  let pr := λ i, t_priority (T witness_tasks i) in
  (spec_run pr witness_ready_ops []).1 =
    [RUnit; RUnit; RUnit; RTask 4; RBool true; RTask 2; RUnit; RTask NIL] ∧
  wp (ready_run witness_ready_ops) (λ rs w', rs = (spec_run pr witness_ready_ops []).1 ∧
    core w' = core witness_tasks ∧ ∃ q', queues w' q' ∧ same_waits no_queues q' ∧
    arrivals pr q' (spec_run pr witness_ready_ops []).2) witness_tasks.
Proof.
  split; [by vm_compute|].
  apply (ready_queue_is_stable_priority_queue witness_tasks no_queues []).
  - apply witness_tasks_queues.
  - by split; [..|constructor|set_solver].
  - assert (∀ i, in_wait_queue no_queues i → False) as Hw by (intros i (a & [H|H]); set_solver).
    unfold witness_ready_ops, slot_in.
    repeat (split; [try done|]); simpl; split_and?; try done; try apply Hw; set_solver.
Defined.
