(* ===== verification/Ownership.v ===== *)
(** * The ready-ownership audit ([src/runtime/scheduler.rs])

    [ready_ownership_audit] inspects a scheduler snapshot without trusting any
    link: every traversal is bounded by the task table. The theorem of this file
    says that its verdict is exact: on any store, however damaged its links, the
    audit ends, and it counts no violation if and only if every ready queue is a
    well-formed list of tasks of its priority and every task has exactly the owner
    its state calls for. *)

From S2P Require Import Prelude Effects Budget Contract Config Context Reservation.
From S2P Require Import Tcb Store Chain Ready.

Record ReadyOwnershipAudit := mkAudit {
  a_memberships : list Z;
  a_buckets : list Z;
  a_violations : Z;
  a_duplicate_memberships : Z;
  a_wrong_priorities : Z;
  a_invalid_links : Z;
}.

#[export] Instance eta_ReadyOwnershipAudit : Eta ReadyOwnershipAudit := λ a,
  mkAudit (a_memberships a) (a_buckets a) (a_violations a) (a_duplicate_memberships a)
    (a_wrong_priorities a) (a_invalid_links a).
#[export] Instance field_a_memberships : Field a_memberships. Proof. derive_field. Defined.
#[export] Instance field_a_buckets : Field a_buckets. Proof. derive_field. Defined.
#[export] Instance field_a_violations : Field a_violations. Proof. derive_field. Defined.
#[export] Instance field_a_duplicate_memberships : Field a_duplicate_memberships. Proof. derive_field. Defined.
#[export] Instance field_a_wrong_priorities : Field a_wrong_priorities. Proof. derive_field. Defined.
#[export] Instance field_a_invalid_links : Field a_invalid_links. Proof. derive_field. Defined.

Definition ReadyOwnershipAudit_empty : ReadyOwnershipAudit := {|
  a_memberships := replicate task_slots_nat 0;
  a_buckets := replicate task_slots_nat NO_READY_QUEUE_BUCKET;
  a_violations := 0;
  a_duplicate_memberships := 0;
  a_wrong_priorities := 0;
  a_invalid_links := 0;
|}.

Definition violation (a : ReadyOwnershipAudit) : ReadyOwnershipAudit :=
  a <| a_violations ::= sat_incr_u8 |>.
Definition violation_if (b : bool) (a : ReadyOwnershipAudit) : ReadyOwnershipAudit :=
  if b then violation a else a.
Definition invalid_link_if (b : bool) (a : ReadyOwnershipAudit) : ReadyOwnershipAudit :=
  if b then violation (a <| a_invalid_links ::= sat_incr_u8 |>) else a.

(** The bounded walk along one ready list; the result is the audit, [current] and
    [last]. *)
Fixpoint audit_walk (n : nat) (priority current last : Z) (a : ReadyOwnershipAudit) :
    M World (ReadyOwnershipAudit * Z * Z) :=
  match n with
  | O => mret (a, current, last)
  | S n =>
      if current =? NIL then mret (a, current, last)
      else if TASK_SLOT_COUNT <=? current then mret (invalid_link_if true a, NIL, last)
      else
        memberships ← expect (idx a.(a_memberships) current);
        let a := a <| a_memberships ::= λ m, alter_at (λ _, sat_incr_u8 memberships) m current |> in
        let a := if negb (memberships =? 0)
                 then violation (a <| a_duplicate_memberships ::= sat_incr_u8 |>)
                 else a <| a_buckets ::= λ b, alter_at (λ _, priority) b current |> in
        task_priority ← tget t_priority current;
        let a := if negb (task_priority =? priority)
                 then violation (a <| a_wrong_priorities ::= sat_incr_u8 |>) else a in
        next ← tget t_next current;
        audit_walk n priority next current a
  end.

Definition audit_priority (a : ReadyOwnershipAudit) (priority : Z) : M World ReadyOwnershipAudit :=
  head ← get_head (QReady priority);
  tail ← get_tail (QReady priority);
  let a := invalid_link_if (xorb (head =? NIL) (tail =? NIL)) a in
  let a := invalid_link_if (negb (tail =? NIL) && (TASK_SLOT_COUNT <=? tail)) a in
  r ← audit_walk task_slots_nat priority head NIL a;
  let '(a, current, last) := r : ReadyOwnershipAudit * Z * Z in
  let a := invalid_link_if
    (negb (current =? NIL) || (negb (head =? NIL) && negb (last =? tail))) a in
  if tail <? TASK_SLOT_COUNT then
    next ← tget t_next tail;
    mret (invalid_link_if (negb (next =? NIL)) a)
  else mret a.

Fixpoint audit_priorities (ps : list Z) (a : ReadyOwnershipAudit) : M World ReadyOwnershipAudit :=
  match ps with
  | [] => mret a
  | p :: ps => a ← audit_priority a p; audit_priorities ps a
  end.

(** [pending_target], with the violation of a stale target. *)
Definition audit_pending (a : ReadyOwnershipAudit) : M World (ReadyOwnershipAudit * option Z) :=
  pending ← sched_gets s_pending_switch;
  match pending with
  | None => mret (a, None)
  | Some pending =>
      let target := pending.(ps_target).(ref_slot) in
      stale ← (if TASK_SLOT_COUNT <=? target then mret true
               else g ← tget t_identity_generation target;
                    mret (negb (g =? pending.(ps_target).(ref_generation))));
      if stale : bool then mret (violation a, None) else mret (a, Some target)
  end.

(** One task of the ownership loop; the result is the audit and [running_tasks]. *)
Definition audit_task (pending_target : option Z) (task : Z) (acc : ReadyOwnershipAudit * Z) :
    M World (ReadyOwnershipAudit * Z) :=
  let '(a, running_tasks) := acc in
  queued ← expect (idx a.(a_memberships) task);
  let pending := bool_decide (pending_target = Some task) in
  current ← sched_gets s_current;
  state ← tget t_state task;
  match state with
  | Ready =>
      if task =? IDLE_SLOT then
        let a := violation_if (negb (queued =? 0)) a in
        mret (violation_if (pending && negb (queued =? 0)) a, running_tasks)
      else
        mret (violation_if (negb (saturating_add u8_max queued (Z.b2z pending) =? 1)) a,
              running_tasks)
  | Running =>
      mret (violation_if (negb (task =? current) || negb (queued =? 0) || pending) a,
            sat_incr_u8 running_tasks)
  | _ => mret (violation_if (negb (queued =? 0) || pending) a, running_tasks)
  end.

Fixpoint audit_tasks (pending_target : option Z) (ts : list Z) (acc : ReadyOwnershipAudit * Z) :
    M World (ReadyOwnershipAudit * Z) :=
  match ts with
  | [] => mret acc
  | t :: ts => acc ← audit_task pending_target t acc; audit_tasks pending_target ts acc
  end.

(** The final check of a started scheduler. *)
Definition audit_started (acc : ReadyOwnershipAudit * Z) : M World ReadyOwnershipAudit :=
  let '(a, running_tasks) := acc in
  s ← sched_gets id;
  if s.(s_started) then
    let current_task := idx s.(s_tasks) s.(s_current) in
    match s.(s_pending_switch) with
    | Some pending =>
        mret (violation_if
          (negb (running_tasks =? 0) ||
           negb (s.(s_current) =? pending.(ps_previous).(ref_slot)) ||
           (TASK_SLOT_COUNT <=? s.(s_current)) ||
           match current_task with Some t => state_eqb t.(t_state) Running | None => false end) a)
    | None =>
        if negb (running_tasks =? 1) || (TASK_SLOT_COUNT <=? s.(s_current))
        then mret (violation a)
        else t ← expect current_task;
             mret (violation_if (negb (state_eqb t.(t_state) Running)) a)
    end
  else mret a.

Definition ready_ownership_audit : M World ReadyOwnershipAudit :=
  a ← audit_priorities priorities ReadyOwnershipAudit_empty;
  r ← audit_pending a;
  let '(a, pending_target) := r : ReadyOwnershipAudit * option Z in
  acc ← audit_tasks pending_target (range 0 TASK_SLOT_COUNT) (a, 0);
  audit_started acc.

(** ** What the audit checks *)

(** [l] is the ready list of priority [p]: linked, ended, tailed and of [p]. *)
Definition ready_list (w : World) (p : Z) (l : list Z) : Prop :=
  seg (nx w) (hd_of w (QReady p)) l NIL ∧ tl_of w (QReady p) = default NIL (last l) ∧
  NoDup l ∧ ∀ i, i ∈ l → slot_in i ∧ t_priority (T w i) = p.

Definition lists_ok (w : World) (q : Z → list Z) : Prop :=
  ∀ p, 0 <= p < PRIORITY_LEVELS → ready_list w p (q p).
Definition in_lists (q : Z → list Z) (i : Z) : Prop := ∃ p, 0 <= p < PRIORITY_LEVELS ∧ i ∈ q p.

Definition pending_valid (w : World) : Prop :=
  match pending w with
  | None => True
  | Some p => slot_in p.(ps_target).(ref_slot) ∧
      t_identity_generation (T w p.(ps_target).(ref_slot)) = p.(ps_target).(ref_generation)
  end.

(** The owner each state calls for: a ready task is in exactly one of its queue and
    the pending switch, a running task is the current one, nobody else is queued. *)
Definition owner_ok (w : World) (q : Z → list Z) (i : Z) : Prop :=
  match t_state (T w i) with
  | Ready =>
      if decide (i = IDLE_SLOT) then ¬ in_lists q i
      else (in_lists q i ∧ ¬ is_target w i) ∨ (¬ in_lists q i ∧ is_target w i)
  | Running => i = current w ∧ ¬ in_lists q i ∧ ¬ is_target w i
  | _ => ¬ in_lists q i ∧ ¬ is_target w i
  end.

Definition running_ok (w : World) : Prop :=
  s_started (w_sched w) = true →
  slot_in (current w) ∧
  match pending w with
  | Some p => current w = p.(ps_previous).(ref_slot) ∧
      ∀ i, slot_in i → t_state (T w i) ≠ Running
  | None => t_state (T w (current w)) = Running
  end.

(** RTOS-STATE-004 *)
Definition ready_ownership (w : World) : Prop :=
  ∃ q, lists_ok w q ∧ pending_valid w ∧ (∀ i, slot_in i → owner_ok w q i) ∧ running_ok w.

(** [usize] values are not negative. *)
Record links_unsigned (w : World) : Prop := {
  unsigned_head p : 0 <= hd_of w (QReady p);
  unsigned_tail p : 0 <= tl_of w (QReady p);
  unsigned_next i : 0 <= nx w i;
  unsigned_current : 0 <= current w;
  unsigned_target p : pending w = Some p → 0 <= p.(ps_target).(ref_slot);
}.

(** ** The bounded walk *)

Definition clean (a : ReadyOwnershipAudit) : Prop := a_violations a = 0.
Definition mem (a : ReadyOwnershipAudit) (i : Z) : Z := at_ 0 (a_memberships a) i.
Definition audit_ok (a : ReadyOwnershipAudit) : Prop :=
  0 <= a_violations a ∧ Z.of_nat (length (a_memberships a)) = TASK_SLOT_COUNT ∧
  ∀ i, 0 <= mem a i.

Lemma not_clean_violation a : 0 <= a_violations a → ¬ clean (violation a).
Proof. intros H Hc. pose proof (sat_incr_u8_pos (a_violations a) H). unfold clean in Hc. simpl in Hc. lia. Qed.

Lemma audit_ok_violation a : audit_ok a → audit_ok (violation a).
Proof. intros [H Hr]. split; [|exact Hr]. simpl. pose proof (sat_incr_u8_pos _ H). lia. Qed.

Lemma violation_if_spec b a :
  audit_ok a → audit_ok (violation_if b a) ∧ (clean (violation_if b a) ↔ clean a ∧ b = false) ∧
  a_memberships (violation_if b a) = a_memberships a.
Proof.
  intros Ha. destruct b; simpl; [|by split_and!; tauto]. split_and!; [by apply audit_ok_violation| |done].
  split; [|by intros []]. intros Hc. by apply not_clean_violation in Hc; [|destruct Ha].
Qed.

Lemma invalid_link_if_spec b a :
  audit_ok a → audit_ok (invalid_link_if b a) ∧ (clean (invalid_link_if b a) ↔ clean a ∧ b = false) ∧
  a_memberships (invalid_link_if b a) = a_memberships a.
Proof.
  intros Ha. destruct b; simpl; [|by split_and!; tauto].
  destruct (violation_if_spec true (a <| a_invalid_links ::= sat_incr_u8 |>)) as (H1 & H2 & H3);
    [exact Ha|]. split_and!; [done| |done]. rewrite H2. split; [by intros []|by intros []].
Qed.

(** The part of a list that a clean walk has seen. *)
Definition walked (w : World) (p : Z) (a : ReadyOwnershipAudit) (l : list Z) : Prop :=
  NoDup l ∧ ∀ i, i ∈ l → slot_in i ∧ t_priority (T w i) = p ∧ mem a i = 0.

Definition counted (a a' : ReadyOwnershipAudit) (l : list Z) : Prop :=
  ∀ i, mem a' i = if decide (i ∈ l) then 1 else mem a i.

Lemma audit_walk_spec n w p cur lst a :
  shape w → links_unsigned w → audit_ok a → 0 <= cur →
  wp (audit_walk n p cur lst a) (λ r w', let '(a', c', l') := r in w' = w ∧ audit_ok a' ∧
    (clean a' → clean a ∧ ∃ l, seg (nx w) cur l c' ∧ (c' = NIL ∨ length l = n) ∧
      walked w p a l ∧ counted a a' l ∧ l' = default lst (last l)) ∧
    (∀ l, clean a → seg (nx w) cur l NIL → (length l <= n)%nat → walked w p a l →
      clean a' ∧ c' = NIL)) w.
Proof.
  intros Hs Hu. revert cur lst a. induction n as [|n IH]; intros cur lst a Ha Hc; cbn [audit_walk].
  { go. split_and!; [done..| |].
    - intros Hcl. split; [done|]. exists []. split_and!; [done|by right|split; [constructor|set_solver]| |done].
      intros i. by rewrite decide_False by set_solver.
    - intros l Hcl Hl Hn _. destruct l; [|simpl in Hn; lia]. by split. }
  destruct (Z.eqb_spec cur NIL) as [->|Hne].
  { go. split_and!; [done..| |done].
    intros Hcl. split; [done|]. exists []. split_and!; [done|by left|split; [constructor|set_solver]| |done].
    intros i. by rewrite decide_False by set_solver. }
  destruct (Z.leb_spec TASK_SLOT_COUNT cur) as [Hge|Hlt].
  { go. destruct (invalid_link_if_spec true a Ha) as (H1 & H2 & _).
    split_and!; [done..| |].
    - intros Hcl. apply H2 in Hcl. by destruct Hcl.
    - intros [|x l] Hcl Hl; [by destruct Hne|]. destruct Hl as [<- _]. intros _ [_ Hw].
      destruct (Hw cur) as [Hin _]; [set_solver|]. unfold slot_in in Hin. lia. }
  assert (slot_in cur) as Hin by (unfold slot_in; lia).
  assert (in_range (a_memberships a) cur) as Hr by (destruct Ha; unfold in_range; lia).
  go. eapply wp_expect; [by apply (idx_at 0)|]. go. fold (mem a cur).
  set (a1 := a <| a_memberships ::= λ m, alter_at (λ _, sat_incr_u8 (mem a cur)) m cur |>).
  set (a2 := if negb (mem a cur =? 0) then _ else _).
  set (a3 := if negb (t_priority (T w cur) =? p) then _ else _).
  assert (audit_ok a1) as Ha1.
  { destruct Ha as (Hv & Hlen & Hm). split_and!; [done|simpl; by rewrite length_alter_at|].
    intros i. unfold mem. simpl. rewrite at_alter by done. case_decide; [|apply Hm].
    pose proof (sat_incr_u8_pos _ (Hm cur)). lia. }
  assert (audit_ok a2 ∧ (clean a2 ↔ clean a ∧ mem a cur = 0) ∧ a_memberships a2 = a_memberships a1)
    as (Ha2 & Hc2 & Hm2).
  { subst a2. destruct (Z.eqb_spec (mem a cur) 0) as [E|E]; simpl; [by split_and!; [done|tauto|]|].
    destruct (violation_if_spec true (a1 <| a_duplicate_memberships ::= sat_incr_u8 |>)) as (H1 & H2 & H3);
      [exact Ha1|].
    split_and!; [done| |done]. rewrite H2. split; [by intros []|by intros []]. }
  assert (audit_ok a3 ∧ (clean a3 ↔ clean a2 ∧ t_priority (T w cur) = p) ∧
    a_memberships a3 = a_memberships a1) as (Ha3 & Hc3 & Hm3).
  { subst a3. rewrite <-Hm2. destruct (Z.eqb_spec (t_priority (T w cur)) p) as [E|E]; simpl;
      [by split_and!; [done|tauto|]|].
    destruct (violation_if_spec true (a2 <| a_wrong_priorities ::= sat_incr_u8 |>)) as (H1 & H2 & H3);
      [exact Ha2|].
    split_and!; [done| |done]. rewrite H2. split; [by intros []|by intros []]. }
  assert (∀ i, mem a3 i = if decide (cur = i) then sat_incr_u8 (mem a cur) else mem a i) as Hmem.
  { intros i. unfold mem. rewrite Hm3. simpl. by rewrite at_alter. }
  fold (nx w cur). wp_apply (IH (nx w cur) cur a3); [|done|by apply Hu].
  - intros [[a' c'] l'] w' (-> & Ha' & Hfwd & Hbwd). split_and!; [done..| |].
    + intros Hcl. destruct (Hfwd Hcl) as (Hcl3 & l & Hl & Hend & [Hnd Hw] & Hcnt & ->).
      apply Hc3 in Hcl3 as [Hcl2 Hp]. apply Hc2 in Hcl2 as [Hcl0 Hm0]. split; [done|].
      assert (cur ∉ l) as Hnin.
      { intros Hi. destruct (Hw cur Hi) as (_ & _ & E). rewrite Hmem, decide_True, Hm0 in E by done.
        done. }
      exists (cur :: l). split_and!.
      * by split.
      * destruct Hend; [by left|right; simpl; lia].
      * split; [by apply NoDup_cons|]. intros i [->|Hi]%elem_of_cons; [done|].
        destruct (Hw i Hi) as (? & ? & E). rewrite Hmem, decide_False in E by congruence. done.
      * intros i. rewrite Hcnt, Hmem. destruct (decide (cur = i)) as [<-|Hni].
        -- rewrite decide_False, decide_True by set_solver. by rewrite Hm0.
        -- destruct (decide (i ∈ l)); [by rewrite decide_True by set_solver|].
           by rewrite decide_False by set_solver.
      * destruct (last_snoc_or_nil l) as [->|(l0 & y & ->)]; [done|].
        by rewrite app_comm_cons, !last_snoc.
    + intros [|x l] Hcl Hl Hn [Hnd Hw]; [by destruct Hne|]. destruct Hl as [<- Hl].
      apply NoDup_cons in Hnd as [Hnin Hnd]. apply (Hbwd l).
      * destruct (Hw cur) as (_ & ? & ?); [set_solver|]. by apply Hc3; split; [apply Hc2|].
      * done.
      * simpl in Hn. lia.
      * split; [done|]. intros i Hi. destruct (Hw i) as (? & ? & ?); [set_solver|].
        split_and!; [done..|]. rewrite Hmem, decide_False by (by intros ->). done.
Qed.

(** ** One priority, all priorities *)

Definition unseen (a : ReadyOwnershipAudit) (l : list Z) : Prop := ∀ i, i ∈ l → mem a i = 0.

Lemma ready_list_not_NIL w p l : ready_list w p l → NIL ∉ l.
Proof. intros (_ & _ & _ & H) Hi. by eapply slot_in_not_NIL; [apply H|]. Qed.

Lemma ready_list_unique w p l l' : ready_list w p l → ready_list w p l' → l = l'.
Proof.
  intros H H'. pose proof (ready_list_not_NIL _ _ _ H). pose proof (ready_list_not_NIL _ _ _ H').
  destruct H as [H _], H' as [H' _]. by eapply seg_functional.
Qed.

(** The end checks of a list agree with its tail. *)
Lemma list_ends w p l a :
  seg (nx w) (hd_of w (QReady p)) l NIL → walked w p a l →
  (xorb (hd_of w (QReady p) =? NIL) (tl_of w (QReady p) =? NIL) = false ∧
   (negb (tl_of w (QReady p) =? NIL) && (TASK_SLOT_COUNT <=? tl_of w (QReady p))) = false ∧
   (negb (hd_of w (QReady p) =? NIL) && negb (default NIL (last l) =? tl_of w (QReady p))) = false)
  ↔ tl_of w (QReady p) = default NIL (last l).
Proof.
  intros Hseg [_ Hw]. destruct (last_snoc_or_nil l) as [->|(l0 & y & ->)].
  - simpl in Hseg |- *. rewrite Hseg, Z.eqb_refl. simpl.
    destruct (Z.eqb_spec (tl_of w (QReady p)) NIL) as [->|]; simpl; split; [done..| |done].
    by intros (? & _).
  - rewrite last_snoc. simpl. destruct (Hw y) as [Hy _]; [set_solver|].
    pose proof (slot_in_not_NIL y Hy) as HyN. unfold slot_in in Hy.
    assert (hd_of w (QReady p) ≠ NIL) as Hh.
    { destruct l0 as [|z l0]; simpl in Hseg; destruct Hseg as [-> _]; [done|].
      apply slot_in_not_NIL. by apply Hw; set_solver. }
    apply Z.eqb_neq in Hh. rewrite Hh. simpl.
    destruct (Z.eqb_spec (tl_of w (QReady p)) NIL) as [E|E]; simpl.
    + split; [by intros (? & _)|]. intros Ht. congruence.
    + destruct (Z.eqb_spec y (tl_of w (QReady p))) as [Ey|Ey]; simpl.
      * rewrite <-Ey. destruct (Z.leb_spec TASK_SLOT_COUNT y); [lia|]. tauto.
      * split; [by intros (_ & _ & ?)|]. intros ?. congruence.
Qed.

Lemma audit_priority_spec w p a :
  shape w → links_unsigned w → audit_ok a → 0 <= p < PRIORITY_LEVELS →
  wp (audit_priority a p) (λ a' w', w' = w ∧ audit_ok a' ∧
    (clean a' ↔ clean a ∧ ∃ l, ready_list w p l ∧ unseen a l) ∧
    (clean a' → ∀ l, ready_list w p l → counted a a' l)) w.
Proof.
  intros Hs Hu Ha Hp. unfold audit_priority.
  assert (valid w (QReady p)) as Hv by done.
  set (h := hd_of w (QReady p)). set (tl := tl_of w (QReady p)). go. fold h tl.
  destruct (invalid_link_if_spec (xorb (h =? NIL) (tl =? NIL)) a Ha) as (Ha1 & Hc1 & Hm1).
  set (a1 := invalid_link_if _ a) in *.
  destruct (invalid_link_if_spec (negb (tl =? NIL) && (TASK_SLOT_COUNT <=? tl)) a1 Ha1)
    as (Ha2 & Hc2 & Hm2). set (a2 := invalid_link_if _ a1) in *.
  assert (∀ i, mem a2 i = mem a i) as Hm12 by (intros i; unfold mem; by rewrite Hm2, Hm1).
  wp_apply (audit_walk_spec task_slots_nat w p h NIL a2 Hs Hu Ha2); [|by apply Hu].
  intros [[a3 c] last3] w' (-> & Ha3 & Hfwd & Hbwd).
  destruct (invalid_link_if_spec (negb (c =? NIL) || (negb (h =? NIL) && negb (last3 =? tl))) a3 Ha3)
    as (Ha4 & Hc4 & Hm4). set (a4 := invalid_link_if _ a3) in *.
  assert (∃ b5, wp (if tl <? TASK_SLOT_COUNT then next ← tget t_next tl;
      mret (invalid_link_if (negb (next =? NIL)) a4) else mret a4)
      (λ a5 w', w' = w ∧ a5 = invalid_link_if b5 a4) w ∧
      b5 = (tl <? TASK_SLOT_COUNT) && negb (nx w tl =? NIL)) as (b5 & Hwp & Hb5).
  { destruct (Z.ltb_spec tl TASK_SLOT_COUNT); [|by exists false].
    assert (slot_in tl) by (split; [apply Hu|done]). eexists. split; [go|]; done. }
  eapply wp_mono; [|exact Hwp]. intros a5 w' [-> ->].
  destruct (invalid_link_if_spec b5 a4 Ha4) as (Ha5 & Hc5 & Hm5).
  assert (∀ l, walked w p a2 l ↔ walked w p a l) as Hwalk.
  { intros l. unfold walked. by setoid_rewrite Hm12. }
  assert (clean (invalid_link_if b5 a4) → clean a ∧ ∃ l, ready_list w p l ∧ unseen a l ∧ counted a a3 l)
    as Hforth.
  { intros Hcl. apply Hc5 in Hcl as [Hcl _]. apply Hc4 in Hcl as [Hcl3 [Hcn Hends]%orb_false_elim].
    apply negb_false_iff, Z.eqb_eq in Hcn. subst c.
    destruct (Hfwd Hcl3) as (Hcl2 & l & Hl & _ & Hw & Hcnt & ->).
    apply Hc2 in Hcl2 as [Hcl1 Ht]. apply Hc1 in Hcl1 as [Hcl0 Hx]. split; [done|].
    rewrite Hwalk in Hw. exists l. split_and!.
    - split_and!; [done|by apply (list_ends w p l a Hl Hw)|by apply Hw|].
      intros i Hi. by apply Hw in Hi as (? & ? & _).
    - intros i Hi. by apply Hw in Hi as (_ & _ & ?).
    - intros i. by rewrite Hcnt, Hm12. }
  split_and!; [done..| |].
  - split; [intros Hcl; destruct (Hforth Hcl) as (? & l & ? & ? & _); eauto|].
    intros (Hcl & l & Hl & Hun). pose proof Hl as (Hseg & Htl & Hnd & Hin).
    assert (walked w p a l) as Hw by (split; [done|]; intros i Hi; split_and!; [apply Hin..|]; auto).
    destruct (proj2 (list_ends w p l a Hseg Hw) Htl) as (E1 & E2 & E3).
    assert (clean a2) as Hcl2 by (apply Hc2; split; [by apply Hc1|done]).
    destruct (Hbwd l Hcl2 Hseg) as [Hcl3 ->]; [by apply slots_length; [|intros i Hi; apply Hin]|by apply Hwalk|].
    destruct (Hfwd Hcl3) as (_ & l' & Hl' & _ & [_ Hw'] & _ & ->).
    assert (l' = l) as ->.
    { eapply seg_functional; [done..| |by eapply ready_list_not_NIL].
      intros Hi. by eapply slot_in_not_NIL; [apply Hw'|]. }
    apply Hc5. split; [apply Hc4; split; [done|]|].
    + rewrite Z.eqb_refl. exact E3.
    + rewrite Hb5. fold tl in Htl. destruct (last_snoc_or_nil l) as [->|(l0 & y & ->)].
      * simpl in Htl. rewrite Htl. done.
      * rewrite last_snoc in Htl. simpl in Htl. rewrite Htl.
        apply seg_app in Hseg as (m & _ & _ & Hend). simpl in Hend. rewrite Hend, Z.eqb_refl.
        apply andb_false_r.
  - intros Hcl l Hl i. destruct (Hforth Hcl) as (_ & l' & Hl' & _ & Hcnt).
    rewrite (ready_list_unique w p l l' Hl Hl'). unfold mem. rewrite Hm5, Hm4. apply Hcnt.
Qed.

Definition counted_lists (a a' : ReadyOwnershipAudit) (w : World) (ps : list Z) (q : Z → list Z) : Prop :=
  ∀ i, mem a' i = if decide (t_priority (T w i) ∈ ps ∧ i ∈ q (t_priority (T w i))) then 1 else mem a i.

Lemma audit_priorities_spec w ps a :
  shape w → links_unsigned w → audit_ok a →
  (∀ p, p ∈ ps → 0 <= p < PRIORITY_LEVELS) → NoDup ps →
  wp (audit_priorities ps a) (λ a' w', w' = w ∧ audit_ok a' ∧
    (clean a' ↔ clean a ∧ ∃ q, ∀ p, p ∈ ps → ready_list w p (q p) ∧ unseen a (q p)) ∧
    (clean a' → ∀ q, (∀ p, p ∈ ps → ready_list w p (q p)) → counted_lists a a' w ps q)) w.
Proof.
  intros Hs Hu. revert a. induction ps as [|p ps IH]; intros a Ha Hps Hnd; cbn [audit_priorities].
  { go. split_and!; [done..| |].
    - split; [|by intros []]. intros ?. split; [done|]. exists (λ _, []). set_solver.
    - intros _ q _ i. by rewrite decide_False by set_solver. }
  apply NoDup_cons in Hnd as [Hnin Hnd].
  assert (0 <= p < PRIORITY_LEVELS) as Hp by (apply Hps; left).
  go. wp_apply (audit_priority_spec w p a); [|done..].
  intros a1 w' (-> & Ha1 & Hc1 & Hcnt1).
  wp_apply (IH a1 Ha1); [|intros p' Hp'; apply Hps; by right|done].
  intros a2 w' (-> & Ha2 & Hc2 & Hcnt2).
  assert (∀ l q, clean a1 → ready_list w p l → (∀ p, p ∈ ps → ready_list w p (q p)) →
    (∀ p', p' ∈ ps → unseen a1 (q p') ↔ unseen a (q p'))) as Hun.
  { intros l q Hcl Hl Hq p' Hp'. pose proof (Hcnt1 Hcl l Hl) as Hcnt. unfold unseen.
    assert (∀ i, i ∈ q p' → mem a1 i = mem a i) as Hsame.
    { intros i Hi. rewrite Hcnt, decide_False; [done|]. intros Hil.
      apply Hnin. destruct (Hq p' Hp') as (_ & _ & _ & H1), Hl as (_ & _ & _ & H2).
      destruct (H1 i Hi) as [_ <-], (H2 i Hil) as [_ <-]. done. }
    split; intros H i Hi; [rewrite <-Hsame by done|rewrite Hsame by done]; auto. }
  split_and!; [done..| |].
  - rewrite Hc2. split.
    + intros [Hcl1 (q & Hq)]. pose proof Hcl1 as Hcl1'. apply Hc1 in Hcl1' as [Hcl (l & Hl & Hul)].
      split; [done|]. exists (λ p', if decide (p' = p) then l else q p').
      intros p' [->|Hp']%elem_of_cons; [by rewrite decide_True|].
      rewrite decide_False by (by intros ->). split; [by apply Hq|].
      eapply (Hun l q); [done..|intros; by apply Hq|done|by apply Hq].
    + intros [Hcl (q & Hq)]. destruct (Hq p) as [Hl Hul]; [left|].
      assert (clean a1) as Hcl1 by (apply Hc1; eauto). split; [done|]. exists q.
      intros p' Hp'. destruct (Hq p') as [Hl' Hul']; [by right|]. split; [done|].
      eapply (Hun (q p) q); [done..|intros ? ?; apply Hq; by right|done|done].
  - intros Hcl q Hq i. pose proof Hcl as Hcl1. apply Hc2 in Hcl1 as [Hcl1 _].
    pose proof (Hq p ltac:(left)) as Hl.
    rewrite (Hcnt2 Hcl q) by (intros ? ?; apply Hq; by right). rewrite (Hcnt1 Hcl1 (q p) Hl).
    destruct (decide (i ∈ q p)) as [Hi|Hi].
    + destruct Hl as (_ & _ & _ & Hpr). destruct (Hpr i Hi) as [_ <-].
      rewrite (decide_True (P := _ ∈ _ :: _ ∧ _)) by (split; [left|done]). by case_decide.
    + destruct (decide (t_priority (T w i) ∈ ps ∧ i ∈ q (t_priority (T w i)))) as [Hd|Hd].
      * rewrite decide_True; [done|]. destruct Hd. split; [by right|done].
      * rewrite decide_False; [done|]. intros [[->|?]%elem_of_cons ?]; [|tauto]. congruence.
Qed.

(** ** The pending switch, the tasks and the running task *)

Lemma audit_pending_spec w a :
  shape w → links_unsigned w → audit_ok a →
  wp (audit_pending a) (λ r w', w' = w ∧ audit_ok r.1 ∧ a_memberships r.1 = a_memberships a ∧
    (clean r.1 ↔ clean a ∧ pending_valid w) ∧
    (clean r.1 → ∀ i, r.2 = Some i ↔ is_target w i)) w.
Proof.
  intros Hs Hu Ha. unfold audit_pending, pending_valid, is_target. go. fold (pending w).
  pose proof (violation_if_spec true a Ha) as (Hv & Hcv & _). simpl in Hv, Hcv.
  destruct (pending w) as [p|] eqn:Ep; [|go; split_and!; [done..|cbn; tauto|cbn; naive_solver]].
  destruct (Z.leb_spec TASK_SLOT_COUNT (ref_slot (ps_target p))) as [Hge|Hlt].
  - go. split_and!; [done..| |]; cbn [fst]; rewrite Hcv; [|by intros []].
    split; [by intros []|]. intros (_ & Hin & _). unfold slot_in in Hin. lia.
  - assert (slot_in (ref_slot (ps_target p))) as Hin by (split; [by eapply unsigned_target|done]).
    go. destruct (Z.eqb_spec (t_identity_generation (T w (ref_slot (ps_target p))))
      (ref_generation (ps_target p))) as [E|E]; cbn [negb]; go.
    + split_and!; [done..|cbn; tauto|]. cbn. intros _ i. naive_solver.
    + split_and!; [done..| |]; cbn [fst]; rewrite Hcv; [|by intros []].
      split; [by intros []|]. by intros (_ & _ & ?).
Qed.

(** What one iteration of the ownership loop accepts. *)
Definition task_clean (w : World) (pt : option Z) (m : Z) (i : Z) : Prop :=
  match t_state (T w i) with
  | Ready => if decide (i = IDLE_SLOT) then m = 0
             else saturating_add u8_max m (Z.b2z (bool_decide (pt = Some i))) = 1
  | Running => i = current w ∧ m = 0 ∧ pt ≠ Some i
  | _ => m = 0 ∧ pt ≠ Some i
  end.

Definition is_running (w : World) (i : Z) : Prop := t_state (T w i) = Running.
#[export] Instance is_running_dec w i : Decision (is_running w i).
Proof. unfold is_running. apply _. Defined.

Lemma violation_if_or b a (P : Prop) :
  audit_ok a → (b = false ↔ P) →
  audit_ok (violation_if b a) ∧ (clean (violation_if b a) ↔ clean a ∧ P) ∧
  a_memberships (violation_if b a) = a_memberships a.
Proof. intros Ha HP. destruct (violation_if_spec b a Ha) as (H1 & H2 & H3). rewrite H2, HP. done. Qed.

Lemma queued_pending_false m (pt : option Z) i :
  negb (m =? 0) || bool_decide (pt = Some i) = false ↔ m = 0 ∧ pt ≠ Some i.
Proof. rewrite orb_false_iff, negb_false_iff, Z.eqb_eq, bool_decide_eq_false. done. Qed.

Lemma audit_task_spec w pt i a n :
  shape w → audit_ok a → slot_in i →
  wp (audit_task pt i (a, n)) (λ r w', w' = w ∧ audit_ok r.1 ∧ a_memberships r.1 = a_memberships a ∧
    (clean r.1 ↔ clean a ∧ task_clean w pt (mem a i) i) ∧
    r.2 = if decide (is_running w i) then sat_incr_u8 n else n) w.
Proof.
  intros Hs Ha Hi. unfold audit_task, task_clean.
  assert (in_range (a_memberships a) i) as Hr by (destruct Ha as (_ & ? & _), Hi; unfold in_range; lia).
  go. eapply wp_expect; [by apply (idx_at 0)|]. go. fold (mem a i) (current w).
  set (m := mem a i).
  assert (wp (mret (violation_if (negb (m =? 0) || bool_decide (pt = Some i)) a, n) :
      M World (ReadyOwnershipAudit * Z))
    (λ r w', w' = w ∧ audit_ok r.1 ∧ a_memberships r.1 = a_memberships a ∧
      (clean r.1 ↔ clean a ∧ m = 0 ∧ pt ≠ Some i) ∧
      r.2 = n) w) as Hidle.
  { go. destruct (violation_if_or _ a _ Ha (queued_pending_false m pt i)) as (H1 & H2 & H3).
    split_and!; done. }
  assert (is_running w i ↔ t_state (T w i) = Running) as Hrun by done.
  destruct (decide (is_running w i)) as [Hd|Hd]; rewrite Hrun in Hd;
    (destruct (t_state (T w i)) eqn:Es; try done).
  - go. match goal with |- context [violation_if ?b a] =>
      destruct (violation_if_spec b a Ha) as (H1 & H2 & H3) end.
    cbn [fst snd]. split_and!; [done..| |done].
    rewrite H2, <-orb_assoc, orb_false_iff, queued_pending_false, negb_false_iff, Z.eqb_eq. done.
  - destruct (Z.eqb_spec i IDLE_SLOT) as [->|Hne]; go.
    + rewrite decide_True by done.
      destruct (violation_if_spec (negb (m =? 0)) a Ha) as (H1 & H2 & H3).
      match goal with |- context [violation_if ?b (violation_if _ a)] =>
        destruct (violation_if_spec b _ H1) as (H4 & H5 & H6) end.
      cbn [fst snd]. split_and!; [done..|congruence| |done].
      rewrite H5, H2, negb_false_iff, Z.eqb_eq, andb_false_iff, negb_false_iff, Z.eqb_eq. tauto.
    + rewrite decide_False by done. match goal with |- context [violation_if ?b a] =>
        destruct (violation_if_spec b a Ha) as (H1 & H2 & H3) end.
      cbn [fst snd]. split_and!; [done..| |done].
      by rewrite H2, negb_false_iff, Z.eqb_eq.
Qed.

Definition running_in (w : World) (ts : list Z) : list Z := filter (is_running w) ts.

Lemma audit_tasks_spec w pt ts a n :
  shape w → audit_ok a → (∀ i, i ∈ ts → slot_in i) →
  0 <= n → n + Z.of_nat (length ts) <= u8_max →
  wp (audit_tasks pt ts (a, n)) (λ r w', w' = w ∧ audit_ok r.1 ∧
    (clean r.1 ↔ clean a ∧ ∀ i, i ∈ ts → task_clean w pt (mem a i) i) ∧
    r.2 = n + Z.of_nat (length (running_in w ts))) w.
Proof.
  intros Hs. revert a n. induction ts as [|t ts IH]; intros a n Ha Hts Hn Hlen; cbn [audit_tasks].
  { go. cbn. split_and!; [done..|set_solver|lia]. }
  go. wp_apply (audit_task_spec w pt t a n Hs Ha); [|apply Hts; left].
  intros [a1 n1] w' (-> & Ha1 & Hm1 & Hc1 & Hn1). cbn [fst snd length] in *.
  assert (0 <= n1 ∧ n1 + Z.of_nat (length ts) <= u8_max ∧
    n1 = n + Z.of_nat (length (running_in w [t]))) as (? & ? & Hn1').
  { unfold running_in. rewrite filter_cons, filter_nil. subst n1.
    case_decide; simpl; mlia. }
  wp_apply (IH a1 n1 Ha1); [|intros i Hi; apply Hts; by right|done|done].
  intros [a2 n2] w' (-> & Ha2 & Hc2 & Hn2). cbn [fst snd] in *. split_and!; [done..| |].
  - rewrite Hc2, Hc1.
    assert (∀ i, mem a1 i = mem a i) as Hm by (intros i; unfold mem; by rewrite Hm1).
    split.
    + intros [[? ?] Hall]. split; [done|]. intros i [->|Hi]%elem_of_cons; [done|].
      rewrite <-Hm. auto.
    + intros [? Hall]. split_and!; [done|apply Hall; left|]. intros i Hi. rewrite Hm.
      apply Hall. by right.
  - rewrite Hn2, Hn1'. unfold running_in. change (t :: ts) with ([t] ++ ts).
    rewrite filter_app, length_app. lia.
Qed.

(** At most one task, the current one, is running when every task is clean. *)
Lemma running_count w pt a :
  (∀ i, slot_in i → task_clean w pt (mem a i) i) →
  let n := Z.of_nat (length (running_in w (range 0 TASK_SLOT_COUNT))) in
  (n = 0 ↔ ∀ i, slot_in i → t_state (T w i) ≠ Running) ∧
  (slot_in (current w) → (n = 1 ↔ t_state (T w (current w)) = Running)).
Proof.
  intros Hcl n.
  assert (∀ i, i ∈ running_in w (range 0 TASK_SLOT_COUNT) ↔ slot_in i ∧ t_state (T w i) = Running) as Hin.
  { intros i. unfold running_in. rewrite list_elem_of_filter, elem_of_range.
    unfold is_running, slot_in. tauto. }
  assert (∀ i, i ∈ running_in w (range 0 TASK_SLOT_COUNT) → i = current w) as Hcur.
  { intros i [Hi Hr]%Hin. specialize (Hcl i Hi). unfold task_clean in Hcl. rewrite Hr in Hcl. tauto. }
  assert (NoDup (running_in w (range 0 TASK_SLOT_COUNT))) as Hnd by apply NoDup_filter, NoDup_range.
  subst n. destruct (running_in w _) as [|x [|y l]]; cbn [length].
  - split; [split; [|done]|].
    + intros _ i Hi Hr. assert (i ∈ ([] : list Z)) by (by apply Hin). set_solver.
    + intros Hi. split; [done|]. intros Hr. assert (current w ∈ ([] : list Z)) by (by apply Hin).
      set_solver.
  - assert (x ∈ [x]) as Hx by left. pose proof (Hcur x Hx) as ->. apply Hin in Hx as [Hx Hr].
    split; [split; [lia|]|]; [|done]. intros H. by destruct (H _ Hx).
  - exfalso. rewrite (Hcur x), (Hcur y) in Hnd by set_solver.
    apply NoDup_cons in Hnd as [Hn _]. set_solver.
Qed.

Lemma audit_started_spec w a n :
  shape w → links_unsigned w → audit_ok a →
  (clean a → (n = 0 ↔ ∀ i, slot_in i → t_state (T w i) ≠ Running) ∧
    (slot_in (current w) → (n = 1 ↔ t_state (T w (current w)) = Running))) →
  wp (audit_started (a, n)) (λ a' w', w' = w ∧ (clean a' ↔ clean a ∧ running_ok w)) w.
Proof.
  intros Hs Hu Ha Hn. unfold audit_started, running_ok. go. cbn [id].
  destruct (s_started (w_sched w)); [|go; split; [done|]; split; [by split|by intros []]].
  fold (pending w) (current w).
  assert ((TASK_SLOT_COUNT <=? current w) = false ↔ slot_in (current w)) as Hslot.
  { pose proof (unsigned_current w Hu). unfold slot_in. rewrite Z.leb_gt. lia. }
  destruct (pending w) as [p|]; go.
  - split; [done|]. match goal with |- context [violation_if ?b a] =>
      destruct (violation_if_spec b a Ha) as (_ & -> & _) end.
    rewrite !orb_false_iff, !negb_false_iff, !Z.eqb_eq, Hslot. split.
    + intros (Hcl & ((H0 & Hcur) & Hin) & _). destruct (Hn Hcl) as [Hn0 _]. tauto.
    + intros (Hcl & Hrest). destruct (Hrest eq_refl) as (Hin & Hcur & Hno).
      destruct (Hn Hcl) as [Hn0 _]. split_and!; [done|tauto|done..|].
      rewrite (idx_at Tcb_empty) by (by apply shape_in). apply bool_decide_eq_false. by apply Hno.
  - destruct (negb (n =? 1) || (TASK_SLOT_COUNT <=? current w)) eqn:E; go.
    + destruct (violation_if_spec true a Ha) as (_ & Hv & _). simpl in Hv. split; [done|].
      rewrite Hv. split; [by intros []|]. intros (Hcl & Hrest). destruct (Hrest eq_refl) as [Hin Hr].
      apply Hn in Hcl as [_ H1]. apply (H1 Hin) in Hr. apply orb_true_iff in E as [E|E].
      * rewrite Hr in E. done.
      * apply Hslot in Hin. congruence.
    + apply orb_false_iff in E as [E1 E2]. apply Hslot in E2.
      eapply wp_expect; [by apply (idx_at Tcb_empty), shape_in|]. go. split; [done|].
      match goal with |- context [violation_if ?b a] =>
        destruct (violation_if_spec b a Ha) as (_ & -> & _) end.
      rewrite negb_false_iff. unfold state_eqb. rewrite bool_decide_eq_true.
      fold (T w (current w)). tauto.
Qed.

(** ** The verdict *)

Lemma mem_empty i : mem ReadyOwnershipAudit_empty i = 0.
Proof.
  unfold mem, at_. simpl a_memberships. rewrite (idx_replicate 17 0). by case_match.
Qed.

Lemma lists_ok_priorities w q :
  lists_ok w q ↔ ∀ p, p ∈ priorities → ready_list w p (q p) ∧ unseen ReadyOwnershipAudit_empty (q p).
Proof.
  unfold lists_ok, priorities. split.
  - intros H p Hp%elem_of_range. split; [auto|]. intros i _. apply mem_empty.
  - intros H p Hp. by apply H, elem_of_range.
Qed.

Lemma in_lists_mem w q a i :
  lists_ok w q → counted_lists ReadyOwnershipAudit_empty a w priorities q →
  (in_lists q i ↔ mem a i = 1) ∧ (¬ in_lists q i ↔ mem a i = 0).
Proof.
  intros Hq Hc.
  assert (in_lists q i ↔ t_priority (T w i) ∈ priorities ∧ i ∈ q (t_priority (T w i))) as Hin.
  { unfold in_lists, priorities. rewrite elem_of_range. split; [|eauto].
    intros (p & Hp & Hi). destruct (Hq p Hp) as (_ & _ & _ & H). by destruct (H i Hi) as [_ ->]. }
  rewrite Hin, Hc. case_decide; rewrite ?mem_empty; naive_solver.
Qed.

Lemma task_clean_owner w q a pt i :
  lists_ok w q → counted_lists ReadyOwnershipAudit_empty a w priorities q →
  (∀ j, pt = Some j ↔ is_target w j) → (task_clean w pt (mem a i) i ↔ owner_ok w q i).
Proof.
  intros Hq Hc Hpt. destruct (in_lists_mem w q a i Hq Hc) as [H1 H0].
  assert (mem a i = 0 ∨ mem a i = 1) as Hm by (rewrite Hc; case_decide; rewrite ?mem_empty; auto).
  unfold task_clean, owner_ok. destruct (t_state (T w i)); rewrite ?H0, <-?Hpt; try done.
  case_decide; [by rewrite H0|]. rewrite H1, <-Hpt.
  case_bool_decide as Hp; destruct Hm as [-> | ->]; unfold saturating_add, u8_max; simpl; naive_solver.
Qed.

(** C40: the ownership audit is exact (RTOS-STATE-004). On any snapshot whatsoever --
    including one whose heads, tails and links are damaged, cyclic or out of
    range -- the audit ends without a panic and changes nothing, and its violation
    count is zero exactly when the ownership rule holds: every ready list is
    properly linked, ended and of its priority, the pending switch names a live
    target, every ready task is in exactly one of its queue and the pending
    switch, no other task is in either, and a started scheduler has exactly the
    running task its state calls for. *)
Theorem audit_exact (w : World) :
  shape w → links_unsigned w →
  wp ready_ownership_audit (λ a w', w' = w ∧ (a_violations a = 0 ↔ ready_ownership w)) w.
Proof.
  intros Hs Hu. unfold ready_ownership_audit. go.
  assert (audit_ok ReadyOwnershipAudit_empty) as H0
    by (split_and!; [done..|intros i; by rewrite mem_empty]).
  wp_apply (audit_priorities_spec w priorities _ Hs Hu H0);
    [|intros p; apply elem_of_range|apply NoDup_range].
  intros a1 w' (-> & Ha1 & Hc1 & Hcnt1). go.
  wp_apply (audit_pending_spec w a1 Hs Hu Ha1).
  intros [a2 pt] w' (-> & Ha2 & Hm2 & Hc2 & Hpt). cbn [fst snd] in *. go.
  wp_apply (audit_tasks_spec w pt (range 0 TASK_SLOT_COUNT) a2 0 Hs Ha2);
    [|intros i; apply elem_of_range|done|done].
  intros [a3 n] w' (-> & Ha3 & Hc3 & Hn3). cbn [fst snd] in *.
  assert ((∀ i, i ∈ range 0 TASK_SLOT_COUNT → task_clean w pt (mem a2 i) i) ↔
    ∀ i, slot_in i → task_clean w pt (mem a2 i) i) as Hall.
  { split; intros H i Hi; apply H; by apply elem_of_range. }
  wp_apply (audit_started_spec w a3 n Hs Hu Ha3).
  - intros a4 w' [-> Hc4]. split; [done|]. fold (clean a4).
    assert (∀ i, mem a2 i = mem a1 i) as Hm by (intros i; unfold mem; by rewrite Hm2).
    rewrite Hc4, Hc3, Hall, Hc2. split.
    + intros (((Hcl1 & Hpv) & Hts) & Hrun). pose proof Hcl1 as Hcl. apply Hc1 in Hcl as (_ & q & Hq).
      apply lists_ok_priorities in Hq. exists q. split_and!; [done..| |done]. intros i Hi.
      eapply (task_clean_owner w q a1 pt); [done|by apply Hcnt1; [|by apply lists_ok_priorities]| |].
      * by apply Hpt, Hc2.
      * rewrite <-Hm. auto.
    + intros (q & Hq & Hpv & How & Hrun).
      assert (clean a1) as Hcl1 by (apply Hc1; split; [done|]; exists q; by apply lists_ok_priorities).
      split_and!; [done..| |done]. intros i Hi. rewrite Hm.
      eapply (task_clean_owner w q a1 pt); [done|by apply Hcnt1; [|by apply lists_ok_priorities]| |auto].
      by apply Hpt, Hc2.
  - intros Hcl. subst n. apply (running_count w pt a2). apply Hall. by apply Hc3.
Qed.

Lemma World_new_unsigned n : links_unsigned (World_new n).
Proof.
  assert (0 <= NIL) as HN by done.
  split; [intros p|intros p|intros i|done|done]; unfold hd_of, tl_of, nx, T; simpl; unfold at_.
  - rewrite (idx_replicate 32 NIL). by case_match.
  - rewrite (idx_replicate 32 NIL). by case_match.
  - rewrite (idx_replicate 17 Tcb_empty). by case_match.
Qed.

Lemma links_unsigned_link w x v :
  shape w → slot_in x → 0 <= v → links_unsigned w → links_unsigned (link x v w).
Proof.
  intros Hs Hx Hv [H1 H2 H3 H4 H5]. split; [done..| |done|done].
  intros i. rewrite nx_link by done. case_decide; [done|apply H3].
Qed.

(** A store whose task 2 is linked to itself. *)
Definition witness_cycle : World := put_head (QReady 31) 2 (link 2 2 (World_new 4)).

Lemma audit_exact_witness :
  wp ready_ownership_audit (λ a w', w' = witness_cycle ∧
    (a_violations a = 0 ↔ ready_ownership witness_cycle)) witness_cycle ∧
  wp ready_ownership_audit (λ a _, a_violations a = 19) witness_cycle.
Proof.
  split; [|by vm_compute].
  assert (shape (World_new 4)) as Hs by apply (queues_shape _ _ (World_new_queues 4)).
  assert (slot_in 2) as H2 by (unfold slot_in; rewrite slot_count_value; lia).
  apply (audit_exact witness_cycle).
  - unfold witness_cycle. eauto with store.
  - pose proof (links_unsigned_link _ 2 2 Hs H2 ltac:(lia) (World_new_unsigned 4)) as [A1 A2 A3 A4 A5].
    unfold witness_cycle. split; [|done|done|done|done].
    intros p. rewrite hd_put_head by (eauto with store || done). case_decide; [lia|apply A1].
Defined.
