(* ===== verification/Wait.v ===== *)
(** * Wait queues ([src/runtime/sync.rs])

    A semaphore and a mutex each keep their waiters in priority order, first come
    first served within a priority. The source writes the queue operations once
    per object type with the same body; here the body is stated once over a queue
    name and instantiated for both. *)

From stdpp Require Import sorting.
From S2P Require Import Prelude Effects Budget Contract Config Context Reservation.
From S2P Require Import Tcb Store Chain Ready.

(** The [while] loop of [enqueue_waiter]: [previous] and [current] at its end. *)
Fixpoint enqueue_find (fuel : nat) (priority previous current : Z) : M World (Z * Z) :=
  match fuel with
  | O => fail Hung
  | S fuel =>
      if current =? NIL then mret (previous, current)
      else
        p ← tget t_priority current;
        if p <=? priority then
          next ← tget t_next current;
          enqueue_find fuel priority current next
        else mret (previous, current)
  end.

Definition enqueue_by_priority (id : qid) (task : Z) : M World unit :=
  priority ← tget t_priority task;
  head ← get_head id;
  r ← enqueue_find (S task_slots_nat) priority NIL head;
  let '(previous, current) := r : Z * Z in
  set_next task current ;;
  (if previous =? NIL then set_head id task else set_next previous task) ;;
  when (current =? NIL) (set_tail id task).

(** The bounded [for] loop of [remove_waiter] and the assertion behind it. *)
Fixpoint remove_loop (n : nat) (id : qid) (task previous current : Z) : M World unit :=
  match n with
  | O => assert_ (current =? NIL)
  | S n =>
      if current =? NIL then mret tt
      else if current =? task then
        next ← tget t_next current;
        (if previous =? NIL then set_head id next else set_next previous next) ;;
        tail ← get_tail id;
        when (tail =? current) (set_tail id previous) ;;
        set_next current NIL
      else
        next ← tget t_next current;
        remove_loop n id task current next
  end.
Definition remove_from (id : qid) (task : Z) : M World unit :=
  head ← get_head id; remove_loop task_slots_nat id task NIL head.

Definition pop_waiter (id : qid) : M World Z :=
  task ← get_head id;
  when (negb (task =? NIL))
    (next ← tget t_next task;
     set_head id next ;;
     head ← get_head id;
     when (head =? NIL) (set_tail id NIL) ;;
     set_next task NIL) ;;
  mret task.

Definition enqueue_waiter (sem task : Z) : M World unit := enqueue_by_priority (QSem sem) task.
Definition remove_waiter (sem task : Z) : M World unit := remove_from (QSem sem) task.
Definition enqueue_mutex_waiter (mutex task : Z) : M World unit := enqueue_by_priority (QMtx mutex) task.
Definition remove_mutex_waiter (mutex task : Z) : M World unit := remove_from (QMtx mutex) task.
Definition pop_mutex_waiter (mutex : Z) : M World Z := pop_waiter (QMtx mutex).

(** Follows the wait-for chain from [owner]. *)
Fixpoint chain_contains (n : nat) (owner sought : Z) : M World bool :=
  match n with
  | O => mret true
  | S n =>
      if owner =? sought then mret true
      else
        waiting ← tget t_waiting_mutex owner;
        if waiting =? 0 then mret false
        else
          state ← mutex_at waiting;
          if state.(mtx_owner) =? NIL then mret false
          else chain_contains n state.(mtx_owner) sought
  end.
Definition mutex_chain_contains (owner sought : Z) : M World bool :=
  chain_contains task_slots_nat owner sought.

(** ** Specifications over the abstract queues *)

(** Stable insertion: behind every task of the same or a better priority. *)
Fixpoint place (pr : Z → Z) (x : Z) (l : list Z) : list Z :=
  match l with
  | [] => [x]
  | y :: l => if pr y <=? pr x then y :: place pr x l else x :: y :: l
  end.

Lemma place_split pr x l :
  ∃ l1 l2, l = l1 ++ l2 ∧ place pr x l = l1 ++ x :: l2 ∧ (∀ y, y ∈ l1 → pr y <= pr x) ∧
    (∀ y l3, l2 = y :: l3 → pr x < pr y).
Proof.
  induction l as [|z l (l1 & l2 & -> & Hp & H1 & H2)]; simpl.
  - exists [], []. split_and!; try done. set_solver.
  - destruct (Z.leb_spec (pr z) (pr x)).
    + exists (z :: l1), l2. rewrite Hp. split_and!; try done. intros y [->|Hy]%elem_of_cons; auto.
    + exists [], (z :: l1 ++ l2). split_and!; try done; [set_solver|]. by intros y l3 [= <- _].
Qed.

Lemma enqueue_find_spec fuel w q id priority l1 l2 l3 :
  queues w q → valid w id → q id = l1 ++ l2 ++ l3 →
  (∀ y, y ∈ l2 → t_priority (T w y) <= priority) →
  (∀ y l, l3 = y :: l → priority < t_priority (T w y)) →
  (length l2 < fuel)%nat →
  wp (enqueue_find fuel priority (default NIL (last l1)) (default NIL (head (l2 ++ l3))))
    (λ r w', w' = w ∧ r = (default NIL (last (l1 ++ l2)), default NIL (head l3))) w.
Proof.
  intros Hq Hv. pose proof (queues_shape w q Hq) as Hs. revert l1 l2.
  induction fuel as [|fuel IH]; intros l1 l2 E H2 H3 Hf; [lia|]. cbn [enqueue_find].
  destruct l2 as [|x l2].
  - rewrite app_nil_r. destruct l3 as [|y l3]; cbn [app head default].
    + rewrite Z.eqb_refl. by go.
    + assert (slot_in y) as Hy by (eapply (queues_slot w q Hq id); rewrite E; set_solver).
      pose proof (slot_in_not_NIL y Hy) as HyN. apply Z.eqb_neq in HyN. cbn. rewrite HyN. go.
      specialize (H3 y l3 eq_refl). destruct (Z.leb_spec (t_priority (T w y)) priority); [lia|].
      by go.
  - assert (slot_in x) as Hx by (eapply (queues_slot w q Hq id); rewrite E; set_solver).
    pose proof (slot_in_not_NIL x Hx) as HxN. apply Z.eqb_neq in HxN. cbn. rewrite HxN. go.
    destruct (Z.leb_spec (t_priority (T w x)) priority) as [|Hgt]; last first.
    { specialize (H2 x ltac:(left)). lia. }
    go. fold (nx w x). rewrite (queues_next_in w q id l1 x (l2 ++ l3)) by done.
    specialize (IH (l1 ++ [x]) l2). rewrite last_snoc, <-!app_assoc in IH. apply IH; [done| |done|].
    + intros y Hy. apply H2. by right.
    + simpl in Hf. lia.
Qed.

Lemma enqueue_spec w q id task :
  queues w q → valid w id → slot_in task → detached q task →
  wp (enqueue_by_priority id task) (λ _ w',
    queues w' (qset id (place (λ i, t_priority (T w i)) task (q id)) q) ∧ core w' = core w) w.
Proof.
  intros Hq Hv Ht Hd. pose proof (queues_shape w q Hq) as Hs. unfold enqueue_by_priority. go.
  rewrite (queues_head w q id) by done.
  destruct (place_split (λ i, t_priority (T w i)) task (q id)) as (l1 & l2 & E & Hp & H1 & H2).
  rewrite E at 1.
  wp_apply (enqueue_find_spec (S task_slots_nat) w q id (t_priority (T w task)) [] l1 l2 Hq Hv);
    [|done|done|done|].
  2:{ pose proof (queue_length w q id Hq) as Hlen. rewrite E, length_app in Hlen.
      unfold task_slots_nat. lia. }
  intros r w' [-> ->]. cbn [app].
  pose proof (queues_insert w q id l1 task l2 Hq Hv Ht Hd E) as Hfin. cbv zeta in Hfin.
  rewrite Hp. set (prev := default NIL (last l1)) in *. set (cur := default NIL (head l2)) in *.
  assert (prev ≠ NIL → slot_in prev) as Hprev.
  { subst prev. destruct (last_snoc_or_nil l1) as [->|(l0 & y & ->)]; [done|]. rewrite last_snoc.
    intros _. eapply (queues_slot w q Hq id). rewrite E. set_solver. }
  unfold set_next. go. change (upd_task task _ w) with (link task cur w).
  destruct (Z.eqb_spec prev NIL) as [Ep|Ep].
  - go. apply wp_when; intros Hc; rewrite Hc in Hfin; go; (split; [exact Hfin|]);
      rewrite ?core_put_tail, core_put_head; apply core_link.
  - specialize (Hprev Ep). go.
    apply wp_when; intros Hc; rewrite Hc in Hfin; go; (split; [exact Hfin|]);
      rewrite ?core_put_tail, core_set_next; apply core_link.
Qed.

Lemma remove_loop_spec n w q id task l1 l2 :
  queues w q → valid w id → q id = l1 ++ l2 → task ∉ l1 → (length l2 <= n)%nat →
  wp (remove_loop n id task (default NIL (last l1)) (default NIL (head l2)))
    (λ _ w', (task ∈ l2 → queues w' (qset id (without task (q id)) q)) ∧
       (task ∉ l2 → w' = w) ∧ core w' = core w) w.
Proof.
  intros Hq Hv. pose proof (queues_shape w q Hq) as Hs. revert l1 l2.
  induction n as [|n IH]; intros l1 l2 E Hn Hf; cbn [remove_loop].
  { destruct l2; [|simpl in Hf; lia]. apply wp_assert; [done|]. set_solver. }
  destruct l2 as [|x l2]; cbn [head default].
  { rewrite Z.eqb_refl. go. set_solver. }
  assert (slot_in x) as Hx by (eapply (queues_slot w q Hq id); rewrite E; set_solver).
  pose proof (slot_in_not_NIL x Hx) as HxN. apply Z.eqb_neq in HxN. cbn. rewrite HxN.
  pose proof (queues_nodup w q Hq id) as Hnd. rewrite E in Hnd.
  destruct (Z.eqb_spec x task) as [->|Hne].
  - eapply wp_unlink; [done..|]. intros w' Hq' Hc. rewrite E, without_split by done.
    split_and!; [done|set_solver|done].
  - go. fold (nx w x). rewrite (queues_next_in w q id l1 x l2) by done.
    specialize (IH (l1 ++ [x]) l2). rewrite last_snoc in IH. wp_apply IH.
    + intros _ w' (H1 & H2 & H3). split_and!; [|intros Hn2; apply H2; set_solver|done].
      intros Ht. apply H1. set_solver.
    + by rewrite <-app_assoc.
    + set_solver.
    + simpl in Hf. lia.
Qed.

Lemma remove_spec w q id task :
  queues w q → valid w id →
  wp (remove_from id task) (λ _ w', core w' = core w ∧
    (task ∈ q id → queues w' (qset id (without task (q id)) q)) ∧ (task ∉ q id → w' = w)) w.
Proof.
  intros Hq Hv. pose proof (queues_shape w q Hq) as Hs. unfold remove_from. go.
  rewrite (queues_head w q id) by done.
  wp_apply (remove_loop_spec task_slots_nat w q id task [] (q id)); try done.
  - intros _ w' (H1 & H2 & H3). done.
  - set_solver.
  - by eapply queue_length.
Qed.

Lemma pop_waiter_spec w q id :
  queues w q → valid w id →
  wp (pop_waiter id) (λ x w', core w' = core w ∧
    match q id with
    | [] => x = NIL ∧ w' = w
    | y :: l => x = y ∧ slot_in y ∧ queues w' (qset id l q)
    end) w.
Proof.
  intros Hq Hv. pose proof (queues_shape w q Hq) as Hs. unfold pop_waiter. go.
  rewrite (queues_head w q id) by done. destruct (q id) as [|x l] eqn:E; cbn [head default].
  - rewrite Z.eqb_refl. by go.
  - assert (slot_in x) as Hx by (eapply (queues_slot w q Hq id); rewrite E; set_solver).
    pose proof (slot_in_not_NIL x Hx) as HxN. apply Z.eqb_neq in HxN. cbn. rewrite HxN.
    cbn [negb when]. eapply wp_unlink_head; [done..|]. intros w' Hq' Hc. by go.
Qed.

(** ** A wait queue is a stable priority queue *)

(** The queue is the arrivals, stably sorted by priority. *)
Record sorted_arrivals (pr : Z → Z) (l arrival : list Z) : Prop := {
  sorted_perm : l ≡ₚ arrival;
  sorted_order : StronglySorted (λ x y, pr x <= pr y) l;
  sorted_stable p : filter (λ i, pr i = p) l = filter (λ i, pr i = p) arrival;
}.

Lemma StronglySorted_filter_Z (R : Z → Z → Prop) P `{∀ x, Decision (P x)} (l : list Z) :
  StronglySorted R l → StronglySorted R (filter P l).
Proof.
  induction 1 as [|x l Hl IH Hx]; [constructor|]. rewrite filter_cons. case_decide; [|done].
  constructor; [done|]. rewrite Forall_forall in Hx |- *. intros y [_ Hy]%list_elem_of_filter. auto.
Qed.

Lemma sorted_place pr l arrival x :
  sorted_arrivals pr l arrival → sorted_arrivals pr (place pr x l) (arrival ++ [x]).
Proof.
  intros [Hp Ho Hs]. destruct (place_split pr x l) as (l1 & l2 & -> & -> & H1 & H2).
  assert (∀ y, y ∈ l2 → pr x < pr y) as H2'.
  { intros y Hy. destruct l2 as [|z l2]; [set_solver|]. specialize (H2 z l2 eq_refl).
    apply StronglySorted_app in Ho as (_ & _ & Hz).
    apply StronglySorted_inv in Hz as [_ Hz]. rewrite Forall_forall in Hz.
    apply elem_of_cons in Hy as [->|Hy]; [done|]. specialize (Hz y Hy). simpl in Hz. lia. }
  split.
  - rewrite <-Permutation_middle, Hp. apply Permutation_cons_append.
  - apply StronglySorted_app in Ho as (Hlow & Ho1 & Ho2). apply StronglySorted_app.
    split_and!; [|done|].
    + intros a b Ha [->|Hb]%elem_of_cons; auto.
    + apply StronglySorted_cons. split; [|done]. apply Forall_forall. intros y Hy.
      specialize (H2' y Hy). simpl. lia.
  - intros p. specialize (Hs p). rewrite filter_app in Hs |- *. rewrite filter_app, <-Hs.
    rewrite !filter_cons, filter_nil. destruct (decide (pr x = p)) as [<-|]; [|by rewrite app_nil_r].
    assert (filter (λ i, pr i = pr x) l2 = []) as ->; [|by rewrite app_nil_r].
    clear -H2'. induction l2 as [|y l2 IH]; [done|]. rewrite filter_cons.
    pose proof (H2' y ltac:(left)). rewrite decide_False by lia. apply IH. intros z Hz. apply H2'. by right.
Qed.

Lemma sorted_without pr l arrival x :
  sorted_arrivals pr l arrival → sorted_arrivals pr (without x l) (without x arrival).
Proof.
  intros [Hp Ho Hs]. split.
  - unfold without. by rewrite Hp.
  - by apply StronglySorted_filter_Z.
  - intros p. by rewrite <-!without_filter, Hs.
Qed.

Lemma sorted_first_best pr l arrival :
  sorted_arrivals pr l arrival → first_best pr arrival = head l.
Proof.
  intros [Hp Ho Hs]. pose proof (first_best_spec pr arrival) as Hb.
  destruct (first_best pr arrival) as [x|].
  - destruct Hb as (Hx & Hmin & l' & Hl'). destruct l as [|y l].
    { apply Permutation_nil_l in Hp. subst. set_solver. }
    simpl. f_equal. assert (pr y = pr x) as E.
    { assert (y ∈ arrival) as Hy by (rewrite <-Hp; left). specialize (Hmin y Hy).
      rewrite <-Hp in Hx. apply elem_of_cons in Hx as [->|Hx]; [done|].
      apply StronglySorted_inv in Ho as [_ Ho]. rewrite Forall_forall in Ho.
      specialize (Ho x Hx). simpl in Ho. lia. }
    specialize (Hs (pr x)). rewrite filter_cons, decide_True, Hl' in Hs by done. congruence.
  - subst. by apply Permutation_nil_r in Hp as ->.
Qed.

Inductive wait_op := WEnqueue (i : Z) | WPop | WRemove (i : Z).

Definition wait_exec (id : qid) (op : wait_op) : M World ready_result :=
  match op with
  | WEnqueue i => enqueue_by_priority id i ;; mret RUnit
  | WPop => i ← pop_waiter id; mret (RTask i)
  | WRemove i => remove_from id i ;; mret RUnit
  end.

Fixpoint wait_run (id : qid) (ops : list wait_op) : M World (list ready_result) :=
  match ops with
  | [] => mret []
  | op :: ops => r ← wait_exec id op; rs ← wait_run id ops; mret (r :: rs)
  end.

(** The operation of the abstract queue of [Ready]. *)
Definition as_ready_op (op : wait_op) : ready_op :=
  match op with WEnqueue i => RPush i | WPop => RPop | WRemove i => RRemove i end.

(** Only tasks in no queue are enqueued; [others] are the tasks queued elsewhere. *)
Fixpoint wait_legal (pr : Z → Z) (others : Z → Prop) (ops : list wait_op) (arrival : list Z) : Prop :=
  match ops with
  | [] => True
  | op :: ops =>
      match op with
      | WEnqueue i => slot_in i ∧ (i ∉ arrival) ∧ (others i → False)
      | _ => True
      end ∧ wait_legal pr others ops (spec_step pr (as_ready_op op) arrival).2
  end.

Definition queued_elsewhere (q : Queues) (id : qid) (i : Z) : Prop := ∃ id', id' ≠ id ∧ i ∈ q id'.

Lemma wait_exec_refines w q id arrival op :
  let pr := λ i, t_priority (T w i) in
  queues w q → valid w id → sorted_arrivals pr (q id) arrival →
  wait_legal pr (queued_elsewhere q id) [op] arrival →
  wp (wait_exec id op) (λ r w', r = (spec_step pr (as_ready_op op) arrival).1 ∧ core w' = core w ∧
    ∃ l, queues w' (qset id l q) ∧ sorted_arrivals pr l (spec_step pr (as_ready_op op) arrival).2) w.
Proof.
  intros pr Hq Hv Ha Hl.
  assert (∀ i, i ∉ arrival ↔ i ∉ q id) as Hmem.
  { intros i. destruct Ha as [Hp _ _]. by rewrite Hp. }
  assert (∀ w', w' = w → queues w' (qset id (q id) q)) as Hsame.
  { intros w' ->. apply (queues_ext w q); [apply qset_same|done]. }
  destruct op as [i| |i]; simpl in Hl; cbn [wait_exec as_ready_op spec_step].
  - destruct Hl as ((Hi & Hn & Ho) & _). go.
    assert (detached q i) as Hd.
    { intros id' Hi'. destruct (decide (id' = id)) as [->|Hne]; [by apply Hmem in Hn|].
      apply Ho. by exists id'. }
    wp_apply (enqueue_spec w q id i Hq Hv Hi Hd). intros _ w' [Hq' Hc]. go.
    split_and!; [done..|]. eexists. split; [exact Hq'|]. by apply sorted_place.
  - go. wp_apply (pop_waiter_spec w q id Hq Hv). intros x w' [Hc H]. go.
    rewrite (sorted_first_best pr (q id) arrival Ha).
    destruct (q id) as [|y l] eqn:E; cbn [head].
    + destruct H as [-> ->]. split_and!; [done..|]. exists []. split; [by apply Hsame|done].
    + destruct H as (-> & Hy & Hq'). split_and!; [done..|]. exists l. split; [done|].
      assert (l = without y (y :: l)) as ->.
      { change (y :: l) with ([] ++ y :: l) at 1. rewrite without_split; [done|].
        simpl. rewrite <-E. by eapply queues_nodup. }
      by apply sorted_without.
  - go. wp_apply (remove_spec w q id i Hq Hv). intros _ w' (Hc & Hin & Hout). go.
    split_and!; [done..|]. exists (without i (q id)). split; [|by apply sorted_without].
    destruct (decide (i ∈ q id)) as [Hi|Hi]; [auto|].
    rewrite without_not_in by done. auto.
Qed.

Lemma sorted_arrivals_ext pr pr' l arrival :
  (∀ i, pr i = pr' i) → sorted_arrivals pr l arrival → sorted_arrivals pr' l arrival.
Proof.
  intros Hpr [Hp Ho Hs]. split; [done| |].
  - clear Hp Hs. induction Ho as [|x l Hl IH Hx]; constructor; [done|]. rewrite Forall_forall in Hx |- *. intros y Hy. rewrite <-!Hpr. auto.
  - intros p. rewrite !(list_filter_iff (λ i, pr' i = p) (λ i, pr i = p)); [done|..];
      intros i; by rewrite Hpr.
Qed.

Lemma wait_legal_ext pr pr' W W' ops arrival :
  (∀ i, pr i = pr' i) → (∀ i, W' i → W i) → wait_legal pr W ops arrival → wait_legal pr' W' ops arrival.
Proof.
  intros Hpr HW. revert arrival. induction ops as [|op ops IH]; intros arrival; [done|].
  simpl. intros [H1 H2]. split.
  - destruct op; try done. destruct H1 as (? & ? & H1). split_and!; [done..|]. auto.
  - apply IH. by rewrite <-(spec_step_ext pr pr').
Qed.

(** C25: wait queues serve the best priority first and first come first served
    within a priority (RTOS-WAIT-002). The queue of any semaphore or mutex, run
    through any sequence of enqueues, pops and removals (by timeout, cancellation
    or reprioritisation), never panics, loops or trips its capacity assertion, and
    behaves as the same abstract stable priority queue as the ready queues; it is
    at all times the stable sort of its arrivals, and no other queue and no other
    scheduler state changes. *)
Theorem wait_queue_is_stable_priority_queue (w : World) (q : Queues) (id : qid)
    (arrival : list Z) (ops : list wait_op) :
  let pr := λ i, t_priority (T w i) in
  queues w q → valid w id → sorted_arrivals pr (q id) arrival →
  wait_legal pr (queued_elsewhere q id) ops arrival →
  wp (wait_run id ops) (λ rs w', rs = (spec_run pr (as_ready_op <$> ops) arrival).1 ∧
    core w' = core w ∧ ∃ l, queues w' (qset id l q) ∧
    sorted_arrivals pr l (spec_run pr (as_ready_op <$> ops) arrival).2) w.
Proof.
  cbv zeta. revert w q arrival. induction ops as [|op ops IH]; intros w q arrival Hq Hv Ha Hl.
  { go. split_and!; [done..|]. exists (q id). split; [|done].
    apply (queues_ext w q); [apply qset_same|done]. }
  cbn [wait_run fmap list_fmap spec_run]. go. destruct Hl as [Hop Hl].
  wp_apply (wait_exec_refines w q id arrival op Hq Hv Ha); [|by split].
  intros r w1 (-> & Hc1 & l1 & Hq1 & Ha1). go.
  assert (∀ i, t_priority (T w1 i) = t_priority (T w i)) as Hpr
    by (intros i; by apply (core_field t_priority)).
  destruct (spec_step _ (as_ready_op op) arrival) as [r1 arrival1] eqn:Es. simpl in Hl, Ha1 |- *.
  wp_apply (IH w1 (qset id l1 q) arrival1 Hq1).
  - intros rs w2 (-> & Hc2 & l2 & Hq2 & Ha2). go.
    rewrite (spec_run_ext _ (λ i, t_priority (T w i))) by apply Hpr.
    rewrite (spec_run_ext _ (λ i, t_priority (T w i))) in Ha2 by apply Hpr.
    destruct (spec_run _ (as_ready_op <$> ops) arrival1) as [rs arrival2].
    split_and!; [done|by rewrite Hc2|]. exists l2. split.
    + eapply queues_ext; [|exact Hq2]. intros id'. unfold qset. by case_decide.
    + eapply sorted_arrivals_ext; [|exact Ha2]. apply Hpr.
  - by apply (core_valid w1 w).
  - rewrite qset_eq. eapply sorted_arrivals_ext; [|exact Ha1]. intros i. symmetry. apply Hpr.
  - eapply wait_legal_ext; [| |exact Hl]; [intros i; symmetry; apply Hpr|].
    intros i (id' & Hne & Hi). rewrite qset_ne in Hi by done. by exists id'.
Qed.

(** A semaphore at address 4096 next to the tasks of [witness_tasks]. *)
Definition witness_semaphore : World :=
  witness_tasks <| w_sems ::= <[ 4096 := SemState_new 0 ]> |>.

Lemma witness_semaphore_queues : queues witness_semaphore no_queues.
Proof. by apply queues_new_sem; [apply witness_tasks_queues|]. Qed.

Definition witness_wait_ops : list wait_op :=
  [WEnqueue 2; WEnqueue 3; WEnqueue 4; WPop; WRemove 2; WEnqueue 2; WPop; WPop].

Lemma wait_queue_is_stable_priority_queue_witness :
  let pr := λ i, t_priority (T witness_semaphore i) in
  (spec_run pr (as_ready_op <$> witness_wait_ops) []).1 =
    [RUnit; RUnit; RUnit; RTask 4; RUnit; RUnit; RTask 3; RTask 2] ∧
  wp (wait_run (QSem 4096) witness_wait_ops) (λ rs w',
    rs = (spec_run pr (as_ready_op <$> witness_wait_ops) []).1 ∧ core w' = core witness_semaphore ∧
    ∃ l, queues w' (qset (QSem 4096) l no_queues) ∧
    sorted_arrivals pr l (spec_run pr (as_ready_op <$> witness_wait_ops) []).2) witness_semaphore.
Proof.
  split; [by vm_compute|].
  apply (wait_queue_is_stable_priority_queue witness_semaphore no_queues (QSem 4096) []).
  - apply witness_semaphore_queues.
  - by eexists.
  - split; [done|constructor|done].
  - assert (∀ i, queued_elsewhere no_queues (QSem 4096) i → False) as Hw
      by (intros i (id & _ & ?%elem_of_nil); done).
    unfold witness_wait_ops, slot_in.
    repeat (split; [try done|]); simpl; split_and?; try done; try apply Hw; set_solver.
Defined.

(** ** The wait-for chain *)

(** Task [i] is blocked on a mutex task [j] owns. *)
Definition waits_for (w : World) (i j : Z) : Prop :=
  t_waiting_mutex (T w i) ≠ 0 ∧ j ≠ NIL ∧
  ∃ st, w_mutexes w !! t_waiting_mutex (T w i) = Some st ∧ mtx_owner st = j.

Definition acyclic (w : World) : Prop := ∀ i, ¬ tc (waits_for w) i i.

(** Blocked tasks point at live mutexes and owners are tasks. *)
Definition mutex_refs (w : World) : Prop :=
  (∀ i, slot_in i → t_waiting_mutex (T w i) ≠ 0 →
     is_Some (w_mutexes w !! t_waiting_mutex (T w i))) ∧
  (∀ a st, w_mutexes w !! a = Some st → mtx_owner st ≠ NIL → slot_in (mtx_owner st)).

Lemma waits_for_functional w i j k : waits_for w i j → waits_for w i k → j = k.
Proof. intros (_ & _ & st & H & <-) (_ & _ & st' & H' & <-). congruence. Qed.

Lemma chain_contains_spec w n owner sought visited :
  shape w → mutex_refs w → acyclic w → slot_in owner →
  NoDup visited → (∀ v, v ∈ visited → slot_in v ∧ tc (waits_for w) v owner) →
  (length visited + n = 17)%nat →
  wp (chain_contains n owner sought) (λ b w', w' = w ∧
    (b = true ↔ rtc (waits_for w) owner sought)) w.
Proof.
  intros Hs [Hrefs Hown] Hac. revert owner visited.
  induction n as [|n IH]; intros owner visited Ho Hnd Hvis Hlen; cbn [chain_contains].
  - exfalso. assert (NoDup (owner :: visited)) as Hnd'.
    { apply NoDup_cons. split; [|done]. intros Hin. by destruct (Hvis owner Hin) as [_ ?%Hac]. }
    apply slots_length in Hnd'; [simpl in Hnd'; lia|].
    intros i [->|Hi]%elem_of_cons; [done|]. by apply Hvis.
  - destruct (Z.eqb_spec owner sought) as [->|Hne]; [go; split; [done|]; split; [by intros _|done]|].
    go. destruct (Z.eqb_spec (t_waiting_mutex (T w owner)) 0) as [E|E].
    { go. split; [done|]. split; [done|]. intros [<-|(y & Hy & _)]%rtc_inv; [done|].
      by destruct Hy. }
    destruct (Hrefs owner Ho E) as [st Hst]. go. eapply wp_mutex_at; [done|].
    destruct (Z.eqb_spec (mtx_owner st) NIL) as [En|En].
    + go. split; [done|]. split; [done|]. intros [<-|(y & Hy & _)]%rtc_inv; [done|].
      destruct Hy as (_ & Hy & st' & Hst' & <-). congruence.
    + assert (waits_for w owner (mtx_owner st)) as Hstep by (split_and!; eauto).
      wp_apply (IH (mtx_owner st) (owner :: visited)); [|by eapply Hown|..].
      * intros b w' [-> Hb]. split; [done|]. rewrite Hb. split; [by apply rtc_l|].
        intros [<-|(y & Hy & Hr)]%rtc_inv; [done|]. by rewrite (waits_for_functional w owner (mtx_owner st) y).
      * apply NoDup_cons. split; [|done]. intros Hin. by destruct (Hvis owner Hin) as [_ ?%Hac].
      * intros v [->|Hv]%elem_of_cons; [split; [done|by apply tc_once]|].
        destruct (Hvis v Hv) as [? ?]. split; [done|]. by eapply tc_r.
      * simpl. lia.
Qed.

(** Blocking [x] on the mutex at [a]. *)
Definition block_on (x a : Z) (w : World) : World :=
  upd_task x (λ t, t <| t_waiting_mutex := a |>) w.

Lemma waits_for_block w x a st i j :
  shape w → slot_in x → a ≠ 0 → w_mutexes w !! a = Some st → mtx_owner st ≠ NIL →
  (waits_for (block_on x a w) i j ↔ if decide (i = x) then j = mtx_owner st else waits_for w i j).
Proof.
  intros Hs Hx Ha Hst Hn. unfold waits_for, block_on. case_decide as Hi.
  - subst. rewrite T_upd_eq by done. simpl. split.
    + intros (_ & _ & st' & Hst' & <-). congruence.
    + intros ->. eauto 10.
  - by rewrite T_upd_ne by congruence.
Qed.

Lemma acyclic_block w x a st :
  shape w → slot_in x → a ≠ 0 → w_mutexes w !! a = Some st → mtx_owner st ≠ NIL →
  t_waiting_mutex (T w x) = 0 → acyclic w →
  (acyclic (block_on x a w) ↔ ¬ rtc (waits_for w) (mtx_owner st) x).
Proof.
  intros Hs Hx Ha Hst Hn Hx0 Hac.
  assert (∀ i j, waits_for w i j → i ≠ x) as Hno by (intros i j (? & _) ->; congruence).
  assert (∀ i j, waits_for w i j → waits_for (block_on x a w) i j) as Hlift.
  { intros i j Hij. eapply waits_for_block; [done..|]. rewrite decide_False by (by eapply Hno). done. }
  split.
  - intros Hac' Hr. apply (Hac' x). eapply tc_rtc_r; [|eapply rtc_subrel; [|exact Hr]].
    + apply tc_once. eapply waits_for_block; [done..|]. by rewrite decide_True.
    + intros i j Hij. by apply Hlift.
  - intros Hr i Hi.
    assert (∀ i j, tc (waits_for (block_on x a w)) i j → tc (waits_for w) i j ∨
      (rtc (waits_for w) i x ∧ rtc (waits_for w) (mtx_owner st) j)) as Hsplit.
    { clear i Hi. induction 1 as [i j Hij|i k j Hik _ IH].
      - apply (waits_for_block w x a st) in Hij; [|done..]. case_decide; [right; by subst|left; by apply tc_once].
      - apply (waits_for_block w x a st) in Hik; [|done..]. case_decide.
        + subst. right. split; [done|]. destruct IH as [IH|[_ IH]]; [by apply tc_rtc|done].
        + destruct IH as [IH|[IH1 IH2]]; [left; by eapply tc_l|right; split; [by eapply rtc_l|done]]. }
    apply Hsplit in Hi as [Hi|[H1 H2]]; [by apply (Hac i)|]. apply Hr. by etrans.
Qed.

(** C26: a mutex wait is refused exactly when it would close a cycle
    (RTOS-MUTEX-002). While the wait-for graph is acyclic, the bounded search
    always ends with the right answer -- seventeen steps suffice for seventeen
    tasks -- and lets a running task [sought] block on a mutex if and only if the
    graph stays acyclic with the new edge. *)
Theorem wait_chain_rejects_cycles (w : World) (sought a : Z) (st : MutexState) :
  shape w → mutex_refs w → acyclic w → slot_in sought → t_waiting_mutex (T w sought) = 0 →
  a ≠ 0 → w_mutexes w !! a = Some st → mtx_owner st ≠ NIL →
  wp (mutex_chain_contains (mtx_owner st) sought) (λ b w', w' = w ∧
    (b = true ↔ rtc (waits_for w) (mtx_owner st) sought) ∧
    (b = false ↔ acyclic (block_on sought a w))) w.
Proof.
  intros Hs Hrefs Hac Hso Hs0 Ha Hst Hn. unfold mutex_chain_contains.
  assert (slot_in (mtx_owner st)) as Ho by (by eapply Hrefs).
  wp_apply (chain_contains_spec w task_slots_nat (mtx_owner st) sought [] Hs Hrefs Hac Ho);
    [|constructor|by intros v ?%elem_of_nil|done].
  intros b w' [-> Hb]. split_and!; [done..|].
  rewrite (acyclic_block w sought a st) by done. rewrite <-Hb. by destruct b.
Qed.

Lemma witness_tasks_waiting i : t_waiting_mutex (T witness_tasks i) = 0.
Proof. unfold witness_tasks. rewrite !(T_upd_field t_waiting_mutex) by done. by rewrite T_new. Qed.

(** Task 3 owns the mutex at 4096 and task 2 the one at 8192. *)
Definition witness_locked : World :=
  witness_tasks <| w_mutexes := <[ 4096 := mkMutex 3 1 NIL NIL ]>
    {[ 8192 := mkMutex 2 1 NIL NIL ]} |>.

Lemma witness_locked_shape : shape witness_locked.
Proof. apply (shape_ext witness_tasks); [done..|]. apply (queues_shape _ _ witness_tasks_queues). Qed.

Lemma wait_chain_rejects_cycles_witness :
  wp (mutex_chain_contains 3 2) (λ b w', w' = witness_locked ∧
    (b = true ↔ rtc (waits_for witness_locked) 3 2) ∧
    (b = false ↔ acyclic (block_on 2 4096 witness_locked))) witness_locked.
Proof.
  assert (∀ i, t_waiting_mutex (T witness_locked i) = 0) as H0 by apply witness_tasks_waiting.
  apply (wait_chain_rejects_cycles witness_locked 2 4096 (mkMutex 3 1 NIL NIL));
    [apply witness_locked_shape| | |done..].
  - split; [intros i _ Hi; by destruct Hi|]. intros a st. simpl. unfold slot_in.
    rewrite slot_count_value, lookup_insert_Some, lookup_singleton_Some.
    intros [[_ <-]|[_ [_ <-]]] _; simpl; lia.
  - intros i Hi. destruct Hi as [i j (Hi & _)|i j k (Hi & _) _]; by apply Hi.
Defined.
