(* ===== verification/Switch.v ===== *)
(** * Switch intents and dispatch ([src/runtime/scheduler.rs])

    A thread that gives up the hart detaches its successor from the ready queue,
    records the handoff as a switch intent and commits it to [pending_switch]; the
    trap epilogue consumes the pending switch and dispatches. Between these steps
    an interrupt may run; the intent's identities and resume generation tell a
    stale intent from a live one. *)

From S2P Require Import Prelude Effects Budget Contract Config Context Reservation.
From S2P Require Import Tcb Store Chain Ready.

Definition task_ref (slot : Z) : M World TaskRef :=
  g ← tget t_identity_generation slot; mret (mkRef slot g).

Definition task_ref_is_current (task : TaskRef) : M World bool :=
  ts ← sched_gets s_tasks;
  mret (match idx ts task.(ref_slot) with
        | Some tcb => tcb.(t_identity_generation) =? task.(ref_generation)
        | None => false
        end).

Definition set_current (i : Z) : M World unit := sched_modify (λ s, s <| s_current := i |>).

Definition prepare_switch_intent (previous target : Z) : M World SwitchIntent :=
  pending ← sched_gets s_pending_switch;
  assert_ (match pending with None => true | Some _ => false end) ;;
  detached ← (if (target =? previous) || (target =? IDLE_SLOT) then mret true
              else
                state ← tget t_state target;
                if state_eqb state Ready then b ← ready_contains target; mret (negb b)
                else mret false);
  assert_ detached ;;
  sequence ← sched_gets s_next_switch_sequence;
  sequence ← expect (checked_add u64_max sequence 1);
  sched_modify (λ s, s <| s_next_switch_sequence := sequence |>) ;;
  previous_ref ← task_ref previous;
  target_ref ← task_ref target;
  generation ← tget t_resume_generation previous;
  bump d_switch_intents_created ;;
  mret (mkIntent sequence previous_ref target_ref generation).

Definition restore_detached_switch_target (target : Z) : M World unit :=
  if target =? IDLE_SLOT then mret tt
  else
    state ← tget t_state target;
    if state_eqb state Ready then
      b ← ready_contains target; when (negb b) (ready_push target)
    else mret tt.

Definition recover_completed_switch_request (previous detached_next : Z) : M World bool :=
  current ← sched_gets s_current;
  if negb (current =? previous) then mret false
  else
    state ← tget t_state previous;
    if negb (state_eqb state Running) then mret false
    else
      restore_detached_switch_target detached_next ;;
      bump d_switch_race_recoveries ;;
      mret true.

Definition commit_switch_intent (intent : SwitchIntent) : M World bool :=
  previous_identity_matches ← task_ref_is_current intent.(si_previous);
  target_identity_matches ← task_ref_is_current intent.(si_target);
  if negb previous_identity_matches || negb target_identity_matches then
    when target_identity_matches
      (restore_detached_switch_target intent.(si_target).(ref_slot)) ;;
    bump d_switch_intents_cancelled_identity ;;
    mret false
  else
    let previous := intent.(si_previous).(ref_slot) in
    let target := intent.(si_target).(ref_slot) in
    current ← sched_gets s_current;
    generation ← tget t_resume_generation previous;
    state ← tget t_state previous;
    if negb (current =? previous) ||
       negb (generation =? intent.(si_previous_resume_generation)) ||
       state_eqb state Running
    then
      (if (current =? previous) && state_eqb state Running
       then recover_completed_switch_request previous target ;; mret tt
       else restore_detached_switch_target target) ;;
      bump d_switch_intents_cancelled_stale ;;
      mret false
    else
      pending ← sched_gets s_pending_switch;
      assert_ (match pending with None => true | Some _ => false end) ;;
      sched_modify (λ s, s <| s_pending_switch :=
        Some (mkPending intent.(si_sequence) intent.(si_previous) intent.(si_target)) |>) ;;
      bump d_switch_intents_committed ;;
      mret true.

Definition prepare_committed_switch_intent (previous target : Z) : M World SwitchIntent :=
  intent ← prepare_switch_intent previous target;
  committed ← commit_switch_intent intent;
  assert_ committed ;;
  mret intent.

Definition prepare_switch_away_decision (previous expected_resume_generation : Z)
    (commit_before_unlock : bool) : M World (option SwitchIntent) :=
  current ← sched_gets s_current;
  source_is_unchanged ←
    (if negb (current =? previous) then mret false
     else
       state ← tget t_state previous;
       if state_eqb state Running then mret false
       else
         generation ← tget t_resume_generation previous;
         mret (generation =? expected_resume_generation));
  if negb source_is_unchanged then mret None
  else
    target ← ready_pop_or_idle;
    intent ← prepare_switch_intent previous target;
    if commit_before_unlock then
      committed ← commit_switch_intent intent;
      mret (if negb committed then None else Some intent)
    else mret (Some intent).

Definition consume_pending_switch : M World (option (Z * Z)) :=
  pending ← sched_gets s_pending_switch;
  sched_modify (λ s, s <| s_pending_switch := None |>) ;;
  match pending with
  | None => mret None
  | Some pending =>
      previous_current ← task_ref_is_current pending.(ps_previous);
      target_current ← task_ref_is_current pending.(ps_target);
      assert_ (previous_current && target_current) ;;
      last ← sched_gets s_last_consumed_switch_sequence;
      assert_ (last <? pending.(ps_sequence)) ;;
      sched_modify (λ s, s <| s_last_consumed_switch_sequence := pending.(ps_sequence) |>) ;;
      bump d_switch_intents_completed ;;
      mret (Some (pending.(ps_previous).(ref_slot), pending.(ps_target).(ref_slot)))
  end.

Definition take_yield_target (current now : Z) : M World (option Z) :=
  next ← ready_pop;
  if next =? NIL then mret None
  else make_ready current now ;; mret (Some next).

(** [(0..end).any(|priority| self.ready_head[priority] != NIL)] *)
Fixpoint any_ready (ps : list Z) : M World bool :=
  match ps with
  | [] => mret false
  | p :: ps =>
      head ← get_head (QReady p);
      if negb (head =? NIL) then mret true else any_ready ps
  end.

Definition take_reschedule_target (allow_equal_priority : bool) (now : Z) :
    M World (option (Z * Z)) :=
  current ← sched_gets s_current;
  state ← tget t_state current;
  depth ← tget t_scheduler_lock_depth current;
  if negb (state_eqb state Running) || negb (depth =? 0) then mret None
  else if current =? IDLE_SLOT then
    next ← ready_pop;
    if next =? NIL then mret None
    else make_ready current now ;; mret (Some (current, next))
  else
    policy ← tget t_run_policy current;
    if negb (is_preemptive policy) then mret None
    else
      current_priority ← ready_priority current;
      let end_ := if allow_equal_priority then saturating_add usize_max current_priority 1
                  else current_priority in
      any ← any_ready (range 0 end_);
      if negb any then mret None
      else
        next ← ready_pop;
        assert_ (negb (next =? NIL)) ;;
        make_ready current now ;;
        mret (Some (current, next)).

Definition account_switch (previous next now : Z) : M World unit :=
  set_task previous (λ t, t <| t_budget ::= on_switch_out now |>) ;;
  set_task next (λ t, t <| t_budget ::= on_dispatch now |>) ;;
  set_task previous (λ t, t <| t_metrics ::= metrics_on_switch_out now |>) ;;
  set_task next (λ t, t <| t_metrics ::= metrics_on_dispatch now |>) ;;
  sched_modify (λ s, s <| s_time_slice_deadline := 0 |>).

(** The second half of [schedule_from_trap]: hands the hart from [previous] to [next]. *)
Definition dispatch_to (frame now : Z) (time_slice : bool) (current_priority previous next : Z) :
    M World Z :=
  account_switch previous next now ;;
  previous_state ← tget t_state previous;
  when (negb (state_eqb previous_state Free))
    (set_task previous (λ t, t <| t_saved_frame := frame |>)) ;;
  next_frame ← tget t_saved_frame next;
  assert_ (negb (next_frame =? 0)) ;;
  set_task next (λ t, t <| t_saved_frame := 0 |>) ;;
  set_task next (λ t, t <| t_state := Running |>) ;;
  set_task next (λ t, t <| t_resume_generation ::= λ g, wrapping_add u32_max g 1 |>) ;;
  set_current next ;;
  bump d_context_switches ;;
  bump d_irq_preemptions ;;
  next_priority ← tget t_priority next;
  when (time_slice && (next_priority =? current_priority)) (bump d_time_slice_preemptions) ;;
  sched_modify (λ s, s <| s_time_slice_pending := false |>) ;;
  mret next_frame.

(** The trap epilogue's dispatch; the result is the frame to restore. *)
Definition schedule_from_trap (frame interrupt_depth now : Z) : M World Z :=
  started ← sched_gets s_started;
  if negb started || negb (interrupt_depth =? 0) then mret frame
  else
    current ← sched_gets s_current;
    current_priority ← tget t_priority current;
    time_slice ← sched_gets s_time_slice_pending;
    pending ← sched_gets s_pending_switch;
    target ←
      (match pending with
       | Some _ => consume_pending_switch
       | None =>
           state ← tget t_state current;
           if negb (state_eqb state Running)
           then next ← ready_pop_or_idle; mret (Some (current, next))
           else take_reschedule_target time_slice now
       end);
    match target with
    | None => mret frame
    | Some (previous, next) => dispatch_to frame now time_slice current_priority previous next
    end.

Definition retire_stack (stack : Z) : M World unit :=
  when (negb (stack =? 0))
    (count ← sched_gets s_retired_count;
     assert_ (count <? TASK_SLOT_COUNT) ;;
     stacks ← sched_gets s_retired_stacks;
     _ ← expect (idx stacks count);
     sched_modify (λ s, s <| s_retired_stacks ::= λ l, alter_at (λ _, stack) l count |>) ;;
     count ← expect (checked_add usize_max count 1);
     sched_modify (λ s, s <| s_retired_count := count |>)).

Definition lock_current (now : Z) : M World (result DriverError unit) :=
  current ← sched_gets s_current;
  depth ← tget t_scheduler_lock_depth current;
  when (depth =? 0)
    (set_task current (λ t, t <| t_scheduler_lock_started_at := Some now |>
       <| t_metrics ::= λ m, m <| m_scheduler_lock_entries ::= sat_incr_u32 |> |>)) ;;
  match checked_add u16_max depth 1 with
  | None => mret (Err Runtime)
  | Some depth =>
      set_task current (λ t, t <| t_scheduler_lock_depth := depth |>) ;;
      bump d_scheduler_locks ;;
      mret (Ok tt)
  end.

Definition unlock_current (now : Z) : M World (result DriverError unit) :=
  current ← sched_gets s_current;
  depth ← tget t_scheduler_lock_depth current;
  if depth =? 0 then mret (Err InvalidContext)
  else
    set_task current (λ t, t <| t_scheduler_lock_depth := depth - 1 |>) ;;
    when (depth - 1 =? 0)
      (started_at ← tget t_scheduler_lock_started_at current;
       started_at ← expect started_at;
       set_task current (λ t,
         t <| t_metrics ::= λ m,
                m <| m_max_scheduler_lock_ms ::= λ x, Z.max x (saturating_sub now started_at) |> |>
           <| t_scheduler_lock_started_at := None |>)) ;;
    mret (Ok tt).

(** [t.budget.throttle_after_lock_overrun(now)] on a task's budget. *)
Definition throttle_task (i now : Z) : M World (option Z) :=
  t ← task_at i;
  match throttle_after_lock_overrun now t.(t_budget) with
  | Done (r, b) => set_task i (λ t, t <| t_budget := b |>) ;; mret r
  | Fault f => fail f
  end.

Definition unlock_current_and_take_preemption (now : Z) :
    M World (result DriverError (option (Z * Z))) :=
  _ ←? unlock_current now;
  current ← sched_gets s_current;
  depth ← tget t_scheduler_lock_depth current;
  overrun ← tget (λ t, lock_overrun_pending t.(t_budget)) current;
  if (depth =? 0) && overrun then
    until ← throttle_task current now;
    _ ← expect until;
    set_task current (λ t, t <| t_state := Throttled |>) ;;
    bump d_budget_throttles ;;
    next ← ready_pop_or_idle;
    mret (Ok (Some (current, next)))
  else
    time_slice ← sched_gets s_time_slice_pending;
    target ← take_reschedule_target time_slice now;
    when (match target with Some _ => true | None => false end)
      (sched_modify (λ s, s <| s_time_slice_pending := false |>)) ;;
    mret (Ok target).

Definition current_switch_guard : M World (result DriverError Z) :=
  current ← sched_gets s_current;
  depth ← tget t_scheduler_lock_depth current;
  mret (if negb (depth =? 0) then Err InvalidContext else Ok current).

Definition set_run_policy (slot : Z) (policy : RunPolicy) (now : Z) : M World unit :=
  state ← tget t_state slot;
  was_ready_queued ← (if state_eqb state Ready then ready_contains slot else mret false);
  pending ← sched_gets s_pending_switch;
  when (state_eqb state Ready && negb was_ready_queued &&
        match pending with Some p => p.(ps_target).(ref_slot) =? slot | None => false end)
    (bump d_detached_pending_policy_mutations) ;;
  let was_throttled := state_eqb state Throttled in
  when was_ready_queued (ready_remove slot) ;;
  set_task slot (λ t, t <| t_run_policy := policy |> <| t_budget := for_policy policy now |>) ;;
  (if state_eqb state Running then set_task slot (λ t, t <| t_budget ::= on_dispatch now |>)
   else when was_throttled
     (set_task slot (λ t, t <| t_state := Ready |> <| t_metrics ::= metrics_on_ready now |>))) ;;
  when (was_ready_queued || was_throttled) (ready_push slot).
