(* ===== verification/Invariant.v ===== *)
(** * The ownership invariant

    The rule the audit checks, as an invariant of the scheduler's operations.
    [owned w q d] says who owns every task in the store [w]: the queues are [q], a
    ready task is in the queue of its priority, or is the target of the pending
    switch, or is the task [d] that the running critical section holds in hand; a
    blocked task is in the wait queue of the object it waits for. The invariant is
    stated per task ([placed]), so that an operation on one task owes a proof for
    that task only ([owned_change]). Every operation has a specification that
    starts from [owned] and ends in it, and none of them panics there. *)

From S2P Require Import Prelude Effects Budget Contract Config Context Reservation.
From S2P Require Import Tcb Store Chain Ready.

Definition ref_current (w : World) (r : TaskRef) : Prop :=
  slot_in r.(ref_slot) ∧ t_identity_generation (T w r.(ref_slot)) = r.(ref_generation).

(** The place of one task. *)
Record placed (w : World) (q : Queues) (d : option Z) (i : Z) : Prop := {
  placed_priority : priority_ok w i;
  placed_ready p : i ∈ q (QReady p) →
    t_state (T w i) = Ready ∧ t_priority (T w i) = p ∧ i ≠ IDLE_SLOT;
  placed_home : t_state (T w i) = Ready → i ≠ IDLE_SLOT →
    ready_queued q i ∨ d = Some i ∨ is_target w i;
  placed_hand : d = Some i → t_state (T w i) = Ready ∧ ¬ ready_queued q i ∧ ¬ is_target w i;
  placed_target : is_target w i → t_state (T w i) = Ready ∧ ¬ ready_queued q i;
  placed_sem a : i ∈ q (QSem a) → t_state (T w i) = Blocked ∧ t_waiting_sem (T w i) = a ∧ a ≠ 0;
  placed_sem_home : t_waiting_sem (T w i) ≠ 0 → i ∈ q (QSem (t_waiting_sem (T w i)));
  placed_mtx a : i ∈ q (QMtx a) → t_state (T w i) = Blocked ∧ t_waiting_mutex (T w i) = a ∧ a ≠ 0;
  placed_mtx_home : t_waiting_mutex (T w i) ≠ 0 → i ∈ q (QMtx (t_waiting_mutex (T w i)));
  placed_running : t_state (T w i) = Running → i = current w ∧ pending w = None;
  placed_idle : i = IDLE_SLOT → t_state (T w i) = Ready ∨ t_state (T w i) = Running;
}.

Record owners (w : World) (q : Queues) (d : option Z) : Prop := {
  owned_placed i : slot_in i → placed w q d i;
  owned_pending p : pending w = Some p → ref_current w p.(ps_target) ∧
    ref_current w p.(ps_previous) ∧ p.(ps_previous).(ref_slot) = current w;
  owned_current : slot_in (current w);
  owned_hand_slot i : d = Some i → slot_in i;
}.

Definition owned (w : World) (q : Queues) (d : option Z) : Prop := queues w q ∧ owners w q d.

Lemma owned_queues w q d : owned w q d → queues w q.
Proof. by intros [? _]. Qed.

Lemma owned_shape w q d : owned w q d → shape w.
Proof. intros [Hq _]. by apply (queues_shape w q). Qed.

Lemma owned_slot_current w q d : owned w q d → slot_in (current w).
Proof. intros [_ Ho]. apply Ho. Qed.
#[export] Hint Resolve owned_queues owned_shape owned_slot_current : store.

Lemma idle_slot_in : slot_in IDLE_SLOT.
Proof. unfold slot_in. rewrite slot_count_value. unfold IDLE_SLOT. lia. Qed.
#[export] Hint Resolve idle_slot_in : store.

(** ** What the invariant reads *)

(** Two stores agree on what [placed] reads of the task [i]. *)
Record same_task (w w' : World) (i : Z) : Prop := {
  same_state : t_state (T w' i) = t_state (T w i);
  same_priority : t_priority (T w' i) = t_priority (T w i);
  same_identity : t_identity_generation (T w' i) = t_identity_generation (T w i);
  same_waiting_sem : t_waiting_sem (T w' i) = t_waiting_sem (T w i);
  same_waiting_mutex : t_waiting_mutex (T w' i) = t_waiting_mutex (T w i);
}.

(** Two stores agree on everything [owned] reads but the task [i] and the links. *)
Record same_except (w w' : World) (i : Z) : Prop := {
  except_task j : j ≠ i → same_task w w' j;
  except_identity : t_identity_generation (T w' i) = t_identity_generation (T w i);
  except_pending : pending w' = pending w;
  except_current : current w' = current w;
}.

Record same_view (w w' : World) : Prop := {
  view_task i : same_task w w' i;
  view_pending : pending w' = pending w;
  view_current : current w' = current w;
}.

Lemma same_task_core w w' i : core w' = core w → same_task w w' i.
Proof.
  intros Hc. split;
    [by apply (core_field t_state)|by apply (core_field t_priority)
    |by apply (core_field t_identity_generation)|by apply (core_field t_waiting_sem)
    |by apply (core_field t_waiting_mutex)].
Qed.

Lemma same_view_core w w' : core w' = core w → same_view w w'.
Proof.
  intros Hc. split;
    [intros i; by apply same_task_core|by apply (core_sched s_pending_switch)
    |by apply (core_sched s_current)].
Qed.

Lemma same_task_refl w i : same_task w w i.
Proof. by split. Qed.

Lemma same_view_refl w : same_view w w.
Proof. split; [intros i; apply same_task_refl|done..]. Qed.

Lemma same_task_trans w1 w2 w3 i : same_task w1 w2 i → same_task w2 w3 i → same_task w1 w3 i.
Proof. intros [? ? ? ? ?] [? ? ? ? ?]. split; etrans; eauto. Qed.

Lemma same_view_trans w1 w2 w3 : same_view w1 w2 → same_view w2 w3 → same_view w1 w3.
Proof.
  intros [H1 ? ?] [H2 ? ?]. split; [|etrans; eauto..]. intros i.
  by apply (same_task_trans w1 w2 w3).
Qed.

Lemma same_view_except w w' i : same_view w w' → same_except w w' i.
Proof. intros [H ? ?]. split; [by intros; apply H|apply H|done|done]. Qed.

Lemma same_except_trans w1 w2 w3 i :
  same_except w1 w2 i → same_except w2 w3 i → same_except w1 w3 i.
Proof.
  intros [H1 ? ? ?] [H2 ? ? ?]. split; [|etrans; eauto..]. intros j Hj.
  apply (same_task_trans w1 w2 w3); auto.
Qed.

(** Nothing but links, heads, tails and the scheduler's own fields differs. *)
Record quiet (w w' : World) : Prop := {
  quiet_field A (f : Tcb → A) : (∀ t v, f (t <| t_next := v |>) = f t) → ∀ j, f (T w' j) = f (T w j);
  quiet_sems a : core_sem <$> w_sems w' !! a = core_sem <$> w_sems w !! a;
  quiet_mutexes a : core_mtx <$> w_mutexes w' !! a = core_mtx <$> w_mutexes w !! a;
}.

Lemma quiet_core w w' : core w' = core w → quiet w w'.
Proof.
  intros Hc. split; [|intros a; by apply core_sems|intros a; by apply core_mutexes].
  intros A f Hf j. apply (core_field f); [|done]. intros t. apply Hf.
Qed.

Lemma quiet_trans w1 w2 w3 : quiet w1 w2 → quiet w2 w3 → quiet w1 w3.
Proof.
  intros [F1 ? ?] [F2 ? ?]. split; [|intros; etrans; eauto..]. intros A f Hf j. by rewrite F2, F1.
Qed.

Lemma quiet_sched w g : (∀ s, s_tasks (g s) = s_tasks s) → quiet w (w <| w_sched ::= g |>).
Proof. intros Hg. split; [|done..]. intros A f Hf j. unfold T. simpl. by rewrite Hg. Qed.

(** Updates of one task; and of its accounting fields. *)
Lemma same_except_upd w i g :
  shape w → slot_in i → (∀ t, t_identity_generation (g t) = t_identity_generation t) →
  same_except w (upd_task i g w) i.
Proof.
  intros Hs Hi Hg. split; [|by apply T_upd_field|done|done].
  intros j Hj. split; by rewrite T_upd_ne by done.
Qed.

Definition accounting (g : Tcb → Tcb) : Prop := ∀ t,
  t_state (g t) = t_state t ∧ t_priority (g t) = t_priority t ∧
  t_identity_generation (g t) = t_identity_generation t ∧
  t_waiting_sem (g t) = t_waiting_sem t ∧ t_waiting_mutex (g t) = t_waiting_mutex t ∧
  t_next (g t) = t_next t.

Lemma same_view_upd w i g : accounting g → same_view w (upd_task i g w).
Proof.
  intros Hg. split; [|done..]. intros j. split; apply T_upd_field; intros t; by destruct (Hg t) as (?&?&?&?&?&?).
Qed.

(** The invariant moves along stores that agree on what it reads. *)
Lemma placed_ext w w' q q' d d' i :
  same_task w w' i → (∀ id, i ∈ q' id ↔ i ∈ q id) → (d' = Some i ↔ d = Some i) →
  (is_target w' i ↔ is_target w i) →
  (t_state (T w i) = Running → i = current w' ∧ pending w' = None) →
  placed w q d i → placed w' q' d' i.
Proof.
  intros [V1 V2 V3 V4 V5] Hq Hd Ht Hr [H1 H2 H3 H4 H5 H6 H7 H8 H9 H10 H11].
  assert (ready_queued q' i ↔ ready_queued q i) as Hrq
    by (unfold ready_queued; by setoid_rewrite Hq).
  split; unfold priority_ok in *; intros *; rewrite ?Hq, ?V1, ?V2, ?V3, ?V4, ?V5, ?Hd, ?Ht, ?Hrq; eauto.
Qed.

Lemma is_target_same w w' i : pending w' = pending w → (is_target w' i ↔ is_target w i).
Proof. unfold is_target. by intros ->. Qed.

Lemma owners_globals w w' :
  (∀ i, t_identity_generation (T w' i) = t_identity_generation (T w i)) →
  pending w' = pending w → current w' = current w →
  ∀ q d, owners w q d →
  (∀ p, pending w' = Some p → ref_current w' p.(ps_target) ∧
    ref_current w' p.(ps_previous) ∧ p.(ps_previous).(ref_slot) = current w') ∧
  slot_in (current w').
Proof.
  intros Hid Hp Hc q d [_ H2 H3 _]. rewrite Hp, Hc. split; [|done]. intros p Hpp.
  unfold ref_current. rewrite !Hid. by apply H2.
Qed.

(** The operation on one task [i]: it owes [placed] for [i] only. *)
Lemma owned_change w w' q q' d d' i :
  owned w q d → queues w' q' → same_except w w' i →
  (∀ j id, j ≠ i → (j ∈ q' id ↔ j ∈ q id)) → (∀ j, j ≠ i → (d' = Some j ↔ d = Some j)) →
  (d' = Some i → slot_in i) → (slot_in i → placed w' q' d' i) → owned w' q' d'.
Proof.
  intros [Hq Ho] Hq' [H1 H2 H3 H4] Hqj Hdj Hdi Hi. split; [done|].
  assert (∀ j, t_identity_generation (T w' j) = t_identity_generation (T w j)) as Hid.
  { intros j. destruct (decide (j = i)) as [->|]; [done|]. by apply H1. }
  destruct (owners_globals w w' Hid H3 H4 q d Ho) as [Hg Hc].
  split; [|done|done|].
  - intros j Hj. destruct (decide (j = i)) as [->|Hne]; [auto|].
    apply (placed_ext w w' q q' d d' j); auto; [by apply is_target_same| |by apply Ho].
    intros Hr. rewrite H3, H4. by apply (placed_running w q d j); [apply Ho|].
  - intros j Hj. destruct (decide (j = i)) as [->|Hne]; [auto|].
    apply (owned_hand_slot w q d); [done|]. by apply Hdj.
Qed.

Lemma owned_view w w' q d : same_view w w' → queues w' q → owned w q d → owned w' q d.
Proof.
  intros V Hq Ho. destruct (V) as [V1 V2 V3].
  apply (owned_change w w' q q d d (current w)); try done.
  - by apply same_view_except.
  - intros E. by apply (owned_hand_slot w q d (proj2 Ho)).
  - intros Hc. apply (placed_ext w w' q q d d (current w)); try done; [by apply is_target_same| |by apply Ho].
    intros Hr. rewrite V2, V3. by apply (placed_running w q d); [apply Ho|].
Qed.

Lemma owned_core w w' q q' d : core w' = core w → (∀ id, q' id = q id) → queues w' q' →
  owned w q d → owned w' q' d.
Proof.
  intros Hc Hqq Hq Ho. apply (owned_view w); [by apply same_view_core|done|].
  destruct Ho as [Hq0 [H1 H2 H3 H4]]. split; [by eapply queues_ext|]. split; [|done..].
  intros i Hi. apply (placed_ext w w q q' d d i); [apply same_task_refl|..]; try done.
  - intros id. by rewrite Hqq.
  - intros Hr. by apply (placed_running w q d i); [apply H1|].
  - by apply H1.
Qed.

Lemma owned_upd w q d i g : accounting g → owned w q d → owned (upd_task i g w) q d.
Proof.
  intros Hg Ho. apply (owned_view w); [by apply same_view_upd| |done].
  apply queues_upd_task; [|apply Ho]. intros t. apply Hg.
Qed.

Lemma T_sched w g i : (∀ s, s_tasks (g s) = s_tasks s) → T (w <| w_sched ::= g |>) i = T w i.
Proof. intros Hg. unfold T. simpl. by rewrite Hg. Qed.

(** Scheduler fields that queues and the invariant do not read. *)
Lemma queues_sched w q g :
  (∀ s, s_tasks (g s) = s_tasks s) → (∀ s, s_ready_head (g s) = s_ready_head s) →
  (∀ s, s_ready_tail (g s) = s_ready_tail s) → (∀ s, length (s_slot_generations (g s)) = length (s_slot_generations s)) →
  (∀ s, length (s_retired_stacks (g s)) = length (s_retired_stacks s)) →
  queues w q → queues (w <| w_sched ::= g |>) q.
Proof.
  intros Ht Hh Htl Hsg Hrs Hq. apply (queues_same w); [done|..].
  - apply (shape_ext w); simpl; rewrite ?Ht, ?Hh, ?Htl, ?Hsg, ?Hrs; try done. by eapply queues_shape.
  - by intros [].
  - intros [p|a|a]; unfold hd_of; simpl; by rewrite ?Hh.
  - intros [p|a|a]; unfold tl_of; simpl; by rewrite ?Htl.
  - intros i. unfold nx, T. simpl. by rewrite Ht.
Qed.

Lemma owned_sched w q d g :
  (∀ s, s_tasks (g s) = s_tasks s) → (∀ s, s_ready_head (g s) = s_ready_head s) →
  (∀ s, s_ready_tail (g s) = s_ready_tail s) → (∀ s, length (s_slot_generations (g s)) = length (s_slot_generations s)) →
  (∀ s, length (s_retired_stacks (g s)) = length (s_retired_stacks s)) →
  (∀ s, s_pending_switch (g s) = s_pending_switch s) → (∀ s, s_current (g s) = s_current s) →
  owned w q d → owned (w <| w_sched ::= g |>) q d.
Proof.
  intros Ht Hh Htl Hsg Hrs Hp Hc Ho.
  assert (∀ i, T (w <| w_sched ::= g |>) i = T w i) as HT by (intros i; unfold T; simpl; by rewrite Ht).
  apply (owned_view w).
  - split; [|apply Hp|apply Hc]. intros i. by split; rewrite HT.
  - apply queues_sched; try done. apply Ho.
  - done.
Qed.

(** Strips the scheduler updates the invariant does not read. *)
Ltac keep_owned := repeat first [assumption | apply owned_sched; [done..|]].

(** ** Queue membership *)

Lemma ready_queued_qset_ready q i l p :
  0 <= p < PRIORITY_LEVELS →
  (ready_queued (qset (QReady p) l q) i ↔
   i ∈ l ∨ ∃ p', p' ≠ p ∧ 0 <= p' < PRIORITY_LEVELS ∧ i ∈ q (QReady p')).
Proof.
  intros Hp. unfold ready_queued. split.
  - intros (p' & Hp' & Hi). destruct (decide (p' = p)) as [->|Hne].
    + rewrite qset_eq in Hi. by left.
    + rewrite qset_ne in Hi by congruence. right. eauto.
  - intros [Hi|(p' & Hne & Hp' & Hi)].
    + exists p. rewrite qset_eq. auto.
    + exists p'. rewrite qset_ne by congruence. auto.
Qed.

Lemma ready_queued_wait q id l i :
  (∀ p, id ≠ QReady p) → (ready_queued (qset id l q) i ↔ ready_queued q i).
Proof.
  intros Hid. unfold ready_queued. split; intros (p & Hp & Hi); exists p; (split; [done|]);
    rewrite qset_ne in * by apply Hid; done.
Qed.

(** Replacing a list keeps the places of the tasks it does not concern. *)
Lemma elem_of_qset q id l j id' : (j ∈ l ↔ j ∈ q id) → (j ∈ qset id l q id' ↔ j ∈ q id').
Proof. intros H. unfold qset. case_decide; [by subst|done]. Qed.

Lemma not_ready_queued q i : (∀ id, i ∉ q id) → ¬ ready_queued q i.
Proof. intros H (p & _ & Hi). by apply (H (QReady p)). Qed.

Lemma owned_not_queued w q d i :
  owned w q d → slot_in i → t_state (T w i) ≠ Ready → ¬ ready_queued q i.
Proof. intros [_ Ho] Hi Hs (p & _ & Hin). by destruct (placed_ready w q d i (owned_placed w q d Ho i Hi) p Hin). Qed.

(** A running or runnable task waits for nothing. *)
Lemma owned_not_waiting w q d i :
  owned w q d → slot_in i → t_state (T w i) ≠ Blocked →
  t_waiting_sem (T w i) = 0 ∧ t_waiting_mutex (T w i) = 0.
Proof.
  intros [_ Ho] Hi Hs. pose proof (owned_placed w q d Ho i Hi) as Hp. split.
  - destruct (decide (t_waiting_sem (T w i) = 0)) as [|Hne]; [done|].
    by destruct (placed_sem w q d i Hp _ (placed_sem_home w q d i Hp Hne)).
  - destruct (decide (t_waiting_mutex (T w i) = 0)) as [|Hne]; [done|].
    by destruct (placed_mtx w q d i Hp _ (placed_mtx_home w q d i Hp Hne)).
Qed.

(** A task that is in no ready queue and waits for nothing is in no queue. *)
Lemma owned_detached w q d i :
  owned w q d → slot_in i → ¬ ready_queued q i → t_waiting_sem (T w i) = 0 →
  t_waiting_mutex (T w i) = 0 → detached q i.
Proof.
  intros [Hq Ho] Hi Hr Hs Hm. pose proof (owned_placed w q d Ho i Hi) as Hp. intros [p|a|a] Hin.
  - apply Hr. exists p. split; [|done]. by apply (queues_valid w q Hq _ _ Hin).
  - destruct (placed_sem w q d i Hp a Hin) as (_ & E & Ha). congruence.
  - destruct (placed_mtx w q d i Hp a Hin) as (_ & E & Ha). congruence.
Qed.

Lemma owned_idle_detached w q d : owned w q d → detached q IDLE_SLOT.
Proof.
  intros Ho. pose proof (owned_placed w q d (proj2 Ho) _ idle_slot_in) as Hp.
  assert (t_state (T w IDLE_SLOT) ≠ Blocked) as Hb
    by (destruct (placed_idle w q d _ Hp eq_refl); congruence).
  destruct (owned_not_waiting w q d _ Ho idle_slot_in Hb).
  apply (owned_detached w q d); try done.
  intros (p & _ & Hin). by destruct (placed_ready w q d _ Hp p Hin) as (_ & _ & ?).
Qed.

(** A detached task's place follows from its state alone. *)
Lemma placed_detached w q d i :
  detached q i → priority_ok w i → t_waiting_sem (T w i) = 0 → t_waiting_mutex (T w i) = 0 →
  (t_state (T w i) = Ready → i ≠ IDLE_SLOT → d = Some i ∨ is_target w i) →
  (d = Some i → t_state (T w i) = Ready ∧ ¬ is_target w i) →
  (is_target w i → t_state (T w i) = Ready) →
  (t_state (T w i) = Running → i = current w ∧ pending w = None) →
  (i = IDLE_SLOT → t_state (T w i) = Ready ∨ t_state (T w i) = Running) →
  placed w q d i.
Proof.
  intros Hd Hp Hs Hm Hr Hh Ht Hrun Hi.
  assert (¬ ready_queued q i) as Hnq by (by apply not_ready_queued).
  split; try done; try (by intros ? ?%Hd).
  - auto.
  - intros E. by destruct (Hh E).
  - intros E. by split; [apply Ht|].
Qed.

(** ** Moving tasks between owners *)

(** Detaching the head of the best queue takes it in hand. *)
Lemma owned_pop w q :
  owned w q None →
  wp ready_pop (λ x w', core w' = core w ∧
    ((no_ready q ∧ x = NIL ∧ w' = w) ∨
     (∃ p l, highest q p x l ∧ x ≠ IDLE_SLOT ∧ owned w' (qset (QReady p) l q) (Some x)))) w.
Proof.
  intros Hw. pose proof Hw as [Hq Ho]. wp_apply (ready_pop_spec w q Hq).
  intros x w' [(? & ? & ->)|(p & l & Hh & Hx & Hq' & Hc)]; [by split; [|left]|].
  split; [done|]. right. exists p, l. split; [done|].
  pose proof Hh as (Hp & E & _). pose proof (owned_placed w q None Ho x Hx) as Hpl.
  assert (x ∈ q (QReady p)) as Hxq by (rewrite E; left).
  destruct (placed_ready w q None x Hpl p Hxq) as (Hst & Hpr & Hni). split; [done|].
  pose proof (queues_nodup w q Hq (QReady p)) as Hnd. rewrite E in Hnd.
  apply NoDup_cons in Hnd as [Hxl _].
  assert (detached (qset (QReady p) l q) x) as Hd.
  { intros id Hin. unfold qset in Hin. case_decide as Hid; [done|].
    apply Hid. by apply (queues_disjoint w q Hq (QReady p) id x). }
  pose proof (same_view_core w w' Hc) as V. destruct (V) as [Vt Vp Vc].
  apply (owned_change w w' q _ None _ x Hw Hq'); try done.
  - by apply same_view_except.
  - intros j id Hj. apply elem_of_qset. rewrite E. set_solver.
  - intros j Hj. split; congruence.
  - intros _. destruct (Vt x) as [V1 V2 V3 V4 V5].
    destruct (owned_not_waiting w q None x Hw Hx) as [Hws Hwm]; [congruence|].
    assert (¬ is_target w' x) as Hnt.
    { rewrite is_target_same by done. intros Ht. apply (placed_target w q None x Hpl) in Ht as [_ Ht].
      apply Ht. by exists p. }
    apply placed_detached; unfold priority_ok; rewrite ?V1, ?V2, ?V4, ?V5; try done; try congruence.
    by left.
Qed.

Lemma owned_hand_idle w q :
  owned w q None → t_state (T w IDLE_SLOT) = Ready → ¬ is_target w IDLE_SLOT →
  owned w q (Some IDLE_SLOT).
Proof.
  intros Hw Hst Ht. pose proof (owned_idle_detached w q None Hw) as Hd.
  pose proof (owned_placed w q None (proj2 Hw) _ idle_slot_in) as Hpl.
  apply (owned_change w w q q None _ IDLE_SLOT Hw (proj1 Hw)); try done.
  - intros j Hj. split; congruence.
  - intros _. destruct (owned_not_waiting w q None _ Hw idle_slot_in) as [Hws Hwm]; [congruence|].
    apply placed_detached; try done; [apply Hpl|congruence|by left].
Qed.

Lemma owned_pop_or_idle w q :
  owned w q None → t_state (T w IDLE_SLOT) = Ready → ¬ is_target w IDLE_SLOT →
  wp ready_pop_or_idle (λ x w', core w' = core w ∧
    ((no_ready q ∧ x = IDLE_SLOT ∧ w' = w ∧ owned w q (Some IDLE_SLOT)) ∨
     (∃ p l, highest q p x l ∧ x ≠ IDLE_SLOT ∧ owned w' (qset (QReady p) l q) (Some x)))) w.
Proof.
  intros Ho Hi Ht. unfold ready_pop_or_idle. apply wp_bind.
  wp_apply (owned_pop w q Ho). intros x w' [Hc [(Hno & -> & ->)|(p & l & Hh & Hne & Ho')]]; apply wp_ret.
  - rewrite Z.eqb_refl. split; [done|]. left. split_and!; try done. by apply owned_hand_idle.
  - assert (slot_in x) as Hx by (by apply (owned_hand_slot _ _ _ (proj2 Ho'))).
    pose proof (slot_in_not_NIL x Hx) as HxN. apply Z.eqb_neq in HxN. rewrite HxN.
    split; [done|]. right. by exists p, l.
Qed.

(** The idle task needs no owner: the hand can let go of it. *)
Lemma owned_release_idle w q : owned w q (Some IDLE_SLOT) → owned w q None.
Proof.
  intros Hw. pose proof (owned_idle_detached w q _ Hw) as Hd.
  pose proof (owned_placed w q _ (proj2 Hw) _ idle_slot_in) as Hpl.
  apply (owned_change w w q q (Some IDLE_SLOT) _ IDLE_SLOT Hw (proj1 Hw)); try done.
  - intros j Hj. split; congruence.
  - intros _. destruct (placed_hand w q _ _ Hpl eq_refl) as (Hst & _ & Hnt).
    destruct (owned_not_waiting w q _ _ Hw idle_slot_in) as [Hws Hwm]; [congruence|].
    apply placed_detached; try done; [apply Hpl|congruence|by left].
Qed.

(** The task in hand goes to the back of its queue. *)
Lemma owned_put_back w q x :
  owned w q (Some x) → x ≠ IDLE_SLOT →
  wp (ready_push x) (λ _ w', core w' = core w ∧
    owned w' (qset (QReady (t_priority (T w x))) (q (QReady (t_priority (T w x))) ++ [x]) q) None) w.
Proof.
  intros Hw Hne. pose proof Hw as [Hq Ho].
  assert (slot_in x) as Hx by (by apply (owned_hand_slot w q _ Ho)).
  pose proof (owned_placed w q _ Ho x Hx) as Hpl.
  destruct (placed_hand w q _ x Hpl eq_refl) as (Hst & Hnq & Hnt).
  destruct (owned_not_waiting w q _ x Hw Hx) as [Hs Hm]; [congruence|].
  assert (detached q x) as Hd by (by eapply owned_detached).
  pose proof (placed_priority w q _ x Hpl) as Hp.
  wp_apply (ready_push_spec w q x Hq Hx Hd Hp). intros _ w' [Hq' Hc]. split; [done|].
  set (p := t_priority (T w x)) in *. pose proof (same_view_core w w' Hc) as V.
  destruct (V) as [Vt Vp Vc]. destruct (Vt x) as [V1 V2 V3 V4 V5].
  apply (owned_change w w' q _ (Some x) _ x Hw Hq'); try done.
  - intros j id Hj. apply elem_of_qset. set_solver.
  - intros j Hj. split; congruence.
  - intros _. assert (¬ is_target w' x) as Hnt' by (by rewrite is_target_same).
    assert (∀ id, x ∈ qset (QReady p) (q (QReady p) ++ [x]) q id → id = QReady p) as Hin.
    { intros id. unfold qset. case_decide; [done|]. by intros ?%Hd. }
    split; unfold priority_ok; rewrite ?V1, ?V2, ?V4, ?V5; try done; try congruence.
    + intros p' [= ->]%Hin. done.
    + intros _ _. left. exists p. split; [done|]. rewrite qset_eq. set_solver.
    + intros a [=]%Hin.
    + intros a [=]%Hin.
Qed.

(** [make_ready] on a task that runs, sleeps or has just left a wait queue. *)
Lemma owned_make_ready w q d i now :
  owned w q d → slot_in i → detached q i → t_state (T w i) ≠ Ready →
  t_waiting_sem (T w i) = 0 → t_waiting_mutex (T w i) = 0 →
  wp (make_ready i now) (λ _ w',
    owned w' (enqueued w i q) d ∧ core w' = core (upd_task i (readied now) w)) w.
Proof.
  intros Hw Hi Hd Hst Hws Hwm. pose proof Hw as [Hq Ho].
  pose proof (owned_placed w q d Ho i Hi) as Hpl. pose proof (placed_priority w q d i Hpl) as Hp.
  wp_apply (make_ready_spec w q i now Hq Hi Hd Hp). intros _ w' [Hq' Hc]. split; [|done].
  pose proof (same_view_core _ w' Hc) as V. destruct (V) as [Vt Vp Vc].
  destruct (Vt i) as [V1 V2 V3 V4 V5].
  rewrite !T_upd_eq in V1, V2, V3, V4, V5 by eauto with store.
  assert (d ≠ Some i) as Hnd by (intros E; by destruct (placed_hand w q d i Hpl E)).
  assert (¬ is_target w' i) as Hnt.
  { rewrite (is_target_same (upd_task i (readied now) w) w') by done. unfold is_target.
    intros Ht. apply (placed_target w q d i Hpl) in Ht. tauto. }
  assert (∀ id, i ∈ enqueued w i q id → id = QReady (t_priority (T w i)) ∧ i ≠ IDLE_SLOT) as Hin.
  { intros id. unfold enqueued. case_decide; [by intros ?%Hd|]. unfold qset.
    case_decide; [by subst|]. by intros ?%Hd. }
  apply (owned_change w w' q _ d d i Hw Hq'); try done.
  - apply (same_except_trans w (upd_task i (readied now) w)); [|by apply same_view_except].
    apply same_except_upd; [eauto with store|done..].
  - intros j id Hj. unfold enqueued. case_decide; [done|]. apply elem_of_qset. set_solver.
  - intros _. split; unfold priority_ok; rewrite ?V1, ?V2, ?V4, ?V5; simpl; try done; try congruence.
    + intros p [[= ->] ?]%Hin. done.
    + intros _ Hne. left. unfold enqueued. rewrite decide_False by done.
      exists (t_priority (T w i)). split; [done|]. rewrite qset_eq. set_solver.
    + intros a [[=] _]%Hin.
    + intros a [[=] _]%Hin.
    + by left.
Qed.

(** The running task leaves the hart for a state that no queue holds. *)
Lemma owned_leave w q d s g :
  owned w q d → t_state (T w (current w)) = Running → current w ≠ IDLE_SLOT →
  s = Sleeping ∨ s = Throttled →
  (∀ t, t_state (g t) = s ∧ t_priority (g t) = t_priority t ∧
    t_identity_generation (g t) = t_identity_generation t ∧
    t_waiting_sem (g t) = t_waiting_sem t ∧ t_waiting_mutex (g t) = t_waiting_mutex t ∧
    t_next (g t) = t_next t) →
  owned (upd_task (current w) g w) q d.
Proof.
  intros Hw Hst Hidle Hs Hg. pose proof Hw as [Hq Ho]. set (i := current w) in *.
  assert (slot_in i) as Hi by (by eapply owned_slot_current).
  pose proof (owned_placed w q d Ho i Hi) as Hpl. destruct (Hg (T w i)) as (G1 & G2 & G3 & G4 & G5 & G6).
  destruct (owned_not_waiting w q d i Hw Hi) as [Hws Hwm]; [congruence|].
  assert (detached q i) as Hd.
  { apply (owned_detached w q d); try done. apply (owned_not_queued w q d); [done..|congruence]. }
  destruct (placed_running w q d i Hpl Hst) as [_ Hpn].
  apply (owned_change w _ q q d d i Hw); try done.
  - apply queues_upd_task; [|done]. intros t. apply Hg.
  - apply same_except_upd; [eauto with store|done|]. intros t. apply Hg.
  - intros _. apply placed_detached; unfold priority_ok; rewrite ?T_upd_eq by eauto with store;
      rewrite ?G1, ?G2, ?G4, ?G5; try done; try (destruct Hs; congruence).
    + apply Hpl.
    + intros E. destruct (placed_hand w q d i Hpl E). congruence.
    + unfold is_target. change (pending (upd_task i g w)) with (pending w). by rewrite Hpn.
Qed.

(** ** A started scheduler

    The stores the witnesses of the later files start from: the adopted main task
    runs, idle is ready, and three free slots are prepared as spawned tasks. *)

Definition spawned (priority : Z) (t : Tcb) : Tcb :=
  t <| t_priority := priority |> <| t_base_priority := priority |>
    <| t_identity_generation := 1 |> <| t_saved_frame := 4096 |>.

Definition boot_tasks (w : World) : World :=
  upd_task 4 (spawned 1) (upd_task 3 (spawned 5) (upd_task 2 (spawned 5)
    (upd_task 1 (λ t, (spawned 31 t) <| t_state := Ready |>)
      (upd_task 0 (λ t, t <| t_state := Running |> <| t_identity_generation := 1 |>
         <| t_run_policy := Preemptive 10 |>) w)))).

Definition boot : World := (boot_tasks (World_new 4)) <| w_sched ::= λ s, s <| s_started := true |> |>.

Lemma boot_queues : queues boot no_queues.
Proof.
  unfold boot. apply queues_sched; [done..|].
  unfold boot_tasks. repeat (apply queues_upd_task; [done|]). apply World_new_queues.
Qed.

Lemma boot_T i : T boot i =
  if decide (i = 0) then Tcb_empty <| t_state := Running |> <| t_identity_generation := 1 |> <| t_run_policy := Preemptive 10 |>
  else if decide (i = 1) then (spawned 31 Tcb_empty) <| t_state := Ready |>
  else if decide (i = 2) then spawned 5 Tcb_empty
  else if decide (i = 3) then spawned 5 Tcb_empty
  else if decide (i = 4) then spawned 1 Tcb_empty else Tcb_empty.
Proof.
  unfold boot. rewrite T_sched by done. unfold boot_tasks.
  assert (shape (World_new 4)) as Hs by (eapply queues_shape, World_new_queues).
  rewrite !T_upd_task by (eauto 10 with store || (unfold slot_in; rewrite slot_count_value; lia)).
  rewrite T_new. repeat case_decide; congruence || lia || done.
Qed.

Lemma boot_owned : owned boot no_queues None.
Proof.
  split; [apply boot_queues|]. split; try done.
  - intros i Hi. apply placed_detached; unfold is_target, priority_ok; rewrite ?boot_T; simpl.
    + intros id. set_solver.
    + repeat case_decide; simpl; unfold PRIORITY_LEVELS; lia.
    + by repeat case_decide.
    + by repeat case_decide.
    + repeat case_decide; simpl; done || (subst; intros _ []; done) || done.
    + done.
    + intros [].
    + repeat case_decide; simpl; done || (subst; done).
    + intros ->. by left.
Qed.

(** Evaluating a claim about every slot. *)
Lemma all_slots (b : Z → bool) : forallb b (range 0 17) = true → ∀ i, slot_in i → b i = true.
Proof.
  intros H i Hi. rewrite forallb_forall in H. apply H. apply list_elem_of_In, elem_of_range. done.
Qed.

(** The store after a run. *)
Definition final {A} (m : M World A) (w : World) : World :=
  match m w with Done (_, w') => w' | Fault _ => w end.

Lemma wp_final {A} (m : M World A) Q w : wp m Q w → ∃ a, Q a (final m w).
Proof. unfold wp, final. destruct (m w) as [[a w']|]; [eauto|done]. Qed.

(** Tasks 2, 3 and 4 made ready in that order. *)
Definition ready_three : World :=
  final (make_ready 2 0) (final (make_ready 3 0) (final (make_ready 4 0) boot)).

Definition ready_three_queues : Queues :=
  qset (QReady 5) [3; 2] (qset (QReady 5) [3] (qset (QReady 1) [4] no_queues)).

Lemma owned_make_ready_final w q i now p :
  owned w q None → slot_in i → (∀ id, i ∉ q id) → t_state (T w i) = Free → t_priority (T w i) = p →
  t_waiting_sem (T w i) = 0 → t_waiting_mutex (T w i) = 0 → i ≠ IDLE_SLOT →
  owned (final (make_ready i now) w) (qset (QReady p) (q (QReady p) ++ [i]) q) None.
Proof.
  intros Hw Hi Hd Hst Hp Hws Hwm Hne.
  assert (t_state (T w i) ≠ Ready) as Hnr by congruence.
  destruct (wp_final _ _ _ (owned_make_ready w q None i now Hw Hi Hd Hnr Hws Hwm)) as (_ & Ho & _).
  revert Ho. unfold enqueued. by rewrite decide_False, Hp.
Qed.

Lemma ready_three_owned : owned ready_three ready_three_queues None.
Proof.
  assert (∀ i, slot_in i ↔ 0 <= i < 17) as Hin by done.
  pose proof (owned_make_ready_final boot no_queues 4 0 1 boot_owned) as H4.
  set (w4 := final (make_ready 4 0) boot) in *.
  pose proof (owned_make_ready_final w4 (qset (QReady 1) [4] no_queues) 3 0 5) as H3.
  set (w3 := final (make_ready 3 0) w4) in *.
  pose proof (owned_make_ready_final w3 (qset (QReady 5) [3] (qset (QReady 1) [4] no_queues)) 2 0 5) as H2.
  assert (owned w4 (qset (QReady 1) [4] no_queues) None) as Ho4.
  { apply H4; rewrite ?Hin; try lia; try (by vm_compute). intros id. set_solver. }
  assert (owned w3 (qset (QReady 5) [3] (qset (QReady 1) [4] no_queues)) None) as Ho3.
  { apply H3; rewrite ?Hin; try done; try lia; try (by vm_compute).
    intros id. unfold qset. repeat case_decide; set_solver. }
  apply H2; rewrite ?Hin; try done; try lia; try (by vm_compute).
  intros id. unfold qset. repeat case_decide; set_solver.
Qed.
