(* ===== verification/Dispatch.v ===== *)
(** * Switch intents and dispatch keep ownership

    The specifications of [Switch] over the ownership invariant, and the
    properties they add up to: an intent is committed or its target restored, a
    committed one is dispatched at most once, and the trap epilogue gives the hart
    to the task the scheduling contract names. *)

From S2P Require Import Prelude Effects Budget Contract Config Context Reservation.
From S2P Require Import Tcb Store Chain Ready Switch Invariant.

(** ** The task a dispatch takes *)

(** The oldest task of the best priority among [ps]. *)
Fixpoint first_ready (ps : list Z) (q : Queues) : option Z :=
  match ps with
  | [] => None
  | p :: ps => match q (QReady p) with x :: _ => Some x | [] => first_ready ps q end
  end.
Definition best (q : Queues) : option Z := first_ready priorities q.

(** The queues without the task [x]. *)
Definition taken (x : Z) (q : Queues) : Queues := λ id, without x (q id).

Lemma first_ready_None ps q : first_ready ps q = None ↔ ∀ p, p ∈ ps → q (QReady p) = [].
Proof.
  induction ps as [|p ps IH]; simpl; [set_solver|].
  destruct (q (QReady p)) as [|x l] eqn:E.
  - rewrite IH. set_solver.
  - split; [done|]. intros H. rewrite H in E by left. done.
Qed.

Lemma best_no_ready q : no_ready q ↔ best q = None.
Proof.
  unfold best. rewrite first_ready_None. unfold no_ready, priorities.
  by setoid_rewrite elem_of_range.
Qed.

Lemma range_cons lo hi : lo < hi → range lo hi = lo :: range (lo + 1) hi.
Proof.
  intros H. unfold range. replace (Z.to_nat (hi - lo)) with (S (Z.to_nat (hi - (lo + 1)))) by lia.
  rewrite <-cons_seq, <-fmap_S_seq. simpl. f_equal; [lia|]. rewrite <-list_fmap_compose.
  apply list_fmap_ext. intros ? k _. simpl. lia.
Qed.

Lemma first_ready_range q p x l lo hi :
  q (QReady p) = x :: l → (∀ p', lo <= p' < p → q (QReady p') = []) → lo <= p →
  first_ready (range lo hi) q = if decide (p < hi) then Some x else None.
Proof.
  intros Hx Hlow. remember (Z.to_nat (p - lo)) as n eqn:En. revert lo Hlow En.
  induction n as [|n IH]; intros lo Hlow En Hlo.
  - assert (lo = p) as -> by lia. case_decide.
    + rewrite range_cons by done. simpl. by rewrite Hx.
    + unfold range. by replace (Z.to_nat (hi - p)) with O by lia.
  - destruct (decide (lo < hi)).
    + rewrite range_cons by done. simpl. rewrite Hlow by lia. apply IH; [|lia..].
      intros p' Hp'. apply Hlow. lia.
    + unfold range. replace (Z.to_nat (hi - lo)) with O by lia. case_decide; [lia|done].
Qed.

Lemma best_queued q x : best q = Some x → ∃ p, x ∈ q (QReady p).
Proof.
  unfold best. induction priorities as [|p ps IH]; simpl; [done|].
  destruct (q (QReady p)) as [|y l] eqn:E; [done|]. intros [= ->]. exists p. rewrite E. left.
Qed.

Lemma best_highest q p x l : highest q p x l → best q = Some x.
Proof.
  intros (Hp & Hx & Hlow). unfold best, priorities.
  rewrite (first_ready_range q p x l) by (done || lia). by rewrite decide_True by lia.
Qed.

Lemma taken_highest w q p x l id :
  queues w q → highest q p x l → qset (QReady p) l q id = taken x q id.
Proof.
  intros Hq (Hp & Hx & _). unfold taken. pose proof (queues_nodup w q Hq (QReady p)) as Hnd.
  rewrite Hx in Hnd. unfold qset. case_decide as E.
  - subst. rewrite Hx. symmetry. apply (without_split [] x l Hnd).
  - rewrite without_not_in; [done|]. intros Hin. apply E.
    eapply (queues_disjoint w q Hq); [|done]. rewrite Hx. left.
Qed.

Lemma owned_ext w q q' d : (∀ id, q' id = q id) → owned w q d → owned w q' d.
Proof.
  intros E Ho. apply (owned_core w w q q' d); try done. apply (queues_ext w q); [done|apply Ho].
Qed.

Lemma owned_take w q :
  owned w q None →
  wp ready_pop (λ x w', core w' = core w ∧
    match best q with
    | None => x = NIL ∧ w' = w
    | Some y => x = y ∧ y ≠ IDLE_SLOT ∧ owned w' (taken y q) (Some y)
    end) w.
Proof.
  intros Hw. wp_apply (owned_pop w q Hw).
  intros x w' [Hc [(Hno & -> & ->)|(p & l & Hh & Hx & Ho)]]; (split; [done|]).
  - by apply best_no_ready in Hno as ->.
  - rewrite (best_highest q p x l Hh). split_and!; [done..|].
    eapply owned_ext; [|exact Ho]. intros id. symmetry. by apply (taken_highest w q p x l); [apply Hw|].
Qed.

Lemma owned_take_or_idle w q :
  owned w q None → t_state (T w IDLE_SLOT) = Ready → ¬ is_target w IDLE_SLOT →
  wp ready_pop_or_idle (λ x w', core w' = core w ∧ x = default IDLE_SLOT (best q) ∧
    owned w' (taken x q) (Some x)) w.
Proof.
  intros Hw Hi Ht. wp_apply (owned_pop_or_idle w q Hw Hi Ht).
  intros x w' [Hc [(Hno & -> & -> & Ho)|(p & l & Hh & Hx & Ho)]]; (split; [done|]).
  - apply best_no_ready in Hno as ->. split; [done|]. eapply owned_ext; [|exact Ho].
    intros id. apply without_not_in. by apply (owned_idle_detached w q None).
  - rewrite (best_highest q p x l Hh). split; [done|].
    eapply owned_ext; [|exact Ho]. intros id. symmetry. by apply (taken_highest w q p x l); [apply Hw|].
Qed.

(** ** Switch intents *)

Definition ref_of (w : World) (i : Z) : TaskRef := mkRef i (t_identity_generation (T w i)).
Definition sequence_of (w : World) : Z := s_next_switch_sequence (w_sched w).
Definition consumed_of (w : World) : Z := s_last_consumed_switch_sequence (w_sched w).

(** The sequence numbers of the tickets issued, pending and consumed. *)
Record tickets (w : World) : Prop := {
  tickets_order : 0 <= consumed_of w <= sequence_of w;
  tickets_bound : sequence_of w <= u64_max;
  tickets_pending p : pending w = Some p → consumed_of w < p.(ps_sequence) <= sequence_of w;
}.

(** The store after [prepare_switch_intent]. *)
Definition prepared (w : World) : World :=
  w <| w_sched ::= λ s, (s <| s_next_switch_sequence := s_next_switch_sequence s + 1 |>)
         <| s_diagnostics ::= λ d, d <| d_switch_intents_created ::= sat_incr_u32 |> |> |>.

Lemma owned_prepared w q d : owned w q d → owned (prepared w) q d.
Proof. by apply owned_sched. Qed.

Lemma wp_task_ref w i (Q : TaskRef → World → Prop) :
  shape w → slot_in i → Q (ref_of w i) w → wp (task_ref i) Q w.
Proof. intros. unfold task_ref. by go. Qed.

Lemma prepare_spec w q previous target (Q : SwitchIntent → World → Prop) :
  owned w q (Some target) → pending w = None → slot_in previous → sequence_of w < u64_max →
  Q (mkIntent (sequence_of w + 1) (ref_of w previous) (ref_of w target)
       (t_resume_generation (T w previous))) (prepared w) →
  wp (prepare_switch_intent previous target) Q w.
Proof.
  intros Hw Hp Hprev Hseq HQ. pose proof Hw as [Hq Ho].
  assert (slot_in target) as Ht by (by apply (owned_hand_slot w q _ Ho)).
  pose proof (placed_hand w q _ target (owned_placed w q _ Ho target Ht) eq_refl) as (Hst & Hnq & _).
  unfold prepare_switch_intent. go. change (s_pending_switch (w_sched w)) with (pending w).
  rewrite Hp. apply wp_assert; [done|]. go.
  eapply (wp_mono _ (λ b w', b = true ∧ w' = w)).
  - intros b w' [-> ->]. apply wp_bind, wp_assert; [done|]. go. fold (sequence_of w).
    unfold checked_add. rewrite (proj2 (Z.leb_le _ _)) by lia.
    eapply wp_expect; [done|]. go.
    set (w1 := w <| w_sched ::= λ s, s <| s_next_switch_sequence := _ |> |>).
    assert (shape w1) as Hs1 by (apply (shape_ext w); eauto with store).
    apply wp_task_ref; [done..|]. go. apply wp_task_ref; [done..|]. go. exact HQ.
  - destruct ((target =? previous) || (target =? IDLE_SLOT)); [by go|]. go. rewrite Hst. simpl. go.
    wp_apply (ready_contains_spec w q target Hq). intros b w' [-> Hb]. go. split; [|done].
    destruct b; [|done]. by destruct Hnq; apply Hb.
Qed.

(** What makes an intent valid when it is committed. *)
Definition live (w : World) (i : SwitchIntent) : bool :=
  (current w =? i.(si_previous).(ref_slot)) &&
  (t_resume_generation (T w i.(si_previous).(ref_slot)) =? i.(si_previous_resume_generation)) &&
  negb (state_eqb (t_state (T w i.(si_previous).(ref_slot))) Running).

(** A reference the current table still honours; out-of-table slots are honoured by none. *)
Definition ref_ok (w : World) (r : TaskRef) : bool :=
  match idx (s_tasks (w_sched w)) r.(ref_slot) with
  | Some tcb => t_identity_generation tcb =? r.(ref_generation)
  | None => false
  end.

Lemma ref_ok_spec w r : shape w → (ref_ok w r = true ↔ ref_current w r).
Proof.
  intros Hs. unfold ref_ok, ref_current. destruct (idx _ _) as [tcb|] eqn:E.
  - apply (idx_at_inv Tcb_empty) in E as [Hr E]. unfold T. rewrite E, Z.eqb_eq.
    split; [|tauto]. intros H. split; [|done]. destruct Hs as [Hl _ _ _ _].
    unfold in_range, slot_in in *. lia.
  - split; [done|]. intros [Hi _]. apply (shape_in w _ Hs) in Hi. by apply idx_None in E.
Qed.

Lemma wp_ref_ok w r (Q : bool → World → Prop) : Q (ref_ok w r) w → wp (task_ref_is_current r) Q w.
Proof. intros. unfold task_ref_is_current. by go. Qed.

(** The queues after a detached task came back. *)
Definition restored (w : World) (x : Z) (q : Queues) : Queues := enqueued w x q.

Lemma restore_spec w q x :
  owned w q (Some x) →
  wp (restore_detached_switch_target x) (λ _ w', core w' = core w ∧ owned w' (restored w x q) None) w.
Proof.
  intros Hw. pose proof Hw as [Hq Ho]. assert (slot_in x) as Hx by (by apply (owned_hand_slot w q _ Ho)).
  pose proof (placed_hand w q _ x (owned_placed w q _ Ho x Hx) eq_refl) as (Hst & Hnq & _).
  unfold restore_detached_switch_target, restored, enqueued.
  destruct (Z.eqb_spec x IDLE_SLOT) as [->|Hne].
  { go. rewrite decide_True by done. split; [done|]. by apply owned_release_idle. }
  rewrite decide_False by done. go. rewrite Hst. simpl. go.
  wp_apply (ready_contains_spec w q x Hq). intros b w' [-> Hb].
  destruct b; [by destruct Hnq; apply Hb|]. simpl. by apply owned_put_back.
Qed.

(** A task that is no longer Ready has nothing to restore. *)
Lemma restore_noop w x (Q : unit → World → Prop) :
  shape w → slot_in x → t_state (T w x) ≠ Ready → Q tt w → wp (restore_detached_switch_target x) Q w.
Proof.
  intros Hs Hx Hst HQ. unfold restore_detached_switch_target. destruct (x =? IDLE_SLOT); [by go|].
  go. unfold state_eqb. rewrite bool_decide_false by done. by go.
Qed.

Definition committed (i : SwitchIntent) (w : World) : World :=
  w <| w_sched ::= λ s, (s <| s_pending_switch :=
           Some (mkPending i.(si_sequence) i.(si_previous) i.(si_target)) |>)
         <| s_diagnostics ::= λ d, d <| d_switch_intents_committed ::= sat_incr_u32 |> |> |>.

(** Only the pending switch, the current task and the hand differ; [x] changes hands. *)
Lemma owned_handover w w' q d d' x :
  owned w q d → queues w' q → (∀ j, j ≠ x → same_task w w' j) →
  t_identity_generation (T w' x) = t_identity_generation (T w x) →
  (∀ j, j ≠ x → slot_in j → t_state (T w j) ≠ Running) →
  (∀ j, j ≠ x → d' ≠ Some j ∧ d ≠ Some j ∧ ¬ is_target w j ∧ ¬ is_target w' j) →
  (∀ p, pending w' = Some p → ref_current w p.(ps_target) ∧ ref_current w p.(ps_previous) ∧
     p.(ps_previous).(ref_slot) = current w') →
  slot_in (current w') → slot_in x → placed w' q d' x → owned w' q d'.
Proof.
  intros [Hq Ho] Hq' Hsame Hid Hrun Hj Hp Hc Hx Hpl. split; [done|]. split; [|..|done|].
  - intros j Hjs. destruct (decide (j = x)) as [->|Hne]; [done|]. destruct (Hj j Hne) as (? & ? & ? & ?).
    apply (placed_ext w w' q q d d' j); auto; try tauto.
    + intros Hr. by destruct (Hrun j).
    + by apply Ho.
  - intros p Hpp. destruct (Hp p Hpp) as ([? E1] & [? E2] & ?). unfold ref_current.
    assert (∀ j, t_identity_generation (T w' j) = t_identity_generation (T w j)) as Hids.
    { intros j. destruct (decide (j = x)) as [->|]; [done|]. by apply Hsame. }
    by rewrite !Hids.
  - intros j Hd. destruct (decide (j = x)) as [->|Hne]; [done|]. by destruct (Hj j Hne).
Qed.

Lemma owned_committed w q i :
  owned w q (Some i.(si_target).(ref_slot)) → pending w = None →
  ref_current w i.(si_target) → ref_current w i.(si_previous) →
  i.(si_previous).(ref_slot) = current w → t_state (T w (current w)) ≠ Running →
  owned (committed i w) q None.
Proof.
  intros Hw Hp Ht Hprev Hcur Hst. set (x := ref_slot (si_target i)) in *. pose proof Hw as [Hq Ho].
  assert (slot_in x) as Hx by apply Ht.
  pose proof (owned_placed w q _ Ho x Hx) as Hpl.
  destruct (placed_hand w q _ x Hpl eq_refl) as (Hready & Hnq & _).
  destruct (owned_not_waiting w q _ x Hw Hx) as [Hws Hwm]; [congruence|].
  apply (owned_handover w _ q (Some x) None x); try done.
  - apply (queues_same w); try done; try (by intros []).
    apply (shape_ext w); try done. by eapply owned_shape.
  - intros j Hj Hjs Hr. by destruct (placed_running w q _ j (owned_placed w q _ Ho j Hjs) Hr) as [-> _].
  - intros j Hj. unfold is_target. simpl. rewrite Hp. split_and!; try done; congruence.
  - intros p [= <-]. by split_and!.
  - exact (owned_slot_current w q _ Hw).
  - apply placed_detached; unfold is_target; cbn; try done.
    + by apply (owned_detached w q (Some x)).
    + apply Hpl.
    + by right.
    + change (T (committed i w) x) with (T w x). congruence.
    + change (T (committed i w) x) with (T w x). by left.
Qed.

(** What [commit_switch_intent] does to an intent whose target is in hand. *)
Lemma commit_spec w q i :
  owned w q (Some i.(si_target).(ref_slot)) → pending w = None → ref_ok w i.(si_target) = true →
  wp (commit_switch_intent i) (λ b w',
    if ref_ok w i.(si_previous) && live w i
    then b = true ∧ w' = committed i w ∧ owned w' q None
    else b = false ∧ pending w' = None ∧ owned w' (restored w i.(si_target).(ref_slot) q) None ∧
         same_view w w') w.
Proof.
  intros Hw Hp Ht. set (x := ref_slot (si_target i)) in *. pose proof (owned_shape w q _ Hw) as Hs.
  assert (∀ c w', core w' = core w → owned w' (restored w x q) None →
    pending (w' <| w_sched ::= c |>) = pending w' → same_view w' (w' <| w_sched ::= c |>) →
    owned (w' <| w_sched ::= c |>) (restored w x q) None →
    pending (w' <| w_sched ::= c |>) = None ∧ owned (w' <| w_sched ::= c |>) (restored w x q) None ∧
    same_view w (w' <| w_sched ::= c |>)) as Hfin.
  { intros c w' Hc Ho Hpc V Ho'. split_and!; [|done|].
    - rewrite Hpc. rewrite <-Hp. by apply (core_sched s_pending_switch).
    - eapply same_view_trans; [by apply same_view_core|done]. }
  unfold commit_switch_intent. go. apply wp_ref_ok. go. apply wp_ref_ok. rewrite Ht.
  destruct (ref_ok w (si_previous i)) eqn:Hprev; cbn [negb orb andb when].
  2:{ go. wp_apply (restore_spec w q x Hw). intros _ w' [Hc Ho]. go. split; [done|].
      apply Hfin; try done. by apply owned_sched. }
  apply ref_ok_spec in Hprev as [Hps Hpg]; [|done]. unfold live.
  set (pr := ref_slot (si_previous i)) in *. go. fold (current w).
  destruct (Z.eqb_spec (current w) pr) as [Hcur|Hcur]; cbn [negb orb andb].
  2:{ go. wp_apply (restore_spec w q x Hw). intros _ w' [Hc Ho]. go. split; [done|].
      apply Hfin; try done. by apply owned_sched. }
  destruct (state_eqb (t_state (T w pr)) Running) eqn:Hrun; cbn [negb].
  - rewrite orb_true_r, andb_false_r. go. unfold recover_completed_switch_request. go.
    fold (current w). rewrite Hcur, Z.eqb_refl. cbn [negb]. go. rewrite Hrun. cbn [negb]. go.
    wp_apply (restore_spec w q x Hw). intros _ w' [Hc Ho]. go. split; [done|].
    set (w1 := w' <| w_sched ::= _ |>).
    assert (owned w1 (restored w x q) None) as Ho1 by (by apply owned_sched).
    split_and!; [|by apply owned_sched|].
    + change (pending w' = None). rewrite <-Hp. by apply (core_sched s_pending_switch).
    + apply (same_view_trans w w'); [by apply same_view_core|done].
  - rewrite orb_false_r, andb_true_r. destruct (t_resume_generation (T w pr) =? _); cbn [negb].
    + go. change (s_pending_switch (w_sched w)) with (pending w). rewrite Hp.
      apply wp_assert; [done|]. go. split_and!; [done..|].
      change (owned (committed i w) q None). apply owned_committed; try done.
      * by apply ref_ok_spec.
      * by rewrite Hcur; intros E; rewrite E in Hrun.
    + go. wp_apply (restore_spec w q x Hw). intros _ w' [Hc Ho]. go. split; [done|].
      apply Hfin; try done. by apply owned_sched.
Qed.

Lemma owned_idle_ready w q d :
  owned w q d → t_state (T w (current w)) ≠ Running → t_state (T w IDLE_SLOT) = Ready.
Proof.
  intros [_ Ho] Hc. pose proof (owned_placed w q d Ho _ idle_slot_in) as Hpl.
  destruct (placed_idle w q d _ Hpl eq_refl) as [|Hr]; [done|].
  destruct (placed_running w q d _ Hpl Hr) as [E _]. congruence.
Qed.

(** ** Consuming the pending switch *)

Definition consumed (p : PendingSwitch) (w : World) : World :=
  w <| w_sched ::= λ s, (s <| s_pending_switch := None |>
         <| s_last_consumed_switch_sequence := p.(ps_sequence) |>)
         <| s_diagnostics ::= λ d, d <| d_switch_intents_completed ::= sat_incr_u32 |> |> |>.

Lemma owned_consumed w q p :
  owned w q None → pending w = Some p → t_state (T w (current w)) ≠ Running →
  owned (consumed p w) q (Some p.(ps_target).(ref_slot)).
Proof.
  intros Hw Hp Hst. pose proof Hw as [Hq Ho]. set (x := p.(ps_target).(ref_slot)).
  destruct (owned_pending w q None Ho p Hp) as (Ht & _ & _). assert (slot_in x) as Hx by apply Ht.
  pose proof (owned_placed w q _ Ho x Hx) as Hpl.
  assert (is_target w x) as Htx by (unfold is_target; by rewrite Hp).
  destruct (placed_target w q _ x Hpl Htx) as (Hready & Hnq).
  destruct (owned_not_waiting w q _ x Hw Hx) as [Hws Hwm]; [congruence|].
  apply (owned_handover w _ q None (Some x) x); try done.
  - apply (queues_same w); try done; try (by intros []).
    apply (shape_ext w); try done. by eapply owned_shape.
  - intros j Hj Hjs Hr. by destruct (placed_running w q _ j (owned_placed w q _ Ho j Hjs) Hr) as [-> _].
  - intros j Hj. unfold is_target. simpl. rewrite Hp. split_and!; try done; congruence.
  - exact (owned_slot_current w q _ Hw).
  - apply placed_detached; unfold is_target; cbn; try done.
    + by apply (owned_detached w q None).
    + apply Hpl.
    + by left.
    + intros _. by split; [|intros []].
    + change (T (consumed p w) x) with (T w x). congruence.
    + change (T (consumed p w) x) with (T w x). by left.
Qed.

Lemma consume_pending_spec w q p (Q : option (Z * Z) → World → Prop) :
  owned w q None → tickets w → pending w = Some p →
  Q (Some (current w, p.(ps_target).(ref_slot))) (consumed p w) → wp consume_pending_switch Q w.
Proof.
  intros Hw [_ _ Htk] Hp HQ. pose proof Hw as [_ Ho]. pose proof (owned_shape w q _ Hw) as Hs.
  destruct (owned_pending w q None Ho p Hp) as (Ht & Hprev & Hcur). specialize (Htk p Hp).
  unfold consume_pending_switch. go. change (s_pending_switch (w_sched w)) with (pending w).
  rewrite Hp. set (w1 := w <| w_sched ::= _ |>).
  assert (∀ r, ref_ok w1 r = ref_ok w r) as Hok by done.
  go. apply wp_ref_ok. go. apply wp_ref_ok. rewrite !Hok.
  rewrite (proj2 (ref_ok_spec w _ Hs) Ht), (proj2 (ref_ok_spec w _ Hs) Hprev).
  go. apply wp_assert; [done|]. go. apply wp_assert; [|].
  { change ((consumed_of w <? ps_sequence p) = true). apply Z.ltb_lt. lia. }
  go. rewrite Hcur. exact HQ.
Qed.

(** ** Handing over the hart *)

Lemma owned_running w q x g :
  owned w q (Some x) → pending w = None → t_state (T w (current w)) ≠ Running →
  (∀ t, t_state (g t) = Running ∧ t_priority (g t) = t_priority t ∧
    t_identity_generation (g t) = t_identity_generation t ∧
    t_waiting_sem (g t) = t_waiting_sem t ∧ t_waiting_mutex (g t) = t_waiting_mutex t ∧
    t_next (g t) = t_next t) →
  owned ((upd_task x g w) <| w_sched ::= λ s, s <| s_current := x |> |>) q None.
Proof.
  intros Hw Hp Hst Hg. pose proof Hw as [Hq Ho]. pose proof (owned_shape w q _ Hw) as Hs.
  assert (slot_in x) as Hx by (by apply (owned_hand_slot w q _ Ho)).
  pose proof (owned_placed w q _ Ho x Hx) as Hpl.
  destruct (placed_hand w q _ x Hpl eq_refl) as (Hready & Hnq & _).
  destruct (owned_not_waiting w q _ x Hw Hx) as [Hws Hwm]; [congruence|].
  set (w1 := upd_task x g w). set (w2 := w1 <| w_sched ::= _ |>).
  assert (∀ j, T w2 j = T w1 j) as HT by done.
  destruct (Hg (T w x)) as (G1 & G2 & G3 & G4 & G5 & G6).
  apply (owned_handover w _ q (Some x) None x); try done.
  - apply (queues_same w1); try done; try (by intros []).
    + by apply queues_upd_task; [intros t; apply Hg|].
    + apply (shape_ext w1); try done. by apply shape_upd_task.
  - intros j Hj. split; rewrite HT; unfold w1; by rewrite T_upd_ne by done.
  - rewrite HT. unfold w1. by rewrite T_upd_eq.
  - intros j Hj Hjs Hr. by destruct (placed_running w q _ j (owned_placed w q _ Ho j Hjs) Hr) as [-> _].
  - intros j Hj. unfold is_target. change (pending w2) with (pending w). rewrite Hp.
    split_and!; try done; congruence.
  - intros p. change (pending w2) with (pending w). by rewrite Hp.
  - assert (pending w2 = None) as Hp2 by done.
    apply placed_detached; unfold is_target, priority_ok; rewrite ?HT, ?Hp2; unfold w1;
      rewrite ?T_upd_eq by done; rewrite ?G1, ?G2, ?G4, ?G5; try done.
    + by apply (owned_detached w q (Some x)).
    + apply Hpl.
    + by right.
Qed.

(** ** Selecting a target *)

Lemma any_ready_spec ps w q :
  queues w q → (∀ p, p ∈ ps → 0 <= p < PRIORITY_LEVELS) →
  wp (any_ready ps) (λ b w', w' = w ∧ b = bool_decide (is_Some (first_ready ps q))) w.
Proof.
  intros Hq. pose proof (queues_shape w q Hq) as Hs.
  induction ps as [|p ps IH]; intros Hps; cbn [any_ready]; [by go|].
  assert (0 <= p < PRIORITY_LEVELS) as Hp by (apply Hps; left).
  assert (valid w (QReady p)) as Hv by done. go. rewrite (queues_head w q) by done. cbn [first_ready].
  destruct (q (QReady p)) as [|x l] eqn:E; cbn [head default].
  - rewrite Z.eqb_refl. apply IH. intros p' Hp'. apply Hps. by right.
  - assert (slot_in x) as Hx by (eapply (queues_slot w q Hq (QReady p)); rewrite E; left).
    pose proof (slot_in_not_NIL x Hx) as HxN. apply Z.eqb_neq in HxN. cbn. rewrite HxN. by go.
Qed.

(** The task that takes the hart from a running [current]: any ready task from
    idle; from a preemptive task one of a better priority, or of the same when its
    slice has expired; none from a task that holds the scheduler lock. *)
Definition preemptor (w : World) (q : Queues) (slice_expired : bool) : option Z :=
  let t := T w (current w) in
  if negb (t_scheduler_lock_depth t =? 0) then None
  else if current w =? IDLE_SLOT then best q
  else if is_preemptive (t_run_policy t) then
    first_ready (range 0 (t_priority t + (if slice_expired then 1 else 0))) q
  else None.

Lemma first_ready_best q hi x :
  hi <= PRIORITY_LEVELS → first_ready (range 0 hi) q = Some x → best q = Some x.
Proof.
  intros Hhi H. destruct (decide (0 < hi)); [|unfold range in H; by replace (Z.to_nat (hi - 0)) with O in H by lia].
  unfold best, priorities. assert (range 0 PRIORITY_LEVELS = range 0 hi ++ range hi PRIORITY_LEVELS) as ->.
  { unfold range. replace (Z.to_nat (PRIORITY_LEVELS - 0)) with (Z.to_nat (hi - 0) + Z.to_nat (PRIORITY_LEVELS - hi))%nat by lia.
    rewrite seq_app, fmap_app. f_equal. rewrite Nat.add_0_l. apply list_eq. intros k.
    rewrite !list_lookup_fmap. destruct (decide (k < Z.to_nat (PRIORITY_LEVELS - hi))%nat).
    - rewrite !lookup_seq_lt by done. simpl. f_equal. lia.
    - rewrite !lookup_seq_ge by lia. done. }
  revert H. induction (range 0 hi) as [|p ps IH]; [done|]. simpl. destruct (q (QReady p)); auto.
Qed.

(** The running task is requeued behind the one that was taken. *)
Definition requeued (w : World) (x : Z) (q : Queues) : Queues := enqueued w (current w) (taken x q).

Lemma owned_requeue w q x now :
  owned w q (Some x) → t_state (T w (current w)) = Running →
  wp (make_ready (current w) now) (λ _ w', owned w' (enqueued w (current w) q) (Some x) ∧
    core w' = core (upd_task (current w) (readied now) w)) w.
Proof.
  intros Hw Hst. assert (slot_in (current w)) as Hc by (by eapply owned_slot_current).
  destruct (owned_not_waiting w q _ _ Hw Hc) as [Hws Hwm]; [congruence|].
  apply owned_make_ready; try done; [|congruence].
  apply (owned_detached w q (Some x)); try done. apply (owned_not_queued w q (Some x)); [done..|congruence].
Qed.

Lemma enqueued_priority w w' x q : t_priority (T w' x) = t_priority (T w x) → enqueued w' x q = enqueued w x q.
Proof. unfold enqueued. by intros ->. Qed.

Lemma reschedule_spec w q slice now :
  owned w q None →
  wp (take_reschedule_target slice now) (λ r w',
    match (if state_eqb (t_state (T w (current w))) Running then preemptor w q slice else None) with
    | None => r = None ∧ w' = w
    | Some x => r = Some (current w, x) ∧ owned w' (requeued w x q) (Some x) ∧ best q = Some x ∧
        core w' = core (upd_task (current w) (readied now) w)
    end) w.
Proof.
  intros Hw. pose proof Hw as [Hq Ho]. unfold take_reschedule_target, preemptor. go.
  fold (current w). set (c := current w). assert (slot_in c) as Hc by (by eapply owned_slot_current).
  go. destruct (state_eqb (t_state (T w c)) Running) eqn:Est; cbn [negb orb]; [|by go].
  destruct (t_scheduler_lock_depth (T w c) =? 0); cbn [negb orb]; [|by go].
  assert (t_state (T w c) = Running) as Hst by (apply bool_decide_eq_true_1 in Est; done).
  pose proof (owned_placed w q _ Ho c Hc) as Hpl. pose proof (placed_priority w q _ c Hpl) as Hp.
  assert (∀ y w1, core w1 = core w → best q = Some y → owned w1 (taken y q) (Some y) →
    wp (make_ready c now ;; mret (Some (c, y))) (λ r w', r = Some (c, y) ∧
      owned w' (requeued w y q) (Some y) ∧ best q = Some y ∧
      core w' = core (upd_task c (readied now) w)) w1) as Htake.
  { intros y w1 Hc1 Hb Ho1. assert (current w1 = c) as Hcur by (by apply (core_sched s_current)).
    go. rewrite <-Hcur. wp_apply (owned_requeue w1 (taken y q) y now Ho1).
    - intros _ w2 [Ho2 Hc2]. go. split_and!; [done| |done|].
      + unfold requeued. fold c. rewrite <-Hcur. rewrite <-(enqueued_priority w w1); [done|].
        by apply (core_field t_priority).
      + rewrite Hc2. rewrite !(core_upd_task _ _ _ (readied now)) by done. by rewrite Hc1.
    - rewrite Hcur, <-Hst. by apply (core_field t_state). }
  destruct (Z.eqb_spec c IDLE_SLOT) as [Hidle|Hidle].
  - go. wp_apply (owned_take w q Hw). intros x w1 [Hc1 Hx]. destruct (best q) as [y|] eqn:Hb.
    + destruct Hx as (-> & Hne & Ho1). assert (slot_in y) as Hy by (by apply (owned_hand_slot _ _ _ (proj2 Ho1))).
      pose proof (slot_in_not_NIL y Hy) as HyN. apply Z.eqb_neq in HyN. rewrite HyN. by apply Htake.
    + destruct Hx as [-> ->]. rewrite Z.eqb_refl. by go.
  - go. destruct (is_preemptive (t_run_policy (T w c))); cbn [negb]; [|by go]. unfold ready_priority. go.
    unfold priority_ok, PRIORITY_LEVELS in Hp.
    set (e := if slice then saturating_add usize_max (t_priority (T w c)) 1 else t_priority (T w c)).
    assert (e = t_priority (T w c) + (if slice then 1 else 0)) as <- by (unfold e; destruct slice; mlia).
    assert (e <= PRIORITY_LEVELS) as He by (unfold e, PRIORITY_LEVELS; destruct slice; mlia).
    wp_apply (any_ready_spec (range 0 e) w q Hq).
    2:{ intros p Hpe%elem_of_range. lia. }
    intros b w1 [-> ->]. destruct (first_ready (range 0 e) q) as [y|] eqn:Hf; simpl; [|by go].
    pose proof (first_ready_best q e y He Hf) as Hb.
    go. wp_apply (owned_take w q Hw). intros x w1 [Hc1 Hx]. rewrite Hb in Hx.
    destruct Hx as (-> & Hne & Ho1). assert (slot_in y) as Hy by (by apply (owned_hand_slot _ _ _ (proj2 Ho1))).
    pose proof (slot_in_not_NIL y Hy) as HyN. apply Z.eqb_neq in HyN. rewrite HyN.
    apply wp_bind, wp_assert; [done|]. by apply Htake.
Qed.

(** ** Handing the hart from one task to another *)

(** Every task but the running one has a frame to resume from. *)
Definition frames (w : World) : Prop := ∀ i, slot_in i → t_state (T w i) = Ready → i ≠ current w →
  t_saved_frame (T w i) ≠ 0.

(** Only budgets, metrics and scheduler bookkeeping differ. *)
Record accounted (w w' : World) : Prop := {
  accounted_field {A} (f : Tcb → A) : (∀ t g, f (t <| t_budget ::= g |>) = f t) →
    (∀ t g, f (t <| t_metrics ::= g |>) = f t) → ∀ j, f (T w' j) = f (T w j);
  accounted_pending : pending w' = pending w;
  accounted_current : current w' = current w;
  accounted_sequence : sequence_of w' = sequence_of w ∧ consumed_of w' = consumed_of w;
}.

Lemma account_spec w q d previous next now :
  owned w q d → slot_in previous → slot_in next →
  wp (account_switch previous next now) (λ _ w', accounted w w' ∧ owned w' q d) w.
Proof.
  intros Hw Hp Hn. pose proof (owned_shape w q d Hw) as Hs. unfold account_switch.
  apply wp_bind, wp_set_task; [done..|]. set (w1 := upd_task previous _ w).
  assert (owned w1 q d) as Hw1 by (by apply owned_upd).
  apply wp_bind, wp_set_task; [eauto with store..|]. set (w2 := upd_task next _ w1).
  assert (owned w2 q d) as Hw2 by (by apply owned_upd).
  apply wp_bind, wp_set_task; [eauto with store..|]. set (w3 := upd_task previous _ w2).
  assert (owned w3 q d) as Hw3 by (by apply owned_upd).
  apply wp_bind, wp_set_task; [eauto with store..|]. set (w4 := upd_task next _ w3).
  assert (owned w4 q d) as Hw4 by (by apply owned_upd).
  go. split; [|by apply owned_sched]. split; try done.
  intros A f Hb Hm j. change (f (T w4 j) = f (T w j)).
  unfold w4, w3, w2, w1. by rewrite !T_upd_field by (intros t; apply Hb || apply Hm).
Qed.

Record dispatched (frame : Z) (w w' : World) (next f : Z) : Prop := {
  dispatched_current : current w' = next;
  dispatched_state j : t_state (T w' j) = if decide (j = next) then Running else t_state (T w j);
  dispatched_frame : f = if decide (next = current w) then frame else t_saved_frame (T w next);
  dispatched_saved j : t_saved_frame (T w' j) =
    if decide (j = next) then 0
    else if decide (j = current w ∧ t_state (T w j) ≠ Free) then frame else t_saved_frame (T w j);
  dispatched_generation j : t_resume_generation (T w' j) =
    if decide (j = next) then wrapping_add u32_max (t_resume_generation (T w j)) 1
    else t_resume_generation (T w j);
  dispatched_identity j : t_identity_generation (T w' j) = t_identity_generation (T w j);
  dispatched_pending : pending w' = pending w;
  dispatched_sequence : sequence_of w' = sequence_of w ∧ consumed_of w' = consumed_of w;
}.

(** The store with the frame of the task that leaves the hart saved. *)
Definition frame_saved (frame : Z) (i : Z) (w : World) : World :=
  if state_eqb (t_state (T w i)) Free then w else upd_task i (λ t, t <| t_saved_frame := frame |>) w.

Definition resumed (t : Tcb) : Tcb :=
  t <| t_saved_frame := 0 |> <| t_state := Running |>
    <| t_resume_generation ::= λ g, wrapping_add u32_max g 1 |>.

Lemma T_frame_saved frame i w j :
  shape w → slot_in i → T (frame_saved frame i w) j =
    if decide (i = j ∧ t_state (T w j) ≠ Free) then (T w j) <| t_saved_frame := frame |> else T w j.
Proof.
  intros Hs Hi. unfold frame_saved, state_eqb. case_bool_decide as E.
  - rewrite decide_False; [done|]. intros [<- ?]. done.
  - rewrite T_upd_task by done. destruct (decide (i = j)) as [<-|].
    + by rewrite decide_True.
    + rewrite decide_False; [done|]. tauto.
Qed.

Lemma dispatch_tail_spec w q next frame :
  owned w q (Some next) → pending w = None → t_state (T w (current w)) ≠ Running →
  let w1 := frame_saved frame (current w) w in
  let w2 := (upd_task next resumed w1) <| w_sched ::= λ s, s <| s_current := next |> |> in
  owned w2 q None ∧ dispatched frame w w2 next (t_saved_frame (T w1 next)).
Proof.
  intros Hw Hp Hst w1 w2. pose proof (owned_shape w q _ Hw) as Hs. pose proof Hw as [_ Ho].
  assert (slot_in (current w)) as Hc by (by eapply owned_slot_current).
  assert (slot_in next) as Hn by (by apply (owned_hand_slot w q _ Ho)).
  destruct (placed_hand w q _ next (owned_placed w q _ Ho next Hn) eq_refl) as (Hready & _).
  assert (owned w1 q (Some next)) as Hw1.
  { unfold w1, frame_saved. destruct (state_eqb _ _); [done|]. by apply owned_upd. }
  pose proof (owned_shape w1 q _ Hw1) as Hs1.
  assert (current w1 = current w ∧ pending w1 = pending w ∧ sequence_of w1 = sequence_of w ∧
    consumed_of w1 = consumed_of w) as (E1 & E2 & E3 & E4)
    by (unfold w1, frame_saved; by destruct (state_eqb _ _)).
  assert (∀ j, T w2 j = if decide (next = j) then resumed (T w1 j) else T w1 j) as HT.
  { intros j. change (T w2 j) with (T (upd_task next resumed w1) j). by apply T_upd_task. }
  assert (∀ j, T w1 j = if decide (current w = j ∧ t_state (T w j) ≠ Free)
    then (T w j) <| t_saved_frame := frame |> else T w j) as HT1 by (intros j; by apply T_frame_saved).
  assert (t_state (T w1 (current w)) = t_state (T w (current w))) as Hst1
    by (rewrite HT1; by case_decide).
  split; [apply (owned_running w1 q next); try done; congruence|].
  split; try done.
  - intros j. rewrite HT, HT1. repeat case_decide; simpl in *; congruence.
  - rewrite HT1. repeat case_decide; simpl in *; naive_solver congruence.
  - intros j. rewrite HT, HT1. repeat case_decide; simpl in *; naive_solver congruence.
  - intros j. rewrite HT, HT1. repeat case_decide; simpl in *; subst; try done; naive_solver congruence.
  - intros j. rewrite HT, HT1. by repeat case_decide.
Qed.

Lemma dispatched_frames w w' next frame f :
  shape w → frames w → frame ≠ 0 → dispatched frame w w' next f → frames w'.
Proof.
  intros Hs Hfr Hf [H1 H2 H3 H4 H5 H6 H7 H8] i Hi Hst Hne. rewrite H1 in Hne.
  rewrite H2, decide_False in Hst by done. rewrite H4, decide_False by done.
  clear H3. case_decide as Hd; [done|].
  apply Hfr; [done..|]. intros ->. apply Hd. split; congruence.
Qed.

Lemma dispatched_accounted frame w w1 w' next f :
  accounted w w1 → dispatched frame w1 w' next f → dispatched frame w w' next f.
Proof.
  intros [A1 A2 A3 [A4 A5]] [H1 H2 H3 H4 H5 H6 H7 [H8 H9]].
  split; [done|..]; intros *; rewrite ?H2, ?H3, ?H4, ?H5, ?H6, ?H7, ?H8, ?H9, ?A2, ?A3, ?A4, ?A5;
    rewrite ?(A1 _ t_state), ?(A1 _ t_saved_frame), ?(A1 _ t_resume_generation),
      ?(A1 _ t_identity_generation) by done; done.
Qed.

Lemma dispatch_to_spec w q next frame now slice cp :
  owned w q (Some next) → pending w = None → t_state (T w (current w)) ≠ Running →
  frames w → frame ≠ 0 →
  wp (dispatch_to frame now slice cp (current w) next) (λ f w',
    dispatched frame w w' next f ∧ owned w' q None ∧ frames w') w.
Proof.
  intros Hw Hp Hst Hfr Hf. pose proof Hw as [_ Ho]. set (c := current w) in *.
  assert (slot_in c) as Hc by (by eapply owned_slot_current).
  assert (slot_in next) as Hn by (by apply (owned_hand_slot w q _ Ho)).
  destruct (placed_hand w q _ next (owned_placed w q _ Ho next Hn) eq_refl) as (Hready & _).
  unfold dispatch_to. apply wp_bind. wp_apply (account_spec w q (Some next) c next now Hw Hc Hn).
  intros _ w1 [Ha Hw1]. pose proof (owned_shape w1 q _ Hw1) as Hs1. pose proof Ha as [A1 A2 A3 _].
  assert (t_state (T w1 (current w1)) ≠ Running) as Hst1 by (rewrite A3, (A1 _ t_state) by done; done).
  assert (pending w1 = None) as Hp1 by congruence.
  destruct (dispatch_tail_spec w1 q next frame Hw1 Hp1 Hst1) as [Ho2 Hd2].
  rewrite A3 in Ho2, Hd2. fold c in Ho2, Hd2.
  set (w2 := frame_saved frame c w1) in *.
  assert (shape w2) as Hs2 by (unfold w2, frame_saved; destruct (state_eqb _ _); eauto with store).
  assert (t_saved_frame (T w2 next) ≠ 0) as Hnz.
  { rewrite (dispatched_frame _ _ _ _ _ Hd2). case_decide as E; [done|]. rewrite (A1 _ t_saved_frame) by done.
    rewrite A3 in E. by apply Hfr. }
  go. eapply (wp_mono _ (λ _ w', w' = w2)).
  2:{ unfold w2, frame_saved. destruct (state_eqb _ _); simpl; go; done. }
  intros _ w2' ->. go. apply wp_assert; [by apply negb_true_iff, Z.eqb_neq|]. unfold set_current. go.
  rewrite !upd_task_compose. set (w3 := (upd_task next _ w2) <| w_sched ::= _ |>).
  assert (owned w3 q None ∧ dispatched frame w1 w3 next (t_saved_frame (T w2 next))) as [Ho3 Hd3] by done.
  set (w4 := w3 <| w_sched ::= _ |> <| w_sched ::= _ |>).
  assert (owned w4 q None) as Ho4 by (by apply owned_sched, owned_sched).
  assert (∀ w5, T w5 = T w3 → pending w5 = pending w3 → current w5 = current w3 →
    sequence_of w5 = sequence_of w3 → consumed_of w5 = consumed_of w3 →
    owned w5 q None → dispatched frame w w5 next (t_saved_frame (T w2 next)) ∧ owned w5 q None ∧
      frames w5) as Hfin.
  { intros w5 E1 E2 E3 E4 E5 Ho5.
    assert (dispatched frame w w5 next (t_saved_frame (T w2 next))) as Hd.
    { apply (dispatched_accounted frame w w1); [done|]. destruct Hd3 as [D1 D2 D3 D4 D5 D6 D7 [D8 D9]].
      split; rewrite ?E1, ?E2, ?E3, ?E4, ?E5; done. }
    split_and!; [done..|]. apply (dispatched_frames w w5 next frame (t_saved_frame (T w2 next))); try done. by eapply owned_shape. }
  go. apply wp_when; intros _; go; (apply Hfin; [done..|]); keep_owned.
Qed.

(** ** Properties *)

(** The task the trap epilogue must give the hart to, if any. *)
Definition dispatch_target (w : World) (q : Queues) : option Z :=
  match pending w with
  | Some p => Some p.(ps_target).(ref_slot)
  | None =>
      if state_eqb (t_state (T w (current w))) Running
      then preemptor w q (s_time_slice_pending (w_sched w))
      else Some (default IDLE_SLOT (best q))
  end.

(** The queues after it: the target has left, a preempted task is behind its peers. *)
Definition dispatched_queues (w : World) (x : Z) (q : Queues) : Queues :=
  if state_eqb (t_state (T w (current w))) Running then requeued w x q else taken x q.

Record dispatch_outcome (frame : Z) (w w' : World) (q : Queues) (next f : Z) : Prop := {
  outcome_owned : owned w' (dispatched_queues w next q) None;
  outcome_frames : frames w';
  outcome_tickets : tickets w';
  outcome_pending : pending w' = None;
  outcome_running : current w' = next ∧ t_state (T w' next) = Running;
  outcome_others j : j ≠ next → t_state (T w' j) =
    if decide (j = current w ∧ t_state (T w j) = Running) then Ready else t_state (T w j);
  outcome_frame : f = if decide (next = current w) then frame else t_saved_frame (T w next);
  outcome_saved j : j ≠ next → t_saved_frame (T w' j) =
    if decide (j = current w ∧ t_state (T w j) ≠ Free) then frame else t_saved_frame (T w j);
  outcome_generation j : t_resume_generation (T w' j) =
    if decide (j = next) then wrapping_add u32_max (t_resume_generation (T w j)) 1
    else t_resume_generation (T w j);
}.

Lemma tickets_same w w' :
  sequence_of w' = sequence_of w → consumed_of w' = consumed_of w → pending w' = pending w →
  tickets w → tickets w'.
Proof. intros E1 E2 E3 [? ? ?]. split; rewrite ?E1, ?E2, ?E3; done. Qed.

Lemma tickets_core w w' : core w' = core w → tickets w → tickets w'.
Proof.
  intros Hc. apply tickets_same; [by apply (core_sched s_next_switch_sequence)
    |by apply (core_sched s_last_consumed_switch_sequence)|by apply (core_sched s_pending_switch)].
Qed.

Lemma frames_core w w' : core w' = core w → frames w → frames w'.
Proof.
  intros Hc Hf i Hi. rewrite (core_field t_state w w'), (core_field t_saved_frame w w') by done.
  replace (current w') with (current w); [by apply Hf|]. symmetry. by apply (core_sched s_current).
Qed.

(** The store [w1] with the target selected: a task that ran before is Ready. *)
Record selected (w w1 : World) : Prop := {
  selected_state j : t_state (T w1 j) =
    if decide (j = current w ∧ t_state (T w j) = Running) then Ready else t_state (T w j);
  selected_saved j : t_saved_frame (T w1 j) = t_saved_frame (T w j);
  selected_generation j : t_resume_generation (T w1 j) = t_resume_generation (T w j);
  selected_current : current w1 = current w;
  selected_pending : pending w1 = None;
}.

Lemma selected_stopped w w1 :
  t_state (T w (current w)) ≠ Running → pending w = None → core w1 = core w → selected w w1.
Proof.
  intros Hst Hp Hc. split.
  - intros j. rewrite (core_field t_state w w1) by done. rewrite decide_False; [done|]. intros [-> ?]. done.
  - intros j. by apply (core_field t_saved_frame).
  - intros j. by apply (core_field t_resume_generation).
  - by apply (core_sched s_current).
  - rewrite <-Hp. by apply (core_sched s_pending_switch).
Qed.

Lemma selected_running w w1 now :
  shape w → slot_in (current w) → t_state (T w (current w)) = Running → pending w = None →
  core w1 = core (upd_task (current w) (readied now) w) → selected w w1.
Proof.
  intros Hs Hc Hst Hp Hcore. set (c := current w) in *.
  assert (∀ j, T (upd_task c (readied now) w) j = if decide (c = j) then readied now (T w j) else T w j) as HT
    by (intros j; by apply T_upd_task).
  split.
  - intros j. rewrite (core_field t_state _ w1 j (λ t, eq_refl) Hcore), HT.
    fold c. destruct (decide (c = j)) as [<-|Hne]; [by rewrite decide_True|].
    rewrite decide_False; [done|]. naive_solver.
  - intros j. rewrite (core_field t_saved_frame _ w1 j (λ t, eq_refl) Hcore), HT. by case_decide.
  - intros j. rewrite (core_field t_resume_generation _ w1 j (λ t, eq_refl) Hcore), HT. by case_decide.
  - apply (core_sched s_current _ _ (λ s, eq_refl) Hcore).
  - rewrite <-Hp. apply (core_sched s_pending_switch _ _ (λ s, eq_refl) Hcore).
Qed.

(** Dispatching the selected target. *)
Lemma dispatch_selected w w1 q next frame now slice cp :
  selected w w1 → owned w1 (dispatched_queues w next q) (Some next) → tickets w1 → frames w →
  frame ≠ 0 →
  wp (dispatch_to frame now slice cp (current w) next) (λ f w',
    dispatch_outcome frame w w' q next f) w1.
Proof.
  intros [Hst Hsv Hgen Hc Hp] Ho1 [Ht1 Ht2 _] Hfr Hf. rewrite <-Hc.
  assert (t_state (T w1 (current w1)) ≠ Running) as Hnr.
  { rewrite Hc, Hst. case_decide as E; [done|]. intros Hr. by apply E. }
  assert (frames w1) as Hfr1.
  { intros j Hj. rewrite Hst, Hsv, Hc. intros Hr Hne. rewrite decide_False in Hr by naive_solver.
    by apply Hfr. }
  wp_apply (dispatch_to_spec w1 _ next frame now slice cp Ho1 Hp Hnr Hfr1 Hf).
  intros f w' ([H1 H2 H3 H4 H5 H6 H7 [H8 H9]] & Ho & Hf').
  assert (pending w' = None) as Hp' by congruence. split; try done.
  - split; rewrite ?H8, ?H9; [done..|]. intros p. by rewrite Hp'.
  - split; [done|]. rewrite H2. by rewrite decide_True.
  - intros j Hj. rewrite H2, decide_False by done. apply Hst.
  - by rewrite H3, Hc, Hsv.
  - intros j Hj. rewrite H4, decide_False by done. clear H3. rewrite Hc, Hst, Hsv.
    apply decide_ext. destruct (decide _) as [[-> E]|E]; [by rewrite E|done].
  - intros j. rewrite H5. by repeat case_decide; rewrite ?Hgen.
Qed.

(** The target of a committed switch is in no queue. *)
Lemma owned_target_detached w q p :
  owned w q None → pending w = Some p → detached q p.(ps_target).(ref_slot).
Proof.
  intros Hw Hp. pose proof Hw as [_ Ho].
  assert (is_target w (ref_slot (ps_target p))) as Ht by (unfold is_target; by rewrite Hp).
  destruct (owned_pending w q None Ho p Hp) as ([Hs _] & _).
  pose proof (owned_placed w q _ Ho _ Hs) as Hpl. destruct (placed_target w q _ _ Hpl Ht) as [Hst Hnq].
  destruct (owned_not_waiting w q _ _ Hw Hs) as [Hws Hwm]; [congruence|].
  by apply (owned_detached w q None).
Qed.

Lemma selected_pending_switch w q p :
  owned w q None → tickets w → pending w = Some p →
  let w1 := consumed p w in let x := p.(ps_target).(ref_slot) in
  selected w w1 ∧ tickets w1 ∧ owned w1 (dispatched_queues w x q) (Some x).
Proof.
  intros Hw [[Ht1 Ht2] Ht3 Ht] Hp w1 x. pose proof Hw as [_ Ho].
  pose proof (owned_placed w q _ Ho _ (owned_slot_current w q _ Hw)) as Hpl.
  assert (t_state (T w (current w)) ≠ Running) as Hst
    by (intros Hr; by destruct (placed_running w q _ _ Hpl Hr); congruence).
  split; [|split].
  - split; try done. intros j. rewrite decide_False; [done|]. intros [-> ?]. done.
  - destruct (Ht p Hp). split; [change (0 <= ps_sequence p <= sequence_of w); lia|done|done].
  - unfold dispatched_queues, state_eqb. rewrite bool_decide_false by done.
    apply (owned_ext w1 q); [|by apply owned_consumed].
    intros id. apply without_not_in. by apply (owned_target_detached w q p).
Qed.

Lemma schedule_from_trap_spec (w : World) (q : Queues) (frame interrupt_depth now : Z) :
  owned w q None → tickets w → frames w → frame ≠ 0 →
  wp (schedule_from_trap frame interrupt_depth now) (λ f w',
    match (if s_started (w_sched w) && (interrupt_depth =? 0) then dispatch_target w q else None) with
    | None => f = frame ∧ w' = w
    | Some next => dispatch_outcome frame w w' q next f
    end) w.
Proof.
  intros Hw Ht Hfr Hf. pose proof Hw as [_ Ho]. pose proof (owned_shape w q _ Hw) as Hs.
  unfold schedule_from_trap. go.
  destruct (s_started (w_sched w)); [|by go]. destruct (interrupt_depth =? 0); cbn [negb orb andb]; [|by go].
  go. change (s_current (w_sched w)) with (current w).
  assert (slot_in (current w)) as Hc by (by eapply owned_slot_current). go.
  change (s_pending_switch (w_sched w)) with (pending w). unfold dispatch_target.
  destruct (pending w) as [p|] eqn:Hp.
  { apply (consume_pending_spec w q p); [done..|].
    destruct (selected_pending_switch w q p Hw Ht Hp) as (Hsel & Ht1 & Ho1). by apply dispatch_selected. }
  go. destruct (state_eqb (t_state (T w (current w))) Running) eqn:Hrun; cbn [negb].
  - assert (t_state (T w (current w)) = Running) as Hst by (by apply bool_decide_eq_true_1 in Hrun).
    wp_apply (reschedule_spec w q (s_time_slice_pending (w_sched w)) now Hw). intros r w1 H.
    rewrite Hrun in H. destruct (preemptor w q _) as [next|]; [|by destruct H as [-> ->]; go].
    destruct H as (-> & Ho1 & _ & Hc1). apply dispatch_selected; try done.
    + by apply (selected_running w w1 now).
    + unfold dispatched_queues. by rewrite Hrun.
    + apply (tickets_core (upd_task (current w) (readied now) w)); [done|]. by apply (tickets_same w).
  - assert (t_state (T w (current w)) ≠ Running) as Hst by (by apply bool_decide_eq_false_1 in Hrun).
    go. wp_apply (owned_take_or_idle w q Hw); [|by apply (owned_idle_ready w q None)|unfold is_target; rewrite Hp; by intros []].
    intros x w1 (Hc1 & -> & Ho1). go. apply dispatch_selected; try done.
    + by apply selected_stopped.
    + unfold dispatched_queues. by rewrite Hrun.
    + by apply (tickets_core w).
Qed.

(** C15: the trap epilogue dispatches the right task (RTOS-SCHED-001..003,
    RTOS-LOCK-002, RTOS-STATE-002..004). With interrupts nested or before the start it
    returns the interrupted frame and changes nothing. Otherwise it gives the hart
    to the committed target if a switch is pending; to the oldest ready task of
    the best priority, or to idle, if the current task can no longer run; to a
    task that may preempt it, if the current task runs and holds no scheduler
    lock; and to nobody else. It returns the frame of the chosen task and saves
    the interrupted one; a preempted task is queued behind its peers; exactly the
    chosen task runs afterwards, every task keeps exactly one owner, and no
    assertion of the epilogue can fail. *)
Theorem trap_dispatch (w : World) (q : Queues) (frame interrupt_depth now : Z) :
  owned w q None → tickets w → frames w → frame ≠ 0 →
  wp (schedule_from_trap frame interrupt_depth now) (λ f w',
    match (if s_started (w_sched w) && (interrupt_depth =? 0) then dispatch_target w q else None) with
    | None => f = frame ∧ w' = w
    | Some next => dispatch_outcome frame w w' q next f
    end) w.
Proof. apply schedule_from_trap_spec. Qed.

Definition frames_b (w : World) (i : Z) : bool :=
  negb (state_eqb (t_state (T w i)) Ready) || (i =? current w) || negb (t_saved_frame (T w i) =? 0).

Lemma frames_by_slots w : forallb (frames_b w) (range 0 17) = true → frames w.
Proof.
  intros H i Hi Hst Hne. pose proof (all_slots _ H i Hi) as Hb. unfold frames_b, state_eqb in Hb.
  rewrite bool_decide_true in Hb by done. apply Z.eqb_neq in Hne. rewrite Hne in Hb.
  simpl in Hb. by apply negb_true_iff, Z.eqb_neq in Hb.
Qed.

Lemma ready_three_tickets : tickets ready_three.
Proof. split; [by vm_compute|by vm_compute|]. intros p. by vm_compute. Qed.

(** The main task is preempted by task 4, whose frame is returned. *)
Lemma trap_dispatch_witness :
  dispatch_target ready_three ready_three_queues = Some 4 ∧
  wp (schedule_from_trap 8192 0 10) (λ f w',
    match (if s_started (w_sched ready_three) && (0 =? 0) then dispatch_target ready_three ready_three_queues else None) with
    | None => f = 8192 ∧ w' = ready_three
    | Some next => dispatch_outcome 8192 ready_three w' ready_three_queues next f
    end) ready_three.
Proof.
  split; [by vm_compute|]. apply (trap_dispatch ready_three ready_three_queues 8192 0 10).
  - apply ready_three_owned.
  - apply ready_three_tickets.
  - apply frames_by_slots. by vm_compute.
  - done.
Defined.

(** What a source that still owns the hart finds: it is current, has left the
    Running state and has not been resumed since. *)
Definition source_unchanged (w : World) (previous generation : Z) : bool :=
  (current w =? previous) && negb (state_eqb (t_state (T w previous)) Running) &&
  (t_resume_generation (T w previous) =? generation).

Lemma wp_source_unchanged w previous generation (Q : bool → World → Prop) :
  shape w → slot_in (current w) → Q (source_unchanged w previous generation) w →
  wp (current ← sched_gets s_current;
      if negb (current =? previous) then mret false
      else
        state ← tget t_state previous;
        if state_eqb state Running then mret false
        else generation' ← tget t_resume_generation previous; mret (generation' =? generation)) Q w.
Proof.
  intros Hs Hc HQ. unfold source_unchanged in HQ. go. fold (current w).
  destruct (Z.eqb_spec (current w) previous) as [E|E]; simpl in *; [|by go]. subst previous.
  go. destruct (state_eqb _ _); simpl in *; [by go|]. by go.
Qed.

Lemma switch_away_spec (w : World) (q : Queues) (previous generation : Z) (commit : bool) :
  owned w q None → pending w = None → sequence_of w < u64_max →
  wp (prepare_switch_away_decision previous generation commit) (λ r w',
    if source_unchanged w previous generation then
      let x := default IDLE_SLOT (best q) in
      let i := mkIntent (sequence_of w + 1) (ref_of w previous) (ref_of w x) generation in
      r = Some i ∧ owned w' (taken x q) (if commit then None else Some x) ∧
      pending w' = (if commit then Some (mkPending i.(si_sequence) i.(si_previous) i.(si_target)) else None) ∧
      sequence_of w' = sequence_of w + 1 ∧ current w' = current w ∧ quiet w w'
    else r = None ∧ w' = w) w.
Proof.
  intros Hw Hp Hseq. pose proof (owned_shape w q _ Hw) as Hs.
  assert (slot_in (current w)) as Hc by (by eapply owned_slot_current).
  unfold prepare_switch_away_decision. go.
  change (s_current (w_sched w)) with (current w).
  eapply (wp_mono _ (λ b w', w' = w ∧ b = source_unchanged w previous generation)).
  2:{ by apply (wp_source_unchanged w previous generation). }
  intros b w0 [-> ->]. destruct (source_unchanged w previous generation) eqn:Hu; cbn [negb]; [|by go].
  unfold source_unchanged in Hu. apply andb_prop in Hu as [[Hcur Hst]%andb_prop Hgen].
  apply Z.eqb_eq in Hcur as <-. apply Z.eqb_eq in Hgen as <-.
  apply negb_true_iff, bool_decide_eq_false_1 in Hst.
  go. wp_apply (owned_take_or_idle w q Hw); [|by apply (owned_idle_ready w q None)|unfold is_target; rewrite Hp; by intros []].
  intros x w1 (Hc1 & Hx & Ho1). go. rewrite <-Hx. pose proof (same_view_core w w1 Hc1) as [V1 V2 V3].
  assert (pending w1 = None) as Hp1 by congruence.
  assert (sequence_of w1 = sequence_of w) as Hs1 by (by apply (core_sched s_next_switch_sequence)).
  assert (∀ j, ref_of w1 j = ref_of w j) as Href by (intros j; unfold ref_of; f_equal; apply V1).
  apply (prepare_spec w1 (taken x q) (current w) x); [done|done|done|by rewrite Hs1|].
  rewrite Hs1, !Href. rewrite (core_field t_resume_generation w w1) by done.
  set (i := mkIntent _ _ _ _). pose proof (owned_prepared w1 _ _ Ho1) as Ho2.
  destruct commit; go.
  - assert (ref_ok (prepared w1) (si_target i) = true) as Ht.
    { apply ref_ok_spec; [by eapply owned_shape|]. split; [by apply (owned_hand_slot _ _ _ (proj2 Ho1))|].
      apply V1. }
    wp_apply (commit_spec (prepared w1) (taken x q) i Ho2); [|done|done].
    assert (ref_ok (prepared w1) (si_previous i) = true) as ->.
    { apply ref_ok_spec; [by eapply owned_shape|]. split; [done|]. apply V1. }
    assert (live (prepared w1) i = true) as ->.
    { unfold live. simpl. change (current (prepared w1)) with (current w1). change (T (prepared w1)) with (T w1).
      rewrite V3, (core_field t_resume_generation w w1), (core_field t_state w w1), !Z.eqb_refl by done.
      unfold state_eqb. by rewrite bool_decide_false. }
    intros b w2 (-> & -> & Ho3). go. split_and!; try done; [by rewrite <-Hs1|].
    eapply quiet_trans; [by apply quiet_core|]. by apply (quiet_trans w1 (prepared w1)); apply quiet_sched.
  - split_and!; try done; [by rewrite <-Hs1|].
    eapply quiet_trans; [by apply quiet_core|]. by apply quiet_sched.
Qed.

(** C16: giving up the hart is atomic (RTOS-PORT-004). The decision of a task that
    blocks, sleeps or exits has exactly two outcomes. If the source was resumed
    meanwhile, the result is no switch and nothing at all has changed. Otherwise
    exactly the best ready task, or idle, has left its queue; the intent names it,
    the source and their current identities under a fresh ticket number; and the
    detached task is owned by the pending switch if the commit was asked for, by
    the returned intent if not. No other task moves, no task changes, and no
    assertion fails. *)
Theorem switch_away_atomic (w : World) (q : Queues) (previous generation : Z) (commit : bool) :
  owned w q None → pending w = None → sequence_of w < u64_max →
  wp (prepare_switch_away_decision previous generation commit) (λ r w',
    if source_unchanged w previous generation then
      let x := default IDLE_SLOT (best q) in
      let i := mkIntent (sequence_of w + 1) (ref_of w previous) (ref_of w x) generation in
      r = Some i ∧ owned w' (taken x q) (if commit then None else Some x) ∧
      pending w' = (if commit then Some (mkPending i.(si_sequence) i.(si_previous) i.(si_target)) else None) ∧
      sequence_of w' = sequence_of w + 1 ∧ current w' = current w ∧ quiet w w'
    else r = None ∧ w' = w) w.
Proof. apply switch_away_spec. Qed.

(** Task 0 has gone to sleep; task 4 is the target of its committed intent. *)
Definition sleeping_main : World := final (set_task 0 (λ t, t <| t_state := Sleeping |>)) ready_three.
Definition pending_four : World := final (prepare_switch_away_decision 0 0 true) sleeping_main.

Lemma sleeping_main_owned : owned sleeping_main ready_three_queues None.
Proof.
  change (owned (upd_task (current ready_three) (λ t, t <| t_state := Sleeping |>) ready_three)
    ready_three_queues None).
  apply (owned_leave ready_three _ _ Sleeping); [apply ready_three_owned|by vm_compute|done|by left|done].
Qed.

Lemma pending_four_owned : owned pending_four (taken 4 ready_three_queues) None.
Proof.
  destruct (wp_final _ _ _ (switch_away_spec sleeping_main ready_three_queues 0 0 true sleeping_main_owned
    eq_refl eq_refl)) as (r & H).
  assert (source_unchanged sleeping_main 0 0 = true) as E by (by vm_compute). rewrite E in H.
  change (best ready_three_queues) with (Some 4) in H. apply H.
Qed.

Lemma pending_four_tickets : tickets pending_four.
Proof.
  split; [by vm_compute|by vm_compute|]. intros p Hp.
  assert (pending pending_four = Some (mkPending 1 (mkRef 0 1) (mkRef 4 1))) as E by (by vm_compute).
  rewrite E in Hp. injection Hp as <-.
  assert (consumed_of pending_four = 0) as -> by (by vm_compute).
  assert (sequence_of pending_four = 1) as -> by (by vm_compute). cbn [ps_sequence]. lia.
Qed.

Lemma switch_away_atomic_witness :
  source_unchanged sleeping_main 0 0 = true ∧ best ready_three_queues = Some 4 ∧
  wp (prepare_switch_away_decision 0 0 true) (λ r w',
    if source_unchanged sleeping_main 0 0 then
      let x := default IDLE_SLOT (best ready_three_queues) in
      let i := mkIntent (sequence_of sleeping_main + 1) (ref_of sleeping_main 0) (ref_of sleeping_main x) 0 in
      r = Some i ∧ owned w' (taken x ready_three_queues) None ∧
      pending w' = Some (mkPending i.(si_sequence) i.(si_previous) i.(si_target)) ∧
      sequence_of w' = sequence_of sleeping_main + 1 ∧ current w' = current sleeping_main ∧
      quiet sleeping_main w'
    else r = None ∧ w' = sleeping_main) sleeping_main.
Proof.
  split; [by vm_compute|]. split; [by vm_compute|].
  apply (switch_away_atomic sleeping_main ready_three_queues 0 0 true);
    [apply sleeping_main_owned|by vm_compute|by vm_compute].
Defined.

(** C17: an intent commits exactly when nothing has overtaken it, and its target is
    never lost (RTOS-PORT-004, RTOS-ID-001). An intent whose target is still in
    hand commits if and only if both identities are current, its source is the
    current task, has not been resumed since and does not run; the pending switch
    then owns the target. Otherwise nothing becomes pending and the target is back
    in its ready queue. An intent whose target slot was reused commits never and
    touches no task at all. *)
Theorem intent_commits_or_restores (w : World) (q : Queues) (i : SwitchIntent) :
  let x := i.(si_target).(ref_slot) in
  owned w q (if ref_ok w i.(si_target) then Some x else None) → pending w = None →
  wp (commit_switch_intent i) (λ b w',
    b = ref_ok w i.(si_target) && (ref_ok w i.(si_previous) && live w i) ∧
    (∀ j, same_task w w' j) ∧
    pending w' = (if b then Some (mkPending i.(si_sequence) i.(si_previous) i.(si_target)) else None) ∧
    owned w' (if ref_ok w i.(si_target) && negb b then restored w x q else q) None) w.
Proof.
  intros x Hw Hp. destruct (ref_ok w (si_target i)) eqn:Ht.
  - wp_apply (commit_spec w q i Hw Hp Ht). intros b w'.
    destruct (ref_ok w (si_previous i) && live w i).
    + intros (-> & -> & Ho). split_and!; try done; intros j; by split.
    + intros (-> & Hp' & Ho & V). split_and!; try done; apply V.
  - unfold commit_switch_intent. go. apply wp_ref_ok. go. apply wp_ref_ok. rewrite Ht, orb_true_r.
    cbn [when]. go. split_and!; try done. by apply owned_sched.
Qed.

Lemma intent_commits_or_restores_witness :
  let w := final ready_pop ready_three in
  let i := mkIntent 1 (mkRef 0 1) (mkRef 4 1) 7 in
  wp (commit_switch_intent i) (λ b w',
    b = ref_ok w i.(si_target) && (ref_ok w i.(si_previous) && live w i) ∧
    (∀ j, same_task w w' j) ∧
    pending w' = (if b then Some (mkPending i.(si_sequence) i.(si_previous) i.(si_target)) else None) ∧
    owned w' (if ref_ok w i.(si_target) && negb b then restored w 4 (taken 4 ready_three_queues)
              else taken 4 ready_three_queues) None) w.
Proof.
  cbv zeta. apply (intent_commits_or_restores (final ready_pop ready_three)
    (taken 4 ready_three_queues) (mkIntent 1 (mkRef 0 1) (mkRef 4 1) 7)); [|by vm_compute].
  destruct (wp_final _ _ _ (owned_take ready_three ready_three_queues ready_three_owned)) as (x & Hc & Hx).
  change (best ready_three_queues) with (Some 4) in Hx. destruct Hx as (_ & _ & Ho).
  assert (ref_ok (final ready_pop ready_three) (mkRef 4 1) = true) as Hok by (by vm_compute).
  simpl si_target. simpl ref_slot. rewrite Hok. exact Ho.
Defined.

(** C18: a committed ticket moves the hart at most once (RTOS-PORT-004). Once the
    trap epilogue has dispatched a pending switch, a second consumption finds none,
    and committing a copy of the same intent again is refused without effect on
    any task: the target keeps running and every other task keeps its owner. *)
Theorem ticket_dispatched_once (w : World) (q : Queues) (p : PendingSwitch) (frame now : Z) :
  owned w q None → tickets w → frames w → frame ≠ 0 → s_started (w_sched w) = true →
  pending w = Some p → p.(ps_target).(ref_slot) ≠ current w →
  let x := p.(ps_target).(ref_slot) in
  let i := mkIntent p.(ps_sequence) p.(ps_previous) p.(ps_target) (t_resume_generation (T w (current w))) in
  wp (f ← schedule_from_trap frame 0 now;
      again ← consume_pending_switch;
      recommitted ← commit_switch_intent i;
      mret (f, again, recommitted)) (λ r w',
    r = (t_saved_frame (T w x), None, false) ∧ pending w' = None ∧ current w' = x ∧
    t_state (T w' x) = Running ∧ owned w' (dispatched_queues w x q) None) w.
Proof.
  intros Hw Ht Hfr Hf Hstart Hp Hne x i.
  destruct (owned_pending w q None (proj2 Hw) p Hp) as (Htx & Hprev & Hcur).
  destruct (selected_pending_switch w q p Hw Ht Hp) as (Hsel & Ht1 & Ho1).
  pose proof (owned_shape w q _ Hw) as Hs. pose proof (owned_slot_current w q _ Hw) as Hc.
  unfold schedule_from_trap. go. rewrite Hstart. cbn [negb orb Z.eqb]. go.
  change (s_current (w_sched w)) with (current w). go.
  change (s_pending_switch (w_sched w)) with (pending w). rewrite Hp.
  apply (consume_pending_spec w q p); [done..|].
  eapply wp_mono; [|by apply dispatch_selected]. fold x. intros f w1 [Ho2 Hf2 Ht2 Hp2 [Hc2 Hs2] _ Hfr2 _ _].
  rewrite Hfr2, decide_False by done. unfold consume_pending_switch. go.
  change (s_pending_switch (w_sched w1)) with (pending w1). rewrite Hp2. go.
  set (w2 := w1 <| w_sched ::= _ |>).
  assert (owned w2 (dispatched_queues w x q) None) as Ho3.
  { apply (owned_view w1); [|apply (queues_same w1); try done; try (by intros [])|done].
    - split; [intros j; by split| |done]. change (pending w2) with (@None PendingSwitch). by rewrite Hp2.
    - apply Ho2.
    - apply (shape_ext w1); try done. by eapply owned_shape. }
  assert (slot_in x) as Hx by apply Htx. pose proof (owned_shape w2 _ _ Ho3) as Hs3.
  unfold commit_switch_intent. go. apply wp_ref_ok. go. apply wp_ref_ok.
  assert (∀ w', owned w' (dispatched_queues w x q) None → T w' = T w2 → pending w' = None → current w' = x →
    (t_saved_frame (T w x), @None (Z * Z), false) = (t_saved_frame (T w x), None, false) ∧ pending w' = None ∧
    current w' = x ∧ t_state (T w' x) = Running ∧ owned w' (dispatched_queues w x q) None) as Hend.
  { intros w' Ho' HT Hp' Hc'. split_and!; try done. by rewrite HT. }
  assert (∀ (Q : unit → World → Prop), Q tt w2 → wp (restore_detached_switch_target x) Q w2) as Hnoop.
  { intros Q HQ. apply restore_noop; try done. change (t_state (T w1 x) ≠ Ready). congruence. }
  destruct (negb (ref_ok w2 (si_previous i)) || negb (ref_ok w2 (si_target i))) eqn:Hok.
  - destruct (ref_ok w2 (si_target i)); cbn [when]; go; [apply Hnoop|]; go;
      apply Hend; try done; by apply owned_sched.
  - go. change (s_current (w_sched w2)) with (current w1). rewrite Hc2. cbn [si_previous i].
    apply orb_false_iff in Hok as [Hok _]. apply negb_false_iff, ref_ok_spec in Hok as [Hpi _]; [|done].
    change (si_previous i) with (ps_previous p) in *. go. rewrite Hcur.
    rewrite (proj2 (Z.eqb_neq x (current w)) Hne). cbn [negb orb andb]. go.
    change (ref_slot (si_target i)) with x. apply Hnoop. go. apply Hend; try done. by apply owned_sched.
Qed.

Lemma ticket_dispatched_once_witness :
  wp (f ← schedule_from_trap 8192 0 10;
      again ← consume_pending_switch;
      recommitted ← commit_switch_intent (mkIntent 1 (mkRef 0 1) (mkRef 4 1) 0);
      mret (f, again, recommitted)) (λ r w',
    r = (4096, None, false) ∧ pending w' = None ∧ current w' = 4 ∧ t_state (T w' 4) = Running ∧
    owned w' (dispatched_queues pending_four 4 (taken 4 ready_three_queues)) None) pending_four.
Proof.
  apply (ticket_dispatched_once pending_four (taken 4 ready_three_queues)
    (mkPending 1 (mkRef 0 1) (mkRef 4 1)) 8192 10).
  - apply pending_four_owned.
  - apply pending_four_tickets.
  - apply frames_by_slots. by vm_compute.
  - done.
  - by vm_compute.
  - by vm_compute.
  - by vm_compute.
Defined.
