(* ===== verification/Inherit.v ===== *)
(** * Priority inheritance ([src/runtime/scheduler.rs])

    A waiter of a mutex donates its priority to the owner. The owner counts its
    donations per priority and runs at the best of them and its base priority; a
    change propagates along the wait-for chain. *)

From stdpp Require Import sorting.
From S2P Require Import Prelude Effects Budget Contract Config Context Reservation.
From S2P Require Import Tcb Store Chain Ready Wait Switch Invariant.

Definition is_pending_target (pending : option PendingSwitch) (task : Z) : bool :=
  match pending with Some p => p.(ps_target).(ref_slot) =? task | None => false end.

Definition set_effective_priority (task priority : Z) : M World unit :=
  old ← tget t_priority task;
  if old =? priority then mret tt
  else
    state ← tget t_state task;
    ready_queued ← (if state_eqb state Ready then ready_contains task else mret false);
    pending ← sched_gets s_pending_switch;
    when (state_eqb state Ready && negb ready_queued && is_pending_target pending task)
      (bump d_detached_pending_priority_mutations) ;;
    waiting_sem ← tget t_waiting_sem task;
    when ready_queued (ready_remove task) ;;
    when (negb (waiting_sem =? 0)) (remove_waiter waiting_sem task) ;;
    set_task task (λ t, t <| t_priority := priority |>) ;;
    when ready_queued (ready_push task) ;;
    when (negb (waiting_sem =? 0)) (enqueue_waiter waiting_sem task).

(** Replaces the donation count of [owner] at [priority] by [f] of it; [None] panics. *)
Definition alter_inherited (f : Z → option Z) (owner priority : Z) : M World unit :=
  counts ← tget t_inherited_waiters owner;
  count ← expect (idx counts priority);
  count ← expect (f count);
  set_task owner (λ t, t <| t_inherited_waiters ::= λ l, alter_at (λ _, count) l priority |>).

(** The priority the donations and the base priority give. *)
Definition inherited_priority (t : Tcb) : Z :=
  let inherited := match position (λ count, negb (count =? 0)) t.(t_inherited_waiters) with
                   | Some priority => priority
                   | None => t.(t_base_priority)
                   end in
  Z.min t.(t_base_priority) inherited.

(** [replace_inheritance], given the refresh of the owner it ends with. *)
Definition replace_inheritance_with (refresh : Z → Z → M World unit) (owner old new depth : Z) :
    M World unit :=
  if old =? new then mret tt
  else
    alter_inherited (λ count, checked_sub count 1) owner old ;;
    alter_inherited (λ count, checked_add u8_max count 1) owner new ;;
    refresh owner depth.

(** The walk along the chain; [depth] counts the tasks behind and is asserted to
    stay below the number of slots, so one more step than slots is fuel enough. *)
Fixpoint refresh_from (fuel : nat) (task depth : Z) : M World unit :=
  match fuel with
  | O => fail Hung
  | S fuel =>
      assert_ (depth <? TASK_SLOT_COUNT) ;;
      tcb ← task_at task;
      let old := tcb.(t_priority) in
      let new := inherited_priority tcb in
      if old =? new then mret tt
      else
        set_effective_priority task new ;;
        waiting_mutex ← tget t_waiting_mutex task;
        when (negb (waiting_mutex =? 0))
          (remove_mutex_waiter waiting_mutex task ;;
           enqueue_mutex_waiter waiting_mutex task ;;
           state ← mutex_at waiting_mutex;
           when (negb (state.(mtx_owner) =? NIL))
             (replace_inheritance_with (refresh_from fuel) state.(mtx_owner) old new (depth + 1)))
  end.
Definition refresh_inherited_priority (task depth : Z) : M World unit :=
  refresh_from (S task_slots_nat) task depth.

Definition replace_inheritance (owner old new depth : Z) : M World unit :=
  replace_inheritance_with refresh_inherited_priority owner old new depth.

Definition add_inheritance (owner priority : Z) : M World unit :=
  alter_inherited (λ count, checked_add u8_max count 1) owner priority ;;
  bump d_priority_inheritances ;;
  refresh_inherited_priority owner 0.

Definition remove_inheritance (owner priority : Z) : M World unit :=
  alter_inherited (λ count, checked_sub count 1) owner priority ;;
  refresh_inherited_priority owner 0.

(** ** Changing one priority *)

(** Links, priorities, donation counts and diagnostics aside, two stores agree. *)
Record same_but_priority (w w' : World) : Prop := {
  sbp_field {A} (f : Tcb → A) : (∀ t v, f (t <| t_next := v |>) = f t) →
    (∀ t v, f (t <| t_priority := v |>) = f t) →
    (∀ t g, f (t <| t_inherited_waiters ::= g |>) = f t) → ∀ j, f (T w' j) = f (T w j);
  sbp_sems a : core_sem <$> w_sems w' !! a = core_sem <$> w_sems w !! a;
  sbp_mutexes a : core_mtx <$> w_mutexes w' !! a = core_mtx <$> w_mutexes w !! a;
  sbp_pending : pending w' = pending w;
  sbp_current : current w' = current w;
  sbp_sequence : s_next_switch_sequence (w_sched w') = s_next_switch_sequence (w_sched w);
}.

Lemma sbp_refl w : same_but_priority w w.
Proof. by split. Qed.

Lemma sbp_trans w1 w2 w3 :
  same_but_priority w1 w2 → same_but_priority w2 w3 → same_but_priority w1 w3.
Proof.
  intros [H1 ? ? ? ? ?] [H2 ? ? ? ? ?]. split; [|intros; etrans; eauto..].
  intros A f F1 F2 F3 j. rewrite (H2 A f), (H1 A f); done.
Qed.

Lemma core_tcb_field {A} (f : Tcb → A) t : (∀ t v, f (t <| t_next := v |>) = f t) → f (core_tcb t) = f t.
Proof. intros Hf. apply Hf. Qed.

Lemma sbp_core w w' : core w' = core w → same_but_priority w w'.
Proof.
  intros Hc. split; [|intros a; by apply core_sems|intros a; by apply core_mutexes
    |by apply (core_sched s_pending_switch)|by apply (core_sched s_current)
    |by apply (core_sched s_next_switch_sequence)].
  intros A f F _ _ j. apply (core_field f); [|done]. intros t. by apply core_tcb_field.
Qed.

Lemma sbp_core_l w w0 w' : core w' = core w0 → same_but_priority w w0 → same_but_priority w w'.
Proof. intros Hc Hs. eapply sbp_trans; [exact Hs|by apply sbp_core]. Qed.

Lemma sbp_upd_priority w i v : same_but_priority w (upd_task i (λ t, t <| t_priority := v |>) w).
Proof. split; try done. intros A f _ F _ j. apply T_upd_field. intros t. apply F. Qed.

Lemma sbp_upd_inherited w i g : same_but_priority w (upd_task i (λ t, t <| t_inherited_waiters ::= g |>) w).
Proof. split; try done. intros A f _ _ F j. apply T_upd_field. intros t. apply F. Qed.

Lemma sbp_diagnostics w g : same_but_priority w (w <| w_sched ::= λ s, s <| s_diagnostics ::= g |> |>).
Proof. by split. Qed.

(** The task moves with its new priority; every other task stays. *)
Lemma owned_reprioritise w w' q q' d i v :
  owned w q d → slot_in i → queues w' q' → core w' = core (upd_task i (λ t, t <| t_priority := v |>) w) →
  0 <= v < PRIORITY_LEVELS → (∀ j id, j ≠ i → (j ∈ q' id ↔ j ∈ q id)) →
  (∀ p, i ∈ q' (QReady p) ↔ p = v ∧ ready_queued q i) →
  (∀ a, i ∈ q' (QSem a) ↔ i ∈ q (QSem a)) → (∀ a, i ∈ q' (QMtx a) ↔ i ∈ q (QMtx a)) → owned w' q' d.
Proof.
  intros Hw Hi Hq' Hc Hv Hj Hr Hs Hm. pose proof Hw as [Hq Ho]. pose proof (owned_shape w q d Hw) as Hsh.
  pose proof (owned_placed w q d Ho i Hi) as Hpl. destruct Hpl as [H1 H2 H3 H4 H5 H6 H7 H8 H9 H10 H11].
  pose proof (same_view_core _ w' Hc) as V. destruct (V) as [Vt Vp Vc]. destruct (Vt i) as [V1 V2 V3 V4 V5].
  rewrite !T_upd_eq in V1, V2, V3, V4, V5 by done. simpl in *.
  assert (ready_queued q' i ↔ ready_queued q i) as Hrq.
  { unfold ready_queued at 1. setoid_rewrite Hr. split; [by intros (p & _ & -> & ?)|eauto]. }
  assert (is_target w' i ↔ is_target w i) as Ht by (by apply is_target_same).
  apply (owned_change w w' q q' d d i Hw Hq'); try done.
  - apply (same_except_trans w (upd_task i (λ t, t <| t_priority := v |>) w)); [by apply same_except_upd|].
    by apply same_view_except.
  - intros _. split; unfold priority_ok; intros *; rewrite ?Hr, ?Hs, ?Hm, ?V1, ?V2, ?V4, ?V5, ?Hrq, ?Ht; eauto.
    + intros [-> (p' & _ & Hin)]. destruct (H2 p' Hin) as (? & _ & ?). done.
    + change (current w') with (current w'). rewrite Vc, Vp. apply H10.
Qed.

Definition sorted_waits (w : World) (l : list Z) : Prop :=
  StronglySorted (λ x y, t_priority (T w x) <= t_priority (T w y)) l.

Lemma sorted_waits_ext w w' l :
  (∀ i, i ∈ l → t_priority (T w' i) = t_priority (T w i)) → sorted_waits w l → sorted_waits w' l.
Proof.
  unfold sorted_waits. intros E. induction 1 as [|x l Hl IH Hx]; constructor.
  - apply IH. intros i Hi. apply E. by right.
  - rewrite Forall_forall in Hx |- *. intros y Hy. rewrite !E by (first [by left|by right]). auto.
Qed.

Lemma sorted_waits_place w x l :
  sorted_waits w l → sorted_waits w (place (λ i, t_priority (T w i)) x l).
Proof. intros Hl. apply (sorted_place (λ i, t_priority (T w i)) l l x). by split. Qed.

Lemma sorted_waits_without w x l : sorted_waits w l → sorted_waits w (without x l).
Proof. apply StronglySorted_filter_Z. Qed.

Lemma place_perm pr x l : place pr x l ≡ₚ x :: l.
Proof.
  destruct (place_split pr x l) as (l1 & l2 & -> & -> & _). by rewrite Permutation_middle.
Qed.

Lemma without_perm x l : NoDup l → x ∈ l → x :: without x l ≡ₚ l.
Proof.
  intros Hnd (l1 & l2 & ->)%list_elem_of_split. rewrite without_split by done. apply Permutation_middle.
Qed.

(** The outcome of moving [i] to priority [v]. *)
Record reprioritised (w w' : World) (q q' : Queues) (d : option Z) (i v : Z) : Prop := {
  repri_owned : owned w' q' d;
  repri_priority j : t_priority (T w' j) = if decide (j = i) then v else t_priority (T w j);
  repri_inherited j : t_inherited_waiters (T w' j) = t_inherited_waiters (T w j);
  repri_rest : same_but_priority w w';
  repri_mtx a : q' (QMtx a) = q (QMtx a);
  repri_sem a : q' (QSem a) ≡ₚ q (QSem a);
  repri_sorted : (∀ a, sorted_waits w (q (QSem a))) → ∀ a, sorted_waits w' (q' (QSem a));
}.

Lemma reprioritised_core w w' q q' d i v :
  owned w q d → slot_in i → queues w' q' → core w' = core (upd_task i (λ t, t <| t_priority := v |>) w) →
  0 <= v < PRIORITY_LEVELS → (∀ j id, j ≠ i → (j ∈ q' id ↔ j ∈ q id)) →
  (∀ p, i ∈ q' (QReady p) ↔ p = v ∧ ready_queued q i) →
  (∀ a, q' (QMtx a) = q (QMtx a)) → (∀ a, q' (QSem a) ≡ₚ q (QSem a)) →
  ((∀ a, sorted_waits w (q (QSem a))) → ∀ a, sorted_waits w' (q' (QSem a))) →
  reprioritised w w' q q' d i v.
Proof.
  intros Hw Hi Hq' Hc Hv Hj Hr Hm Hs Hso. pose proof (owned_shape w q d Hw) as Hsh. split; try done.
  - apply (owned_reprioritise w w' q q' d i v); try done.
    + intros a. by rewrite Hs.
    + intros a. by rewrite Hm.
  - intros j. rewrite (core_field t_priority _ w' j (λ t, eq_refl) Hc), T_upd_task by done.
    repeat case_decide; subst; done.
  - intros j. rewrite (core_field t_inherited_waiters _ w' j (λ t, eq_refl) Hc). by apply T_upd_field.
  - eapply sbp_core_l; [exact Hc|]. apply sbp_upd_priority.
Qed.

Lemma ready_queue_of w q d i :
  owned w q d → slot_in i → (ready_queued q i ↔ i ∈ q (QReady (t_priority (T w i)))).
Proof.
  intros [_ Ho] Hi. pose proof (owned_placed w q d Ho i Hi) as Hpl. split.
  - intros (p & _ & Hin). by destruct (placed_ready w q d i Hpl p Hin) as (_ & -> & _).
  - intros Hin. exists (t_priority (T w i)). split; [apply Hpl|done].
Qed.

(** A queued ready task goes to the back of its new bucket. *)
Lemma reprioritise_ready w q d i v :
  owned w q d → slot_in i → ready_queued q i → 0 <= v < PRIORITY_LEVELS →
  wp (ready_remove i ;; set_task i (λ t, t <| t_priority := v |>) ;; ready_push i)
    (λ _ w', ∃ q', reprioritised w w' q q' d i v) w.
Proof.
  intros Hw Hi Hrq Hv. pose proof Hw as [Hq Ho]. pose proof (owned_placed w q d Ho i Hi) as Hpl.
  pose proof (placed_priority w q d i Hpl) as Hp. pose proof (proj1 (ready_queue_of w q d i Hw Hi) Hrq) as Hin.
  set (u := t_priority (T w i)) in *.
  go. wp_apply (ready_remove_spec w q i Hq Hi Hp). intros _ w1 [Hc1 [Hq1 _]]. fold u in Hq1.
  specialize (Hq1 Hin). set (q1 := qset (QReady u) (without i (q (QReady u))) q) in *.
  assert (shape w1) as Hs1 by (by eapply queues_shape). go. set (w2 := upd_task i _ w1).
  assert (queues w2 q1) as Hq2 by (by apply queues_upd_task).
  assert (detached q1 i) as Hd.
  { intros id. unfold q1, qset. case_decide as E; [rewrite elem_of_without; tauto|].
    intros Hin'. apply E. by apply (queues_disjoint w q Hq _ _ i). }
  assert (T w2 i = (T w1 i) <| t_priority := v |>) as HT by (by apply T_upd_eq).
  wp_apply (ready_push_spec w2 q1 i Hq2 Hi Hd); [|unfold priority_ok; by rewrite HT].
  intros _ w' [Hq' Hc']. rewrite HT in Hq'. simpl in Hq'. eexists.
  apply (reprioritised_core w w' q _ d i v Hw Hi Hq'); try done.
  - rewrite Hc'. unfold w2. by rewrite !(core_upd_task _ _ _ (λ t, t <| t_priority := v |>)), Hc1.
  - intros j id Hj. rewrite elem_of_qset by (set_solver). apply elem_of_qset. rewrite elem_of_without. tauto.
  - intros p. unfold qset. destruct (decide (QReady v = QReady p)) as [[= <-]|Hne].
    + split; [done|]. intros _. set_solver.
    + split; [|intros [-> _]; done]. intros Hin'. by destruct (Hd (QReady p)).
  - intros Hso a. unfold qset. simpl. apply (sorted_waits_ext w); [|apply Hso].
    intros j Hj. rewrite (core_field t_priority w2 w' j (λ t, eq_refl) Hc').
    assert (i ≠ j) as Hne.
    { intros <-. assert (QReady u = QSem a) as [=] by (by apply (queues_disjoint w q Hq _ _ i)). }
    unfold w2. rewrite T_upd_ne by done. by apply (core_field t_priority).
Qed.

(** A semaphore waiter is placed anew in its wait queue. *)
Lemma reprioritise_waiter w q d i v :
  owned w q d → slot_in i → t_waiting_sem (T w i) ≠ 0 → 0 <= v < PRIORITY_LEVELS →
  let a := t_waiting_sem (T w i) in
  wp (remove_waiter a i ;; set_task i (λ t, t <| t_priority := v |>) ;; enqueue_waiter a i)
    (λ _ w', ∃ q', reprioritised w w' q q' d i v) w.
Proof.
  intros Hw Hi Ha Hv a. pose proof Hw as [Hq Ho]. pose proof (owned_placed w q d Ho i Hi) as Hpl.
  pose proof (placed_sem_home w q d i Hpl Ha) as Hin. fold a in Hin.
  pose proof (queues_valid w q Hq _ _ Hin) as Hva. unfold remove_waiter, enqueue_waiter.
  go. wp_apply (remove_spec w q (QSem a) i Hq Hva). intros _ w1 (Hc1 & Hq1 & _). specialize (Hq1 Hin).
  set (q1 := qset (QSem a) (without i (q (QSem a))) q) in *.
  assert (shape w1) as Hs1 by (by eapply queues_shape). go. set (w2 := upd_task i _ w1).
  assert (queues w2 q1) as Hq2 by (by apply queues_upd_task).
  assert (detached q1 i) as Hd.
  { intros id. unfold q1, qset. case_decide as E; [rewrite elem_of_without; tauto|].
    intros Hin'. apply E. by apply (queues_disjoint w q Hq _ _ i). }
  assert (valid w2 (QSem a)) as Hv2 by (by apply (core_valid w1 w (QSem a))).
  wp_apply (enqueue_spec w2 q1 (QSem a) i Hq2 Hv2 Hi Hd). intros _ w' [Hq' Hc'].
  assert (q1 (QSem a) = without i (q (QSem a))) as E1 by (unfold q1; apply qset_eq).
  rewrite E1 in Hq'. set (l := place _ i _) in Hq'.
  assert (l ≡ₚ q (QSem a)) as Hl.
  { unfold l. rewrite place_perm. apply without_perm; [by eapply queues_nodup|done]. }
  assert (∀ id, id ≠ QSem a → qset (QSem a) l q1 id = q id) as Hother.
  { intros id Hid. unfold q1. by rewrite !qset_ne by congruence. }
  assert (∀ j, t_priority (T w' j) = t_priority (T w2 j)) as Hpr
    by (intros j; by apply (core_field t_priority)).
  assert (∀ j, j ≠ i → t_priority (T w2 j) = t_priority (T w j)) as Hpr2.
  { intros j Hj. unfold w2. rewrite T_upd_ne by done. by apply (core_field t_priority). }
  eexists. apply (reprioritised_core w w' q _ d i v Hw Hi Hq'); try done.
  - rewrite Hc'. unfold w2. by rewrite !(core_upd_task _ _ _ (λ t, t <| t_priority := v |>)), Hc1.
  - intros j id Hj. destruct (decide (id = QSem a)) as [->|Hid]; [by rewrite qset_eq, Hl|by rewrite Hother].
  - intros p. rewrite Hother by done. split.
    + intros Hin'. assert (QReady p = QSem a) as [=] by (by apply (queues_disjoint w q Hq _ _ i)).
    + intros [-> (p2 & _ & Hin')]. assert (QReady p2 = QSem a) as [=] by (by apply (queues_disjoint w q Hq _ _ i)).
  - intros b. destruct (decide (QSem b = QSem a)) as [[= ->]|Hid]; [by rewrite qset_eq, Hl|by rewrite Hother].
  - intros Hso b. destruct (decide (QSem b = QSem a)) as [[= ->]|Hid].
    + rewrite qset_eq. apply (sorted_waits_ext w2); [by intros; rewrite Hpr|]. apply sorted_waits_place.
      apply (sorted_waits_ext w); [|by apply sorted_waits_without].
      intros j [_ Hj]%elem_of_without. by apply Hpr2.
    + rewrite Hother by done. apply (sorted_waits_ext w); [|apply Hso]. intros j Hj.
      rewrite Hpr. apply Hpr2. intros ->. apply Hid. by apply (queues_disjoint w q Hq _ _ i).
Qed.

Lemma reprioritised_diagnostics w w' q q' d i v g :
  reprioritised (w <| w_sched ::= λ s, s <| s_diagnostics ::= g |> |>) w' q q' d i v →
  reprioritised w w' q q' d i v.
Proof.
  intros [H1 H2 H3 H4 H5 H6 H7]. split; try done.
  eapply sbp_trans; [apply (sbp_diagnostics w g)|done].
Qed.

Lemma set_effective_spec w q d i v :
  owned w q d → slot_in i → 0 <= v < PRIORITY_LEVELS → t_priority (T w i) ≠ v →
  wp (set_effective_priority i v) (λ _ w', ∃ q', reprioritised w w' q q' d i v) w.
Proof.
  intros Hw Hi Hv Hne. pose proof Hw as [Hq Ho]. pose proof (owned_shape w q d Hw) as Hs.
  pose proof (owned_placed w q d Ho i Hi) as Hpl.
  unfold set_effective_priority. go. rewrite (proj2 (Z.eqb_neq _ _) Hne). go.
  eapply (wp_mono _ (λ b w', w' = w ∧ (b = true ↔ ready_queued q i))).
  2:{ unfold state_eqb. case_bool_decide as E; [by apply ready_contains_spec|]. go. split; [done|].
      split; [done|]. intros Hr. by destruct (owned_not_queued w q d i Hw Hi E). }
  intros b w0 [-> Hb]. go.
  eapply (wp_mono _ (λ _ w', ∃ g, w' = w <| w_sched ::= λ s, s <| s_diagnostics ::= g |> |>)).
  2:{ apply wp_when; intros _; go; [by eexists|]. exists (λ d, d). by destruct w as [[]]. }
  intros _ w0 [g ->]. set (w0 := w <| w_sched ::= _ |>).
  assert (owned w0 q d) as Hw0 by (by apply owned_sched). pose proof (owned_shape w0 q d Hw0) as Hs0.
  eapply (wp_mono _ (λ _ w', ∃ q', reprioritised w0 w' q q' d i v)).
  { intros _ w' [q' H]. exists q'. by apply (reprioritised_diagnostics w w' q q' d i v g). }
  go. change (T w0 i) with (T w i).
  destruct b; cbn [when].
  - assert (t_waiting_sem (T w i) = 0) as Hws.
    { destruct (owned_not_waiting w q d i Hw Hi) as [? _]; [|done].
      destruct Hb as [Hb _]. destruct (Hb eq_refl) as (p & _ & Hin).
      destruct (placed_ready w q d i Hpl p Hin) as (E & _). congruence. }
    rewrite Hws. cbn [Z.eqb negb when].
    pose proof (reprioritise_ready w0 q d i v Hw0 Hi (proj1 Hb eq_refl) Hv) as H.
    apply wp_bind_inv in H. eapply wp_mono; [|exact H]. intros [] w1 H1.
    go. apply wp_bind_inv in H1. eapply wp_mono; [|exact H1]. intros [] w2 H2.
    go. eapply wp_mono; [|exact H2]. intros [] w3 H3. by go.
  - destruct (Z.eqb_spec (t_waiting_sem (T w i)) 0) as [E|E]; cbn [negb when].
    + go. exists q. apply (reprioritised_core w0 _ q q d i v Hw0 Hi); try done.
      * by apply queues_upd_task; [|apply Hw0].
      * intros p. split; [|intros [_ Hr]; by apply Hb in Hr]. intros Hin.
        assert (false = true) as [=]. apply Hb. exists p. split; [|done]. by apply (queues_valid w q Hq _ _ Hin).
      * intros Hso a. apply (sorted_waits_ext w0); [|apply Hso]. intros j Hj. rewrite T_upd_ne; [done..|].
        intros <-. by destruct (placed_sem w q d i Hpl a Hj) as (_ & ? & ?); congruence.
    + pose proof (reprioritise_waiter w0 q d i v Hw0 Hi E Hv) as H. cbv zeta in H.
      change (T w0 i) with (T w i) in H. go. apply wp_bind_inv in H. eapply wp_mono; [|exact H].
      intros [] w1 H1. apply wp_bind_inv in H1. apply wp_bind. eapply wp_mono; [|exact H1].
      intros [] w2 H2. by go.
Qed.
