(* ===== verification/Donation.v ===== *)
(** * Donations are exact ([src/runtime/scheduler.rs])

    The invariant of priority inheritance: every task counts exactly the waiters
    of the mutexes it owns, per priority, and runs at the best of those and its
    base priority. The walk of [refresh_inherited_priority] restores it after one
    task's donations changed, and its depth assertion cannot fail while the
    wait-for graph is acyclic. *)

From stdpp Require Import sorting.
From S2P Require Import Prelude Effects Budget Contract Config Context Reservation.
From S2P Require Import Tcb Store Chain Ready Wait Switch Invariant Inherit.

(** ** Counting donors *)

Definition slots : list Z := range 0 TASK_SLOT_COUNT.
Definition indicator (P : Prop) `{!Decision P} : Z := if decide P then 1 else 0.

(** The number of slots that point at [o] with priority [p]. *)
Definition tally (e pr : Z → Z) (o p : Z) : Z := zsum (λ i, indicator (e i = o ∧ pr i = p)) slots.

Lemma slots_elem i : i ∈ slots ↔ slot_in i.
Proof. apply elem_of_range. Qed.

Lemma indicator_range P `{!Decision P} : 0 <= indicator P <= 1.
Proof. unfold indicator. case_decide; lia. Qed.

Lemma indicator_ext (P Q : Prop) `{!Decision P, !Decision Q} : (P ↔ Q) → indicator P = indicator Q.
Proof. intros H. unfold indicator. repeat case_decide; tauto. Qed.

Lemma indicator_true P `{!Decision P} : P → indicator P = 1.
Proof. intros H. unfold indicator. by rewrite decide_True. Qed.

Lemma indicator_false P `{!Decision P} : ¬ P → indicator P = 0.
Proof. intros H. unfold indicator. by rewrite decide_False. Qed.

Lemma zsum_ext {A} (f g : A → Z) l : (∀ x, x ∈ l → f x = g x) → zsum f l = zsum g l.
Proof.
  induction l as [|x l IH]; intros H; simpl; [done|].
  rewrite (H x) by left. rewrite IH; [done|]. intros y Hy. apply H. by right.
Qed.

Lemma zsum_update (f g : Z → Z) l i :
  NoDup l → i ∈ l → (∀ j, j ∈ l → j ≠ i → g j = f j) → zsum g l = zsum f l - f i + g i.
Proof.
  induction l as [|x l IH]; intros Hnd Hi H; [by apply elem_of_nil in Hi|].
  apply NoDup_cons in Hnd as [Hx Hnd]. simpl. apply elem_of_cons in Hi as [->|Hi].
  - rewrite (zsum_ext g f l); [lia|]. intros j Hj. apply H; [by right|]. by intros ->.
  - rewrite (IH Hnd Hi) by (intros j Hj; apply H; by right).
    rewrite (H x) by (by left || by intros ->). lia.
Qed.

Lemma tally_ext e pr e' pr' o p :
  (∀ i, slot_in i → e i = o → e' i = o ∧ pr' i = pr i) → (∀ i, slot_in i → e' i = o → e i = o) →
  tally e' pr' o p = tally e pr o p.
Proof.
  intros H1 H2. apply zsum_ext. intros i Hi%slots_elem. apply indicator_ext. split.
  - intros [E <-]. specialize (H2 i Hi E). by destruct (H1 i Hi H2) as [_ ->].
  - intros [E <-]. by destruct (H1 i Hi E) as [? ->].
Qed.

Lemma tally_update e pr e' pr' i o p :
  slot_in i → (∀ j, slot_in j → j ≠ i → e' j = e j ∧ pr' j = pr j) →
  tally e' pr' o p = tally e pr o p - indicator (e i = o ∧ pr i = p) + indicator (e' i = o ∧ pr' i = p).
Proof.
  intros Hi H. unfold tally.
  apply (zsum_update (λ i, indicator (e i = o ∧ pr i = p)) (λ i, indicator (e' i = o ∧ pr' i = p)) slots i).
  - apply NoDup_range.
  - by apply slots_elem.
  - intros j Hj%slots_elem Hne. destruct (H j Hj Hne) as [-> ->]. done.
Qed.

Lemma tally_bound e pr o p : 0 <= tally e pr o p <= 17.
Proof.
  pose proof (zsum_bound (λ i, indicator (e i = o ∧ pr i = p)) slots 1) as H.
  change (Z.of_nat (length slots)) with 17 in H. rewrite Z.mul_1_l in H. apply H.
  intros j x _. apply indicator_range.
Qed.

Lemma tally_pos e pr i : slot_in i → 1 <= tally e pr (e i) (pr i).
Proof.
  intros Hi. pose proof (proj2 (slots_elem i) Hi) as Hin.
  apply list_elem_of_lookup in Hin as [n Hn].
  assert (idx slots (Z.of_nat n) = Some i) as Hx by (rewrite idx_lookup by lia; by rewrite Nat2Z.id).
  pose proof (zsum_ge_elem (λ j, indicator (e j = e i ∧ pr j = pr i)) slots (Z.of_nat n) i) as H.
  unfold tally. etrans; [|apply H; [|exact Hx]].
  - unfold indicator. by rewrite decide_True.
  - intros j y _. apply indicator_range.
Qed.

(** ** The invariant *)

(** The owner of the mutex [i] waits for, if any. *)
Definition owner_of (w : World) (i : Z) : Z :=
  if t_waiting_mutex (T w i) =? 0 then NIL
  else match w_mutexes w !! t_waiting_mutex (T w i) with Some st => mtx_owner st | None => NIL end.
Definition prio (w : World) (i : Z) : Z := t_priority (T w i).

Definition donated (w : World) (o p : Z) : Z := tally (owner_of w) (prio w) o p.

Lemma waits_for_owner w i j : waits_for w i j ↔ owner_of w i = j ∧ j ≠ NIL.
Proof.
  unfold waits_for, owner_of. destruct (Z.eqb_spec (t_waiting_mutex (T w i)) 0) as [E|E].
  - split; [by intros (? & _)|by intros [<- ?]].
  - destruct (w_mutexes w !! _) as [st|].
    + split; [intros (_ & Hn & st' & [= <-] & Hj); done|]. intros [H1 H2]. eauto.
    + split; [by intros (_ & _ & st & ? & _)|by intros [<- ?]].
Qed.

(** Every count is exact. *)
Record donations (w : World) : Prop := {
  donations_length o : slot_in o → length (t_inherited_waiters (T w o)) = 32%nat;
  donations_count o p : slot_in o → 0 <= p < PRIORITY_LEVELS →
    idx (t_inherited_waiters (T w o)) p = Some (donated w o p);
}.

(** Every task, but possibly [exc], runs at the priority its donations give it. *)
Record inheritance (w : World) (exc : option Z) : Prop := {
  inheritance_base o : slot_in o → 0 <= t_base_priority (T w o) < PRIORITY_LEVELS;
  inheritance_donations : donations w;
  inheritance_effective o : slot_in o → exc ≠ Some o → t_priority (T w o) = inherited_priority (T w o);
  inheritance_refs : mutex_refs w;
  inheritance_acyclic : acyclic w;
}.

(** All wait queues are in priority order. *)
Definition sorted_all (w : World) (q : Queues) : Prop :=
  ∀ a, sorted_waits w (q (QSem a)) ∧ sorted_waits w (q (QMtx a)).

Lemma inherited_priority_range t :
  0 <= t_base_priority t < PRIORITY_LEVELS → length (t_inherited_waiters t) = 32%nat →
  0 <= inherited_priority t < PRIORITY_LEVELS.
Proof.
  intros Hb Hl. unfold inherited_priority. destruct (position _ _) as [p|] eqn:E; [|lia].
  apply position_Some in E as [[? ?] _]. unfold PRIORITY_LEVELS in *. lia.
Qed.

(** The rule of the contract: the best of the base priority and the donations. *)
Lemma inherited_priority_min w o :
  donations w → slot_in o → (∀ i, slot_in i → priority_ok w i) →
  inherited_priority (T w o) <= t_base_priority (T w o) ∧
  (∀ i, slot_in i → owner_of w i = o → inherited_priority (T w o) <= prio w i) ∧
  (inherited_priority (T w o) = t_base_priority (T w o) ∨
   ∃ i, slot_in i ∧ owner_of w i = o ∧ prio w i = inherited_priority (T w o)).
Proof.
  intros [Hl Hc] Ho Hp. unfold inherited_priority. set (l := t_inherited_waiters (T w o)).
  assert (∀ i, slot_in i → owner_of w i = o → ∃ c, idx l (prio w i) = Some c ∧ negb (c =? 0) = true) as Hdon.
  { intros i Hi <-. exists (donated w (owner_of w i) (prio w i)). split; [apply Hc; [done|by apply Hp]|].
    pose proof (tally_pos (owner_of w) (prio w) i Hi). apply negb_true_iff, Z.eqb_neq. unfold donated. lia. }
  split; [lia|]. destruct (position _ l) as [p|] eqn:E.
  - apply position_Some in E as ([Hp0 Hp1] & (c & Hx & Hnz) & Hlow). split.
    + intros i Hi Hown. destruct (Hdon i Hi Hown) as (c' & Hx' & Hnz'). pose proof (Hp i Hi) as [? ?].
      destruct (decide (prio w i < p)) as [Hlt|]; [|lia]. unfold prio in *.
      by rewrite (Hlow (t_priority (T w i)) c') in Hnz' by (done || lia).
    + destruct (decide (t_base_priority (T w o) <= p)); [left; lia|]. right.
      unfold l in Hx, Hp1. rewrite Hl in Hp1 by done.
      rewrite Hc in Hx by (done || (unfold PRIORITY_LEVELS; lia)).
      injection Hx as <-. apply negb_true_iff, Z.eqb_neq in Hnz.
      destruct (decide (Exists (λ i, owner_of w i = o ∧ prio w i = p) slots)) as [Hex|Hnex].
      * apply Exists_exists in Hex as (i & Hi%slots_elem & ? & ?). exists i. split_and!; [done..|lia].
      * exfalso. apply Hnz. unfold donated, tally. rewrite (zsum_ext _ (λ _, 0)); [by vm_compute|].
        intros i Hi. unfold indicator. rewrite decide_False; [done|]. intros Hd. apply Hnex.
        apply Exists_exists. eauto.
  - split; [|left; lia]. intros i Hi Hown. destruct (Hdon i Hi Hown) as (c & Hx & Hnz).
    by rewrite (position_None _ _ E _ _ Hx) in Hnz.
Qed.

(** ** What the walk leaves alone *)

Lemma owner_of_sbp w w' i : same_but_priority w w' → owner_of w' i = owner_of w i.
Proof.
  intros [Hf _ Hm _ _]. unfold owner_of. rewrite (Hf _ t_waiting_mutex) by done.
  destruct (t_waiting_mutex (T w i) =? 0); [done|]. specialize (Hm (t_waiting_mutex (T w i))).
  destruct (w_mutexes w' !! _) as [st'|], (w_mutexes w !! _) as [st|]; simpl in Hm; try done.
  injection Hm as H1 H2. done.
Qed.

Lemma waits_for_sbp w w' i j : same_but_priority w w' → (waits_for w' i j ↔ waits_for w i j).
Proof. intros H. by rewrite !waits_for_owner, (owner_of_sbp w w'). Qed.

Lemma acyclic_sbp w w' : same_but_priority w w' → acyclic w → acyclic w'.
Proof.
  intros H Hac i Hi. apply (Hac i).
  assert (∀ i j, tc (waits_for w') i j → tc (waits_for w) i j) as Hsub; [|by apply Hsub].
  clear i Hi. induction 1 as [i j Hij|i j k Hij _ IH].
  - apply tc_once. by apply (waits_for_sbp w w').
  - eapply tc_l; [|done]. by apply (waits_for_sbp w w').
Qed.

Lemma mutex_refs_sbp w w' : same_but_priority w w' → mutex_refs w → mutex_refs w'.
Proof.
  intros [Hf _ Hm _ _] [H1 H2]. split.
  - intros i Hi. rewrite (Hf _ t_waiting_mutex) by done. intros Hne.
    destruct (H1 i Hi Hne) as [st Hst]. specialize (Hm (t_waiting_mutex (T w i))). rewrite Hst in Hm.
    by destruct (w_mutexes w' !! _).
  - intros a st Hst Hn. specialize (Hm a). rewrite Hst in Hm.
    destruct (w_mutexes w !! a) as [st0|] eqn:E; [|done]. injection Hm as E1 E2.
    rewrite E1 in Hn |- *. by apply (H2 a st0).
Qed.

(** The invariant reads nothing else. *)
Lemma inheritance_ext w w' exc :
  same_but_priority w w' → (∀ j, t_priority (T w' j) = t_priority (T w j)) →
  (∀ j, t_inherited_waiters (T w' j) = t_inherited_waiters (T w j)) →
  inheritance w exc → inheritance w' exc.
Proof.
  intros Hs Hp Hi [H1 [H2 H3] H4 H5 H6]. pose proof Hs as [Hf _ _ _ _]. split.
  - intros o Ho. rewrite (Hf _ t_base_priority) by done. auto.
  - split; [intros o Ho; rewrite Hi; auto|]. intros o p Ho Hpr. rewrite Hi, H3 by done. f_equal.
    symmetry. apply tally_ext; intros i _.
    + intros E. rewrite (owner_of_sbp w w') by done. unfold prio. by rewrite Hp.
    + by rewrite (owner_of_sbp w w').
  - intros o Ho Hne. rewrite Hp, H4 by done. unfold inherited_priority.
    by rewrite Hi, (Hf _ t_base_priority).
  - by apply (mutex_refs_sbp w).
  - by apply (acyclic_sbp w).
Qed.

Lemma inheritance_core w w' exc : core w' = core w → inheritance w exc → inheritance w' exc.
Proof.
  intros Hc. apply inheritance_ext; [by apply sbp_core|intros j; by apply (core_field t_priority)
    |intros j; by apply (core_field t_inherited_waiters)].
Qed.

(** ** Reordering one mutex's waiters *)

Lemma owned_reorder w w' q q' d :
  owned w q d → core w' = core w → queues w' q' → (∀ j id, j ∈ q' id ↔ j ∈ q id) → owned w' q' d.
Proof.
  intros Hw Hc Hq' Hj. pose proof (same_view_core w w' Hc) as V.
  apply (owned_change w w' q q' d d (current w) Hw Hq'); try done.
  - by apply same_view_except.
  - intros E. by apply (owned_hand_slot w q d (proj2 Hw)).
  - intros Hcur. destruct V as [V1 V2 V3]. pose proof (owned_placed w q d (proj2 Hw) _ Hcur) as Hpl.
    apply (placed_ext w w' q q' d d (current w)); try done; [by apply is_target_same|].
    intros Hr. rewrite V2, V3. by apply (placed_running w q d).
Qed.

(** The outcome of a step of the walk. *)
Record settled (w w' : World) (q q' : Queues) (d : option Z) (exc : option Z) : Prop := {
  settled_owned : owned w' q' d;
  settled_sorted : sorted_all w' q';
  settled_inheritance : inheritance w' exc;
  settled_rest : same_but_priority w w';
  settled_waits a : q' (QSem a) ≡ₚ q (QSem a) ∧ q' (QMtx a) ≡ₚ q (QMtx a);
}.

Lemma settled_trans w1 w2 w3 q1 q2 q3 d e1 e2 :
  settled w1 w2 q1 q2 d e1 → settled w2 w3 q2 q3 d e2 → settled w1 w3 q1 q3 d e2.
Proof.
  intros [_ _ _ H1 P1] [? ? ? H2 P2]. split; try done; [by eapply sbp_trans|].
  intros a. destruct (P1 a), (P2 a). split; by etrans.
Qed.

Lemma reenqueue_spec w q d i a :
  owned w q d → slot_in i → i ∈ q (QMtx a) →
  (∀ b, sorted_waits w (q (QSem b)) ∧ sorted_waits w (without i (q (QMtx b)))) →
  wp (remove_mutex_waiter a i ;; enqueue_mutex_waiter a i) (λ _ w', ∃ q',
    owned w' q' d ∧ sorted_all w' q' ∧ core w' = core w ∧
    ∀ b, q' (QSem b) ≡ₚ q (QSem b) ∧ q' (QMtx b) ≡ₚ q (QMtx b)) w.
Proof.
  intros Hw Hi Hin Hso. pose proof Hw as [Hq Ho]. pose proof (queues_valid w q Hq _ _ Hin) as Hv.
  unfold remove_mutex_waiter, enqueue_mutex_waiter. go.
  wp_apply (remove_spec w q (QMtx a) i Hq Hv). intros _ w1 (Hc1 & Hq1 & _). specialize (Hq1 Hin).
  set (q1 := qset (QMtx a) (without i (q (QMtx a))) q) in *.
  assert (detached q1 i) as Hd.
  { intros id. unfold q1, qset. case_decide as E; [rewrite elem_of_without; tauto|].
    intros Hin'. apply E. by apply (queues_disjoint w q Hq _ _ i). }
  assert (valid w1 (QMtx a)) as Hv1 by (by apply (core_valid w1 w (QMtx a))).
  wp_apply (enqueue_spec w1 q1 (QMtx a) i Hq1 Hv1 Hi Hd). intros _ w' [Hq' Hc'].
  assert (q1 (QMtx a) = without i (q (QMtx a))) as E1 by (unfold q1; apply qset_eq).
  rewrite E1 in Hq'. set (l := place _ i _) in Hq'.
  assert (l ≡ₚ q (QMtx a)) as Hl.
  { unfold l. rewrite place_perm. apply without_perm; [by eapply queues_nodup|done]. }
  assert (∀ id, id ≠ QMtx a → qset (QMtx a) l q1 id = q id) as Hother.
  { intros id Hid. unfold q1. by rewrite !qset_ne by congruence. }
  assert (core w' = core w) as Hc by congruence.
  assert (∀ j, t_priority (T w' j) = t_priority (T w j)) as Hpr by (intros j; by apply (core_field t_priority)).
  exists (qset (QMtx a) l q1). split_and!; [|intros b; split|done|intros b; split].
  - apply (owned_reorder w w' q _ d Hw Hc Hq'). intros j id.
    destruct (decide (id = QMtx a)) as [->|Hid]; [by rewrite qset_eq, Hl|by rewrite Hother].
  - rewrite Hother by done. apply (sorted_waits_ext w); [by intros; rewrite Hpr|apply Hso].
  - destruct (decide (QMtx b = QMtx a)) as [[= ->]|Hid].
    + rewrite qset_eq. apply (sorted_waits_ext w1); [intros j _; by apply (core_field t_priority)|].
      apply sorted_waits_place. apply (sorted_waits_ext w); [intros j _; by apply (core_field t_priority)|apply Hso].
    + rewrite Hother by done. apply (sorted_waits_ext w); [by intros; rewrite Hpr|].
      destruct (Hso b) as [_ Hb]. rewrite without_not_in in Hb; [done|].
      intros Hin'. apply Hid. by apply (queues_disjoint w q Hq _ _ i).
  - by rewrite Hother.
  - destruct (decide (QMtx b = QMtx a)) as [[= ->]|Hid]; [by rewrite qset_eq, Hl|by rewrite Hother].
Qed.

(** ** The walk *)

Lemma alter_inherited_spec w q d f o p c c' (Q : unit → World → Prop) :
  owned w q d → slot_in o → idx (t_inherited_waiters (T w o)) p = Some c → f c = Some c' →
  (let w' := upd_task o (λ t, t <| t_inherited_waiters ::= λ l, alter_at (λ _, c') l p |>) w in
   owned w' q d → Q tt w') →
  wp (alter_inherited f o p) Q w.
Proof.
  intros Hw Ho Hx Hf HQ. pose proof (owned_shape w q d Hw) as Hs. unfold alter_inherited. go.
  eapply wp_expect; [done|]. go. eapply wp_expect; [done|]. go. apply HQ. by apply owned_upd.
Qed.

(** The donations of [o] still count one waiter at [old] that is now at [new]. *)
Definition moved_count (w : World) (o old new o' p : Z) : Z :=
  donated w o' p + indicator (o' = o ∧ p = old) - indicator (o' = o ∧ p = new).

Record unsettled (w : World) (o old new : Z) : Prop := {
  unsettled_length o' : slot_in o' → length (t_inherited_waiters (T w o')) = 32%nat;
  unsettled_count o' p : slot_in o' → 0 <= p < PRIORITY_LEVELS →
    idx (t_inherited_waiters (T w o')) p = Some (moved_count w o old new o' p);
}.

Lemma idx_alter_const {A} (l : list A) p p' (c x : A) :
  idx l p' = Some x → idx (alter_at (λ _, c) l p) p' = Some (if decide (p' = p) then c else x).
Proof.
  intros Hx. case_decide as E; [subst; by rewrite idx_alter_eq, Hx|]. by rewrite idx_alter_ne.
Qed.

(** The two updates of [replace_inheritance] settle the counts. *)
Lemma replace_counts w q d o old new (Q : unit → World → Prop) :
  owned w q d → unsettled w o old new → slot_in o → old ≠ new →
  0 <= old < PRIORITY_LEVELS → 0 <= new < PRIORITY_LEVELS → 1 <= donated w o new →
  (∀ w', owned w' q d → donations w' → same_but_priority w w' →
    (∀ j, t_priority (T w' j) = t_priority (T w j)) →
    (∀ j, j ≠ o → t_inherited_waiters (T w' j) = t_inherited_waiters (T w j)) → Q tt w') →
  wp (alter_inherited (λ count, checked_sub count 1) o old ;;
      alter_inherited (λ count, checked_add u8_max count 1) o new) Q w.
Proof.
  intros Hw [Hl Hc] Ho Hne Hold Hnew Hdon HQ. pose proof (owned_shape w q d Hw) as Hs.
  pose proof (Hc o old Ho Hold) as Ho1. pose proof (Hc o new Ho Hnew) as Ho2.
  unfold moved_count in Ho1, Ho2.
  rewrite (indicator_true (o = o ∧ old = old)), (indicator_false (o = o ∧ old = new)) in Ho1 by tauto.
  rewrite (indicator_false (o = o ∧ new = old)), (indicator_true (o = o ∧ new = new)) in Ho2
    by (tauto || (intros [_ E]; by apply Hne)).
  pose proof (tally_bound (owner_of w) (prio w) o old) as B1.
  pose proof (tally_bound (owner_of w) (prio w) o new) as B2.
  go. eapply (alter_inherited_spec w q d _ o old); [done..|by apply Ho1| |].
  { unfold checked_sub. rewrite (proj2 (Z.leb_le _ _)) by (unfold donated; lia). done. }
  intros w1 Hw1. set (l0 := t_inherited_waiters (T w o)) in *.
  set (l1 := alter_at (λ _, donated w o old + 1 - 0 - 1) l0 old).
  assert (t_inherited_waiters (T w1 o) = l1) as Hi1 by (unfold w1; by rewrite T_upd_eq).
  eapply (alter_inherited_spec w1 q d _ o new); [done..| | |].
  { rewrite Hi1. unfold l1. rewrite idx_alter_ne by done. exact Ho2. }
  { unfold checked_add, u8_max. rewrite (proj2 (Z.leb_le _ _)) by (unfold donated; lia). done. }
  intros w2 Hw2. set (l2 := alter_at (λ _, donated w o new + 0 - 1 + 1) l1 new).
  assert (t_inherited_waiters (T w2 o) = l2) as Hi2.
  { unfold w2. rewrite T_upd_eq by eauto with store. simpl. by rewrite Hi1. }
  assert (∀ j, j ≠ o → T w2 j = T w j) as Hj.
  { intros j Hjo. unfold w2, w1. by rewrite !T_upd_ne by eauto with store. }
  assert (same_but_priority w w2) as Hsbp.
  { eapply sbp_trans; [|apply sbp_upd_inherited]. apply sbp_upd_inherited. }
  assert (∀ j, t_priority (T w2 j) = t_priority (T w j)) as Hp.
  { intros j. unfold w2, w1. by rewrite !(T_upd_field t_priority) by done. }
  assert (∀ o' p, donated w2 o' p = donated w o' p) as Hd.
  { intros o' p. apply tally_ext; intros i _.
    - intros E. rewrite (owner_of_sbp w w2) by done. unfold prio. by rewrite Hp.
    - by rewrite (owner_of_sbp w w2). }
  apply HQ; try done.
  - split.
    + intros o' Ho'. destruct (decide (o' = o)) as [->|]; [|rewrite Hj; auto].
      rewrite Hi2. unfold l2, l1. rewrite !length_alter_at. by apply Hl.
    + intros o' p Ho' Hpr. rewrite Hd. pose proof (Hc o' p Ho' Hpr) as Hx.
      unfold moved_count in Hx. destruct (decide (o' = o)) as [->|Hno].
      * rewrite Hi2. unfold l2, l1. erewrite idx_alter_const; [|apply idx_alter_const; exact Hx].
        f_equal. destruct (decide (p = new)) as [->|Hpn]; [lia|].
        rewrite (indicator_false (o = o ∧ p = new)) by tauto.
        destruct (decide (p = old)) as [->|Hpo]; [lia|].
        rewrite (indicator_false (o = o ∧ p = old)) by tauto. lia.
      * rewrite Hj by done. rewrite Hx. f_equal.
        rewrite (indicator_false (o' = o ∧ p = old)), (indicator_false (o' = o ∧ p = new)) by tauto. lia.
  - intros j Hjo. by rewrite Hj.
Qed.

Lemma donated_moved w w' i o p :
  slot_in i → same_but_priority w w' → (∀ j, j ≠ i → t_priority (T w' j) = t_priority (T w j)) →
  donated w' o p = donated w o p - indicator (o = owner_of w i ∧ p = prio w i)
    + indicator (o = owner_of w i ∧ p = prio w' i).
Proof.
  intros Hi Hs Hj. unfold donated. rewrite (tally_update (owner_of w) (prio w) _ _ i o p Hi).
  - rewrite (owner_of_sbp w w' i Hs). f_equal; [f_equal|]; apply indicator_ext; naive_solver.
  - intros j _ Hne. split; [by apply owner_of_sbp|]. by apply Hj.
Qed.

Lemma unsettled_moved w w' i :
  slot_in i → donations w → same_but_priority w w' →
  (∀ j, j ≠ i → t_priority (T w' j) = t_priority (T w j)) →
  (∀ j, t_inherited_waiters (T w' j) = t_inherited_waiters (T w j)) →
  unsettled w' (owner_of w i) (prio w i) (prio w' i).
Proof.
  intros Hi [Hl Hc] Hs Hj Hin. split.
  - intros o Ho. rewrite Hin. by apply Hl.
  - intros o p Ho Hp. rewrite Hin, Hc by done. f_equal. unfold moved_count.
    rewrite (donated_moved w w' i o p) by done. lia.
Qed.

Lemma unsettled_nobody w old new : unsettled w NIL old new → donations w.
Proof.
  intros [Hl Hc]. split; [done|]. intros o p Ho Hp. rewrite Hc by done. f_equal. unfold moved_count.
  pose proof (slot_in_not_NIL o Ho). rewrite !indicator_false by tauto. lia.
Qed.

(** The task [i] settled at [v]; the counts of [o], its owner, may be off. *)
Lemma inheritance_step w w' i exc v :
  inheritance w (Some i) → donations w' → same_but_priority w w' →
  (∀ j, t_priority (T w' j) = if decide (j = i) then v else t_priority (T w j)) →
  v = inherited_priority (T w i) →
  (∀ j, exc ≠ Some j → t_inherited_waiters (T w' j) = t_inherited_waiters (T w j)) →
  inheritance w' exc.
Proof.
  intros [H1 H2 H3 H4 H5] Hd Hs Hp Hv Hi. pose proof Hs as [Hf _ _ _ _]. split; [|done|..].
  - intros o Ho. rewrite (Hf _ t_base_priority) by done. auto.
  - intros o Ho Hne. assert (inherited_priority (T w' o) = inherited_priority (T w o)) as ->.
    { unfold inherited_priority. by rewrite Hi, (Hf _ t_base_priority). }
    rewrite Hp. case_decide; [by subst|]. apply H3; [done|congruence].
  - by apply (mutex_refs_sbp w).
  - by apply (acyclic_sbp w).
Qed.

Lemma sorted_moved w w' l i :
  (∀ j, j ≠ i → t_priority (T w' j) = t_priority (T w j)) → sorted_waits w l →
  sorted_waits w' (without i l).
Proof.
  intros Hj Hso. apply (sorted_waits_ext w); [|by apply sorted_waits_without].
  intros j [_ Hne]%elem_of_without. by apply Hj.
Qed.

(** The wait list a task that waits for no mutex is in: none. *)
Lemma owned_no_mutex w q d i a :
  owned w q d → slot_in i → t_waiting_mutex (T w i) = 0 → i ∉ q (QMtx a).
Proof.
  intros [_ Ho] Hi Hw Hin. destruct (placed_mtx w q d i (owned_placed w q d Ho i Hi) a Hin) as (_ & ? & ?).
  congruence.
Qed.

(** The task [i] has moved to [v] in every queue; its owner is not told yet. *)
Record walked (w w' : World) (q q' : Queues) (d : option Z) (i v : Z) : Prop := {
  walked_owned : owned w' q' d;
  walked_sorted : sorted_all w' q';
  walked_rest : same_but_priority w w';
  walked_priority j : t_priority (T w' j) = if decide (j = i) then v else t_priority (T w j);
  walked_inherited j : t_inherited_waiters (T w' j) = t_inherited_waiters (T w j);
  walked_waits a : q' (QSem a) ≡ₚ q (QSem a) ∧ q' (QMtx a) ≡ₚ q (QMtx a);
}.

Lemma reprioritised_lists w w1 q q1 d i v :
  sorted_all w q → reprioritised w w1 q q1 d i v →
  ∀ a, sorted_waits w1 (q1 (QSem a)) ∧ sorted_waits w1 (without i (q1 (QMtx a))).
Proof.
  intros Hso [H1 H2 H3 H4 H5 H6 H7] a. split; [apply H7; intros b; apply Hso|].
  rewrite H5. apply (sorted_moved w w1); [|apply Hso]. intros j Hj. by rewrite H2, decide_False.
Qed.

Lemma walked_free w w1 q q1 d i v :
  sorted_all w q → slot_in i → t_waiting_mutex (T w1 i) = 0 → reprioritised w w1 q q1 d i v →
  walked w w1 q q1 d i v.
Proof.
  intros Hso Hi Hw Hr. pose proof (reprioritised_lists _ _ _ _ _ _ _ Hso Hr) as Hl.
  destruct Hr as [H1 H2 H3 H4 H5 H6 H7]. split; try done; [|intros a; by rewrite H5].
  intros a. destruct (Hl a) as [? Hm]. split; [done|]. rewrite without_not_in in Hm; [done|].
  by apply (owned_no_mutex w1 q1 d).
Qed.

Lemma walked_reenqueue w w1 q q1 d i v :
  sorted_all w q → slot_in i → t_waiting_mutex (T w1 i) ≠ 0 → reprioritised w w1 q q1 d i v →
  let a := t_waiting_mutex (T w1 i) in
  wp (remove_mutex_waiter a i ;; enqueue_mutex_waiter a i) (λ _ w', ∃ q', walked w w' q q' d i v) w1.
Proof.
  intros Hso Hi Hw Hr a. pose proof (reprioritised_lists _ _ _ _ _ _ _ Hso Hr) as Hl.
  destruct Hr as [H1 H2 H3 H4 H5 H6 H7].
  pose proof (placed_mtx_home w1 q1 d i (owned_placed w1 q1 d (proj2 H1) i Hi) Hw) as Hin.
  wp_apply (reenqueue_spec w1 q1 d i a H1 Hi Hin Hl). intros _ w2 (q2 & Ho2 & Hso2 & Hc2 & Hq2).
  exists q2. split; try done.
  - by eapply sbp_core_l.
  - intros j. rewrite <-H2. by apply (core_field t_priority).
  - intros j. rewrite <-H3. by apply (core_field t_inherited_waiters).
  - intros b. destruct (Hq2 b) as [-> ->]. by rewrite H5.
Qed.

Lemma walked_unsettled w w' q q' d i v :
  slot_in i → donations w → walked w w' q q' d i v → unsettled w' (owner_of w i) (prio w i) v.
Proof.
  intros Hi Hd [H1 H2 H3 H4 H5 H6]. assert (v = prio w' i) as -> by (unfold prio; by rewrite H4, decide_True).
  apply unsettled_moved; try done. intros j Hj. by rewrite H4, decide_False.
Qed.

(** Nobody receives the donation: the walk ends. *)
Lemma walked_end w w' q q' d i v :
  inheritance w (Some i) → slot_in i → v = inherited_priority (T w i) → owner_of w i = NIL →
  walked w w' q q' d i v → settled w w' q q' d None.
Proof.
  intros Hinh Hi Hv Hn Hwk. pose proof Hinh as [_ Hdon _ _ _].
  pose proof (walked_unsettled w w' q q' d i v Hi Hdon Hwk) as Hun. rewrite Hn in Hun.
  destruct Hwk as [H1 H2 H3 H4 H5 H6]. split; try done.
  eapply (inheritance_step w w' i None v); try done. by eapply unsettled_nobody.
Qed.

(** The owner [o] is told and refreshed in turn. *)
Lemma walked_replace w w2 q q2 d i v o (refresh : M World unit) :
  inheritance w (Some i) → slot_in i → v = inherited_priority (T w i) → t_priority (T w i) ≠ v →
  priority_ok w i → owner_of w i = o → slot_in o → walked w w2 q q2 d i v →
  (∀ w3, owned w3 q2 d → sorted_all w3 q2 → inheritance w3 (Some o) → same_but_priority w w3 →
    wp refresh (λ _ w', ∃ q', settled w3 w' q2 q' d None) w3) →
  wp ((alter_inherited (λ count, checked_sub count 1) o (t_priority (T w i)) ;;
       alter_inherited (λ count, checked_add u8_max count 1) o v) ;; refresh)
    (λ _ w', ∃ q', settled w w' q q' d None) w2.
Proof.
  intros Hinh Hi Hv E Hold Hown Ho Hwk Href. pose proof Hinh as [Hbase Hdon _ _ _].
  pose proof (walked_unsettled w w2 q q2 d i v Hi Hdon Hwk) as Hun. rewrite Hown in Hun.
  destruct Hwk as [Ho2 Hso2 Hs2 Hp2 Hi2 Hq2].
  assert (0 <= v < PRIORITY_LEVELS) as Hnew.
  { subst v. apply inherited_priority_range; [auto|by apply Hdon]. }
  assert (1 <= donated w2 o v) as Hpos.
  { pose proof (tally_pos (owner_of w2) (prio w2) i Hi) as H. rewrite (owner_of_sbp w w2 i Hs2), Hown in H.
    unfold prio at 2 in H. by rewrite Hp2, decide_True in H. }
  apply wp_bind. apply (replace_counts w2 q2 d o (prio w i) v); try done.
  intros w3 Ho3 Hd3 Hs3 Hp3 Hi3. assert (same_but_priority w w3) as Hsw3 by (by eapply sbp_trans).
  eapply wp_mono; [|apply Href; try done].
  - intros _ w4 [q4 [H1 H2 H3 H4 H5]]. exists q4. split; try done; [by eapply sbp_trans|].
    intros b. destruct (H5 b) as [-> ->]. apply Hq2.
  - intros b. destruct (Hso2 b). split; (eapply sorted_waits_ext; [|done]); intros; by rewrite Hp3.
  - eapply (inheritance_step w w3 i (Some o) v); try done; [intros j; by rewrite Hp3|].
    intros j Hj. rewrite Hi3 by congruence. apply Hi2.
Qed.

Lemma bind_assoc_wp {A B C} (m : M World A) (f : A → M World B) (g : B → M World C) Q w :
  wp ((m ≫= f) ≫= g) Q w → wp (m ≫= λ a, f a ≫= g) Q w.
Proof. unfold wp, mbind, M_bind. by destruct (m w) as [[a w']|]. Qed.

Lemma tc_waits_sbp w w' x y : same_but_priority w w' → tc (waits_for w) x y → tc (waits_for w') x y.
Proof.
  intros Hs. induction 1 as [x y Hxy|x y z Hxy _ IH]; [apply tc_once|eapply tc_l; [|done]];
    by apply (waits_for_sbp w w').
Qed.

(** The visited tasks all wait for [i], so no task is visited twice. *)
Record trail (w : World) (visited : list Z) (i : Z) : Prop := {
  trail_nodup : NoDup visited;
  trail_waits v : v ∈ visited → slot_in v ∧ tc (waits_for w) v i;
}.

Lemma trail_cons w visited i : acyclic w → slot_in i → trail w visited i → NoDup (i :: visited) ∧
  ∀ v, v ∈ i :: visited → slot_in v.
Proof.
  intros Hac Hi [Hnd Hv]. split.
  - apply NoDup_cons. split; [|done]. intros Hin. by destruct (Hv i Hin) as [_ ?%Hac].
  - intros v [->|Hin]%elem_of_cons; [done|]. by apply Hv.
Qed.

Lemma trail_step w w' visited i o :
  acyclic w → slot_in i → waits_for w i o → same_but_priority w w' → trail w visited i →
  trail w' (i :: visited) o.
Proof.
  intros Hac Hi Hedge Hs Ht. destruct (trail_cons w visited i Hac Hi Ht) as [Hnd _]. split; [done|].
  destruct Ht as [_ Hv]. intros v [->|Hin]%elem_of_cons.
  - split; [done|]. by apply (tc_waits_sbp w w'), tc_once.
  - destruct (Hv v Hin) as [? Hr]. split; [done|]. apply (tc_waits_sbp w w'); [done|]. by eapply tc_r.
Qed.

(** The walk ends with every task settled, within its depth bound. *)
Lemma refresh_from_spec fuel w q d i visited :
  owned w q d → sorted_all w q → inheritance w (Some i) → slot_in i → trail w visited i →
  (length visited + fuel = 18)%nat →
  wp (refresh_from fuel i (Z.of_nat (length visited))) (λ _ w', ∃ q', settled w w' q q' d None) w.
Proof.
  revert w q i visited. induction fuel as [|fuel IH]; intros w q i visited Hw Hso Hinh Hi Htr Hlen;
    pose proof Hinh as [Hbase Hdon Heff Hrefs Hac]; destruct (trail_cons w visited i Hac Hi Htr) as [Hnd Hin];
    pose proof (slots_length _ Hnd Hin) as Hdepth; simpl in Hdepth; [lia|].
  pose proof (owned_shape w q d Hw) as Hs. cbn [refresh_from].
  apply wp_bind, wp_assert; [apply Z.ltb_lt; rewrite slot_count_value; lia|]. go.
  set (new := inherited_priority (T w i)).
  assert (0 <= new < PRIORITY_LEVELS) as Hnew by (apply inherited_priority_range; [auto|by apply Hdon]).
  pose proof (placed_priority w q d i (owned_placed w q d (proj2 Hw) i Hi)) as Hold.
  destruct (Z.eqb_spec (t_priority (T w i)) new) as [E|E].
  { go. exists q. split; [done|done|..|apply sbp_refl|done]. split; [done|done| |done|done].
    intros o Ho _. destruct (decide (o = i)) as [->|Hne]; [done|]. apply Heff; [done|congruence]. }
  go. wp_apply (set_effective_spec w q d i new Hw Hi Hnew E). intros _ w1 [q1 Hr].
  pose proof Hr as [Ho1 _ _ Hs1 _ _ _]. pose proof (owner_of_sbp w w1 i Hs1) as Hown1.
  pose proof (owned_shape w1 q1 d Ho1) as Hsh1. go.
  destruct (Z.eqb_spec (t_waiting_mutex (T w1 i)) 0) as [Ew|Ew]; cbn [negb when].
  { go. exists q1. apply (walked_end w w1 q q1 d i new); try done; [|by apply walked_free].
    rewrite <-Hown1. unfold owner_of. by rewrite Ew. }
  set (a := t_waiting_mutex (T w1 i)) in *. apply bind_assoc_wp, wp_bind.
  wp_apply (walked_reenqueue w w1 q q1 d i new Hso Hi Ew Hr). intros _ w2 [q2 Hwk].
  pose proof Hwk as [_ _ Hs2 _ _ _]. pose proof (owner_of_sbp w w2 i Hs2) as Hown2.
  assert (t_waiting_mutex (T w2 i) = a) as Hwm2.
  { unfold a. rewrite (sbp_field w w1 Hs1 t_waiting_mutex), (sbp_field w w2 Hs2 t_waiting_mutex); done. }
  destruct (mutex_refs_sbp w w2 Hs2 Hrefs) as [Hex2 Hsl2].
  destruct (Hex2 i Hi) as [st Hst]; [by rewrite Hwm2|]. rewrite Hwm2 in Hst.
  assert (owner_of w i = mtx_owner st) as Hown.
  { rewrite <-Hown2. unfold owner_of. rewrite Hwm2, Hst. by rewrite (proj2 (Z.eqb_neq a 0) Ew). }
  go. eapply wp_mutex_at; [exact Hst|]. set (o := mtx_owner st) in *.
  destruct (Z.eqb_spec o NIL) as [Eo|Eo]; cbn [negb when].
  { go. exists q2. apply (walked_end w w2 q q2 d i new); try done. congruence. }
  assert (slot_in o) as Hosl by (by eapply Hsl2).
  assert (waits_for w i o) as Hedge by (by apply waits_for_owner).
  unfold replace_inheritance_with. rewrite (proj2 (Z.eqb_neq _ _) E).
  apply bind_assoc_wp. apply (walked_replace w w2 q q2 d i new o); try done.
  intros w3 Ho3 Hso3 Hinh3 Hs3.
  replace (Z.of_nat (length visited) + 1) with (Z.of_nat (length (i :: visited))) by (simpl; lia).
  apply IH; try done; [by apply (trail_step w)|simpl; lia].
Qed.
