(* ===== verification/Sync.v ===== *)
(** * Semaphores and mutexes ([src/runtime/sync.rs])

    The operations that run inside the scheduler's critical section. A semaphore
    or mutex is named by its address; the parts of [down], [down_timeout], [up],
    [lock] and [unlock] between two critical sections (reading the clock, rearming
    the timer, switching away) belong to the callers in [src/runtime.rs]. *)

From S2P Require Import Prelude Effects Budget Contract Config Context Reservation.
From S2P Require Import Tcb Store Chain Ready Wait Switch Invariant Inherit.

(** ** Semaphores *)

Definition release_semaphore_locked (sem now : Z) : M World Z :=
  waiter ← get_head (QSem sem);
  if waiter =? NIL then
    state ← sem_at sem;
    count ← expect (checked_add i32_max state.(sem_count) 1);
    set_sem sem (λ st, st <| sem_count := count |>) ;;
    mret NIL
  else
    next ← tget t_next waiter;
    set_head (QSem sem) next ;;
    head ← get_head (QSem sem);
    when (head =? NIL) (set_tail (QSem sem) NIL) ;;
    set_next waiter NIL ;;
    set_task waiter (λ t, t <| t_wake_at := 0 |> <| t_granted_sem := t.(t_waiting_sem) |>
      <| t_waiting_sem := 0 |> <| t_sem_granted := true |>) ;;
    make_ready waiter now ;;
    bump d_semaphore_wakes ;;
    mret waiter.

Definition consume_semaphore_grant_locked (task : Z) : M World bool :=
  granted ← tget t_sem_granted task;
  set_task task (λ t, t <| t_sem_granted := false |> <| t_granted_sem := 0 |>) ;;
  mret granted.

Definition cancel_semaphore_wait_locked (task now : Z) : M World bool :=
  waiting_sem ← tget t_waiting_sem task;
  if negb (waiting_sem =? 0) then
    remove_waiter waiting_sem task ;;
    set_task task (λ t, t <| t_waiting_sem := 0 |> <| t_wake_at := 0 |> <| t_sem_granted := false |>) ;;
    state ← tget t_state task;
    when (state_eqb state Blocked) (make_ready task now) ;;
    mret true
  else
    granted_sem ← tget t_granted_sem task;
    if negb (granted_sem =? 0) then
      set_task task (λ t, t <| t_granted_sem := 0 |> <| t_sem_granted := false |>) ;;
      release_semaphore_locked granted_sem now ;;
      mret true
    else mret false.

Definition timeout_semaphore_waiter_locked (task now : Z) : M World bool :=
  t ← task_at task;
  if negb (state_eqb t.(t_state) Blocked) || (t.(t_waiting_sem) =? 0) || (t.(t_wake_at) =? 0) ||
     (now <? t.(t_wake_at))
  then mret false
  else
    remove_waiter t.(t_waiting_sem) task ;;
    set_task task (λ t, t <| t_waiting_sem := 0 |> <| t_sem_granted := false |>
      <| t_granted_sem := 0 |> <| t_wake_at := 0 |>) ;;
    make_ready task now ;;
    mret true.

(** [prepare_switch_away_locked] of [src/runtime.rs]; [ported] is [port.is_some()]. *)
Definition prepare_switch_away_locked (ported : bool) (previous generation : Z) :
    M World (option SwitchIntent) :=
  prepare_switch_away_decision previous generation ported.

(** The blocking half of [down] and [down_timeout]. *)
Definition block_on_semaphore (ported : bool) (self current deadline : Z) : M World SwitchIntent :=
  generation ← tget t_resume_generation current;
  bump d_semaphore_blocks ;;
  set_task current (λ t, t <| t_state := Blocked |> <| t_wake_at := deadline |>
    <| t_waiting_sem := self |> <| t_sem_granted := false |>) ;;
  enqueue_waiter self current ;;
  intent ← prepare_switch_away_locked ported current generation;
  expect intent.

(** The critical section of [Semaphore::down]. *)
Definition down (ported delivery : bool) (self : Z) : M World (result DriverError (option SwitchIntent)) :=
  state ← sem_at self;
  if 0 <? state.(sem_count) then
    set_sem self (λ st, st <| sem_count := state.(sem_count) - 1 |>) ;; mret (Ok None)
  else if negb delivery then mret (Err InvalidContext)
  else
    current ←? current_switch_guard;
    intent ← block_on_semaphore ported self current 0;
    mret (Ok (Some intent)).

(** The critical section of [Semaphore::down_timeout]. *)
Definition down_timeout (ported delivery : bool) (self timeout_ms deadline : Z) :
    M World (result DriverError (option bool * option SwitchIntent)) :=
  state ← sem_at self;
  if 0 <? state.(sem_count) then
    set_sem self (λ st, st <| sem_count := state.(sem_count) - 1 |>) ;; mret (Ok (Some true, None))
  else if timeout_ms =? 0 then mret (Ok (Some false, None))
  else if negb delivery then mret (Err InvalidContext)
  else
    current ←? current_switch_guard;
    intent ← block_on_semaphore ported self current deadline;
    mret (Ok (None, Some intent)).

(** The critical section of [Semaphore::up]: whether to request a reschedule. *)
Definition up (self now interrupt_depth : Z) : M World bool :=
  waiter ← release_semaphore_locked self now;
  mret (negb (waiter =? NIL) && (interrupt_depth =? 0)).

(** ** Mutexes *)

(** [while waiter != NIL { body(waiter); waiter = tasks[waiter].next }] *)
Fixpoint for_waiters (fuel : nat) (waiter : Z) (body : Z → M World unit) : M World unit :=
  match fuel with
  | O => fail Hung
  | S fuel =>
      if waiter =? NIL then mret tt
      else
        body waiter ;;
        next ← tget t_next waiter;
        for_waiters fuel next body
  end.

Definition release_mutex_locked (mutex owner now : Z) : M World unit :=
  next ← pop_mutex_waiter mutex;
  if next =? NIL then set_mutex mutex (λ st, st <| mtx_owner := NIL |>)
  else
    priority ← tget t_priority next;
    remove_inheritance owner priority ;;
    waiter ← get_head (QMtx mutex);
    for_waiters (S task_slots_nat) waiter (λ waiter,
      priority ← tget t_priority waiter; remove_inheritance owner priority) ;;
    set_mutex mutex (λ st, st <| mtx_owner := next |> <| mtx_depth := 1 |>) ;;
    set_task next (λ t, t <| t_granted_mutex := t.(t_waiting_mutex) |> <| t_waiting_mutex := 0 |>
      <| t_wake_at := 0 |> <| t_sem_granted := true |>) ;;
    make_ready next now ;;
    waiter ← get_head (QMtx mutex);
    for_waiters (S task_slots_nat) waiter (λ waiter,
      priority ← tget t_priority waiter; add_inheritance next priority).

Definition cancel_wait_locked (task now : Z) : M World WaitCancellationOutcome :=
  cancelled ← cancel_semaphore_wait_locked task now;
  if cancelled : bool then mret Cancelled
  else
    waiting_mutex ← tget t_waiting_mutex task;
    if negb (waiting_mutex =? 0) then
      remove_mutex_waiter waiting_mutex task ;;
      state ← mutex_at waiting_mutex;
      when (negb (state.(mtx_owner) =? NIL))
        (priority ← tget t_priority task; remove_inheritance state.(mtx_owner) priority) ;;
      set_task task (λ t, t <| t_waiting_mutex := 0 |> <| t_wake_at := 0 |> <| t_sem_granted := false |>) ;;
      task_state ← tget t_state task;
      when (state_eqb task_state Blocked) (make_ready task now) ;;
      mret Cancelled
    else
      granted_mutex ← tget t_granted_mutex task;
      if negb (granted_mutex =? 0) then
        set_task task (λ t, t <| t_granted_mutex := 0 |> <| t_sem_granted := false |>) ;;
        state ← mutex_at granted_mutex;
        assert_ (state.(mtx_owner) =? task) ;;
        assert_ (state.(mtx_depth) =? 1) ;;
        set_mutex granted_mutex (λ st, st <| mtx_depth := 0 |>) ;;
        release_mutex_locked granted_mutex task now ;;
        mret Cancelled
      else mret NotWaiting.

(** The critical section of [RtosMutex::lock]. *)
Definition lock (ported delivery : bool) (self timeout_ms deadline : Z) :
    M World (result DriverError (option bool * option SwitchIntent)) :=
  current ← sched_gets s_current;
  state ← mutex_at self;
  if state.(mtx_owner) =? current then
    match checked_add u32_max state.(mtx_depth) 1 with
    | None => mret (Err Runtime)
    | Some depth =>
        set_mutex self (λ st, st <| mtx_depth := depth |>) ;; mret (Ok (Some true, None))
    end
  else if state.(mtx_owner) =? NIL then
    set_mutex self (λ st, st <| mtx_owner := current |> <| mtx_depth := 1 |>) ;;
    mret (Ok (Some true, None))
  else if timeout_ms =? 0 then mret (Ok (Some false, None))
  else if negb delivery then mret (Err InvalidContext)
  else
    _ ←? current_switch_guard;
    cycle ← mutex_chain_contains state.(mtx_owner) current;
    if cycle : bool then mret (Err InvalidContext)
    else
      generation ← tget t_resume_generation current;
      set_task current (λ t, t <| t_state := Blocked |>
        <| t_wake_at := if timeout_ms =? u32_max then 0 else deadline |>
        <| t_waiting_mutex := self |> <| t_sem_granted := false |>) ;;
      enqueue_mutex_waiter self current ;;
      priority ← tget t_priority current;
      add_inheritance state.(mtx_owner) priority ;;
      intent ← prepare_switch_away_locked ported current generation;
      intent ← expect intent;
      mret (Ok (None, Some intent)).

(** The last critical section of [RtosMutex::lock], when the task runs again. *)
Definition consume_mutex_grant_locked : M World bool :=
  current ← sched_gets s_current;
  granted ← tget t_sem_granted current;
  set_task current (λ t, t <| t_sem_granted := false |> <| t_granted_mutex := 0 |>) ;;
  mret granted.

(** The critical section of [RtosMutex::unlock]: whether to request a reschedule. *)
Definition unlock (self now interrupt_depth : Z) : M World (result DriverError bool) :=
  current ← sched_gets s_current;
  state ← mutex_at self;
  if negb (state.(mtx_owner) =? current) || (state.(mtx_depth) =? 0) then mret (Err InvalidContext)
  else
    set_mutex self (λ st, st <| mtx_depth := state.(mtx_depth) - 1 |>) ;;
    if negb (state.(mtx_depth) - 1 =? 0) then mret (Ok false)
    else
      head ← get_head (QMtx self);
      release_mutex_locked self current now ;;
      mret (Ok (negb (head =? NIL) && (interrupt_depth =? 0))).
