(* ===== verification/Moves.v ===== *)
(** * Entering and leaving a wait queue

    The two moves every semaphore and mutex operation is made of: the running task
    blocks and enters a wait queue, and a waiter leaves its wait queue, is released
    and becomes ready. Both keep the ownership invariant of [Invariant] and the
    priority order of every wait queue. *)

From stdpp Require Import sorting.
From S2P Require Import Prelude Effects Budget Contract Config Context Reservation.
From S2P Require Import Tcb Store Chain Ready Wait Switch Invariant Inherit Donation.

(** What the update keeps of a task in either move. *)
Definition keeps_identity (g : Tcb → Tcb) : Prop := ∀ t,
  t_priority (g t) = t_priority t ∧ t_identity_generation (g t) = t_identity_generation t ∧
  t_next (g t) = t_next t.

(** The update ends the wait in the queue [id]. *)
Definition unwaits (id : qid) (g : Tcb → Tcb) : Prop := ∀ t,
  t_state (g t) = t_state t ∧
  match id with
  | QReady _ => False
  | QSem _ => t_waiting_sem (g t) = 0 ∧ t_waiting_mutex (g t) = t_waiting_mutex t
  | QMtx _ => t_waiting_mutex (g t) = 0 ∧ t_waiting_sem (g t) = t_waiting_sem t
  end.

(** The update begins a wait in the queue [id]. *)
Definition waits (id : qid) (g : Tcb → Tcb) : Prop := ∀ t,
  t_state (g t) = Blocked ∧
  match id with
  | QReady _ => False
  | QSem a => a ≠ 0 ∧ t_waiting_sem (g t) = a ∧ t_waiting_mutex (g t) = t_waiting_mutex t
  | QMtx a => a ≠ 0 ∧ t_waiting_mutex (g t) = a ∧ t_waiting_sem (g t) = t_waiting_sem t
  end.

(** A task in a wait queue waits there and nowhere else. *)
Lemma owned_waiter w q d i id :
  owned w q d → slot_in i → i ∈ q id → (∀ p, id ≠ QReady p) →
  t_state (T w i) = Blocked ∧
  match id with
  | QReady _ => False
  | QSem a => a ≠ 0 ∧ t_waiting_sem (T w i) = a ∧ t_waiting_mutex (T w i) = 0
  | QMtx a => a ≠ 0 ∧ t_waiting_mutex (T w i) = a ∧ t_waiting_sem (T w i) = 0
  end.
Proof.
  intros [Hq Ho] Hi Hin Hid. pose proof (owned_placed w q d Ho i Hi) as Hp. destruct id as [p|a|a].
  - by destruct (Hid p).
  - destruct (placed_sem w q d i Hp a Hin) as (Hst & Ha & Hne). split_and!; try done.
    destruct (decide (t_waiting_mutex (T w i) = 0)) as [|H]; [done|].
    pose proof (queues_disjoint w q Hq _ _ i Hin (placed_mtx_home w q d i Hp H)). done.
  - destruct (placed_mtx w q d i Hp a Hin) as (Hst & Ha & Hne). split_and!; try done.
    destruct (decide (t_waiting_sem (T w i) = 0)) as [|H]; [done|].
    pose proof (queues_disjoint w q Hq _ _ i Hin (placed_sem_home w q d i Hp H)). done.
Qed.

Lemma owned_detached_waits w q d i :
  owned w q d → slot_in i → detached q i → t_waiting_sem (T w i) = 0 ∧ t_waiting_mutex (T w i) = 0.
Proof.
  intros [_ Ho] Hi Hd. pose proof (owned_placed w q d Ho i Hi) as Hp. split.
  - destruct (decide (t_waiting_sem (T w i) = 0)) as [|H]; [done|].
    by destruct (Hd _ (placed_sem_home w q d i Hp H)).
  - destruct (decide (t_waiting_mutex (T w i) = 0)) as [|H]; [done|].
    by destruct (Hd _ (placed_mtx_home w q d i Hp H)).
Qed.

Lemma detached_without w q id i : queues w q → i ∈ q id → detached (qset id (without i (q id)) q) i.
Proof.
  intros Hq Hin id' Hin'. unfold qset in Hin'. case_decide as E.
  - subst. apply elem_of_without in Hin'. tauto.
  - apply E. by apply (queues_disjoint w q Hq _ _ i).
Qed.

(** The waiter has left its queue; its record follows. *)
Lemma owned_unwait w w1 q d i id g :
  owned w q d → slot_in i → i ∈ q id → keeps_identity g → unwaits id g →
  queues w1 (qset id (without i (q id)) q) → core w1 = core w →
  owned (upd_task i g w1) (qset id (without i (q id)) q) d.
Proof.
  intros Hw Hi Hin Hg Hu Hq1 Hc. assert (∀ p, id ≠ QReady p) as Hid.
  { intros p ->. by destruct (Hu Tcb_empty) as [_ []]. }
  destruct (owned_waiter w q d i id Hw Hi Hin Hid) as (Hst & Hwt).
  pose proof (detached_without w q id i (proj1 Hw) Hin) as Hd.
  pose proof (owned_placed w q d (proj2 Hw) i Hi) as Hpl.
  assert (shape w1) as Hs1 by (by eapply queues_shape).
  pose proof (same_view_core _ w1 Hc) as V. pose proof V as [Vt Vp Vc]. destruct (Vt i) as [V1 V2 V3 V4 V5].
  destruct (Hg (T w1 i)) as (G1 & G2 & G3). destruct (Hu (T w1 i)) as (U1 & U2).
  assert (t_waiting_sem (g (T w1 i)) = 0 ∧ t_waiting_mutex (g (T w1 i)) = 0) as [Hws Hwm].
  { destruct id as [p|a|a]; [done|..]; destruct U2 as [-> U2], Hwt as (_ & _ & Hwt); rewrite U2; split; congruence. }
  assert (queues (upd_task i g w1) (qset id (without i (q id)) q)) as Hq2.
  { apply queues_upd_task; [|done]. intros t. apply Hg. }
  apply (owned_change w _ q _ d d i Hw Hq2); try done.
  - apply (same_except_trans w w1); [by apply same_view_except|]. apply same_except_upd; [done..|].
    intros t. apply Hg.
  - intros j id' Hj. apply elem_of_qset. rewrite elem_of_without. tauto.
  - intros _. apply placed_detached; unfold priority_ok; rewrite ?T_upd_eq by done;
      rewrite ?G1, ?U1, ?V1, ?V2; try done; try congruence.
    + apply Hpl.
    + intros E. destruct (placed_hand w q d i Hpl E). congruence.
    + unfold is_target. change (pending (upd_task i g w1)) with (pending w1). rewrite Vp. intros E.
      destruct (placed_target w q d i Hpl E). congruence.
    + intros ->. by destruct (placed_idle w q d _ Hpl eq_refl); congruence.
Qed.

(** The running task has blocked; it enters the queue. *)
Lemma owned_wait w q d id g :
  owned w q d → t_state (T w (current w)) = Running → current w ≠ IDLE_SLOT → valid w id →
  keeps_identity g → waits id g →
  wp (enqueue_by_priority id (current w)) (λ _ w',
    owned w' (qset id (place (prio w) (current w) (q id)) q) d ∧
    core w' = core (upd_task (current w) g w)) (upd_task (current w) g w).
Proof.
  intros Hw Hst Hidle Hv Hg Hwt. set (i := current w) in *. pose proof Hw as [Hq Ho].
  assert (∀ p, id ≠ QReady p) as Hid by (intros p ->; by destruct (Hwt Tcb_empty) as [_ []]).
  assert (slot_in i) as Hi by (by eapply owned_slot_current). assert (shape w) as Hs by eauto with store.
  pose proof (owned_placed w q d Ho i Hi) as Hpl.
  destruct (owned_not_waiting w q d i Hw Hi) as [Hws Hwm]; [congruence|].
  assert (detached q i) as Hd.
  { apply (owned_detached w q d); try done. apply (owned_not_queued w q d); [done..|congruence]. }
  set (w1 := upd_task i g w). assert (queues w1 q) as Hq1.
  { apply queues_upd_task; [|done]. intros t. apply Hg. }
  destruct (placed_running w q d i Hpl Hst) as [_ Hpn].
  wp_apply (enqueue_spec w1 q id i Hq1); [|done|done|]. 2:{ by destruct id. }
  intros _ w' [Hq' Hc]. split; [|done].
  assert (∀ l, place (λ j, t_priority (T w1 j)) i l = place (prio w) i l) as Epl.
  { intros l. assert (∀ j, t_priority (T w1 j) = prio w j) as E.
    { intros j. apply T_upd_field. intros t. apply Hg. }
    induction l as [|x l IH]; simpl; [done|]. rewrite !E. case_match; [by rewrite IH|done]. }
  rewrite Epl in Hq'. set (l := place (prio w) i (q id)) in *.
  assert (∀ j, j ∈ l ↔ j = i ∨ j ∈ q id) as Hl by (intros j; unfold l; rewrite place_perm; set_solver).
  assert (∀ id', i ∈ qset id l q id' ↔ id' = id) as Hin.
  { intros id'. unfold qset. case_decide as E; [rewrite Hl; naive_solver|].
    split; [by intros ?%Hd|]. by intros ->. }
  pose proof (same_view_core _ w' Hc) as V. pose proof V as [Vt Vp Vc]. destruct (Vt i) as [V1 V2 V3 V4 V5].
  unfold w1 in V1, V2, V3, V4, V5. rewrite T_upd_eq in V1, V2, V3, V4, V5 by done.
  destruct (Hg (T w i)) as (G1 & G2 & G3). destruct (Hwt (T w i)) as (W1 & W2).
  assert (¬ is_target w' i) as Hnt.
  { intros E. unfold is_target in E. rewrite Vp in E. change (pending w1) with (pending w) in E.
    by rewrite Hpn in E. }
  assert (¬ ready_queued (qset id l q) i) as Hnq by (intros (p & _ & <-%Hin); by destruct (Hid p)).
  apply (owned_change w w' q _ d d i Hw Hq'); try done.
  - apply (same_except_trans w w1); [|by apply same_view_except]. apply same_except_upd; [done..|].
    intros t. apply Hg.
  - intros j id' Hj. apply elem_of_qset. rewrite Hl. tauto.
  - intros _. split; unfold priority_ok; rewrite ?V1, ?V2, ?V4, ?V5, ?W1; rewrite ?G1; try done; try congruence.
    + apply Hpl.
    + intros p <-%Hin. by destruct (Hid p).
    + intros E. destruct (placed_hand w q d i Hpl E). congruence.
    + intros a <-%Hin. by destruct W2 as (? & ? & _).
    + destruct id as [p|a|a]; [done|..]; destruct W2 as (Ha & E1 & E2).
      * rewrite E1. intros _. by apply Hin.
      * rewrite E2, Hws. done.
    + intros a <-%Hin. by destruct W2 as (? & ? & _).
    + destruct id as [p|a|a]; [done|..]; destruct W2 as (Ha & E1 & E2).
      * rewrite E2, Hwm. done.
      * rewrite E1. intros _. by apply Hin.
Qed.

(** ** Priority order *)

Lemma sorted_all_ext w w' q q' :
  sorted_all w q → (∀ j, t_priority (T w' j) = t_priority (T w j)) →
  (∀ a, q' (QSem a) = q (QSem a)) → (∀ a, q' (QMtx a) = q (QMtx a)) → sorted_all w' q'.
Proof.
  intros Hso Hp Hs Hm a. rewrite Hs, Hm.
  split; (eapply sorted_waits_ext; [intros j _; apply Hp|apply Hso]).
Qed.

Lemma sorted_all_qset w q id l :
  sorted_all w q → sorted_waits w l → sorted_all w (qset id l q).
Proof. intros Hso Hl a. unfold qset. split; case_decide; try done; apply Hso. Qed.

Lemma sorted_all_at w q id : sorted_all w q → (∀ p, id ≠ QReady p) → sorted_waits w (q id).
Proof. intros Hso Hid. destruct id as [p|a|a]; [by destruct (Hid p)|apply Hso..]. Qed.

Lemma sorted_all_without w q id i :
  sorted_all w q → (∀ p, id ≠ QReady p) → sorted_all w (qset id (without i (q id)) q).
Proof. intros Hso Hid. apply sorted_all_qset; [done|]. by apply sorted_waits_without, sorted_all_at. Qed.

Lemma sorted_all_place w q id i :
  sorted_all w q → (∀ p, id ≠ QReady p) → sorted_all w (qset id (place (prio w) i (q id)) q).
Proof.
  intros Hso Hid. apply sorted_all_qset; [done|].
  apply (sorted_waits_place w i). by apply sorted_all_at.
Qed.

(** [enqueued] changes ready queues only. *)
Lemma enqueued_waits w i q a : enqueued w i q (QSem a) = q (QSem a) ∧ enqueued w i q (QMtx a) = q (QMtx a).
Proof. unfold enqueued. case_decide; [done|]. by rewrite !qset_ne. Qed.

(** ** Releasing a waiter *)

(** The state of the store when a waiter has become ready. *)
Record released (w w' : World) (q q' : Queues) (i : Z) (id : qid) (g : Tcb → Tcb) (now : Z) : Prop := {
  released_owned : owned w' q' None;
  released_sorted : sorted_all w q → sorted_all w' q';
  released_core : core w' = core (upd_task i (λ t, readied now (g t)) w);
  released_ready : ready_queued q' i;
  released_waits id' : (∀ p, id' ≠ QReady p) →
    q' id' = if decide (id' = id) then without i (q id) else q id';
}.

Lemma released_spec w w1 q i id g now :
  owned w q None → slot_in i → i ∈ q id → keeps_identity g → unwaits id g →
  queues w1 (qset id (without i (q id)) q) → core w1 = core w →
  (∀ t v, g (t <| t_next := v |>) = (g t) <| t_next := v |>) →
  wp (make_ready i now) (λ _ w', ∃ q', released w w' q q' i id g now) (upd_task i g w1).
Proof.
  intros Hw Hi Hin Hg Hu Hq1 Hc Hgn. assert (∀ p, id ≠ QReady p) as Hid.
  { intros p ->. by destruct (Hu Tcb_empty) as [_ []]. }
  pose proof (owned_unwait w w1 q None i id g Hw Hi Hin Hg Hu Hq1 Hc) as Ho2.
  destruct (owned_waiter w q None i id Hw Hi Hin Hid) as (Hst & _).
  pose proof (detached_without w q id i (proj1 Hw) Hin) as Hd.
  assert (shape w1) as Hs1 by (by eapply queues_shape). set (w2 := upd_task i g w1) in *.
  assert (t_state (T w2 i) = Blocked) as Hst2.
  { unfold w2. rewrite T_upd_eq by done. destruct (Hu (T w1 i)) as [-> _].
    by rewrite (core_field t_state w w1 i). }
  destruct (owned_detached_waits w2 _ None i Ho2 Hi Hd) as [Hws Hwm].
  wp_apply (owned_make_ready w2 _ None i now Ho2 Hi Hd); [|by rewrite Hst2|done|done].
  intros _ w' [Ho' Hc'].
  assert (i ≠ IDLE_SLOT) as Hni.
  { intros ->. by destruct (placed_idle w q None _ (owned_placed w q None (proj2 Hw) _ Hi) eq_refl); congruence. }
  assert (core w' = core (upd_task i (λ t, readied now (g t)) w)) as Hcc.
  { rewrite Hc'. unfold w2. rewrite upd_task_compose.
    rewrite !(core_upd_task _ _ _ (λ t, readied now (g t))), Hc; [done|..];
      intros t; unfold core_tcb; by rewrite Hgn. }
  eexists. split; [exact Ho'| |exact Hcc|..].
  - intros Hso. apply (sorted_all_ext w w' (qset id (without i (q id)) q)).
    + by apply sorted_all_without.
    + intros j. rewrite (core_field t_priority _ w' j (λ t, eq_refl) Hcc). apply T_upd_field.
      intros t. apply Hg.
    + intros a. apply enqueued_waits.
    + intros a. apply enqueued_waits.
  - unfold enqueued. rewrite decide_False by done. exists (t_priority (T w2 i)).
    split; [apply (owned_placed w2 _ None (proj2 Ho2) i Hi)|]. rewrite qset_eq. set_solver.
  - intros id' Hid'. unfold enqueued. rewrite decide_False by done. rewrite qset_ne by done. unfold qset. by repeat case_decide; subst.
Qed.

(** Taking the head [x] off the queue [id], then going on with [k]. *)
Lemma wp_unlink_head_then w q id x l (k : M World Z) (Q : Z → World → Prop) :
  queues w q → valid w id → q id = x :: l →
  (∀ w', queues w' (qset id (without x (q id)) q) → core w' = core w → wp k Q w') →
  wp (next ← tget t_next x;
      set_head id next ;;
      head ← get_head id;
      when (head =? NIL) (set_tail id NIL) ;;
      set_next x NIL ;; k) Q w.
Proof.
  intros Hq Hv E HQ. assert (without x (q id) = l) as El.
  { rewrite E. apply (without_split []). simpl. rewrite <-E. by eapply queues_nodup. }
  rewrite El in HQ. pose proof (wp_unlink_head w q id x l (λ _ w', wp k Q w') Hq Hv E) as H.
  assert (∀ w', queues w' (qset id l q) → core w' = core w → wp k Q w') as HQ' by done.
  specialize (H HQ'). apply wp_bind_inv in H. apply wp_bind. eapply wp_mono; [|exact H]. intros n w1 H1.
  apply wp_bind_inv in H1. apply wp_bind. eapply wp_mono; [|exact H1]. intros [] w2 H2.
  apply wp_bind_inv in H2. apply wp_bind. eapply wp_mono; [|exact H2]. intros h w3 H3.
  apply wp_bind_inv in H3. apply wp_bind. eapply wp_mono; [|exact H3]. intros [] w4 H4.
  apply wp_bind. exact H4.
Qed.
