(* ===== verification/Permit.v ===== *)
(** * Semaphores hand out each permit once ([src/runtime/sync.rs])

    The invariant of the semaphores and the specification of every operation on
    them. A permit is either counted in its semaphore or granted to one task that
    has not consumed it yet ([permits]); posting adds one, consuming a grant or
    taking the count removes one, and a timeout or a cancellation moves permits but
    never creates or loses one. *)

From stdpp Require Import sorting.
From S2P Require Import Prelude Effects Budget Contract Config Context Reservation.
From S2P Require Import Tcb Store Chain Ready Wait Switch Invariant Dispatch Inherit Donation Sync Moves.

(** ** Grants and permits *)

(** The flag of a task says that it holds a grant, of one object only, and a task
    that waits holds none. *)
Record grants (w : World) : Prop := {
  grants_flag i : slot_in i →
    (t_sem_granted (T w i) = true ↔ t_granted_sem (T w i) ≠ 0 ∨ t_granted_mutex (T w i) ≠ 0);
  grants_exclusive i : slot_in i → t_granted_sem (T w i) = 0 ∨ t_granted_mutex (T w i) = 0;
  grants_waiting i : slot_in i → t_waiting_sem (T w i) ≠ 0 ∨ t_waiting_mutex (T w i) ≠ 0 →
    t_granted_sem (T w i) = 0 ∧ t_granted_mutex (T w i) = 0;
}.

(** The unconsumed grants of the semaphore [a]. *)
Definition granted_by (w : World) (a : Z) : Z :=
  zsum (λ i, indicator (t_granted_sem (T w i) = a)) slots.
Definition count_of (w : World) (a : Z) : Z := default 0 (sem_count <$> w_sems w !! a).
Definition permits (w : World) (a : Z) : Z := count_of w a + granted_by w a.

Record sems (w : World) (q : Queues) : Prop := {
  sems_address : w_sems w !! 0 = None;
  sems_count a st : w_sems w !! a = Some st → 0 <= sem_count st;
  sems_bound a : a ≠ 0 → permits w a <= i32_max;
  sems_no_lost_wakeup a st : w_sems w !! a = Some st → 0 < sem_count st → q (QSem a) = [];
  sems_granted i : slot_in i → t_granted_sem (T w i) ≠ 0 → is_Some (w_sems w !! t_granted_sem (T w i));
}.

(** The invariant; [d] is the task a critical section has in hand, if any. *)
Record semaphores_hand (w : World) (q : Queues) (d : option Z) : Prop := {
  semaphores_owned : owned w q d;
  semaphores_sorted : sorted_all w q;
  semaphores_sems : sems w q;
  semaphores_grants : grants w;
}.
Definition semaphores (w : World) (q : Queues) : Prop := semaphores_hand w q None.

(** ** What one update of a task changes *)

Lemma granted_by_update w w' i a :
  slot_in i → (∀ j, j ≠ i → t_granted_sem (T w' j) = t_granted_sem (T w j)) →
  granted_by w' a = granted_by w a - indicator (t_granted_sem (T w i) = a)
    + indicator (t_granted_sem (T w' i) = a).
Proof.
  intros Hi Hj. unfold granted_by.
  apply (zsum_update (λ j, indicator (t_granted_sem (T w j) = a)) (λ j, indicator (t_granted_sem (T w' j) = a))).
  - apply NoDup_range.
  - by apply slots_elem.
  - intros j _ Hne. by rewrite Hj.
Qed.

Lemma granted_by_range w a : 0 <= granted_by w a <= 17.
Proof.
  pose proof (zsum_bound (λ j, indicator (t_granted_sem (T w j) = a)) slots 1) as H.
  change (Z.of_nat (length slots)) with 17 in H. rewrite Z.mul_1_l in H. apply H.
  intros j x _. apply indicator_range.
Qed.

Lemma granted_by_pos w i : slot_in i → 1 <= granted_by w (t_granted_sem (T w i)).
Proof.
  intros Hi. pose proof (granted_by_range (upd_task i (λ t, t <| t_granted_sem := 0 |>) w)).
  unfold granted_by. pose proof (tally_pos (λ j, t_granted_sem (T w j)) (λ _, 0) i Hi) as Ht.
  unfold tally in Ht. rewrite (zsum_ext _ (λ j, indicator (t_granted_sem (T w j) = t_granted_sem (T w i) ∧ 0 = 0))); [done|].
  intros j _. apply indicator_ext. tauto.
Qed.

(** A field of the store after the update [g] of the task [i]. *)
Definition updated (w w' : World) (i : Z) (g : Tcb → Tcb) : Prop :=
  ∀ A (f : Tcb → A), (∀ t v, f (t <| t_next := v |>) = f t) →
    ∀ j, f (T w' j) = if decide (i = j) then f (g (T w j)) else f (T w j).

Lemma updated_core w w' i g :
  shape w → slot_in i → core w' = core (upd_task i g w) → updated w w' i g.
Proof.
  intros Hs Hi Hc A f Hf j. rewrite (core_field f _ w' j (λ t, core_tcb_field f t Hf) Hc), T_upd_task by done.
  by case_decide.
Qed.

Lemma updated_upd w i g : shape w → slot_in i → updated w (upd_task i g w) i g.
Proof. intros. by apply updated_core. Qed.

(** The update keeps the grants of the other tasks and owes its own. *)
Lemma grants_updated w w' i g :
  slot_in i → updated w w' i g → grants w →
  (let t := g (T w i) in
   (t_sem_granted t = true ↔ t_granted_sem t ≠ 0 ∨ t_granted_mutex t ≠ 0) ∧
   (t_granted_sem t = 0 ∨ t_granted_mutex t = 0) ∧
   (t_waiting_sem t ≠ 0 ∨ t_waiting_mutex t ≠ 0 → t_granted_sem t = 0 ∧ t_granted_mutex t = 0)) →
  grants w'.
Proof.
  intros Hi Hu [H1 H2 H3] (G1 & G2 & G3).
  split; intros j Hj; rewrite ?(Hu _ t_sem_granted), ?(Hu _ t_granted_sem), ?(Hu _ t_granted_mutex),
    ?(Hu _ t_waiting_sem), ?(Hu _ t_waiting_mutex) by done; case_decide; subst; auto.
Qed.

(** The semaphores after one update and a change of the count of [a] by [n]. *)
Lemma sems_updated w w' q q' i g :
  slot_in i → updated w w' i g → sems w q →
  (∀ a, sem_count <$> w_sems w' !! a = sem_count <$> w_sems w !! a) →
  (∀ a, q' (QSem a) = [] ∨ ∀ st, w_sems w !! a = Some st → sem_count st = 0 ∨ q (QSem a) ≠ []) →
  (∀ a, a ≠ 0 → permits w' a <= i32_max) →
  (t_granted_sem (g (T w i)) ≠ 0 → is_Some (w_sems w !! t_granted_sem (g (T w i)))) →
  sems w' q'.
Proof.
  intros Hi Hu [H1 H2 H3 H4 H5] Hc Hq Hb Hg.
  assert (∀ a, is_Some (w_sems w !! a) → is_Some (w_sems w' !! a)) as Hsome.
  { intros a [st Hst]. specialize (Hc a). rewrite Hst in Hc. by destruct (w_sems w' !! a). }
  assert (∀ a st, w_sems w' !! a = Some st → ∃ st0, w_sems w !! a = Some st0 ∧ sem_count st0 = sem_count st) as Hback.
  { intros a st Hst. specialize (Hc a). rewrite Hst in Hc. destruct (w_sems w !! a) as [st0|] eqn:E; [|done].
    exists st0. split; [done|]. by injection Hc. }
  split; try done.
  - specialize (Hc 0). rewrite H1 in Hc. by destruct (w_sems w' !! 0).
  - intros a st (st0 & Hst0 & <-)%Hback. eauto.
  - intros a st (st0 & Hst0 & <-)%Hback Hpos. destruct (Hq a) as [|Hne]; [done|].
    destruct (Hne st0 Hst0) as [|Hne']; [lia|]. by destruct Hne'; eauto.
  - intros j Hj. rewrite (Hu _ t_granted_sem) by done. case_decide; subst; auto.
Qed.

(** ** Posting *)

(** No task comes to life. *)
Definition keeps_free (w w' : World) : Prop := ∀ j, t_state (T w j) = Free → t_state (T w' j) = Free.

Lemma keeps_free_trans w1 w2 w3 : keeps_free w1 w2 → keeps_free w2 w3 → keeps_free w1 w3.
Proof. intros H1 H2 j Hj. auto. Qed.

Lemma keeps_free_updated w w' i g :
  updated w w' i g → (t_state (T w i) ≠ Free ∨ ∀ t, t_state t = Free → t_state (g t) = Free) → keeps_free w w'.
Proof.
  intros Hu Hi j Hj. rewrite (Hu _ t_state) by done. case_decide; [|done]. subst. destruct Hi as [Hi|Hi]; [done|auto].
Qed.

Lemma keeps_free_same w w' : (∀ j, t_state (T w' j) = t_state (T w j)) → keeps_free w w'.
Proof. intros H j Hj. by rewrite H. Qed.

Lemma keeps_free_refl w : keeps_free w w.
Proof. by intros j. Qed.
#[export] Hint Resolve keeps_free_refl : core.

(** What no semaphore operation touches. *)
Record same_mutexes (w w' : World) (q q' : Queues) : Prop := {
  same_fields {A} (f : Tcb → A) : (∀ t v, f (t <| t_next := v |>) = f t) →
    (∀ t v, f (t <| t_state := v |>) = f t) → (∀ t g, f (t <| t_metrics ::= g |>) = f t) →
    (∀ t v, f (t <| t_wake_at := v |>) = f t) → (∀ t v, f (t <| t_waiting_sem := v |>) = f t) →
    (∀ t v, f (t <| t_granted_sem := v |>) = f t) → (∀ t v, f (t <| t_sem_granted := v |>) = f t) →
    ∀ j, f (T w' j) = f (T w j);
  same_mtx a : core_mtx <$> w_mutexes w' !! a = core_mtx <$> w_mutexes w !! a;
  same_mtx_queues a : q' (QMtx a) = q (QMtx a);
  same_valid_sems a : is_Some (w_sems w' !! a) ↔ is_Some (w_sems w !! a);
  same_current_task : current w' = current w;
  same_free : keeps_free w w';
}.

Lemma same_mutexes_refl w q : same_mutexes w w q q.
Proof. by split. Qed.

Lemma same_mutexes_trans w1 w2 w3 q1 q2 q3 :
  same_mutexes w1 w2 q1 q2 → same_mutexes w2 w3 q2 q3 → same_mutexes w1 w3 q1 q3.
Proof.
  intros [F1 ? ? V1 ? K1] [F2 ? ? V2 ? K2]. split; [|intros; etrans; eauto..| |by etrans|by eapply keeps_free_trans].
  - intros A f H1 H2 H3 H4 H5 H6 H7 j. rewrite F2, F1; done.
  - intros a. by rewrite V2.
Qed.

(** The waiter that a post releases receives the grant. *)
Definition granting (t : Tcb) : Tcb :=
  t <| t_wake_at := 0 |> <| t_granted_sem := t.(t_waiting_sem) |>
    <| t_waiting_sem := 0 |> <| t_sem_granted := true |>.

(** The outcome of a post to [a] that released [x]. *)
Record posted (w w' : World) (q q' : Queues) (a x : Z) : Prop := {
  posted_semaphores : semaphores w' q';
  posted_permits b : b ≠ 0 → permits w' b = permits w b + indicator (b = a);
  posted_mutexes : same_mutexes w w' q q';
  posted_handoff : match q (QSem a) with
    | [] => x = NIL ∧ count_of w' a = count_of w a + 1
    | y :: l => x = y ∧ q' (QSem a) = l ∧ ready_queued q' y ∧ t_granted_sem (T w' y) = a ∧
        count_of w' a = count_of w a
    end;
  posted_others j : j ∉ q (QSem a) →
    t_waiting_sem (T w' j) = t_waiting_sem (T w j) ∧ t_granted_sem (T w' j) = t_granted_sem (T w j);
}.

Lemma count_of_core w w' a : core w' = core w → count_of w' a = count_of w a.
Proof.
  intros Hc. unfold count_of. pose proof (core_sems w w' a Hc) as H.
  destruct (w_sems w' !! a) as [st'|], (w_sems w !! a) as [st|]; simpl in *; try done. by injection H.
Qed.

Lemma permits_updated w w' i g :
  slot_in i → updated w w' i g → (∀ a, count_of w' a = count_of w a) → ∀ a,
  permits w' a = permits w a - indicator (t_granted_sem (T w i) = a)
    + indicator (t_granted_sem (g (T w i)) = a).
Proof.
  intros Hi Hu Hc a. unfold permits. rewrite Hc. rewrite (granted_by_update w w' i a Hi).
  - rewrite (Hu _ t_granted_sem), decide_True by done. lia.
  - intros j Hj. by rewrite (Hu _ t_granted_sem), decide_False by done.
Qed.

Lemma same_mutexes_released w w' q q' i a g now :
  shape w → slot_in i → t_state (T w i) ≠ Free → released w w' q q' i (QSem a) g now →
  (∀ A (f : Tcb → A), (∀ t v, f (t <| t_next := v |>) = f t) →
    (∀ t v, f (t <| t_state := v |>) = f t) → (∀ t g, f (t <| t_metrics ::= g |>) = f t) →
    (∀ t v, f (t <| t_wake_at := v |>) = f t) → (∀ t v, f (t <| t_waiting_sem := v |>) = f t) →
    (∀ t v, f (t <| t_granted_sem := v |>) = f t) → (∀ t v, f (t <| t_sem_granted := v |>) = f t) →
    ∀ t, f (g t) = f t) →
  same_mutexes w w' q q'.
Proof.
  intros Hs Hi Hfree [H1 H2 H3 H4 H5] Hg. split.
  - intros A f F1 F2 F3 F4 F5 F6 F7 j. rewrite (updated_core w w' i _ Hs Hi H3 A f) by done.
    case_decide; [|done]. unfold readied. rewrite F3, F2. by apply Hg.
  - intros b. by rewrite (core_mutexes _ w' b H3).
  - intros b. rewrite H5 by done. by rewrite decide_False.
  - intros b. pose proof (core_sems _ w' b H3) as E. change (w_sems (upd_task i _ w)) with (w_sems w) in E.
    destruct (w_sems w' !! b), (w_sems w !! b); simpl in E; split; intros []; try done; eauto.
  - by apply (core_sched s_current (upd_task i (λ t, readied now (g t)) w) w').
  - eapply keeps_free_updated; [by eapply updated_core|by left].
Qed.

(** One task has changed, counts have not. *)
Lemma semaphores_released w w' q q' i a g now :
  semaphores w q → slot_in i → i ∈ q (QSem a) → released w w' q q' i (QSem a) g now →
  (∀ t, t_waiting_sem (g t) = 0 ∧ t_waiting_mutex (g t) = t_waiting_mutex t ∧
    t_granted_mutex (g t) = t_granted_mutex t ∧
    ((t_granted_sem (g t) = 0 ∧ t_sem_granted (g t) = false) ∨
     (t_granted_sem (g t) = t_waiting_sem t ∧ t_sem_granted (g t) = true))) →
  (∀ b, b ≠ 0 → permits w' b <= i32_max) → semaphores w' q'.
Proof.
  intros [Ho Hso Hse Hgr] Hi Hin Hrel Hg Hb. pose proof (owned_shape w q None Ho) as Hs.
  destruct (owned_waiter w q None i (QSem a) Ho Hi Hin) as (Hst & Ha & Hws & Hwm); [done|].
  pose proof Hrel as [H1 H2 H3 H4 H5]. pose proof (updated_core w w' i _ Hs Hi H3) as Hu.
  destruct (grants_waiting w Hgr i Hi) as [Hgs Hgm]; [left; congruence|].
  destruct (Hg (T w i)) as (G1 & G2 & G3 & G4). pose proof (queues_valid w q (proj1 Ho) _ _ Hin) as Hv.
  split; [done|auto|..].
  - apply (sems_updated w w' q q' i _ Hi Hu Hse); [| |done|].
    + intros b. pose proof (core_sems _ w' b H3) as E. change (w_sems (upd_task i _ w)) with (w_sems w) in E.
      destruct (w_sems w' !! b), (w_sems w !! b); simpl in E |- *; try done. f_equal. by injection E.
    + intros b. destruct (decide (b = a)) as [->|Hne].
      * right. intros st _. right. intros E. rewrite E in Hin. by apply elem_of_nil in Hin.
      * destruct (q (QSem b)) as [|y l] eqn:E; [left|right; intros; by right].
        rewrite H5 by done. by rewrite decide_False by congruence.
    + cbn [readied]. unfold readied. cbn [t_granted_sem]. destruct G4 as [[G4 _]|[G4 _]].
      * by intros [].
      * intros _. change (is_Some (w_sems w !! t_granted_sem (g (T w i)))). rewrite G4, Hws. done.
  - apply (grants_updated w w' i _ Hi Hu Hgr). cbv zeta. unfold readied.
    change ((t_sem_granted (g (T w i)) = true ↔ t_granted_sem (g (T w i)) ≠ 0 ∨ t_granted_mutex (g (T w i)) ≠ 0) ∧
      (t_granted_sem (g (T w i)) = 0 ∨ t_granted_mutex (g (T w i)) = 0) ∧
      (t_waiting_sem (g (T w i)) ≠ 0 ∨ t_waiting_mutex (g (T w i)) ≠ 0 →
        t_granted_sem (g (T w i)) = 0 ∧ t_granted_mutex (g (T w i)) = 0)).
    rewrite G1, G2, G3, Hgm, Hwm. destruct G4 as [[-> ->]|[-> ->]].
    + split_and!; [|by left|done]. split; [done|]. by intros [[]|[]].
    + rewrite Hws. split_and!; [|by right|by intros [[]|[]]]. split; [by left|done].
Qed.

(** The count of the semaphore [a] changes by [n]. *)
Definition counted (a n : Z) (w : World) : World :=
  w <| w_sems ::= alter (λ st, st <| sem_count := st.(sem_count) + n |>) a |>.

Lemma counted_queues a n w q d : owned w q d → owned (counted a n w) q d.
Proof.
  intros Ho. apply (owned_view w); [by split|apply (queues_same w); try done; [apply Ho|..]|done].
  - by apply (shape_ext w); eauto with store.
  - intros [p|b|b]; simpl; try done. by rewrite lookup_alter_is_Some.
  - intros [p|b|b]; unfold hd_of; simpl; try done. destruct (decide (b = a)) as [->|];
      [rewrite lookup_alter_eq; by destruct (w_sems w !! a)|by rewrite lookup_alter_ne].
  - intros [p|b|b]; unfold tl_of; simpl; try done. destruct (decide (b = a)) as [->|];
      [rewrite lookup_alter_eq; by destruct (w_sems w !! a)|by rewrite lookup_alter_ne].
Qed.

Lemma counted_count a n w b :
  is_Some (w_sems w !! a) → count_of (counted a n w) b = count_of w b + n * indicator (b = a).
Proof.
  intros [st Hst]. unfold count_of, counted. simpl. destruct (decide (b = a)) as [->|Hne].
  - rewrite lookup_alter_eq, Hst, indicator_true by done. simpl. lia.
  - rewrite lookup_alter_ne, indicator_false by done. lia.
Qed.

Lemma counted_permits a n w b :
  is_Some (w_sems w !! a) → permits (counted a n w) b = permits w b + n * indicator (b = a).
Proof.
  intros Ha. unfold permits. rewrite counted_count by done.
  change (granted_by (counted a n w) b) with (granted_by w b). lia.
Qed.

Lemma counted_mutexes a n w q : same_mutexes w (counted a n w) q q.
Proof. split; try done; [|by apply keeps_free_same]. intros b. simpl. by rewrite lookup_alter_is_Some. Qed.

Lemma semaphores_counted a n w q st :
  semaphores w q → w_sems w !! a = Some st → 0 <= sem_count st + n → permits w a + n <= i32_max →
  (0 < sem_count st + n → q (QSem a) = []) → semaphores (counted a n w) q.
Proof.
  intros [Ho Hso [S1 S2 S3 S4 S5] Hgr] Ha Hpos Hb Hq. split; [by apply counted_queues|done| |by destruct Hgr].
  assert (∀ b st', w_sems (counted a n w) !! b = Some st' →
    (b = a ∧ sem_count st' = sem_count st + n) ∨ w_sems w !! b = Some st') as Hcase.
  { intros b st'. simpl. destruct (decide (b = a)) as [->|Hne].
    - rewrite lookup_alter_eq, Ha. intros [= <-]. by left.
    - rewrite lookup_alter_ne by done. by right. }
  split.
  - simpl. rewrite lookup_alter_None. done.
  - intros b st' [[-> ->]|Hst']%Hcase; [done|]. by eapply S2.
  - intros b Hne. rewrite counted_permits by eauto. destruct (decide (b = a)) as [->|Hba].
    + rewrite indicator_true by done. lia.
    + rewrite indicator_false by done. specialize (S3 b Hne). lia.
  - intros b st' [[-> ->]|Hst']%Hcase; [done|]. by eapply S4.
  - intros i Hi Hg. simpl. rewrite lookup_alter_is_Some. by apply S5.
Qed.

Lemma set_count_counted a n w st :
  w_sems w !! a = Some st →
  w <| w_sems ::= alter (λ st', st' <| sem_count := sem_count st + n |>) a |> = counted a n w.
Proof.
  intros Hst. unfold counted.
  assert (alter (λ st', st' <| sem_count := sem_count st + n |>) a (w_sems w) =
    alter (λ st', st' <| sem_count := sem_count st' + n |>) a (w_sems w)) as E.
  { apply map_eq. intros b. destruct (decide (b = a)) as [->|Hne].
    - by rewrite !lookup_alter_eq, Hst.
    - by rewrite !lookup_alter_ne. }
  destruct w as [s ss ms]. exact (f_equal (λ m, mkWorld s m ms) E).
Qed.

Lemma semaphores_diagnostics w q g :
  semaphores w q → semaphores (w <| w_sched ::= λ s, s <| s_diagnostics ::= g |> |>) q.
Proof.
  intros [Ho Hso [S1 S2 S3 S4 S5] [G1 G2 G3]]. split; [by apply owned_sched|done|by split|by split].
Qed.

Lemma release_semaphore_spec w q a st now :
  semaphores w q → a ≠ 0 → w_sems w !! a = Some st → permits w a < i32_max →
  wp (release_semaphore_locked a now) (λ x w', ∃ q', posted w w' q q' a x) w.
Proof.
  intros Hsem Ha Hst Hb. pose proof Hsem as [Ho Hso Hse Hgr]. pose proof Ho as [Hq _].
  pose proof (owned_shape w q None Ho) as Hs. assert (valid w (QSem a)) as Hv by (by exists st).
  assert (count_of w a = sem_count st) as Hct by (unfold count_of; by rewrite Hst).
  unfold release_semaphore_locked. go. rewrite (queues_head w q (QSem a)) by done.
  pose proof (granted_by_range w a) as Hgb. pose proof (sems_count w q Hse a st Hst) as Hc0.
  destruct (q (QSem a)) as [|x l] eqn:E.
  { cbn [head default]. rewrite Z.eqb_refl. go. eapply wp_sem_at; [done|].
    assert (sem_count st + 1 <= i32_max) as Hle by (unfold permits in Hb; lia).
    go. eapply wp_expect; [unfold checked_add; by rewrite (proj2 (Z.leb_le _ _) Hle)|].
    go. eapply wp_set_sem; [done|]. go.
    rewrite (set_count_counted a 1 w st) by done.
    exists q. split.
    - by apply (semaphores_counted a 1 w q st); [..|lia|lia|].
    - intros b _. rewrite counted_permits by eauto. lia.
    - apply counted_mutexes.
    - rewrite E. split; [done|]. rewrite counted_count by eauto. rewrite indicator_true by done. lia.
    - done. }
  assert (x ∈ q (QSem a)) as Hin by (rewrite E; left).
  assert (slot_in x) as Hx by (by eapply (queues_slot w q Hq (QSem a))).
  change (default NIL (head (x :: l))) with x.
  rewrite (proj2 (Z.eqb_neq _ _) (slot_in_not_NIL x Hx)).
  apply (wp_unlink_head_then w q (QSem a) x l _ _ Hq Hv E). intros w1 Hq1 Hc1.
  assert (shape w1) as Hs1 by (by eapply queues_shape). go.
  change (upd_task x _ w1) with (upd_task x granting w1).
  wp_apply (released_spec w w1 q x (QSem a) granting now Ho Hx Hin); try done.
  intros _ w2 [q' Hrel]. go. exists q'.
  assert (shape w2) as Hs2 by (eapply queues_shape, Hrel).
  pose proof (updated_core w w2 x _ Hs Hx (released_core _ _ _ _ _ _ _ _ Hrel)) as Hu.
  destruct (owned_waiter w q None x (QSem a) Ho Hx Hin) as (Hbl & _ & Hws & Hwm); [done|].
  destruct (grants_waiting w Hgr x Hx) as [Hgs Hgm]; [left; congruence|].
  assert (∀ b, count_of w2 b = count_of w b) as Hcnt.
  { intros b. by rewrite (count_of_core _ w2 b (released_core _ _ _ _ _ _ _ _ Hrel)). }
  assert (∀ b, b ≠ 0 → permits w2 b = permits w b + indicator (b = a)) as Hperm.
  { intros b Hbn. rewrite (permits_updated w w2 x _ Hx Hu) by done.
    change (t_granted_sem (readied now (granting (T w x)))) with (t_waiting_sem (T w x)). rewrite Hgs, Hws.
    rewrite (indicator_ext (a = b) (b = a)) by (split; congruence). rewrite indicator_false by done. lia. }
  assert (semaphores w2 q') as Hsem2.
  { apply (semaphores_released w w2 q q' x a granting now Hsem Hx Hin Hrel).
    - intros t. split_and!; try done. by right.
    - intros b Hbn. rewrite Hperm by done. destruct (decide (b = a)) as [->|Hne].
      + rewrite indicator_true by done. lia.
      + rewrite indicator_false by done. pose proof (sems_bound w q Hse b Hbn). lia. }
  split; [by apply semaphores_diagnostics|done|..].
  - apply (same_mutexes_trans w w2 _ q q'); [|by split; try done; apply keeps_free_same].
    apply (same_mutexes_released w w2 q q' x a granting now Hs Hx); [congruence|done|].
    intros A f F1 F2 F3 F4 F5 F6 F7 t. unfold granting. by rewrite F7, F5, F6, F4.
  - rewrite E. split_and!; [done|..|].
    + rewrite (released_waits _ _ _ _ _ _ _ _ Hrel) by done. rewrite decide_True, E by done.
      apply (without_split []). simpl. rewrite <-E. by eapply queues_nodup.
    + apply Hrel.
    + change (t_granted_sem (T w2 x) = a). rewrite (Hu _ t_granted_sem), decide_True by done. done.
    + apply Hcnt.
  - rewrite E. intros j Hj. change (t_waiting_sem (T w2 j) = t_waiting_sem (T w j) ∧
      t_granted_sem (T w2 j) = t_granted_sem (T w j)).
    rewrite (Hu _ t_waiting_sem), (Hu _ t_granted_sem), !decide_False by (done || (intros ->; apply Hj; left)).
    done.
Qed.

(** ** Consuming *)

Definition ungranted (t : Tcb) : Tcb := t <| t_sem_granted := false |> <| t_granted_sem := 0 |>.

Lemma semaphores_ungranted w q i :
  semaphores w q → slot_in i → t_granted_mutex (T w i) = 0 →
  let w' := upd_task i ungranted w in
  semaphores w' q ∧ same_mutexes w w' q q ∧
  ∀ b, b ≠ 0 → permits w' b = permits w b - indicator (t_granted_sem (T w i) = b).
Proof.
  intros [Ho Hso Hse Hgr] Hi Hgm w'. pose proof (owned_shape w q None Ho) as Hs.
  pose proof (updated_upd w i ungranted Hs Hi) as Hu.
  assert (∀ b, b ≠ 0 → permits w' b = permits w b - indicator (t_granted_sem (T w i) = b)) as Hp.
  { intros b Hb. rewrite (permits_updated w w' i ungranted Hi Hu) by done.
    change (t_granted_sem (ungranted (T w i))) with 0. rewrite (indicator_false (0 = b)) by congruence. lia. }
  split_and!; [|split; try done|done].
  - split.
    + by apply owned_upd.
    + apply (sorted_all_ext w w' q q Hso); [|done..]. intros j. by apply T_upd_field.
    + apply (sems_updated w w' q q i ungranted Hi Hu Hse); try done.
      * intros a. destruct (q (QSem a)) eqn:E; [by left|right; intros; by right].
      * intros b Hb. rewrite Hp by done. pose proof (sems_bound w q Hse b Hb).
        pose proof (indicator_range (t_granted_sem (T w i) = b)). lia.
    + apply (grants_updated w w' i ungranted Hi Hu Hgr). cbv zeta. split_and!; [|by left|].
      * change (false = true ↔ 0 ≠ 0 ∨ t_granted_mutex (T w i) ≠ 0). rewrite Hgm. split; [done|]. by intros [[]|[]].
      * intros _. by split.
  - intros A f F1 F2 F3 F4 F5 F6 F7 j. rewrite (Hu A f) by done. case_decide; [|done].
    unfold ungranted. by rewrite F6, F7.
  - apply (keeps_free_updated w w' i ungranted Hu). by right.
Qed.

Lemma consume_grant_spec w q i :
  semaphores w q → slot_in i → t_granted_mutex (T w i) = 0 →
  wp (consume_semaphore_grant_locked i) (λ r w',
    r = negb (t_granted_sem (T w i) =? 0) ∧ semaphores w' q ∧ same_mutexes w w' q q ∧
    t_granted_sem (T w' i) = 0 ∧
    ∀ b, b ≠ 0 → permits w' b = permits w b - indicator (t_granted_sem (T w i) = b)) w.
Proof.
  intros Hsem Hi Hgm. pose proof Hsem as [Ho Hso Hse Hgr]. pose proof (owned_shape w q None Ho) as Hs.
  unfold consume_semaphore_grant_locked. go. change (upd_task i _ w) with (upd_task i ungranted w).
  destruct (semaphores_ungranted w q i Hsem Hi Hgm) as (H1 & H2 & H3). split_and!; try done.
  - pose proof (grants_flag w Hgr i Hi) as Hf. rewrite Hgm in Hf.
    destruct (Z.eqb_spec (t_granted_sem (T w i)) 0) as [E|E]; cbn [negb]; [|by apply Hf; left].
    destruct (t_sem_granted (T w i)); [|done]. destruct (proj1 Hf eq_refl); congruence.
  - by rewrite T_upd_eq.
Qed.

Lemma wp_unbind {A B C} (m : M World A) (n : M World B) (k : B → M World C) Q w :
  wp (m ;; n) (λ b w', wp (k b) Q w') w → wp (m ;; (b ← n; k b)) Q w.
Proof.
  intros H. apply wp_bind_inv in H. apply wp_bind. eapply wp_mono; [|exact H]. intros a w' H'. by apply wp_bind.
Qed.

Lemma upd_task_at w i g h :
  shape w → slot_in i → g (T w i) = h (T w i) → upd_task i g w = upd_task i h w.
Proof.
  intros Hs Hi E. assert (alter_at g (s_tasks (w_sched w)) i = alter_at h (s_tasks (w_sched w)) i) as Ea.
  { apply alter_at_ext. intros t Ht. unfold T, at_ in E. by rewrite Ht in E. }
  destruct w as [s ss ms].
  exact (f_equal (λ ts, mkWorld (s <| s_tasks := ts |>) ss ms) Ea).
Qed.

(** ** Giving up a wait *)

(** The outcome of an operation that takes [i] out of the semaphores' hands. *)
Record withdrawn (w w' : World) (q q' : Queues) (i : Z) : Prop := {
  withdrawn_semaphores : semaphores w' q';
  withdrawn_permits b : b ≠ 0 → permits w' b = permits w b;
  withdrawn_mutexes : same_mutexes w w' q q';
  withdrawn_task : t_waiting_sem (T w' i) = 0 ∧ t_granted_sem (T w' i) = 0;
}.

(** A waiter gives up: it leaves the queue and becomes ready without a grant. *)
Definition giving_up (t : Tcb) : Tcb :=
  t <| t_waiting_sem := 0 |> <| t_sem_granted := false |> <| t_granted_sem := 0 |> <| t_wake_at := 0 |>.

Lemma give_up_spec w q i g now :
  semaphores w q → slot_in i → t_waiting_sem (T w i) ≠ 0 →
  (∀ t, t_granted_sem t = 0 → g t = giving_up t) →
  wp (remove_waiter (t_waiting_sem (T w i)) i ;; set_task i g) (λ _ w1,
    shape w1 ∧ t_state (T w1 i) = Blocked ∧
    wp (make_ready i now)
      (λ _ w', ∃ q', withdrawn w w' q q' i ∧ ready_queued q' i ∧ t_state (T w' i) = Ready) w1) w.
Proof.
  intros Hsem Hi Hws Hg. pose proof Hsem as [Ho Hso Hse Hgr]. pose proof (owned_shape w q None Ho) as Hs.
  pose proof (owned_placed w q None (proj2 Ho) i Hi) as Hpl.
  destruct (grants_waiting w Hgr i Hi) as [Hgs Hgm]; [by left|].
  set (a := t_waiting_sem (T w i)) in *. pose proof (placed_sem_home w q None i Hpl Hws) as Hin. fold a in Hin.
  pose proof (queues_valid w q (proj1 Ho) _ _ Hin) as Hv. unfold remove_waiter. go.
  wp_apply (remove_spec w q (QSem a) i (proj1 Ho) Hv). intros _ w1 (Hc1 & Hq1 & _). specialize (Hq1 Hin).
  assert (shape w1) as Hs1 by (by eapply queues_shape). go.
  rewrite (upd_task_at w1 i g giving_up); [|done..|by apply Hg; rewrite (core_field t_granted_sem w w1)].
  destruct (owned_waiter w q None i (QSem a) Ho Hi Hin) as (Hbl & _); [done|].
  split_and!; [by apply shape_upd_task|by rewrite (T_upd_field t_state), (core_field t_state w w1)|].
  wp_apply (released_spec w w1 q i (QSem a) giving_up now Ho Hi Hin); try done.
  intros _ w2 [q' Hrel]. exists q'.
  pose proof (updated_core w w2 i _ Hs Hi (released_core _ _ _ _ _ _ _ _ Hrel)) as Hu.
  assert (∀ b, b ≠ 0 → permits w2 b = permits w b) as Hperm.
  { intros b Hb. rewrite (permits_updated w w2 i _ Hi Hu).
    - change (t_granted_sem (readied now (giving_up (T w i)))) with 0. rewrite Hgs. lia.
    - intros c. by rewrite (count_of_core _ w2 c (released_core _ _ _ _ _ _ _ _ Hrel)). }
  split_and!; [|apply Hrel|by rewrite (Hu _ t_state), decide_True].
  split; [|done|..].
  - apply (semaphores_released w w2 q q' i a giving_up now Hsem Hi Hin Hrel).
    + intros t. split_and!; try done. by left.
    + intros b Hb. rewrite Hperm by done. by apply (sems_bound w q Hse).
  - apply (same_mutexes_released w w2 q q' i a giving_up now Hs Hi); [congruence|done|].
    intros A f F1 F2 F3 F4 F5 F6 F7 t. unfold giving_up. by rewrite F4, F6, F7, F5.
  - rewrite (Hu _ t_waiting_sem), (Hu _ t_granted_sem), !decide_True by done. done.
Qed.

Lemma cancel_semaphore_spec w q i now :
  semaphores w q → slot_in i → 
  wp (cancel_semaphore_wait_locked i now) (λ r w', ∃ q', withdrawn w w' q q' i ∧
    r = negb (t_waiting_sem (T w i) =? 0) || negb (t_granted_sem (T w i) =? 0) ∧
    (t_waiting_sem (T w i) ≠ 0 → t_state (T w' i) = Ready) ∧
    (r = false → w' = w)) w.
Proof.
  intros Hsem Hi. pose proof Hsem as [Ho Hso Hse Hgr]. pose proof (owned_shape w q None Ho) as Hs.
  pose proof (owned_placed w q None (proj2 Ho) i Hi) as Hpl.
  unfold cancel_semaphore_wait_locked. go.
  destruct (Z.eqb_spec (t_waiting_sem (T w i)) 0) as [E|E]; cbn [negb orb].
  - go. destruct (Z.eqb_spec (t_granted_sem (T w i)) 0) as [Eg|Eg]; cbn [negb].
    { go. exists q. by split_and!. }
    set (a := t_granted_sem (T w i)) in *. go. change (upd_task i _ w) with (upd_task i ungranted w).
    assert (t_granted_mutex (T w i) = 0) as Hgm by (by destruct (grants_exclusive w Hgr i Hi)).
    destruct (semaphores_ungranted w q i Hsem Hi Hgm) as (H1 & H2 & H3).
    set (w1 := upd_task i ungranted w) in *. destruct (sems_granted w q Hse i Hi Eg) as [st Hst].
    assert (permits w1 a < i32_max) as Hlt.
    { rewrite H3, indicator_true by done. pose proof (sems_bound w q Hse a Eg). lia. }
    wp_apply (release_semaphore_spec w1 q a st now H1 Eg Hst Hlt). intros x w2 [q' Hpost]. go. exists q'.
    pose proof Hpost as [P1 P2 P3 P4].
    assert (i ∉ q (QSem a)) as Hni.
    { intros Hin. by destruct (placed_sem w q None i Hpl a Hin) as (_ & ? & ?); congruence. }
    split_and!; [split|done|done|done]; [done| |by eapply same_mutexes_trans|].
    + intros b Hb. rewrite P2, H3 by done. rewrite (indicator_ext (a = b) (b = a)); [lia|]. by split; intros ->.
    + destruct (posted_others _ _ _ _ _ _ Hpost i Hni) as [-> ->]. unfold w1. by rewrite T_upd_eq.
  - apply wp_unbind. eapply wp_mono; [|apply (give_up_spec w q i _ now Hsem Hi E)].
    2:{ intros t Ht. destruct t. simpl in *. by subst. }
    intros _ w1 (Hs1 & Hst1 & Hmr). go. rewrite Hst1. cbn [state_eqb when].
    unfold state_eqb. rewrite bool_decide_true by done. cbn [when].
    eapply wp_mono; [|exact Hmr]. intros _ w2 (q' & Hwd & Hrq & Hst2). go. exists q'. by split_and!.
Qed.

Definition expired (t : Tcb) (now : Z) : bool :=
  negb (negb (state_eqb t.(t_state) Blocked) || (t.(t_waiting_sem) =? 0) || (t.(t_wake_at) =? 0) ||
        (now <? t.(t_wake_at))).

Lemma timeout_spec w q i now :
  semaphores w q → slot_in i →
  wp (timeout_semaphore_waiter_locked i now) (λ r w', r = expired (T w i) now ∧
    if expired (T w i) now then ∃ q', withdrawn w w' q q' i ∧ t_state (T w' i) = Ready else w' = w) w.
Proof.
  intros Hsem Hi. pose proof (owned_shape w q None (semaphores_owned w q None Hsem)) as Hs.
  unfold timeout_semaphore_waiter_locked, expired. go.
  set (b := negb (state_eqb _ _) || _ || _ || _). destruct b eqn:E; cbn [negb]; [by go|].
  apply orb_false_iff in E as [[[_ E]%orb_false_iff _]%orb_false_iff _]. apply Z.eqb_neq in E.
  apply wp_unbind. eapply wp_mono; [|apply (give_up_spec w q i _ now Hsem Hi E)]; [|done].
  intros _ w1 (Hs1 & Hst1 & Hmr). go. eapply wp_mono; [|exact Hmr]. intros _ w2 (q' & Hwd & _ & Hst2).
  go. split; [done|]. by exists q'.
Qed.

(** ** Blocking *)

Lemma permits_same w w' a :
  sem_count <$> w_sems w' !! a = sem_count <$> w_sems w !! a →
  (∀ i, t_granted_sem (T w' i) = t_granted_sem (T w i)) → permits w' a = permits w a.
Proof.
  intros Hc Hg. unfold permits, count_of, granted_by. rewrite Hc. f_equal. apply zsum_ext. intros i _. by rewrite Hg.
Qed.

(** What the invariant of the semaphores reads. *)
Lemma sems_same w w' q q' :
  (∀ a, sem_count <$> w_sems w' !! a = sem_count <$> w_sems w !! a) →
  (∀ i, t_granted_sem (T w' i) = t_granted_sem (T w i)) →
  (∀ a, q (QSem a) = [] → q' (QSem a) = []) → sems w q → sems w' q'.
Proof.
  intros Hc Hg Hq [S1 S2 S3 S4 S5].
  assert (∀ a st, w_sems w' !! a = Some st → ∃ st0, w_sems w !! a = Some st0 ∧ sem_count st0 = sem_count st) as Hback.
  { intros a st Hst. specialize (Hc a). rewrite Hst in Hc. destruct (w_sems w !! a) as [st0|] eqn:E; [|done].
    exists st0. split; [done|]. by injection Hc. }
  split.
  - specialize (Hc 0). rewrite S1 in Hc. by destruct (w_sems w' !! 0).
  - intros a st (st0 & Hst0 & <-)%Hback. eauto.
  - intros a Ha. rewrite (permits_same w w') by done. auto.
  - intros a st (st0 & Hst0 & <-)%Hback Hpos. apply Hq. eauto.
  - intros i Hi. rewrite Hg. intros Hne. destruct (S5 i Hi Hne) as [st Hst].
    specialize (Hc (t_granted_sem (T w i))). rewrite Hst in Hc. by destruct (w_sems w' !! _).
Qed.

Lemma core_sem_count (o o' : option SemState) : core_sem <$> o' = core_sem <$> o → sem_count <$> o' = sem_count <$> o.
Proof. destruct o', o; simpl; try done. intros [= E]. by f_equal. Qed.

Lemma core_mtx_owner (o o' : option MutexState) : core_mtx <$> o' = core_mtx <$> o → mtx_owner <$> o' = mtx_owner <$> o.
Proof. destruct o', o; simpl; try done. intros [= E _]. by f_equal. Qed.

Lemma semaphores_quiet w w' q q' d d' :
  semaphores_hand w q d → quiet w w' → owned w' q' d' →
  (∀ a, q' (QSem a) = q (QSem a) ∧ q' (QMtx a) = q (QMtx a)) → semaphores_hand w' q' d'.
Proof.
  intros [Ho Hso Hse [G1 G2 G3]] [F1 F2 F3] Ho' Hq. split; [done|..].
  - apply (sorted_all_ext w w' q q' Hso); [intros j; by apply (F1 _ t_priority)|apply Hq..].
  - apply (sems_same w w' q q'); [|intros i; by apply (F1 _ t_granted_sem)| |done].
    + intros a. by apply core_sem_count.
    + intros a. by destruct (Hq a) as [-> _].
  - split; intros i Hi; rewrite ?(F1 _ t_sem_granted), ?(F1 _ t_granted_sem), ?(F1 _ t_granted_mutex),
      ?(F1 _ t_waiting_sem), ?(F1 _ t_waiting_mutex) by done; auto.
Qed.

Lemma best_ext q q' : (∀ p, q' (QReady p) = q (QReady p)) → best q' = best q.
Proof.
  intros H. unfold best. induction priorities as [|p ps IH]; simpl; [done|]. by rewrite H, IH.
Qed.

(** Taking a ready task leaves the wait queues alone. *)
Lemma taken_waits w q x a :
  owned w q None → best q = Some x ∨ x = IDLE_SLOT →
  taken x q (QSem a) = q (QSem a) ∧ taken x q (QMtx a) = q (QMtx a).
Proof.
  intros Hw Hx. assert ((x ∉ q (QSem a)) ∧ (x ∉ q (QMtx a))) as [H1 H2].
  { destruct Hx as [Hb| ->]; [|split; apply (owned_idle_detached w q None Hw)].
    apply best_queued in Hb as (p & Hin). split; intros Hin';
      by pose proof (queues_disjoint w q (proj1 Hw) _ _ x Hin Hin'). }
  by split; apply without_not_in.
Qed.

(** What a task needs to give up the hart: it runs, it is not the idle task, no
    switch is pending, ticket numbers are left, and it has consumed its grants. *)
Record may_block (w : World) : Prop := {
  block_running : t_state (T w (current w)) = Running;
  block_not_idle : current w ≠ IDLE_SLOT;
  block_no_pending : pending w = None;
  block_sequence : sequence_of w < u64_max;
  block_no_grant : t_granted_sem (T w (current w)) = 0 ∧ t_granted_mutex (T w (current w)) = 0;
}.

Definition blocking (a deadline : Z) (t : Tcb) : Tcb :=
  t <| t_state := Blocked |> <| t_wake_at := deadline |> <| t_waiting_sem := a |> <| t_sem_granted := false |>.

(** The running task has blocked on the empty semaphore [a]. *)
Lemma semaphores_blocked w w' q q' a st deadline :
  semaphores w q → may_block w → a ≠ 0 → w_sems w !! a = Some st → sem_count st = 0 →
  owned w' q' None → core w' = core (upd_task (current w) (blocking a deadline) w) →
  q' = qset (QSem a) (place (prio w) (current w) (q (QSem a))) q →
  semaphores w' q' ∧ ∀ b, b ≠ 0 → permits w' b = permits w b.
Proof.
  intros [Ho Hso Hse Hgr] [M1 M2 M3 M4 [M5 M6]] Ha Hst Hct Ho' Hc ->. set (i := current w) in *.
  assert (slot_in i) as Hi by (by eapply owned_slot_current). pose proof (owned_shape w q None Ho) as Hs.
  pose proof (updated_core w w' i _ Hs Hi Hc) as Hu.
  destruct (owned_not_waiting w q None i Ho Hi) as [Hws Hwm]; [congruence|].
  assert (∀ b, permits w' b = permits w b) as Hp.
  { intros b. rewrite (permits_updated w w' i _ Hi Hu); [cbn; lia|].
    intros c. by rewrite (count_of_core _ w' c Hc). }
  split; [split|by intros]; [done|..].
  - apply (sorted_all_ext w w' (qset (QSem a) (place (prio w) i (q (QSem a))) q)); [|..|done|done].
    + by apply sorted_all_place.
    + intros j. rewrite (Hu _ t_priority) by done. by case_decide.
  - apply (sems_updated w w' q _ i _ Hi Hu Hse).
    + intros b. pose proof (core_sems _ w' b Hc) as E. change (w_sems (upd_task i _ w)) with (w_sems w) in E.
      destruct (w_sems w' !! b), (w_sems w !! b); simpl in E |- *; try done. f_equal. by injection E.
    + intros b. destruct (decide (b = a)) as [->|Hne].
      * right. intros st' Hst'. left. congruence.
      * rewrite qset_ne by congruence. destruct (q (QSem b)); [by left|right; intros; by right].
    + intros b Hb. rewrite Hp. by apply (sems_bound w q Hse).
    + change (t_granted_sem (T w i) ≠ 0 → is_Some (w_sems w !! t_granted_sem (T w i))). by rewrite M5.
  - apply (grants_updated w w' i _ Hi Hu Hgr). cbv zeta.
    change ((false = true ↔ t_granted_sem (T w i) ≠ 0 ∨ t_granted_mutex (T w i) ≠ 0) ∧
      (t_granted_sem (T w i) = 0 ∨ t_granted_mutex (T w i) = 0) ∧
      (a ≠ 0 ∨ t_waiting_mutex (T w i) ≠ 0 → t_granted_sem (T w i) = 0 ∧ t_granted_mutex (T w i) = 0)).
    rewrite M5, M6. split_and!; [|by left|done]. split; [done|]. by intros [[]|[]].
Qed.

Lemma same_mutexes_quiet w w' q q' :
  quiet w w' → current w' = current w → (∀ a, q' (QMtx a) = q (QMtx a)) → same_mutexes w w' q q'.
Proof.
  intros [F1 F2 F3] Hc Hq. split; try done.
  - intros A f H _ _ _ _ _ _ j. by apply F1.
  - intros a. specialize (F2 a). destruct (w_sems w' !! a), (w_sems w !! a); simpl in *; try done;
      split; intros []; eauto; done.
  - apply keeps_free_same. intros j. by apply (F1 _ t_state).
Qed.

Lemma permits_quiet w w' : quiet w w' → ∀ a, permits w' a = permits w a.
Proof.
  intros [F1 F2 _] a. apply permits_same; [by apply core_sem_count|]. intros i. by apply (F1 _ t_granted_sem).
Qed.

(** The running task waits for [a]; [x] is what runs next. *)
Definition suspended_queues (w : World) (q : Queues) (a : Z) : Queues :=
  taken (default IDLE_SLOT (best q)) (qset (QSem a) (place (prio w) (current w) (q (QSem a))) q).

Record suspended (w w' : World) (q : Queues) (a deadline : Z) (commit : bool) (i : SwitchIntent) : Prop := {
  suspended_intent : i = mkIntent (sequence_of w + 1) (ref_of w (current w))
    (ref_of w (default IDLE_SLOT (best q))) (t_resume_generation (T w (current w)));
  suspended_semaphores : semaphores_hand w' (suspended_queues w q a)
    (if commit then None else Some (default IDLE_SLOT (best q)));
  suspended_pending : pending w' =
    if commit then Some (mkPending i.(si_sequence) i.(si_previous) i.(si_target)) else None;
  suspended_permits b : b ≠ 0 → permits w' b = permits w b;
  suspended_task : t_state (T w' (current w)) = Blocked ∧ t_waiting_sem (T w' (current w)) = a ∧
    t_wake_at (T w' (current w)) = deadline;
  suspended_queue : suspended_queues w q a (QSem a) = place (prio w) (current w) (q (QSem a));
  suspended_mutexes : same_mutexes w w' q (suspended_queues w q a);
  suspended_sequence : sequence_of w' = sequence_of w + 1;
}.

Lemma block_spec w q a st deadline commit :
  semaphores w q → may_block w → a ≠ 0 → w_sems w !! a = Some st → sem_count st = 0 →
  wp (block_on_semaphore commit a (current w) deadline) (λ i w', suspended w w' q a deadline commit i) w.
Proof.
  intros Hsem Hmay Ha Hst Hct. pose proof Hsem as [Ho Hso Hse Hgr]. pose proof Hmay as [M1 M2 M3 M4 M5].
  pose proof (owned_shape w q None Ho) as Hs. assert (slot_in (current w)) as Hi by eauto with store.
  unfold block_on_semaphore. go. set (w0 := w <| w_sched ::= _ |>).
  assert (semaphores w0 q) as Hsem0 by (by apply semaphores_diagnostics).
  assert (may_block w0) as Hmay0 by done.
  assert (owned w0 q None) as Ho0 by apply Hsem0. assert (shape w0) as Hs0 by eauto with store.
  change (current w) with (current w0). go. unfold enqueue_waiter.
  change (upd_task (current w0) _ w0) with (upd_task (current w0) (blocking a deadline) w0).
  wp_apply (owned_wait w0 q None (QSem a) (blocking a deadline) Ho0); [|done..|by exists st|by intros t|by intros t].
  intros _ w1 [Ho1 Hc1]. set (q1 := qset (QSem a) _ q) in *.
  destruct (semaphores_blocked w0 w1 q q1 a st deadline Hsem0 Hmay0 Ha Hst Hct Ho1 Hc1 eq_refl) as [Hsem1 Hp1].
  pose proof (updated_core w0 w1 (current w0) _ Hs0 Hi Hc1) as Hu1.
  assert (best q1 = best q) as Hbest by (by apply best_ext). assert (pending w1 = None) as Hpn1.
  { rewrite <-M3. by apply (core_sched s_pending_switch (upd_task (current w0) (blocking a deadline) w0)). }
  assert (sequence_of w1 = sequence_of w) as Hsq1
    by (by apply (core_sched s_next_switch_sequence (upd_task (current w0) (blocking a deadline) w0))).
  assert (current w1 = current w) as Hcur1
    by (by apply (core_sched s_current (upd_task (current w0) (blocking a deadline) w0))).
  unfold prepare_switch_away_locked. go.
  wp_apply (switch_away_spec w1 q1 (current w) (t_resume_generation (T w (current w))) commit Ho1 Hpn1);
    [|by rewrite Hsq1].
  assert (source_unchanged w1 (current w) (t_resume_generation (T w (current w))) = true) as ->.
  { unfold source_unchanged. rewrite Hcur1, Z.eqb_refl, (Hu1 _ t_state), (Hu1 _ t_resume_generation) by done.
    rewrite !decide_True by done. simpl. change (T w0 (current w)) with (T w (current w)). by rewrite Z.eqb_refl. }
  intros r w2 (-> & Ho2 & Hp2 & Hseq2 & Hcur2 & Hquiet). go. eapply wp_expect; [done|]. go.
  rewrite Hbest in *. set (x := default IDLE_SLOT (best q)) in *.
  assert (∀ b, taken x q1 (QSem b) = q1 (QSem b) ∧ taken x q1 (QMtx b) = q1 (QMtx b)) as Htk.
  { intros b. apply (taken_waits w1 q1 x b Ho1). rewrite Hbest. unfold x. destruct (best q); [by left|by right]. }
  assert (∀ j, ref_of w1 j = ref_of w j) as Href.
  { intros j. unfold ref_of. f_equal. rewrite (Hu1 _ t_identity_generation) by done. by case_decide. }
  split; rewrite ?Hsq1, ?Href in *; try done.
  - by apply (semaphores_quiet w1 w2 q1 (taken x q1) None).
  - intros b Hb. rewrite (permits_quiet w1 w2 Hquiet). by apply Hp1.
  - destruct Hquiet as [F _ _]. rewrite (F _ t_state), (F _ t_waiting_sem), (F _ t_wake_at) by done.
    rewrite (Hu1 _ t_state), (Hu1 _ t_waiting_sem), (Hu1 _ t_wake_at), !decide_True by done. done.
  - unfold suspended_queues. fold x. destruct (Htk a) as [E _]. etrans; [exact E|]. apply qset_eq.
  - apply (same_mutexes_trans w w1 w2 q q1).
    + split; try done.
      * intros A f F1 F2 F3 F4 F5 F6 F7 j. rewrite (Hu1 A f) by done. case_decide; [|done].
        unfold blocking. by rewrite F7, F5, F4, F2.
      * intros b. by rewrite (core_mutexes _ w1 b Hc1).
      * intros b. pose proof (core_sems _ w1 b Hc1) as E. change (w_sems (upd_task _ _ w0)) with (w_sems w) in E.
        destruct (w_sems w1 !! b), (w_sems w !! b); simpl in E; split; intros []; try done; eauto.
      * apply (keeps_free_updated w0 w1 _ _ Hu1). left. change (t_state (T w (current w)) ≠ Free). by rewrite M1.
    + apply same_mutexes_quiet; [done|congruence|]. intros b. apply Htk.
Qed.

(** ** Taking *)

Definition lock_depth (w : World) : Z := t_scheduler_lock_depth (T w (current w)).

(** The outcome of [down_timeout]. *)
Definition down_outcome (w w' : World) (q : Queues) (commit delivery : bool) (a timeout_ms deadline : Z)
    (st : SemState) (r : result DriverError (option bool * option SwitchIntent)) : Prop :=
  if 0 <? sem_count st then
    r = Ok (Some true, None) ∧ w' = counted a (-1) w ∧ semaphores w' q
  else if timeout_ms =? 0 then r = Ok (Some false, None) ∧ w' = w
  else if negb delivery || negb (lock_depth w =? 0) then r = Err InvalidContext ∧ w' = w
  else ∃ i, r = Ok (None, Some i) ∧ suspended w w' q a deadline commit i.

Lemma take_spec w q a st :
  semaphores w q → w_sems w !! a = Some st → 0 < sem_count st →
  w <| w_sems ::= alter (λ st', st' <| sem_count := sem_count st - 1 |>) a |> = counted a (-1) w ∧
  semaphores (counted a (-1) w) q.
Proof.
  intros Hsem Hst Hpos. split; [by apply (set_count_counted a (-1) w st)|].
  pose proof (sems_bound w q (semaphores_sems w q None Hsem) a) as Hb. assert (a ≠ 0) as Ha.
  { intros ->. by rewrite (sems_address w q (semaphores_sems w q None Hsem)) in Hst. }
  apply (semaphores_counted a (-1) w q st Hsem Hst); [lia|specialize (Hb Ha); lia|].
  intros _. by apply (sems_no_lost_wakeup w q (semaphores_sems w q None Hsem) a st).
Qed.

Lemma wp_switch_guard w q (Q : result DriverError Z → World → Prop) :
  owned w q None → Q (if negb (lock_depth w =? 0) then Err InvalidContext else Ok (current w)) w →
  wp current_switch_guard Q w.
Proof.
  intros Ho HQ. pose proof (owned_shape w q None Ho) as Hs. assert (slot_in (current w)) by eauto with store.
  unfold current_switch_guard. go. fold (current w). by go.
Qed.

Lemma down_timeout_spec w q commit delivery a timeout_ms deadline st :
  semaphores w q → w_sems w !! a = Some st →
  (sem_count st = 0 → timeout_ms ≠ 0 → delivery = true → lock_depth w = 0 → may_block w) →
  wp (down_timeout commit delivery a timeout_ms deadline)
    (λ r w', down_outcome w w' q commit delivery a timeout_ms deadline st r) w.
Proof.
  intros Hsem Hst Hmay. pose proof Hsem as [Ho Hso Hse Hgr]. unfold down_timeout, down_outcome. go.
  eapply wp_sem_at; [done|]. assert (a ≠ 0) as Ha by (intros ->; by rewrite (sems_address w q Hse) in Hst).
  destruct (Z.ltb_spec 0 (sem_count st)) as [Hpos|Hz].
  { go. eapply wp_set_sem; [done|]. go. destruct (take_spec w q a st Hsem Hst Hpos) as [-> H]. done. }
  destruct (Z.eqb_spec timeout_ms 0) as [E|E]; [by go|].
  destruct delivery; cbn [negb orb]; [|by go]. apply wp_try_bind, (wp_switch_guard w q _ Ho).
  destruct (Z.eqb_spec (lock_depth w) 0) as [El|El]; cbn [negb]; [|done].
  assert (sem_count st = 0) as Hz0 by (pose proof (sems_count w q Hse a st Hst); lia).
  apply wp_bind. wp_apply (block_spec w q a st deadline commit Hsem); [|auto|done..].
  intros i w' Hsus. go. by exists i.
Qed.

Lemma down_is_down_timeout commit delivery a timeout_ms w :
  timeout_ms ≠ 0 →
  down commit delivery a w = (r ← down_timeout commit delivery a timeout_ms 0;
    mret (match r with Ok (_, i) => Ok i | Err e => Err e end)) w.
Proof.
  intros Ht. apply Z.eqb_neq in Ht. unfold down, down_timeout, mbind, M_bind.
  destruct (sem_at a w) as [[st w1]|]; [|done]. destruct (0 <? sem_count st).
  - by destruct (set_sem a _ w1) as [[? ?]|].
  - rewrite Ht. destruct delivery; cbn [negb]; [|done]. unfold try_bind, mbind, M_bind.
    destruct (current_switch_guard w1) as [[[c|e] w2]|]; [|done|done].
    by destruct (block_on_semaphore commit a c 0 w2) as [[i w3]|].
Qed.

(** ** Runs *)

Inductive sem_event := Post (a : Z) | Try (a : Z) | Cancel (i : Z) | Expire (i : Z) | Consume (i : Z).

(** One event; the result lists the semaphore whose permit a task received. *)
Definition sem_exec (now : Z) (e : sem_event) : M World (list Z) :=
  match e with
  | Post a => _ ← release_semaphore_locked a now; mret []
  | Try a => r ← down_timeout false false a 0 0;
             mret (match r with Ok (Some true, _) => [a] | _ => [] end)
  | Cancel i => _ ← cancel_semaphore_wait_locked i now; mret []
  | Expire i => _ ← timeout_semaphore_waiter_locked i now; mret []
  | Consume i => a ← tget t_granted_sem i;
                 granted ← consume_semaphore_grant_locked i;
                 mret (if granted : bool then [a] else [])
  end.

Fixpoint sem_run (events : list (Z * sem_event)) : M World (list Z) :=
  match events with
  | [] => mret []
  | (now, e) :: events => l ← sem_exec now e; l' ← sem_run events; mret (l ++ l')
  end.

Definition posts (a : Z) (events : list (Z * sem_event)) : Z :=
  zsum (λ e, match snd e with Post b => indicator (b = a) | _ => 0 end) events.
Definition received (a : Z) (l : list Z) : Z := zsum (λ b, indicator (b = a)) l.

(** Events name live objects and tasks; a task that consumes a semaphore grant
    holds no mutex grant. *)
Definition sem_legal (w : World) (e : sem_event) : Prop :=
  match e with
  | Post a | Try a => is_Some (w_sems w !! a)
  | Cancel i | Expire i => slot_in i
  | Consume i => slot_in i ∧ t_granted_mutex (T w i) = 0
  end.

Lemma sem_legal_mutexes w w' q q' e : same_mutexes w w' q q' → sem_legal w e → sem_legal w' e.
Proof.
  intros [F _ _ Hv _]. destruct e; simpl; [by apply Hv..|done|done|]. by rewrite (F _ t_granted_mutex).
Qed.

Lemma sem_exec_spec w q now e :
  semaphores w q → sem_legal w e →
  (∀ a, a ≠ 0 → permits w a + posts a [(now, e)] <= i32_max) →
  wp (sem_exec now e) (λ l w', ∃ q', semaphores w' q' ∧ same_mutexes w w' q q' ∧
    ∀ a, a ≠ 0 → permits w' a + received a l = permits w a + posts a [(now, e)]) w.
Proof.
  intros Hsem Hl Hb. pose proof Hsem as [Ho Hso Hse Hgr]. pose proof (owned_shape w q None Ho) as Hs.
  destruct e as [a|a|i|i|i]; unfold posts in *; cbn [sem_exec sem_legal zsum foldr snd] in *.
  - destruct Hl as [st Hst]. assert (a ≠ 0) as Ha by (intros ->; by rewrite (sems_address w q Hse) in Hst).
    apply wp_bind. wp_apply (release_semaphore_spec w q a st now Hsem Ha Hst).
    + intros x w' [q' [H1 H2 H3 _ _]]. go. exists q'. split_and!; [done..|]. intros b Hbn.
      unfold received. simpl. rewrite H2, (indicator_ext (b = a) (a = b)) by done. lia.
    + specialize (Hb a Ha). rewrite indicator_true in Hb by done. lia.
  - destruct Hl as [st Hst]. apply wp_bind. wp_apply (down_timeout_spec w q false false a 0 0 st Hsem Hst); [|done].
    intros r w'. unfold down_outcome. destruct (Z.ltb_spec 0 (sem_count st)).
    + intros (-> & -> & Hs'). go. exists q. split_and!; [done|apply counted_mutexes|].
      intros b _. rewrite counted_permits by eauto. unfold received. simpl.
      rewrite (indicator_ext (b = a) (a = b)) by done. lia.
    + intros [-> ->]. go. exists q. split_and!; [done|apply same_mutexes_refl|done].
  - apply wp_bind. wp_apply (cancel_semaphore_spec w q i now Hsem Hl). intros r w' (q' & [H1 H2 H3 _] & _).
    go. exists q'. split_and!; [done..|]. intros a Ha. rewrite H2 by done. done.
  - apply wp_bind. wp_apply (timeout_spec w q i now Hsem Hl). intros r w' (_ & H).
    destruct (expired (T w i) now).
    + destruct H as (q' & [H1 H2 H3 _] & _). go. exists q'. split_and!; [done..|]. intros a Ha. by rewrite H2.
    + subst. go. exists q. split_and!; [done|apply same_mutexes_refl|done].
  - destruct Hl as [Hi Hgm]. go. wp_apply (consume_grant_spec w q i Hsem Hi Hgm).
    intros r w' (-> & H1 & H2 & _ & H3). go. exists q. split_and!; [done..|]. intros a Ha. rewrite H3 by done.
    destruct (Z.eqb_spec (t_granted_sem (T w i)) 0) as [E|E]; unfold received; simpl; [|lia].
    rewrite E, indicator_false by done. lia.
Qed.

Lemma posts_cons a x events : posts a (x :: events) = posts a [x] + posts a events.
Proof. unfold posts. simpl. lia. Qed.

Lemma posts_nonneg a events : 0 <= posts a events.
Proof.
  induction events as [|x events IH]; [done|]. rewrite posts_cons. unfold posts at 1. simpl.
  destruct (snd x) as [b| | | |]; try lia. pose proof (indicator_range (b = a)). lia.
Qed.

(** C4: permits are neither lost nor invented (RTOS-WAIT-001, RTOS-WAIT-002,
    RTOS-WAIT-004). Take any started system whose semaphores are in order and run
    any sequence of posts, tries, cancellations, timeouts and grant consumptions,
    in any order and at any times, with fewer than 2^31 permits about. The run ends
    without a fault, no task is lost and no semaphore keeps a waiter while it has
    permits to give; and for every semaphore, the permits left over plus the
    permits that tasks received are the permits before plus the posts. In
    particular the grant of a waiter that is cancelled after the handoff goes on to
    the next one, and a timeout that loses the race against a post takes nothing. *)
Theorem permits_conserved (w : World) (q : Queues) (events : list (Z * sem_event)) :
  semaphores w q → (∀ now e, (now, e) ∈ events → sem_legal w e) →
  (∀ a, a ≠ 0 → permits w a + posts a events <= i32_max) →
  wp (sem_run events) (λ l w', ∃ q', semaphores w' q' ∧ (∀ a, q' (QMtx a) = q (QMtx a)) ∧
    ∀ a, a ≠ 0 → permits w' a + received a l = permits w a + posts a events) w.
Proof.
  revert w q. induction events as [|[now e] events IH]; intros w q Hsem Hl Hb; cbn [sem_run].
  { go. exists q. done. }
  apply wp_bind. wp_apply (sem_exec_spec w q now e Hsem); [|by apply (Hl now); left|].
  - intros l w1 (q1 & Hsem1 & Hm1 & Hp1). go. wp_apply (IH w1 q1 Hsem1).
    + intros l' w2 (q2 & Hsem2 & Hm2 & Hp2). go. exists q2. split_and!; [done|intros a; rewrite Hm2; apply Hm1|].
      intros a Ha. rewrite posts_cons. specialize (Hp1 a Ha). specialize (Hp2 a Ha).
      unfold received in *. rewrite zsum_app. lia.
    + intros now' e' Hin. apply (sem_legal_mutexes w w1 q q1); [done|]. apply (Hl now'). by right.
    + intros a Ha. specialize (Hb a Ha). rewrite posts_cons in Hb. specialize (Hp1 a Ha).
      assert (0 <= received a l); [|lia]. apply zsum_nonneg. intros j b _. apply indicator_range.
  - intros a Ha. specialize (Hb a Ha). rewrite posts_cons in Hb. pose proof (posts_nonneg a events). lia.
Qed.

(** ** Creating *)

Definition with_sem (a n : Z) (w : World) : World := w <| w_sems ::= <[ a := SemState_new n ]> |>.

Lemma owned_with_sem w q d a n :
  owned w q d → w_sems w !! a = None → owned (with_sem a n w) q d.
Proof.
  intros Ho Ha. apply (owned_view w); [by split| |done]. apply queues_new_sem; [apply Ho|done].
Qed.

Lemma permits_with_sem w q a n b :
  semaphores w q → w_sems w !! a = None → b ≠ 0 →
  permits (with_sem a n w) b = if decide (b = a) then n else permits w b.
Proof.
  intros [Ho Hso [S1 S2 S3 S4 S5] Hgr] Ha Hb. unfold permits, count_of, with_sem. simpl.
  change (granted_by (w <| w_sems ::= _ |>) b) with (granted_by w b). case_decide as E; [subst b|].
  - rewrite lookup_insert_eq. simpl. assert (granted_by w a = 0); [|lia]. unfold granted_by.
    rewrite (zsum_ext _ (λ _, 0)); [done|]. intros i Hi%slots_elem. apply indicator_false. intros Hg.
    destruct (S5 i Hi) as [st Hst]; congruence.
  - by rewrite lookup_insert_ne.
Qed.

Lemma semaphores_with_sem w q a n :
  semaphores w q → w_sems w !! a = None → a ≠ 0 → 0 <= n <= i32_max → semaphores (with_sem a n w) q.
Proof.
  intros Hsem Ha Hne Hn. pose proof Hsem as [Ho Hso [S1 S2 S3 S4 S5] [G1 G2 G3]].
  split; [by apply owned_with_sem|done| |by split]. split.
  - simpl. by rewrite lookup_insert_ne.
  - intros b st Hb. unfold with_sem in Hb. simpl in Hb.
    apply lookup_insert_Some in Hb as [[<- <-]|[_ H]]; [simpl; lia|by eapply S2].
  - intros b Hb. rewrite (permits_with_sem w q) by done. case_decide; [lia|auto].
  - intros b st Hb. unfold with_sem in Hb. simpl in Hb.
    apply lookup_insert_Some in Hb as [[<- <-]|[_ H]]; [|by apply S4].
    intros _. destruct (q (QSem a)) as [|x l] eqn:E; [done|].
    destruct (queues_valid w q (proj1 Ho) (QSem a) x) as [st Hst]; [rewrite E; left|]. congruence.
  - intros i Hi Hg. simpl. apply lookup_insert_is_Some'. right. by apply S5.
Qed.

(** Three tasks are ready and the semaphore at 4096 has one permit. *)
Definition with_semaphore : World := with_sem 4096 1 ready_three.

Definition no_grant_b (t : Tcb) : bool :=
  negb (t_sem_granted t) && (t_granted_sem t =? 0) && (t_granted_mutex t =? 0).

Lemma no_grants w : (∀ i, slot_in i → no_grant_b (T w i) = true) →
  grants w ∧ ∀ i, slot_in i → t_granted_sem (T w i) = 0.
Proof.
  intros H. assert (∀ i, slot_in i → t_sem_granted (T w i) = false ∧ t_granted_sem (T w i) = 0 ∧
    t_granted_mutex (T w i) = 0) as Hi.
  { intros i Hi. specialize (H i Hi). unfold no_grant_b in H.
    apply andb_prop in H as [[H1%negb_true_iff H2%Z.eqb_eq]%andb_prop H3%Z.eqb_eq]. done. }
  split; [|intros i Hsl; apply (Hi i Hsl)].
  split; intros i Hsl; destruct (Hi i Hsl) as (E1 & E2 & E3); rewrite ?E1, ?E2, ?E3; [|by left|done].
  split; [done|]. by intros [[]|[]].
Qed.

Lemma ready_three_semaphores : semaphores ready_three ready_three_queues.
Proof.
  destruct (no_grants ready_three) as [Hg Hg0].
  { apply (all_slots (λ j, no_grant_b (T ready_three j))). by vm_compute. }
  assert (w_sems ready_three = ∅) as Hempty by (by vm_compute).
  split; [apply ready_three_owned|intros a; split; constructor| |done].
  split.
  - by rewrite Hempty.
  - intros a st Hst. by rewrite Hempty in Hst.
  - intros a Ha. unfold permits, count_of. rewrite Hempty. pose proof (granted_by_range ready_three a).
    change (0 + granted_by ready_three a <= i32_max). unfold i32_max. lia.
  - intros a st Hst. by rewrite Hempty in Hst.
  - intros i Hi. by rewrite Hg0.
Qed.

Lemma with_semaphore_semaphores : semaphores with_semaphore ready_three_queues.
Proof. apply semaphores_with_sem; [apply ready_three_semaphores|by vm_compute|done|by vm_compute]. Qed.

Lemma with_semaphore_permits a : a ≠ 0 → permits with_semaphore a <= 17.
Proof.
  intros Ha. unfold with_semaphore.
  rewrite (permits_with_sem ready_three ready_three_queues); [|apply ready_three_semaphores|by vm_compute|done].
  case_decide; [lia|]. unfold permits, count_of. assert (w_sems ready_three = ∅) as -> by (by vm_compute).
  apply (granted_by_range ready_three a).
Qed.

(** Two posts, a try and a cancellation on it. *)
Definition witness_sem_events : list (Z * sem_event) :=
  [(1, Post 4096); (2, Try 4096); (3, Cancel 2); (4, Post 4096); (5, Try 4096)].

Lemma permits_conserved_witness :
  wp (sem_run witness_sem_events) (λ l w', ∃ q', semaphores w' q' ∧
    (∀ a, q' (QMtx a) = ready_three_queues (QMtx a)) ∧
    ∀ a, a ≠ 0 → permits w' a + received a l = permits with_semaphore a + posts a witness_sem_events)
    with_semaphore ∧
  fst <$> run (sem_run witness_sem_events) with_semaphore = Some [4096; 4096].
Proof.
  split; [|by vm_compute]. apply permits_conserved.
  - apply with_semaphore_semaphores.
  - intros now e Hin. assert (is_Some (w_sems with_semaphore !! 4096)) as Hs by (by vm_compute; eexists).
    repeat (apply elem_of_cons in Hin as [[= -> ->]|Hin]; [done|]). by apply elem_of_nil in Hin.
  - intros a Ha. pose proof (with_semaphore_permits a Ha). unfold posts, indicator, i32_max. simpl.
    repeat case_decide; lia.
Defined.

(** C19: a post goes to the right task and to nobody else (RTOS-WAIT-002). With no
    waiter it adds one to the count. Otherwise the waiter of the best effective
    priority, the oldest one among equals, leaves the wait queue with the grant and
    stands in a ready queue, the count stays as it is, so no third task can take the
    permit, and the other waiters keep their order. A switch is requested exactly
    when a waiter was woken outside any interrupt. *)
Theorem post_hands_to_best_waiter (w : World) (q : Queues) (a : Z) (st : SemState) (now depth : Z) :
  semaphores w q → w_sems w !! a = Some st → permits w a < i32_max →
  wp (up a now depth) (λ resched w', ∃ q', semaphores w' q' ∧ permits w' a = permits w a + 1 ∧
    match q (QSem a) with
    | [] => resched = false ∧ count_of w' a = count_of w a + 1
    | y :: l => resched = (depth =? 0) ∧ (∀ j, j ∈ l → prio w y <= prio w j) ∧ ready_queued q' y ∧
        t_granted_sem (T w' y) = a ∧ q' (QSem a) = l ∧ count_of w' a = count_of w a
    end) w.
Proof.
  intros Hsem Hst Hb. pose proof Hsem as [Ho Hso Hse Hgr].
  assert (a ≠ 0) as Ha by (intros ->; by rewrite (sems_address w q Hse) in Hst).
  unfold up. apply wp_bind. wp_apply (release_semaphore_spec w q a st now Hsem Ha Hst Hb).
  intros x w' [q' [H1 H2 _ H4 _]]. go. exists q'. rewrite H2, indicator_true by done. split_and!; [done..|].
  destruct (Hso a) as [Hsa _]. destruct (q (QSem a)) as [|y l] eqn:E.
  - destruct H4 as [-> H4]. done.
  - destruct H4 as (-> & H4 & H5 & H6 & H7). assert (slot_in y) as Hy.
    { apply (queues_slot w q (proj1 Ho) (QSem a)). rewrite E. left. }
    rewrite (proj2 (Z.eqb_neq _ _) (slot_in_not_NIL y Hy)). split_and!; try done.
    apply StronglySorted_inv in Hsa as [_ Hsa]. by apply Forall_forall.
Qed.

Lemma post_hands_to_best_waiter_witness :
  wp (up 4096 7 0) (λ resched w', ∃ q', semaphores w' q' ∧ permits w' 4096 = permits with_semaphore 4096 + 1 ∧
    resched = false ∧ count_of w' 4096 = count_of with_semaphore 4096 + 1) with_semaphore.
Proof.
  apply (post_hands_to_best_waiter with_semaphore ready_three_queues 4096 (SemState_new 1) 7 0).
  - apply with_semaphore_semaphores.
  - by vm_compute.
  - pose proof (with_semaphore_permits 4096). unfold i32_max. lia.
Defined.

(** C20: a semaphore is taken at once, refused, or waited for, and nothing in
    between (RTOS-WAIT-001). With a permit counted, exactly one permit leaves the
    count. Without one, a zero timeout answers [false], and a task that cannot give
    up the hart -- no switch delivery or a held scheduler lock -- gets
    [InvalidContext]; both leave the system exactly as it was. Otherwise the task is
    Blocked with its deadline in the wait queue, behind the waiters of the same or a
    better priority, and in the same step the hart is handed to the best ready task
    under a fresh ticket; no permit moves. *)
Theorem down_takes_or_waits (w : World) (q : Queues) (commit delivery : bool)
    (a timeout_ms deadline : Z) (st : SemState) :
  semaphores w q → w_sems w !! a = Some st →
  (sem_count st = 0 → timeout_ms ≠ 0 → delivery = true → lock_depth w = 0 → may_block w) →
  wp (down_timeout commit delivery a timeout_ms deadline)
    (λ r w', down_outcome w w' q commit delivery a timeout_ms deadline st r) w.
Proof. apply down_timeout_spec. Qed.

(** The one permit is taken; the next call blocks and hands the hart to task 4. *)
Definition taken_semaphore : World := counted 4096 (-1) with_semaphore.

Lemma taken_semaphore_semaphores : semaphores taken_semaphore ready_three_queues.
Proof.
  apply (take_spec with_semaphore ready_three_queues 4096 (SemState_new 1));
    [apply with_semaphore_semaphores|by vm_compute|done].
Qed.

Lemma down_takes_or_waits_witness :
  wp (down_timeout true true 4096 50 57) (λ r w', down_outcome taken_semaphore w' ready_three_queues
    true true 4096 50 57 (SemState_new 0) r) taken_semaphore ∧
  (si_target <$> match run (down_timeout true true 4096 50 57) taken_semaphore with
                 | Some (Ok (_, i), _) => i | _ => None end) = Some (mkRef 4 1).
Proof.
  split; [|by vm_compute]. apply down_takes_or_waits.
  - apply taken_semaphore_semaphores.
  - by vm_compute.
  - intros _ _ _ _. split; by vm_compute.
Defined.

(** C21: the count has a ceiling the code does not guard. A post that finds no
    waiter and 2^31 - 1 permits overflows the [i32] count: the operation, which
    reports errors everywhere else, panics. *)
Theorem post_overflows (w : World) (q : Queues) (a now depth : Z) (st : SemState) :
  semaphores w q → w_sems w !! a = Some st → sem_count st = i32_max →
  up a now depth w = Fault Panicked.
Proof.
  intros [Ho Hso Hse Hgr] Hst Hmax. pose proof (owned_shape w q None Ho) as Hs.
  assert (valid w (QSem a)) as Hv by (by exists st).
  assert (q (QSem a) = []) as Hnil by (apply (sems_no_lost_wakeup w q Hse a st); [done|rewrite Hmax; done]).
  assert (sem_wait_head st = NIL) as Hhead.
  { pose proof (queues_head w q (QSem a) (proj1 Ho) Hv) as Hh. unfold hd_of in Hh. by rewrite Hst, Hnil in Hh. }
  unfold up, release_semaphore_locked, get_head, sem_at, mbind, M_bind, gets, mret, M_ret.
  by rewrite Hst, Hhead, Z.eqb_refl, Hst, Hmax.
Qed.

Definition full_semaphore : World := with_sem 4096 i32_max ready_three.

Lemma post_overflows_witness :
  w_sems full_semaphore !! 4096 = Some (SemState_new i32_max) ∧ up 4096 7 0 full_semaphore = Fault Panicked.
Proof.
  split; [by vm_compute|].
  apply (post_overflows full_semaphore ready_three_queues 4096 7 0 (SemState_new i32_max)).
  - apply semaphores_with_sem; [apply ready_three_semaphores|by vm_compute|done|by vm_compute].
  - by vm_compute.
  - done.
Defined.
