(* ===== verification/Slide.v ===== *)
(** * Moving a record update past a priority walk

    An operation that gives up a mutex wait first returns the donation of the waiter
    and then clears the waiter's record. The walk that returns the donation never
    looks at that waiter: it visits the owners ahead of it, and the wait-for graph is
    acyclic. So the update can be moved in front of the walk ([wp_slide]), where the
    ownership invariant holds again. *)

From S2P Require Import Prelude Effects Budget Contract Config Context Reservation.
From S2P Require Import Tcb Store Chain Ready Wait Switch Invariant Inherit Sync.

Lemma alter_at_comm {A} (f g : A → A) l i j :
  (i = j → ∀ t, f (g t) = g (f t)) → alter_at f (alter_at g l j) i = alter_at g (alter_at f l i) j.
Proof.
  revert i j. induction l as [|x l IH]; intros i j H; simpl; [done|].
  destruct (Z.eqb_spec j 0) as [Ej|Ej], (Z.eqb_spec i 0) as [Ei|Ei]; simpl;
    rewrite ?(proj2 (Z.eqb_eq _ _) Ei), ?(proj2 (Z.eqb_eq _ _) Ej), ?(proj2 (Z.eqb_neq _ _) Ei),
      ?(proj2 (Z.eqb_neq _ _) Ej); try done.
  - rewrite H; [done|congruence].
  - f_equal. apply IH. intros E. apply H. lia.
Qed.

(** An update that keeps what a priority walk reads of a task and commutes with what
    it writes. *)
Record inert (g : Tcb → Tcb) : Prop := {
  inert_set_next t v : g (t <| t_next := v |>) = (g t) <| t_next := v |>;
  inert_set_priority t v : g (t <| t_priority := v |>) = (g t) <| t_priority := v |>;
  inert_set_inherited t h :
    g (t <| t_inherited_waiters ::= h |>) = (g t) <| t_inherited_waiters ::= h |>;
  inert_next t : t_next (g t) = t_next t;
  inert_priority t : t_priority (g t) = t_priority t;
  inert_state t : t_state (g t) = t_state t;
  inert_waiting_sem t : t_waiting_sem (g t) = t_waiting_sem t;
  inert_inherited t : t_inherited_waiters (g t) = t_inherited_waiters t;
}.

Section Slide.
  #[local] Set Default Proof Using "All".
  (** The updated task, the update, and the wait-for graph during the walk. *)
  Context (x : Z) (g : Tcb → Tcb) (waiting : Z → Z) (owner : Z → option Z) (g_inert : inert g).
  #[local] Hint Resolve inert_next inert_priority inert_state inert_waiting_sem inert_inherited : core.

Record graph (w : World) : Prop := {
    graph_length : Z.of_nat (length (s_tasks (w_sched w))) = TASK_SLOT_COUNT;
    graph_waiting i : t_waiting_mutex (T w i) = waiting i;
    graph_owner a : mtx_owner <$> w_mutexes w !! a = owner a;
  }.

  (** [m] does the same whether the update comes before or after it. *)
Definition slides {A} (m : M World A) : Prop := ∀ w, graph w →
    match m w with
    | Done (a, w') => m (upd_task x g w) = Done (a, upd_task x g w') ∧ graph w'
    | Fault e => m (upd_task x g w) = Fault e
    end.

Lemma slides_ret {A} (a : A) : slides (mret a).
  Proof. by intros w Hw. Qed.

Lemma slides_fail {A} e : slides (fail e : M World A).
  Proof. by intros w Hw. Qed.

Lemma slides_bind {A B} (m : M World A) (k : A → M World B) :
    slides m → (∀ a, slides (k a)) → slides (m ≫= k).
  Proof.
    intros Hm Hk w Hw. specialize (Hm w Hw). unfold mbind, M_bind.
    destruct (m w) as [[a w']|e]; [|by rewrite Hm]. destruct Hm as [-> Hw']. by apply Hk.
  Qed.

Lemma slides_when b (m : M World unit) : slides m → slides (when b m).
  Proof. intros Hm. destruct b; [done|apply slides_ret]. Qed.

Lemma slides_assert b : slides (assert_ b).
  Proof. destruct b; [apply slides_ret|apply slides_fail]. Qed.

Lemma slides_expect {A} (o : option A) : slides (expect o).
  Proof. destruct o; [apply slides_ret|apply slides_fail]. Qed.

Lemma slides_gets {A} (f : World → A) : (∀ w, f (upd_task x g w) = f w) → slides (gets f).
  Proof. intros Hf w Hw. unfold gets. by rewrite Hf. Qed.

Lemma slides_sched_gets {A} (f : Sched → A) :
    (∀ s h, f (s <| s_tasks ::= h |>) = f s) → slides (sched_gets f).
  Proof. intros Hf. apply slides_gets. intros w. apply Hf. Qed.

Lemma slides_task_at i :
    i ≠ x → slides (task_at i).
  Proof.
    intros Hne w Hw. unfold task_at, sched_gets, mbind, M_bind, gets. simpl.
    rewrite idx_alter_ne by congruence. by destruct (idx _ i).
  Qed.

Lemma slides_tget {A} (f : Tcb → A) i : (∀ t, f (g t) = f t) → slides (tget f i).
  Proof.
    intros Hf w Hw. unfold tget, task_at, sched_gets, mbind, M_bind, gets. simpl.
    destruct (decide (i = x)) as [->|Hne].
    - rewrite idx_alter_eq. destruct (idx _ x); simpl; [by rewrite Hf|done].
    - rewrite idx_alter_ne by congruence. by destruct (idx _ i).
  Qed.

Lemma slides_set_task i h :
    (∀ t, h (g t) = g (h t)) → (∀ t, t_waiting_mutex (h t) = t_waiting_mutex t) → slides (set_task i h).
  Proof.
    intros Hc Hh w Hw. unfold set_task, task_at, sched_gets, mbind, M_bind, gets, modify. simpl.
    assert (upd_task i h (upd_task x g w) = upd_task x g (upd_task i h w)) as Hcomm.
    { destruct w as [s ss ms]. exact (f_equal (λ ts, mkWorld (s <| s_tasks := ts |>) ss ms)
        (alter_at_comm h g (s_tasks s) i x (λ _, Hc))). }
    assert (graph (upd_task i h w)) as Hg.
    { destruct Hw as [H1 H2 H3]. split; [simpl; by rewrite length_alter_at| |done].
      intros j. rewrite <-H2. by apply T_upd_field. }
    destruct (decide (i = x)) as [->|Hne].
    - rewrite idx_alter_eq. destruct (idx _ x); simpl; [by rewrite Hcomm|done].
    - rewrite idx_alter_ne by congruence. destruct (idx _ i); simpl; [by rewrite Hcomm|done].
  Qed.

Lemma slides_bump f `{!Field f} : slides (bump f).
  Proof. intros w [H1 H2 H3]. by destruct w as [[]]. Qed.

Lemma slides_get_head id : slides (get_head id).
  Proof.
    destruct id; simpl; unfold sem_at, mutex_at; repeat first
      [ apply slides_bind; [|intros] | apply slides_sched_gets | apply slides_gets | apply slides_expect
      | apply slides_ret | apply slides_fail | case_match | done ].
  Qed.

Lemma slides_get_tail id : slides (get_tail id).
  Proof.
    destruct id; simpl; unfold sem_at, mutex_at; repeat first
      [ apply slides_bind; [|intros] | apply slides_sched_gets | apply slides_gets | apply slides_expect
      | apply slides_ret | apply slides_fail | case_match | done ].
  Qed.

Lemma slides_modify (h : World → World) :
    (∀ w, h (upd_task x g w) = upd_task x g (h w)) → (∀ w, graph w → graph (h w)) → slides (modify h).
  Proof. intros Hc Hg w Hw. unfold modify. rewrite Hc. auto. Qed.

Lemma owner_alter h a b (m : gmap Z MutexState) : (∀ st, mtx_owner (h st) = mtx_owner st) →
    mtx_owner <$> alter h a m !! b = mtx_owner <$> m !! b.
  Proof.
    intros Hh. destruct (decide (b = a)) as [->|Hne]; [|by rewrite lookup_alter_ne].
    rewrite lookup_alter_eq. destruct (m !! a); simpl; [by rewrite Hh|done].
  Qed.

Lemma graph_put w w' :
    s_tasks (w_sched w') = s_tasks (w_sched w) →
    (∀ a, mtx_owner <$> w_mutexes w' !! a = mtx_owner <$> w_mutexes w !! a) → graph w → graph w'.
  Proof.
    intros Ht Hm [H1 H2 H3]. split; [by rewrite Ht| |intros a; by rewrite Hm].
    intros i. rewrite <-H2. unfold T. by rewrite Ht.
  Qed.

Lemma slides_set_head id v : slides (set_head id v).
  Proof.
    apply slides_bind; [apply slides_get_head|intros _]. apply slides_modify.
    - intros [s ss ms]. by destruct id.
    - intros w Hw. apply (graph_put w); [by destruct id| |done]. intros a. destruct id; try done.
      by apply owner_alter.
  Qed.

Lemma slides_set_tail id v : slides (set_tail id v).
  Proof.
    apply slides_bind; [apply slides_get_tail|intros _]. apply slides_modify.
    - intros [s ss ms]. by destruct id.
    - intros w Hw. apply (graph_put w); [by destruct id| |done]. intros a. destruct id; try done.
      by apply owner_alter.
  Qed.

Lemma slides_set_next i v : slides (set_next i v).
  Proof. apply slides_set_task; [|done]. intros t. symmetry. by apply inert_set_next. Qed.

  (** ** The queue operations *)

Ltac slide1 :=
    lazymatch goal with
    | |- slides (mret _) => apply slides_ret
    | |- slides (fail _) => apply slides_fail
    | |- slides (when _ _) => apply slides_when
    | |- slides (assert_ _) => apply slides_assert
    | |- slides (expect _) => apply slides_expect
    | |- slides (set_head _ _) => apply slides_set_head
    | |- slides (set_tail _ _) => apply slides_set_tail
    | |- slides (get_head _) => apply slides_get_head
    | |- slides (get_tail _) => apply slides_get_tail
    | |- slides (set_next _ _) => apply slides_set_next
    | |- slides (bump _) => apply slides_bump
    | |- slides (sched_gets _) => apply slides_sched_gets; done
    | |- slides (tget _ _) => apply slides_tget; solve [auto]
    | |- slides (set_task _ _) => apply slides_set_task; [intros; symmetry;
        by first [apply inert_set_next | apply inert_set_priority | apply inert_set_inherited]|done]
    | |- slides (_ ≫= _) => apply slides_bind; [|intros ?]
    | |- slides (match ?b with _ => _ end) => destruct b
    end.
Ltac slide := repeat slide1.

Lemma slides_remove_loop n id task previous current : slides (remove_loop n id task previous current).
  Proof. revert previous current. induction n as [|n IH]; intros; simpl; slide; apply IH. Qed.

Lemma slides_remove_from id task : slides (remove_from id task).
  Proof. unfold remove_from. slide. apply slides_remove_loop. Qed.

Lemma slides_enqueue_find fuel p previous current : slides (enqueue_find fuel p previous current).
  Proof. revert previous current. induction fuel as [|n IH]; intros; simpl; slide; apply IH. Qed.

Lemma slides_enqueue id task : slides (enqueue_by_priority id task).
  Proof. unfold enqueue_by_priority. slide. apply slides_enqueue_find. Qed.

Lemma slides_remove_ready fuel task p previous current :
    slides (ready_remove_loop fuel task p previous current).
  Proof. revert previous current. induction fuel as [|n IH]; intros; simpl; slide; apply IH. Qed.

Lemma slides_ready_remove task : slides (ready_remove task).
  Proof. unfold ready_remove, ready_priority. slide. apply slides_remove_ready. Qed.

Lemma slides_ready_scan n task current : slides (ready_scan n task current).
  Proof. revert current. induction n as [|n IH]; intros; simpl; slide; apply IH. Qed.

Lemma slides_ready_contains task : slides (ready_contains task).
  Proof.
    unfold ready_contains. induction priorities as [|p ps IH]; cbn [ready_contains_from]; slide;
      [apply slides_ready_scan|apply IH].
  Qed.

Lemma slides_ready_push i : slides (ready_push i).
  Proof. unfold ready_push, ready_priority. slide. Qed.

  (** ** The walk *)

Lemma slides_set_effective i p : slides (set_effective_priority i p).
  Proof.
    unfold set_effective_priority, remove_waiter, enqueue_waiter. slide;
      first [apply slides_ready_contains | apply slides_ready_remove | apply slides_ready_push
        | apply slides_remove_from | apply slides_enqueue].
  Qed.

Lemma slides_alter_inherited f o p : slides (alter_inherited f o p).
  Proof. unfold alter_inherited. slide. Qed.

  (** The owners from [i] on. *)
Inductive ahead : Z → Z → Prop :=
  | ahead_here i : ahead i i
  | ahead_step i o j : waiting i ≠ 0 → owner (waiting i) = Some o → o ≠ NIL → ahead o j → ahead i j.

Lemma slides_bind_result {A B} (m : M World A) (k : A → M World B) :
    slides m → (∀ a w w', graph w → m w = Done (a, w') → graph w' →
      match k a w' with
      | Done (b, w2) => k a (upd_task x g w') = Done (b, upd_task x g w2) ∧ graph w2
      | Fault e => k a (upd_task x g w') = Fault e
      end) → slides (m ≫= k).
  Proof.
    intros Hm Hk w Hw. specialize (Hm w Hw). unfold mbind, M_bind.
    destruct (m w) as [[a w']|e] eqn:E; [|by rewrite Hm]. destruct Hm as [-> Hw']. by apply (Hk a w).
  Qed.

Lemma tget_graph w w' i a : graph w → tget t_waiting_mutex i w = Done (a, w') → a = waiting i.
  Proof.
    intros [_ H _]. specialize (H i). revert H.
    unfold tget, task_at, sched_gets, mbind, M_bind, gets, T, at_. simpl.
    destruct (idx _ i); simpl; [|done]. intros <- [= <- <-]. done.
  Qed.

Lemma mutex_at_graph w w' a st : graph w → mutex_at a w = Done (st, w') → owner a = Some (mtx_owner st).
  Proof.
    intros [_ _ H]. specialize (H a). revert H. unfold mutex_at, mbind, M_bind, gets. simpl.
    destruct (w_mutexes w !! a); simpl; [|done]. by intros <- [= <- _].
  Qed.

Lemma slides_mutex_at a : slides (mutex_at a).
  Proof. unfold mutex_at. apply slides_bind; [by apply slides_gets|intros ss]. slide. Qed.

Lemma slides_refresh fuel i depth : ¬ ahead i x → slides (refresh_from fuel i depth).
  Proof.
    revert i depth. induction fuel as [|fuel IH]; intros i depth Hx; cbn [refresh_from]; [apply slides_fail|].
    assert (i ≠ x) as Hne by (intros ->; apply Hx; constructor).
    apply slides_bind; [apply slides_assert|intros _]. apply slides_bind; [by apply slides_task_at|intros t].
    destruct (t_priority t =? inherited_priority t); [apply slides_ret|].
    apply slides_bind; [apply slides_set_effective|intros _]. apply slides_bind_result.
    { apply slides_bind; [by apply slides_task_at|intros ?; apply slides_ret]. }
    intros a w w0 Hw Ha Hw0. apply (tget_graph w w0 i a Hw) in Ha as ->. revert w0 Hw0.
    destruct (Z.eqb_spec (waiting i) 0) as [E|E]; cbn [negb when]; [apply slides_ret|].
    apply slides_bind; [apply slides_remove_from|intros _]. apply slides_bind; [apply slides_enqueue|intros _].
    apply slides_bind_result; [apply slides_mutex_at|].
    intros st w1 w2 Hw1 Hst Hw2. apply (mutex_at_graph w1 w2 _ st Hw1) in Hst. revert w2 Hw2.
    destruct (Z.eqb_spec (mtx_owner st) NIL) as [En|En]; cbn [negb when]; [apply slides_ret|].
    unfold replace_inheritance_with. case_match; [apply slides_ret|].
    apply slides_bind; [apply slides_alter_inherited|intros _].
    apply slides_bind; [apply slides_alter_inherited|intros _]. apply IH. intros Hah. apply Hx.
    by eapply ahead_step.
  Qed.

Lemma slides_remove_inheritance o p : ¬ ahead o x → slides (remove_inheritance o p).
  Proof.
    intros Hx. unfold remove_inheritance. apply slides_bind; [apply slides_alter_inherited|intros _].
    by apply slides_refresh.
  Qed.

Lemma slides_for_waiters fuel waiter body : (∀ y, slides (body y)) → slides (for_waiters fuel waiter body).
  Proof. intros Hb. revert waiter. induction fuel as [|n IH]; intros; simpl; slide; [apply Hb|apply IH]. Qed.

  (** The update may come first. *)
Lemma wp_slide {A B} (m : M World A) (k : A → M World B) Q w :
    slides m → graph w → slot_in x →
    wp (set_task x g ;; a ← m; k a) Q w → wp (a ← m; set_task x g ;; k a) Q w.
  Proof.
    intros Hm Hw Hx H. specialize (Hm w Hw). revert H. unfold wp, mbind, M_bind, set_task, task_at, sched_gets.
    assert (∀ w, graph w → is_Some (idx (s_tasks (w_sched w)) x)) as Hidx.
    { intros w' [Hl _ _]. apply idx_is_Some. unfold in_range, slot_in in *. lia. }
    unfold mbind, M_bind, gets, modify. destruct (Hidx w Hw) as [t ->]. simpl.
    destruct (m w) as [[a w']|e]; [|by rewrite Hm]. destruct Hm as [-> Hw'].
    destruct (Hidx w' Hw') as [t' ->]. done.
  Qed.
End Slide.
