(* ===== verification/Lean.v ===== *)
(** * Donations in transit ([src/runtime/scheduler.rs], [src/runtime/sync.rs])

    While a mutex changes hands, the donation counts differ from the wait-for graph
    by what has already been moved. [leaning w δ exc] is the inheritance invariant
    with that difference [δ] made explicit; [add_inheritance] and
    [remove_inheritance] change it by one, and every task runs at the priority its
    counts give it all the time. *)

From stdpp Require Import sorting.
From S2P Require Import Prelude Effects Budget Contract Config Context Reservation.
From S2P Require Import Tcb Store Chain Ready Wait Switch Invariant Inherit Donation.

Record leaning (w : World) (δ : Z → Z → Z) (exc : option Z) : Prop := {
  leaning_base o : slot_in o → 0 <= t_base_priority (T w o) < PRIORITY_LEVELS;
  leaning_length o : slot_in o → length (t_inherited_waiters (T w o)) = 32%nat;
  leaning_count o p : slot_in o → 0 <= p < PRIORITY_LEVELS →
    idx (t_inherited_waiters (T w o)) p = Some (donated w o p + δ o p);
  leaning_effective o : slot_in o → exc ≠ Some o → t_priority (T w o) = inherited_priority (T w o);
  leaning_refs : mutex_refs w;
  leaning_acyclic : acyclic w;
}.

(** The difference of one count. *)
Definition at_one (o p n : Z) (o' p' : Z) : Z := n * indicator (o' = o ∧ p' = p).

Lemma at_one_eq o p n : at_one o p n o p = n.
Proof. unfold at_one. rewrite indicator_true by done. lia. Qed.

Lemma at_one_ne o p n o' p' : ¬ (o' = o ∧ p' = p) → at_one o p n o' p' = 0.
Proof. intros H. unfold at_one. rewrite indicator_false by done. lia. Qed.

Lemma leaning_zero w exc : leaning w (λ _ _, 0) exc ↔ inheritance w exc.
Proof.
  split.
  - intros [H1 H2 H3 H4 H5 H6]. split; try done. split; [done|]. intros o p Ho Hp. rewrite H3 by done. f_equal. lia.
  - intros [H1 [H2 H3] H4 H5 H6]. split; try done. intros o p Ho Hp. rewrite H3 by done. f_equal. lia.
Qed.

Lemma leaning_delta w δ δ' exc :
  (∀ o p, slot_in o → 0 <= p < PRIORITY_LEVELS → δ' o p = δ o p) → leaning w δ exc → leaning w δ' exc.
Proof.
  intros E [H1 H2 H3 H4 H5 H6]. split; try done. intros o p Ho Hp. rewrite H3 by done. by rewrite E.
Qed.

Lemma leaning_inheritance w δ exc :
  (∀ o p, slot_in o → 0 <= p < PRIORITY_LEVELS → δ o p = 0) → leaning w δ exc → inheritance w exc.
Proof. intros E H. apply leaning_zero. eapply leaning_delta; [|done]. intros. symmetry. auto. Qed.

(** What the invariant reads. *)
Record same_donors (w w' : World) : Prop := {
  donors_base i : t_base_priority (T w' i) = t_base_priority (T w i);
  donors_priority i : t_priority (T w' i) = t_priority (T w i);
  donors_inherited i : t_inherited_waiters (T w' i) = t_inherited_waiters (T w i);
  donors_waiting i : t_waiting_mutex (T w' i) = t_waiting_mutex (T w i);
  donors_owner a : mtx_owner <$> w_mutexes w' !! a = mtx_owner <$> w_mutexes w !! a;
}.

Lemma same_donors_owner_of w w' i : same_donors w w' → owner_of w' i = owner_of w i.
Proof.
  intros [_ _ _ H4 H5]. unfold owner_of. rewrite H4. case_match; [done|].
  specialize (H5 (t_waiting_mutex (T w i))).
  destruct (w_mutexes w' !! _), (w_mutexes w !! _); simpl in *; try done. by injection H5.
Qed.

Lemma same_donors_donated w w' o p : same_donors w w' → donated w' o p = donated w o p.
Proof.
  intros H. apply tally_ext; intros i _.
  - intros E. rewrite (same_donors_owner_of w w') by done. split; [done|]. by apply H.
  - by rewrite (same_donors_owner_of w w').
Qed.

Lemma same_donors_acyclic w w' :
  (∀ i, owner_of w' i = owner_of w i) → acyclic w → acyclic w'.
Proof.
  intros H Hac i Hi. apply (Hac i).
  assert (∀ i j, tc (waits_for w') i j → tc (waits_for w) i j) as Hsub; [|by apply Hsub].
  clear i Hi. induction 1 as [i j Hij|i j k Hij _ IH].
  - apply tc_once. apply waits_for_owner. rewrite <-H. by apply waits_for_owner.
  - eapply tc_l; [|done]. apply waits_for_owner. rewrite <-H. by apply waits_for_owner.
Qed.

Lemma same_donors_refs w w' : same_donors w w' → mutex_refs w → mutex_refs w'.
Proof.
  intros [_ _ _ H4 H5] [R1 R2]. split.
  - intros i Hi. rewrite H4. intros Hne. destruct (R1 i Hi Hne) as [st Hst].
    specialize (H5 (t_waiting_mutex (T w i))). rewrite Hst in H5. by destruct (w_mutexes w' !! _).
  - intros a st Hst Hn. specialize (H5 a). rewrite Hst in H5.
    destruct (w_mutexes w !! a) as [st0|] eqn:E; [|done]. injection H5 as E1. rewrite E1 in Hn |- *.
    by apply (R2 a st0).
Qed.

Lemma leaning_same w w' δ exc : same_donors w w' → leaning w δ exc → leaning w' δ exc.
Proof.
  intros Hd [H1 H2 H3 H4 H5 H6]. pose proof Hd as [D1 D2 D3 D4 D5]. split.
  - intros o Ho. rewrite D1. auto.
  - intros o Ho. rewrite D3. auto.
  - intros o p Ho Hp. rewrite D3, (same_donors_donated w w') by done. auto.
  - intros o Ho Hne. rewrite D2, H4 by done. unfold inherited_priority. by rewrite D1, D3.
  - by apply (same_donors_refs w).
  - apply (same_donors_acyclic w); [|done]. intros i. by apply same_donors_owner_of.
Qed.

(** ** One count changes *)

Definition bumped_count (o p c : Z) (t : Tcb) : Tcb := t <| t_inherited_waiters ::= λ l, alter_at (λ _, c) l p |>.

Lemma alter_leaning w q d f o p δ n (Q : unit → World → Prop) :
  owned w q d → slot_in o → 0 <= p < PRIORITY_LEVELS → leaning w δ None →
  f (donated w o p + δ o p) = Some (donated w o p + δ o p + n) →
  (let w' := upd_task o (bumped_count o p (donated w o p + δ o p + n)) w in
   owned w' q d → leaning w' (λ o' p', δ o' p' + at_one o p n o' p') (Some o) → Q tt w') →
  wp (alter_inherited f o p) Q w.
Proof.
  intros Hw Ho Hp [H1 H2 H3 H4 H5 H6] Hf HQ. pose proof (owned_shape w q d Hw) as Hs.
  eapply (alter_inherited_spec w q d f o p); [done|done|by apply H3|done|].
  intros w' Hw'. apply HQ; [done|]. set (c := donated w o p + δ o p + n) in *.
  assert (same_but_priority w w') as Hsbp by apply sbp_upd_inherited.
  assert (∀ i, owner_of w' i = owner_of w i) as Hown by (intros i; by apply owner_of_sbp).
  assert (∀ o' p', donated w' o' p' = donated w o' p') as Hd.
  { intros o' p'. apply tally_ext; intros i _; rewrite ?Hown; [|done]. intros E. split; [done|].
    by apply T_upd_field. }
  assert (∀ j, j ≠ o → T w' j = T w j) as Hj by (intros j Hne; unfold w'; by rewrite T_upd_ne by done).
  assert (T w' o = bumped_count o p c (T w o)) as Ho' by (unfold w'; by rewrite T_upd_eq).
  change (leaning w' (λ o' p', δ o' p' + at_one o p n o' p') (Some o)). split.
  - intros o' Ho''. rewrite (sbp_field w w' Hsbp t_base_priority) by done. auto.
  - intros o' Ho''. destruct (decide (o' = o)) as [->|Hne]; [|rewrite Hj; auto].
    rewrite Ho'. simpl. rewrite length_alter_at. auto.
  - intros o' p' Ho'' Hp'. rewrite Hd. destruct (decide (o' = o)) as [->|Hne].
    + rewrite Ho'. simpl. erewrite idx_alter_const; [|by apply H3]. f_equal. case_decide as E.
      * subst. rewrite at_one_eq. unfold c. lia.
      * rewrite at_one_ne by tauto. lia.
    + rewrite Hj, H3 by done. rewrite at_one_ne by tauto. f_equal. lia.
  - intros o' Ho'' Hne. rewrite Hj by congruence. apply H4; done.
  - by apply (mutex_refs_sbp w).
  - by apply (acyclic_sbp w).
Qed.

(** ** The full walk: the counts come out exact *)

Lemma trail_nil w i : trail w [] i.
Proof. split; [apply NoDup_nil_2|]. intros v Hv. by apply elem_of_nil in Hv. Qed.

Lemma refresh_spec w q d o :
  owned w q d → sorted_all w q → inheritance w (Some o) → slot_in o →
  wp (refresh_inherited_priority o 0) (λ _ w', ∃ q', settled w w' q q' d None) w.
Proof.
  intros. apply (refresh_from_spec 18 w q d o []); try done. apply trail_nil.
Qed.

Lemma settled_from w w1 w' q q' d :
  same_but_priority w w1 → settled w1 w' q q' d None → settled w w' q q' d None.
Proof. intros H [H1 H2 H3 H4 H5]. split; try done. by eapply sbp_trans. Qed.

Lemma sorted_all_sbp w w' q : (∀ j, t_priority (T w' j) = t_priority (T w j)) → sorted_all w q → sorted_all w' q.
Proof. intros E H a. destruct (H a). split; (eapply sorted_waits_ext; [|done]); intros; apply E. Qed.

Lemma donated_range w o p : 0 <= donated w o p <= 17.
Proof. apply tally_bound. Qed.

Lemma remove_inheritance_spec w q d o p :
  owned w q d → sorted_all w q → slot_in o → 0 <= p < PRIORITY_LEVELS → leaning w (at_one o p 1) None →
  wp (remove_inheritance o p) (λ _ w', ∃ q', settled w w' q q' d None) w.
Proof.
  intros Hw Hso Ho Hp Hl. pose proof (donated_range w o p). unfold remove_inheritance. apply wp_bind.
  apply (alter_leaning w q d _ o p (at_one o p 1) (-1) _ Hw Ho Hp Hl).
  { rewrite at_one_eq. unfold checked_sub. by rewrite (proj2 (Z.leb_le _ _)) by lia. }
  intros w1 Hw1 Hl1. wp_apply (refresh_spec w1 q d o Hw1); [|..|done].
  - intros _ w' [q' H']. exists q'. eapply settled_from; [|done]. apply sbp_upd_inherited.
  - apply (sorted_all_sbp w); [|done]. intros j. by apply T_upd_field.
  - eapply leaning_inheritance; [|exact Hl1]. intros o' p' _ _. unfold at_one. lia.
Qed.

Lemma add_inheritance_spec w q d o p :
  owned w q d → sorted_all w q → slot_in o → 0 <= p < PRIORITY_LEVELS → leaning w (at_one o p (-1)) None →
  1 <= donated w o p →
  wp (add_inheritance o p) (λ _ w', ∃ q', settled w w' q q' d None) w.
Proof.
  intros Hw Hso Ho Hp Hl Hpos. pose proof (donated_range w o p). unfold add_inheritance. apply wp_bind.
  apply (alter_leaning w q d _ o p (at_one o p (-1)) 1 _ Hw Ho Hp Hl).
  { rewrite at_one_eq. unfold checked_add, u8_max. by rewrite (proj2 (Z.leb_le _ _)) by lia. }
  intros w1 Hw1 Hl1. go. set (w2 := w1 <| w_sched ::= _ |>).
  assert (owned w2 q d) as Hw2 by (by apply owned_sched).
  wp_apply (refresh_spec w2 q d o Hw2); [|..|done].
  - intros _ w' [q' H']. exists q'. eapply settled_from; [|done].
    apply (sbp_trans w w1); [apply sbp_upd_inherited|apply sbp_diagnostics].
  - apply (sorted_all_sbp w); [|done]. intros j.
    change (T w2 j) with (T w1 j). unfold w1. by apply T_upd_field.
  - eapply leaning_inheritance; [|apply (leaning_same w1); [by split|exact Hl1]].
    intros o' p' _ _. unfold at_one. lia.
Qed.

(** ** An owner that waits for nothing: the walk is one step *)

(** The outcome of moving one donation of the task [o] that waits for nothing. *)
Record nudged (w w' : World) (q q' : Queues) (d : option Z) (o : Z) (δ : Z → Z → Z) : Prop := {
  nudged_owned : owned w' q' d;
  nudged_sorted : sorted_all w' q';
  nudged_leaning : leaning w' δ None;
  nudged_rest : same_but_priority w w';
  nudged_mutexes a : q' (QMtx a) = q (QMtx a);
  nudged_sems a : q' (QSem a) ≡ₚ q (QSem a);
  nudged_others j : j ≠ o → t_priority (T w' j) = t_priority (T w j);
}.

Lemma nudged_trans w1 w2 w3 q1 q2 q3 d o δ1 δ2 :
  nudged w1 w2 q1 q2 d o δ1 → nudged w2 w3 q2 q3 d o δ2 → nudged w1 w3 q1 q3 d o δ2.
Proof.
  intros [_ _ _ R1 M1 S1 O1] [? ? ? R2 M2 S2 O2]. split; try done; [by eapply sbp_trans|..].
  - intros a. by rewrite M2.
  - intros a. by rewrite S2.
  - intros j Hj. by rewrite O2, O1.
Qed.

Lemma owner_of_free w i : t_waiting_mutex (T w i) = 0 → owner_of w i = NIL.
Proof. intros E. unfold owner_of. by rewrite E. Qed.

(** The new effective priority of [o] is in nobody's count. *)
Lemma leaning_settle w w' o δ v :
  leaning w δ (Some o) → slot_in o → t_waiting_mutex (T w o) = 0 → v = inherited_priority (T w o) →
  same_but_priority w w' → (∀ j, t_priority (T w' j) = if decide (j = o) then v else t_priority (T w j)) →
  (∀ j, t_inherited_waiters (T w' j) = t_inherited_waiters (T w j)) → leaning w' δ None.
Proof.
  intros [H1 H2 H3 H4 H5 H6] Ho Hwm Hv Hs Hp Hi. split.
  - intros o' Ho'. rewrite (sbp_field w w' Hs t_base_priority) by done. auto.
  - intros o' Ho'. rewrite Hi. auto.
  - intros o' p Ho' Hpr. rewrite Hi, (donated_moved w w' o o' p Ho Hs).
    + rewrite H3 by done. rewrite (owner_of_free w o Hwm). pose proof (slot_in_not_NIL o' Ho').
      rewrite !indicator_false by tauto. f_equal. lia.
    + intros j Hj. by rewrite Hp, decide_False.
  - intros o' Ho' _. rewrite Hp. assert (inherited_priority (T w' o') = inherited_priority (T w o')) as ->.
    { unfold inherited_priority. by rewrite Hi, (sbp_field w w' Hs t_base_priority). }
    case_decide; [by subst|]. apply H4; congruence.
  - by apply (mutex_refs_sbp w).
  - by apply (acyclic_sbp w).
Qed.

Lemma refresh_free w q d o δ :
  owned w q d → sorted_all w q → leaning w δ (Some o) → slot_in o → t_waiting_mutex (T w o) = 0 →
  wp (refresh_inherited_priority o 0) (λ _ w', ∃ q', nudged w w' q q' d o δ) w.
Proof.
  intros Hw Hso Hl Ho Hwm. pose proof (owned_shape w q d Hw) as Hs. pose proof Hl as [L1 L2 _ L4 _ _].
  unfold refresh_inherited_priority. cbn [refresh_from]. apply wp_bind, wp_assert; [done|]. go.
  set (v := inherited_priority (T w o)).
  assert (0 <= v < PRIORITY_LEVELS) as Hv by (apply inherited_priority_range; auto).
  destruct (Z.eqb_spec (t_priority (T w o)) v) as [E|E].
  { go. exists q. split; try done.
    apply (leaning_settle w w o δ v); try done. intros j. case_decide; [by subst|done]. }
  go. wp_apply (set_effective_spec w q d o v Hw Ho Hv E). intros _ w1 [q1 [R1 R2 R3 R4 R5 R6 R7]].
  assert (shape w1) as Hs1 by eauto with store. go.
  rewrite (sbp_field w w1 R4 t_waiting_mutex), Hwm by done. cbn [Z.eqb negb when]. go.
  exists q1. split; try done.
  - intros a. split; [apply R7; intros b; apply Hso|]. rewrite R5. apply (sorted_waits_ext w); [|apply Hso].
    intros i Hi. rewrite R2, decide_False; [done|]. intros ->. by apply (owned_no_mutex w q d o a) in Hi.
  - by apply (leaning_settle w w1 o δ v).
  - intros j Hj. by rewrite R2, decide_False.
Qed.

Lemma remove_inheritance_free w q d o p δ :
  owned w q d → sorted_all w q → slot_in o → t_waiting_mutex (T w o) = 0 → 0 <= p < PRIORITY_LEVELS →
  leaning w δ None → 1 <= donated w o p + δ o p →
  wp (remove_inheritance o p) (λ _ w', ∃ q', nudged w w' q q' d o (λ o' p', δ o' p' + at_one o p (-1) o' p')) w.
Proof.
  intros Hw Hso Ho Hwm Hp Hl Hpos. unfold remove_inheritance. apply wp_bind.
  apply (alter_leaning w q d _ o p δ (-1) _ Hw Ho Hp Hl).
  { unfold checked_sub. by rewrite (proj2 (Z.leb_le _ _)) by lia. }
  intros w1 Hw1 Hl1. assert (∀ j, t_priority (T w1 j) = t_priority (T w j)) as Hp1 by (intros j; by apply T_upd_field).
  wp_apply (refresh_free w1 q d o (λ o' p', δ o' p' + at_one o p (-1) o' p') Hw1);
    [|by apply (sorted_all_sbp w)|exact Hl1|done|by unfold w1; rewrite (T_upd_field t_waiting_mutex)].
  intros _ w' [q' [R1 R2 R3 R4 R5 R6 R7]]. exists q'. split; try done.
  - eapply sbp_trans; [|done]. apply sbp_upd_inherited.
  - intros j Hj. by rewrite R7, Hp1.
Qed.

Lemma add_inheritance_free w q d o p δ :
  owned w q d → sorted_all w q → slot_in o → t_waiting_mutex (T w o) = 0 → 0 <= p < PRIORITY_LEVELS →
  leaning w δ None → 0 <= donated w o p + δ o p < 255 →
  wp (add_inheritance o p) (λ _ w', ∃ q', nudged w w' q q' d o (λ o' p', δ o' p' + at_one o p 1 o' p')) w.
Proof.
  intros Hw Hso Ho Hwm Hp Hl Hpos. unfold add_inheritance. apply wp_bind.
  apply (alter_leaning w q d _ o p δ 1 _ Hw Ho Hp Hl).
  { unfold checked_add, u8_max. by rewrite (proj2 (Z.leb_le _ _)) by lia. }
  intros w1 Hw1 Hl1. assert (∀ j, t_priority (T w1 j) = t_priority (T w j)) as Hp1 by (intros j; by apply T_upd_field).
  go. set (w2 := w1 <| w_sched ::= _ |>). assert (owned w2 q d) as Hw2 by (by apply owned_sched).
  assert (same_but_priority w w2) as Hs2 by (apply (sbp_trans w w1); [apply sbp_upd_inherited|apply sbp_diagnostics]).
  wp_apply (refresh_free w2 q d o (λ o' p', δ o' p' + at_one o p 1 o' p') Hw2);
    [|by apply (sorted_all_sbp w)|by apply (leaning_same w1); [by split|]|done|by rewrite (sbp_field w w2 Hs2 t_waiting_mutex)].
  intros _ w' [q' [R1 R2 R3 R4 R5 R6 R7]]. exists q'. split; try done.
  - by eapply sbp_trans.
  - intros j Hj. rewrite R7 by done. apply Hp1.
Qed.

(** ** A wait begins or ends *)

(** The graph gains or loses the edge of the task [i]; the counts do not know yet. *)
Record rewired (w w' : World) (i : Z) : Prop := {
  rewired_base j : t_base_priority (T w' j) = t_base_priority (T w j);
  rewired_priority j : t_priority (T w' j) = t_priority (T w j);
  rewired_inherited j : t_inherited_waiters (T w' j) = t_inherited_waiters (T w j);
  rewired_others j : j ≠ i → owner_of w' j = owner_of w j;
  rewired_refs : mutex_refs w';
}.

Lemma leaning_rewired w w' i :
  slot_in i → inheritance w None → rewired w w' i → acyclic w' →
  leaning w' (λ o p, indicator (o = owner_of w i ∧ p = prio w i) - indicator (o = owner_of w' i ∧ p = prio w i)) None.
Proof.
  intros Hi [H1 [H2 H3] H4 H5 H6] [R1 R2 R3 R4 R5] Hac. split; try done.
  - intros o Ho. rewrite R1. auto.
  - intros o Ho. rewrite R3. auto.
  - intros o p Ho Hp. rewrite R3, H3 by done. f_equal. unfold donated.
    rewrite (tally_update (owner_of w) (prio w) (owner_of w') (prio w') i o p Hi).
    + unfold prio. rewrite R2. rewrite (indicator_ext (o = owner_of w i ∧ p = t_priority (T w i)) (owner_of w i = o ∧ t_priority (T w i) = p)) by naive_solver.
      rewrite (indicator_ext (o = owner_of w' i ∧ p = t_priority (T w i)) (owner_of w' i = o ∧ t_priority (T w i) = p)) by naive_solver. lia.
    + intros j _ Hj. split; [by apply R4|]. unfold prio. by rewrite R2.
  - intros o Ho _. rewrite R2, H4 by done. unfold inherited_priority. by rewrite R1, R3.
Qed.

Lemma leaning_unwait w w' i o :
  slot_in i → inheritance w None → rewired w w' i → owner_of w i = o → owner_of w' i = NIL →
  leaning w' (at_one o (prio w i) 1) None.
Proof.
  intros Hi Hinh Hr Ho Hn. eapply leaning_delta; [|apply (leaning_rewired w w' i Hi Hinh Hr)].
  - intros o' p Ho' _. cbv beta. unfold at_one. rewrite Ho, Hn. pose proof (slot_in_not_NIL o' Ho').
    rewrite (indicator_false (o' = NIL ∧ p = prio w i)) by tauto. lia.
  - intros j Hj. apply (inheritance_acyclic w None Hinh j).
    assert (∀ x y, tc (waits_for w') x y → tc (waits_for w) x y) as Hsub; [|by apply Hsub].
    assert (∀ x y, waits_for w' x y → waits_for w x y) as Hedge.
    { intros x y [E Hy]%waits_for_owner. apply waits_for_owner. split; [|done].
      destruct (decide (x = i)) as [->|]; [congruence|]. by rewrite <-(rewired_others w w' i Hr). }
    clear Hj. induction 1; [by apply tc_once, Hedge|eapply tc_l; [by apply Hedge|done]].
Qed.

Lemma leaning_wait w w' i o :
  slot_in i → inheritance w None → rewired w w' i → owner_of w i = NIL → owner_of w' i = o → acyclic w' →
  leaning w' (at_one o (prio w i) (-1)) None.
Proof.
  intros Hi Hinh Hr Hn Ho Hac. eapply leaning_delta; [|by apply (leaning_rewired w w' i Hi Hinh Hr)].
  intros o' p Ho' _. cbv beta. unfold at_one. rewrite Ho, Hn. pose proof (slot_in_not_NIL o' Ho').
  rewrite (indicator_false (o' = NIL ∧ p = prio w i)) by tauto. lia.
Qed.
