(* ===== verification/Handoff.v ===== *)
(** * Handing a mutex to its next owner ([src/runtime/sync.rs])

    The loops of [release_mutex_locked] move the donations of all waiters from the
    old owner to the new one. Between the loops the counts differ from the wait-for
    graph by exactly the waiters that are still to be moved ([spread]). *)

From stdpp Require Import sorting.
From S2P Require Import Prelude Effects Budget Contract Config Context Reservation.
From S2P Require Import Tcb Store Chain Ready Wait Switch Invariant Inherit Donation Lean Sync.

(** ** Walking the waiters *)

Lemma for_waiters_rule (I : list Z → World → Queues → Prop) a l (body : Z → M World unit) :
  (∀ l1 w q, I l1 w q → queues w q ∧ q (QMtx a) = l) →
  (∀ l1 y l2 w q, l = l1 ++ y :: l2 → I l1 w q → wp (body y) (λ _ w', ∃ q', I (l1 ++ [y]) w' q') w) →
  ∀ fuel l1 l2 w q, l = l1 ++ l2 → I l1 w q → (length l2 < fuel)%nat →
  wp (for_waiters fuel (default NIL (head l2)) body) (λ _ w', ∃ q', I l w' q') w.
Proof.
  intros HI Hbody fuel. induction fuel as [|fuel IH]; intros l1 l2 w q E Hw Hf; [lia|].
  cbn [for_waiters]. destruct (HI l1 w q Hw) as [Hq Hl]. destruct l2 as [|y l2].
  { cbn [head default]. rewrite Z.eqb_refl. go. exists q. by rewrite E, app_nil_r. }
  change (default NIL (head (y :: l2))) with y.
  assert (slot_in y) as Hy by (apply (queues_slot w q Hq (QMtx a)); rewrite Hl, E; set_solver).
  rewrite (proj2 (Z.eqb_neq _ _) (slot_in_not_NIL y Hy)). apply wp_bind.
  eapply wp_mono; [|by apply (Hbody l1 y l2 w q)]. intros _ w' [q' Hw'].
  destruct (HI _ w' q' Hw') as [Hq' Hl']. assert (shape w') as Hs' by (by eapply queues_shape). go.
  fold (nx w' y). assert (y ∈ q' (QMtx a)) as Hin by (rewrite Hl', E; set_solver).
  rewrite (queues_next_in w' q' (QMtx a) l1 y l2 Hq'); [|by eapply queues_valid|by rewrite Hl'].
  apply (IH (l1 ++ [y]) l2 w' q'); [by rewrite <-app_assoc|done|]. simpl in Hf. lia.
Qed.

(** ** Counting the waiters of one mutex *)

Lemma zsum_plus {A} (f g : A → Z) l : zsum (λ x, f x + g x) l = zsum f l + zsum g l.
Proof. induction l as [|x l IH]; simpl; [done|]. unfold zsum in *. lia. Qed.

Lemma zsum_zero {A} (f : A → Z) l : (∀ x, x ∈ l → f x = 0) → zsum f l = 0.
Proof. intros H. rewrite (zsum_ext f (λ _, 0)) by done. clear. induction l; simpl; lia. Qed.

Lemma zsum_single (P : Z → Prop) `{!∀ i, Decision (P i)} x l :
  NoDup l → x ∈ l → zsum (λ i, indicator (i = x ∧ P i)) l = indicator (P x).
Proof.
  intros Hnd Hx. rewrite (zsum_update (λ _, 0) (λ i, indicator (i = x ∧ P i)) l x Hnd Hx).
  - rewrite zsum_zero by done. rewrite (indicator_ext (x = x ∧ P x) (P x)) by tauto. lia.
  - intros j _ Hj. by rewrite indicator_false by tauto.
Qed.

(** Summing over the slots that are in [l] is summing over [l]. *)
Lemma zsum_members (P : Z → Prop) `{!∀ i, Decision (P i)} l :
  NoDup l → (∀ i, i ∈ l → slot_in i) →
  zsum (λ i, indicator (i ∈ l ∧ P i)) slots = zsum (λ i, indicator (P i)) l.
Proof.
  induction l as [|x l IH]; intros Hnd Hsl.
  { apply zsum_zero. intros i _. apply indicator_false. set_solver. }
  apply NoDup_cons in Hnd as [Hx Hnd].
  change (zsum (λ i, indicator (P i)) (x :: l)) with (indicator (P x) + zsum (λ i, indicator (P i)) l).
  rewrite <-IH by (done || intros; apply Hsl; by right).
  rewrite <-(zsum_single P x slots); [|apply NoDup_range|apply slots_elem, Hsl; left].
  rewrite <-zsum_plus. apply zsum_ext. intros i _. destruct (decide (i = x)) as [->|Hne].
  - rewrite (indicator_false (x ∈ l ∧ P x)) by tauto.
    rewrite (indicator_ext (x ∈ x :: l ∧ P x) (x = x ∧ P x)) by set_solver. lia.
  - rewrite (indicator_false (i = x ∧ P i)) by tauto.
    rewrite (indicator_ext (i ∈ x :: l ∧ P i) (i ∈ l ∧ P i)) by set_solver. lia.
Qed.

(** The donations of the waiters [l], all to the task [o]. *)
Definition spread (o : Z) (l : list Z) (pr : Z → Z) (o' p : Z) : Z :=
  indicator (o' = o) * zsum (λ y, indicator (pr y = p)) l.

Lemma spread_snoc o l y pr o' p : spread o (l ++ [y]) pr o' p = spread o l pr o' p + at_one o (pr y) 1 o' p.
Proof.
  unfold spread, at_one. rewrite zsum_app. simpl. unfold indicator. repeat case_decide; try lia; exfalso; naive_solver.
Qed.

Lemma spread_app o l1 l2 pr o' p : spread o (l1 ++ l2) pr o' p = spread o l1 pr o' p + spread o l2 pr o' p.
Proof. unfold spread. rewrite zsum_app. lia. Qed.

Lemma spread_nonneg o l pr o' p : 0 <= spread o l pr o' p.
Proof.
  unfold spread. pose proof (indicator_range (o' = o)). assert (0 <= zsum (λ y, indicator (pr y = p)) l); [|nia].
  apply zsum_nonneg. intros j y _. apply indicator_range.
Qed.

Lemma spread_cons_pos o y l pr : 1 <= spread o (y :: l) pr o (pr y).
Proof.
  change (y :: l) with ([y] ++ l). rewrite spread_app. pose proof (spread_nonneg o l pr o (pr y)).
  unfold spread at 1. simpl. rewrite !indicator_true by done. lia.
Qed.

(** The waiters of one mutex are among the donors of its owner. *)
Lemma spread_donated w l o pr o' p :
  NoDup l → (∀ i, i ∈ l → slot_in i ∧ owner_of w i = o ∧ prio w i = pr i) →
  spread o l pr o' p <= donated w o' p.
Proof.
  intros Hnd Hl. unfold spread. pose proof (donated_range w o' p). destruct (decide (o' = o)) as [->|Hne].
  - rewrite indicator_true by done. rewrite Z.mul_1_l.
    rewrite <-(zsum_members (λ y, pr y = p) l Hnd) by (intros; by apply Hl).
    unfold donated, tally. assert (∀ f g : Z → Z, (∀ i, f i <= g i) → zsum f slots <= zsum g slots) as Hle.
    { intros f g H'. induction slots as [|i s IH]; simpl; [lia|]. specialize (H' i). unfold zsum in *. lia. }
    apply Hle. intros i. unfold indicator. repeat case_decide; try lia. destruct H0 as [Hi <-].
    destruct (Hl i Hi) as (_ & E1 & E2). exfalso. auto.
  - rewrite indicator_false by done. lia.
Qed.

(** ** The loops *)

(** The waiters [l] of the mutex [a] donate to [o], which waits for nothing. *)
Record donors (w : World) (q : Queues) (a o : Z) (l : list Z) (pr : Z → Z) : Prop := {
  donors_queue : q (QMtx a) = l;
  donors_slot : slot_in o;
  donors_free : t_waiting_mutex (T w o) = 0;
  donors_of y : y ∈ l → owner_of w y = o ∧ prio w y = pr y;
}.

Lemma donors_not_owner w q a o l pr y : donors w q a o l pr → y ∈ l → y ≠ o.
Proof.
  intros [_ H2 H3 H4] Hy ->. destruct (H4 o Hy) as [E _]. rewrite owner_of_free in E by done.
  by apply (slot_in_not_NIL o).
Qed.

Lemma donors_nudged w w' q q' d a o l pr δ :
  donors w q a o l pr → nudged w w' q q' d o δ → donors w' q' a o l pr.
Proof.
  intros Hd [N1 N2 N3 N4 N5 N6 N7]. pose proof Hd as [H1 H2 H3 H4]. split; [by rewrite N5|done|..].
  - by rewrite (sbp_field w w' N4 t_waiting_mutex).
  - intros y Hy. rewrite (owner_of_sbp w w' y N4). unfold prio. rewrite N7; [by apply H4|].
    by apply (donors_not_owner w q a o l pr).
Qed.

Section Loops.
  Context (w0 : World) (q0 : Queues) (a o : Z) (l : list Z) (δ0 : Z → Z → Z).
Let pr := prio w0.

Definition moving (n : Z) (l1 : list Z) (w : World) (q : Queues) : Prop :=
    nudged w0 w q0 q None o (λ o' p, δ0 o' p + n * spread o l1 pr o' p) ∧ donors w q a o l pr.

Lemma moving_start n :
    owned w0 q0 None → sorted_all w0 q0 → leaning w0 δ0 None → donors w0 q0 a o l pr → moving n [] w0 q0.
  Proof.
    intros. split; [split; try done|done]. eapply leaning_delta; [|done]. intros o' p _ _.
    unfold spread. simpl. lia.
  Qed.

Lemma moving_queue n' l1 w q : moving n' l1 w q → queues w q ∧ q (QMtx a) = l.
  Proof. intros [[Ho _ _ _ _ _ _] [Hq _ _ _]]. split; [apply Ho|done]. Qed.

Lemma moving_step n' l1 y w w' q q' :
    moving n' l1 w q →
    nudged w w' q q' None o (λ o' p, (δ0 o' p + n' * spread o l1 pr o' p) + at_one o (pr y) n' o' p) →
    moving n' (l1 ++ [y]) w' q'.
  Proof.
    intros [Hn Hd] Hn'. split; [|by eapply donors_nudged].
    pose proof (nudged_trans _ _ _ _ _ _ _ _ _ _ Hn Hn') as [N1 N2 N3 N4 N5 N6 N7]. split; try done.
    eapply leaning_delta; [|exact N3]. intros o' p _ _. cbv beta. rewrite spread_snoc. unfold at_one. lia.
  Qed.

Lemma moving_donors n' l1 y l2 w q :
    moving n' l1 w q → l = l1 ++ y :: l2 →
    slot_in y ∧ 0 <= pr y < PRIORITY_LEVELS ∧ prio w y = pr y ∧
    ∀ p, spread o l pr o p <= donated w o p.
  Proof.
    intros [[No _ _ _ _ _ _] [Hq Hsl Hfree Hof]] E.
    assert (∀ i, i ∈ l → slot_in i) as Hs by (intros i Hi; apply (queues_slot w q (proj1 No) (QMtx a)); by rewrite Hq).
    assert (y ∈ l) as Hy by (rewrite E; set_solver). destruct (Hof y Hy) as [_ Hpy].
    split; [auto|split; [|split; [done|]]].
    - rewrite <-Hpy. apply (owned_placed w q None (proj2 No) y). auto.
    - intros p. apply spread_donated; [rewrite <-Hq; by eapply queues_nodup, No|]. intros i Hi.
      split; [auto|by apply Hof].
  Qed.

Lemma remove_all_spec :
    owned w0 q0 None → sorted_all w0 q0 → leaning w0 δ0 None → donors w0 q0 a o l pr →
    (∀ p, δ0 o p = 0) →
    wp (for_waiters (S task_slots_nat) (default NIL (head l)) (λ waiter,
          priority ← tget t_priority waiter; remove_inheritance o priority))
      (λ _ w', ∃ q', moving (-1) l w' q') w0.
  Proof.
    intros Ho Hso Hl Hd Hδ. pose proof (moving_start (-1) Ho Hso Hl Hd) as Hstart.
    apply (for_waiters_rule (moving (-1)) a l _ (moving_queue (-1))) with (l1 := []) (q := q0); try done.
    - intros l1 y l2 w q E Hw. destruct (moving_donors _ l1 y l2 w q Hw E) as (Hy & Hpy & Epy & Hsp).
      pose proof Hw as [[N1 N2 N3 N4 N5 N6 N7] [Hq Hsl Hfree Hof]]. assert (shape w) as Hs by eauto with store.
      go. fold (prio w y). rewrite Epy.
      wp_apply (remove_inheritance_free w q None o (pr y) _ N1 N2 Hsl Hfree Hpy N3).
      + intros _ w' [q' Hn]. exists q'. by apply (moving_step (-1) l1 y w w' q q').
      + cbv beta. rewrite Hδ. specialize (Hsp (pr y)). rewrite E, spread_app in Hsp.
        pose proof (spread_cons_pos o y l2 pr). lia.
    - rewrite <-(donors_queue _ _ _ _ _ _ Hd). pose proof (queue_length w0 q0 (QMtx a) (proj1 Ho)).
      change (S task_slots_nat) with 18%nat. lia.
  Qed.

Lemma add_all_spec :
    owned w0 q0 None → sorted_all w0 q0 → leaning w0 δ0 None → donors w0 q0 a o l pr →
    (∀ p, δ0 o p = - spread o l pr o p) →
    wp (for_waiters (S task_slots_nat) (default NIL (head l)) (λ waiter,
          priority ← tget t_priority waiter; add_inheritance o priority))
      (λ _ w', ∃ q', moving 1 l w' q') w0.
  Proof.
    intros Ho Hso Hl Hd Hδ. pose proof (moving_start 1 Ho Hso Hl Hd) as Hstart.
    apply (for_waiters_rule (moving 1) a l _ (moving_queue 1)) with (l1 := []) (q := q0); try done.
    - intros l1 y l2 w q E Hw. destruct (moving_donors _ l1 y l2 w q Hw E) as (Hy & Hpy & Epy & Hsp).
      pose proof Hw as [[N1 N2 N3 N4 N5 N6 N7] [Hq Hsl Hfree Hof]]. assert (shape w) as Hs by eauto with store.
      go. fold (prio w y). rewrite Epy.
      wp_apply (add_inheritance_free w q None o (pr y) _ N1 N2 Hsl Hfree Hpy N3).
      + intros _ w' [q' Hn]. exists q'. by apply (moving_step 1 l1 y w w' q q').
      + cbv beta. rewrite Hδ. specialize (Hsp (pr y)). pose proof (donated_range w o (pr y)).
        pose proof (spread_nonneg o l1 pr o (pr y)). rewrite E, spread_app in *.
        pose proof (spread_nonneg o (y :: l2) pr o (pr y)). lia.
    - rewrite <-(donors_queue _ _ _ _ _ _ Hd). pose proof (queue_length w0 q0 (QMtx a) (proj1 Ho)).
      change (S task_slots_nat) with 18%nat. lia.
  Qed.
End Loops.

(** ** The owner changes *)

Definition owned_by (a o' depth : Z) (w : World) : World :=
  w <| w_mutexes ::= alter (λ st, st <| mtx_owner := o' |> <| mtx_depth := depth |>) a |>.

Lemma owner_of_owned_by w a o' depth i :
  a ≠ 0 → is_Some (w_mutexes w !! a) →
  owner_of (owned_by a o' depth w) i = if decide (t_waiting_mutex (T w i) = a) then o' else owner_of w i.
Proof.
  intros Ha [st Hst]. unfold owner_of. change (T (owned_by a o' depth w) i) with (T w i). simpl.
  case_decide as E.
  - rewrite E, (proj2 (Z.eqb_neq a 0) Ha), lookup_alter_eq, Hst. done.
  - by rewrite lookup_alter_ne.
Qed.

Lemma queues_mutex_update w q a h :
  (∀ st, mtx_wait_head (h st) = mtx_wait_head st) → (∀ st, mtx_wait_tail (h st) = mtx_wait_tail st) →
  queues w q → queues (w <| w_mutexes ::= alter h a |>) q.
Proof.
  intros Hh Ht Hq. apply (queues_same w); [done|..].
  - by apply (shape_ext w); eauto with store.
  - intros [p|b|b]; simpl; try done. by rewrite lookup_alter_is_Some.
  - intros [p|b|b]; unfold hd_of; simpl; try done. destruct (decide (b = a)) as [->|];
      [rewrite lookup_alter_eq; destruct (w_mutexes w !! a); simpl; by rewrite ?Hh|by rewrite lookup_alter_ne].
  - intros [p|b|b]; unfold tl_of; simpl; try done. destruct (decide (b = a)) as [->|];
      [rewrite lookup_alter_eq; destruct (w_mutexes w !! a); simpl; by rewrite ?Ht|by rewrite lookup_alter_ne].
  - done.
Qed.

Lemma owned_mutex_update w q d a h :
  (∀ st, mtx_wait_head (h st) = mtx_wait_head st) → (∀ st, mtx_wait_tail (h st) = mtx_wait_tail st) →
  owned w q d → owned (w <| w_mutexes ::= alter h a |>) q d.
Proof.
  intros Hh Ht Ho. apply (owned_view w); [by split| |done]. apply queues_mutex_update; [done..|apply Ho].
Qed.

(** A store in which the waiters of [a] are [l]. *)
Definition waiters_are (w : World) (a : Z) (l : list Z) : Prop :=
  NoDup l ∧ (∀ i, i ∈ l → slot_in i) ∧ ∀ i, slot_in i → (t_waiting_mutex (T w i) = a ↔ i ∈ l).

Lemma owned_waiters w q d a : owned w q d → a ≠ 0 → waiters_are w a (q (QMtx a)).
Proof.
  intros [Hq Ho] Ha. split_and!; [by eapply queues_nodup|intros i; by apply (queues_slot w q Hq)|].
  intros i Hi. pose proof (owned_placed w q d Ho i Hi) as Hp. split.
  - intros <-. by apply (placed_mtx_home w q d i Hp).
  - intros Hin. by destruct (placed_mtx w q d i Hp a Hin) as (_ & ? & _).
Qed.

Lemma donated_owned_by w a o o' depth l st o1 p :
  waiters_are w a l → a ≠ 0 → w_mutexes w !! a = Some st → mtx_owner st = o →
  donated (owned_by a o' depth w) o1 p =
    donated w o1 p - spread o l (prio w) o1 p + spread o' l (prio w) o1 p.
Proof.
  intros (Hnd & Hsl & Hl) Ha Hst Hown. unfold spread.
  rewrite <-(zsum_members (λ y, prio w y = p) l Hnd Hsl). unfold donated, tally.
  rewrite (zsum_ext _ (λ i, indicator (owner_of w i = o1 ∧ prio w i = p)
    + (indicator (o1 = o') - indicator (o1 = o)) * indicator (i ∈ l ∧ prio w i = p))).
  - rewrite zsum_plus. assert (∀ c (f : Z → Z) s, zsum (λ i, c * f i) s = c * zsum f s) as Hscale.
    { intros c f s. induction s as [|i s IH]; simpl; [lia|]. unfold zsum in *. lia. }
    rewrite Hscale. lia.
  - intros i Hi%slots_elem. rewrite (owner_of_owned_by w a o' depth i Ha) by eauto.
    change (prio (owned_by a o' depth w) i) with (prio w i). pose proof (Hl i Hi) as Hli. case_decide as E.
    + assert (owner_of w i = o) as ->.
      { unfold owner_of. by rewrite E, Hst, (proj2 (Z.eqb_neq a 0) Ha). }
      rewrite (indicator_ext (i ∈ l ∧ prio w i = p) (prio w i = p)) by tauto.
      unfold indicator. repeat case_decide; try lia; naive_solver.
    + rewrite (indicator_false (i ∈ l ∧ prio w i = p)) by tauto. lia.
Qed.

Lemma tc_first {A} (R : relation A) x z : tc R x z → ∃ y, R x y.
Proof. destruct 1; eauto. Qed.

Lemma acyclic_owned_by w a o' depth :
  a ≠ 0 → is_Some (w_mutexes w !! a) → t_waiting_mutex (T w o') = 0 → acyclic w →
  acyclic (owned_by a o' depth w).
Proof.
  intros Ha Hst Hfree Hac. set (w' := owned_by a o' depth w).
  assert (∀ i j, waits_for w' i j → waits_for w i j ∨ j = o') as Hedge.
  { intros i j [E Hj]%waits_for_owner. unfold w' in E. rewrite owner_of_owned_by in E by done.
    case_decide; [by right|]. left. by apply waits_for_owner. }
  assert (∀ j, ¬ waits_for w' o' j) as Hdead by (intros j (Hne & _); by apply Hne).
  assert (∀ i j, tc (waits_for w') i j → tc (waits_for w) i j ∨ j = o') as Htc.
  { intros i j. induction 1 as [i j Hij|i k j Hik Hkj IH].
    - destruct (Hedge i j Hij); [left; by apply tc_once|by right].
    - destruct IH as [IH|]; [|by right]. destruct (Hedge i k Hik) as [| ->]; [left; by eapply tc_l|].
      exfalso. apply tc_first in Hkj as [m Hkj]. by eapply Hdead. }
  intros i Hi. destruct (Htc i i Hi) as [| ->]; [by apply (Hac i)|].
  apply tc_first in Hi as [m Hi]. by eapply Hdead.
Qed.

Lemma leaning_owned_by w a o o' depth l st δ :
  leaning w δ None → waiters_are w a l → a ≠ 0 → w_mutexes w !! a = Some st → mtx_owner st = o →
  slot_in o' → t_waiting_mutex (T w o') = 0 →
  leaning (owned_by a o' depth w)
    (λ o1 p, δ o1 p + spread o l (prio w) o1 p - spread o' l (prio w) o1 p) None.
Proof.
  intros [H1 H2 H3 H4 [H5 H5'] H6] Hl Ha Hst Hown Ho' Hfree. split; try done.
  - intros o1 p Ho1 Hp. rewrite (donated_owned_by w a o o' depth l st o1 p) by done.
    change (T (owned_by a o' depth w) o1) with (T w o1). rewrite H3 by done. f_equal. lia.
  - split.
    + intros i Hi Hne. simpl. apply lookup_alter_is_Some. by apply H5.
    + intros b st'. simpl. destruct (decide (b = a)) as [->|Hne].
      * rewrite lookup_alter_eq, Hst. by intros [= <-] _.
      * rewrite lookup_alter_ne by done. apply H5'.
  - apply acyclic_owned_by; by eauto.
Qed.
