(* ===== verification/Mutex.v ===== *)
(** * Mutexes ([src/runtime/sync.rs])

    The specification of every mutex operation over the invariant of the ownership
    of tasks, the priority order of the wait queues, exact donations and the state
    of the mutexes themselves. *)

From stdpp Require Import sorting.
From S2P Require Import Prelude Effects Budget Contract Config Context Reservation.
From S2P Require Import Tcb Store Chain Ready Wait Switch Invariant Dispatch Inherit Donation Sync.
From S2P Require Import Moves Permit Slide Lean Handoff.

(** ** The invariant *)

Record mutexes (w : World) (q : Queues) : Prop := {
  mutexes_address : w_mutexes w !! 0 = None;
  mutexes_free a st : w_mutexes w !! a = Some st → mtx_owner st = NIL → q (QMtx a) = [] ∧ mtx_depth st = 0;
  mutexes_depth a st : w_mutexes w !! a = Some st → mtx_owner st ≠ NIL → 1 <= mtx_depth st <= u32_max;
  mutexes_granted i : slot_in i → t_granted_mutex (T w i) ≠ 0 →
    ∃ st, w_mutexes w !! t_granted_mutex (T w i) = Some st ∧ mtx_owner st = i ∧ mtx_depth st = 1;
}.

Record kernel_hand (w : World) (q : Queues) (d : option Z) : Prop := {
  kernel_semaphores : semaphores_hand w q d;
  kernel_inheritance : inheritance w None;
  kernel_mutexes : mutexes w q;
}.
Definition kernel (w : World) (q : Queues) : Prop := kernel_hand w q None.

Lemma kernel_owned w q d : kernel_hand w q d → owned w q d.
Proof. intros [[? ? ? ?] _ _]. done. Qed.

Lemma kernel_sorted w q d : kernel_hand w q d → sorted_all w q.
Proof. intros [[? ? ? ?] _ _]. done. Qed.

Lemma kernel_grants w q d : kernel_hand w q d → grants w.
Proof. intros [[? ? ? ?] _ _]. done. Qed.

(** The live owner of a mutex. *)
Lemma kernel_owner w q d a st :
  kernel_hand w q d → w_mutexes w !! a = Some st → mtx_owner st ≠ NIL → slot_in (mtx_owner st) ∧ a ≠ 0.
Proof.
  intros Hk Hst Hn. pose proof Hk as [_ [_ _ _ [_ Hr] _] [Ha _ _ _]]. split; [by apply (Hr a)|].
  intros ->. by rewrite Ha in Hst.
Qed.

(** ** Release: regrouping the code *)

(** The part of [release_mutex_locked] that takes the donations off the old owner. *)
Definition shed_donations (mutex owner next : Z) : M World unit :=
  priority ← tget t_priority next;
  remove_inheritance owner priority ;;
  waiter ← get_head (QMtx mutex);
  for_waiters (S task_slots_nat) waiter (λ waiter,
    priority ← tget t_priority waiter; remove_inheritance owner priority).

Lemma regroup {A B} (m1 : M World Z) (m2 : Z → M World unit) (m3 : M World Z) (m4 : Z → M World A)
    (k : M World B) Q w :
  wp ((p ← m1; m2 p ;; h ← m3; m4 h) ;; k) Q w → wp (p ← m1; m2 p ;; h ← m3; m4 h ;; k) Q w.
Proof.
  unfold wp, mbind, M_bind. destruct (m1 w) as [[p w1]|]; [|done]. destruct (m2 p w1) as [[? w2]|]; [|done].
  destruct (m3 w2) as [[h w3]|]; [|done]. by destruct (m4 h w3) as [[? w4]|].
Qed.

(** Updating a task and updating a mutex are independent. *)
Lemma swap_updates {B} i g a h (k : M World B) Q w :
  wp (set_task i g ;; set_mutex a h ;; k) Q w → wp (set_mutex a h ;; set_task i g ;; k) Q w.
Proof.
  unfold wp, mbind, M_bind, set_task, set_mutex, task_at, mutex_at, sched_gets, gets, modify, mbind, M_bind.
  destruct (idx (s_tasks (w_sched w)) i) as [t|] eqn:Ei, (w_mutexes w !! a) as [st|] eqn:Ea;
    simpl; rewrite ?Ei, ?Ea; simpl; by rewrite ?Ei, ?Ea.
Qed.

(** The waiter that receives the mutex. *)
Definition handing (t : Tcb) : Tcb :=
  t <| t_granted_mutex := t.(t_waiting_mutex) |> <| t_waiting_mutex := 0 |>
    <| t_wake_at := 0 |> <| t_sem_granted := true |>.

Lemma handing_inert : inert handing.
Proof. by split. Qed.

(** The graph the walk runs in. *)
Definition waiting_in (w : World) (i : Z) : Z := t_waiting_mutex (T w i).
Definition owner_in (w : World) (a : Z) : option Z := mtx_owner <$> w_mutexes w !! a.

Lemma graph_of w : shape w → graph (waiting_in w) (owner_in w) w.
Proof. intros Hs. split; [apply Hs|done..]. Qed.

Lemma ahead_free w o i : t_waiting_mutex (T w o) = 0 → ahead (waiting_in w) (owner_in w) o i → i = o.
Proof. intros E. destruct 1; [done|]. by unfold waiting_in in *. Qed.

Lemma slides_shed w x g mutex owner :
  inert g → ¬ ahead (waiting_in w) (owner_in w) owner x →
  slides x g (waiting_in w) (owner_in w) (shed_donations mutex owner x).
Proof.
  intros Hg Hx. unfold shed_donations.
  apply (slides_bind x g _ _ Hg); [apply slides_tget; [done|apply Hg]|intros p].
  apply (slides_bind x g _ _ Hg); [by apply slides_remove_inheritance|intros _].
  apply (slides_bind x g _ _ Hg); [by apply slides_get_head|intros h].
  apply slides_for_waiters; [done|]. intros y.
  apply (slides_bind x g _ _ Hg); [apply slides_tget; [done|apply Hg]|intros p'].
  by apply slides_remove_inheritance.
Qed.

Lemma valid_sbp w w' a : same_but_priority w w' → is_Some (w_mutexes w !! a) → is_Some (w_mutexes w' !! a).
Proof.
  intros [_ _ Hm _ _] [st Hst]. specialize (Hm a). rewrite Hst in Hm. by destruct (w_mutexes w' !! a).
Qed.

Lemma spread_ext o l pr pr' o' p : (∀ y, y ∈ l → pr y = pr' y) → spread o l pr o' p = spread o l pr' o' p.
Proof. intros E. unfold spread. f_equal. apply zsum_ext. intros y Hy. by rewrite E. Qed.

Lemma shed_spec w q a o nxt l :
  owned w q None → sorted_all w q → slot_in nxt → leaning w (at_one o (prio w nxt) 1) None →
  is_Some (w_mutexes w !! a) → donors w q a o l (prio w) →
  wp (shed_donations a o nxt) (λ _ w', ∃ q',
    nudged w w' q q' None o (λ o' p, - spread o l (prio w) o' p) ∧ donors w' q' a o l (prio w)) w.
Proof.
  intros Ho Hso Hn Hl Hv Hd. pose proof (owned_shape w q None Ho) as Hs. unfold shed_donations. go.
  fold (prio w nxt). pose proof (placed_priority w q None nxt (owned_placed w q None (proj2 Ho) nxt Hn)) as Hp.
  pose proof (donated_range w o (prio w nxt)).
  wp_apply (remove_inheritance_free w q None o (prio w nxt) _ Ho Hso (donors_slot _ _ _ _ _ _ Hd)
    (donors_free _ _ _ _ _ _ Hd) Hp Hl); [|rewrite at_one_eq; lia].
  intros _ w1 [q1 Hn1]. pose proof Hn1 as [N1 N2 N3 N4 N5 N6 N7].
  pose proof (donors_nudged w w1 q q1 None a o l (prio w) _ Hd Hn1) as Hd1.
  assert (shape w1) as Hs1 by eauto with store. assert (valid w1 (QMtx a)) as Hv1 by (by apply (valid_sbp w)).
  go. rewrite (queues_head w1 q1 (QMtx a) (proj1 N1) Hv1), (donors_queue _ _ _ _ _ _ Hd1).
  assert (∀ y, y ∈ l → prio w1 y = prio w y) as Hpr by (intros y Hy; by apply (donors_of _ _ _ _ _ _ Hd1)).
  wp_apply (remove_all_spec w1 q1 a o l _ N1 N2 N3).
  - intros _ w2 [q2 [Hn2 Hd2]]. exists q2. split.
    + pose proof (nudged_trans _ _ _ _ _ _ _ _ _ _ Hn1 Hn2) as [M1 M2 M3 M4 M5 M6 M7]. split; try done.
      eapply leaning_delta; [|exact M3]. intros o' p _ _. cbv beta.
      rewrite (spread_ext o l (prio w1) (prio w)) by done. unfold at_one. lia.
    + destruct Hd2 as [D1 D2 D3 D4]. split; try done. intros y Hy. rewrite <-Hpr by done. by apply D4.
  - destruct Hd1 as [D1 D2 D3 D4]. split; try done. intros y Hy. split; [by apply D4|done].
  - intros p. cbv beta. unfold at_one. lia.
Qed.

Lemma wp_tail {A B} (m : M World A) (k1 k2 : M World B) Q w :
  (∀ w', wp k1 Q w' → wp k2 Q w') → wp (m ;; k1) Q w → wp (m ;; k2) Q w.
Proof. intros H Hm. apply wp_bind_inv in Hm. apply wp_bind. eapply wp_mono; [|exact Hm]. auto. Qed.

(** A task has left the wait queue of the mutex [a]. *)
Lemma rewired_unwait w w' i g :
  slot_in i → mutex_refs w → updated w w' i g →
  (∀ t, t_base_priority (g t) = t_base_priority t ∧ t_priority (g t) = t_priority t ∧
    t_inherited_waiters (g t) = t_inherited_waiters t ∧ t_waiting_mutex (g t) = 0) →
  (∀ b, mtx_owner <$> w_mutexes w' !! b = mtx_owner <$> w_mutexes w !! b) →
  rewired w w' i ∧ owner_of w' i = NIL.
Proof.
  intros Hi [R1 R2] Hu Hg Hm. destruct (Hg (T w i)) as (G1 & G2 & G3 & G4).
  assert (∀ j, t_waiting_mutex (T w' j) = if decide (i = j) then 0 else t_waiting_mutex (T w j)) as Hw.
  { intros j. rewrite (Hu _ t_waiting_mutex) by done. case_decide; [by subst|done]. }
  split; [split|].
  - intros j. rewrite (Hu _ t_base_priority) by done. case_decide; [by subst|done].
  - intros j. rewrite (Hu _ t_priority) by done. case_decide; [by subst|done].
  - intros j. rewrite (Hu _ t_inherited_waiters) by done. case_decide; [by subst|done].
  - intros j Hj. unfold owner_of. rewrite Hw, decide_False by done. case_match; [done|].
    specialize (Hm (t_waiting_mutex (T w j))).
    destruct (w_mutexes w' !! _), (w_mutexes w !! _); simpl in *; try done. by injection Hm.
  - split.
    + intros j Hj. rewrite Hw. case_decide; [done|]. intros Hne. destruct (R1 j Hj Hne) as [st Hst].
      specialize (Hm (t_waiting_mutex (T w j))). rewrite Hst in Hm. by destruct (w_mutexes w' !! _).
    + intros b st Hst Hn. specialize (Hm b). rewrite Hst in Hm.
      destruct (w_mutexes w !! b) as [st0|] eqn:E; [|done]. injection Hm as E1. rewrite E1 in Hn |- *.
      by apply (R2 b st0).
  - apply owner_of_free. rewrite Hw. by rewrite decide_True.
Qed.

(** ** Release *)

Definition handed_world (a nxt now : Z) (w : World) : World :=
  owned_by a nxt 1 (upd_task nxt (λ t, readied now (handing t)) w).

(** The mutex [a] has gone to [nxt]; the other waiters are [l]. *)
Record handed (w w' : World) (q q' : Queues) (a nxt : Z) (l : list Z) (now : Z) : Prop := {
  handed_owned : owned w' q' None;
  handed_sorted : sorted_all w' q';
  handed_inheritance : inheritance w' None;
  handed_rest : same_but_priority (handed_world a nxt now w) w';
  handed_mutexes b : q' (QMtx b) = if decide (b = a) then l else q (QMtx b);
  handed_sems b : q' (QSem b) ≡ₚ q (QSem b);
}.

Lemma sbp_upd_task w w' i g :
  same_but_priority w w' → shape w → shape w' → slot_in i →
  (∀ t v, g (t <| t_next := v |>) = (g t) <| t_next := v |>) →
  (∀ t v, g (t <| t_priority := v |>) = (g t) <| t_priority := v |>) →
  (∀ t h, g (t <| t_inherited_waiters ::= h |>) = (g t) <| t_inherited_waiters ::= h |>) →
  same_but_priority (upd_task i g w) (upd_task i g w').
Proof.
  intros [H1 H2 H3 H4 H5] Hs Hs' Hi G1 G2 G3. split; try done. intros A f F1 F2 F3 j.
  rewrite !T_upd_task by done. case_decide as E; [|by apply H1]. subst.
  apply (H1 A (λ t, f (g t))); intros *; by rewrite ?G1, ?G2, ?G3.
Qed.

Lemma sbp_owned_by w w' a o n : same_but_priority w w' → same_but_priority (owned_by a o n w) (owned_by a o n w').
Proof.
  intros [H1 H2 H3 H4 H5]. split; try done. intros b. simpl. specialize (H3 b).
  destruct (decide (b = a)) as [->|Hne]; [|by rewrite !lookup_alter_ne].
  rewrite !lookup_alter_eq. destruct (w_mutexes w' !! a), (w_mutexes w !! a); simpl in *; done.
Qed.

(** After the old owner's donations are gone: the new owner gets the mutex. *)
Lemma give_mutex_spec w q a o nxt l st now :
  owned w q None → sorted_all w q → slot_in nxt → a ≠ 0 → w_mutexes w !! a = Some st → mtx_owner st = o →
  leaning w (λ o' p, - spread o l (prio w) o' p) None → q (QMtx a) = l → detached q nxt →
  t_state (T w nxt) = Blocked → 
  wp (set_mutex a (λ st, st <| mtx_owner := nxt |> <| mtx_depth := 1 |>) ;;
      make_ready nxt now ;;
      waiter ← get_head (QMtx a);
      for_waiters (S task_slots_nat) waiter (λ waiter,
        priority ← tget t_priority waiter; add_inheritance nxt priority))
    (λ _ w', ∃ q', owned w' q' None ∧ sorted_all w' q' ∧ inheritance w' None ∧
      same_but_priority (owned_by a nxt 1 (upd_task nxt (readied now) w)) w' ∧
      (∀ b, q' (QMtx b) = q (QMtx b)) ∧ (∀ b, q' (QSem b) ≡ₚ q (QSem b))) w.
Proof.
  intros Ho Hso Hn Ha Hst Hown Hl Hq Hd Hbl. destruct (owned_detached_waits w q None nxt Ho Hn Hd) as [Hws Hwm].
  go. eapply wp_set_mutex; [done|]. change (w <| w_mutexes ::= _ |>) with (owned_by a nxt 1 w).
  pose proof (owned_waiters w q None a Ho Ha) as Hwa. rewrite Hq in Hwa.
  pose proof (leaning_owned_by w a o nxt 1 l st _ Hl Hwa Ha Hst Hown Hn Hwm) as Hl1. cbv beta in Hl1.
  set (w1 := owned_by a nxt 1 w) in *.
  assert (owned w1 q None) as Ho1 by (by apply owned_mutex_update).
  go. wp_apply (owned_make_ready w1 q None nxt now Ho1 Hn Hd); [|by change (T w1 nxt) with (T w nxt); rewrite Hbl|done|done].
  intros _ w2 [Ho2 Hc2]. set (q2 := enqueued w1 nxt q) in *.
  assert (shape w1) as Hs1 by eauto with store. assert (shape w2) as Hs2 by eauto with store.
  pose proof (updated_core w1 w2 nxt _ Hs1 Hn Hc2) as Hu2.
  assert (∀ b, q2 (QSem b) = q (QSem b) ∧ q2 (QMtx b) = q (QMtx b)) as Hqw by (intros b; apply enqueued_waits).
  assert (∀ j, t_priority (T w2 j) = t_priority (T w j)) as Hp2.
  { intros j. rewrite (Hu2 _ t_priority) by done. by case_decide. }
  assert (same_donors w1 w2) as Hsd.
  { split; [intros i..|intros b].
    - rewrite (Hu2 _ t_base_priority) by done. by case_decide.
    - apply Hp2.
    - rewrite (Hu2 _ t_inherited_waiters) by done. by case_decide.
    - rewrite (Hu2 _ t_waiting_mutex) by done. by case_decide.
    - pose proof (core_mutexes _ w2 b Hc2) as E. change (w_mutexes (upd_task _ _ w1)) with (w_mutexes w1) in E.
      destruct (w_mutexes w2 !! b), (w_mutexes w1 !! b); simpl in E |- *; try done. f_equal. by injection E. }
  pose proof (leaning_same w1 w2 _ None Hsd Hl1) as Hl2.
  assert (sorted_all w2 q2) as Hso2 by (apply (sorted_all_ext w w2 q q2 Hso Hp2); apply Hqw).
  assert (valid w2 (QMtx a)) as Hv2.
  { apply (core_valid (upd_task nxt (readied now) w1) w2 (QMtx a) Hc2). simpl. rewrite lookup_alter_is_Some. eauto. }
  assert (∀ y, y ∈ l → owner_of w2 y = nxt) as Hown2.
  { intros y Hy. rewrite (same_donors_owner_of w1 w2) by done. unfold w1. rewrite owner_of_owned_by by eauto.
    destruct Hwa as (_ & Hsl & Hiff). by rewrite decide_True by (apply Hiff; auto). }
  go. rewrite (queues_head w2 q2 (QMtx a) (proj1 Ho2) Hv2). destruct (Hqw a) as [_ ->]. rewrite Hq.
  wp_apply (add_all_spec w2 q2 a nxt l _ Ho2 Hso2 Hl2).
  - intros _ w3 [q3 [[N1 N2 N3 N4 N5 N6 N7] _]]. exists q3. split_and!; try done.
    + eapply leaning_inheritance; [|exact N3]. intros o' p _ _. cbv beta.
      rewrite (spread_ext nxt l (prio w2) (prio w)) by (intros; apply Hp2). lia.
    + eapply sbp_trans; [|exact N4]. by apply sbp_core.
    + intros b. rewrite N5. apply Hqw.
    + intros b. rewrite N6. destruct (Hqw b) as [-> _]. done.
  - split; [by destruct (Hqw a) as [_ ->]|done|by rewrite (Hu2 _ t_waiting_mutex), decide_True|].
    intros y Hy. split; [by apply Hown2|done].
  - intros p. cbv beta. rewrite (spread_ext nxt l (prio w2) (prio w)) by (intros; apply Hp2).
    lia.
Qed.

(** The best waiter has left the queue of [a] and its record says that it has the
    mutex; the old owner [o] still counts its donation. *)
Record popped (w w2 : World) (q1 : Queues) (a o nxt : Z) (l : list Z) : Prop := {
  popped_core : core w2 = core (upd_task nxt handing w);
  popped_owned : owned w2 q1 None;
  popped_sorted : sorted_all w2 q1;
  popped_leaning : leaning w2 (at_one o (prio w2 nxt) 1) None;
  popped_donors : donors w2 q1 a o l (prio w2);
  popped_mutex : ∃ st, w_mutexes w2 !! a = Some st ∧ mtx_owner st = o;
  popped_free : t_waiting_sem (T w2 nxt) = 0 ∧ t_waiting_mutex (T w2 nxt) = 0;
  popped_state : t_state (T w2 nxt) = Blocked;
}.

Lemma popped_spec w w1 q a o st nxt l :
  owned w q None → sorted_all w q → inheritance w None → a ≠ 0 → w_mutexes w !! a = Some st →
  mtx_owner st = o → slot_in o → t_waiting_mutex (T w o) = 0 → q (QMtx a) = nxt :: l →
  core w1 = core w → queues w1 (qset (QMtx a) l q) →
  popped w (upd_task nxt handing w1) (qset (QMtx a) l q) a o nxt l.
Proof.
  intros Ho Hso Hinh Ha Hst Hown Hos Hfree E Hc1 Hq1. pose proof (owned_shape w q None Ho) as Hs.
  destruct (owned_waiters w q None a Ho Ha) as (Hnd & Hsl & Hiff). rewrite E in Hnd, Hsl, Hiff.
  assert (nxt ∈ q (QMtx a)) as Hin by (rewrite E; left). assert (slot_in nxt) as Hn by (apply Hsl; left).
  assert (without nxt (q (QMtx a)) = l) as El by (rewrite E; by apply (without_split [])).
  set (q1 := qset (QMtx a) l q) in *. assert (shape w1) as Hs1 by (by eapply queues_shape).
  set (w2 := upd_task nxt handing w1).
  assert (core w2 = core (upd_task nxt handing w)) as Hc2.
  { unfold w2. by rewrite !(core_upd_task _ _ _ handing), Hc1. }
  pose proof (updated_core w w2 nxt handing Hs Hn Hc2) as Hu2.
  destruct (owned_waiter w q None nxt (QMtx a) Ho Hn Hin) as (Hbl & _ & Hwn & Hwsn); [done|].
  assert (∀ b, mtx_owner <$> w_mutexes w2 !! b = mtx_owner <$> w_mutexes w !! b) as Hm2.
  { intros b. pose proof (core_mutexes _ w2 b Hc2) as Eb. change (w_mutexes (upd_task _ _ w)) with (w_mutexes w) in Eb.
    destruct (w_mutexes w2 !! b), (w_mutexes w !! b); simpl in Eb |- *; try done. f_equal. by injection Eb. }
  destruct (rewired_unwait w w2 nxt handing Hn (inheritance_refs w None Hinh) Hu2) as [Hrw Hnil]; [by intros t|done|].
  assert (∀ i, t_waiting_mutex (T w i) = a → owner_of w i = o) as Hown_of.
  { intros i Ei. unfold owner_of. by rewrite Ei, Hst, (proj2 (Z.eqb_neq a 0) Ha). }
  split; [done|..].
  - unfold q1. rewrite <-El. apply (owned_unwait w w1 q None nxt (QMtx a) handing); try done. by rewrite El.
  - unfold q1. rewrite <-El. apply (sorted_all_ext w _ (qset (QMtx a) (without nxt (q (QMtx a))) q)); try done.
    + by apply sorted_all_without.
    + intros j. rewrite (Hu2 _ t_priority) by done. by case_decide.
  - replace (prio w2 nxt) with (prio w nxt) by (symmetry; apply Hrw). apply (leaning_unwait w); auto.
  - split; [apply qset_eq|done|rewrite (Hu2 _ t_waiting_mutex) by done; by case_decide|].
    intros i Hi. split; [|done]. rewrite (rewired_others w w2 nxt Hrw).
    + apply Hown_of, Hiff; [apply Hsl|]; by right.
    + intros ->. by apply NoDup_cons in Hnd as [? _].
  - specialize (Hm2 a). rewrite Hst in Hm2. destruct (w_mutexes w2 !! a) as [st2|]; [|done].
    exists st2. split; [done|]. injection Hm2. congruence.
  - rewrite (Hu2 _ t_waiting_sem), (Hu2 _ t_waiting_mutex), !decide_True by done. done.
  - by rewrite (Hu2 _ t_state), decide_True.
Qed.

Lemma release_mutex_spec w q a o st nxt l now :
  owned w q None → sorted_all w q → inheritance w None → a ≠ 0 → w_mutexes w !! a = Some st →
  mtx_owner st = o → slot_in o → t_waiting_mutex (T w o) = 0 → q (QMtx a) = nxt :: l →
  wp (release_mutex_locked a o now) (λ _ w', ∃ q', handed w w' q q' a nxt l now) w.
Proof.
  intros Ho Hso Hinh Ha Hst Hown Hos Hfree E. pose proof Ho as [Hq _]. pose proof (owned_shape w q None Ho) as Hs.
  assert (valid w (QMtx a)) as Hv by (by exists st).
  assert (slot_in nxt) as Hn by (apply (queues_slot w q Hq (QMtx a)); rewrite E; left).
  assert (nxt ≠ o) as Hno.
  { intros ->. apply (owned_no_mutex w q None o a Ho Hos Hfree). rewrite E. left. }
  unfold release_mutex_locked. apply wp_bind. unfold pop_mutex_waiter.
  wp_apply (pop_waiter_spec w q (QMtx a) Hq Hv). rewrite E. intros y w1 (Hc1 & -> & _ & Hq1).
  rewrite (proj2 (Z.eqb_neq _ _) (slot_in_not_NIL nxt Hn)). apply regroup.
  change (wp (shed_donations a o nxt ;; set_mutex a (λ st, st <| mtx_owner := nxt |> <| mtx_depth := 1 |>) ;;
    set_task nxt handing ;; make_ready nxt now ;; waiter ← get_head (QMtx a);
      for_waiters (S task_slots_nat) waiter (λ waiter,
        priority ← tget t_priority waiter; add_inheritance nxt priority))
    (λ _ w', ∃ q', handed w w' q q' a nxt l now) w1).
  eapply wp_tail; [intros w'; apply swap_updates|]. assert (shape w1) as Hs1 by (by eapply queues_shape).
  apply (wp_slide nxt handing (waiting_in w1) (owner_in w1) handing_inert);
    [apply slides_shed; [apply handing_inert|]|by apply graph_of|done|].
  { intros Hah. apply Hno. apply (ahead_free w1 o nxt); [|done]. by rewrite (core_field t_waiting_mutex w w1). }
  go. pose proof (popped_spec w w1 q a o st nxt l Ho Hso Hinh Ha Hst Hown Hos Hfree E Hc1 Hq1) as Hpop.
  set (w2 := upd_task nxt handing w1) in *. set (q1 := qset (QMtx a) l q) in *.
  pose proof Hpop as [P1 P2 P3 P4 P5 (st2 & Hst2 & Hst2o) [P7 P8] P9].
  wp_apply (shed_spec w2 q1 a o nxt l P2 P3 Hn P4); [|by exists st2|done].
  intros _ w3 [q3 [[N1 N2 N3 N4 N5 N6 N7] [D1 D2 D3 D4]]].
  pose proof (sbp_mutexes w2 w3 N4 a) as Hm3. rewrite Hst2 in Hm3.
  destruct (w_mutexes w3 !! a) as [st3|] eqn:Hst3; [|done]. injection Hm3 as Hst3o _.
  assert (t_state (T w3 nxt) = Blocked) as Hbl3 by (by rewrite (sbp_field w2 w3 N4 t_state)).
  assert (detached q3 nxt) as Hd3.
  { apply (owned_detached w3 q3 None); try done.
    - apply (owned_not_queued w3 q3 None); [done..|]. by rewrite Hbl3.
    - by rewrite (sbp_field w2 w3 N4 t_waiting_sem).
    - by rewrite (sbp_field w2 w3 N4 t_waiting_mutex). }
  wp_apply (give_mutex_spec w3 q3 a o nxt l st3 now N1 N2 Hn Ha Hst3); [|congruence| |done..].
  - intros _ w4 (q4 & M1 & M2 & M3 & M4 & M5 & M6). exists q4. split; try done.
    + eapply sbp_trans; [|exact M4]. unfold handed_world. apply sbp_owned_by.
      rewrite <-(upd_task_compose w nxt (readied now) handing). assert (shape w3) as Hs3 by eauto with store.
      apply sbp_upd_task; try done; [|eauto with store]. apply (sbp_trans _ w2); [by apply sbp_core|done].
    + intros b. rewrite M5, N5. unfold q1, qset. repeat case_decide; congruence.
    + intros b. rewrite M6, N6. done.
  - eapply leaning_delta; [|exact N3]. intros o' p _ _. cbv beta.
    rewrite (spread_ext o l (prio w3) (prio w2)); [done|]. intros y Hy. by apply D4.
Qed.

(** ** The invariant after a handoff *)

(** All mutexes but [a], which is changing hands and granted to nobody. *)
Record mutexes_but (w : World) (q : Queues) (a : Z) : Prop := {
  but_address : w_mutexes w !! 0 = None;
  but_free b st : b ≠ a → w_mutexes w !! b = Some st → mtx_owner st = NIL → q (QMtx b) = [] ∧ mtx_depth st = 0;
  but_depth b st : b ≠ a → w_mutexes w !! b = Some st → mtx_owner st ≠ NIL → 1 <= mtx_depth st <= u32_max;
  but_granted i : slot_in i → t_granted_mutex (T w i) ≠ 0 → t_granted_mutex (T w i) ≠ a ∧
    ∃ st, w_mutexes w !! t_granted_mutex (T w i) = Some st ∧ mtx_owner st = i ∧ mtx_depth st = 1;
}.

Lemma mutexes_update w w' q q' a st' :
  mutexes_but w q a → (∀ b, b ≠ a → core_mtx <$> w_mutexes w' !! b = core_mtx <$> w_mutexes w !! b) →
  a ≠ 0 → w_mutexes w' !! a = Some st' → (∀ b, b ≠ a → q' (QMtx b) = q (QMtx b)) →
  (mtx_owner st' = NIL → q' (QMtx a) = [] ∧ mtx_depth st' = 0) →
  (mtx_owner st' ≠ NIL → 1 <= mtx_depth st' <= u32_max) →
  (∀ i, slot_in i → t_granted_mutex (T w' i) = t_granted_mutex (T w i) ∨
    (t_granted_mutex (T w' i) = a ∧ mtx_owner st' = i ∧ mtx_depth st' = 1)) →
  mutexes w' q'.
Proof.
  intros [B1 B2 B3 B4] Hc Ha Hst' Hq Hfree Hdepth Hg.
  assert (∀ b st, b ≠ a → w_mutexes w' !! b = Some st → ∃ st0, w_mutexes w !! b = Some st0 ∧
    mtx_owner st0 = mtx_owner st ∧ mtx_depth st0 = mtx_depth st) as Hback.
  { intros b st Hne Hst. specialize (Hc b Hne). rewrite Hst in Hc.
    destruct (w_mutexes w !! b) as [st0|] eqn:E; [|done]. exists st0. injection Hc as -> ->. done. }
  split.
  - specialize (Hc 0). rewrite B1 in Hc. destruct (w_mutexes w' !! 0); [|done]. by specialize (Hc (not_eq_sym Ha)).
  - intros b st Hst Hn. destruct (decide (b = a)) as [->|Hne]; [replace st with st' by congruence; apply Hfree; congruence|].
    destruct (Hback b st Hne Hst) as (st0 & Hst0 & E1 & E2). rewrite <-E1 in Hn. rewrite Hq, <-E2 by done. eauto.
  - intros b st Hst Hn. destruct (decide (b = a)) as [->|Hne]; [replace st with st' by congruence; apply Hdepth; congruence|].
    destruct (Hback b st Hne Hst) as (st0 & Hst0 & E1 & <-). rewrite <-E1 in Hn. eauto.
  - intros i Hi Hne. destruct (Hg i Hi) as [E|(E & E1 & E2)].
    + rewrite E in Hne |- *. destruct (B4 i Hi Hne) as (Hna & st & Hst & Hown & Hd). specialize (Hc _ Hna).
      rewrite Hst in Hc. destruct (w_mutexes w' !! _) as [st1|] eqn:E1; [|done]. exists st1.
      injection Hc as E2 E3. split_and!; congruence.
    + rewrite E. eauto.
Qed.

(** Only the fields of one task and the object [a] have changed. *)
Lemma handed_lookup w w' a nxt now st :
  w_mutexes w !! a = Some st → same_but_priority (handed_world a nxt now w) w' →
  (∀ b, b ≠ a → core_mtx <$> w_mutexes w' !! b = core_mtx <$> w_mutexes w !! b) ∧
  ∃ st', w_mutexes w' !! a = Some st' ∧ mtx_owner st' = nxt ∧ mtx_depth st' = 1.
Proof.
  intros Hst [_ _ Hm _ _]. split.
  - intros b Hne. rewrite Hm. unfold handed_world, owned_by. simpl. by rewrite lookup_alter_ne.
  - specialize (Hm a). unfold handed_world, owned_by in Hm. simpl in Hm. rewrite lookup_alter_eq, Hst in Hm.
    destruct (w_mutexes w' !! a) as [st'|]; [|done]. exists st'. injection Hm as -> ->. done.
Qed.

Lemma T_handed w w' a nxt now {A} (f : Tcb → A) j :
  shape w → slot_in nxt → same_but_priority (handed_world a nxt now w) w' →
  (∀ t v, f (t <| t_next := v |>) = f t) → (∀ t v, f (t <| t_priority := v |>) = f t) →
  (∀ t g, f (t <| t_inherited_waiters ::= g |>) = f t) →
  f (T w' j) = if decide (nxt = j) then f (readied now (handing (T w j))) else f (T w j).
Proof.
  intros Hs Hn Hsbp F1 F2 F3. rewrite (sbp_field _ w' Hsbp f) by done.
  change (T (handed_world a nxt now w) j) with (T (upd_task nxt (λ t, readied now (handing t)) w) j).
  rewrite T_upd_task by done. by case_decide.
Qed.

Lemma kernel_handed w w' q q' a nxt l now st :
  sems w q → grants w → mutexes_but w q a → shape w → slot_in nxt → a ≠ 0 → w_mutexes w !! a = Some st →
  t_waiting_mutex (T w nxt) = a → t_waiting_sem (T w nxt) = 0 → handed w w' q q' a nxt l now →
  kernel w' q' ∧ ∀ b, permits w' b = permits w b.
Proof.
  intros Hse Hgr Hmu Hs Hn Ha Hst Hwm Hws [H1 H2 H3 H4 H5 H6].
  destruct (handed_lookup w w' a nxt now st Hst H4) as [Hmb (st' & Hst' & Hown' & Hd')].
  assert (∀ b, sem_count <$> w_sems w' !! b = sem_count <$> w_sems w !! b) as Hc.
  { intros b. apply core_sem_count. by rewrite (sbp_sems _ w' H4 b). }
  assert (∀ i, t_granted_sem (T w' i) = t_granted_sem (T w i)) as Hg.
  { intros i. rewrite (T_handed w w' a nxt now t_granted_sem) by done. by case_decide. }
  split; [split|intros b; by apply permits_same].
  - split; [done|done|..].
    + apply (sems_same w w' q q' Hc Hg); [|done]. intros b Hb. specialize (H6 b). rewrite Hb in H6.
      by apply Permutation_nil_r in H6.
    + destruct (grants_waiting w Hgr nxt Hn) as [Hgs Hgm]; [right; congruence|].
      destruct Hgr as [G1 G2 G3]. split; intros i Hi;
        rewrite ?(T_handed w w' a nxt now t_sem_granted), ?(T_handed w w' a nxt now t_granted_sem),
          ?(T_handed w w' a nxt now t_granted_mutex), ?(T_handed w w' a nxt now t_waiting_sem),
          ?(T_handed w w' a nxt now t_waiting_mutex) by done; case_decide; auto; subst i; simpl; rewrite ?Hwm, ?Hgs, ?Hws.
      * split; [by right|done].
      * by left.
      * by intros [[]|[]].
  - done.
  - apply (mutexes_update w w' q q' a st' Hmu Hmb Ha Hst').
    + intros b Hb. by rewrite H5, decide_False.
    + intros E. rewrite Hown' in E. by apply slot_in_not_NIL in E.
    + rewrite Hd'. done.
    + intros i Hi. rewrite (T_handed w w' a nxt now t_granted_mutex) by done. case_decide; [|by left].
      subst i. right. by split_and!.
Qed.

(** ** What the other operations keep *)

Lemma mutexes_same w w' q q' :
  (∀ a, core_mtx <$> w_mutexes w' !! a = core_mtx <$> w_mutexes w !! a) →
  (∀ i, t_granted_mutex (T w' i) = t_granted_mutex (T w i)) →
  (∀ a, q (QMtx a) = [] → q' (QMtx a) = []) → mutexes w q → mutexes w' q'.
Proof.
  intros Hc Hg Hq [M1 M2 M3 M4].
  assert (∀ a st, w_mutexes w' !! a = Some st → ∃ st0, w_mutexes w !! a = Some st0 ∧
    mtx_owner st0 = mtx_owner st ∧ mtx_depth st0 = mtx_depth st) as Hback.
  { intros a st Hst. specialize (Hc a). rewrite Hst in Hc. destruct (w_mutexes w !! a) as [st0|] eqn:E; [|done].
    exists st0. injection Hc as -> ->. done. }
  split.
  - specialize (Hc 0). rewrite M1 in Hc. by destruct (w_mutexes w' !! 0).
  - intros a st (st0 & Hst0 & E1 & <-)%Hback. rewrite <-E1. intros Hn. destruct (M2 a st0 Hst0 Hn). auto.
  - intros a st (st0 & Hst0 & <- & <-)%Hback. eauto.
  - intros i Hi. rewrite Hg. intros Hne. destruct (M4 i Hi Hne) as (st & Hst & Hown & Hd).
    specialize (Hc (t_granted_mutex (T w i))). rewrite Hst in Hc.
    destruct (w_mutexes w' !! _) as [st'|]; [|done]. exists st'. injection Hc as -> ->. done.
Qed.

Lemma inheritance_same w w' : same_donors w w' → inheritance w None → inheritance w' None.
Proof. intros Hd Hi. apply leaning_zero. apply (leaning_same w); [done|]. by apply leaning_zero. Qed.

Lemma same_mutexes_donors w w' q q' : same_mutexes w w' q q' → same_donors w w'.
Proof.
  intros [F Hm _ _ _]. split; [by apply (F _ t_base_priority)|by apply (F _ t_priority)
    |by apply (F _ t_inherited_waiters)|by apply (F _ t_waiting_mutex)|].
  intros a. by apply core_mtx_owner.
Qed.

Lemma kernel_same_mutexes w w' q q' :
  kernel w q → semaphores w' q' → same_mutexes w w' q q' → kernel w' q'.
Proof.
  intros [Hsem Hinh Hmu] Hsem' Hs. split; [done|by eapply inheritance_same; [by eapply same_mutexes_donors|]|].
  destruct Hs as [F Hm Hq _ _]. apply (mutexes_same w w' q q'); [done|by apply (F _ t_granted_mutex)| |done].
  intros a. by rewrite Hq.
Qed.

Lemma quiet_donors w w' : quiet w w' → same_donors w w'.
Proof.
  intros [F _ Hm]. split; [by apply (F _ t_base_priority)|by apply (F _ t_priority)
    |by apply (F _ t_inherited_waiters)|by apply (F _ t_waiting_mutex)|].
  intros a. by apply core_mtx_owner.
Qed.

Lemma kernel_quiet w w' q q' d d' :
  kernel_hand w q d → quiet w w' → owned w' q' d' →
  (∀ a, q' (QSem a) = q (QSem a) ∧ q' (QMtx a) = q (QMtx a)) → kernel_hand w' q' d'.
Proof.
  intros [Hsem Hinh Hmu] Hqt Ho Hq. split.
  - by apply (semaphores_quiet w w' q q' d).
  - by eapply inheritance_same; [by apply quiet_donors|].
  - apply (mutexes_same w w' q q'); [apply Hqt|intros i; by apply (quiet_field w w' Hqt _ t_granted_mutex)| |done].
    intros a. by destruct (Hq a) as [_ ->].
Qed.

Lemma grants_sbp w w' : same_but_priority w w' → grants w → grants w'.
Proof.
  intros Hs [G1 G2 G3]. split; intros i Hi; rewrite ?(sbp_field w w' Hs t_sem_granted),
    ?(sbp_field w w' Hs t_granted_sem), ?(sbp_field w w' Hs t_granted_mutex),
    ?(sbp_field w w' Hs t_waiting_sem), ?(sbp_field w w' Hs t_waiting_mutex) by done; auto.
Qed.

(** A walk keeps the rest of the invariant. *)
Lemma kernel_settled w w' q q' d :
  sems w q → grants w → mutexes w q → settled w w' q q' d None →
  kernel_hand w' q' d ∧ ∀ a, permits w' a = permits w a.
Proof.
  intros Hse Hgr Hmu [S1 S2 S3 S4 S5].
  assert (∀ a, sem_count <$> w_sems w' !! a = sem_count <$> w_sems w !! a) as Hc
    by (intros a; apply core_sem_count, S4).
  assert (∀ i, t_granted_sem (T w' i) = t_granted_sem (T w i)) as Hg by (by apply (sbp_field w w' S4)).
  split; [split; [split|..]|intros a; by apply permits_same]; try done.
  - apply (sems_same w w' q q' Hc Hg); [|done]. intros a E. destruct (S5 a) as [H _]. rewrite E in H.
    by apply Permutation_nil_r in H.
  - by apply (grants_sbp w).
  - apply (mutexes_same w w' q q'); [apply S4|by apply (sbp_field w w' S4)| |done].
    intros a E. destruct (S5 a) as [_ H]. rewrite E in H. by apply Permutation_nil_r in H.
Qed.

(** ** Objects nobody waits for *)

Lemma owner_of_mutex_update w a h i :
  t_waiting_mutex (T w i) ≠ a → owner_of (w <| w_mutexes ::= alter h a |>) i = owner_of w i.
Proof.
  intros Hne. unfold owner_of. change (T (w <| w_mutexes ::= alter h a |>) i) with (T w i). simpl.
  by rewrite lookup_alter_ne.
Qed.

Lemma T_out w i : shape w → ¬ slot_in i → T w i = Tcb_empty.
Proof.
  intros Hs Hi. unfold T, at_. assert (idx (s_tasks (w_sched w)) i = None) as ->; [|done].
  apply idx_None. destruct Hs as [Hl _ _ _ _]. unfold in_range, slot_in in *. lia.
Qed.

Lemma inheritance_unwaited w q d a h st :
  owned w q d → inheritance w None → a ≠ 0 → q (QMtx a) = [] → w_mutexes w !! a = Some st →
  mtx_owner (h st) = NIL ∨ slot_in (mtx_owner (h st)) → inheritance (w <| w_mutexes ::= alter h a |>) None.
Proof.
  intros Ho [H1 [H2 H3] H4 [H5 H5'] H6] Ha Hq Hst Hh. set (w' := w <| w_mutexes ::= alter h a |>).
  assert (∀ i, t_waiting_mutex (T w i) ≠ a) as Hno.
  { intros i E. destruct (decide (slot_in i)) as [Hi|Hi].
    - destruct (owned_waiters w q d a Ho Ha) as (_ & _ & Hiff). apply Hiff in E; [|done]. rewrite Hq in E.
      by apply elem_of_nil in E.
    - rewrite (T_out w i) in E; [done|eauto with store|done]. }
  assert (∀ i, owner_of w' i = owner_of w i) as Hown by (intros i; by apply owner_of_mutex_update).
  split; [done|split; [done|]|done| |by apply (same_donors_acyclic w)].
  - intros o p Ho' Hp. change (T w' o) with (T w o). rewrite H3 by done. f_equal. symmetry.
    apply tally_ext; intros i _; by rewrite Hown.
  - split.
    + intros i Hi Hne. simpl. apply lookup_alter_is_Some. by apply H5.
    + intros b st'. simpl. destruct (decide (b = a)) as [->|Hne].
      * rewrite lookup_alter_eq, Hst. intros [= <-] Hn. by destruct Hh.
      * rewrite lookup_alter_ne by done. apply H5'.
Qed.
