(* ===== verification/Lock.v ===== *)
(** * Locking, unlocking and cancelling ([src/runtime/sync.rs])

    The specification of the three entry points of the mutexes, on every branch. *)

From stdpp Require Import sorting.
From S2P Require Import Prelude Effects Budget Contract Config Context Reservation.
From S2P Require Import Tcb Store Chain Ready Wait Switch Invariant Dispatch Inherit Donation Sync.
From S2P Require Import Moves Permit Slide Lean Handoff Mutex.

(** ** Updating one mutex *)

Definition with_mutex (a : Z) (h : MutexState → MutexState) (w : World) : World :=
  w <| w_mutexes ::= alter h a |>.

(** An update that keeps the wait queue. *)
Definition keeps_queue (h : MutexState → MutexState) : Prop := ∀ st,
  mtx_wait_head (h st) = mtx_wait_head st ∧ mtx_wait_tail (h st) = mtx_wait_tail st.

Lemma with_mutex_lookup a h w b :
  w_mutexes (with_mutex a h w) !! b = if decide (b = a) then h <$> w_mutexes w !! a else w_mutexes w !! b.
Proof.
  unfold with_mutex. simpl. case_decide as E; [subst; by rewrite lookup_alter_eq|by rewrite lookup_alter_ne].
Qed.

Lemma semaphores_with_mutex w q d a h :
  keeps_queue h → semaphores_hand w q d → semaphores_hand (with_mutex a h w) q d.
Proof.
  intros Hh [Ho Hso [S1 S2 S3 S4 S5] [G1 G2 G3]].
  split; [apply owned_mutex_update; [by intros st; apply Hh..|done]|done|by split|by split].
Qed.

(** A recursive lock or a partial unlock. *)
Lemma kernel_depth w q d a st n :
  kernel_hand w q d → w_mutexes w !! a = Some st → mtx_owner st ≠ NIL → 1 <= n <= u32_max →
  (∀ i, slot_in i → t_granted_mutex (T w i) ≠ a) →
  kernel_hand (with_mutex a (λ st, st <| mtx_depth := n |>) w) q d.
Proof.
  intros Hk Hst Hn Hd Hg. pose proof Hk as [Hsem Hinh [M1 M2 M3 M4]].
  destruct (kernel_owner w q d a st Hk Hst Hn) as [_ Ha].
  split; [by apply semaphores_with_mutex|..].
  - apply (inheritance_same w); [|done]. split; try done. intros b. rewrite with_mutex_lookup.
    case_decide; [subst|done]. by destruct (w_mutexes w !! a).
  - split.
    + rewrite with_mutex_lookup. by rewrite decide_False.
    + intros b st'. rewrite with_mutex_lookup. case_decide; [|eauto]. subst. rewrite Hst.
      intros [= <-] E. done.
    + intros b st'. rewrite with_mutex_lookup. case_decide; [|eauto]. subst. rewrite Hst. by intros [= <-] _.
    + intros i Hi Hne. rewrite with_mutex_lookup, decide_False; [by apply M4|]. by apply Hg.
Qed.

(** The last unlock before the release. *)
Lemma mutexes_but_of w q a h :
  mutexes w q → a ≠ 0 → (∀ i, slot_in i → t_granted_mutex (T w i) ≠ a) → mutexes_but (with_mutex a h w) q a.
Proof.
  intros [M1 M2 M3 M4] Ha Hg. split.
  - rewrite with_mutex_lookup. by rewrite decide_False.
  - intros b st Hb. rewrite with_mutex_lookup, decide_False by done. eauto.
  - intros b st Hb. rewrite with_mutex_lookup, decide_False by done. eauto.
  - intros i Hi Hne. split; [by apply Hg|]. rewrite with_mutex_lookup, decide_False by (by apply Hg). by apply M4.
Qed.

(** A mutex that nobody waits for gets or loses its owner. *)
Lemma kernel_unwaited w q d a (h h' : MutexState → MutexState) st :
  kernel_hand w q d → keeps_queue (λ st, h' (h st)) → a ≠ 0 → w_mutexes w !! a = Some st → q (QMtx a) = [] →
  (∀ i, slot_in i → t_granted_mutex (T w i) ≠ a) →
  (mtx_owner (h' (h st)) = NIL ∧ mtx_depth (h' (h st)) = 0 ∨
   slot_in (mtx_owner (h' (h st))) ∧ 1 <= mtx_depth (h' (h st)) <= u32_max) →
  kernel_hand (with_mutex a (λ st, h' (h st)) w) q d.
Proof.
  intros [Hsem Hinh Hmu] Hh Ha Hst Hq Hg Hd. split; [by apply semaphores_with_mutex|..].
  - apply (inheritance_unwaited w q d a (λ st, h' (h st)) st); try done; [apply Hsem|]. naive_solver.
  - apply (mutexes_update (with_mutex a (λ st, h' (h st)) w) _ q q a (h' (h st))); try done.
    + by apply mutexes_but_of.
    + rewrite with_mutex_lookup, decide_True by done. by rewrite Hst.
    + intros E. split; [done|]. destruct Hd as [[_ ?]|[Hs _]]; [done|]. by apply slot_in_not_NIL in Hs.
    + intros E. by destruct Hd as [[? _]|[_ ?]].
    + intros i Hi. by left.
Qed.

(** Nobody holds a grant of a mutex whose owner holds none. *)
Lemma not_granted w q d a st :
  kernel_hand w q d → w_mutexes w !! a = Some st → t_granted_mutex (T w (mtx_owner st)) ≠ a →
  ∀ i, slot_in i → t_granted_mutex (T w i) ≠ a.
Proof.
  intros [_ _ [M1 M2 M3 M4]] Hst Hown i Hi E. assert (a ≠ 0) as Ha by (intros ->; by rewrite M1 in Hst).
  destruct (M4 i Hi) as (st' & Hst' & Ho & _); [congruence|]. rewrite E, Hst in Hst'. injection Hst' as <-.
  rewrite Ho in Hown. done.
Qed.

(** ** Giving a mutex up *)

(** The outcome of the last unlock of [a] by [o]. *)
Definition given_up (w w' : World) (q q' : Queues) (a now : Z) : Prop :=
  kernel w' q' ∧ (∀ b, permits w' b = permits w b) ∧
  match q (QMtx a) with
  | [] => q' = q ∧ w' = with_mutex a (λ st, st <| mtx_depth := 0 |> <| mtx_owner := NIL |>) w
  | nxt :: l => handed (with_mutex a (λ st, st <| mtx_depth := 0 |>) w) w' q q' a nxt l now
  end.

Lemma with_mutex_twice a (h h' : MutexState → MutexState) w : with_mutex a h' (with_mutex a h w) = with_mutex a (λ st, h' (h st)) w.
Proof.
  assert (∀ m : gmap Z MutexState, alter h' a (alter h a m) = alter (λ st, h' (h st)) a m) as E.
  { intros m. apply map_eq. intros b. destruct (decide (b = a)) as [->|Hne].
    - rewrite !lookup_alter_eq. by destruct (m !! a).
    - by rewrite !lookup_alter_ne. }
  destruct w as [s ss ms]. exact (f_equal (mkWorld s ss) (E ms)).
Qed.

Lemma give_up_mutex_spec w q a st now :
  kernel w q → w_mutexes w !! a = Some st → mtx_owner st ≠ NIL → t_waiting_mutex (T w (mtx_owner st)) = 0 →
  (∀ i, slot_in i → t_granted_mutex (T w i) ≠ a) →
  wp (release_mutex_locked a (mtx_owner st) now) (λ _ w', ∃ q', given_up w w' q q' a now)
    (with_mutex a (λ st, st <| mtx_depth := 0 |>) w).
Proof.
  intros Hk Hst Hn Hfree Hg. pose proof Hk as [Hsem Hinh Hmu]. destruct (kernel_owner w q None a st Hk Hst Hn) as [Hos Ha].
  set (w1 := with_mutex a _ w). set (o := mtx_owner st) in *.
  assert (semaphores w1 q) as Hsem1 by (by apply semaphores_with_mutex).
  pose proof Hsem1 as [Ho1 Hso1 Hse1 Hgr1]. assert (inheritance w1 None) as Hinh1.
  { apply (inheritance_same w); [|done]. split; try done. intros b. unfold w1. rewrite with_mutex_lookup.
    case_decide; [subst|done]. by destruct (w_mutexes w !! a). }
  assert (w_mutexes w1 !! a = Some (st <| mtx_depth := 0 |>)) as Hst1.
  { unfold w1. rewrite with_mutex_lookup, decide_True by done. by rewrite Hst. }
  unfold given_up. destruct (q (QMtx a)) as [|nxt l] eqn:E.
  - unfold release_mutex_locked. apply wp_bind. unfold pop_mutex_waiter.
    wp_apply (pop_waiter_spec w1 q (QMtx a) (proj1 Ho1)); [|by eexists]. rewrite E. intros x w2 (_ & -> & ->).
    rewrite Z.eqb_refl. eapply wp_set_mutex; [done|]. change (w1 <| w_mutexes ::= _ |>) with (with_mutex a (λ st, st <| mtx_owner := NIL |>) w1).
    unfold w1. rewrite with_mutex_twice. exists q. split_and!; [|done..].
    apply (kernel_unwaited w q None a (λ st, st <| mtx_depth := 0 |>) (λ st, st <| mtx_owner := NIL |>) st); try done. by left.
  - wp_apply (release_mutex_spec w1 q a o (st <| mtx_depth := 0 |>) nxt l now); try done.
    intros _ w2 [q2 Hh]. exists q2.
    assert (nxt ∈ q (QMtx a)) as Hin by (rewrite E; left).
    assert (slot_in nxt) as Hsn by (by apply (queues_slot w1 q (proj1 Ho1) (QMtx a))).
    destruct (owned_waiter w1 q None nxt (QMtx a) Ho1 Hsn Hin) as (_ & _ & Hwm & Hws); [done|].
    destruct (kernel_handed w1 w2 q q2 a nxt l now (st <| mtx_depth := 0 |>) Hse1 Hgr1) as [Hk2 Hp2]; try done.
    + by apply mutexes_but_of.
    + eauto with store.
Qed.

(** ** Unlocking *)

(** The outcome of [unlock]. *)
Definition unlock_outcome (w w' : World) (q : Queues) (a now depth : Z) (st : MutexState)
    (r : result DriverError bool) : Prop :=
  if negb (mtx_owner st =? current w) then r = Err InvalidContext ∧ w' = w
  else if negb (mtx_depth st =? 1) then
    r = Ok false ∧ w' = with_mutex a (λ st', st' <| mtx_depth := mtx_depth st - 1 |>) w ∧ kernel w' q
  else r = Ok (negb (bool_decide (q (QMtx a) = [])) && (depth =? 0)) ∧ ∃ q', given_up w w' q q' a now.

Lemma unlock_spec w q a now depth st :
  kernel w q → w_mutexes w !! a = Some st → t_state (T w (current w)) = Running →
  t_granted_mutex (T w (current w)) = 0 →
  wp (unlock a now depth) (λ r w', unlock_outcome w w' q a now depth st r) w.
Proof.
  intros Hk Hst Hrun Hng. pose proof Hk as [Hsem Hinh Hmu]. pose proof Hsem as [Ho _ _ _].
  assert (slot_in (current w)) as Hc by eauto with store. pose proof (owned_shape w q None Ho) as Hs.
  destruct (owned_not_waiting w q None (current w) Ho Hc) as [_ Hwm]; [congruence|].
  assert (a ≠ 0) as Ha by (intros ->; by rewrite (mutexes_address w q Hmu) in Hst).
  unfold unlock, unlock_outcome. go. fold (current w). eapply wp_mutex_at; [done|].
  destruct (Z.eqb_spec (mtx_owner st) (current w)) as [Eo|Eo]; cbn [negb orb]; [|by go].
  assert (mtx_owner st ≠ NIL) as Hn by (rewrite Eo; by apply slot_in_not_NIL).
  pose proof (mutexes_depth w q Hmu a st Hst Hn) as Hd.
  rewrite (proj2 (Z.eqb_neq (mtx_depth st) 0)) by lia.
  assert (∀ i, slot_in i → t_granted_mutex (T w i) ≠ a) as Hg.
  { apply (not_granted w q None a st Hk Hst). rewrite Eo, Hng. congruence. }
  go. eapply wp_set_mutex; [done|]. destruct (Z.eqb_spec (mtx_depth st) 1) as [E1|E1]; cbn [negb].
  - rewrite E1. cbn [Z.sub Z.eqb negb]. change (1 - 1) with 0. cbn [Z.eqb negb]. change (w <| w_mutexes ::= _ |>) with (with_mutex a (λ st', st' <| mtx_depth := 0 |>) w).
    set (w1 := with_mutex a _ w). assert (semaphores w1 q) as Hsem1 by (by apply semaphores_with_mutex).
    assert (shape w1) as Hs1 by (eapply owned_shape, Hsem1).
    assert (valid w1 (QMtx a)) as Hv1.
    { unfold w1. simpl. rewrite lookup_alter_is_Some. by exists st. }
    go. rewrite (queues_head w1 q (QMtx a)) by (done || apply Hsem1). rewrite <-Eo.
    wp_apply (give_up_mutex_spec w q a st now Hk Hst Hn); [|by rewrite Eo|done].
    intros _ w2 [q2 H2]. go. split; [|by exists q2]. f_equal. f_equal. f_equal.
    destruct (q (QMtx a)) as [|x l] eqn:E; [done|]. rewrite bool_decide_false by done.
    apply Z.eqb_neq. change (default NIL (head (x :: l))) with x. apply slot_in_not_NIL.
    apply (queues_slot w q (proj1 Ho) (QMtx a)). rewrite E. left.
  - rewrite (proj2 (Z.eqb_neq (mtx_depth st - 1) 0)) by lia. go. split_and!; [done..|].
    apply (kernel_depth w q None a st); try done. lia.
Qed.

(** ** Cancelling *)

(** A task that waits for nothing becomes ready. *)
Lemma kernel_make_ready w q i now :
  kernel w q → slot_in i → detached q i → t_state (T w i) ≠ Ready →
  wp (make_ready i now) (λ _ w', kernel w' (enqueued w i q) ∧ updated w w' i (readied now) ∧
    ∀ b, permits w' b = permits w b) w.
Proof.
  intros [Hsem Hinh Hmu] Hi Hd Hst. pose proof Hsem as [Ho Hso Hse [G1 G2 G3]]. pose proof (owned_shape w q None Ho) as Hs.
  destruct (owned_detached_waits w q None i Ho Hi Hd) as [Hws Hwm].
  wp_apply (owned_make_ready w q None i now Ho Hi Hd Hst Hws Hwm). intros _ w' [Ho' Hc].
  pose proof (updated_core w w' i _ Hs Hi Hc) as Hu.
  assert (∀ A (f : Tcb → A), (∀ t v, f (t <| t_next := v |>) = f t) → (∀ t, f (readied now t) = f t) →
    ∀ j, f (T w' j) = f (T w j)) as Hf by (intros A f F1 F2 j; rewrite (Hu A f) by done; by case_decide).
  assert (∀ b, sem_count <$> w_sems w' !! b = sem_count <$> w_sems w !! b) as Hcs.
  { intros b. apply core_sem_count. by rewrite (core_sems _ w' b Hc). }
  assert (∀ b, core_mtx <$> w_mutexes w' !! b = core_mtx <$> w_mutexes w !! b) as Hcm
    by (intros b; by rewrite (core_mutexes _ w' b Hc)).
  split_and!; [split; [split|..]|done|].
  - done.
  - apply (sorted_all_ext w w' q _ Hso); [by apply (Hf _ t_priority)|intros a; apply enqueued_waits..].
  - apply (sems_same w w' q _ Hcs); [by apply (Hf _ t_granted_sem)| |done].
    intros a. by destruct (enqueued_waits w i q a) as [-> _].
  - split; intros j Hj; rewrite ?(Hf _ t_sem_granted), ?(Hf _ t_granted_sem), ?(Hf _ t_granted_mutex),
      ?(Hf _ t_waiting_sem), ?(Hf _ t_waiting_mutex) by done; auto.
  - apply (inheritance_same w); [|done]. split; [by apply (Hf _ t_base_priority)|by apply (Hf _ t_priority)
      |by apply (Hf _ t_inherited_waiters)|by apply (Hf _ t_waiting_mutex)|]. intros a. by apply core_mtx_owner.
  - apply (mutexes_same w w' q _ Hcm); [by apply (Hf _ t_granted_mutex)| |done].
    intros a. by destruct (enqueued_waits w i q a) as [_ ->].
  - intros b. apply permits_same; [done|]. by apply (Hf _ t_granted_sem).
Qed.

Definition clearing (t : Tcb) : Tcb :=
  t <| t_waiting_mutex := 0 |> <| t_wake_at := 0 |> <| t_sem_granted := false |>.

Lemma clearing_inert : inert clearing.
Proof. by split. Qed.

(** The waiter has left the queue of its mutex; the owner still counts it. *)
Record left_queue (w w2 : World) (q q1 : Queues) (i : Z) : Prop := {
  left_owned : owned w2 q1 None;
  left_sorted : sorted_all w2 q1;
  left_sems : sems w2 q1;
  left_grants : grants w2;
  left_mutexes : mutexes w2 q1;
  left_leaning : leaning w2 (at_one (owner_of w i) (prio w i) 1) None;
  left_updated : updated w w2 i clearing;
  left_permits b : permits w2 b = permits w b;
  left_detached : detached q1 i;
}.

Lemma left_mutex w w1 q i a :
  kernel w q → slot_in i → t_waiting_mutex (T w i) = a → a ≠ 0 → core w1 = core w →
  queues w1 (qset (QMtx a) (without i (q (QMtx a))) q) →
  left_queue w (upd_task i clearing w1) q (qset (QMtx a) (without i (q (QMtx a))) q) i.
Proof.
  intros [Hsem Hinh Hmu] Hi Hwm Ha Hc1 Hq1. pose proof Hsem as [Ho Hso Hse Hgr].
  set (w2 := upd_task i clearing w1). set (q1 := qset (QMtx a) _ q).
  pose proof (owned_shape w q None Ho) as Hs. assert (shape w1) as Hs1 by (by eapply queues_shape).
  pose proof (placed_mtx_home w q None i (owned_placed w q None (proj2 Ho) i Hi)) as Hin. rewrite Hwm in Hin.
  specialize (Hin Ha). destruct (grants_waiting w Hgr i Hi) as [Hgs Hgm]; [right; congruence|].
  assert (core w2 = core (upd_task i clearing w)) as Hc2.
  { unfold w2. by rewrite !(core_upd_task _ _ _ clearing), Hc1. }
  pose proof (updated_core w w2 i clearing Hs Hi Hc2) as Hu.
  assert (∀ b, core_mtx <$> w_mutexes w2 !! b = core_mtx <$> w_mutexes w !! b) as Hcm
    by (intros b; by rewrite (core_mutexes _ w2 b Hc2)).
  assert (∀ b, sem_count <$> w_sems w2 !! b = sem_count <$> w_sems w !! b) as Hcs.
  { intros b. apply core_sem_count. by rewrite (core_sems _ w2 b Hc2). }
  assert (∀ j, t_granted_sem (T w2 j) = t_granted_sem (T w j)) as Hg
    by (intros j; rewrite (Hu _ t_granted_sem) by done; by case_decide).
  assert (∀ b, mtx_owner <$> w_mutexes w2 !! b = mtx_owner <$> w_mutexes w !! b) as Hmo
    by (intros b; by apply core_mtx_owner).
  destruct (rewired_unwait w w2 i clearing Hi (inheritance_refs w None Hinh) Hu) as [Hrw Hnil]; [by intros t|done|].
  split.
  - apply (owned_unwait w w1 q None i (QMtx a) clearing); done.
  - apply (sorted_all_ext w w2 q1); [by apply sorted_all_without| |done..].
    intros j. rewrite (Hu _ t_priority) by done. by case_decide.
  - by apply (sems_same w w2 q q1 Hcs Hg).
  - apply (grants_updated w w2 i clearing Hi Hu Hgr). cbv zeta.
    change ((false = true ↔ t_granted_sem (T w i) ≠ 0 ∨ t_granted_mutex (T w i) ≠ 0) ∧
      (t_granted_sem (T w i) = 0 ∨ t_granted_mutex (T w i) = 0) ∧
      (t_waiting_sem (T w i) ≠ 0 ∨ 0 ≠ 0 → t_granted_sem (T w i) = 0 ∧ t_granted_mutex (T w i) = 0)).
    rewrite Hgs, Hgm. split_and!; [|by left|done]. split; [done|]. by intros [[]|[]].
  - apply (mutexes_same w w2 q q1 Hcm); [| |done].
    + intros j. rewrite (Hu _ t_granted_mutex) by done. by case_decide.
    + intros b Hb. unfold q1, qset. case_decide as E; [|done]. injection E as <-. by rewrite Hb.
  - by apply (leaning_unwait w).
  - done.
  - intros b. by apply permits_same.
  - by apply (detached_without w q (QMtx a) i (proj1 Ho)).
Qed.

Lemma slides_return w x g a i :
  inert g → (∀ o, owner_in w a = Some o → o ≠ NIL → ¬ ahead (waiting_in w) (owner_in w) o x) →
  slides x g (waiting_in w) (owner_in w)
    (state ← mutex_at a; when (negb (state.(mtx_owner) =? NIL))
      (priority ← tget t_priority i; remove_inheritance state.(mtx_owner) priority)).
Proof.
  intros Hg Hx. apply (slides_bind_result x g _ _ Hg); [by apply slides_mutex_at|].
  intros st w1 w2 Hw1 Hst Hw2. pose proof (mutex_at_graph x g (waiting_in w) (owner_in w) Hg w1 w2 a st Hw1 Hst) as Ho.
  revert w2 Hw2 Hst. cut (slides x g (waiting_in w) (owner_in w) (when (negb (mtx_owner st =? NIL))
      (priority ← tget t_priority i; remove_inheritance st.(mtx_owner) priority))); [intros H w2 Hw2 _; by apply H|].
  destruct (Z.eqb_spec (mtx_owner st) NIL) as [E|E]; cbn [negb when]; [by apply slides_ret|].
  apply (slides_bind x g _ _ Hg); [apply slides_tget; [done|apply Hg]|intros p].
  apply slides_remove_inheritance; auto.
Qed.

(** Following owners follows the wait-for graph. *)
Lemma waits_for_in w j o :
  waiting_in w j ≠ 0 → owner_in w (waiting_in w j) = Some o → o ≠ NIL → waits_for w j o.
Proof.
  intros Hw Ho Hn. apply waits_for_owner. split; [|done]. unfold owner_of. fold (waiting_in w j).
  rewrite (proj2 (Z.eqb_neq _ _) Hw). unfold owner_in in Ho. by destruct (w_mutexes w !! waiting_in w j); simplify_eq/=.
Qed.

Lemma ahead_path w o i : ahead (waiting_in w) (owner_in w) o i → rtc (waits_for w) o i.
Proof. induction 1; [done|]. eapply rtc_l; [|done]. by eapply waits_for_in. Qed.

(** A waiter is not ahead of itself. *)
Lemma not_ahead w i o :
  acyclic w → waiting_in w i ≠ 0 → owner_in w (waiting_in w i) = Some o → o ≠ NIL →
  ¬ ahead (waiting_in w) (owner_in w) o i.
Proof.
  intros Hac Hwm Ho Hn Hah%ahead_path. apply (Hac i). eapply tc_rtc_r; [|exact Hah].
  apply tc_once. by eapply waits_for_in.
Qed.

(** A waiter of a mutex gives up. *)
Record resigned (w w' : World) (i : Z) : Prop := {
  resigned_kernel : ∃ q', kernel w' q';
  resigned_permits b : b ≠ 0 → permits w' b = permits w b;
  resigned_task : t_waiting_sem (T w' i) = 0 ∧ t_waiting_mutex (T w' i) = 0 ∧
    t_granted_sem (T w' i) = 0 ∧ t_granted_mutex (T w' i) = 0;
  resigned_free : keeps_free w w';
}.

(** The donation goes back to the owner; the task is still Blocked but waits for nothing. *)
Record returned (w w3 : World) (q3 : Queues) (i : Z) : Prop := {
  returned_kernel : kernel w3 q3;
  returned_permits b : permits w3 b = permits w b;
  returned_detached : detached q3 i;
  returned_task : t_state (T w3 i) = Blocked ∧ t_waiting_sem (T w3 i) = 0 ∧ t_waiting_mutex (T w3 i) = 0 ∧
    t_granted_sem (T w3 i) = 0 ∧ t_granted_mutex (T w3 i) = 0;
  returned_free : keeps_free w w3;
}.

Lemma return_spec w w1 q i a :
  kernel w q → slot_in i → t_waiting_mutex (T w i) = a → a ≠ 0 → core w1 = core w →
  queues w1 (qset (QMtx a) (without i (q (QMtx a))) q) →
  wp (state ← mutex_at a; when (negb (state.(mtx_owner) =? NIL))
       (priority ← tget t_priority i; remove_inheritance state.(mtx_owner) priority))
    (λ _ w3, ∃ q3, returned w w3 q3 i) (upd_task i clearing w1).
Proof.
  intros Hk Hi Hwm Ha Hc1 Hq1. pose proof Hk as [Hsem Hinh Hmu]. pose proof Hsem as [Ho Hso Hse Hgr].
  pose proof (owned_shape w q None Ho) as Hs.
  destruct (left_mutex w w1 q i a Hk Hi Hwm Ha Hc1 Hq1) as [L1 L2 L3 L4 L5 L6 L7 L8 L9].
  set (w2 := upd_task i clearing w1) in *. set (q1 := qset (QMtx a) _ q) in *.
  pose proof (placed_mtx_home w q None i (owned_placed w q None (proj2 Ho) i Hi)) as Hin. rewrite Hwm in Hin.
  specialize (Hin Ha). destruct (owned_waiter w q None i (QMtx a) Ho Hi Hin) as (Hbl & _ & _ & Hws); [done|].
  destruct (queues_valid w q (proj1 Ho) _ _ Hin) as [st Hst].
  assert (mtx_owner st ≠ NIL) as Hn.
  { intros E. destruct (mutexes_free w q Hmu a st Hst E) as [E' _]. rewrite E' in Hin. by apply elem_of_nil in Hin. }
  destruct (kernel_owner w q None a st Hk Hst Hn) as [Hos _].
  assert (owner_of w i = mtx_owner st) as Hown.
  { unfold owner_of. by rewrite Hwm, Hst, (proj2 (Z.eqb_neq _ _) Ha). }
  assert (core_mtx <$> w_mutexes w2 !! a = core_mtx <$> w_mutexes w !! a) as Hm2
    by (change (w_mutexes w2) with (w_mutexes w1); by rewrite (core_mutexes w w1 a Hc1)).
  rewrite Hst in Hm2. destruct (w_mutexes w2 !! a) as [st2|] eqn:Hst2; [|done]. injection Hm2 as Hst2o _.
  assert (shape w2) as Hs2 by eauto with store.
  apply wp_bind. eapply wp_mutex_at; [done|]. rewrite Hst2o, (proj2 (Z.eqb_neq _ _) Hn). cbn [negb when]. go.
  assert (t_priority (T w2 i) = prio w i) as Ep by (rewrite (L7 _ t_priority), decide_True by done; done).
  rewrite Ep. pose proof (placed_priority w q None i (owned_placed w q None (proj2 Ho) i Hi)) as Hp.
  rewrite Hown in L6.
  wp_apply (remove_inheritance_spec w2 q1 None (mtx_owner st) (prio w i) L1 L2 Hos Hp L6). intros _ w3 [q3 Hset].
  destruct (kernel_settled w2 w3 q1 q3 None L3 L4 L5 Hset) as [Hk3 Hp3]. pose proof Hset as [S1 S2 S3 S4 S5].
  assert (shape w3) as Hs3 by eauto with store. exists q3.
  assert (t_state (T w3 i) = Blocked ∧ t_waiting_sem (T w3 i) = 0 ∧ t_waiting_mutex (T w3 i) = 0 ∧
    t_granted_sem (T w3 i) = 0 ∧ t_granted_mutex (T w3 i) = 0) as E.
  { rewrite !(sbp_field w2 w3 S4) by done. unfold w2. rewrite !T_upd_eq by (done || by eapply queues_shape).
    destruct (grants_waiting w Hgr i Hi) as [G1 G2]; [right; congruence|]. simpl.
    rewrite !(core_field t_state w w1), !(core_field t_waiting_sem w w1), !(core_field t_granted_sem w w1),
      !(core_field t_granted_mutex w w1) by done. done. }
  split; [done|intros b; rewrite Hp3; apply L8| |done|].
  2:{ apply (keeps_free_trans w w2); [apply (keeps_free_updated w w2 i clearing L7); by right|].
      apply keeps_free_same. by apply (sbp_field w2 w3 S4). }
  destruct E as (E1 & E2 & E3 & _).
  apply (owned_detached w3 q3 None); try done. apply (owned_not_queued w3 q3 None); [done..|by rewrite E1].
Qed.

(** The task is ready again. *)
Lemma resigned_ready w w3 q3 i now :
  returned w w3 q3 i → slot_in i →
  wp (make_ready i now) (λ _ w', resigned w w' i ∧ t_state (T w' i) = Ready ∧
    updated w3 w' i (readied now)) w3.
Proof.
  intros [Hk3 Hp3 Hd (E1 & E2 & E3 & E4 & E5) Hfree] Hi.
  wp_apply (kernel_make_ready w3 q3 i now Hk3 Hi Hd); [|by rewrite E1].
  intros _ w4 (Hk4 & Hu4 & Hp4). split_and!; [split| |done].
  - by eexists.
  - intros b _. rewrite Hp4. apply Hp3.
  - rewrite (Hu4 _ t_waiting_sem), (Hu4 _ t_waiting_mutex), (Hu4 _ t_granted_sem), (Hu4 _ t_granted_mutex) by done.
    rewrite !decide_True by done. done.
  - apply (keeps_free_trans w w3); [done|]. eapply keeps_free_updated; [done|]. left. by rewrite E1.
  - rewrite (Hu4 _ t_state), decide_True by done. done.
Qed.

Lemma resign_spec w w1 q i a now :
  kernel w q → slot_in i → t_waiting_mutex (T w i) = a → a ≠ 0 → core w1 = core w →
  queues w1 (qset (QMtx a) (without i (q (QMtx a))) q) →
  wp ((state ← mutex_at a; when (negb (state.(mtx_owner) =? NIL))
         (priority ← tget t_priority i; remove_inheritance state.(mtx_owner) priority)) ;;
      task_state ← tget t_state i;
      when (state_eqb task_state Blocked) (make_ready i now) ;; mret Cancelled)
    (λ r w', r = Cancelled ∧ resigned w w' i ∧ t_state (T w' i) = Ready) (upd_task i clearing w1).
Proof.
  intros Hk Hi Hwm Ha Hc1 Hq1. apply wp_bind. wp_apply (return_spec w w1 q i a Hk Hi Hwm Ha Hc1 Hq1).
  intros _ w3 [q3 Hr]. pose proof Hr as [Hk3 _ _ (E1 & _) _].
  assert (shape w3) as Hs3 by (eapply owned_shape, kernel_owned; exact Hk3). go.
  rewrite E1. unfold state_eqb. rewrite bool_decide_true by done. cbn [when].
  wp_apply (resigned_ready w w3 q3 i now Hr Hi). intros _ w4 (? & ? & _). by go.
Qed.

(** A task gives its mutex grant back, or consumes it. *)
Definition relinquish (t : Tcb) : Tcb := t <| t_granted_mutex := 0 |> <| t_sem_granted := false |>.

Lemma kernel_relinquish w q i :
  kernel w q → slot_in i → t_granted_sem (T w i) = 0 →
  kernel (upd_task i relinquish w) q ∧ ∀ b, permits (upd_task i relinquish w) b = permits w b.
Proof.
  intros [[Ho Hso Hse Hgr] Hinh Hmu] Hi Hgs. pose proof (owned_shape w q None Ho) as Hs.
  set (w' := upd_task i relinquish w). pose proof (updated_upd w i relinquish Hs Hi) as Hu.
  assert (∀ A (f : Tcb → A), (∀ t, f (relinquish t) = f t) → ∀ j, f (T w' j) = f (T w j)) as Hf
    by (intros A f F j; by apply T_upd_field).
  split; [split; [split|..]|intros b; apply permits_same; [done|by apply (Hf _ t_granted_sem)]].
  - by apply owned_upd.
  - apply (sorted_all_ext w w' q q Hso); [by apply (Hf _ t_priority)|done..].
  - apply (sems_same w w' q q); try done. by apply (Hf _ t_granted_sem).
  - apply (grants_updated w w' i relinquish Hi Hu Hgr). cbv zeta.
    change ((false = true ↔ t_granted_sem (T w i) ≠ 0 ∨ 0 ≠ 0) ∧ (t_granted_sem (T w i) = 0 ∨ 0 = 0) ∧
      (t_waiting_sem (T w i) ≠ 0 ∨ t_waiting_mutex (T w i) ≠ 0 → t_granted_sem (T w i) = 0 ∧ 0 = 0)).
    rewrite Hgs. split_and!; [|by left|done]. split; [done|]. by intros [[]|[]].
  - apply (inheritance_same w); [|done]. split; try done; intros j; by apply Hf.
  - destruct Hmu as [M1 M2 M3 M4]. split; try done. intros j Hj. rewrite (Hu _ t_granted_mutex) by done.
    case_decide; [done|]. by apply M4.
Qed.

(** The outcome of a cancellation. *)
Definition engaged (t : Tcb) : bool :=
  negb (t_waiting_sem t =? 0) || negb (t_granted_sem t =? 0) || negb (t_waiting_mutex t =? 0) ||
  negb (t_granted_mutex t =? 0).

Record cancelled_wait (w w' : World) (q : Queues) (i now : Z) (r : WaitCancellationOutcome) : Prop := {
  cancelled_result : r = if engaged (T w i) then Cancelled else NotWaiting;
  cancelled_rest : resigned w w' i;
  cancelled_nothing : engaged (T w i) = false → w' = w;
  cancelled_ready : t_waiting_sem (T w i) ≠ 0 ∨ t_waiting_mutex (T w i) ≠ 0 → t_state (T w' i) = Ready;
  cancelled_handoff : t_granted_mutex (T w i) ≠ 0 →
    ∃ q', given_up (upd_task i relinquish w) w' q q' (t_granted_mutex (T w i)) now;
}.

(** The task that receives the mutex was Blocked. *)
Lemma given_up_free w w' q q' a now :
  kernel w q → given_up w w' q q' a now → keeps_free w w'.
Proof.
  intros Hk (_ & _ & Hgu). pose proof (kernel_owned w q None Hk) as Ho. pose proof (owned_shape w q None Ho) as Hs.
  destruct (q (QMtx a)) as [|nxt l] eqn:E; [destruct Hgu as [_ ->]; by apply keeps_free_same|].
  destruct Hgu as [_ _ _ H _ _]. assert (nxt ∈ q (QMtx a)) as Hin by (rewrite E; left).
  assert (slot_in nxt) as Hn by (by apply (queues_slot w q (proj1 Ho) (QMtx a))).
  destruct (owned_waiter w q None nxt (QMtx a) Ho Hn Hin) as (Hbl & _); [done|].
  assert (shape (with_mutex a (λ st, st <| mtx_depth := 0 |>) w)) as Hs'.
  { eapply owned_shape, (semaphores_owned _ q None), semaphores_with_mutex; [by intros ?|apply Hk]. }
  intros j Hj. rewrite (T_handed (with_mutex a (λ st, st <| mtx_depth := 0 |>) w) w' a nxt now t_state) by done.
  case_decide; [|done]. subst. congruence.
Qed.

Lemma given_up_task w w' q q' a st now i :
  kernel w q → w_mutexes w !! a = Some st → a ≠ 0 → given_up w w' q q' a now → slot_in i → i ∉ q (QMtx a) →
  t_waiting_sem (T w' i) = t_waiting_sem (T w i) ∧ t_waiting_mutex (T w' i) = t_waiting_mutex (T w i) ∧
  t_granted_sem (T w' i) = t_granted_sem (T w i) ∧ t_granted_mutex (T w' i) = t_granted_mutex (T w i).
Proof.
  intros Hk Hst Ha (_ & _ & Hgu) Hi Hni. destruct (q (QMtx a)) as [|nxt l] eqn:E; [by destruct Hgu as [_ ->]|].
  destruct Hgu as [_ _ _ H _ _]. pose proof (owned_shape w q None (kernel_owned w q None Hk)) as Hs.
  assert (slot_in nxt) as Hn.
  { apply (queues_slot w q (proj1 (kernel_owned w q None Hk)) (QMtx a)). rewrite E. left. }
  assert (nxt ≠ i) as Hne by (intros ->; apply Hni; left).
  assert (shape (with_mutex a (λ st, st <| mtx_depth := 0 |>) w)) as Hs'.
  { eapply owned_shape, (semaphores_owned _ q None), semaphores_with_mutex; [by intros ?|apply Hk]. }
  pose proof (λ A (f : Tcb → A), T_handed (with_mutex a (λ st, st <| mtx_depth := 0 |>) w) w' a nxt now f i) as HT.
  rewrite (HT _ t_waiting_sem), (HT _ t_waiting_mutex), (HT _ t_granted_sem), (HT _ t_granted_mutex) by done.
  by rewrite !decide_False.
Qed.

Lemma sem_excludes_mutex w q i :
  semaphores w q → slot_in i → t_waiting_sem (T w i) ≠ 0 ∨ t_granted_sem (T w i) ≠ 0 →
  t_waiting_mutex (T w i) = 0 ∧ t_granted_mutex (T w i) = 0.
Proof.
  intros [Ho _ _ [G1 G2 G3]] Hi [H|H].
  - destruct (G3 i Hi) as [_ ?]; [by left|]. pose proof (owned_placed w q None (proj2 Ho) i Hi) as Hpl.
    by destruct (owned_waiter w q None i _ Ho Hi (placed_sem_home w q None i Hpl H)) as (_ & _ & _ & ?).
  - destruct (decide (t_waiting_mutex (T w i) = 0)) as [|Hm]; [by destruct (G2 i Hi)|].
    destruct (G3 i Hi); [by right|done].
Qed.

(** The mutex half of [cancel_wait_locked]. *)
Definition cancel_mutex_wait (task now : Z) : M World WaitCancellationOutcome :=
  waiting_mutex ← tget t_waiting_mutex task;
  if negb (waiting_mutex =? 0) then
    remove_mutex_waiter waiting_mutex task ;;
    state ← mutex_at waiting_mutex;
    when (negb (state.(mtx_owner) =? NIL))
      (priority ← tget t_priority task; remove_inheritance state.(mtx_owner) priority) ;;
    set_task task clearing ;;
    task_state ← tget t_state task;
    when (state_eqb task_state Blocked) (make_ready task now) ;;
    mret Cancelled
  else
    granted_mutex ← tget t_granted_mutex task;
    if negb (granted_mutex =? 0) then
      set_task task relinquish ;;
      state ← mutex_at granted_mutex;
      assert_ (state.(mtx_owner) =? task) ;;
      assert_ (state.(mtx_depth) =? 1) ;;
      set_mutex granted_mutex (λ st, st <| mtx_depth := 0 |>) ;;
      release_mutex_locked granted_mutex task now ;;
      mret Cancelled
    else mret NotWaiting.

Lemma cancel_waiting_mutex w q i now :
  kernel w q → slot_in i → t_waiting_mutex (T w i) ≠ 0 →
  wp (cancel_mutex_wait i now) (λ r w', r = Cancelled ∧ resigned w w' i ∧ t_state (T w' i) = Ready) w.
Proof.
  intros Hk Hi Ha. pose proof Hk as [[Ho _ _ _] [_ _ _ _ Hac] _].
  pose proof (owned_shape w q None Ho) as Hs. pose proof (owned_placed w q None (proj2 Ho) i Hi) as Hpl.
  unfold cancel_mutex_wait. go. rewrite (proj2 (Z.eqb_neq _ _) Ha). cbn [negb].
  set (a := t_waiting_mutex (T w i)) in *. pose proof (placed_mtx_home w q None i Hpl Ha) as Hin. fold a in Hin.
  go. unfold remove_mutex_waiter.
  wp_apply (remove_spec w q (QMtx a) i (proj1 Ho) (queues_valid w q (proj1 Ho) _ _ Hin)).
  intros _ w1 (Hc1 & Hq1 & _). specialize (Hq1 Hin). assert (shape w1) as Hs1 by (by eapply queues_shape).
  apply bind_assoc_wp. apply (wp_slide i clearing (waiting_in w1) (owner_in w1) clearing_inert).
  - apply slides_return; [apply clearing_inert|]. intros o Hown Hn.
    assert (waiting_in w1 i = a) as Hwa by (by apply (core_field t_waiting_mutex w w1)).
    rewrite <-Hwa in Hown. apply (not_ahead w1); try done; [|congruence]. by apply (acyclic_sbp w); [apply sbp_core|].
  - by apply graph_of.
  - done.
  - apply wp_bind, wp_set_task; [done..|]. by eapply resign_spec.
Qed.

Lemma cancel_granted_mutex w q i now :
  kernel w q → slot_in i → t_waiting_mutex (T w i) = 0 → t_granted_mutex (T w i) ≠ 0 →
  t_waiting_sem (T w i) = 0 → t_granted_sem (T w i) = 0 →
  wp (cancel_mutex_wait i now) (λ r w', r = Cancelled ∧ resigned w w' i ∧
    ∃ q', given_up (upd_task i relinquish w) w' q q' (t_granted_mutex (T w i)) now) w.
Proof.
  intros Hk Hi Hwm Ha Hws Hgs. pose proof Hk as [[Ho _ _ _] _ Hmu]. pose proof (owned_shape w q None Ho) as Hs.
  unfold cancel_mutex_wait. go. rewrite Hwm. cbn [Z.eqb negb]. go. rewrite (proj2 (Z.eqb_neq _ _) Ha). cbn [negb].
  set (a := t_granted_mutex (T w i)) in *. go.
  destruct (kernel_relinquish w q i Hk Hi Hgs) as [Hk1 Hp1]. set (w1 := upd_task i relinquish w) in *.
  destruct (mutexes_granted w q Hmu i Hi Ha) as (st & Hst & Hown & Hd). fold a in Hst.
  assert (w_mutexes w1 !! a = Some st) as Hst1 by done. pose proof (slot_in_not_NIL i Hi) as Hni.
  eapply wp_mutex_at; [done|]. go. apply wp_assert; [by rewrite Hown, Z.eqb_refl|]. go.
  apply wp_assert; [by rewrite Hd|]. go. eapply wp_set_mutex; [done|].
  change (w1 <| w_mutexes ::= _ |>) with (with_mutex a (λ st, st <| mtx_depth := 0 |>) w1).
  assert (∀ A (f : Tcb → A), f (T w1 i) = f (relinquish (T w i))) as HT by (intros; unfold w1; by rewrite T_upd_eq).
  go. rewrite <-Hown. wp_apply (give_up_mutex_spec w1 q a st now Hk1 Hst1); [|congruence|by rewrite Hown, HT|].
  2:{ apply (not_granted w1 q None a st Hk1 Hst1). rewrite Hown, HT. done. }
  intros _ w2 [q2 H2]. go. rewrite ?Hown. split; [done|]. split; [|by exists q2].
  assert (i ∉ q (QMtx a)) as Hq.
  { intros Hin. destruct (owned_waiter w q None i (QMtx a) Ho Hi Hin) as (_ & ? & ? & _); [done|congruence]. }
  pose proof H2 as (Hk2 & Hp2 & _). split; [by exists q2| | |].
  - intros b _. rewrite Hp2. apply Hp1.
  - destruct (given_up_task w1 w2 q q2 a st now i Hk1 Hst1 Ha H2 Hi Hq) as (-> & -> & -> & ->). by rewrite !HT.
  - apply (keeps_free_trans w w1); [apply keeps_free_same; intros j; by apply T_upd_field|].
    by apply (given_up_free w1 w2 q q2 a now).
Qed.

Lemma cancel_wait_spec w q i now :
  kernel w q → slot_in i → wp (cancel_wait_locked i now) (λ r w', cancelled_wait w w' q i now r) w.
Proof.
  intros Hk Hi. pose proof Hk as [Hsem _ _]. pose proof Hsem as [Ho Hso Hse Hgr].
  unfold cancel_wait_locked. apply wp_bind. wp_apply (cancel_semaphore_spec w q i now Hsem Hi).
  intros r w1 (q1 & [W1 W2 W3 [W4 W5]] & -> & Hrdy & Hsame).
  destruct (negb (t_waiting_sem (T w i) =? 0) || negb (t_granted_sem (T w i) =? 0)) eqn:Eb.
  - go. assert (engaged (T w i) = true) as Een by (unfold engaged; by rewrite Eb).
    destruct (sem_excludes_mutex w q i Hsem Hi) as [Z1 Z2].
    { by apply orb_true_iff in Eb as [?%negb_true_iff%Z.eqb_neq|?%negb_true_iff%Z.eqb_neq]; [left|right]. }
    split; rewrite ?Een; try done.
    + split; [exists q1; by apply (kernel_same_mutexes w w1 q q1)|done| |apply W3].
      destruct W3 as [WF _ _ _ _ _]. by rewrite (WF _ t_waiting_mutex), (WF _ t_granted_mutex).
    + intros [H|H]; [by apply Hrdy|done].
  - rewrite (Hsame eq_refl) in *. clear w1 W1 W2 W3 W4 W5 Hrdy Hsame.
    pose proof Eb as [Ews%negb_false_iff%Z.eqb_eq Egs%negb_false_iff%Z.eqb_eq]%orb_false_iff.
    change (wp (cancel_mutex_wait i now) (λ r w', cancelled_wait w w' q i now r) w).
    assert (engaged (T w i) = negb (t_waiting_mutex (T w i) =? 0) || negb (t_granted_mutex (T w i) =? 0)) as Een.
    { unfold engaged. by rewrite Eb. }
    destruct (Z.eqb_spec (t_waiting_mutex (T w i)) 0) as [Ewm|Ewm]; [destruct (Z.eqb_spec (t_granted_mutex (T w i)) 0) as [Egm|Egm]|].
    + pose proof (owned_shape w q None Ho) as Hs. unfold cancel_mutex_wait. go. rewrite Ewm. cbn [Z.eqb negb]. go.
      rewrite Egm. cbn [Z.eqb negb]. go. split; rewrite ?Een; try done; [split; [by exists q|done..]|].
      by intros [|].
    + wp_apply (cancel_granted_mutex w q i now); try done. intros r w' (-> & Hr & Hg). by split; rewrite ?Een; [..|intros [|]|].
    + wp_apply (cancel_waiting_mutex w q i now); try done. intros r w' (-> & Hr & Hst). split; rewrite ?Een; try done.
      intros Hg. destruct (grants_waiting w Hgr i Hi) as [_ ?]; [by right|done].
Qed.
