(* ===== verification/Acquire.v ===== *)
(** * Acquiring a mutex ([src/runtime/sync.rs])

    The specification of [lock] on every branch: recursion, a free mutex, a try, a
    refused wait, and a wait, which donates the caller's priority to the owner and
    switches away to the best task that is ready after the donation. *)

From stdpp Require Import sorting.
From S2P Require Import Prelude Effects Budget Contract Config Context Reservation.
From S2P Require Import Tcb Store Chain Ready Wait Switch Invariant Dispatch Inherit Donation Sync.
From S2P Require Import Moves Permit Slide Lean Handoff Mutex Lock.

(** The update of a task that begins to wait for [a]. *)
Definition awaiting (a deadline : Z) (t : Tcb) : Tcb :=
  t <| t_state := Blocked |> <| t_wake_at := deadline |> <| t_waiting_mutex := a |> <| t_sem_granted := false |>.

(** The graph gains the edge from [i] to the owner of [a]. *)
Lemma rewired_wait w w' i a st deadline :
  slot_in i → shape w → mutex_refs w → updated w w' i (awaiting a deadline) → a ≠ 0 →
  w_mutexes w !! a = Some st → mtx_owner st ≠ NIL → t_waiting_mutex (T w i) = 0 →
  (∀ b, mtx_owner <$> w_mutexes w' !! b = mtx_owner <$> w_mutexes w !! b) →
  rewired w w' i ∧ owner_of w' i = mtx_owner st ∧ same_donors (block_on i a w) w'.
Proof.
  intros Hi Hs [R1 R2] Hu Ha Hst Hn Hwm Hm.
  assert (∀ A (f : Tcb → A), (∀ t v, f (t <| t_next := v |>) = f t) → (∀ t, f (awaiting a deadline t) = f t) →
    ∀ j, f (T w' j) = f (T w j)) as Hf by (intros A f F1 F2 j; rewrite (Hu A f) by done; by case_decide).
  assert (∀ j, t_waiting_mutex (T w' j) = if decide (i = j) then a else t_waiting_mutex (T w j)) as Hw
    by (intros j; by rewrite (Hu _ t_waiting_mutex)).
  assert (∀ b st', w_mutexes w' !! b = Some st' → ∃ st0, w_mutexes w !! b = Some st0 ∧ mtx_owner st0 = mtx_owner st') as Hback.
  { intros b st' Hb. specialize (Hm b). rewrite Hb in Hm. destruct (w_mutexes w !! b) as [st0|]; [|done].
    exists st0. injection Hm as ->. done. }
  split_and!; [split|..].
  - by apply (Hf _ t_base_priority).
  - by apply (Hf _ t_priority).
  - by apply (Hf _ t_inherited_waiters).
  - intros j Hj. unfold owner_of. rewrite Hw, decide_False by done. case_match; [done|].
    set (b := t_waiting_mutex (T w j)) in *. specialize (Hm b).
    destruct (w_mutexes w' !! b), (w_mutexes w !! b); simpl in Hm |- *; try done. by injection Hm.
  - split.
    + intros j Hj. rewrite Hw. case_decide; intros Hne.
      * specialize (Hm a). rewrite Hst in Hm. by destruct (w_mutexes w' !! a).
      * specialize (Hm (t_waiting_mutex (T w j))). destruct (R1 j Hj Hne) as [st' Hst']. rewrite Hst' in Hm.
        by destruct (w_mutexes w' !! _).
    + intros b st' (st0 & Hst0 & <-)%Hback. by apply (R2 b).
  - unfold owner_of. rewrite Hw, decide_True, (proj2 (Z.eqb_neq _ _) Ha) by done. specialize (Hm a).
    rewrite Hst in Hm. destruct (w_mutexes w' !! a) as [st'|]; [|done]. by injection Hm.
  - unfold block_on. split; try done; intros j.
    + rewrite (T_upd_field t_base_priority) by done. by apply Hf.
    + rewrite (T_upd_field t_priority) by done. by apply Hf.
    + rewrite (T_upd_field t_inherited_waiters) by done. by apply Hf.
    + rewrite Hw, T_upd_task by done. by case_decide.
Qed.

(** The running task has entered the queue of [a]; the owner does not count it yet. *)
Record joined (w w2 : World) (q1 : Queues) (i o : Z) : Prop := {
  joined_sorted : sorted_all w2 q1;
  joined_sems : sems w2 q1;
  joined_grants : grants w2;
  joined_mutexes : mutexes w2 q1;
  joined_leaning : leaning w2 (at_one o (prio w i) (-1)) None;
  joined_donated : 1 <= donated w2 o (prio w i);
  joined_permits b : permits w2 b = permits w b;
}.

Lemma joined_spec w w2 q a st deadline :
  kernel w q → may_block w → w_mutexes w !! a = Some st → mtx_owner st ≠ NIL →
  ¬ rtc (waits_for w) (mtx_owner st) (current w) →
  core w2 = core (upd_task (current w) (awaiting a deadline) w) →
  joined w w2 (qset (QMtx a) (place (prio w) (current w) (q (QMtx a))) q) (current w) (mtx_owner st).
Proof.
  intros Hk [M1 M2 M3 M4 [M5 M6]] Hst Hn Hcyc Hc. pose proof Hk as [[Ho Hso Hse Hgr] Hinh Hmu].
  destruct (kernel_owner w q None a st Hk Hst Hn) as [Hos Ha]. set (q1 := qset _ _ q).
  set (i := current w) in *. assert (slot_in i) as Hi by (by eapply owned_slot_current).
  pose proof (owned_shape w q None Ho) as Hs. pose proof (updated_core w w2 i _ Hs Hi Hc) as Hu.
  destruct (owned_not_waiting w q None i Ho Hi) as [Hws Hwm]; [congruence|].
  assert (∀ b, core_mtx <$> w_mutexes w2 !! b = core_mtx <$> w_mutexes w !! b) as Hcm
    by (intros b; by rewrite (core_mutexes _ w2 b Hc)).
  assert (∀ b, sem_count <$> w_sems w2 !! b = sem_count <$> w_sems w !! b) as Hcs.
  { intros b. apply core_sem_count. by rewrite (core_sems _ w2 b Hc). }
  assert (∀ A (f : Tcb → A), (∀ t v, f (t <| t_next := v |>) = f t) → (∀ t, f (awaiting a deadline t) = f t) →
    ∀ j, f (T w2 j) = f (T w j)) as Hf by (intros A f F1 F2 j; rewrite (Hu A f) by done; by case_decide).
  destruct (rewired_wait w w2 i a st deadline Hi Hs (inheritance_refs w None Hinh) Hu Ha Hst Hn Hwm) as (Hrw & Hown & Hsd).
  { intros b. by apply core_mtx_owner. }
  assert (acyclic w2) as Hac2.
  { apply (same_donors_acyclic (block_on i a w)); [intros j; by apply same_donors_owner_of|].
    apply (acyclic_block w i a st); try done. apply Hinh. }
  split.
  - apply (sorted_all_ext w w2 q1); [by apply sorted_all_place|by apply (Hf _ t_priority)|done..].
  - apply (sems_same w w2 q q1 Hcs); [by apply (Hf _ t_granted_sem)|done..].
  - apply (grants_updated w w2 i _ Hi Hu Hgr). cbv zeta.
    change ((false = true ↔ t_granted_sem (T w i) ≠ 0 ∨ t_granted_mutex (T w i) ≠ 0) ∧
      (t_granted_sem (T w i) = 0 ∨ t_granted_mutex (T w i) = 0) ∧
      (t_waiting_sem (T w i) ≠ 0 ∨ a ≠ 0 → t_granted_sem (T w i) = 0 ∧ t_granted_mutex (T w i) = 0)).
    rewrite M5, M6. split_and!; [|by left|done]. split; [done|]. by intros [[]|[]].
  - apply (mutexes_same w w2 q1 q1 Hcm); [by apply (Hf _ t_granted_mutex)|done|].
    destruct Hmu as [U1 U2 U3 U4]. split; try done. intros b st' Hb Hnil. unfold q1. rewrite qset_ne by congruence. eauto.
  - apply (leaning_wait w); try done. unfold owner_of. by rewrite Hwm.
  - unfold donated. rewrite <-Hown, <-(rewired_priority w w2 i Hrw i : prio w2 i = prio w i). by apply tally_pos.
  - intros b. apply permits_same; [done|]. by apply (Hf _ t_granted_sem).
Qed.

(** ** Waiting *)

(** The caller waits for [a]; [q1] are the queues after its donation. *)
Record locked_out (w w' : World) (q q1 : Queues) (a deadline : Z) (commit : bool) (i : SwitchIntent) : Prop := {
  lo_intent : i = mkIntent (sequence_of w + 1) (ref_of w (current w))
    (ref_of w (default IDLE_SLOT (best q1))) (t_resume_generation (T w (current w)));
  lo_kernel : kernel_hand w' (taken (default IDLE_SLOT (best q1)) q1)
    (if commit then None else Some (default IDLE_SLOT (best q1)));
  lo_pending : pending w' =
    if commit then Some (mkPending i.(si_sequence) i.(si_previous) i.(si_target)) else None;
  lo_permits b : permits w' b = permits w b;
  lo_task : t_state (T w' (current w)) = Blocked ∧ t_waiting_mutex (T w' (current w)) = a ∧
    t_wake_at (T w' (current w)) = deadline;
  lo_queue : taken (default IDLE_SLOT (best q1)) q1 (QMtx a) ≡ₚ current w :: q (QMtx a);
  lo_mutexes b : core_mtx <$> w_mutexes w' !! b = core_mtx <$> w_mutexes w !! b;
  lo_sequence : sequence_of w' = sequence_of w + 1;
  lo_free : keeps_free w w';
}.

(** The blocking half of [lock]. *)
Definition wait_for_mutex (commit : bool) (self current owner deadline : Z) : M World SwitchIntent :=
  generation ← tget t_resume_generation current;
  set_task current (awaiting self deadline) ;;
  enqueue_mutex_waiter self current ;;
  priority ← tget t_priority current;
  add_inheritance owner priority ;;
  intent ← prepare_switch_away_locked commit current generation;
  expect intent.

Lemma wait_for_mutex_spec w q a st deadline commit :
  kernel w q → may_block w → w_mutexes w !! a = Some st → mtx_owner st ≠ NIL →
  ¬ rtc (waits_for w) (mtx_owner st) (current w) →
  wp (wait_for_mutex commit a (current w) (mtx_owner st) deadline)
    (λ i w', ∃ q1, locked_out w w' q q1 a deadline commit i) w.
Proof.
  intros Hk Hmay Hst Hn Hcyc. pose proof Hk as [[Ho _ _ _] _ _]. pose proof Hmay as [M1 M2 M3 M4 M5].
  destruct (kernel_owner w q None a st Hk Hst Hn) as [Hos Ha]. pose proof (owned_shape w q None Ho) as Hs.
  assert (slot_in (current w)) as Hi by (by eapply owned_slot_current).
  unfold wait_for_mutex. go. unfold enqueue_mutex_waiter.
  wp_apply (owned_wait w q None (QMtx a) (awaiting a deadline) Ho); [|done..|by exists st|by intros t|by intros t].
  intros _ w2 [Ho2 Hc2]. set (q2 := qset (QMtx a) _ q) in *.
  destruct (joined_spec w w2 q a st deadline Hk Hmay Hst Hn Hcyc Hc2) as [J1 J2 J3 J4 J5 J6 J7]. fold q2 in J1, J2, J4.
  pose proof (updated_core w w2 (current w) _ Hs Hi Hc2) as Hu2. assert (shape w2) as Hs2 by eauto with store.
  assert (t_priority (T w2 (current w)) = prio w (current w)) as Ep
    by (rewrite (Hu2 _ t_priority), decide_True by done; done).
  pose proof (placed_priority w q None _ (owned_placed w q None (proj2 Ho) _ Hi)) as Hp. go. rewrite Ep.
  wp_apply (add_inheritance_spec w2 q2 None (mtx_owner st) (prio w (current w)) Ho2 J1 Hos Hp J5 J6).
  intros _ w3 [q3 Hset]. destruct (kernel_settled w2 w3 q2 q3 None J2 J3 J4 Hset) as [Hk3 Hp3].
  pose proof Hset as [S1 _ _ S4 S5].
  set (wb := upd_task (current w) (awaiting a deadline) w) in *.
  assert (pending w3 = None ∧ sequence_of w3 = sequence_of w ∧ current w3 = current w) as (Hpn & Hsq & Hcu).
  { rewrite (sbp_pending w2 w3 S4), (sbp_current w2 w3 S4). unfold sequence_of. rewrite (sbp_sequence w2 w3 S4).
    rewrite <-M3. split_and!; [by apply (core_sched s_pending_switch wb)|by apply (core_sched s_next_switch_sequence wb)
      |by apply (core_sched s_current wb)]. }
  assert (∀ A (f : Tcb → A), (∀ t v, f (t <| t_next := v |>) = f t) → (∀ t v, f (t <| t_priority := v |>) = f t) →
    (∀ t g, f (t <| t_inherited_waiters ::= g |>) = f t) →
    ∀ j, f (T w3 j) = if decide (current w = j) then f (awaiting a deadline (T w j)) else f (T w j)) as HT.
  { intros A f F1 F2 F3 j. rewrite (sbp_field w2 w3 S4) by done. by apply Hu2. }
  unfold prepare_switch_away_locked. go.
  wp_apply (switch_away_spec w3 q3 (current w) (t_resume_generation (T w (current w))) commit S1 Hpn); [|by rewrite Hsq].
  assert (source_unchanged w3 (current w) (t_resume_generation (T w (current w))) = true) as ->.
  { unfold source_unchanged. rewrite Hcu, Z.eqb_refl, (HT _ t_state), (HT _ t_resume_generation) by done.
    rewrite !decide_True by done. simpl. by rewrite Z.eqb_refl. }
  cbv zeta. set (x := default IDLE_SLOT (best q3)). intros r w4 (-> & Ho4 & Hp4 & Hsq4 & Hcu4 & Hqt).
  eapply wp_expect; [done|]. exists q3. fold x.
  assert (∀ j, ref_of w3 j = ref_of w j) as Href.
  { intros j. unfold ref_of. f_equal. rewrite (HT _ t_identity_generation) by done. by case_decide. }
  assert (∀ b, taken x q3 (QSem b) = q3 (QSem b) ∧ taken x q3 (QMtx b) = q3 (QMtx b)) as Htk.
  { intros b. apply (taken_waits w3 q3 x b S1). unfold x. destruct (best q3); [by left|by right]. }
  pose proof (quiet_field w3 w4 Hqt) as HF. split; try done.
  - by rewrite Hsq, !Href.
  - by apply (kernel_quiet w3 w4 q3 (taken x q3) None).
  - intros b. rewrite (permits_quiet w3 w4 Hqt), Hp3. apply J7.
  - rewrite (HF _ t_state), (HF _ t_waiting_mutex), (HF _ t_wake_at) by done.
    rewrite (HT _ t_state), (HT _ t_waiting_mutex), (HT _ t_wake_at), !decide_True by done. done.
  - assert (taken x q3 (QMtx a) ≡ₚ current w :: q (QMtx a)) as Hl; [|exact Hl].
    destruct (Htk a) as [_ ->]. destruct (S5 a) as [_ ->]. unfold q2. rewrite qset_eq. apply place_perm.
  - intros b. rewrite (quiet_mutexes w3 w4 Hqt), (sbp_mutexes w2 w3 S4). by rewrite (core_mutexes wb w2 b Hc2).
  - by rewrite Hsq4, Hsq.
  - intros j Hj. rewrite (HF _ t_state), (HT _ t_state) by done. case_decide; [subst; congruence|done].
Qed.

(** ** Locking *)

(** The outcome of [lock]. *)
Definition lock_outcome (w w' : World) (q : Queues) (commit delivery : bool) (a timeout_ms deadline : Z)
    (st : MutexState) (r : result DriverError (option bool * option SwitchIntent)) : Prop :=
  if mtx_owner st =? current w then
    if mtx_depth st =? u32_max then r = Err Runtime ∧ w' = w
    else r = Ok (Some true, None) ∧ w' = with_mutex a (λ st', st' <| mtx_depth := mtx_depth st + 1 |>) w ∧ kernel w' q
  else if mtx_owner st =? NIL then
    r = Ok (Some true, None) ∧
    w' = with_mutex a (λ st', st' <| mtx_owner := current w |> <| mtx_depth := 1 |>) w ∧ kernel w' q
  else if timeout_ms =? 0 then r = Ok (Some false, None) ∧ w' = w
  else if negb delivery || negb (lock_depth w =? 0) then r = Err InvalidContext ∧ w' = w
  else rtc (waits_for w) (mtx_owner st) (current w) ∧ r = Err InvalidContext ∧ w' = w ∨
    ¬ rtc (waits_for w) (mtx_owner st) (current w) ∧ ∃ i q1, r = Ok (None, Some i) ∧
      locked_out w w' q q1 a (if timeout_ms =? u32_max then 0 else deadline) commit i.

Lemma regroup_wait {A} commit self current owner deadline (k : SwitchIntent → M World A) Q w :
  wp (intent ← wait_for_mutex commit self current owner deadline; k intent) Q w →
  wp (generation ← tget t_resume_generation current;
      set_task current (awaiting self deadline) ;;
      enqueue_mutex_waiter self current ;;
      priority ← tget t_priority current;
      add_inheritance owner priority ;;
      intent ← prepare_switch_away_locked commit current generation;
      intent ← expect intent;
      k intent) Q w.
Proof.
  unfold wp, wait_for_mutex, mbind, M_bind. intros H.
  destruct (tget t_resume_generation _ w) as [[g w1]|]; [|done].
  destruct (set_task _ _ w1) as [[[] w2]|]; [|done]. destruct (enqueue_mutex_waiter _ _ w2) as [[[] w3]|]; [|done].
  destruct (tget t_priority _ w3) as [[p w4]|]; [|done]. destruct (add_inheritance _ _ w4) as [[[] w5]|]; [|done].
  by destruct (prepare_switch_away_locked _ _ _ w5) as [[i w6]|].
Qed.

Lemma lock_spec w q commit delivery a timeout_ms deadline st :
  kernel w q → w_mutexes w !! a = Some st → t_state (T w (current w)) = Running →
  t_granted_mutex (T w (current w)) = 0 →
  (timeout_ms ≠ 0 → delivery = true → lock_depth w = 0 → may_block w) →
  wp (lock commit delivery a timeout_ms deadline)
    (λ r w', lock_outcome w w' q commit delivery a timeout_ms deadline st r) w.
Proof.
  intros Hk Hst Hrun Hng Hmay. pose proof Hk as [[Ho _ _ _] Hinh Hmu].
  pose proof (owned_shape w q None Ho) as Hs. assert (slot_in (current w)) as Hc by eauto with store.
  assert (a ≠ 0) as Ha by (intros ->; by rewrite (mutexes_address w q Hmu) in Hst).
  unfold lock, lock_outcome. go. fold (current w). eapply wp_mutex_at; [done|].
  destruct (Z.eqb_spec (mtx_owner st) (current w)) as [Eo|Eo].
  - assert (mtx_owner st ≠ NIL) as Hn by (rewrite Eo; by apply slot_in_not_NIL).
    pose proof (mutexes_depth w q Hmu a st Hst Hn) as Hd.
    destruct (Z.eqb_spec (mtx_depth st) u32_max) as [E|E].
    { rewrite E. unfold checked_add. rewrite (proj2 (Z.leb_gt _ _)) by lia. by go. }
    unfold checked_add. rewrite (proj2 (Z.leb_le _ _)) by lia. go. eapply wp_set_mutex; [done|].
    go. split_and!; [done..|]. apply (kernel_depth w q None a st); try done; [lia|].
    apply (not_granted w q None a st Hk Hst). congruence.
  - destruct (Z.eqb_spec (mtx_owner st) NIL) as [En|En].
    { go. eapply wp_set_mutex; [done|]. go. split_and!; [done..|].
      destruct (mutexes_free w q Hmu a st Hst En) as [Hq _].
      apply (kernel_unwaited w q None a (λ st, st <| mtx_owner := current w |>) (λ st, st <| mtx_depth := 1 |>) st);
        try done.
      - intros i Hi E. destruct (mutexes_granted w q Hmu i Hi) as (st' & Hst' & Hown & _); [congruence|].
        rewrite E in Hst'. apply (slot_in_not_NIL i Hi). congruence.
      - right. done. }
    destruct (Z.eqb_spec timeout_ms 0) as [E|E]; [by go|].
    destruct delivery; cbn [negb orb]; [|by go]. apply wp_try_bind, (wp_switch_guard w q _ Ho).
    destruct (Z.eqb_spec (lock_depth w) 0) as [El|El]; cbn [negb]; [|done].
    destruct (kernel_owner w q None a st Hk Hst En) as [Hos _].
    unfold mutex_chain_contains. go.
    wp_apply (chain_contains_spec w task_slots_nat (mtx_owner st) (current w) [] Hs (inheritance_refs w None Hinh)
      (inheritance_acyclic w None Hinh) Hos); [|constructor|by intros v ?%elem_of_nil|done].
    intros b w' [-> Hb]. destruct b; [go; left; split; [by apply Hb|done]|].
    assert (¬ rtc (waits_for w) (mtx_owner st) (current w)) as Hcyc by (intros ?%Hb; done).
    set (dl := if timeout_ms =? u32_max then 0 else deadline).
    apply regroup_wait. apply wp_bind. wp_apply (wait_for_mutex_spec w q a st dl commit); [|auto..].
    intros i w' [q1 H]. go. right. split; [done|]. by exists i, q1.
Qed.
