(* ===== verification/Exclusion.v ===== *)
(** * What the mutexes promise

    The properties of [lock], [unlock] and [cancel_wait_locked], with systems in
    which they can be watched. *)

From stdpp Require Import sorting.
From S2P Require Import Prelude Effects Budget Contract Config Context Reservation.
From S2P Require Import Tcb Store Chain Ready Wait Switch Invariant Dispatch Inherit Donation Sync.
From S2P Require Import Moves Permit Slide Lean Handoff Mutex Lock Acquire.

(** ** Systems with mutexes *)

(** A new mutex at [a]. *)
Definition with_mtx (a : Z) (w : World) : World := w <| w_mutexes ::= <[ a := MutexState_new ]> |>.

Lemma kernel_with_mtx w q a : kernel w q → w_mutexes w !! a = None → a ≠ 0 → kernel (with_mtx a w) q.
Proof.
  intros [[Ho Hso [S1 S2 S3 S4 S5] [G1 G2 G3]] Hinh [M1 M2 M3 M4]] Ha Hne.
  pose proof Hinh as [I1 [I2 I3] I4 [I5 I5'] I6].
  assert (∀ b st, w_mutexes (with_mtx a w) !! b = Some st → b = a ∧ st = MutexState_new ∨ w_mutexes w !! b = Some st) as Hb.
  { intros b st H. unfold with_mtx in H. simpl in H.
    apply lookup_insert_Some in H as [[<- <-]|[_ H]]; [by left|by right]. }
  assert (∀ i, owner_of (with_mtx a w) i = owner_of w i) as Hown.
  { intros i. unfold owner_of, with_mtx. change (T (w <| w_mutexes ::= _ |>) i) with (T w i). simpl.
    destruct (decide (t_waiting_mutex (T w i) = a)) as [->|]; [|by rewrite lookup_insert_ne].
    by rewrite lookup_insert_eq, Ha. }
  split; [split|..].
  - apply (owned_view w); [by split|by apply (queues_new_mutex w q a (proj1 Ho))|done].
  - done.
  - by split.
  - by split.
  - split; try done.
    + split; [done|]. intros o p Hos Hp. change (T (with_mtx a w) o) with (T w o). rewrite I3 by done. f_equal.
      symmetry. apply tally_ext; intros i _; by rewrite Hown.
    + split.
      * intros i Hi Hw. simpl. apply lookup_insert_is_Some'. right. by apply I5.
      * intros b st [[-> ->]|H]%Hb; [done|]. by apply (I5' b).
    + by apply (same_donors_acyclic w).
  - split.
    + simpl. by rewrite lookup_insert_ne.
    + intros b st [[-> ->]|H]%Hb; [|by apply (M2 b)]. intros _. split; [|done].
      destruct (q (QMtx a)) as [|x l] eqn:E; [done|].
      destruct (queues_valid w q (proj1 Ho) (QMtx a) x) as [st Hst]; [rewrite E; left|]. congruence.
    + intros b st [[-> ->]|H]%Hb; [done|]. by apply (M3 b).
    + intros i Hi Hg. destruct (M4 i Hi Hg) as (st & Hst & ? & ?). exists st. split_and!; try done. simpl.
      rewrite lookup_insert_ne; [done|]. intros E. change (T (with_mtx a w) i) with (T w i) in *. rewrite <-E in Hst. congruence.
Qed.

Definition inheritance_b (w : World) (i : Z) : bool :=
  let t := T w i in
  bool_decide (0 <= t_base_priority t < 32) && bool_decide (t_inherited_waiters t = replicate 32 0) &&
  (t_waiting_mutex t =? 0) && (t_priority t =? inherited_priority t).

(** A system in which nobody has waited for a mutex. *)
Lemma inheritance_idle w :
  w_mutexes w = ∅ → (∀ i, slot_in i → inheritance_b w i = true) → shape w → inheritance w None.
Proof.
  intros Hm Hb Hs. assert (∀ i, slot_in i → 0 <= t_base_priority (T w i) < 32 ∧
    t_inherited_waiters (T w i) = replicate 32 0 ∧ t_waiting_mutex (T w i) = 0 ∧
    t_priority (T w i) = inherited_priority (T w i)) as Hi.
  { intros i Hi. specialize (Hb i Hi). unfold inheritance_b in Hb.
    apply andb_prop in Hb as [[[H1%bool_decide_eq_true H2%bool_decide_eq_true]%andb_prop H3%Z.eqb_eq]%andb_prop H4%Z.eqb_eq].
    done. }
  assert (∀ i, owner_of w i = NIL) as Hown.
  { intros i. unfold owner_of. rewrite Hm, lookup_empty. by case_match. }
  split.
  - intros o Ho. by apply Hi.
  - split; [intros o Ho; by destruct (Hi o Ho) as (_ & -> & _)|]. intros o p Ho Hp.
    destruct (Hi o Ho) as (_ & -> & _). assert (donated w o p = 0) as ->.
    { unfold donated, tally. rewrite (zsum_ext _ (λ _, 0)); [by vm_compute|]. intros i _.
      apply indicator_false. rewrite Hown. intros [<- _]. by apply slot_in_not_NIL in Ho. }
    rewrite (idx_replicate 32 0). unfold PRIORITY_LEVELS in Hp.
    by rewrite (proj2 (Z.leb_le _ _)), (proj2 (Z.ltb_lt _ _)) by lia.
  - intros o Ho _. by apply Hi.
  - split; [intros i Hs' Hw; by destruct (Hi i Hs') as (_ & _ & ? & _)|]. intros a st. by rewrite Hm, lookup_empty.
  - intros i. assert (∀ j, ¬ waits_for w i j) as Hn by (intros j (_ & _ & st & Hst & _); by rewrite Hm, lookup_empty in Hst).
    intros Hc. inversion Hc; subst; by eapply Hn.
Qed.

Lemma mutexes_none w q : w_mutexes w = ∅ → (∀ i, slot_in i → no_grant_b (T w i) = true) → mutexes w q.
Proof.
  intros Hm Hn. split; rewrite ?Hm; try done. intros i Hi Hg. specialize (Hn i Hi). unfold no_grant_b in Hn.
  apply andb_prop in Hn as [_ E%Z.eqb_eq]. congruence.
Qed.

Lemma ready_three_no_mutexes : w_mutexes ready_three = ∅.
Proof. by vm_compute. Qed.

Lemma ready_three_idle : forallb (inheritance_b ready_three) (range 0 17) = true.
Proof. by vm_compute. Qed.

Lemma ready_three_no_grants : forallb (λ j, no_grant_b (T ready_three j)) (range 0 17) = true.
Proof. by vm_compute. Qed.

Lemma ready_three_kernel : kernel ready_three ready_three_queues.
Proof.
  split; [exact ready_three_semaphores|..].
  - apply inheritance_idle; [exact ready_three_no_mutexes|exact (all_slots _ ready_three_idle)|].
    exact (owned_shape _ _ _ ready_three_owned).
  - apply mutexes_none; [exact ready_three_no_mutexes|exact (all_slots _ ready_three_no_grants)].
Qed.

(** A new mutex at [a] that the task [o] has locked once. *)
Definition with_owned (a o : Z) (w : World) : World :=
  with_mutex a (λ st, st <| mtx_owner := o |> <| mtx_depth := 1 |>) (with_mtx a w).

Lemma with_owned_lookup a o w : w_mutexes (with_owned a o w) !! a = Some (mkMutex o 1 NIL NIL).
Proof.
  unfold with_owned. rewrite with_mutex_lookup, decide_True by done. unfold with_mtx. simpl.
  by rewrite lookup_insert_eq.
Qed.

Lemma kernel_with_owned w q a o :
  kernel w q → w_mutexes w !! a = None → a ≠ 0 → slot_in o → kernel (with_owned a o w) q.
Proof.
  intros Hk Ha Hne Ho. pose proof (kernel_with_mtx w q a Hk Ha Hne) as Hk1.
  assert (w_mutexes (with_mtx a w) !! a = Some MutexState_new) as Hst
    by (unfold with_mtx; simpl; by rewrite lookup_insert_eq).
  apply (kernel_unwaited (with_mtx a w) q None a (λ st, st <| mtx_owner := o |>) (λ st, st <| mtx_depth := 1 |>)
    MutexState_new); try done.
  - by destruct (mutexes_free _ q (kernel_mutexes _ q None Hk1) a MutexState_new Hst).
  - intros i Hi E. destruct (mutexes_granted w q (kernel_mutexes _ q None Hk) i Hi) as (st & Hst' & _).
    + intros E0. apply Hne. rewrite <-E. exact E0.
    + change (T (with_mtx a w) i) with (T w i) in E. congruence.
  - by right.
Qed.

(** Task 0 runs, the tasks 4, 3 and 2 are ready, task 4 owns the mutex at 8192 and
    the mutex at 12288 belongs to the running task. *)
Definition two_mutexes : World := with_owned 12288 0 (with_owned 8192 4 ready_three).

Lemma two_mutexes_kernel : kernel two_mutexes ready_three_queues.
Proof.
  apply kernel_with_owned; [apply kernel_with_owned; [exact ready_three_kernel|by vm_compute|done|done]
    |by vm_compute|done|done].
Qed.

(** ** Properties *)

(** C5: a mutex is taken at once, refused, or waited for (RTOS-MUTEX-001,
    RTOS-MUTEX-002). The owner's recursive lock adds one to the depth, up to the
    checked maximum, past which it gets [Runtime] and nothing changes. A free mutex
    gets the caller as its owner. Otherwise a zero timeout answers [false]; a task
    that cannot give up the hart, or whose wait would close a cycle of waits, gets
    [InvalidContext]; all three leave the system exactly as it was. Only then the
    task is Blocked in the wait queue with its deadline, its priority is donated down
    the chain of owners, and in the same step the hart goes to the task that is best
    after the donation, under a fresh ticket. No branch faults, and every one leaves
    all tasks, priorities and mutexes in order. *)
Theorem lock_takes_or_waits (w : World) (q : Queues) (commit delivery : bool)
    (a timeout_ms deadline : Z) (st : MutexState) :
  kernel w q → w_mutexes w !! a = Some st → t_state (T w (current w)) = Running →
  t_granted_mutex (T w (current w)) = 0 →
  (timeout_ms ≠ 0 → delivery = true → lock_depth w = 0 → may_block w) →
  wp (lock commit delivery a timeout_ms deadline)
    (λ r w', lock_outcome w w' q commit delivery a timeout_ms deadline st r) w.
Proof. apply lock_spec. Qed.

Lemma two_mutexes_may_block : may_block two_mutexes.
Proof. split; by vm_compute. Qed.

(** The running task waits for task 4, which is promoted and runs next. *)
Lemma lock_takes_or_waits_witness :
  wp (lock true true 8192 50 57) (λ r w', lock_outcome two_mutexes w' ready_three_queues
    true true 8192 50 57 (mkMutex 4 1 NIL NIL) r) two_mutexes ∧
  (si_target <$> match run (lock true true 8192 50 57) two_mutexes with
                 | Some (Ok (_, i), _) => i | _ => None end) = Some (mkRef 4 1).
Proof.
  split; [|by vm_compute]. apply lock_takes_or_waits.
  - exact two_mutexes_kernel.
  - by vm_compute.
  - by vm_compute.
  - by vm_compute.
  - intros _ _ _. exact two_mutexes_may_block.
Defined.

(** C6: unlocking (RTOS-MUTEX-001). A task that does not own the mutex gets
    [InvalidContext] and changes nothing. An unlock of a recursive lock lowers the
    depth and keeps the mutex. The last unlock frees the mutex when nobody waits;
    otherwise the waiter of the best effective priority, the oldest among equals,
    owns it at depth one in the same step, so no third task can slip in, and stands
    ready with the grant; the other waiters keep their order and donate to the new
    owner. A switch is requested exactly when a waiter was woken outside any
    interrupt. *)
Theorem unlock_hands_to_best_waiter (w : World) (q : Queues) (a now depth : Z) (st : MutexState) :
  kernel w q → w_mutexes w !! a = Some st → t_state (T w (current w)) = Running →
  t_granted_mutex (T w (current w)) = 0 →
  wp (unlock a now depth) (λ r w',
    if negb (mtx_owner st =? current w) then r = Err InvalidContext ∧ w' = w
    else if negb (mtx_depth st =? 1) then
      r = Ok false ∧ w' = with_mutex a (λ st', st' <| mtx_depth := mtx_depth st - 1 |>) w
    else ∃ q' st', kernel w' q' ∧ w_mutexes w' !! a = Some st' ∧
      match q (QMtx a) with
      | [] => r = Ok false ∧ mtx_owner st' = NIL ∧ mtx_depth st' = 0
      | y :: l => r = Ok (depth =? 0) ∧ mtx_owner st' = y ∧ mtx_depth st' = 1 ∧
          (∀ j, j ∈ l → prio w y <= prio w j) ∧ t_state (T w' y) = Ready ∧ t_granted_mutex (T w' y) = a ∧
          q' (QMtx a) = l ∧ ∀ j, j ∈ l → owner_of w' j = y
      end) w.
Proof.
  intros Hk Hst Hrun Hng. wp_apply (unlock_spec w q a now depth st Hk Hst Hrun Hng).
  intros r w'. unfold unlock_outcome. case_match; [done|]. case_match; [by intros (? & ? & _)|].
  intros (-> & q' & Hk' & _ & Hgu). exists q'.
  pose proof Hk as [[Ho Hso _ _] _ Hmu]. assert (a ≠ 0) as Ha by (intros ->; by rewrite (mutexes_address w q Hmu) in Hst).
  destruct (Hso a) as [_ Hsa]. destruct (q (QMtx a)) as [|y l] eqn:E.
  - destruct Hgu as [-> ->]. eexists. rewrite with_mutex_lookup, decide_True, Hst by done. by split_and!.
  - pose proof Hgu as [G1 G2 G3 G4 G5 G6]. set (w1 := with_mutex a _ w) in *.
    assert (semaphores w1 q) as Hsem1 by (apply semaphores_with_mutex; [by intros ?|apply Hk]).
    assert (shape w1) as Hs1 by (eapply owned_shape, (semaphores_owned _ q None Hsem1)).
    assert (slot_in y) as Hy by (apply (queues_slot w q (proj1 Ho) (QMtx a)); rewrite E; left).
    destruct (handed_lookup w1 w' a y now (st <| mtx_depth := 0 |>)) as (_ & st' & Hst' & Hown & Hd); [|done|].
    { unfold w1. by rewrite with_mutex_lookup, decide_True, Hst. }
    exists st'. split_and!; try done.
    + apply StronglySorted_inv in Hsa as [_ Hsa]. by apply Forall_forall.
    + rewrite (T_handed w1 w' a y now t_state), decide_True by done. done.
    + rewrite (T_handed w1 w' a y now t_granted_mutex), decide_True by done.
      destruct (owned_waiter w q None y (QMtx a) Ho Hy) as (_ & _ & Hw & _); [rewrite E; left|done|]. exact Hw.
    + by rewrite G5, decide_True.
    + intros j Hj. assert (j ∈ q' (QMtx a)) as Hj' by (by rewrite G5, decide_True).
      assert (slot_in j) as Hjs by (by apply (queues_slot w' q' (proj1 G1) (QMtx a))).
      destruct (owned_waiter w' q' None j (QMtx a) G1 Hjs Hj') as (_ & _ & Hw & _); [done|].
      unfold owner_of. by rewrite Hw, Hst', (proj2 (Z.eqb_neq _ _) Ha).
Qed.

(** The running task unlocks the mutex it owns. *)
Lemma unlock_hands_to_best_waiter_witness :
  wp (unlock 12288 7 0) (λ r w', ∃ q' st', kernel w' q' ∧ w_mutexes w' !! 12288 = Some st' ∧
    r = Ok false ∧ mtx_owner st' = NIL ∧ mtx_depth st' = 0) two_mutexes.
Proof.
  apply (unlock_hands_to_best_waiter two_mutexes ready_three_queues 12288 7 0 (mkMutex 0 1 NIL NIL)).
  - exact two_mutexes_kernel.
  - by vm_compute.
  - by vm_compute.
  - by vm_compute.
Defined.

(** The system in which task 0 waits for task 4 on the mutex at 8192. *)
Definition waiting_main : World := final (lock true true 8192 50 57) two_mutexes.

Lemma waiting_main_kernel : ∃ q, kernel waiting_main q.
Proof.
  assert (wp (lock true true 8192 50 57) (λ r w', lock_outcome two_mutexes w' ready_three_queues
    true true 8192 50 57 (mkMutex 4 1 NIL NIL) r) two_mutexes) as H.
  { apply lock_spec; [exact two_mutexes_kernel|by vm_compute..|]. intros _ _ _. exact two_mutexes_may_block. }
  apply wp_final in H as [r H]. unfold lock_outcome in H.
  assert ((mtx_owner (mkMutex 4 1 NIL NIL) =? current two_mutexes) = false) as E1 by (by vm_compute).
  assert ((mtx_owner (mkMutex 4 1 NIL NIL) =? NIL) = false) as E2 by (by vm_compute).
  assert ((lock_depth two_mutexes =? 0) = true) as E3 by (by vm_compute).
  rewrite E1, E2, E3 in H. cbn [Z.eqb negb orb] in H.
  destruct H as [(_ & _ & H)|(_ & i & q1 & _ & [_ Hk _ _ _ _ _ _ _])].
  - exists ready_three_queues. fold waiting_main in H. rewrite H. exact two_mutexes_kernel.
  - eexists. exact Hk.
Qed.

(** C13: cancellation (RTOS-WAIT-004). A waiter of a semaphore or a mutex leaves its
    wait queue and is ready; a mutex waiter takes its donation back, so the owners
    ahead of it drop to the priority they have without it. A task that was already
    handed a permit or a mutex returns it: the permit goes to the next waiter or the
    count, the mutex to the next waiter or to nobody. In every case no permit is lost,
    the task holds nothing and waits for nothing afterwards, and the whole system is
    in order. A task with nothing to cancel is told so and nothing changes. *)
Theorem cancellation_returns_everything (w : World) (q : Queues) (i now : Z) :
  kernel w q → slot_in i →
  wp (cancel_wait_locked i now) (λ r w', cancelled_wait w w' q i now r) w.
Proof. apply cancel_wait_spec. Qed.

Lemma cancellation_returns_everything_witness :
  (∃ q, wp (cancel_wait_locked 0 9) (λ r w', cancelled_wait waiting_main w' q 0 9 r) waiting_main) ∧
  (t_priority (T waiting_main 4), t_waiting_mutex (T waiting_main 0)) = (1, 8192) ∧
  (t_priority (T (final (cancel_wait_locked 0 9) waiting_main) 4),
   t_state (T (final (cancel_wait_locked 0 9) waiting_main) 0)) = (1, Ready).
Proof.
  split; [|split; by vm_compute]. destruct waiting_main_kernel as [q Hk]. exists q.
  apply cancellation_returns_everything; [exact Hk|done].
Defined.

Lemma zsum_indicator {A} (P : A → Prop) `{!∀ x, Decision (P x)} l :
  zsum (λ x, indicator (P x)) l = Z.of_nat (length (filter P l)).
Proof.
  induction l as [|x l IH]; [done|]. unfold indicator in *. simpl. rewrite IH. rewrite filter_cons.
  case_decide; simpl; lia.
Qed.

(** The priorities that exact counters stand for. *)
Lemma effective_priorities (w : World) (q : Queues) (d : option Z) (o : Z) :
  kernel_hand w q d → slot_in o →
  t_priority (T w o) <= t_base_priority (T w o) ∧
  (∀ i, slot_in i → owner_of w i = o → t_priority (T w o) <= t_priority (T w i)) ∧
  (t_priority (T w o) = t_base_priority (T w o) ∨
   ∃ i, slot_in i ∧ owner_of w i = o ∧ t_priority (T w i) = t_priority (T w o)) ∧
  (∀ i, tc (waits_for w) i o → t_priority (T w o) <= t_priority (T w i)) ∧
  (∀ p, 0 <= p < PRIORITY_LEVELS → ∃ c, idx (t_inherited_waiters (T w o)) p = Some c ∧ 0 <= c <= 17 ∧
    c = Z.of_nat (length (filter (λ i, owner_of w i = o ∧ t_priority (T w i) = p) slots))).
Proof.
  intros [[[Hq Ho] _ _ _] [_ Hd He [Hr1 Hr2] _] _] Hos.
  assert (∀ i, slot_in i → priority_ok w i) as Hp by (intros i Hi; apply (owned_placed w q d Ho i Hi)).
  assert (∀ o, slot_in o → ∀ i, slot_in i → owner_of w i = o → t_priority (T w o) <= t_priority (T w i)) as Hle.
  { intros x Hx i Hi Hown. rewrite (He x Hx) by done. by apply inherited_priority_min. }
  assert (∀ i j, waits_for w i j → slot_in i ∧ slot_in j) as Hsl.
  { intros i j (Hw & Hn & st & Hst & <-). split; [|by eapply Hr2].
    destruct (decide (slot_in i)) as [|Hni]; [done|].
    rewrite (T_out w i) in Hw; [done|by apply queues_shape in Hq|done]. }
  destruct (inherited_priority_min w o Hd Hos Hp) as (M1 & M2 & M3). rewrite <-(He o Hos) in M1, M3 by done.
  split_and!; [done|by apply Hle|done|..].
  - intros i Hc. induction Hc as [i j Hij|i j k Hij _ IH].
    + destruct (Hsl i j Hij). apply waits_for_owner in Hij as [? _]. by apply Hle.
    + destruct (Hsl i j Hij). apply waits_for_owner in Hij as [? _]. etrans; [by apply IH|by apply Hle].
  - intros p Hpr. exists (donated w o p). split_and!; [by apply Hd|apply donated_range..|].
    apply zsum_indicator.
Qed.

(** C27: the walk along the owners ends. It is a recursion bounded only by an
    assertion on its depth; started at an owner whose counts are right, it reaches the
    end of the chain within the seventeen steps the assertion allows, because the
    wait-for graph has no cycle, and afterwards every task runs at the priority its
    donations give it and stands at the right place of its queue. Nothing but
    priorities, counts and places in queues has changed. *)
Theorem inheritance_walk_terminates (w : World) (q : Queues) (d : option Z) (o : Z) :
  owned w q d → sorted_all w q → inheritance w (Some o) → slot_in o →
  ∃ w', refresh_inherited_priority o 0 w = Done (tt, w') ∧ ∃ q', settled w w' q q' d None.
Proof.
  intros Ho Hso Hinh Hs. pose proof (refresh_spec w q d o Ho Hso Hinh Hs) as H. unfold wp in H.
  destruct (refresh_inherited_priority o 0 w) as [[[] w']|e]; [by eexists|done].
Qed.

Lemma inheritance_walk_terminates_witness :
  ∃ w', refresh_inherited_priority 4 0 two_mutexes = Done (tt, w') ∧
    ∃ q', settled two_mutexes w' ready_three_queues q' None None.
Proof.
  pose proof two_mutexes_kernel as [[Ho Hso _ _] [I1 I2 I3 I4 I5] _].
  apply inheritance_walk_terminates; [exact Ho|exact Hso| |done].
  split; try done. intros o Hs _. by apply I3.
Defined.
