(* ===== verification/Timer.v ===== *)
(** * Time ([src/runtime/scheduler.rs], [src/runtime/time.rs])

    Waking sleepers and timed-out waiters, replenishing budgets, the timer interrupt,
    and the deadline the one hardware timer is armed for. The injected clock, the
    injected timer and the embassy time queue are outside the repository: the time and
    the next embassy deadline are arguments, the armed delay is a result. *)

From S2P Require Import Prelude Effects Budget Contract Config Context Reservation.
From S2P Require Import Tcb Store Chain Ready Wait Switch Invariant Inherit Sync.

(** ** Waking *)

(** The waiter of a mutex has run out of time. *)
Definition timeout_mutex_waiter (i now : Z) : M World unit :=
  mutex ← tget t_waiting_mutex i;
  remove_mutex_waiter mutex i ;;
  state ← mutex_at mutex;
  when (negb (state.(mtx_owner) =? NIL))
    (priority ← tget t_priority i; remove_inheritance state.(mtx_owner) priority) ;;
  set_task i (λ t, t <| t_waiting_mutex := 0 |> <| t_sem_granted := false |>
    <| t_granted_mutex := 0 |> <| t_wake_at := 0 |>) ;;
  make_ready i now.

(** The body of the loop of [wake_sleepers]. *)
Definition wake_task (now i : Z) : M World unit :=
  t ← task_at i;
  if state_eqb t.(t_state) Sleeping && (t.(t_wake_at) <=? now) then
    make_ready i now ;; bump d_sleeper_wakes
  else
    timed_out ← timeout_semaphore_waiter_locked i now;
    if timed_out : bool then bump d_semaphore_timeouts
    else
      t ← task_at i;
      when (state_eqb t.(t_state) Blocked && negb (t.(t_waiting_mutex) =? 0) &&
            negb (t.(t_wake_at) =? 0) && (t.(t_wake_at) <=? now))
        (timeout_mutex_waiter i now).

(** The body of the loop of [replenish_budgets]. *)
Definition replenish_task (now i : Z) : M World unit :=
  t ← task_at i;
  if state_eqb t.(t_state) Throttled then
    let r := replenish_if_due now t.(t_budget) in
    set_task i (λ t, t <| t_budget := snd r |>) ;;
    when (fst r) (make_ready i now ;; bump d_budget_replenishments)
  else mret tt.

Definition replenish_budgets (now : Z) : M World unit :=
  for_each (range 0 TASK_SLOT_COUNT) (replenish_task now).

Definition wake_sleepers (now : Z) : M World unit :=
  for_each (range 0 TASK_SLOT_COUNT) (wake_task now) ;;
  replenish_budgets now.

(** ** The timer interrupt *)

(** [task.scheduler_lock_started_at] older than the limit. *)
Definition lock_violation (t : Tcb) (current now limit : Z) : option ContractViolation :=
  started_at ← t.(t_scheduler_lock_started_at);
  let held_ms := saturating_sub now started_at in
  if limit <=? held_ms then Some (SchedulerLockOverrun current held_ms limit) else None.

Definition count_exhaustion (current : Z) : M World unit :=
  set_task current (λ t, t <| t_metrics ::= λ m, m <| m_budget_exhaustions ::= sat_incr_u32 |> |>) ;;
  bump d_budget_exhaustions.

Definition on_timer (now max_scheduler_lock_duration : Z) : M World (option ContractViolation) :=
  wake_sleepers now ;;
  current ← sched_gets s_current;
  state ← tget t_state current;
  if negb (state_eqb state Running) then mret None
  else
    depth ← tget t_scheduler_lock_depth current;
    t ← task_at current;
    let r := Budget.on_timer now (negb (depth =? 0)) t.(t_budget) in
    set_task current (λ t, t <| t_budget := snd r |>) ;;
    (match fst r with
     | ThrottleNow =>
         set_task current (λ t, t <| t_state := Throttled |>) ;;
         count_exhaustion current ;;
         bump d_budget_throttles
     | DeferredBySchedulerLock =>
         count_exhaustion current ;;
         bump d_budget_lock_overruns
     | NotBudgeted | StillAvailable => mret tt
     end) ;;
    t ← task_at current;
    let violation := lock_violation t current now max_scheduler_lock_duration in
    when (match violation with Some _ => true | None => false end) (bump d_scheduler_lock_overruns) ;;
    mret violation.

(** The critical section of [on_timer_interrupt]. *)
Definition on_timer_interrupt (now lock_limit : Z) : M World (option ContractViolation) :=
  bump d_timer_interrupts ;;
  violation ← on_timer now lock_limit;
  deadline ← sched_gets s_time_slice_deadline;
  when (negb (deadline =? 0) && (deadline <=? now))
    (sched_modify (λ s, s <| s_time_slice_pending := true |> <| s_time_slice_deadline := 0 |>)) ;;
  mret violation.

(** ** Deadlines *)

Definition min_option (x y : option Z) : option Z :=
  match x, y with
  | Some x, Some y => Some (Z.min x y)
  | Some x, None => Some x
  | None, y => y
  end.
Definition minimum (l : list Z) : option Z := foldr (λ x m, min_option (Some x) m) None l.

Definition wake_deadlines (ts : list Tcb) : list Z :=
  t_wake_at <$> filter (λ t, (t_state t = Sleeping ∨ t_state t = Blocked) ∧ t_wake_at t ≠ 0) ts.

Definition earliest_wake_deadline : M World (option Z) :=
  ts ← sched_gets s_tasks;
  mret (minimum (wake_deadlines ts)).

Definition replenish_deadlines (ts : list Tcb) : list Z :=
  filter (λ d, d ≠ 0) ((λ t, replenishes_at (t_budget t)) <$> filter (λ t, t_state t = Throttled) ts).

Definition earliest_budget_deadline : M World (option Z) :=
  current ← sched_gets s_current;
  t ← task_at current;
  ts ← sched_gets s_tasks;
  let current_deadline := if state_eqb t.(t_state) Running then exhaustion_deadline t.(t_budget) else None in
  mret (min_option current_deadline (minimum (replenish_deadlines ts))).

Definition scheduler_lock_deadline (max_duration : Z) : M World (option Z) :=
  current ← sched_gets s_current;
  t ← task_at current;
  mret (if state_eqb t.(t_state) Running && negb (t.(t_scheduler_lock_depth) =? 0)
        then (λ started_at, saturating_add u64_max started_at max_duration) <$> t.(t_scheduler_lock_started_at)
        else None).

Definition has_equal_priority_ready (priority : Z) : M World bool :=
  head ← get_head (QReady priority); mret (negb (head =? NIL)).

Definition set_slice_deadline (d : Z) : M World unit := sched_modify (λ s, s <| s_time_slice_deadline := d |>).

Definition next_time_slice_deadline (now : Z) : M World (option Z) :=
  current ← sched_gets s_current;
  t ← task_at current;
  match t.(t_run_policy) with
  | Preemptive time_slice =>
      equal ← has_equal_priority_ready t.(t_priority);
      if negb equal then set_slice_deadline 0 ;; mret None
      else
        deadline ← sched_gets s_time_slice_deadline;
        when (deadline =? 0) (set_slice_deadline (saturating_add u64_max now time_slice)) ;;
        deadline ← sched_gets s_time_slice_deadline;
        mret (Some deadline)
  | _ => set_slice_deadline 0 ;; mret None
  end.

Definition next_dispatch_deadline (now : Z) : M World (option Z) :=
  current ← sched_gets s_current;
  t ← task_at current;
  better ← (if state_eqb t.(t_state) Running && (t.(t_scheduler_lock_depth) =? 0) &&
               ((current =? IDLE_SLOT) || is_preemptive t.(t_run_policy))
            then any_ready (range 0 (if current =? IDLE_SLOT then PRIORITY_LEVELS else t.(t_priority)))
            else mret false);
  if better : bool then mret (Some now) else next_time_slice_deadline now.

Definition earliest_deadline (wake slice budget scheduler_lock embassy : option Z) : option Z :=
  min_option wake (min_option slice (min_option budget (min_option scheduler_lock embassy))).

(** The critical section of [rearm_timer]; [embassy] is the embassy queue's next
    expiration. *)
Definition timer_deadline (now lock_limit : Z) (embassy : option Z) : M World (option Z) :=
  wake ← earliest_wake_deadline;
  slice ← next_dispatch_deadline now;
  budget ← earliest_budget_deadline;
  scheduler_lock ← scheduler_lock_deadline lock_limit;
  mret (earliest_deadline wake slice budget scheduler_lock embassy).

(** The delay the hardware timer is armed for. *)
Definition timer_delay (deadline now max_timer_delay : Z) : Z :=
  Z.min (Z.max (saturating_sub deadline now) 1) max_timer_delay.

(** [embassy_next_expiration_locked], given the queue's answer in ticks. *)
Definition EMBASSY_TICKS_PER_MILLISECOND : Z := 1000.
Definition embassy_next_expiration (deadline_ticks now_ms : Z) : option Z :=
  let now_ticks := saturating_mul u64_max now_ms EMBASSY_TICKS_PER_MILLISECOND in
  if deadline_ticks =? u64_max then None
  else
    let remaining_ticks := saturating_sub deadline_ticks now_ticks in
    let delay_ms := saturating_add u64_max remaining_ticks (EMBASSY_TICKS_PER_MILLISECOND - 1) /
      EMBASSY_TICKS_PER_MILLISECOND in
    Some (saturating_add u64_max now_ms (Z.max delay_ms 1)).

(** ** Interrupts *)

Definition interrupt_enter_sched (now : Z) : M World unit :=
  irq ← sched_gets s_irq_task;
  assert_ (irq =? NIL) ;;
  current ← sched_gets s_current;
  sched_modify (λ s, s <| s_irq_task := current |> <| s_irq_started_at := now |>) ;;
  set_task current (λ t, t <| t_metrics ::= λ m, m <| m_irq_entries ::= sat_incr_u32 |> |>).

Definition interrupt_exit_sched (now : Z) : M World unit :=
  task ← sched_gets s_irq_task;
  started_at ← sched_gets s_irq_started_at;
  if (task =? NIL) || (started_at =? NO_TIMESTAMP) then mret tt
  else
    let elapsed := saturating_sub now started_at in
    set_task task (λ t, t <| t_metrics ::= λ m,
      m <| m_irq_time_ms ::= λ x, saturating_add u64_max x elapsed |>
        <| m_max_irq_span_ms ::= Z.max elapsed |> |>) ;;
    sched_modify (λ s, s <| s_irq_task := NIL |> <| s_irq_started_at := NO_TIMESTAMP |>).
