(* ===== verification/Frame.v ===== *)
(** * Frame facts

    What an operation leaves alone can be read off its code: [keeps R m] says that
    every run of [m] relates its first and its last state by [R]. For a relation that
    all the writes of the code respect (a [Footprint]), it holds of every operation on
    the queues, of the priority walk and of the semaphore and mutex operations, and
    [wp_keeps] adds it to whatever else is known of the operation. *)

From S2P Require Import Prelude Effects Budget Contract Config Context Reservation.
From S2P Require Import Tcb Store Chain Ready Wait Switch Invariant Inherit Sync.

Definition keeps {A} (R : World → World → Prop) (m : M World A) : Prop := ∀ w,
  match m w with Done (_, w') => R w w' | Fault _ => True end.

Lemma wp_keeps {A} R (m : M World A) Q w : keeps R m → wp m Q w → wp m (λ a w', Q a w' ∧ R w w') w.
Proof. intros Hk H. specialize (Hk w). unfold wp in *. by destruct (m w) as [[a w']|]. Qed.

(** A relation closed under the writes of the code; [allowed i g] says which updates
    of the task [i] respect it. *)
Class Footprint (R : World → World → Prop) := {
  allowed : Z → (Tcb → Tcb) → Prop;
  fp_preorder :: PreOrder R;
  fp_task i g w : allowed i g → R w (upd_task i g w);
  fp_next i v : allowed i (λ t, t <| t_next := v |>);
  fp_head id v w : R w (put_head id v w);
  fp_tail id v w : R w (put_tail id v w);
  fp_diagnostics h w : R w (w <| w_sched ::= λ s, s <| s_diagnostics ::= h |> |>);
}.

(** It also respects the priority walk. *)
Class WalkFootprint (R : World → World → Prop) `{!Footprint R} : Prop := {
  fp_priority i v : allowed i (λ t, t <| t_priority := v |>);
  fp_inherited i h : allowed i (λ t, t <| t_inherited_waiters ::= h |>);
}.

(** It also respects changes of counts and owners. *)
Class ObjectFootprint (R : World → World → Prop) : Prop := {
  fp_sem a h w : R w (w <| w_sems ::= alter h a |>);
  fp_mutex a h w : R w (w <| w_mutexes ::= alter h a |>);
}.

Create HintDb keeps discriminated.
#[export] Hint Constants Opaque : keeps.

Section Keeps.
  #[local] Set Default Proof Using "All".
  Context (R : World → World → Prop) `{!Footprint R}.

Lemma keeps_ret {A} (a : A) : keeps R (mret a).
Proof. intros w. by cbn. Qed.

Lemma keeps_fail {A} e : keeps R (fail e : M World A).
Proof. by intros w. Qed.

Lemma keeps_bind {A B} (m : M World A) (k : A → M World B) :
  keeps R m → (∀ a, keeps R (k a)) → keeps R (m ≫= k).
Proof.
  intros Hm Hk w. specialize (Hm w). unfold mbind, M_bind. destruct (m w) as [[a w']|]; [|done].
  specialize (Hk a w'). destruct (k a w') as [[b w'']|]; [|done]. by etrans.
Qed.

Lemma keeps_try_bind {A B E} (m : M World (result E A)) (k : A → M World (result E B)) :
  keeps R m → (∀ a, keeps R (k a)) → keeps R (try_bind m k).
Proof.
  intros Hm Hk. unfold try_bind. apply keeps_bind; [done|]. intros [a|e]; [apply Hk|apply keeps_ret].
Qed.

Lemma keeps_gets {A} (f : World → A) : keeps R (gets f).
Proof. intros w. by cbn. Qed.

Lemma keeps_modify h : (∀ w, R w (h w)) → keeps R (modify h).
Proof. intros Hh w. apply Hh. Qed.

Lemma keeps_when b (m : M World unit) : keeps R m → keeps R (when b m).
Proof. intros Hm. destruct b; [done|apply keeps_ret]. Qed.

Lemma keeps_assert b : keeps R (assert_ b).
Proof. destruct b; [apply keeps_ret|apply keeps_fail]. Qed.

Lemma keeps_expect {A} (o : option A) : keeps R (expect o).
Proof. destruct o; [apply keeps_ret|apply keeps_fail]. Qed.

Lemma keeps_for_each {A} (xs : list A) (body : A → M World unit) :
  (∀ x, keeps R (body x)) → keeps R (for_each xs body).
Proof.
  intros Hb. induction xs as [|x xs IH]; cbn [for_each]; [apply keeps_ret|]. by apply keeps_bind.
Qed.

Lemma keeps_task_at i : keeps R (task_at i).
Proof. unfold task_at. apply keeps_bind; [apply keeps_gets|intros; apply keeps_expect]. Qed.

Lemma keeps_tget {A} (f : Tcb → A) i : keeps R (tget f i).
Proof. unfold tget. apply keeps_bind; [apply keeps_task_at|intros; apply keeps_ret]. Qed.

Lemma keeps_set_task i g : allowed i g → keeps R (set_task i g).
Proof.
  intros Hg. apply keeps_bind; [apply keeps_task_at|intros _]. apply keeps_modify. intros w. by apply fp_task.
Qed.

Lemma keeps_bump f `{!Field f} : keeps R (bump f).
Proof. apply keeps_modify. intros w. apply fp_diagnostics. Qed.

Lemma keeps_sem_at a : keeps R (sem_at a).
Proof. apply keeps_bind; [apply keeps_gets|intros ss]. destruct (ss !! a); [apply keeps_ret|apply keeps_fail]. Qed.

Lemma keeps_mutex_at a : keeps R (mutex_at a).
Proof. apply keeps_bind; [apply keeps_gets|intros ss]. destruct (ss !! a); [apply keeps_ret|apply keeps_fail]. Qed.

Lemma keeps_get_head id : keeps R (get_head id).
Proof.
  destruct id; cbn [get_head]; (apply keeps_bind; [|intros ?]);
    first [apply keeps_gets|apply keeps_sem_at|apply keeps_mutex_at|apply keeps_ret|apply keeps_expect].
Qed.

Lemma keeps_get_tail id : keeps R (get_tail id).
Proof.
  destruct id; cbn [get_tail]; (apply keeps_bind; [|intros ?]);
    first [apply keeps_gets|apply keeps_sem_at|apply keeps_mutex_at|apply keeps_ret|apply keeps_expect].
Qed.

Lemma keeps_set_head id v : keeps R (set_head id v).
Proof. apply keeps_bind; [apply keeps_get_head|intros _]. apply keeps_modify. intros w. apply fp_head. Qed.

Lemma keeps_set_tail id v : keeps R (set_tail id v).
Proof. apply keeps_bind; [apply keeps_get_tail|intros _]. apply keeps_modify. intros w. apply fp_tail. Qed.

Lemma keeps_set_next i v : keeps R (set_next i v).
Proof. apply keeps_set_task, fp_next. Qed.

End Keeps.

Section Objects.
  #[local] Set Default Proof Using "All".
  Context (R : World → World → Prop) `{!Footprint R, !ObjectFootprint R}.

Lemma keeps_set_sem a h : keeps R (set_sem a h).
Proof. apply (keeps_bind R); [apply (keeps_sem_at R)|intros _]. apply (keeps_modify R). intros w. apply fp_sem. Qed.

Lemma keeps_set_mutex a h : keeps R (set_mutex a h).
Proof. apply (keeps_bind R); [apply (keeps_mutex_at R)|intros _]. apply (keeps_modify R). intros w. apply fp_mutex. Qed.
End Objects.

Section Walk.
  #[local] Set Default Proof Using "All".
  Context (R : World → World → Prop) `{!Footprint R, !WalkFootprint R}.

Lemma keeps_set_priority i v : keeps R (set_task i (λ t, t <| t_priority := v |>)).
Proof. apply (keeps_set_task R), fp_priority. Qed.

Lemma keeps_set_inherited i h : keeps R (set_task i (λ t, t <| t_inherited_waiters ::= h |>)).
Proof. apply (keeps_set_task R), fp_inherited. Qed.
End Walk.

(** One step through the code; calls are looked up in the hint database. *)
Ltac keep1 :=
  lazymatch goal with
  | |- keeps ?R (mret _) => apply (keeps_ret R)
  | |- keeps ?R (fail _) => apply (keeps_fail R)
  | |- keeps ?R (when _ _) => apply (keeps_when R)
  | |- keeps ?R (assert_ _) => apply (keeps_assert R)
  | |- keeps ?R (expect _) => apply (keeps_expect R)
  | |- keeps ?R (gets _) => apply (keeps_gets R)
  | |- keeps ?R (sched_gets _) => apply (keeps_gets R)
  | |- keeps ?R (task_at _) => apply (keeps_task_at R)
  | |- keeps ?R (tget _ _) => apply (keeps_tget R)
  | |- keeps ?R (sem_at _) => apply (keeps_sem_at R)
  | |- keeps ?R (mutex_at _) => apply (keeps_mutex_at R)
  | |- keeps ?R (set_sem _ _) => apply (keeps_set_sem R)
  | |- keeps ?R (set_mutex _ _) => apply (keeps_set_mutex R)
  | |- keeps ?R (get_head _) => apply (keeps_get_head R)
  | |- keeps ?R (get_tail _) => apply (keeps_get_tail R)
  | |- keeps ?R (set_head _ _) => apply (keeps_set_head R)
  | |- keeps ?R (set_tail _ _) => apply (keeps_set_tail R)
  | |- keeps ?R (set_next _ _) => apply (keeps_set_next R)
  | |- keeps ?R (bump _) => apply (keeps_bump R)
  | |- keeps ?R (for_each _ _) => apply (keeps_for_each R); intros ?
  | |- keeps ?R (set_task _ (λ t, t <| t_priority := _ |>)) => apply (keeps_set_priority R)
  | |- keeps ?R (set_task _ (λ t, t <| t_inherited_waiters ::= _ |>)) => apply (keeps_set_inherited R)
  | |- keeps ?R (set_task _ _) => apply (keeps_set_task R)
  | |- keeps ?R (try_bind _ _) => apply (keeps_try_bind R); [|intros ?]
  | |- keeps ?R (_ ≫= _) => apply (keeps_bind R); [|intros ?]
  | |- keeps ?R (match ?b with _ => _ end) => destruct b
  | |- keeps _ _ => solve [eauto with keeps nocore]
  end.
Ltac keep := repeat keep1.

(** ** The queue operations and the priority walk *)

Section Operations.
  #[local] Set Default Proof Using "All".
  Context (R : World → World → Prop) `{!Footprint R}.

Lemma keeps_remove_loop n id task previous current : keeps R (remove_loop n id task previous current).
Proof. revert previous current. induction n as [|n IH]; intros; cbn [remove_loop]; keep; apply IH. Qed.

Lemma keeps_remove_from id task : keeps R (remove_from id task).
Proof. unfold remove_from. keep. apply keeps_remove_loop. Qed.

Lemma keeps_enqueue_find fuel p previous current : keeps R (enqueue_find fuel p previous current).
Proof. revert previous current. induction fuel as [|n IH]; intros; cbn [enqueue_find]; keep; apply IH. Qed.

Lemma keeps_enqueue id task : keeps R (enqueue_by_priority id task).
Proof. unfold enqueue_by_priority. keep. apply keeps_enqueue_find. Qed.

Lemma keeps_pop_waiter a : keeps R (pop_mutex_waiter a).
Proof. unfold pop_mutex_waiter, pop_waiter. keep. Qed.

Lemma keeps_ready_push i : keeps R (ready_push i).
Proof. unfold ready_push, ready_priority. keep. Qed.

Lemma keeps_ready_pop_from ps : keeps R (ready_pop_from ps).
Proof. induction ps as [|p ps IH]; cbn [ready_pop_from]; keep; apply IH. Qed.

Lemma keeps_ready_pop_or_idle : keeps R ready_pop_or_idle.
Proof. unfold ready_pop_or_idle, ready_pop. keep. apply keeps_ready_pop_from. Qed.

Lemma keeps_ready_remove_loop fuel task p previous current :
  keeps R (ready_remove_loop fuel task p previous current).
Proof. revert previous current. induction fuel as [|n IH]; intros; cbn [ready_remove_loop]; keep; apply IH. Qed.

Lemma keeps_ready_remove task : keeps R (ready_remove task).
Proof. unfold ready_remove, ready_priority. keep. apply keeps_ready_remove_loop. Qed.

Lemma keeps_ready_scan n task current : keeps R (ready_scan n task current).
Proof. revert current. induction n as [|n IH]; intros; cbn [ready_scan]; keep; apply IH. Qed.

Lemma keeps_ready_contains task : keeps R (ready_contains task).
Proof.
  unfold ready_contains. induction priorities as [|p ps IH]; cbn [ready_contains_from]; keep; apply keeps_ready_scan.
Qed.

Lemma keeps_any_ready ps : keeps R (any_ready ps).
Proof. induction ps as [|p ps IH]; cbn [any_ready]; keep; apply IH. Qed.

Lemma keeps_chain_contains n owner sought : keeps R (chain_contains n owner sought).
Proof. revert owner. induction n as [|n IH]; intros; cbn [chain_contains]; keep; apply IH. Qed.

Lemma keeps_for_waiters fuel waiter body : (∀ y, keeps R (body y)) → keeps R (for_waiters fuel waiter body).
Proof. intros Hb. revert waiter. induction fuel as [|n IH]; intros; cbn [for_waiters]; keep; apply Hb. Qed.

  (** Operations that also update the task they are about. *)

Lemma keeps_make_ready i now :
  allowed i (λ t, t <| t_state := Ready |>) → allowed i (λ t, t <| t_metrics ::= metrics_on_ready now |>) →
  keeps R (make_ready i now).
Proof. intros H1 H2. unfold make_ready. keep; [done..|]. apply keeps_ready_push. Qed.
End Operations.
#[export] Hint Extern 0 (keeps ?R (remove_from _ _)) => apply (keeps_remove_from R) : keeps.
#[export] Hint Extern 0 (keeps ?R (enqueue_by_priority _ _)) => apply (keeps_enqueue R) : keeps.
#[export] Hint Extern 0 (keeps ?R (pop_mutex_waiter _)) => apply (keeps_pop_waiter R) : keeps.
#[export] Hint Extern 0 (keeps ?R (ready_push _)) => apply (keeps_ready_push R) : keeps.
#[export] Hint Extern 0 (keeps ?R (ready_pop_from _)) => apply (keeps_ready_pop_from R) : keeps.
#[export] Hint Extern 0 (keeps ?R ready_pop_or_idle) => apply (keeps_ready_pop_or_idle R) : keeps.
#[export] Hint Extern 0 (keeps ?R (ready_remove _)) => apply (keeps_ready_remove R) : keeps.
#[export] Hint Extern 0 (keeps ?R (ready_contains _)) => apply (keeps_ready_contains R) : keeps.
#[export] Hint Extern 0 (keeps ?R (any_ready _)) => apply (keeps_any_ready R) : keeps.
#[export] Hint Extern 0 (keeps ?R (chain_contains _ _ _)) => apply (keeps_chain_contains R) : keeps.
#[export] Hint Extern 0 (keeps ?R (make_ready _ _)) => apply (keeps_make_ready R) : keeps.
#[export] Hint Extern 1 (allowed _ _) => solve [done | by left] : keeps.

Section PriorityWalk.
  #[local] Set Default Proof Using "All".
  Context (R : World → World → Prop) `{!Footprint R, !WalkFootprint R}.

Lemma keeps_set_effective i p : keeps R (set_effective_priority i p).
Proof.
  unfold set_effective_priority, remove_waiter, enqueue_waiter. keep;
    first [apply keeps_ready_contains | apply keeps_ready_remove | apply keeps_ready_push
      | apply keeps_remove_from | apply keeps_enqueue].
Qed.

Lemma keeps_alter_inherited f o p : keeps R (alter_inherited f o p).
Proof. unfold alter_inherited. keep. Qed.

Lemma keeps_refresh fuel i depth : keeps R (refresh_from fuel i depth).
Proof.
  revert i depth. induction fuel as [|fuel IH]; intros i depth; cbn [refresh_from]; [apply (keeps_fail R)|].
  unfold replace_inheritance_with, remove_mutex_waiter, enqueue_mutex_waiter. keep;
    first [apply keeps_set_effective | apply keeps_remove_from | apply keeps_enqueue
      | apply keeps_alter_inherited | apply IH].
Qed.

Lemma keeps_add_inheritance o p : keeps R (add_inheritance o p).
Proof. unfold add_inheritance. keep; first [apply keeps_alter_inherited|apply keeps_refresh]. Qed.

Lemma keeps_remove_inheritance o p : keeps R (remove_inheritance o p).
Proof. unfold remove_inheritance. keep; first [apply keeps_alter_inherited|apply keeps_refresh]. Qed.

End PriorityWalk.
#[export] Hint Extern 0 (keeps ?R (add_inheritance _ _)) => apply (keeps_add_inheritance R) : keeps.
#[export] Hint Extern 0 (keeps ?R (remove_inheritance _ _)) => apply (keeps_remove_inheritance R) : keeps.

(** ** What the synchronisation operations leave alone *)

(** The saved frames, identities and lock depths of the tasks and all of the
    scheduler's bookkeeping but the queues. *)
Record held (w w' : World) : Prop := {
  held_field A (f : Tcb → A) : (∀ t v, f (t <| t_next := v |>) = f t) →
    (∀ t v, f (t <| t_priority := v |>) = f t) → (∀ t h, f (t <| t_inherited_waiters ::= h |>) = f t) →
    (∀ t v, f (t <| t_state := v |>) = f t) → (∀ t h, f (t <| t_metrics ::= h |>) = f t) →
    (∀ t h, f (t <| t_budget ::= h |>) = f t) →
    (∀ t v, f (t <| t_wake_at := v |>) = f t) → (∀ t v, f (t <| t_waiting_sem := v |>) = f t) →
    (∀ t v, f (t <| t_waiting_mutex := v |>) = f t) → (∀ t v, f (t <| t_granted_sem := v |>) = f t) →
    (∀ t v, f (t <| t_granted_mutex := v |>) = f t) → (∀ t v, f (t <| t_sem_granted := v |>) = f t) →
    ∀ j, f (T w' j) = f (T w j);
  held_sched A (f : Sched → A) : (∀ s h, f (s <| s_tasks ::= h |>) = f s) →
    (∀ s h, f (s <| s_ready_head ::= h |>) = f s) → (∀ s h, f (s <| s_ready_tail ::= h |>) = f s) →
    (∀ s h, f (s <| s_diagnostics ::= h |>) = f s) → f (w_sched w') = f (w_sched w);
}.

#[export] Instance held_preorder : PreOrder held.
Proof.
  split.
  - by split.
  - intros w1 w2 w3 [F1 S1] [F2 S2]. split.
    + intros A f H1 H2 H3 H4 H5 H6 H7 H8 H9 H10 H11 H12 j. rewrite F2, F1; done.
    + intros A f H1 H2 H3 H4. rewrite S2, S1; done.
Qed.

#[export] Program Instance held_footprint : Footprint held := {
  allowed i g := ∀ A (f : Tcb → A), (∀ t v, f (t <| t_next := v |>) = f t) →
    (∀ t v, f (t <| t_priority := v |>) = f t) → (∀ t h, f (t <| t_inherited_waiters ::= h |>) = f t) →
    (∀ t v, f (t <| t_state := v |>) = f t) → (∀ t h, f (t <| t_metrics ::= h |>) = f t) →
    (∀ t h, f (t <| t_budget ::= h |>) = f t) →
    (∀ t v, f (t <| t_wake_at := v |>) = f t) → (∀ t v, f (t <| t_waiting_sem := v |>) = f t) →
    (∀ t v, f (t <| t_waiting_mutex := v |>) = f t) → (∀ t v, f (t <| t_granted_sem := v |>) = f t) →
    (∀ t v, f (t <| t_granted_mutex := v |>) = f t) → (∀ t v, f (t <| t_sem_granted := v |>) = f t) →
    ∀ t, f (g t) = f t;
}.
Next Obligation.
  intros i g w Hg. split.
  - intros A f H1 H2 H3 H4 H5 H6 H7 H8 H9 H10 H11 H12 j. apply T_upd_field. intros t. by apply Hg.
  - intros A f H1 _ _ _. apply H1.
Qed.
Next Obligation. intros i v A f H1 **. apply H1. Qed.
Next Obligation. intros id v w. split; [by destruct id|]. intros A f _ H _ _. destruct id; [apply H|done..]. Qed.
Next Obligation. intros id v w. split; [by destruct id|]. intros A f _ _ H _. destruct id; [apply H|done..]. Qed.
Next Obligation. intros h w. split; [done|]. intros A f _ _ _ H. apply H. Qed.

#[export] Instance held_walk : WalkFootprint held.
Proof. split; intros i v A f H1 H2 H3 **; [apply H2|apply H3]. Qed.

#[export] Instance held_objects : ObjectFootprint held.
Proof. by split. Qed.

(** An update of fields that [held] does not read. *)
Ltac held_allowed :=
  intros A f **;
  repeat match goal with H : ∀ _ _, f _ = f _ |- _ => first [apply H | etrans; [apply H|]] end.
#[export] Hint Extern 2 (allowed _ _) => solve [held_allowed] : keeps.

(** Only the task [x] and priorities have changed. *)
Record others (x : Z) (w w' : World) : Prop := {
  others_field A (f : Tcb → A) : (∀ t v, f (t <| t_next := v |>) = f t) →
    (∀ t v, f (t <| t_priority := v |>) = f t) → (∀ t h, f (t <| t_inherited_waiters ::= h |>) = f t) →
    ∀ j, j ≠ x → f (T w' j) = f (T w j);
  others_current : current w' = current w;
}.

#[export] Instance others_preorder x : PreOrder (others x).
Proof.
  split.
  - by split.
  - intros w1 w2 w3 [F1 S1] [F2 S2]. split; [|congruence].
    intros A f H1 H2 H3 j Hj. rewrite F2, F1; done.
Qed.

#[export] Program Instance others_footprint x : Footprint (others x) := {
  allowed i g := i = x ∨ ∀ A (f : Tcb → A), (∀ t v, f (t <| t_next := v |>) = f t) →
    (∀ t v, f (t <| t_priority := v |>) = f t) → (∀ t h, f (t <| t_inherited_waiters ::= h |>) = f t) →
    ∀ t, f (g t) = f t;
}.
Next Obligation.
  intros x i g w [->|Hg]; split; try done; intros A f H1 H2 H3 j Hj.
  - f_equal. unfold T. simpl. by apply at_alter_ne.
  - apply T_upd_field. intros t. by apply Hg.
Qed.
Next Obligation. intros x i v. right. intros A f H1 **. apply H1. Qed.
Next Obligation. intros x id v w. split; by destruct id. Qed.
Next Obligation. intros x id v w. split; by destruct id. Qed.
Next Obligation. by split. Qed.

#[export] Instance others_walk x : WalkFootprint (others x).
Proof. split; intros i v; right; intros A f H1 H2 H3 **; [apply H2|apply H3]. Qed.

#[export] Instance others_objects x : ObjectFootprint (others x).
Proof. by split. Qed.
