(* ===== verification/Touch.v ===== *)
(** * Updates outside the synchronisation state

    The scheduler's own operations change the states, the budgets, the frames and the
    metrics of tasks, never who waits for what, who owns what or who donates: [unseen]
    says so of two stores, and the invariant of the kernel then follows from the
    ownership of tasks alone. *)

From stdpp Require Import sorting.
From S2P Require Import Prelude Effects Budget Contract Config Context Reservation.
From S2P Require Import Tcb Store Chain Ready Wait Switch Invariant Dispatch Inherit Donation Sync.
From S2P Require Import Moves Permit Slide Lean Handoff Mutex Lock Frame.

(** What the invariants of the semaphores, the mutexes and the donations read of a task. *)
Definition sync_part (t : Tcb) :=
  (t_base_priority t, t_priority t, t_inherited_waiters t, t_waiting_sem t, t_waiting_mutex t,
   t_granted_sem t, t_granted_mutex t, t_sem_granted t).

Record unseen (w w' : World) : Prop := {
  unseen_task j : sync_part (T w' j) = sync_part (T w j);
  unseen_sem a : core_sem <$> w_sems w' !! a = core_sem <$> w_sems w !! a;
  unseen_mutex a : core_mtx <$> w_mutexes w' !! a = core_mtx <$> w_mutexes w !! a;
}.

#[export] Instance unseen_preorder : PreOrder unseen.
Proof. split; [by split|]. intros w1 w2 w3 [? ? ?] [? ? ?]. split; intros; etrans; eauto. Qed.

Lemma unseen_upd w i g : (∀ t, sync_part (g t) = sync_part t) → unseen w (upd_task i g w).
Proof. intros Hg. split; [|done..]. intros j. by apply T_upd_field. Qed.

Lemma quiet_unseen w w' : quiet w w' → unseen w w'.
Proof. intros [F ? ?]. split; [|done..]. by apply (F _ sync_part). Qed.

Lemma unseen_core w w' : core w' = core w → unseen w w'.
Proof. intros. by apply quiet_unseen, quiet_core. Qed.

(** Its fields. *)
Lemma unseen_fields w w' j : unseen w w' →
  t_base_priority (T w' j) = t_base_priority (T w j) ∧ t_priority (T w' j) = t_priority (T w j) ∧
  t_inherited_waiters (T w' j) = t_inherited_waiters (T w j) ∧ t_waiting_sem (T w' j) = t_waiting_sem (T w j) ∧
  t_waiting_mutex (T w' j) = t_waiting_mutex (T w j) ∧ t_granted_sem (T w' j) = t_granted_sem (T w j) ∧
  t_granted_mutex (T w' j) = t_granted_mutex (T w j) ∧ t_sem_granted (T w' j) = t_sem_granted (T w j).
Proof. intros [H _ _]. specialize (H j). unfold sync_part in H. by injection H as ? ? ? ? ? ? ? ?. Qed.

Lemma permits_unseen w w' : unseen w w' → ∀ a, permits w' a = permits w a.
Proof.
  intros H a. apply permits_same; [apply core_sem_count, H|]. intros i. by apply unseen_fields.
Qed.

Lemma grants_unseen w w' : unseen w w' → grants w → grants w'.
Proof.
  intros H [G1 G2 G3]. split; intros i Hi; 
    destruct (unseen_fields w w' i H) as (_ & _ & _ & E1 & E2 & E3 & E4 & E5); rewrite ?E1, ?E2, ?E3, ?E4, ?E5; auto.
Qed.

Lemma kernel_unseen w w' q q' d d' :
  kernel_hand w q d → unseen w w' → owned w' q' d' →
  (∀ a, q' (QSem a) = q (QSem a) ∧ q' (QMtx a) = q (QMtx a)) → kernel_hand w' q' d'.
Proof.
  intros [[Ho Hso Hse Hgr] Hinh Hmu] Hu Ho' Hq. pose proof (λ j, unseen_fields w w' j Hu) as F.
  split; [split|..]; [done|..].
  - apply (sorted_all_ext w w' q q' Hso); [apply F|apply Hq..].
  - apply (sems_same w w' q q'); [|apply F| |done].
    + intros a. apply core_sem_count, Hu.
    + intros a. by destruct (Hq a) as [-> _].
  - by apply (grants_unseen w).
  - apply (inheritance_same w); [|done]. split; try apply F. intros a. apply core_mtx_owner, Hu.
  - apply (mutexes_same w w' q q'); [apply Hu|apply F| |done]. intros a. by destruct (Hq a) as [_ ->].
Qed.

#[export] Program Instance unseen_footprint : Footprint unseen := {
  allowed i g := ∀ t, sync_part (g t) = sync_part t;
}.
Next Obligation. intros i g w Hg. by apply unseen_upd. Qed.
Next Obligation. done. Qed.
Next Obligation. intros id v w. apply unseen_core, core_put_head. Qed.
Next Obligation. intros id v w. apply unseen_core, core_put_tail. Qed.
Next Obligation. by split. Qed.

(** One field of every task. *)
Definition same_field {A} (f : Tcb → A) (w w' : World) : Prop := ∀ j, f (T w' j) = f (T w j).

Class Linkless {A} (f : Tcb → A) : Prop := linkless t v : f (t <| t_next := v |>) = f t.
Class Unwalked {A} (f : Tcb → A) : Prop := {
  unwalked_priority t v : f (t <| t_priority := v |>) = f t;
  unwalked_inherited t h : f (t <| t_inherited_waiters ::= h |>) = f t;
}.
#[export] Hint Extern 0 (Linkless _) => (intros ? ?; done) : typeclass_instances.
#[export] Hint Extern 0 (Unwalked _) => (by split) : typeclass_instances.

#[export] Instance same_field_preorder {A} (f : Tcb → A) : PreOrder (same_field f).
Proof. split; [done|]. intros w1 w2 w3 H1 H2 j. by rewrite H2, H1. Qed.

#[export] Program Instance same_field_footprint {A} (f : Tcb → A) `{!Linkless f} : Footprint (same_field f) := {
  allowed i g := ∀ t, f (g t) = f t;
}.
Next Obligation. intros A f Hf i g w Hg j. by apply T_upd_field. Qed.
Next Obligation. intros A f Hf i v t. apply linkless. Qed.
Next Obligation. intros A f Hf id v w j. by destruct id. Qed.
Next Obligation. intros A f Hf id v w j. by destruct id. Qed.
Next Obligation. done. Qed.

#[export] Instance same_field_walk {A} (f : Tcb → A) `{!Linkless f, !Unwalked f} : WalkFootprint (same_field f).
Proof. split; intros i v t; [apply unwalked_priority|apply unwalked_inherited]. Qed.
#[export] Hint Extern 0 (WalkFootprint (same_field _)) => apply same_field_walk : typeclass_instances.

#[export] Instance same_field_objects {A} (f : Tcb → A) : ObjectFootprint (same_field f).
Proof. by split. Qed.
