(* ===== verification/Wake.v ===== *)
(** * Waking tasks ([src/runtime/scheduler.rs])

    What [wake_sleepers] does: every task whose deadline has passed is ready
    afterwards, nothing else changes its state, and the invariant of the kernel holds
    throughout. *)

From stdpp Require Import sorting.
From S2P Require Import Prelude Effects Budget Contract Config Context Reservation.
From S2P Require Import Tcb Store Chain Ready Wait Switch Invariant Dispatch Inherit Donation Sync.
From S2P Require Import Moves Permit Slide Lean Handoff Mutex Lock Acquire Exclusion Timer Frame Touch.

(** ** Which tasks are due *)

(** The deadline of a sleep or of a wait has passed. *)
Definition due (now : Z) (t : Tcb) : bool :=
  match t_state t with
  | Sleeping => t_wake_at t <=? now
  | Blocked => (negb (t_waiting_sem t =? 0) || negb (t_waiting_mutex t =? 0)) && negb (t_wake_at t =? 0) &&
      (t_wake_at t <=? now)
  | _ => false
  end.

(** The budget of a throttled task is replenished. *)
Definition refilled (now : Z) (t : Tcb) : bool :=
  state_eqb (t_state t) Throttled && fst (replenish_if_due now (t_budget t)).

(** The outcome of the loop body for the task [i]. *)
Record woken (w w' : World) (i : Z) (b : bool) : Prop := {
  woken_kernel : ∃ q', kernel w' q';
  woken_permits a : a ≠ 0 → permits w' a = permits w a;
  woken_others : others i w w';
  woken_state : t_state (T w' i) = if b then Ready else t_state (T w i);
  woken_grants : t_granted_sem (T w' i) = t_granted_sem (T w i) ∧ t_granted_mutex (T w' i) = t_granted_mutex (T w i);
  woken_budget : t_state (T w i) ≠ Throttled → t_budget (T w' i) = t_budget (T w i);
}.

Lemma kernel_bump w q h : kernel w q → kernel (w <| w_sched ::= λ s, s <| s_diagnostics ::= h |> |>) q.
Proof.
  intros Hk. apply (kernel_unseen w _ q q None None Hk); [apply (fp_diagnostics h w)| |done].
  by apply owned_sched, (kernel_owned w q None).
Qed.

Lemma others_bump i h w : others i w (w <| w_sched ::= λ s, s <| s_diagnostics ::= h |> |>).
Proof. apply (fp_diagnostics h w). Qed.

(** A task in no queue becomes ready. *)
Lemma kernel_detached w q i :
  kernel w q → slot_in i → t_state (T w i) ≠ Ready → t_state (T w i) ≠ Blocked → detached q i.
Proof.
  intros Hk Hi Hr Hb. pose proof (kernel_owned w q None Hk) as Ho.
  destruct (owned_not_waiting w q None i Ho Hi Hb). apply (owned_detached w q None); try done.
  by apply (owned_not_queued w q None).
Qed.

Lemma wake_spec w q i now :
  kernel w q → slot_in i → t_state (T w i) ≠ Ready → t_state (T w i) ≠ Blocked →
  wp (make_ready i now) (λ _ w', woken w w' i true ∧ same_field t_budget w w') w.
Proof.
  intros Hk Hi Hr Hb. pose proof (kernel_detached w q i Hk Hi Hr Hb) as Hd.
  assert (keeps (others i) (make_ready i now)) as K1.
  { apply (keeps_make_ready (others i)); by left. }
  assert (keeps (same_field t_budget) (make_ready i now)) as K2 by (by apply (keeps_make_ready (same_field t_budget))).
  eapply wp_mono; [|eapply wp_keeps; [exact K1|]; eapply wp_keeps; [exact K2|]; exact (kernel_make_ready w q i now Hk Hi Hd Hr)].
  intros _ w' (((Hk' & Hu & Hp) & Hbud) & Ho). split; [|done]. split; [by eexists|by intros|done|by rewrite (Hu _ t_state), decide_True| |].
  - by rewrite (Hu _ t_granted_sem), (Hu _ t_granted_mutex), !decide_True.
  - intros _. apply Hbud.
Qed.

(** ** A waiter of a mutex runs out of time *)

Definition expiring (t : Tcb) : Tcb :=
  t <| t_waiting_mutex := 0 |> <| t_sem_granted := false |> <| t_granted_mutex := 0 |> <| t_wake_at := 0 |>.

Lemma expiring_inert : inert expiring.
Proof. by split. Qed.

Lemma expiring_clearing t : t_granted_mutex t = 0 → expiring t = clearing t.
Proof. destruct t. simpl. by intros ->. Qed.

Lemma timeout_mutex_spec w q i now :
  kernel w q → slot_in i → t_waiting_mutex (T w i) ≠ 0 →
  wp (timeout_mutex_waiter i now) (λ _ w', resigned w w' i ∧ t_state (T w' i) = Ready) w.
Proof.
  intros Hk Hi Ha. pose proof Hk as [[Ho _ _ Hgr] [_ _ _ _ Hac] _].
  pose proof (owned_shape w q None Ho) as Hs. pose proof (owned_placed w q None (proj2 Ho) i Hi) as Hpl.
  destruct (grants_waiting w Hgr i Hi) as [_ Hgm]; [by right|].
  unfold timeout_mutex_waiter. go. set (a := t_waiting_mutex (T w i)) in *.
  pose proof (placed_mtx_home w q None i Hpl Ha) as Hin. fold a in Hin. unfold remove_mutex_waiter.
  wp_apply (remove_spec w q (QMtx a) i (proj1 Ho) (queues_valid w q (proj1 Ho) _ _ Hin)).
  intros _ w1 (Hc1 & Hq1 & _). specialize (Hq1 Hin). assert (shape w1) as Hs1 by (by eapply queues_shape).
  apply bind_assoc_wp. apply (wp_slide i expiring (waiting_in w1) (owner_in w1) expiring_inert).
  - apply slides_return; [apply expiring_inert|]. intros o Hown Hn.
    assert (waiting_in w1 i = a) as Hwa by (by apply (core_field t_waiting_mutex w w1)).
    rewrite <-Hwa in Hown. apply (not_ahead w1); try done; [|congruence]. by apply (acyclic_sbp w); [apply sbp_core|].
  - by apply graph_of.
  - done.
  - apply wp_bind, wp_set_task; [done..|].
    rewrite (upd_task_at w1 i expiring clearing); [|done..|apply expiring_clearing; by rewrite (core_field t_granted_mutex w w1)].
    apply wp_bind. wp_apply (return_spec w w1 q i a Hk Hi eq_refl Ha Hc1 Hq1). intros _ w3 [q3 Hr].
    wp_apply (resigned_ready w w3 q3 i now Hr Hi). intros [] w4 (? & ? & _). done.
Qed.

Lemma others_timeout_mutex i now : keeps (others i) (timeout_mutex_waiter i now).
Proof. unfold timeout_mutex_waiter, remove_mutex_waiter. keep; by left. Qed.

Lemma budget_timeout_mutex i now : keeps (same_field t_budget) (timeout_mutex_waiter i now).
Proof. unfold timeout_mutex_waiter, remove_mutex_waiter. by keep. Qed.

Lemma others_timeout_semaphore i now : keeps (others i) (timeout_semaphore_waiter_locked i now).
Proof. unfold timeout_semaphore_waiter_locked, remove_waiter. keep; by left. Qed.

Lemma budget_timeout_semaphore i now : keeps (same_field t_budget) (timeout_semaphore_waiter_locked i now).
Proof. unfold timeout_semaphore_waiter_locked, remove_waiter. by keep. Qed.

(** ** One task of the loops *)

Lemma woken_same w q i : kernel w q → woken w w i false.
Proof. intros Hk. split; [by exists q|done..]. Qed.

Lemma woken_bumped w w' i h :
  woken w w' i true → woken w (w' <| w_sched ::= λ s, s <| s_diagnostics ::= h |> |>) i true.
Proof.
  intros [[q' Hk] Hp Ho Hst Hg Hb]. split; [exists q'; by apply kernel_bump|done| |done..].
  etrans; [exact Ho|]. apply others_bump.
Qed.

Lemma expired_waits now t : expired t now = true → t_state t = Blocked ∧ t_waiting_sem t ≠ 0.
Proof.
  unfold expired, state_eqb. intros H%negb_true_iff. apply orb_false_iff in H as [[[H1 H2]%orb_false_iff _]%orb_false_iff _].
  apply negb_false_iff, bool_decide_eq_true in H1. by apply Z.eqb_neq in H2.
Qed.

Lemma due_semaphore now t : expired t now = true → due now t = true.
Proof.
  unfold expired, due, state_eqb. case_bool_decide as E; [rewrite E|done].
  destruct (t_waiting_sem t =? 0), (t_wake_at t =? 0); try done. simpl. intros H%negb_true_iff%Z.ltb_ge. by apply Z.leb_le.
Qed.

Lemma due_blocked now t : t_state t = Blocked → expired t now = false →
  due now t = negb (t_waiting_sem t =? 0) && false || negb (t_waiting_mutex t =? 0) && negb (t_wake_at t =? 0) && (t_wake_at t <=? now).
Proof.
  unfold expired, due, state_eqb. intros ->. rewrite bool_decide_true by done. rewrite Z.leb_antisym.
  by destruct (t_waiting_sem t =? 0), (t_waiting_mutex t =? 0), (t_wake_at t =? 0), (now <? t_wake_at t).
Qed.

Lemma wake_task_spec w q i now :
  kernel w q → slot_in i →
  wp (wake_task now i) (λ _ w', woken w w' i (due now (T w i)) ∧ same_field t_budget w w') w.
Proof.
  intros Hk Hi. pose proof (kernel_owned w q None Hk) as Ho. pose proof (owned_shape w q None Ho) as Hs.
  unfold wake_task. go. destruct (state_eqb (t_state (T w i)) Sleeping && (t_wake_at (T w i) <=? now)) eqn:Es.
  - apply andb_prop in Es as [Es%bool_decide_eq_true Ew]. go.
    wp_apply (wake_spec w q i now Hk Hi); [|congruence..]. intros _ w1 [Hw1 Hb1].
    unfold due. rewrite Es, Ew. unfold bump, sched_modify. go. split; [by apply woken_bumped|done].
  - apply wp_bind. eapply wp_mono; [|eapply wp_keeps; [exact (others_timeout_semaphore i now)|];
      eapply wp_keeps; [exact (budget_timeout_semaphore i now)|]; exact (timeout_spec w q i now (kernel_semaphores w q None Hk) Hi)].
    intros r w1 (([-> H1] & Hb1) & Ho1). destruct (expired (T w i) now) eqn:Ex.
    + destruct H1 as (q1 & [W1 W2 W3 W4] & Hr). rewrite (due_semaphore _ _ Ex). unfold bump, sched_modify. go.
      split; [|done]. apply woken_bumped. split; [exists q1; by apply (kernel_same_mutexes w w1 q q1)|done..| |by intros _; apply Hb1].
      destruct (expired_waits now (T w i) Ex) as [_ Ews]. destruct (grants_waiting w (kernel_grants w q None Hk) i Hi); [by left|].
      destruct W4 as [_ ->], W3 as [F _ _ _ _ _]. by rewrite (F _ t_granted_mutex).
    + subst w1. go. destruct (state_eqb (t_state (T w i)) Blocked) eqn:Eb; cbn [andb when].
      * apply bool_decide_eq_true in Eb. rewrite (due_blocked now (T w i) Eb Ex), andb_false_r, orb_false_l.
        destruct (_ && _ && _) eqn:Em; cbn [when]; [|by go; split; [eapply woken_same|]].
        apply andb_prop in Em as [[Em%negb_true_iff%Z.eqb_neq _]%andb_prop _].
        eapply wp_mono; [|eapply wp_keeps; [exact (others_timeout_mutex i now)|];
          eapply wp_keeps; [exact (budget_timeout_mutex i now)|]; exact (timeout_mutex_spec w q i now Hk Hi Em)].
        intros _ w1 ((([R1 R2 R3 R4] & Hst) & Hb2) & Ho2). split; [split; try done|done].
        destruct (grants_waiting w (kernel_grants w q None Hk) i Hi) as [-> ->]; [by right|apply R3].
      * assert (due now (T w i) = false) as ->; [|by go; split; [eapply woken_same|]].
        apply bool_decide_eq_false in Eb. unfold due. unfold state_eqb in Es.
        destruct (t_state (T w i)); done.
Qed.

Lemma set_budget_spec w q i b :
  kernel w q → kernel (upd_task i (λ t, t <| t_budget := b |>) w) q.
Proof.
  intros Hk. apply (kernel_unseen w _ q q None None Hk); [by apply unseen_upd| |done].
  apply owned_upd; [done|by apply (kernel_owned w q None)].
Qed.

Lemma replenish_task_spec w q i now :
  kernel w q → slot_in i →
  wp (replenish_task now i) (λ _ w', woken w w' i (refilled now (T w i))) w.
Proof.
  intros Hk Hi. pose proof (owned_shape w q None (kernel_owned w q None Hk)) as Hs.
  unfold replenish_task, refilled. go. destruct (state_eqb (t_state (T w i)) Throttled) eqn:Et; [|go; by eapply woken_same].
  apply bool_decide_eq_true in Et. go. set (r := replenish_if_due now _). set (w1 := upd_task i _ w).
  assert (kernel w1 q) as Hk1 by (by apply set_budget_spec).
  assert (others i w w1) as Ho1 by (apply (fp_task (R:=others i)); by left).
  assert (t_state (T w1 i) = Throttled) as Et1 by (unfold w1; by rewrite T_upd_eq).
  assert (t_granted_sem (T w1 i) = t_granted_sem (T w i) ∧ t_granted_mutex (T w1 i) = t_granted_mutex (T w i)) as [Hg1 Hg2]
    by (unfold w1; by rewrite !T_upd_eq).
  assert (∀ a, permits w1 a = permits w a) as Hp1 by (by apply permits_unseen, unseen_upd).
  destruct (fst r); cbn [andb when]; [|go; split; [by exists q|by intros|done|congruence|done|congruence]].
  go. wp_apply (wake_spec w1 q i now Hk1 Hi); [|congruence..]. intros _ w2 [[H1 H2 H3 H4 H5 H6] _].
  unfold bump, sched_modify. go. apply woken_bumped. split; [done|intros a Ha; by rewrite H2, Hp1|by etrans|done| |].
  - by rewrite <-Hg1, <-Hg2.
  - congruence.
Qed.

(** ** The loops *)

(** Everything a sweep over the slots with the predicate [b] does. *)
Record swept (w w' : World) (b : Tcb → bool) : Prop := {
  swept_kernel : ∃ q', kernel w' q';
  swept_permits a : a ≠ 0 → permits w' a = permits w a;
  swept_current : current w' = current w;
  swept_state j : slot_in j → t_state (T w' j) = if b (T w j) then Ready else t_state (T w j);
  swept_grants j : slot_in j →
    t_granted_sem (T w' j) = t_granted_sem (T w j) ∧ t_granted_mutex (T w' j) = t_granted_mutex (T w j);
  swept_budget j : slot_in j → t_state (T w j) ≠ Throttled → t_budget (T w' j) = t_budget (T w j);
}.

Lemma sweep w q (body : Z → M World unit) (b : Tcb → bool) :
  kernel w q → Linkless b → Unwalked b →
  (∀ w q i, kernel w q → slot_in i → wp (body i) (λ _ w', woken w w' i (b (T w i))) w) →
  wp (for_each (range 0 TASK_SLOT_COUNT) body) (λ _ w', swept w w' b) w.
Proof.
  intros Hk Hl Hu Hbody.
  apply (wp_for_each (λ done_ w', (∃ q', kernel w' q') ∧ (∀ a, a ≠ 0 → permits w' a = permits w a) ∧
    current w' = current w ∧ ∀ j, slot_in j →
      t_state (T w' j) = (if decide (j ∈ done_) then if b (T w j) then Ready else t_state (T w j) else t_state (T w j)) ∧
      (j ∉ done_ → b (T w' j) = b (T w j)) ∧
      t_granted_sem (T w' j) = t_granted_sem (T w j) ∧ t_granted_mutex (T w' j) = t_granted_mutex (T w j) ∧
      (t_state (T w j) ≠ Throttled → t_budget (T w' j) = t_budget (T w j)))).
  - split_and!; [by exists q|done..|]. intros j Hj. rewrite decide_False by apply not_elem_of_nil. done.
  - intros done_ i rest w1 Hl1 ([q1 Hk1] & Hp1 & Hc1 & Ht1).
    assert (i ∈ range 0 TASK_SLOT_COUNT) as Hi by (rewrite Hl1; set_solver).
    pose proof Hi as Hs%elem_of_range. change (slot_in i) in Hs. pose proof (NoDup_range 0 TASK_SLOT_COUNT) as Hnd.
    rewrite Hl1 in Hnd. apply NoDup_app in Hnd as (_ & Hdis & _).
    assert (i ∉ done_) as Hni by (intros Hin; apply (Hdis i Hin); left).
    wp_apply (Hbody w1 q1 i Hk1 Hs). intros _ w2 [Hk2 Hp2 [Hf2 Hc2] Hst2 Hg2 Hb2].
    split_and!; [done|intros a Ha; by rewrite Hp2, Hp1|congruence|]. intros j Hj. destruct (Ht1 j Hj) as (T1 & T2 & T3 & T4 & T5).
    destruct (decide (j = i)) as [->|Hne].
    + rewrite (decide_True (P := i ∈ done_ ++ [i])) by set_solver. rewrite decide_False in T1 by done.
      rewrite Hst2, T2, T1 by done. destruct Hg2 as [-> ->]. split_and!; try done; [set_solver|]. intros Hnt.
      rewrite Hb2 by (by rewrite T1). by apply T5.
    + rewrite (Hf2 _ t_state), (Hf2 _ t_granted_sem), (Hf2 _ t_granted_mutex), (Hf2 _ t_budget) by done. rewrite T1. split_and!; try done.
      * assert (j ∈ done_ ++ [i] ↔ j ∈ done_) as Hiff by set_solver. by rewrite (decide_ext _ _ _ _ Hiff).
      * intros Hj'. rewrite (Hf2 _ b); [apply T2; set_solver|apply Hl|apply Hu..|done].
  - intros w1 (Hk1 & Hp1 & Hc1 & Ht1). split; try done; intros j Hj; destruct (Ht1 j Hj) as (T1 & _ & T3 & T4 & T5); [|done..].
    rewrite T1, decide_True; [done|]. by apply elem_of_range.
Qed.

Definition wakes (now : Z) (t : Tcb) : bool := due now t || refilled now t.

Lemma budget_wake_task i now : keeps (same_field t_budget) (wake_task now i).
Proof.
  unfold wake_task. keep; first [done|apply budget_timeout_semaphore|apply budget_timeout_mutex].
Qed.

Lemma wake_sleepers_spec w q now :
  kernel w q → wp (wake_sleepers now) (λ _ w', swept w w' (wakes now)) w.
Proof.
  intros Hk. unfold wake_sleepers, replenish_budgets. go.
  eapply wp_mono; [|eapply wp_keeps; [apply (keeps_for_each (same_field t_budget)); intros i; apply budget_wake_task|];
    apply (sweep w q (wake_task now) (due now) Hk)]; try (by split) || (by intros ? ?).
  2:{ intros w' q' i Hk' Hi. wp_apply (wake_task_spec w' q' i now Hk' Hi). by intros _ w2 [? _]. }
  intros _ w1 [[[q1 Hk1] Hp1 Hc1 Hst1 Hg1 _] Hb1].
  wp_apply (sweep w1 q1 (replenish_task now) (refilled now) Hk1); [|done|done|by intros; eapply replenish_task_spec].
  intros _ w2 [Hk2 Hp2 Hc2 Hst2 Hg2 Hb2]. split; [done|intros a Ha; by rewrite Hp2, Hp1|congruence| | |].
  - intros j Hj. rewrite Hst2 by done. unfold wakes, refilled. rewrite (Hb1 j), Hst1 by done.
    destruct (due now (T w j)); [done|]. done.
  - intros j Hj. destruct (Hg2 j Hj) as [-> ->]. by apply Hg1.
  - intros j Hj Hnt. rewrite Hb2; [apply Hb1|done|]. rewrite Hst1 by done. by destruct (due now (T w j)).
Qed.

(** ** What the sweep leaves alone *)

Lemma held_timeout_semaphore i now : keeps held (timeout_semaphore_waiter_locked i now).
Proof. unfold timeout_semaphore_waiter_locked, remove_waiter. keep; held_allowed. Qed.

Lemma held_timeout_mutex i now : keeps held (timeout_mutex_waiter i now).
Proof. unfold timeout_mutex_waiter, remove_mutex_waiter. keep; held_allowed. Qed.

Lemma held_wake_sleepers now : keeps held (wake_sleepers now).
Proof.
  unfold wake_sleepers, replenish_budgets, wake_task, replenish_task. keep;
    first [held_allowed|apply held_timeout_semaphore|apply held_timeout_mutex].
Qed.

Lemma held_pending w w' : held w w' → pending w' = pending w.
Proof. intros [_ S]. by apply (S _ s_pending_switch). Qed.

(** A task that is due was no pending target, so it is in its ready queue now. *)
Lemma swept_queued w w' q q' now j :
  kernel w q → kernel w' q' → held w w' → swept w w' (wakes now) → slot_in j → wakes now (T w j) = true →
  ready_queued q' j.
Proof.
  intros Hk Hk' Hh [_ _ _ Hst _ _] Hj Hw. specialize (Hst j Hj). rewrite Hw in Hst.
  pose proof (owned_placed w q None (proj2 (kernel_owned w q None Hk)) j Hj) as Hpl.
  pose proof (owned_placed w' q' None (proj2 (kernel_owned w' q' None Hk')) j Hj) as Hpl'.
  assert (t_state (T w j) ≠ Ready ∧ t_state (T w j) ≠ Running) as [Hnr Hnn].
  { revert Hw. unfold wakes, due, refilled. destruct (t_state (T w j)); by vm_compute || done. }
  assert (j ≠ IDLE_SLOT) as Hidle by (intros E; by destruct (placed_idle w q None j Hpl E)).
  destruct (placed_home w' q' None j Hpl' Hst Hidle) as [?|[?|Ht]]; [done..|].
  destruct (placed_target w q None j Hpl); [|done]. by apply (is_target_same w w'); [apply held_pending|].
Qed.

(** C7: Nobody oversleeps (RTOS-WAIT-001, RTOS-BUDGET-004): after [wake_sleepers] every
    task whose sleep or bounded wait has reached its deadline, and every throttled task
    whose replenishment is due, is Ready and queued with its priority; no other task
    changes its state; no permit, grant or wait-queue entry is lost, a task that timed
    out receives no grant, and nothing panics. *)
Theorem due_tasks_wake (w : World) (q : Queues) (now : Z) :
  kernel w q →
  wp (wake_sleepers now) (λ _ w', ∃ q', kernel w' q' ∧ current w' = current w ∧
    (∀ a, a ≠ 0 → permits w' a = permits w a) ∧
    ∀ i, slot_in i →
      t_state (T w' i) = (if wakes now (T w i) then Ready else t_state (T w i)) ∧
      t_granted_sem (T w' i) = t_granted_sem (T w i) ∧ t_granted_mutex (T w' i) = t_granted_mutex (T w i) ∧
      (wakes now (T w i) = true → ready_queued q' i)) w.
Proof.
  intros Hk. eapply wp_mono; [|eapply wp_keeps; [apply held_wake_sleepers|]; exact (wake_sleepers_spec w q now Hk)].
  intros _ w' [Hsw Hh]. pose proof Hsw as [[q' Hk'] Hp Hc Hst Hg _]. exists q'. split_and!; [done..|].
  intros i Hi. destruct (Hg i Hi). split_and!; [by apply Hst|done|done|]. by apply (swept_queued w w' q q').
Qed.

(** The main task waits for a mutex until 57. *)
Lemma due_tasks_wake_witness :
  ∃ q, kernel waiting_main q ∧ wakes 60 (T waiting_main 0) = true ∧ wakes 50 (T waiting_main 0) = false ∧
    wp (wake_sleepers 60) (λ _ w', ∃ q', kernel w' q' ∧ current w' = current waiting_main ∧
      (∀ a, a ≠ 0 → permits w' a = permits waiting_main a) ∧
      ∀ i, slot_in i →
        t_state (T w' i) = (if wakes 60 (T waiting_main i) then Ready else t_state (T waiting_main i)) ∧
        t_granted_sem (T w' i) = t_granted_sem (T waiting_main i) ∧
        t_granted_mutex (T w' i) = t_granted_mutex (T waiting_main i) ∧
        (wakes 60 (T waiting_main i) = true → ready_queued q' i)) waiting_main.
Proof.
  destruct waiting_main_kernel as [q Hk]. exists q. split; [exact Hk|]. split; [by vm_compute|]. split; [by vm_compute|].
  exact (due_tasks_wake waiting_main q 60 Hk).
Defined.

(** ** The timer interrupt *)

(** A task that no sweep wakes keeps what the timer reads of it. *)
Lemma owned_stop w q s :
  kernel w q → t_state (T w (current w)) = Running → current w ≠ IDLE_SLOT → s = Sleeping ∨ s = Throttled →
  kernel (upd_task (current w) (λ t, t <| t_state := s |>) w) q.
Proof.
  intros Hk Hst Hidle Hs. apply (kernel_unseen w _ q q None None Hk); [by apply unseen_upd| |done].
  apply (owned_leave w q None s); try done. by apply (kernel_owned w q None).
Qed.

Lemma kernel_metrics w q i h : kernel w q → kernel (upd_task i (λ t, t <| t_metrics ::= h |>) w) q.
Proof.
  intros Hk. apply (kernel_unseen w _ q q None None Hk); [by apply unseen_upd| |done].
  apply owned_upd; [done|by apply (kernel_owned w q None)].
Qed.

(** What the interrupt does to the running task and what it reports. *)
Definition charged (now : Z) (t : Tcb) : BudgetExpiry * BudgetState :=
  Budget.on_timer now (negb (t_scheduler_lock_depth t =? 0)) (t_budget t).

Record ticked (w w' : World) (now limit : Z) (v : option ContractViolation) : Prop := {
  ticked_kernel : ∃ q', kernel w' q';
  ticked_permits a : a ≠ 0 → permits w' a = permits w a;
  ticked_current : current w' = current w;
  ticked_others j : slot_in j → j ≠ current w →
    t_state (T w' j) = if wakes now (T w j) then Ready else t_state (T w j);
  ticked_running : t_state (T w (current w)) = Running →
    t_state (T w' (current w)) =
      match fst (charged now (T w (current w))) with ThrottleNow => Throttled | _ => Running end ∧
    t_budget (T w' (current w)) = snd (charged now (T w (current w))) ∧
    v = lock_violation (T w (current w)) (current w) now limit;
  ticked_stopped : t_state (T w (current w)) ≠ Running →
    v = None ∧ t_state (T w' (current w)) = if wakes now (T w (current w)) then Ready else t_state (T w (current w));
}.

Lemma running_not_waking now t : t_state t = Running → wakes now t = false.
Proof. unfold wakes, due, refilled, state_eqb. by intros ->. Qed.

(** Taking the budget's verdict: the state of the running task after it. *)
Definition verdict_locked (c : Z) (e : BudgetExpiry) : M World unit :=
  match e with
  | ThrottleNow =>
      set_task c (λ t, t <| t_state := Throttled |>) ;; count_exhaustion c ;; bump d_budget_throttles
  | DeferredBySchedulerLock => count_exhaustion c ;; bump d_budget_lock_overruns
  | NotBudgeted | StillAvailable => mret tt
  end.

Lemma T_bump w h i : T (w <| w_sched ::= λ s, s <| s_diagnostics ::= h |> |>) i = T w i.
Proof. done. Qed.

Lemma verdict_spec w q e :
  kernel w q → t_state (T w (current w)) = Running → (e = ThrottleNow → current w ≠ IDLE_SLOT) →
  wp (verdict_locked (current w) e) (λ _ w', kernel w' q ∧ others (current w) w w' ∧
    (∀ a, permits w' a = permits w a) ∧
    t_state (T w' (current w)) = match e with ThrottleNow => Throttled | _ => Running end ∧
    t_budget (T w' (current w)) = t_budget (T w (current w)) ∧
    t_scheduler_lock_started_at (T w' (current w)) = t_scheduler_lock_started_at (T w (current w))) w.
Proof.
  intros Hk Hst Hidle. pose proof (kernel_owned w q None Hk) as Ho. pose proof (owned_shape w q None Ho) as Hs.
  assert (slot_in (current w)) as Hc by (by eapply owned_slot_current).
  assert (keeps (others (current w)) (verdict_locked (current w) e)) as K1.
  { unfold verdict_locked, count_exhaustion. keep; by left. }
  assert (keeps unseen (verdict_locked (current w) e)) as K2.
  { unfold verdict_locked, count_exhaustion. by keep. }
  eapply wp_mono; [|eapply wp_keeps; [exact K1|]; eapply wp_keeps; [exact K2|];
    instantiate (1 := λ _ w', kernel w' q ∧
      t_state (T w' (current w)) = match e with ThrottleNow => Throttled | _ => Running end ∧
      t_budget (T w' (current w)) = t_budget (T w (current w)) ∧
      t_scheduler_lock_started_at (T w' (current w)) = t_scheduler_lock_started_at (T w (current w)))].
  { intros _ w' (((H1 & H2 & H3 & H4) & Hu) & Ho'). split_and!; try done. by apply permits_unseen. }
  unfold verdict_locked, count_exhaustion, bump, sched_modify. destruct e; go; try by split_and!.
  - split_and!; rewrite ?T_bump, ?T_upd_eq by eauto using shape_upd_task; try done.
    apply kernel_bump, kernel_bump, kernel_metrics, owned_stop; auto.
  - split_and!; rewrite ?T_bump, ?T_upd_eq by eauto using shape_upd_task; try done.
    by apply kernel_bump, kernel_bump, kernel_metrics.
Qed.

Lemma on_timer_spec w q now limit :
  kernel w q → (current w = IDLE_SLOT → spec (t_budget (T w IDLE_SLOT)) = None) →
  wp (on_timer now limit) (λ v w', ticked w w' now limit v) w.
Proof.
  intros Hk Hidle. pose proof (kernel_owned w q None Hk) as Ho.
  assert (slot_in (current w)) as Hc by (by eapply owned_slot_current). set (c := current w) in *.
  unfold on_timer. apply wp_bind.
  eapply wp_mono; [|eapply wp_keeps; [apply held_wake_sleepers|]; exact (wake_sleepers_spec w q now Hk)].
  intros _ w1 [[[q1 Hk1] Hp1 Hc1 Hst1 _ Hb1] [Hh _]].
  assert (shape w1) as Hs1 by (eapply owned_shape, (kernel_owned w1 q1 None); exact Hk1).
  apply wp_bind, wp_sched_gets. change (s_current (w_sched w1)) with (current w1). rewrite Hc1. fold c. go.
  rewrite Hst1 by done. unfold state_eqb. destruct (decide (t_state (T w c) = Running)) as [Er|Er].
  2:{ assert ((if wakes now (T w c) then Ready else t_state (T w c)) ≠ Running) as Hne by (by destruct (wakes now _)).
      rewrite bool_decide_false by done. cbn [negb]. go. split; try done; [by exists q1|intros j Hj _; by apply Hst1|].
      intros _. split; [done|]. by apply Hst1. }
  rewrite (running_not_waking now _ Er), Er, bool_decide_true by done. cbn [negb]. go.
  rewrite (Hh _ t_scheduler_lock_depth), (Hb1 c) by (done || by rewrite Er). fold (charged now (T w c)).
  set (r := charged now (T w c)). set (w2 := upd_task c _ w1).
  assert (t_state (T w1 c) = Running) as Er1 by (by rewrite Hst1, (running_not_waking now _ Er)).
  assert (kernel w2 q1) as Hk2 by (by apply set_budget_spec).
  assert (current w2 = c) as Hc2 by exact Hc1.
  assert (t_state (T w2 c) = Running) as Er2 by (unfold w2; by rewrite T_upd_eq).
  assert (fst r = ThrottleNow → c ≠ IDLE_SLOT) as Hnot.
  { intros E Hci. specialize (Hidle Hci). rewrite <-Hci in Hidle. revert E. unfold r, charged, Budget.on_timer.
    by rewrite Hidle. }
  change (wp (verdict_locked c (fst r)) (λ _ w', wp (t ← task_at c;
    let violation := lock_violation t c now limit in
    when (match violation with Some _ => true | None => false end) (bump d_scheduler_lock_overruns) ;;
    mret violation) (λ v w', ticked w w' now limit v) w') w2).
  pose proof (verdict_spec w2 q1 (fst r) Hk2) as Hv. rewrite Hc2 in Hv.
  eapply wp_mono; [|apply (Hv Er2 Hnot)]. intros _ w3 (Hk3 & [Hf3 Hc3] & Hp3 & Hst3 & Hb3 & Hl3).
  assert (shape w3) as Hs3 by (eapply owned_shape, (kernel_owned w3 q1 None); exact Hk3). go.
  assert (lock_violation (T w3 c) c now limit = lock_violation (T w c) c now limit) as ->.
  { unfold lock_violation. rewrite Hl3. unfold w2. rewrite T_upd_eq by done.
    change (t_scheduler_lock_started_at (_ (T w1 c))) with (t_scheduler_lock_started_at (T w1 c)).
    by rewrite (Hh _ t_scheduler_lock_started_at). }
  assert (ticked w w3 now limit (lock_violation (T w c) c now limit)) as Ht.
  { split; try done.
    - by exists q1.
    - intros a Ha. rewrite Hp3, <-Hp1 by done. by apply permits_unseen, unseen_upd.
    - by rewrite Hc3.
    - intros j Hj Hne. rewrite (Hf3 _ t_state) by done. unfold w2. rewrite T_upd_ne by done. by apply Hst1.
    - intros _. split_and!; [done| |done]. fold c. rewrite Hb3. unfold w2. by rewrite T_upd_eq. }
  destruct (lock_violation (T w c) c now limit); cbn [when]; [|by go].
  destruct Ht as [[q' Hk'] H2 H3 H4 H5 H6]. unfold bump, sched_modify. go.
  split; try done. exists q'. by apply kernel_bump.
Qed.

(** C10: The timer interrupt (RTOS-BUDGET-003, RTOS-BUDGET-006, RTOS-LOCK-004): it wakes
    exactly the tasks that are due, charges the running task and throttles it if its
    quota is spent and it holds no scheduler lock, reports a scheduler lock that has been
    held for the limit or longer, and turns an expired time slice into a pending
    preemption, once. The invariant holds afterwards and no permit is lost. *)
Theorem timer_interrupt_settles (w : World) (q : Queues) (now limit : Z) :
  kernel w q → (current w = IDLE_SLOT → spec (t_budget (T w IDLE_SLOT)) = None) →
  wp (on_timer_interrupt now limit) (λ v w',
    let d := s_time_slice_deadline (w_sched w) in
    let expired := negb (d =? 0) && (d <=? now) in
    ticked w w' now limit v ∧
    (∀ held, v = Some (SchedulerLockOverrun (current w) held limit) ↔
      t_state (T w (current w)) = Running ∧ ∃ t, t_scheduler_lock_started_at (T w (current w)) = Some t ∧
      held = saturating_sub now t ∧ limit <= held) ∧
    s_time_slice_pending (w_sched w') = expired || s_time_slice_pending (w_sched w) ∧
    s_time_slice_deadline (w_sched w') = (if expired then 0 else d)) w.
Proof.
  intros Hk Hidle. unfold on_timer_interrupt, bump, sched_modify. go. set (w0 := w <| w_sched ::= _ |>).
  assert (kernel w0 q) as Hk0 by (by apply kernel_bump).
  assert (keeps held (on_timer now limit)) as K.
  { unfold on_timer, count_exhaustion. keep; first [held_allowed|apply held_wake_sleepers]. }
  eapply wp_mono; [|eapply wp_keeps; [exact K|]; exact (on_timer_spec w0 q now limit Hk0 Hidle)].
  intros v w1 [[Hk1 Hp1 Hc1 Ho1 Hr1 Hs1] [_ S]]. go.
  rewrite (S _ s_time_slice_deadline) by done. change (s_time_slice_deadline (w_sched w0)) with (s_time_slice_deadline (w_sched w)).
  assert (∀ held, v = Some (SchedulerLockOverrun (current w) held limit) ↔
    t_state (T w (current w)) = Running ∧ ∃ t, t_scheduler_lock_started_at (T w (current w)) = Some t ∧
      held = saturating_sub now t ∧ limit <= held) as Hv.
  { intros x. destruct (decide (t_state (T w (current w)) = Running)) as [E|E].
    - destruct (Hr1 E) as (_ & _ & ->). unfold lock_violation. change (T w0 (current w0)) with (T w (current w)).
      destruct (t_scheduler_lock_started_at (T w (current w))) as [t|]; simpl; [|naive_solver].
      destruct (Z.leb_spec limit (saturating_sub now t)); naive_solver lia.
    - destruct (Hs1 E) as [-> _]. naive_solver. }
  destruct (negb (_ =? 0) && _) eqn:E; cbn [when orb].
  - unfold sched_modify. go. split_and!; try done. destruct Hk1 as [q1 Hk1].
    split; try done. exists q1. apply (kernel_unseen w1 _ q1 q1 None None Hk1); [by split| |done].
    by apply owned_sched, (kernel_owned w1 q1 None).
  - go. split_and!; try done; [by rewrite (S _ s_time_slice_pending)|by rewrite (S _ s_time_slice_deadline)].
Qed.

(** The main task has a quota of 5 in 20 and has run since 100 under the scheduler lock. *)
Definition budgeted_main : World := upd_task 0 (λ t, t
  <| t_run_policy := Budgeted (mkBudgetSpec 5 20) |>
  <| t_budget := on_dispatch 100 (for_policy (Budgeted (mkBudgetSpec 5 20)) 100) |>
  <| t_scheduler_lock_started_at := Some 101 |>) ready_three.

Lemma budgeted_main_kernel : kernel budgeted_main ready_three_queues.
Proof.
  apply (kernel_unseen ready_three _ ready_three_queues ready_three_queues None None ready_three_kernel);
    [by apply unseen_upd| |done]. apply owned_upd; [done|exact ready_three_owned].
Qed.

Lemma timer_interrupt_settles_witness :
  fst (charged 106 (T budgeted_main 0)) = ThrottleNow ∧
  wp (on_timer_interrupt 106 5) (λ v w',
    let d := s_time_slice_deadline (w_sched budgeted_main) in
    let expired := negb (d =? 0) && (d <=? 106) in
    ticked budgeted_main w' 106 5 v ∧
    (∀ held, v = Some (SchedulerLockOverrun (current budgeted_main) held 5) ↔
      t_state (T budgeted_main (current budgeted_main)) = Running ∧
      ∃ t, t_scheduler_lock_started_at (T budgeted_main (current budgeted_main)) = Some t ∧
      held = saturating_sub 106 t ∧ 5 <= held) ∧
    s_time_slice_pending (w_sched w') = expired || s_time_slice_pending (w_sched budgeted_main) ∧
    s_time_slice_deadline (w_sched w') = (if expired then 0 else d)) budgeted_main.
Proof.
  split; [by vm_compute|].
  exact (timer_interrupt_settles budgeted_main ready_three_queues 106 5 budgeted_main_kernel
    (λ E, match Z.neq_succ_diag_r 0 E with end)).
Defined.
