(* ===== verification/Deadlines.v ===== *)
(** * Deadlines ([src/runtime/scheduler.rs], [src/runtime/time.rs])

    One hardware timer serves every deadline of the system. The deadline [rearm_timer]
    computes is never later than the first moment at which anything is due, with one
    exception: a task that is running with its quota already spent. *)

From stdpp Require Import sorting.
From S2P Require Import Prelude Effects Budget Contract Config Context Reservation.
From S2P Require Import Tcb Store Chain Ready Wait Switch Invariant Dispatch Inherit Donation Sync.
From S2P Require Import Moves Permit Slide Lean Handoff Mutex Lock Acquire Exclusion Timer Frame Touch Wake.

(** ** Minima *)

(** A timer armed for [o] fires at [t] at the latest. *)
Definition within (o : option Z) (t : Z) : Prop := ∃ d, o = Some d ∧ d <= t.

Lemma within_l x y t : within x t → within (min_option x y) t.
Proof. intros (d & -> & Hd). destruct y as [e|]; [exists (Z.min d e)|exists d]; split; try done. lia. Qed.

Lemma within_r x y t : within y t → within (min_option x y) t.
Proof. intros (d & -> & Hd). destruct x as [e|]; [exists (Z.min e d)|exists d]; split; try done. lia. Qed.

Lemma min_option_Some x y d : min_option x y = Some d → x = Some d ∨ y = Some d.
Proof. destruct x as [a|], y as [b|]; simpl; auto. intros [= <-]. destruct (Z.min_spec a b) as [[_ ->]|[_ ->]]; auto. Qed.

Lemma minimum_within l x t : x ∈ l → x <= t → within (minimum l) t.
Proof.
  intros Hx Ht. induction l as [|y l IH]; [by apply elem_of_nil in Hx|]. apply elem_of_cons in Hx as [<-|Hx].
  - apply (within_l (Some x)). by exists x.
  - by apply (within_r (Some y)), IH.
Qed.

Lemma minimum_elem l d : minimum l = Some d → d ∈ l.
Proof.
  induction l as [|y l IH]; [done|]. intros [[= ->]|H%IH]%(min_option_Some (Some y)); [by left|by right].
Qed.

(** ** The tasks of the array *)

Lemma task_elem w i : shape w → slot_in i → T w i ∈ s_tasks (w_sched w).
Proof.
  intros Hs Hi. pose proof (idx_at Tcb_empty _ _ (shape_in w i Hs Hi)) as E.
  rewrite idx_lookup in E by (unfold slot_in in Hi; lia). by eapply list_elem_of_lookup_2.
Qed.

Lemma elem_task w t : shape w → t ∈ s_tasks (w_sched w) → ∃ i, slot_in i ∧ T w i = t.
Proof.
  intros Hs [n Hn]%list_elem_of_lookup_1. exists (Z.of_nat n). pose proof (lookup_lt_Some _ _ _ Hn) as Hl.
  rewrite (shape_tasks w Hs) in Hl || (pose proof (shape_tasks w Hs)). split.
  - unfold slot_in. lia.
  - unfold T, at_. rewrite idx_lookup by lia. by rewrite Nat2Z.id, Hn.
Qed.

(** ** Each source *)

(** Sleepers and throttled tasks carry their deadlines. *)
Definition deadlines_set (w : World) : Prop := ∀ i, slot_in i →
  (t_state (T w i) = Sleeping → t_wake_at (T w i) ≠ 0) ∧
  (t_state (T w i) = Throttled → replenishes_at (t_budget (T w i)) ≠ 0).

Lemma due_within w i t :
  shape w → slot_in i → (t_state (T w i) = Sleeping → t_wake_at (T w i) ≠ 0) → due t (T w i) = true →
  within (minimum (wake_deadlines (s_tasks (w_sched w)))) t.
Proof.
  intros Hs Hi Hset Hd. assert ((t_state (T w i) = Sleeping ∨ t_state (T w i) = Blocked) ∧
    t_wake_at (T w i) ≠ 0 ∧ t_wake_at (T w i) <= t) as (H1 & H2 & H3).
  { revert Hd. unfold due. destruct (t_state (T w i)); try done.
    - intros [[_ ?%negb_true_iff%Z.eqb_neq]%andb_prop ?%Z.leb_le]%andb_prop. by split_and!; [right|..].
    - intros ?%Z.leb_le. split_and!; [by left|by apply Hset|done]. }
  apply (minimum_within _ (t_wake_at (T w i))); [|done]. unfold wake_deadlines.
  apply list_elem_of_fmap_2, list_elem_of_filter. by split; [|apply task_elem].
Qed.

Lemma refilled_within w i t :
  shape w → slot_in i → (t_state (T w i) = Throttled → replenishes_at (t_budget (T w i)) ≠ 0) →
  refilled t (T w i) = true → within (minimum (replenish_deadlines (s_tasks (w_sched w)))) t.
Proof.
  intros Hs Hi Hset [Hst%bool_decide_eq_true Hr]%andb_prop.
  assert (replenishes_at (t_budget (T w i)) <= t).
  { revert Hr. unfold replenish_if_due. destruct (spec _); [|done]. destruct (lock_overrun_pending _); [done|].
    simpl. destruct (Z.ltb_spec t (replenishes_at (t_budget (T w i)))); [done|lia]. }
  apply (minimum_within _ (replenishes_at (t_budget (T w i)))); [|done]. unfold replenish_deadlines.
  apply list_elem_of_filter. split; [auto|]. apply (list_elem_of_fmap_2 (λ t, replenishes_at (t_budget t))).
  apply list_elem_of_filter. by split; [|apply task_elem].
Qed.

Lemma exhausted_within b t locked :
  0 < remaining b → fst (Budget.on_timer t locked b) = ThrottleNow ∨ fst (Budget.on_timer t locked b) = DeferredBySchedulerLock →
  within (exhaustion_deadline b) t.
Proof.
  intros Hr. unfold Budget.on_timer, charge_until, exhaustion_deadline.
  destruct (spec b); [|by intros []]. destruct (running_since b) as [s|]; simpl.
  - unfold saturating_sub. destruct (Z.eqb_spec (Z.max 0 (remaining b - Z.min (Z.max 0 (t - s)) u32_max)) 0); simpl.
    + intros _. rewrite (proj2 (Z.eqb_neq _ _)) by lia. simpl. eexists. split; [done|]. unfold saturating_add. lia.
    + by intros [].
  - rewrite (proj2 (Z.eqb_neq _ _)) by lia. simpl. by intros [].
Qed.

Lemma violation_within t started limit now :
  t_scheduler_lock_started_at t = Some started → lock_violation t 0 now limit ≠ None → 0 < limit →
  within ((λ s, saturating_add u64_max s limit) <$> t_scheduler_lock_started_at t) now.
Proof.
  intros E. unfold lock_violation. rewrite E. simpl. destruct (Z.leb_spec limit (saturating_sub now started)); [|done].
  intros _ Hl. eexists. split; [done|]. unfold saturating_sub, saturating_add in *. lia.
Qed.

(** ** The deadline of [rearm_timer] *)

Definition slice_set (v : Z) (w : World) : World := w <| w_sched ::= λ s, s <| s_time_slice_deadline := v |> |>.

(** When the slice of the running task ends, if it shares its priority. *)
Definition slice_end (w : World) (now time_slice : Z) : Z :=
  let d := s_time_slice_deadline (w_sched w) in
  if d =? 0 then saturating_add u64_max now time_slice else d.

Lemma time_slice_spec w q now (Q : option Z → World → Prop) :
  queues w q → slot_in (current w) → priority_ok w (current w) →
  (∀ v r, r = None ∨ r = Some v →
    (∀ ts, t_run_policy (T w (current w)) = Preemptive ts → q (QReady (t_priority (T w (current w)))) ≠ [] →
      r = Some (slice_end w now ts)) → Q r (slice_set v w)) →
  wp (next_time_slice_deadline now) Q w.
Proof.
  intros Hq Hc Hp HQ. pose proof (queues_shape w q Hq) as Hs.
  assert (valid w (QReady (t_priority (T w (current w))))) as Hv by done.
  unfold next_time_slice_deadline. go. change (s_current (w_sched w)) with (current w). go.
  destruct (t_run_policy (T w (current w))) as [|b|ts] eqn:Epol;
    [unfold set_slice_deadline; go; by apply (HQ 0); [left|]..|].
  unfold has_equal_priority_ready. go.
  pose proof (queues_head_nil w q _ Hq Hv) as Hnil.
  destruct (Z.eqb_spec (hd_of w (QReady (t_priority (T w (current w))))) NIL) as [E|E]; cbn [negb].
  - unfold set_slice_deadline. go. apply (HQ 0); [by left|]. intros ts' [= <-] Hne. tauto.
  - go. unfold slice_end in HQ. destruct (Z.eqb_spec (s_time_slice_deadline (w_sched w)) 0) as [E0|E0]; cbn [when].
    + unfold set_slice_deadline. go. apply (HQ (saturating_add u64_max now ts)); [by right|].
      by intros ts' [= <-].
    + go. assert (slice_set (s_time_slice_deadline (w_sched w)) w = w) as Hw by (by destruct w as [[] ? ?]).
      rewrite <-Hw at 2. apply HQ; [by right|]. by intros ts' [= <-].
Qed.

Lemma dispatch_deadline_spec w q now (Q : option Z → World → Prop) :
  queues w q → slot_in (current w) → priority_ok w (current w) →
  (∀ v r, r = None ∨ r = Some v ∨ r = Some now →
    (t_state (T w (current w)) = Running → is_Some (preemptor w q false) → r = Some now) →
    (∀ ts, t_run_policy (T w (current w)) = Preemptive ts → q (QReady (t_priority (T w (current w)))) ≠ [] →
      r = Some now ∨ r = Some (slice_end w now ts)) → Q r (slice_set v w)) →
  wp (next_dispatch_deadline now) Q w.
Proof.
  intros Hq Hc Hp HQ. pose proof (queues_shape w q Hq) as Hs.
  unfold next_dispatch_deadline. go. change (s_current (w_sched w)) with (current w). go.
  assert (slice_set (s_time_slice_deadline (w_sched w)) w = w) as Hw by (by destruct w as [[] ? ?]).
  set (t := T w (current w)) in *.
  assert (∀ (b : bool), (b = false → ¬ (t_state t = Running ∧ is_Some (preemptor w q false))) →
    wp (if b then mret (Some now) else next_time_slice_deadline now) Q w) as Hend.
  { intros [] Hb.
    - go. rewrite <-Hw. apply HQ; [by right; right|done|by left].
    - apply (time_slice_spec w q); [done..|]. intros v r Hr Hsl. apply HQ; [tauto| |intros; right; by apply Hsl].
      intros Hrun Hpre. by destruct Hb. }
  destruct (state_eqb (t_state t) Running && (t_scheduler_lock_depth t =? 0) &&
    ((current w =? IDLE_SLOT) || is_preemptive (t_run_policy t))) eqn:Ec.
  - apply andb_prop in Ec as [[Er%bool_decide_eq_true Ed]%andb_prop Ep].
    wp_apply (any_ready_spec (range 0 (if current w =? IDLE_SLOT then PRIORITY_LEVELS else t_priority t)) w q Hq);
      [|intros p Hp'%elem_of_range; unfold priority_ok, t in *; destruct (current w =? IDLE_SLOT); lia].
    intros b w1 [-> Hb]. apply Hend. intros ->. symmetry in Hb. apply bool_decide_eq_false in Hb. intros [_ Hpre]. apply Hb.
    revert Hpre. unfold preemptor. fold t. rewrite Ed. cbn [negb].
    destruct (current w =? IDLE_SLOT); [done|]. cbn [orb] in Ep. rewrite Ep. by rewrite Z.add_0_r.
  - go. apply (Hend false). intros _ [Er Hpre]. revert Ec Hpre. unfold preemptor. fold t. rewrite Er. cbn.
    destruct (t_scheduler_lock_depth t =? 0); cbn; [|by intros _ [? ?]].
    destruct (current w =? IDLE_SLOT); cbn; [done|]. destruct (is_preemptive _); [done|]. by intros _ [? ?].
Qed.

(** Where a deadline may come from. *)
Definition deadline_source (w w' : World) (now limit : Z) (embassy : option Z) (x : Z) : Prop :=
  let c := T w (current w) in
  (∃ i, slot_in i ∧ (t_state (T w i) = Sleeping ∨ t_state (T w i) = Blocked) ∧ t_wake_at (T w i) = x) ∨
  (∃ i, slot_in i ∧ t_state (T w i) = Throttled ∧ replenishes_at (t_budget (T w i)) = x) ∨
  t_state c = Running ∧ exhaustion_deadline (t_budget c) = Some x ∨
  t_state c = Running ∧ t_scheduler_lock_depth c ≠ 0 ∧
    (∃ s, t_scheduler_lock_started_at c = Some s ∧ x = saturating_add u64_max s limit) ∨
  x = now ∨ x = s_time_slice_deadline (w_sched w') ∨ embassy = Some x.

Lemma source_of w now limit embassy v r x :
  shape w → r = None ∨ r = Some v ∨ r = Some now →
  let t := T w (current w) in
  earliest_deadline (minimum (wake_deadlines (s_tasks (w_sched w)))) r
    (min_option (if state_eqb t.(t_state) Running then exhaustion_deadline t.(t_budget) else None)
      (minimum (replenish_deadlines (s_tasks (w_sched w)))))
    (if state_eqb t.(t_state) Running && negb (t.(t_scheduler_lock_depth) =? 0)
     then (λ s, saturating_add u64_max s limit) <$> t.(t_scheduler_lock_started_at) else None) embassy = Some x →
  deadline_source w (slice_set v w) now limit embassy x.
Proof.
  intros Hs Hr t. unfold earliest_deadline, deadline_source, state_eqb. fold t.
  intros [H|[H|[[H|H]%min_option_Some|[H|H]%min_option_Some]%min_option_Some]%min_option_Some]%min_option_Some.
  - left. apply minimum_elem in H. apply list_elem_of_fmap in H as (y & -> & [[Hst _] (i & Hi & <-)%(elem_task w _ Hs)]%list_elem_of_filter).
    by exists i.
  - do 4 right. destruct Hr as [->|[->| ->]]; [done|injection H as <-; right; by left|injection H as <-; by left].
  - case_bool_decide; [|done]. right. right. by left.
  - right. left. apply minimum_elem in H. apply list_elem_of_filter in H as [_ H].
    apply list_elem_of_fmap in H as (y & -> & [Hst (i & Hi & <-)%(elem_task w _ Hs)]%list_elem_of_filter). by exists i.
  - case_bool_decide; [|done]. destruct (Z.eqb_spec (t_scheduler_lock_depth t) 0); [done|]. cbn in H.
    do 3 right. left. split_and!; [done..|]. destruct (t_scheduler_lock_started_at t) as [s|]; [|done].
    injection H as <-. by exists s.
  - do 6 right. done.
Qed.

(** Computing the deadline moves nothing but the end of the time slice. *)
Lemma timer_deadline_frame w q now limit embassy :
  owned w q None → wp (timer_deadline now limit embassy) (λ _ w', ∃ v, w' = slice_set v w) w.
Proof.
  intros [Hq Ho]. pose proof (queues_shape w q Hq) as Hs. assert (slot_in (current w)) as Hc by apply Ho.
  pose proof (placed_priority w q None _ (owned_placed w q None Ho _ Hc)) as Hp.
  unfold timer_deadline, earliest_wake_deadline. go. apply (dispatch_deadline_spec w q); [done..|].
  intros v r _ _ _. set (w1 := slice_set v w). assert (shape w1) as Hs1 by (destruct Hs; by split).
  unfold earliest_budget_deadline. go. change (s_current (w_sched w1)) with (current w). go.
  unfold scheduler_lock_deadline. go. change (s_current (w_sched w1)) with (current w). go. by exists v.
Qed.

(** C11: The timer misses nothing (RTOS-TIMER-001, RTOS-DISPATCH-001). Of every sleep,
    bounded wait, replenishment, exhaustion of a quota that is not yet spent, overrun of
    the scheduler lock, time slice, embassy deadline and dispatch of better ready work,
    the deadline the timer is armed for comes no later than the first moment at which it
    is due; and it is the deadline of one of them. (A quota spent before its task was
    dispatched has no deadline: [spent_quota_runs_unarmed].) The armed delay is at least one and at
    most the port's limit, and it ends by the deadline unless the deadline has passed. *)
Theorem timer_misses_nothing (w : World) (q : Queues) (now limit max_delay : Z) (embassy : option Z) :
  owned w q None → deadlines_set w → 0 < limit → 1 <= max_delay →
  wp (timer_deadline now limit embassy) (λ d w',
    let c := T w (current w) in
    w' = slice_set (s_time_slice_deadline (w_sched w')) w ∧
    (∀ i t, slot_in i → wakes t (T w i) = true → within d t) ∧
    (∀ t locked e, t_state c = Running → 0 < remaining (t_budget c) →
      fst (Budget.on_timer t locked (t_budget c)) = e → e = ThrottleNow ∨ e = DeferredBySchedulerLock → within d t) ∧
    (∀ t, t_state c = Running → t_scheduler_lock_depth c ≠ 0 →
      is_Some (lock_violation c (current w) t limit) → within d t) ∧
    (t_state c = Running → is_Some (preemptor w q false) → within d now) ∧
    (∀ slice, t_run_policy c = Preemptive slice → q (QReady (t_priority c)) ≠ [] →
      within d (Z.max now (slice_end w now slice))) ∧
    (∀ e, embassy = Some e → within d e) ∧
    (∀ x, d = Some x → deadline_source w w' now limit embassy x ∧
      1 <= timer_delay x now max_delay <= max_delay ∧
      now + timer_delay x now max_delay <= Z.max x (now + 1))) w.
Proof.
  intros [Hq Ho] Hset Hlim Hmax. pose proof (queues_shape w q Hq) as Hs.
  assert (slot_in (current w)) as Hc by apply Ho.
  pose proof (placed_priority w q None _ (owned_placed w q None Ho _ Hc)) as Hp. set (c := T w (current w)) in *.
  unfold timer_deadline, earliest_wake_deadline. go. apply (dispatch_deadline_spec w q); [done..|].
  intros v r Hr Hpre Hsl. set (w1 := slice_set v w).
  assert (shape w1) as Hs1 by (destruct Hs; by split).
  unfold earliest_budget_deadline. go. change (s_current (w_sched w1)) with (current w). go.
  unfold scheduler_lock_deadline. go. change (s_current (w_sched w1)) with (current w). go.
  change (T w1 (current w)) with c. change (s_tasks (w_sched w1)) with (s_tasks (w_sched w)).
  set (d := earliest_deadline _ _ _ _ _).
  assert (∀ t, within (minimum (wake_deadlines (s_tasks (w_sched w)))) t → within d t) as D1 by (intros; by apply within_l).
  assert (∀ t, within r t → within d t) as D2 by (intros; by apply within_r, within_l).
  assert (∀ x, d = Some x → deadline_source w w1 now limit embassy x) as Hsrc.
  { intros x Hx. by apply (source_of w now limit embassy v r). }
  split_and!; [done|..].
  - intros i t Hi [Hd|Hd]%orb_prop; destruct (Hset i Hi) as [S1 S2]; [by apply D1, (due_within w i)|].
    by apply within_r, within_r, within_l, within_r, (refilled_within w i).
  - intros t locked e Hrun Hrem <- He. apply within_r, within_r, within_l, within_l. unfold state_eqb.
    rewrite bool_decide_true by done. by apply (exhausted_within _ t locked).
  - intros t Hrun Hd [x Hv]. apply within_r, within_r, within_r, within_l. unfold state_eqb.
    rewrite bool_decide_true by done. rewrite (proj2 (Z.eqb_neq _ _) Hd). cbn.
    revert Hv. unfold lock_violation. destruct (t_scheduler_lock_started_at c) as [s|] eqn:E; [|done]. intros Hv.
    rewrite <-E. apply (violation_within c s limit t E); [|done]. unfold lock_violation. rewrite E. simpl in *.
    by destruct (limit <=? saturating_sub t s).
  - intros Hrun Hx. apply D2. exists now. split; [by apply Hpre|lia].
  - intros ts Hpol Hne. apply D2. destruct (Hsl ts Hpol Hne) as [->| ->]; eexists; (split; [done|lia]).
  - intros e ->. apply within_r, within_r, within_r, within_r. by exists e.
  - intros x Hx. split; [by apply Hsrc|]. unfold timer_delay, saturating_sub. lia.
Qed.

Definition deadlines_set_b (w : World) (i : Z) : bool :=
  (negb (state_eqb (t_state (T w i)) Sleeping) || negb (t_wake_at (T w i) =? 0)) &&
  (negb (state_eqb (t_state (T w i)) Throttled) || negb (replenishes_at (t_budget (T w i)) =? 0)).

Lemma deadlines_by_slots w : forallb (deadlines_set_b w) (range 0 17) = true → deadlines_set w.
Proof.
  intros H i Hi. pose proof (all_slots _ H i Hi) as [H1 H2]%andb_prop. split; intros E.
  - revert H1. unfold state_eqb. rewrite E, bool_decide_true by done. simpl. by intros ?%negb_true_iff%Z.eqb_neq.
  - revert H2. unfold state_eqb. rewrite E, bool_decide_true by done. simpl. by intros ?%negb_true_iff%Z.eqb_neq.
Qed.

Lemma budgeted_main_deadlines : forallb (deadlines_set_b budgeted_main) (range 0 17) = true.
Proof. by vm_compute. Qed.

Lemma timer_misses_nothing_witness :
  wp (timer_deadline 103 50 (Some 900)) (λ d w',
    let w := budgeted_main in let q := ready_three_queues in
    let c := T w (current w) in
    w' = slice_set (s_time_slice_deadline (w_sched w')) w ∧
    (∀ i t, slot_in i → wakes t (T w i) = true → within d t) ∧
    (∀ t locked e, t_state c = Running → 0 < remaining (t_budget c) →
      fst (Budget.on_timer t locked (t_budget c)) = e → e = ThrottleNow ∨ e = DeferredBySchedulerLock → within d t) ∧
    (∀ t, t_state c = Running → t_scheduler_lock_depth c ≠ 0 →
      is_Some (lock_violation c (current w) t 50) → within d t) ∧
    (t_state c = Running → is_Some (preemptor w q false) → within d 103) ∧
    (∀ slice, t_run_policy c = Preemptive slice → q (QReady (t_priority c)) ≠ [] →
      within d (Z.max 103 (slice_end w 103 slice))) ∧
    (∀ e, Some 900 = Some e → within d e) ∧
    (∀ x, d = Some x → deadline_source w w' 103 50 (Some 900) x ∧
      1 <= timer_delay x 103 1000 <= 1000 ∧
      103 + timer_delay x 103 1000 <= Z.max x (103 + 1))) budgeted_main.
Proof.
  exact (timer_misses_nothing budgeted_main ready_three_queues 103 50 1000 (Some 900)
    (kernel_owned _ _ _ budgeted_main_kernel) (deadlines_by_slots _ budgeted_main_deadlines) eq_refl
    ltac:(done)).
Defined.

(** ** Two gaps in the quota *)

(** A task that leaves the hart with its quota spent stays Ready; dispatched again
    before the boundary it runs with no exhaustion deadline, although any timer tick
    would throttle it. *)
Theorem spent_quota_runs_unarmed (b : BudgetState) (s : BudgetSpec) (out_ now : Z) :
  spec b = Some s → remaining (on_switch_out out_ b) = 0 → now < replenishes_at b → lock_overrun_pending b = false →
  let b' := on_dispatch now (on_switch_out out_ b) in
  running_since b' = Some now ∧ exhaustion_deadline b' = None ∧
  ∀ t, fst (Budget.on_timer t false b') = ThrottleNow.
Proof.
  intros Hs Hr Hnow Hl. set (b1 := on_switch_out out_ b) in *.
  assert (spec b1 = Some s ∧ replenishes_at b1 = replenishes_at b ∧ lock_overrun_pending b1 = false) as (E1 & E2 & E3).
  { unfold b1, on_switch_out, charge_until. by destruct (running_since b). }
  clearbody b1. unfold on_dispatch, replenish_if_due. rewrite E1, E2, E3, (proj2 (Z.ltb_lt _ _) Hnow). cbn [orb snd]. rewrite E1.
  split_and!; [done| |].
  - unfold exhaustion_deadline. simpl. by rewrite Hr.
  - intros t. unfold Budget.on_timer, charge_until. simpl. rewrite E1, Hr. unfold saturating_sub.
    by rewrite Z.max_l by (unfold u32_max; lia).
Qed.

Lemma spent_quota_runs_unarmed_witness :
  let b := on_dispatch 100 (for_policy (Budgeted (mkBudgetSpec 5 20)) 100) in
  let b' := on_dispatch 106 (on_switch_out 105 b) in
  running_since b' = Some 106 ∧ exhaustion_deadline b' = None ∧
  ∀ t, fst (Budget.on_timer t false b') = ThrottleNow.
Proof. intros b. by apply (spent_quota_runs_unarmed b (mkBudgetSpec 5 20)). Defined.

(** A task with a quota of 5 in 20 that starts 2 before a boundary is throttled 3 after
    it, is replenished at once and runs for at least 4 more before the timer stops it: 7
    between two boundaries. *)
Theorem quota_exceeded_across_boundary :
  let b0 := on_dispatch 118 (for_policy (Budgeted (mkBudgetSpec 5 20)) 100) in
  let r1 := Budget.on_timer 123 false b0 in
  let r2 := replenish_if_due 123 (snd r1) in
  let b3 := on_dispatch 123 (snd r2) in
  replenishes_at b0 = 120 ∧ fst r1 = ThrottleNow ∧ fst r2 = true ∧ replenishes_at b3 = 140 ∧
  fst (Budget.on_timer 127 false b3) = StillAvailable.
Proof. by vm_compute. Qed.
