(* ===== verification/Slots.v ===== *)
(** * Dynamic task slots ([src/runtime/scheduler.rs])

    Which slot a new task takes and how many slots a reservation may promise. The
    scheduler asks the reservation table against the free slots less the promised
    ones, so that a reserved task always finds a slot: [slots_ok] is the invariant that
    makes this true, and every operation below keeps it. *)

From S2P Require Import Prelude Effects Budget Contract Config Context Reservation.
From S2P Require Import Tcb Store Chain.

Definition dynamic_slot_end (dynamic_capacity : Z) : M World Z :=
  assert_ (dynamic_capacity <=? DYNAMIC_TASK_CAPACITY) ;;
  mret (IDLE_SLOT + 1 + dynamic_capacity).

(** [self.tasks[(IDLE_SLOT + 1)..end].iter().filter(Free).count()] *)
Definition count_free (end_ : Z) : M World Z :=
  ts ← sched_gets s_tasks;
  dynamic ← expect (slice ts (IDLE_SLOT + 1) end_);
  mret (Z.of_nat (length (filter (λ t, t_state t = Free) dynamic))).

(** [slots.find(|&i| self.tasks[i].state == State::Free)] *)
Fixpoint find_free (slots : list Z) : M World (option Z) :=
  match slots with
  | [] => mret None
  | i :: slots =>
      state ← tget t_state i;
      if state_eqb state Free then mret (Some i) else find_free slots
  end.

(** A method of [self.reservations]. *)
Definition with_reservations {A} (m : M ReservationTable A) : M World A :=
  zoom (λ w, s_reservations (w_sched w)) (λ t w, w <| w_sched ::= λ s, s <| s_reservations := t |> |>) m.

Definition promised_total : M World Z := sched_gets (λ s, total_remaining (s_reservations s)).

Definition alloc_dynamic_slot_with_capacity (dynamic_capacity : Z) : M World (result DriverError Z) :=
  end_ ← dynamic_slot_end dynamic_capacity;
  free ← count_free end_;
  promised ← promised_total;
  if free <=? promised then mret (Err NoTaskSlots)
  else
    slot ← find_free (range (IDLE_SLOT + 1) end_);
    mret (ok_or slot NoTaskSlots).

(** The free slots that no reservation promises. *)
Definition available_slots (dynamic_capacity : Z) : M World Z :=
  end_ ← dynamic_slot_end dynamic_capacity;
  free ← count_free end_;
  promised ← promised_total;
  mret (saturating_sub free promised).

Definition reserve_dynamic_slots_with_capacity (required dynamic_capacity : Z) :
    M World (result TaskAdmissionError TaskReservation) :=
  available ← available_slots dynamic_capacity;
  with_reservations (reserve required available).

Definition reserve_dynamic_task_resources_with_capacity (required : TaskResourceRequirements)
    (stacks : list Z) (dynamic_capacity : Z) : M World (result TaskAdmissionError TaskReservation) :=
  available ← available_slots dynamic_capacity;
  with_reservations (reserve_with_stacks required available stacks).

Definition reserve_dynamic_task_resource_plan_with_capacity (plan : TaskResourcePlan)
    (stacks : list (list Z)) (dynamic_capacity : Z) :
    M World (result TaskAdmissionError (list TaskReservation)) :=
  available ← available_slots dynamic_capacity;
  with_reservations (reserve_plan_with_stacks plan available stacks).

Definition release_task_reservation (reservation : TaskReservation) :
    M World (result DriverError ReleasedTaskResources) :=
  with_reservations (release reservation).

Definition reservation_stack_size (reservation : TaskReservation) :
    M World (result DriverError (option Z)) :=
  with_reservations (stack_size reservation).

Definition alloc_reserved_dynamic_slot_with_capacity (reservation : TaskReservation)
    (dynamic_capacity : Z) : M World (result DriverError (Z * option ReservedStack)) :=
  _ ←? with_reservations (ensure_consumable reservation);
  end_ ← dynamic_slot_end dynamic_capacity;
  found ← find_free (range (IDLE_SLOT + 1) end_);
  slot ←? mret (ok_or found NoTaskSlots);
  stack ←? with_reservations (consume reservation);
  mret (Ok (slot, stack)).

(** ** Free slots *)

Definition reservations (w : World) : ReservationTable := s_reservations (w_sched w).

Definition free_slots (w : World) (c : Z) : list Z :=
  filter (λ i, t_state (T w i) = Free) (range (IDLE_SLOT + 1) (IDLE_SLOT + 1 + c)).

Definition free_count (w : World) (c : Z) : Z := Z.of_nat (length (free_slots w c)).

Definition capacity_ok (c : Z) : Prop := 0 <= c <= DYNAMIC_TASK_CAPACITY.

Lemma dynamic_slot_in c i : capacity_ok c → IDLE_SLOT + 1 <= i < IDLE_SLOT + 1 + c → slot_in i.
Proof. unfold capacity_ok, slot_in, IDLE_SLOT, DYNAMIC_TASK_CAPACITY. rewrite slot_count_value. lia. Qed.

Lemma elem_of_free_slots w c i :
  i ∈ free_slots w c ↔ t_state (T w i) = Free ∧ IDLE_SLOT + 1 <= i < IDLE_SLOT + 1 + c.
Proof. unfold free_slots. by rewrite list_elem_of_filter, elem_of_range. Qed.

Lemma NoDup_free_slots w c : NoDup (free_slots w c).
Proof. apply NoDup_filter, NoDup_range. Qed.

(** The array slice is the tasks of the range. *)
Lemma slice_tasks w c :
  shape w → capacity_ok c →
  slice (s_tasks (w_sched w)) (IDLE_SLOT + 1) (IDLE_SLOT + 1 + c) =
    Some (T w <$> range (IDLE_SLOT + 1) (IDLE_SLOT + 1 + c)).
Proof.
  intros Hs Hc. pose proof (shape_tasks w Hs) as Hl. rewrite slot_count_value in Hl.
  unfold capacity_ok, DYNAMIC_TASK_CAPACITY, IDLE_SLOT in *. unfold slice.
  rewrite !(proj2 (Z.leb_le _ _)) by lia. simpl andb. f_equal. apply list_eq. intros n.
  unfold range. rewrite <-list_fmap_compose, list_lookup_fmap.
  destruct (decide (n < Z.to_nat (1 + 1 + c - (1 + 1)))%nat) as [Hn|Hn].
  - rewrite lookup_seq_lt by done. simpl. rewrite lookup_take_lt by lia. rewrite lookup_drop.
    unfold T, at_. rewrite idx_lookup by lia.
    replace (Z.to_nat (1 + 1 + Z.of_nat n)) with (Z.to_nat (1 + 1) + n)%nat by lia.
    destruct (lookup_lt_is_Some_2 (s_tasks (w_sched w)) (Z.to_nat (1 + 1) + n)) as [t Ht]; [lia|].
    change (Z.to_nat (1 + 1)) with 2%nat in *. simpl in *. by rewrite Ht.
  - rewrite lookup_seq_ge by lia. rewrite lookup_take_ge by lia. done.
Qed.

Lemma free_count_filter w c :
  Z.of_nat (length (filter (λ t, t_state t = Free) (T w <$> range (IDLE_SLOT + 1) (IDLE_SLOT + 1 + c)))) =
    free_count w c.
Proof.
  unfold free_count, free_slots. f_equal. induction (range _ _) as [|i l IH]; [done|].
  rewrite fmap_cons, !filter_cons. repeat case_decide; simpl; congruence.
Qed.

Lemma count_free_spec w c Q :
  shape w → capacity_ok c → Q (free_count w c) w → wp (count_free (IDLE_SLOT + 1 + c)) Q w.
Proof.
  intros Hs Hc HQ. unfold count_free. go.
  eapply wp_expect; [by apply slice_tasks|]. go. by rewrite free_count_filter.
Qed.

Lemma dynamic_slot_end_spec c Q w : capacity_ok c → Q (IDLE_SLOT + 1 + c) w → wp (dynamic_slot_end c) Q w.
Proof.
  intros [_ Hc] HQ. unfold dynamic_slot_end. apply wp_bind, wp_assert; [by apply Z.leb_le|]. by go.
Qed.

(** The search finds the first free slot of the list. *)
Lemma find_free_spec w l Q :
  shape w → Forall slot_in l → Q (head (filter (λ i, t_state (T w i) = Free) l)) w → wp (find_free l) Q w.
Proof.
  intros Hs. induction l as [|i l IH]; intros Hl HQ; cbn [find_free]; [by go|].
  apply Forall_cons in Hl as [Hi Hl]. go. unfold state_eqb.
  destruct (decide (t_state (T w i) = Free)) as [E|E].
  - rewrite bool_decide_true by done. rewrite filter_cons_True in HQ by done. by go.
  - rewrite bool_decide_false by done. rewrite filter_cons_False in HQ by done. by apply IH.
Qed.

Lemma Forall_dynamic c : capacity_ok c → Forall slot_in (range (IDLE_SLOT + 1) (IDLE_SLOT + 1 + c)).
Proof. intros Hc. apply Forall_forall. intros i Hi%elem_of_range. by eapply dynamic_slot_in. Qed.

Lemma free_count_pos w c : 0 < free_count w c ↔ is_Some (head (free_slots w c)).
Proof.
  unfold free_count. destruct (free_slots w c); simpl; split; [lia|by intros [? ?]|eauto|lia].
Qed.

Lemma free_count_bound w c : capacity_ok c → 0 <= free_count w c <= DYNAMIC_TASK_CAPACITY.
Proof.
  intros Hc. unfold free_count, free_slots. pose proof (length_filter (λ i, t_state (T w i) = Free)
    (range (IDLE_SLOT + 1) (IDLE_SLOT + 1 + c))) as H.
  assert (Z.of_nat (length (range (IDLE_SLOT + 1) (IDLE_SLOT + 1 + c))) = c) as Hl.
  { unfold range. rewrite length_fmap, length_seq. unfold capacity_ok in Hc. lia. }
  unfold capacity_ok in Hc. lia.
Qed.

(** ** The invariant *)

Definition set_reservations (t : ReservationTable) (w : World) : World :=
  w <| w_sched ::= λ s, s <| s_reservations := t |> |>.

(** Every promised slot is free. *)
Record slots_ok (w : World) (c : Z) : Prop := {
  slots_table : table_ok (reservations w);
  slots_promised : total_remaining (reservations w) <= free_count w c;
}.

Lemma wp_with_reservations {A} (m : M ReservationTable A) (Q : A → World → Prop) w :
  wp m (λ a t, Q a (set_reservations t w)) (reservations w) → wp (with_reservations m) Q w.
Proof. unfold wp, with_reservations, zoom, reservations. by destruct (m _) as [[a t]|]. Qed.

Lemma set_reservations_same w : set_reservations (reservations w) w = w.
Proof. by destruct w as [[] ? ?]. Qed.

Lemma free_slots_set t w c : free_slots (set_reservations t w) c = free_slots w c.
Proof. done. Qed.

(** Slots whose occupation does not change keep the count. *)
Lemma free_slots_same w w' c :
  (∀ i, (t_state (T w' i) = Free ↔ t_state (T w i) = Free)) → free_slots w' c = free_slots w c.
Proof. intros H. unfold free_slots. apply list_filter_iff. done. Qed.

Lemma slots_ok_same w w' c :
  (∀ i, (t_state (T w' i) = Free ↔ t_state (T w i) = Free)) → reservations w' = reservations w →
  slots_ok w c → slots_ok w' c.
Proof.
  intros H Hr [Ht Hp]. unfold free_count in Hp.
  split; rewrite ?Hr; [done|]. unfold free_count. by rewrite (free_slots_same w w').
Qed.

(** A free dynamic slot is taken. *)
Lemma free_count_taken w w' c i :
  i ∈ free_slots w c → t_state (T w' i) ≠ Free →
  (∀ j, j ≠ i → (t_state (T w' j) = Free ↔ t_state (T w j) = Free)) →
  free_count w' c = free_count w c - 1.
Proof.
  intros Hi Hne Hj.
  assert (free_slots w c ≡ₚ i :: free_slots w' c) as Hp.
  { apply NoDup_Permutation; [apply NoDup_free_slots| |].
    - constructor; [by intros [? _]%elem_of_free_slots|apply NoDup_free_slots].
    - intros j. rewrite elem_of_cons, !elem_of_free_slots. apply elem_of_free_slots in Hi.
      destruct (decide (j = i)) as [->|Hji]; [tauto|]. rewrite (Hj j Hji). tauto. }
  unfold free_count. rewrite Hp. simpl. lia.
Qed.

(** A slot is given back. *)
Lemma free_count_freed w w' c i :
  (∀ j, j ≠ i → (t_state (T w' j) = Free ↔ t_state (T w j) = Free)) → t_state (T w' i) = Free →
  free_count w c <= free_count w' c.
Proof.
  intros Hj Hi. unfold free_count. apply Nat2Z.inj_le, submseteq_length, NoDup_submseteq;
    [apply NoDup_free_slots|]. intros j. rewrite !elem_of_free_slots.
  destruct (decide (j = i)) as [->|Hji]; [tauto|]. by rewrite Hj.
Qed.

(** ** What the operations do *)

Lemma available_slots_spec w c Q :
  shape w → capacity_ok c → Q (saturating_sub (free_count w c) (total_remaining (reservations w))) w →
  wp (available_slots c) Q w.
Proof.
  intros Hs Hc HQ. unfold available_slots, promised_total. apply wp_bind, dynamic_slot_end_spec; [done|].
  apply wp_bind, count_free_spec; [done..|]. by go.
Qed.

(** A task without a reservation takes the first free slot, if one is left that no
    reservation promises. *)
Lemma alloc_dynamic_spec w c :
  shape w → capacity_ok c → slots_ok w c →
  wp (alloc_dynamic_slot_with_capacity c) (λ r w', w' = w ∧
    match r with
    | Ok i => head (free_slots w c) = Some i ∧ total_remaining (reservations w) < free_count w c
    | Err e => e = NoTaskSlots ∧ free_count w c = total_remaining (reservations w)
    end) w.
Proof.
  intros Hs Hc [Ht Hp]. unfold alloc_dynamic_slot_with_capacity, promised_total.
  apply wp_bind, dynamic_slot_end_spec; [done|]. apply wp_bind, count_free_spec; [done..|]. go.
  fold (reservations w). destruct (Z.leb_spec (free_count w c) (total_remaining (reservations w))).
  { go. split_and!; [done..|lia]. }
  apply wp_bind, find_free_spec; [done|by apply Forall_dynamic|]. fold (free_slots w c).
  pose proof (table_total_bound _ Ht).
  destruct (proj1 (free_count_pos w c)) as [i Hi]; [lia|]. rewrite Hi. by go.
Qed.

Lemma ensure_consumable_spec r t Q :
  Q (match promise t r with
     | None => Err InvalidHandle
     | Some e => if e_remaining e =? 0 then Err NoTaskSlots else Ok tt
     end) t → wp (ensure_consumable r) Q t.
Proof.
  intros HQ. unfold ensure_consumable, resolve. wp_steps. apply wp_resolve_slot. revert HQ. unfold promise.
  destruct (token_slot t r) as [slot|] eqn:Hs; simpl; [|done]. intros HQ. wp_steps.
  apply token_slot_Some in Hs as (e & He & _). eapply wp_entry_at; [done|]. rewrite He in HQ. by wp_steps.
Qed.

(** A task with a reservation always finds a slot while the reservation promises one. *)
Lemma alloc_reserved_spec w c r :
  shape w → capacity_ok c → slots_ok w c →
  wp (alloc_reserved_dynamic_slot_with_capacity r c) (λ res w',
    match promise (reservations w) r with
    | None => res = Err InvalidHandle ∧ w' = w
    | Some e =>
        if e_remaining e =? 0 then res = Err NoTaskSlots ∧ w' = w
        else ∃ i t', head (free_slots w c) = Some i ∧ res = Ok (i, consumed_stack e) ∧
          w' = set_reservations t' w ∧ table_ok t' ∧
          total_remaining t' = total_remaining (reservations w) - 1
    end) w.
Proof.
  intros Hs Hc [Ht Hp]. unfold alloc_reserved_dynamic_slot_with_capacity. wp_steps.
  apply wp_with_reservations, ensure_consumable_spec. rewrite set_reservations_same.
  destruct (promise (reservations w) r) as [e|] eqn:Hr; [|done].
  destruct (Z.eqb_spec (e_remaining e) 0) as [Hz|Hz]; [done|]. wp_steps.
  apply dynamic_slot_end_spec; [done|]. wp_steps. apply find_free_spec; [done|by apply Forall_dynamic|].
  fold (free_slots w c). destruct (promise_Some _ r e Hr) as (slot & Hslot & He & _).
  assert (entry_ok e) as Heok by (destruct Ht as (_ & H & _); eauto).
  pose proof Heok as (_ & _ & Hrem & _).
  assert (e_remaining e <= total_remaining (reservations w)) as Hle.
  { destruct Ht as (_ & Hall & ->). eapply zsum_ge_elem; [|done]. intros j y Hj.
    destruct (Hall j y Hj) as (_ & _ & ? & _). lia. }
  destruct (proj1 (free_count_pos w c)) as [i Hi]; [lia|]. rewrite Hi. wp_steps.
  cbn [ok_or]. wp_steps. apply wp_with_reservations. wp_apply (consume_spec r _ Ht). rewrite Hslot. intros res t' (e' & He' & H').
  assert (e' = e) as -> by congruence. apply Z.eqb_neq in Hz as Hz'. rewrite Hz' in H'.
  destruct H' as [-> ->]. wp_steps. eexists i, _. split_and!; [done..| |].
  - apply replace_entry_ok; [done..|]. by apply consumed_entry_ok.
  - simpl. unfold consumed_entry. case_match; simpl; lia.
Qed.

(** Reservations promise only free slots. *)
Lemma reserve_slots_ok w c required :
  shape w → capacity_ok c → slots_ok w c → 1 <= required →
  wp (reserve_dynamic_slots_with_capacity required c) (λ r w', slots_ok w' c ∧
    (∃ t', w' = set_reservations t' w) ∧
    match r with
    | Ok _ => total_remaining (reservations w') = total_remaining (reservations w) + required
    | Err _ => w' = w
    end) w.
Proof.
  intros Hs Hc [Ht Hp] Hr. unfold reserve_dynamic_slots_with_capacity.
  pose proof (free_count_bound w c Hc). pose proof (table_total_bound _ Ht).
  apply wp_bind, available_slots_spec; [done..|]. apply wp_with_reservations.
  wp_apply (reserve_spec required (saturating_sub (free_count w c) (total_remaining (reservations w))) _ Ht);
    [|lia|mlia].
  intros [tok|err] t' H'.
  - destruct H' as (Hle & slot & Hat). apply reserved_at_ok in Hat as (Hok & _ & Htot); [|done|mlia].
    split; [|by eauto]. split; [done|]. change (total_remaining t' <= free_count w c). mlia.
  - destruct H' as [-> _]. rewrite set_reservations_same. split; [done|]. split; [|done].
    exists (reservations w). by rewrite set_reservations_same.
Qed.

Lemma reserve_resources_slots_ok w c required stacks :
  shape w → capacity_ok c → slots_ok w c → 1 <= required.(task_slots) →
  stacks_for required.(task_slots) stacks →
  wp (reserve_dynamic_task_resources_with_capacity required stacks c) (λ r w', slots_ok w' c ∧
    (∃ t', w' = set_reservations t' w) ∧
    match r with
    | Ok _ => total_remaining (reservations w') = total_remaining (reservations w) + required.(task_slots)
    | Err _ => w' = w
    end) w.
Proof.
  intros Hs Hc [Ht Hp] Hr Hst. unfold reserve_dynamic_task_resources_with_capacity.
  pose proof (free_count_bound w c Hc). pose proof (table_total_bound _ Ht).
  apply wp_bind, available_slots_spec; [done..|]. apply wp_with_reservations.
  wp_apply (reserve_with_stacks_spec required
    (saturating_sub (free_count w c) (total_remaining (reservations w))) stacks _ Ht); [|lia|mlia].
  intros [tok|err] t' H'.
  - destruct H' as (Hle & slot & Hat). apply stacked_at_ok in Hat as (Hok & _ & Htot); [|done|mlia|done].
    split; [|by eauto]. split; [done|]. change (total_remaining t' <= free_count w c). mlia.
  - destruct H' as [-> _]. rewrite set_reservations_same. split; [done|]. split; [|done].
    exists (reservations w). by rewrite set_reservations_same.
Qed.

Lemma reserve_plan_slots_ok w c plan stacks :
  shape w → capacity_ok c → slots_ok w c → plan_wf plan → plan_stacks_ok plan stacks →
  wp (reserve_dynamic_task_resource_plan_with_capacity plan stacks c) (λ r w', slots_ok w' c ∧
    (∃ t', w' = set_reservations t' w) ∧
    match r with
    | Ok _ => total_remaining (reservations w') = total_remaining (reservations w) + group_slots plan
    | Err _ => w' = w
    end) w.
Proof.
  intros Hs Hc [Ht Hp] Hwf Hst. unfold reserve_dynamic_task_resource_plan_with_capacity.
  pose proof (free_count_bound w c Hc). pose proof (table_total_bound _ Ht).
  apply wp_bind, available_slots_spec; [done..|]. apply wp_with_reservations.
  wp_apply (reserve_plan_spec plan (saturating_sub (free_count w c) (total_remaining (reservations w))) stacks _ Ht);
    [|done|mlia|done].
  intros [toks|err] t' [Hiff H'].
  - destruct H' as (Hok & Htot & _). destruct Hiff as [Hfit _]. destruct (Hfit eq_refl) as [Hfit1 _].
    split; [|by eauto]. split; [done|]. change (total_remaining t' <= free_count w c). mlia.
  - subst t'. rewrite set_reservations_same. split; [done|]. split; [|done].
    exists (reservations w). by rewrite set_reservations_same.
Qed.

Lemma release_slots_ok w c r :
  slots_ok w c →
  wp (release_task_reservation r) (λ _ w', slots_ok w' c ∧ ∃ t', w' = set_reservations t' w) w.
Proof.
  intros [Ht Hp]. unfold release_task_reservation. apply wp_with_reservations. wp_apply (release_spec r _ Ht). intros res t' H.
  split; [|by exists t']. destruct (token_slot (reservations w) r) as [slot|].
  - destruct H as (e & He & _ & -> & _).
    assert (entry_ok e) as Heok by (destruct Ht as (_ & Hall & _); eauto). split.
    + by apply replace_entry_ok; [..|apply released_entry_ok].
    + etrans; [|exact Hp]. change (total_remaining (replace_entry (reservations w) slot e (released_entry e)) <=
        total_remaining (reservations w)). simpl. destruct Heok as (_ & _ & ? & _). lia.
  - by destruct H as [_ ->].
Qed.

(** ** Any sequence of reservations, spawns and exits *)

Inductive slot_event :=
| SpawnUnreserved
| SpawnReserved (r : TaskReservation)
| ReserveSlots (required : Z)
| ReserveResources (required : TaskResourceRequirements) (stacks : list Z)
| ReservePlan (plan : TaskResourcePlan) (stacks : list (list Z))
| Release (r : TaskReservation)
| ExitTask (i : Z).

Definition slot_event_ok (e : slot_event) : Prop :=
  match e with
  | ReserveSlots required => 1 <= required
  | ReserveResources required stacks => 1 <= required.(task_slots) ∧ stacks_for required.(task_slots) stacks
  | ReservePlan plan stacks => plan_wf plan ∧ plan_stacks_ok plan stacks
  | ExitTask i => slot_in i
  | SpawnUnreserved | SpawnReserved _ | Release _ => True
  end.

(** What the spawn does to the slot it got. *)
Definition occupy (i : Z) : M World unit := set_task i (λ t, t <| t_state := Ready |>).

(** The result says whether a reservation that still promised a slot was refused one. *)
Definition slot_exec (c : Z) (e : slot_event) : M World bool :=
  match e with
  | SpawnUnreserved =>
      r ← alloc_dynamic_slot_with_capacity c;
      (match r with Ok i => occupy i | Err _ => mret tt end) ;; mret true
  | SpawnReserved r =>
      promised ← gets (λ w, match promise (reservations w) r with Some e => negb (e_remaining e =? 0) | None => false end);
      slot ← alloc_reserved_dynamic_slot_with_capacity r c;
      match slot with
      | Ok (i, _) => occupy i ;; mret true
      | Err _ => mret (negb promised)
      end
  | ReserveSlots required => reserve_dynamic_slots_with_capacity required c ;; mret true
  | ReserveResources required stacks => reserve_dynamic_task_resources_with_capacity required stacks c ;; mret true
  | ReservePlan plan stacks => reserve_dynamic_task_resource_plan_with_capacity plan stacks c ;; mret true
  | Release r => release_task_reservation r ;; mret true
  | ExitTask i => set_task i (λ _, Tcb_empty) ;; mret true
  end.

Lemma shape_set_reservations t w : shape w → shape (set_reservations t w).
Proof. intros []. by split. Qed.

Lemma free_slots_elem_head w c i : head (free_slots w c) = Some i → i ∈ free_slots w c.
Proof. destruct (free_slots w c); [done|]. intros [= ->]. left. Qed.

(** Occupying a free slot that is not promised, or whose promise was just consumed. *)
Lemma occupy_slots_ok w c i (Q : unit → World → Prop) :
  shape w → capacity_ok c → table_ok (reservations w) → total_remaining (reservations w) < free_count w c →
  head (free_slots w c) = Some i → (∀ w', shape w' → slots_ok w' c → Q tt w') → wp (occupy i) Q w.
Proof.
  intros Hs Hc Ht Hlt Hi%free_slots_elem_head HQ. pose proof Hi as [Hst Hr]%elem_of_free_slots.
  pose proof (dynamic_slot_in c i Hc Hr) as Hin. apply wp_set_task; [done..|]. apply HQ; [by apply shape_upd_task|].
  split; [done|]. rewrite (free_count_taken w _ c i Hi).
  - change (total_remaining (reservations w) <= free_count w c - 1). lia.
  - by rewrite T_upd_eq.
  - intros j Hj. by rewrite T_upd_ne.
Qed.

Lemma slot_exec_spec w c e :
  shape w → capacity_ok c → slots_ok w c → slot_event_ok e →
  wp (slot_exec c e) (λ b w', shape w' ∧ slots_ok w' c ∧ b = true) w.
Proof.
  intros Hs Hc Hok He. destruct e as [|r|n|req stacks|plan stacks|r|i]; cbn [slot_exec slot_event_ok] in *.
  - apply wp_bind. wp_apply (alloc_dynamic_spec w c Hs Hc Hok). intros [i|e] w' [-> H].
    + destruct H as [Hi Hlt]. wp_steps. apply (occupy_slots_ok w c i); [done|done|apply Hok|done|done|]. intros w' ? ?. by wp_steps.
    + by wp_steps.
  - wp_steps. wp_apply (alloc_reserved_spec w c r Hs Hc Hok). intros res w' H.
    destruct (promise (reservations w) r) as [e|]; [|by destruct H as [-> ->]; wp_steps].
    destruct (e_remaining e =? 0); [by destruct H as [-> ->]; wp_steps|].
    destruct H as (i & t' & Hi & -> & -> & Ht' & Htot). destruct Hok as [Hok1 Hok2]. wp_steps.
    apply (occupy_slots_ok _ c i); [by apply shape_set_reservations|done|done| |done|]; [|intros w' ? ?; by wp_steps].
    change (total_remaining t' < free_count w c). lia.
  - wp_steps. wp_apply (reserve_slots_ok w c n Hs Hc Hok He). intros r w' (H & [t' ->] & _). wp_steps.
    split_and!; [by apply shape_set_reservations|done..].
  - destruct He as [H1 H2]. wp_steps. wp_apply (reserve_resources_slots_ok w c req stacks Hs Hc Hok H1 H2).
    intros r w' (H & [t' ->] & _). wp_steps. split_and!; [by apply shape_set_reservations|done..].
  - destruct He as [H1 H2]. wp_steps. wp_apply (reserve_plan_slots_ok w c plan stacks Hs Hc Hok H1 H2).
    intros r w' (H & [t' ->] & _). wp_steps. split_and!; [by apply shape_set_reservations|done..].
  - wp_steps. wp_apply (release_slots_ok w c r Hok). intros res w' (H & [t' ->]). wp_steps.
    split_and!; [by apply shape_set_reservations|done..].
  - wp_steps. apply wp_set_task; [done..|]. wp_steps. split_and!; [by apply shape_upd_task| |done].
    destruct Hok as [H1 H2]. split; [done|]. etrans; [exact H2|]. apply (free_count_freed w _ c i).
    + intros j Hj. by rewrite T_upd_ne.
    + by rewrite T_upd_eq.
Qed.

Fixpoint slot_run (c : Z) (events : list slot_event) : M World (list bool) :=
  match events with
  | [] => mret []
  | e :: events => b ← slot_exec c e; bs ← slot_run c events; mret (b :: bs)
  end.

(** C12: A promised slot is always there (RTOS-ADMISSION-001, RTOS-ADMISSION-002). Over any
    sequence of admissions, releases, task exits and spawns with and without
    reservations, valid or not, no operation panics, a spawn that presents a reservation
    with a remaining promise is never refused a slot, and every promised slot stays free. *)
Theorem reserved_slots_are_kept (w : World) (c : Z) (events : list slot_event) :
  shape w → capacity_ok c → slots_ok w c → Forall slot_event_ok events →
  wp (slot_run c events) (λ kept w', kept = replicate (length events) true ∧ shape w' ∧
    table_ok (reservations w') ∧ 0 <= total_remaining (reservations w') <= free_count w' c) w.
Proof.
  intros Hs Hc Hok Hev. revert w Hs Hok. induction Hev as [|e events He _ IH]; intros w Hs Hok; cbn [slot_run].
  - wp_steps. destruct Hok as [H1 H2]. pose proof (table_total_bound _ H1). split_and!; done || lia.
  - apply wp_bind. wp_apply (slot_exec_spec w c e Hs Hc Hok He). intros b w1 (Hs1 & Hok1 & ->).
    apply wp_bind. wp_apply (IH w1 Hs1 Hok1). intros bs w2 (-> & ? & ? & ?). by wp_steps.
Qed.

Lemma World_new_shape n : shape (World_new n).
Proof. by eapply queues_shape, World_new_queues. Qed.

Lemma World_new_slots n c : Z.of_nat n <= 255 → capacity_ok c → slots_ok (World_new n) c.
Proof.
  intros Hn Hc. split; [by apply table_new_ok|]. change (0 <= free_count (World_new n) c).
  pose proof (free_count_bound (World_new n) c Hc). lia.
Qed.

(** Two slots: one promised, one taken without a reservation, the next refused; the
    promised one is taken and given back. *)
Definition witness_slot_events : list slot_event :=
  [ReserveSlots 1; SpawnUnreserved; SpawnUnreserved; SpawnReserved 257; ExitTask 3; Release 257; SpawnUnreserved].

Lemma reserved_slots_are_kept_witness :
  Forall slot_event_ok witness_slot_events ∧
  wp (slot_run 2 witness_slot_events) (λ kept w', kept = replicate 7 true ∧ shape w' ∧
    table_ok (reservations w') ∧ 0 <= total_remaining (reservations w') <= free_count w' 2) (World_new 4).
Proof.
  assert (Forall slot_event_ok witness_slot_events) as H.
  { repeat constructor; rewrite ?slot_count_value; done. }
  assert (capacity_ok 2) as Hc by done.
  split; [exact H|]. apply (reserved_slots_are_kept (World_new 4) 2 witness_slot_events); [apply World_new_shape|exact Hc| |exact H].
  by apply World_new_slots.
Defined.
