(* ===== verification/Statics.v ===== *)
(** * The runtime's statics ([src/runtime.rs], [src/runtime/time.rs])

    The process-wide state the entry points of the runtime share: the start state, the
    scheduler, the interrupt depth, the handle registry and the timer's generation. What
    is outside the repository is reached through parameters: the injected clock and the
    embassy time queue answer a call by its number, the injected allocator is an
    instance of [StackHeap], the machine's interrupt-enable bit is read by call number
    too, and calls of the injected port are recorded in a log. *)

From S2P Require Import Prelude Effects Budget Contract Config Context Reservation Resource.
From S2P Require Import Tcb Store Switch Sync Timer Slots.

Record StartConfig := mkStartConfig {
  sc_minimum_stack_size : Z;
  sc_radio_task_policy : RunPolicy;
  sc_max_scheduler_lock_duration : option Z;
}.

(** [storage] and [port] are told by what the scheduler reads of them: the dynamic
    capacity of caller-owned storage, and the port's largest timer delay. *)
Record StartState := mkStartState {
  st_config : StartConfig;
  st_storage : option Z;
  st_port : option Z;
}.

(** The calls of the injected port. *)
Inductive PortCall :=
| ArmTimer (delay : Z)
| DisarmTimer
| PendReschedule
| ReportViolation (v : ContractViolation).

(** The injected allocator: [heap_live] says which addresses are allocated, and how
    large, in a state of the heap. *)
Class StackHeap (H : Type) := {
  heap_allocate : Z → M H Z;
  heap_deallocate : Z → M H unit;
  heap_largest : H → Z;
  heap_live : H → gmap Z Z;
}.

(** What its documentation promises: null on exhaustion, else a fresh non-null range;
    deallocation ends the life of a live one. *)
Class StackHeapLaws (H : Type) `{StackHeap H} : Prop := {
  heap_allocate_law size h : wp (heap_allocate size) (λ p h',
    if p =? 0 then heap_live h' = heap_live h
    else 0 < p ∧ p + size <= usize_max ∧ heap_live h !! p = None ∧
      heap_live h' = <[p := size]> (heap_live h)) h;
  heap_deallocate_law p h : is_Some (heap_live h !! p) →
    wp (heap_deallocate p) (λ _ h', heap_live h' = delete p (heap_live h)) h;
}.

Record Rtos (H : Type) := mkRtos {
  r_start : option StartState;
  r_world : World;
  r_interrupt_depth : Z;
  r_handles : ResourceTable;
  r_timer_generation : Z;
  r_heap : H;
  r_reads : nat;
  r_port_log : list PortCall;
}.
Arguments mkRtos {H}.
Arguments r_start {H}. Arguments r_world {H}. Arguments r_interrupt_depth {H}.
Arguments r_handles {H}. Arguments r_timer_generation {H}. Arguments r_heap {H}.
Arguments r_reads {H}. Arguments r_port_log {H}.

#[export] Instance eta_Rtos H : Eta (Rtos H) := λ r,
  mkRtos (r_start r) (r_world r) (r_interrupt_depth r) (r_handles r) (r_timer_generation r)
    (r_heap r) (r_reads r) (r_port_log r).
#[export] Instance field_r_start H : Field (@r_start H). Proof. derive_field. Defined.
#[export] Instance field_r_world H : Field (@r_world H). Proof. derive_field. Defined.
#[export] Instance field_r_interrupt_depth H : Field (@r_interrupt_depth H). Proof. derive_field. Defined.
#[export] Instance field_r_handles H : Field (@r_handles H). Proof. derive_field. Defined.
#[export] Instance field_r_timer_generation H : Field (@r_timer_generation H). Proof. derive_field. Defined.
#[export] Instance field_r_heap H : Field (@r_heap H). Proof. derive_field. Defined.
#[export] Instance field_r_reads H : Field (@r_reads H). Proof. derive_field. Defined.
#[export] Instance field_r_port_log H : Field (@r_port_log H). Proof. derive_field. Defined.

(** The outside world: the [n]-th reading of the clock, of the machine's
    interrupt-enable bit and of the embassy queue's next expiration. *)
Class Outside := {
  monotonic_ms : nat → Z;
  interrupts_enabled : nat → bool;
  next_expiration : nat → Z → Z;
}.

(** The critical section of [reclaim_retired_stacks]. *)
Definition take_retired_stacks : M World (list Z * Z) :=
  stacks ← sched_gets s_retired_stacks;
  count ← sched_gets s_retired_count;
  sched_modify (λ s, s <| s_retired_stacks := replicate task_slots_nat 0 |> <| s_retired_count := 0 |>) ;;
  mret (stacks, count).

Section Statics.
  Context {H : Type} `{StackHeap H, Outside}.

(** Critical sections on the scheduler, on the handles, and calls of the allocator. *)
Definition in_world {A} (m : M World A) : M (Rtos H) A := zoom r_world (λ w r, r <| r_world := w |>) m.
Definition in_handles {A} (m : M ResourceTable A) : M (Rtos H) A :=
  zoom r_handles (λ t r, r <| r_handles := t |>) m.
Definition in_heap {A} (m : M H A) : M (Rtos H) A := zoom r_heap (λ h r, r <| r_heap := h |>) m.

Definition next_read : M (Rtos H) nat :=
  n ← gets r_reads; modify (λ r, r <| r_reads ::= S |>) ;; mret n.

Definition call_port (c : PortCall) : M (Rtos H) unit := modify (λ r, r <| r_port_log ::= λ l, l ++ [c] |>).

Definition start_state : M (Rtos H) StartState := s ← gets r_start; expect s.

Definition now_ms : M (Rtos H) Z := _ ← start_state; n ← next_read; mret (monotonic_ms n).

Definition allocate (size : Z) : M (Rtos H) Z := _ ← start_state; in_heap (heap_allocate size).

Definition deallocate (pointer : Z) : M (Rtos H) unit := _ ← start_state; in_heap (heap_deallocate pointer).

Definition largest_allocatable_stack : M (Rtos H) Z :=
  s ← start_state; h ← gets r_heap;
  mret (match s.(st_storage) with Some _ => heap_largest h | None => 0 end).

Definition dynamic_capacity : M (Rtos H) Z :=
  s ← start_state; mret (default DYNAMIC_TASK_CAPACITY s.(st_storage)).

Definition is_ported : M (Rtos H) bool :=
  s ← start_state; mret (match s.(st_port) with Some _ => true | None => false end).

Definition switch_delivery_is_valid (ported in_interrupt machine_interrupts_enabled : bool) : bool :=
  negb ported || in_interrupt || machine_interrupts_enabled.

Definition machine_interrupts_enabled : M (Rtos H) bool := n ← next_read; mret (interrupts_enabled n).

Definition ensure_switch_delivery : M (Rtos H) (result DriverError unit) :=
  ported ← is_ported;
  depth ← gets r_interrupt_depth;
  enabled ← machine_interrupts_enabled;
  mret (if switch_delivery_is_valid ported (negb (depth =? 0)) enabled then Ok tt else Err InvalidContext).

(** ** The timer *)

Definition embassy_expiration (now : Z) : M (Rtos H) (option Z) :=
  n ← next_read; mret (embassy_next_expiration (next_expiration n (saturating_mul u64_max now EMBASSY_TICKS_PER_MILLISECOND)) now).

Definition claim_timer_rearm_generation : M (Rtos H) Z :=
  g ← gets r_timer_generation;
  modify (λ r, r <| r_timer_generation := wrapping_add u64_max g 1 |>) ;;
  mret (wrapping_add u64_max g 1).

Definition timer_rearm_ticket_is_current (ticket : Z) : M (Rtos H) bool :=
  g ← gets r_timer_generation; mret (g =? ticket).

(** The loop of [rearm_timer]; it repeats when a nested rearm claimed a newer ticket,
    which no run without an interrupt between the two sections does. *)
Fixpoint rearm_loop (fuel : nat) (lock_limit : option Z) (max_timer_delay : Z) : M (Rtos H) unit :=
  match fuel with
  | O => fail Hung
  | S fuel =>
      now ← now_ms;
      embassy ← embassy_expiration now;
      lock_limit' ← expect lock_limit;
      deadline ← in_world (timer_deadline now lock_limit' embassy);
      generation ← claim_timer_rearm_generation;
      call_port (match deadline with
                 | Some deadline => ArmTimer (timer_delay deadline now max_timer_delay)
                 | None => DisarmTimer
                 end) ;;
      still_current ← timer_rearm_ticket_is_current generation;
      if still_current : bool then mret tt else rearm_loop fuel lock_limit max_timer_delay
  end.

Definition rearm_timer : M (Rtos H) unit :=
  s ← start_state;
  match s.(st_port) with
  | None => mret tt
  | Some max_timer_delay => rearm_loop 1 s.(st_config).(sc_max_scheduler_lock_duration) max_timer_delay
  end.

(** The port's [contract_violation] has type [fn(ContractViolation) -> !]: it keeps the hart. *)
Definition on_timer_interrupt_handler : M (Rtos H) unit :=
  now ← now_ms;
  s ← start_state;
  lock_limit ← expect s.(st_config).(sc_max_scheduler_lock_duration);
  violation ← in_world (on_timer_interrupt now lock_limit);
  (match violation with
   | Some violation => _ ← expect s.(st_port); call_port (ReportViolation violation) ;; fail Hung
   | None => mret tt
   end) ;;
  rearm_timer.

Definition on_software_interrupt : M (Rtos H) unit := in_world (bump d_software_interrupts).

Definition request_reschedule : M (Rtos H) unit :=
  s ← start_state;
  match s.(st_port) with
  | None => mret tt
  | Some _ => rearm_timer ;; call_port PendReschedule
  end.

(** ** The embassy time driver *)

Definition embassy_now_ticks : M (Rtos H) Z :=
  s ← gets r_start;
  match s with
  | Some _ => n ← next_read; mret (saturating_mul u64_max (monotonic_ms n) EMBASSY_TICKS_PER_MILLISECOND)
  | None => mret 0
  end.

(** [schedule_wake]; the queue answers whether its first expiration [changed]. *)
Definition schedule_wake (changed : bool) : M (Rtos H) unit :=
  if changed then
    s ← gets r_start;
    when (match s with Some s => match s.(st_port) with Some _ => true | None => false end | None => false end)
      rearm_timer
  else mret tt.

(** ** Interrupt depth *)

Definition interrupt_enter : M (Rtos H) unit :=
  s ← gets r_start;
  now ← (match s with Some _ => n ← next_read; mret (Some (monotonic_ms n)) | None => mret None end);
  depth ← gets r_interrupt_depth;
  (match now with
   | Some now => when (depth =? 0) (in_world (interrupt_enter_sched now))
   | None => mret tt
   end) ;;
  modify (λ r, r <| r_interrupt_depth := saturating_add u16_max depth 1 |>).

Definition interrupt_exit : M (Rtos H) unit :=
  s ← gets r_start;
  now ← (match s with Some _ => n ← next_read; mret (Some (monotonic_ms n)) | None => mret None end);
  depth ← gets r_interrupt_depth;
  assert_ (negb (depth =? 0)) ;;
  (match now with
   | Some now => when (depth =? 1) (in_world (interrupt_exit_sched now))
   | None => mret tt
   end) ;;
  modify (λ r, r <| r_interrupt_depth := saturating_sub depth 1 |>).

(** [__hisi_irq_epilogue] *)
Definition irq_epilogue (encoded_frame : Z) : M (Rtos H) Z :=
  now ← now_ms;
  depth ← gets r_interrupt_depth;
  next_frame ← in_world (schedule_from_trap encoded_frame depth now);
  rearm_timer ;;
  mret next_frame.

Definition reclaim_retired_stacks : M (Rtos H) unit :=
  r ← in_world take_retired_stacks;
  retired ← expect (slice r.1 0 r.2);
  for_each retired deallocate.

End Statics.
