(* ===== verification/Tasks.v ===== *)
(** * Tasks ([src/runtime.rs])

    Starting the runtime, adopting the caller as the main task, creating a task,
    giving up the hart and leaving. A thread that gives up the hart stops inside
    [execute_switch] until the trap epilogue or the context switch brings it back:
    the operations below end there, in a [switch_result], and what the thread does
    when it runs again is a definition of its own. *)

From S2P Require Import Prelude Effects Budget Contract Config Context Reservation Resource.
From S2P Require Import Tcb Store Ready Switch Sync Timer Slots Statics.

(** ** Identities *)

Definition encode_task_id (slot generation : Z) : result DriverError TaskId :=
  if (TASK_SLOT_COUNT <=? slot) || (TASK_SLOT_MASK <? slot) || (generation =? 0) then Err InvalidHandle
  else if u32_max <? slot then Err Runtime
  else Ok (Z.lor (Z.shiftl generation TASK_SLOT_BITS) slot).

Definition decode_task_id (task : TaskId) : result DriverError (Z * Z) :=
  let slot := Z.land task TASK_SLOT_MASK in
  let generation := Z.shiftr task TASK_SLOT_BITS in
  if usize_max <? slot then Err InvalidHandle
  else if u16_max <? generation then Err InvalidHandle
  else if (TASK_SLOT_COUNT <=? slot) || (generation =? 0) then Err InvalidHandle
  else Ok (slot, generation).

(** The TCB an identity names, or [InvalidHandle]. *)
Definition live_task (task : TaskId) : M World (result DriverError Z) :=
  id ←? mret (decode_task_id task);
  t ← task_at id.1;
  mret (if state_eqb t.(t_state) Free || negb (t.(t_identity_generation) =? id.2)
        then Err InvalidHandle else Ok id.1).

(** ** Frames *)

(** [x & !0xf] *)
Definition align_down16 (x : Z) : Z := Z.land x (Z.lnot 15).

Definition TASK_CONTEXT_WORDS : Z := 68.

(** The address [initialize_irq_frame] returns; the words it writes are in
    [Machine.v]. *)
Definition irq_frame_address (top : Z) : option Z := checked_sub top (TASK_CONTEXT_WORDS * 4).

(** The context a task starts from. *)
Definition initial_context (trampoline sp initial_tp initial_fcsr : Z) : TaskContext :=
  TaskContext_zero <| c_tp := initial_tp |> <| c_mstatus := 30848 |> <| c_fcsr := initial_fcsr |>
    <| c_mepc := trampoline mod (u32_max + 1) |> <| c_sp := sp mod (u32_max + 1) |>.

(** Addresses the linker chooses and registers the runtime reads from the hart. *)
Record Image := mkImage {
  im_trampoline : Z;
  im_idle_entry : Z;
  im_idle_stack : Z;
}.

(** ** The main task and idle *)

Definition set_generation (i v : Z) : M World unit :=
  gs ← sched_gets s_slot_generations;
  _ ← expect (idx gs i);
  sched_modify (λ s, s <| s_slot_generations ::= λ l, alter_at (λ _, v) l i |>).

Definition adopt_main (now : Z) : M World unit :=
  set_task 0 (λ t, t <| t_state := Running |>) ;;
  set_generation 0 1 ;;
  set_task 0 (λ t, t <| t_identity_generation := 1 |> <| t_run_policy := Cooperative |>
    <| t_budget := for_policy Cooperative now |> <| t_budget ::= on_dispatch now |>
    <| t_metrics ::= metrics_on_dispatch now |>) ;;
  set_current 0.

Definition prepare_idle (im : Image) (trap_scheduling : bool) (idle_top initial_tp initial_fcsr now : Z) :
    M World unit :=
  set_task IDLE_SLOT (λ t, t <| t_ctx := initial_context im.(im_trampoline) idle_top initial_tp initial_fcsr |>) ;;
  when trap_scheduling
    (frame ← expect (irq_frame_address idle_top);
     set_task IDLE_SLOT (λ t, t <| t_saved_frame := frame |>)) ;;
  set_task IDLE_SLOT (λ t, t <| t_state := Ready |> <| t_stack := 0 |> <| t_stack_size := 0 |>
    <| t_entry := Some im.(im_idle_entry) |> <| t_arg := 0 |>
    <| t_base_priority := PRIORITY_LEVELS - 1 |> <| t_priority := PRIORITY_LEVELS - 1 |>
    <| t_identity_generation := 1 |> <| t_run_policy := Cooperative |> <| t_budget := none |>
    <| t_metrics ::= metrics_on_ready now |>) ;;
  set_generation IDLE_SLOT 1.

(** The critical section of [init]. *)
Definition init_locked (im : Image) (trap_scheduling : bool) (idle_top initial_tp initial_fcsr now : Z) :
    M World unit :=
  started ← sched_gets s_started;
  if started : bool then mret tt
  else
    adopt_main now ;;
    prepare_idle im trap_scheduling idle_top initial_tp initial_fcsr now ;;
    sched_modify (λ s, s <| s_started := true |>).

(** ** A new task *)

(** A slot and, for a reserved task, its preallocated stack. *)
Definition take_slot (reservation : option TaskReservation) (capacity : Z) :
    M World (result DriverError (Z * option ReservedStack)) :=
  match reservation with
  | Some reservation => alloc_reserved_dynamic_slot_with_capacity reservation capacity
  | None => slot ←? alloc_dynamic_slot_with_capacity capacity; mret (Ok (slot, None))
  end.

(** The fields of the new TCB; everything else is left from the slot's last life. *)
Definition new_task (context : TaskContext) (stack size entry arg priority generation : Z)
    (run_policy : RunPolicy) (now : Z) (t : Tcb) : Tcb :=
  t <| t_ctx := context |> <| t_stack := stack |> <| t_stack_size := size |> <| t_entry := Some entry |>
    <| t_arg := arg |> <| t_wake_at := 0 |> <| t_base_priority := priority |> <| t_priority := priority |>
    <| t_identity_generation := generation |> <| t_run_policy := run_policy |>
    <| t_budget := for_policy run_policy now |>.

(** The critical section of [spawn]. *)
Definition spawn_locked (im : Image) (trap_scheduling : bool) (initial_tp initial_fcsr : Z)
    (reservation : option TaskReservation) (capacity allocated_stack size entry arg priority : Z)
    (run_policy : RunPolicy) (now : Z) : M World (result DriverError Z) :=
  r ←? take_slot reservation capacity;
  let i := r.1 in
  let stack := match r.2 with Some stack => stack.(rs_pointer) | None => allocated_stack end in
  assert_ (negb (stack =? 0)) ;;
  end_ ← expect (checked_add usize_max stack size);
  let top := align_down16 end_ in
  gs ← sched_gets s_slot_generations;
  last ← expect (idx gs i);
  let identity_generation := Z.max (wrapping_add u16_max last 1) 1 in
  set_generation i identity_generation ;;
  when trap_scheduling
    (frame ← expect (irq_frame_address top);
     set_task i (λ t, t <| t_saved_frame := frame |>)) ;;
  set_task i (new_task (initial_context im.(im_trampoline) top initial_tp initial_fcsr)
    stack size entry arg priority identity_generation run_policy now) ;;
  make_ready i now ;;
  mret (Ok i).

(** ** Giving up the hart *)

Inductive switch_result :=
| Resumed
| AwaitTrap (previous generation : Z)
| SwapContexts (previous next : Z).

(** The committed ticket is still pending, or the trap already dispatched it. *)
Definition intent_delivered (intent : SwitchIntent) : M World bool :=
  pending ← sched_gets s_pending_switch;
  generation ← tget t_resume_generation intent.(si_previous).(ref_slot);
  mret (match pending with Some p => p.(ps_sequence) =? intent.(si_sequence) | None => false end ||
        negb (generation =? intent.(si_previous_resume_generation))).

Definition target_has_frame (next : Z) : M World bool :=
  frame ← tget t_saved_frame next;
  current ← sched_gets s_current;
  mret (negb (frame =? 0) || (current =? next)).

(** The switch to oneself. *)
Definition resume_self (next : Z) : M World unit := set_task next (λ t, t <| t_state := Running |>).

(** The critical section in which [execute_switch] checks its intent. *)
Definition delivery_section (intent : SwitchIntent) : M World unit :=
  delivered ← intent_delivered intent;
  assert_ delivered ;;
  framed ← target_has_frame intent.(si_target).(ref_slot);
  assert_ framed.

(** The task waiting in [execute_switch] has been dispatched again. *)
Definition resumed (previous generation : Z) : M World bool :=
  current ← sched_gets s_current;
  g ← tget t_resume_generation previous;
  mret ((current =? previous) && negb (g =? generation)).

(** The cooperative fallback's bookkeeping before the registers are swapped. *)
Definition swap_locked (previous next now : Z) : M World unit :=
  account_switch previous next now ;;
  bump d_context_switches ;;
  set_task next (λ t, t <| t_state := Running |>) ;;
  set_current next.

Definition prepare_switch (ported : bool) (previous target : Z) : M World SwitchIntent :=
  if negb (target =? previous) && ported then prepare_committed_switch_intent previous target
  else prepare_switch_intent previous target.

(** The critical section of [yield_now]. *)
Definition yield_locked (ported : bool) (now : Z) : M World (result DriverError (option SwitchIntent)) :=
  current ←? current_switch_guard;
  bump d_yields ;;
  wake_sleepers now ;;
  target ← take_yield_target current now;
  match target with
  | None => mret (Ok None)
  | Some next => intent ← prepare_switch ported current next; mret (Ok (Some intent))
  end.

(** The critical section of [sleep_ms]. *)
Definition sleep_locked (ported : bool) (wake_at : Z) : M World (result DriverError SwitchIntent) :=
  current ←? current_switch_guard;
  generation ← tget t_resume_generation current;
  bump d_sleeps ;;
  set_task current (λ t, t <| t_state := Sleeping |> <| t_wake_at := wake_at |>) ;;
  intent ← prepare_switch_away_locked ported current generation;
  intent ← expect intent;
  mret (Ok intent).

(** The critical section of [task_exit]. *)
Definition exit_locked (ported : bool) : M World SwitchIntent :=
  current ← sched_gets s_current;
  depth ← tget t_scheduler_lock_depth current;
  assert_ (depth =? 0) ;;
  assert_ (negb (current =? IDLE_SLOT)) ;;
  stack ← tget t_stack current;
  set_task current (λ _, Tcb_empty) ;;
  retire_stack stack ;;
  generation ← tget t_resume_generation current;
  intent ← prepare_switch_away_locked ported current generation;
  expect intent.

(** The critical section of [set_task_run_policy_inner]. *)
Definition set_run_policy_locked (task : TaskId) (policy : RunPolicy) (now : Z) : M World (result DriverError unit) :=
  slot ←? live_task task;
  set_run_policy slot policy now ;;
  mret (Ok tt).

Definition current_task_handle : M World (result DriverError TaskId) :=
  slot ← sched_gets s_current;
  generation ← tget t_identity_generation slot;
  mret (encode_task_id slot generation).

Section Tasks.
  Context {H : Type} `{StackHeap H, Outside} (im : Image) (initial_tp initial_fcsr : Z).

Definition init : M (Rtos H) unit :=
  now ← now_ms;
  trap_scheduling ← is_ported;
  idle_end ← expect (checked_add usize_max im.(im_idle_stack) IDLE_STACK_SIZE);
  in_world (init_locked im trap_scheduling (align_down16 idle_end) initial_tp initial_fcsr now).

Definition start_inner (config : StartConfig) (storage port : option Z)
    (install : result DriverError unit) : M (Rtos H) (result StartError unit) :=
  s ← gets r_start;
  match s with
  | Some _ => mret (Err AlreadyStarted)
  | None =>
      modify (λ r, r <| r_start := Some (mkStartState config storage port) |>) ;;
      match install with
      | Err error => modify (λ r, r <| r_start := None |>) ;; mret (Err (StartDriver error))
      | Ok _ => init ;; rearm_timer ;; mret (Ok tt)
      end
  end.

(** The four start functions. *)
Definition start_cooperative (config : CooperativeConfig) :=
  start_inner (mkStartConfig config.(cc_minimum_stack_size) Cooperative None) None None.
Definition start_with_port (config : PortedConfig) (max_timer_delay : Z) :=
  start_inner (mkStartConfig config.(pc_minimum_stack_size) config.(pc_radio_task_policy)
    (Some config.(pc_max_scheduler_lock_duration))) None (Some max_timer_delay).
Definition start_cooperative_with_storage (config : CooperativeConfig) (capacity : Z) :=
  start_inner (mkStartConfig config.(cc_minimum_stack_size) Cooperative None) (Some capacity) None.
Definition start_with_port_and_storage (config : PortedConfig) (capacity max_timer_delay : Z) :=
  start_inner (mkStartConfig config.(pc_minimum_stack_size) config.(pc_radio_task_policy)
    (Some config.(pc_max_scheduler_lock_duration))) (Some capacity) (Some max_timer_delay).

(** [spawn]: the stack is allocated before the critical section and freed again when
    no slot is found. *)
Definition spawn (entry arg stack_size_ priority : Z) (run_policy : RunPolicy)
    (reservation : option TaskReservation) : M (Rtos H) (result DriverError Z) :=
  init ;;
  reclaim_retired_stacks ;;
  s ← start_state;
  let minimum_size := Z.max stack_size_ s.(st_config).(sc_minimum_stack_size) in
  reserved_stack_size ←?
    (match reservation with
     | Some reservation => in_world (reservation_stack_size reservation)
     | None => mret (Ok None)
     end);
  let size := default minimum_size reserved_stack_size in
  if size <? minimum_size then mret (Err ResourceExhausted)
  else
    allocated_stack ←?
      (match reserved_stack_size with
       | None => stack ← allocate size; mret (if stack =? 0 then Err ResourceExhausted else Ok stack)
       | Some _ => mret (Ok 0)
       end);
    trap_scheduling ← is_ported;
    now ← now_ms;
    capacity ← dynamic_capacity;
    slot ← in_world (spawn_locked im trap_scheduling initial_tp initial_fcsr reservation capacity
      allocated_stack size entry arg priority run_policy now);
    (if is_err slot then when (negb (allocated_stack =? 0)) (deallocate allocated_stack) else rearm_timer) ;;
    mret slot.

Definition execute_switch (intent : SwitchIntent) : M (Rtos H) switch_result :=
  let previous := intent.(si_previous).(ref_slot) in
  let next := intent.(si_target).(ref_slot) in
  if next =? previous then
    in_world (resume_self next) ;; rearm_timer ;; mret Resumed
  else
    ported ← is_ported;
    if ported : bool then
      enabled ← machine_interrupts_enabled;
      assert_ enabled ;;
      in_world (delivery_section intent) ;;
      rearm_timer ;;
      call_port PendReschedule ;;
      mret (AwaitTrap previous intent.(si_previous_resume_generation))
    else
      now ← now_ms;
      in_world (swap_locked previous next now) ;;
      rearm_timer ;;
      mret (SwapContexts previous next).

(** [yield_now] up to the switch; the thread reclaims retired stacks when it is back. *)
Definition yield_now : M (Rtos H) (result DriverError switch_result) :=
  _ ←? ensure_switch_delivery;
  now ← now_ms;
  ported ← is_ported;
  target ←? in_world (yield_locked ported now);
  match target with
  | Some intent => r ← execute_switch intent; mret (Ok r)
  | None => mret (Ok Resumed)
  end.

Definition sleep_ms (ms : Z) : M (Rtos H) (result DriverError switch_result) :=
  if ms =? 0 then yield_now
  else
    _ ←? ensure_switch_delivery;
    now ← now_ms;
    ported ← is_ported;
    intent ←? in_world (sleep_locked ported (saturating_add u64_max now ms));
    rearm_timer ;;
    r ← execute_switch intent;
    mret (Ok r).

Definition after_switch : M (Rtos H) unit := reclaim_retired_stacks.

Definition task_exit : M (Rtos H) switch_result :=
  delivery ← ensure_switch_delivery;
  assert_ (is_ok delivery) ;;
  ported ← is_ported;
  intent ← in_world (exit_locked ported);
  execute_switch intent.

(** Where a new task starts; [call entry arg] is the task's own code. *)
Definition trampoline (call : Z → Z → M (Rtos H) unit) : M (Rtos H) switch_result :=
  t ← in_world (current ← sched_gets s_current; task_at current);
  (match t.(t_entry) with Some f => call f t.(t_arg) | None => mret tt end) ;;
  task_exit.

(** One round of the loop of [idle_entry], up to [wfi]. *)
Definition idle_round : M (Rtos H) (result DriverError switch_result) := yield_now.

(** [current_task_handle] and [set_task_run_policy_inner] *)
Definition set_task_run_policy_inner (task : TaskId) (policy : RunPolicy) : M (Rtos H) (result DriverError unit) :=
  match decode_task_id task with
  | Err e => mret (Err e)
  | Ok _ =>
      now ← now_ms;
      _ ←? in_world (set_run_policy_locked task policy now);
      rearm_timer ;;
      mret (Ok tt)
  end.

End Tasks.
