(* ===== verification/Snapshot.v ===== *)
(** * Read-only snapshots ([src/runtime/scheduler.rs])

    The scheduler's counters with a census of the tasks, and the per-slot details. Both
    run the ownership audit and read everything else; neither changes the scheduler. *)

From S2P Require Import Prelude Effects Budget Contract Config Context Reservation.
From S2P Require Import Tcb Store Chain Ready Ownership Slots.

(** One task of the census loop. *)
Definition census_task (snapshot : Diagnostics) (task : Tcb) : Diagnostics :=
  match task.(t_state) with
  | Ready => snapshot <| d_ready_tasks ::= sat_incr_u8 |>
  | Blocked => snapshot <| d_blocked_tasks ::= sat_incr_u8 |>
  | Sleeping => snapshot <| d_sleeping_tasks ::= sat_incr_u8 |>
  | Throttled => snapshot <| d_throttled_tasks ::= sat_incr_u8 |>
  | Free | Running => snapshot
  end.

(** [n as u8] *)
Definition as_u8 (n : Z) : Z := n mod (u8_max + 1).

Definition audited_snapshot (s : Sched) (audit : ReadyOwnershipAudit) (dynamic_capacity : Z) : Diagnostics :=
  s.(s_diagnostics)
    <| d_ready_ownership_violations := audit.(a_violations) |>
    <| d_ready_queue_duplicate_memberships := audit.(a_duplicate_memberships) |>
    <| d_ready_queue_wrong_priorities := audit.(a_wrong_priorities) |>
    <| d_ready_queue_invalid_links := audit.(a_invalid_links) |>
    <| d_dynamic_capacity := as_u8 dynamic_capacity |>
    <| d_current_task := s.(s_current) |>
    <| d_current_lock_depth := match idx s.(s_tasks) s.(s_current) with
                               | Some task => task.(t_scheduler_lock_depth) | None => 0 end |>.

Definition diagnostics_with_capacity (dynamic_capacity : Z) : M World Diagnostics :=
  audit ← ready_ownership_audit;
  s ← sched_gets id;
  let snapshot := foldl census_task (audited_snapshot s audit dynamic_capacity) s.(s_tasks) in
  end_ ← dynamic_slot_end dynamic_capacity;
  dynamic ← expect (slice s.(s_tasks) (IDLE_SLOT + 1) end_);
  let used := as_u8 (Z.of_nat (length (filter (λ t, t_state t ≠ Free) dynamic))) in
  let reserved := as_u8 (total_remaining s.(s_reservations)) in
  mret (snapshot <| d_dynamic_used := used |> <| d_dynamic_reserved := reserved |>
    <| d_dynamic_free := saturating_sub (saturating_sub snapshot.(d_dynamic_capacity) used) reserved |>).

Definition task_state (s : State) : TaskState :=
  match s with
  | Free => TFree | Ready => TReady | Running => TRunning
  | Blocked => TBlocked | Sleeping => TSleeping | Throttled => TThrottled
  end.

Definition describe_task (s : Sched) (now index : Z) (task : Tcb) (memberships bucket : Z) : TaskDiagnostic := {|
  td_task := index;
  td_generation := task.(t_identity_generation);
  td_state := task_state task.(t_state);
  td_ready_queued := negb (memberships =? 0);
  td_pending_switch_target := match s.(s_pending_switch) with
                              | Some pending => pending.(ps_target).(ref_slot) =? index | None => false end;
  td_ready_queue_bucket := bucket;
  td_ready_queue_memberships := memberships;
  td_entry := default 0 task.(t_entry);
  td_stack_size := task.(t_stack_size);
  td_waiting_sem := task.(t_waiting_sem);
  td_waiting_mutex := task.(t_waiting_mutex);
  td_wake_at := task.(t_wake_at);
  td_base_priority := task.(t_base_priority);
  td_priority := task.(t_priority);
  td_scheduler_lock_depth := task.(t_scheduler_lock_depth);
  td_run_policy := task.(t_run_policy);
  td_budget_remaining := remaining task.(t_budget);
  td_budget_replenishes_at := replenishes_at task.(t_budget);
  td_cpu_time_ms := saturating_add u64_max task.(t_metrics).(m_cpu_time_ms) (running_elapsed task.(t_metrics) now);
  td_irq_time_ms := task.(t_metrics).(m_irq_time_ms);
  td_dispatches := task.(t_metrics).(m_dispatches);
  td_budget_exhaustions := task.(t_metrics).(m_budget_exhaustions);
  td_max_continuous_run_ms := Z.max task.(t_metrics).(m_max_continuous_run_ms) (running_elapsed task.(t_metrics) now);
  td_max_ready_latency_ms := task.(t_metrics).(m_max_ready_latency_ms);
  td_scheduler_lock_entries := task.(t_metrics).(m_scheduler_lock_entries);
  td_max_scheduler_lock_ms := max_scheduler_lock_ms task now;
  td_irq_entries := task.(t_metrics).(m_irq_entries);
  td_max_irq_span_ms := task.(t_metrics).(m_max_irq_span_ms);
|}.

(** The loop over the first slots; the result is what the output is overwritten with. *)
Fixpoint describe_tasks (audit : ReadyOwnershipAudit) (s : Sched) (now : Z) (indices : list Z) :
    M World (list TaskDiagnostic) :=
  match indices with
  | [] => mret []
  | index :: indices =>
      task ← expect (idx s.(s_tasks) index);
      memberships ← expect (idx audit.(a_memberships) index);
      bucket ← expect (idx audit.(a_buckets) index);
      rest ← describe_tasks audit s now indices;
      mret (describe_task s now index task memberships bucket :: rest)
  end.

(** [task_diagnostics]: the new contents of [output] and the number of entries written. *)
Definition task_diagnostics (output : list TaskDiagnostic) (now : Z) : M World (list TaskDiagnostic * Z) :=
  audit ← ready_ownership_audit;
  let count := Z.min (Z.of_nat (length output)) TASK_SLOT_COUNT in
  s ← sched_gets id;
  written ← describe_tasks audit s now (range 0 count);
  mret (written ++ drop (Z.to_nat count) output, count).
