(* ===== verification/Driver.v ===== *)
(** * The runtime's contract ([src/runtime/driver.rs])

    [HisiRuntime]'s implementation of the driver contract: admission of task resources
    with their stacks, creation and destruction of semaphores and mutexes behind
    handles, and the calls into the scheduler. *)

From S2P Require Import Prelude Effects Budget Contract Config Context Reservation Resource.
From S2P Require Import Tcb Store Ready Switch Inherit Sync Timer Slots Snapshot Statics Tasks.

(** ** Stacks *)

Section Stacks.
  Context {H : Type} `{StackHeap H, Outside}.

(** The loop of [preallocate_task_stacks]; [done_] are the stacks allocated so far. *)
Fixpoint preallocate_loop (n : nat) (stack_size : Z) (done_ : list Z) : M (Rtos H) (result (list Z) (list Z)) :=
  match n with
  | O => mret (Ok done_)
  | S n =>
      stack ← allocate stack_size;
      if stack =? 0 then for_each done_ deallocate ;; mret (Err done_)
      else preallocate_loop n stack_size (done_ ++ [stack])
  end.

(** [[0usize; DYNAMIC_TASK_CAPACITY]] with a prefix filled. *)
Definition stack_array (stacks : list Z) : list Z := stacks ++ replicate (15 - length stacks) 0.

Definition preallocate_task_stacks (required : TaskResourceRequirements) :
    M (Rtos H) (result TaskAdmissionError (list Z)) :=
  r ← preallocate_loop (Z.to_nat (Z.min required.(task_slots) DYNAMIC_TASK_CAPACITY))
        required.(stack_bytes_per_task) [];
  match r with
  | Ok stacks => mret (Ok (stack_array stacks))
  | Err allocated =>
      available ← expect (let n := Z.of_nat (length allocated) * required.(stack_bytes_per_task) in
                          if n <=? usize_max then Some n else None);
      mret (Err (InsufficientTaskStackMemory required.(total_stack_bytes) available))
  end.

(** The stacks of the groups of a plan, in order. *)
Definition release_groups (groups : list (list Z)) : M (Rtos H) unit :=
  for_each groups (λ stacks, for_each stacks (λ stack, when (negb (stack =? 0)) (deallocate stack))).

(** One group of [preallocate_task_resource_plan]; [before] are the groups already
    complete. *)
Fixpoint preallocate_group (n : nat) (group : TaskResourceGroup) (before : list (list Z)) (done_ : list Z) :
    M (Rtos H) (result TaskAdmissionError (list Z)) :=
  match n with
  | O => mret (Ok done_)
  | S n =>
      let required := group.(resources) in
      stack ← allocate required.(stack_bytes_per_task);
      if stack =? 0 then
        available ← expect (let a := Z.of_nat (length done_) * required.(stack_bytes_per_task) in
                            if a <=? usize_max then Some a else None);
        largest_contiguous ← largest_allocatable_stack;
        release_groups (before ++ [done_]) ;;
        mret (Err (InsufficientTaskGroupStackMemory group.(owner) required.(total_stack_bytes)
          available largest_contiguous))
      else
        (* preallocated.stacks[group][slot] *)
        assert_ (Z.of_nat (length done_) <? DYNAMIC_TASK_CAPACITY) ;;
        preallocate_group n group before (done_ ++ [stack])
  end.

(** [group_capacity] is the contract's [TASK_RESOURCE_GROUP_CAPACITY]. *)
Fixpoint preallocate_task_resource_plan (group_capacity : Z) (groups : TaskResourcePlan) (before : list (list Z)) :
    M (Rtos H) (result TaskAdmissionError (list (list Z))) :=
  match groups with
  | [] => mret (Ok before)
  | group :: groups =>
      assert_ (Z.of_nat (length before) <? group_capacity) ;;
      stacks ←? preallocate_group (Z.to_nat group.(resources).(task_slots)) group before [];
      preallocate_task_resource_plan group_capacity groups (before ++ [stacks])
  end.

(** ** Admission *)

Definition reserve_tasks (required : Z) : M (Rtos H) (result TaskAdmissionError TaskReservation) :=
  capacity ← dynamic_capacity;
  in_world (reserve_dynamic_slots_with_capacity required capacity).

Definition reserve_task_resources (required : TaskResourceRequirements) :
    M (Rtos H) (result TaskAdmissionError TaskReservation) :=
  stacks ←? preallocate_task_stacks required;
  let allocated := Z.min required.(task_slots) DYNAMIC_TASK_CAPACITY in
  capacity ← dynamic_capacity;
  r ← in_world (reserve_dynamic_task_resources_with_capacity required stacks capacity);
  when (is_err r) (for_each (take (Z.to_nat allocated) stacks) deallocate) ;;
  mret r.

Definition reserve_task_resource_plan (group_capacity : Z) (plan : TaskResourcePlan) :
    M (Rtos H) (result TaskAdmissionError (list TaskReservation)) :=
  groups ←? preallocate_task_resource_plan group_capacity plan [];
  capacity ← dynamic_capacity;
  r ← in_world (reserve_dynamic_task_resource_plan_with_capacity plan (stack_array <$> groups) capacity);
  when (is_err r) (release_groups groups) ;;
  mret r.

Definition release_reservation (reservation : TaskReservation) : M (Rtos H) (result DriverError unit) :=
  released ←? in_world (release_task_reservation reservation);
  stacks ← expect (slice released.(released_stacks) 0 released.(released_count));
  for_each stacks deallocate ;;
  mret (Ok tt).

End Stacks.

(** ** Policies *)

Definition map_execution_policy (policy : TaskExecutionPolicy) (ported : bool) : result DriverError RunPolicy :=
  match policy with
  | ExecCooperative => Ok Cooperative
  | ExecBudgeted capacity period =>
      if negb ported then Err IncompatibleExecutionProfile
      else match try_new capacity period with
           | Some spec => Ok (Budgeted spec)
           | None => Err IncompatibleContract
           end
  | ExecPreemptive time_slice_ms =>
      if negb ported then Err IncompatibleExecutionProfile else Ok (Preemptive time_slice_ms)
  end.

Definition semaphore_state_has_waiters (state : SemState) : bool :=
  negb (state.(sem_wait_head) =? NIL) || negb (state.(sem_wait_tail) =? NIL).

Definition mutex_state_is_busy (state : MutexState) : bool :=
  negb (state.(mtx_owner) =? NIL) || negb (state.(mtx_wait_head) =? NIL) || negb (state.(mtx_wait_tail) =? NIL).

(** ** Critical sections *)

(** [set_task_priority] *)
Definition set_task_priority_locked (task : TaskId) (priority : Z) : M World (result DriverError unit) :=
  slot ←? live_task task;
  set_task slot (λ t, t <| t_base_priority := priority |>) ;;
  refresh_inherited_priority slot 0 ;;
  mret (Ok tt).

(** [cancel_wait]: the outcome and whether to request a reschedule. *)
Definition cancel_wait_section (interrupt_depth : Z) (task : TaskId) (now : Z) :
    M World (result DriverError (WaitCancellationOutcome * bool)) :=
  if negb (interrupt_depth =? 0) then mret (Err InvalidContext)
  else
    slot ←? live_task task;
    outcome ← cancel_wait_locked slot now;
    mret (Ok (outcome, bool_decide (outcome = Cancelled))).

(** [unlock_scheduler] *)
Definition unlock_scheduler_locked (ported : bool) (now : Z) : M World (result DriverError (option SwitchIntent)) :=
  target ←? unlock_current_and_take_preemption now;
  match target with
  | None => mret (Ok None)
  | Some (current, next) => intent ← prepare_switch ported current next; mret (Ok (Some intent))
  end.

(** [scheduler.tasks.iter().any(|task| task.granted_sem == pointer)] *)
Definition pending_grant (pointer : Z) : M World bool :=
  ts ← sched_gets s_tasks; mret (existsb (λ t, t.(t_granted_sem) =? pointer) ts).

Section Driver.
  Context {H : Type} `{StackHeap H, Outside} (im : Image) (initial_tp initial_fcsr : Z).
  (** The sizes of the objects behind handles. *)
  Context (semaphore_size mutex_size : Z).

(** The values of the contract crate. *)
Definition execution_profile {Profile : Type} (V1_PORTED V1_PORTLESS_COOPERATIVE : Profile) : M (Rtos H) Profile :=
  ported ← is_ported; mret (if ported : bool then V1_PORTED else V1_PORTLESS_COOPERATIVE).

Definition task_capacity {Capacity : Type} (new_with_reserved : Z → Z → Z → option Capacity) :
    M (Rtos H) (result DriverError Capacity) :=
  capacity ← dynamic_capacity;
  d ← in_world (diagnostics_with_capacity capacity);
  mret (ok_or (new_with_reserved d.(d_dynamic_capacity) d.(d_dynamic_used) d.(d_dynamic_reserved)) Runtime).

(** The entry points [diagnostics] and [task_diagnostics] of [runtime.rs]. *)
Definition runtime_diagnostics : M (Rtos H) Diagnostics :=
  capacity ← dynamic_capacity; in_world (diagnostics_with_capacity capacity).
Definition runtime_task_diagnostics (output : list TaskDiagnostic) : M (Rtos H) (list TaskDiagnostic * Z) :=
  now ← now_ms; in_world (task_diagnostics output now).

Definition enter_interrupt : M (Rtos H) (result DriverError unit) := interrupt_enter ;; mret (Ok tt).
Definition exit_interrupt : M (Rtos H) (result DriverError unit) := interrupt_exit ;; mret (Ok tt).

Definition current_task : M (Rtos H) (result DriverError TaskId) := in_world current_task_handle.

Definition spawned_id (slot : Z) : M (Rtos H) (result DriverError TaskId) :=
  generation ← in_world (tget t_identity_generation slot); mret (encode_task_id slot generation).

(** [spawn], [spawn_scheduled], [spawn_reserved] and [spawn_reserved_scheduled]. *)
Definition spawn_task (entry arg stack_size_ priority : Z) (policy : option TaskExecutionPolicy)
    (reservation : option TaskReservation) : M (Rtos H) (result DriverError TaskId) :=
  s ← start_state;
  ported ← is_ported;
  run_policy ←? mret (match policy with
                      | None => Ok s.(st_config).(sc_radio_task_policy)
                      | Some policy => map_execution_policy policy ported
                      end);
  slot ←? spawn im initial_tp initial_fcsr entry arg stack_size_ priority run_policy reservation;
  spawned_id slot.

Definition set_task_priority (task : TaskId) (priority : Z) : M (Rtos H) (result DriverError unit) :=
  in_world (set_task_priority_locked task priority).

Definition cancel_wait (task : TaskId) : M (Rtos H) (result DriverError WaitCancellationOutcome) :=
  match decode_task_id task with
  | Err e => mret (Err e)
  | Ok _ =>
      now ← now_ms;
      depth ← gets r_interrupt_depth;
      r ←? in_world (cancel_wait_section depth task now);
      when r.2 request_reschedule ;;
      rearm_timer ;;
      mret (Ok r.1)
  end.

Definition lock_scheduler : M (Rtos H) (result DriverError unit) :=
  _ ←? ensure_switch_delivery;
  now ← now_ms;
  r ← in_world (lock_current now);
  when (is_ok r) rearm_timer ;;
  mret r.

Definition unlock_scheduler : M (Rtos H) (result DriverError switch_result) :=
  _ ←? ensure_switch_delivery;
  now ← now_ms;
  ported ← is_ported;
  preemption ←? in_world (unlock_scheduler_locked ported now);
  r ← (match preemption with Some intent => execute_switch intent | None => mret Resumed end);
  (match r with Resumed => rearm_timer | AwaitTrap _ _ | SwapContexts _ _ => mret tt end) ;;
  mret (Ok r).

(** What the task does when it is back. *)
Definition after_unlock : M (Rtos H) unit := rearm_timer.

(** *** Handles *)

Definition resource_pointer (handle : Z) (kind : ResourceKind) : M (Rtos H) (result DriverError Z) :=
  in_handles (Resource.resolve handle kind).
(** A reference to an object is its address. *)
Definition semaphore_from_handle (handle : Z) : M (Rtos H) (result DriverError Z) := resource_pointer handle KSemaphore.
Definition mutex_from_handle (handle : Z) : M (Rtos H) (result DriverError Z) := resource_pointer handle KMutex.

(** *** Semaphores *)

Definition new_semaphore (pointer count : Z) : M (Rtos H) unit :=
  in_world (modify (λ w, w <| w_sems ::= <[ pointer := SemState_new count ]> |>)).
Definition new_mutex (pointer : Z) : M (Rtos H) unit :=
  in_world (modify (λ w, w <| w_mutexes ::= <[ pointer := MutexState_new ]> |>)).

Definition semaphore_create (initial : Z) : M (Rtos H) (result DriverError Z) :=
  if i32_max <? initial then mret (Err Runtime)
  else
    pointer ← allocate semaphore_size;
    if pointer =? 0 then mret (Err ResourceExhausted)
    else
      new_semaphore pointer initial ;;
      handle ← in_handles (Resource.insert pointer KSemaphore);
      when (is_err handle) (deallocate pointer) ;;
      mret handle.

Definition timeout_ms (timeout : WaitTimeout) : Z :=
  match timeout with NoWait => 0 | Milliseconds value => value | Forever => u32_max end.

(** [Semaphore::down_timeout] up to the switch. *)
Definition semaphore_down (handle : Z) (timeout : WaitTimeout) :
    M (Rtos H) (result DriverError (option bool * switch_result)) :=
  pointer ←? semaphore_from_handle handle;
  delivery ← ensure_switch_delivery;
  ported ← is_ported;
  if timeout_ms timeout =? u32_max then
    intent ←? in_world (down ported (is_ok delivery) pointer);
    match intent with
    | None => mret (Ok (Some true, Resumed))
    | Some intent => r ← execute_switch intent; mret (Ok (None, r))
    end
  else
    now ← now_ms;
    r ←? in_world (down_timeout ported (is_ok delivery) pointer (timeout_ms timeout)
      (saturating_add u64_max now (timeout_ms timeout)));
    match r with
    | (immediate, intent) =>
        when (match intent with Some _ => true | None => false end) rearm_timer ;;
        match immediate with
        | Some b => mret (Ok (Some b, Resumed))
        | None => intent ← expect intent; r ← execute_switch intent; mret (Ok (None, r))
        end
    end.

(** What the task does when it is back: it consumes its grant. *)
Definition after_down : M (Rtos H) WaitOutcome :=
  granted ← in_world (current ← sched_gets s_current; consume_semaphore_grant_locked current);
  mret (if granted : bool then Acquired else TimedOut).

Definition semaphore_up (handle : Z) : M (Rtos H) (result DriverError unit) :=
  pointer ←? semaphore_from_handle handle;
  now ← now_ms;
  depth ← gets r_interrupt_depth;
  request ← in_world (up pointer now depth);
  when request request_reschedule ;;
  rearm_timer ;;
  mret (Ok tt).

Definition semaphore_destroy (handle : Z) : M (Rtos H) (result DriverError unit) :=
  pointer ←? in_handles (Resource.resolve handle KSemaphore);
  state ← in_world (sem_at pointer);
  granted ← in_world (pending_grant pointer);
  if semaphore_state_has_waiters state || granted then mret (Err InvalidContext)
  else
    pointer ←? in_handles (Resource.remove handle KSemaphore);
    in_world (modify (λ w, w <| w_sems ::= delete pointer |>)) ;;
    deallocate pointer ;;
    mret (Ok tt).

(** *** Mutexes *)

Definition mutex_create : M (Rtos H) (result DriverError Z) :=
  pointer ← allocate mutex_size;
  if pointer =? 0 then mret (Err ResourceExhausted)
  else
    new_mutex pointer ;;
    handle ← in_handles (Resource.insert pointer KMutex);
    when (is_err handle) (deallocate pointer) ;;
    mret handle.

(** [RtosMutex::lock] up to the switch. *)
Definition mutex_lock (handle : Z) (timeout : WaitTimeout) :
    M (Rtos H) (result DriverError (option bool * switch_result)) :=
  pointer ←? mutex_from_handle handle;
  delivery ← ensure_switch_delivery;
  ported ← is_ported;
  now ← now_ms;
  r ←? in_world (lock ported (is_ok delivery) pointer (timeout_ms timeout)
    (saturating_add u64_max now (timeout_ms timeout)));
  match r with
  | (immediate, intent) =>
      when (match intent with Some _ => true | None => false end) rearm_timer ;;
      match immediate with
      | Some b => mret (Ok (Some b, Resumed))
      | None => intent ← expect intent; r ← execute_switch intent; mret (Ok (None, r))
      end
  end.

Definition after_lock : M (Rtos H) WaitOutcome :=
  granted ← in_world consume_mutex_grant_locked; mret (if granted : bool then Acquired else TimedOut).

Definition mutex_unlock (handle : Z) : M (Rtos H) (result DriverError unit) :=
  pointer ←? mutex_from_handle handle;
  now ← now_ms;
  depth ← gets r_interrupt_depth;
  request ←? in_world (unlock pointer now depth);
  when request request_reschedule ;;
  rearm_timer ;;
  mret (Ok tt).

Definition mutex_destroy (handle : Z) : M (Rtos H) (result DriverError unit) :=
  pointer ←? in_handles (Resource.resolve handle KMutex);
  state ← in_world (mutex_at pointer);
  if mutex_state_is_busy state then mret (Err InvalidContext)
  else
    pointer ←? in_handles (Resource.remove handle KMutex);
    in_world (modify (λ w, w <| w_mutexes ::= delete pointer |>)) ;;
    deallocate pointer ;;
    mret (Ok tt).

End Driver.
