(* ===== verification/Birth.v ===== *)
(** * The life of a task ([src/runtime.rs])

    Task identities, starting the runtime, and creating a task. A free slot keeps
    nothing of its last life that the invariants read ([vacant]), so that a new task can
    be installed in it without touching anyone else. *)

From stdpp Require Import sorting.
From S2P Require Import Prelude Effects Budget Contract Config Context Reservation.
From S2P Require Import Tcb Store Chain Ready Wait Switch Invariant Dispatch Inherit Donation Sync.
From S2P Require Import Moves Permit Slide Lean Handoff Mutex Lock Acquire Exclusion.
From S2P Require Import Timer Frame Touch Wake Slots Statics Tasks.

(** ** Identities *)

Definition identity_ok (slot generation : Z) : Prop := slot_in slot ∧ 1 <= generation <= u16_max.

Lemma encode_task_id_Ok slot generation id :
  identity_ok slot generation → encode_task_id slot generation = Ok id ↔ id = generation * 256 + slot.
Proof.
  unfold identity_ok, slot_in, encode_task_id, u16_max. rewrite slot_count_value. intros [Hs Hg].
  change TASK_SLOT_MASK with 255. unfold u32_max.
  rewrite (proj2 (Z.leb_gt _ _)), (proj2 (Z.ltb_ge 255 _)), (proj2 (Z.eqb_neq _ _)), (proj2 (Z.ltb_ge _ _)) by lia. cbn [orb].
  change TASK_SLOT_BITS with 8. rewrite lor_shiftl_pack by lia. change (2 ^ 8) with 256.
  split; [by intros [= <-]|by intros ->].
Qed.

Lemma decode_task_id_Ok id slot generation :
  0 <= id <= u32_max → decode_task_id id = Ok (slot, generation) ↔
    identity_ok slot generation ∧ id = generation * 256 + slot.
Proof.
  intros Hid. unfold decode_task_id, identity_ok, slot_in. rewrite slot_count_value.
  change TASK_SLOT_MASK with (Z.shiftl 1 8 - 1). rewrite land_mask by lia.
  change TASK_SLOT_BITS with 8. rewrite Z.shiftr_div_pow2 by lia. change (2 ^ 8) with 256.
  pose proof (Z.div_mod id 256 ltac:(lia)). pose proof (Z.mod_pos_bound id 256 ltac:(lia)).
  assert (0 <= id / 256) by (apply Z.div_pos; lia). unfold usize_max, u16_max, u32_max in *.
  assert (id = generation * 256 + slot → 0 <= slot < 17 → id / 256 = generation ∧ id mod 256 = slot) as Hun.
  { intros -> ?. by rewrite pack_div, pack_mod by lia. }
  destruct (Z.ltb_spec 4294967295 (id mod 256)); [lia|].
  destruct (Z.ltb_spec 65535 (id / 256)); [split; [done|intros [? E]; destruct (Hun E); lia]|].
  destruct (Z.leb_spec 17 (id mod 256)); [split; [done|intros [? E]; destruct (Hun E); lia]|].
  destruct (Z.eqb_spec (id / 256) 0); [split; [done|intros [? E]; destruct (Hun E); lia]|]. cbn [orb].
  split; [intros [= <- <-]; lia|]. intros [? E]. destruct (Hun E) as [-> ->]; [lia|done].
Qed.

(** What an identity stands for: the task in that slot, in that life, while it lives. *)
Lemma live_task_spec w id (Q : result DriverError Z → World → Prop) :
  shape w → 0 <= id <= u32_max →
  Q (match decode_task_id id with
     | Ok (slot, generation) =>
         if state_eqb (t_state (T w slot)) Free || negb (t_identity_generation (T w slot) =? generation)
         then Err InvalidHandle else Ok slot
     | Err e => Err e
     end) w → wp (live_task id) Q w.
Proof.
  intros Hs Hid HQ. unfold live_task. wp_steps. destruct (decode_task_id id) as [[slot generation]|e] eqn:E; [|done].
  apply decode_task_id_Ok in E as [[Hi _] _]; [|done]. apply wp_bind, wp_task_at; [done..|]. by wp_steps.
Qed.

(** C32: Task identities (RTOS-ID-001, RTOS-ID-002): a slot of the table and a non-zero
    16-bit generation are packed into an identity and recovered from it, and nothing else
    is. An identity resolves exactly while its slot is in the life it names: one of an
    earlier life, of a free slot or of no slot is refused, and resolving changes nothing. *)
Theorem task_identity_roundtrip (w : World) (id slot generation : Z) :
  shape w → 0 <= id <= u32_max →
  (identity_ok slot generation → encode_task_id slot generation = Ok id ↔ decode_task_id id = Ok (slot, generation)) ∧
  (0 <= slot → 0 <= generation <= u16_max → ¬ identity_ok slot generation → encode_task_id slot generation = Err InvalidHandle) ∧
  wp (live_task id) (λ r w', w' = w ∧ (r = Ok slot ↔
    decode_task_id id = Ok (slot, t_identity_generation (T w slot)) ∧ t_state (T w slot) ≠ Free)) w.
Proof.
  intros Hs Hid. split_and!.
  - intros Hok. rewrite encode_task_id_Ok, decode_task_id_Ok by done. tauto.
  - intros Hnn Hg Hno. unfold encode_task_id.
    destruct (Z.leb_spec TASK_SLOT_COUNT slot); [done|]. destruct (_ <? slot); [done|].
    destruct (Z.eqb_spec generation 0); [done|]. destruct Hno. unfold identity_ok, slot_in. lia.
  - apply live_task_spec; [done..|]. split; [done|]. unfold state_eqb.
    destruct (decode_task_id id) as [[s g]|e] eqn:E; [|naive_solver].
    case_bool_decide as Ef; cbn [orb]; [naive_solver|].
    destruct (Z.eqb_spec (t_identity_generation (T w s)) g); cbn [negb]; naive_solver.
Qed.

Lemma task_identity_roundtrip_witness :
  (identity_ok 4 1 → encode_task_id 4 1 = Ok 260 ↔ decode_task_id 260 = Ok (4, 1)) ∧
  (0 <= 4 → 0 <= 1 <= u16_max → ¬ identity_ok 4 1 → encode_task_id 4 1 = Err InvalidHandle) ∧
  wp (live_task 260) (λ r w', w' = ready_three ∧ (r = Ok 4 ↔
    decode_task_id 260 = Ok (4, t_identity_generation (T ready_three 4)) ∧ t_state (T ready_three 4) ≠ Free)) ready_three.
Proof.
  apply (task_identity_roundtrip ready_three 260 4 1); [|done].
  exact (owned_shape _ _ _ ready_three_owned).
Defined.

(** ** Free slots *)

(** What a new task inherits from the last life of its slot. *)
Record vacant (t : Tcb) : Prop := {
  vacant_grants : t_granted_sem t = 0 ∧ t_granted_mutex t = 0;
  vacant_inherited : t_inherited_waiters t = replicate 32 0;
}.

(** Installing a task: its priority and identity are new, its waits and grants are not. *)
Record installs (g : Tcb → Tcb) (p : Z) : Prop := {
  installs_base t : t_base_priority (g t) = p ∧ t_priority (g t) = p;
  installs_same t : t_state (g t) = t_state t ∧ t_next (g t) = t_next t ∧ t_inherited_waiters (g t) = t_inherited_waiters t ∧
    t_waiting_sem (g t) = t_waiting_sem t ∧ t_waiting_mutex (g t) = t_waiting_mutex t ∧
    t_granted_sem (g t) = t_granted_sem t ∧ t_granted_mutex (g t) = t_granted_mutex t ∧
    t_sem_granted (g t) = t_sem_granted t;
}.

Lemma free_detached w q i : owned w q None → slot_in i → t_state (T w i) = Free → detached q i.
Proof.
  intros Ho Hi Hst. destruct (owned_not_waiting w q None i Ho Hi) as [? ?]; [by rewrite Hst|].
  apply (owned_detached w q None); try done. apply (owned_not_queued w q None); [done..|by rewrite Hst].
Qed.

Lemma owned_installed w q i g p :
  owned w q None → slot_in i → t_state (T w i) = Free → i ≠ current w → installs g p → 0 <= p < PRIORITY_LEVELS →
  owned (upd_task i g w) q None.
Proof.
  intros Hw Hi Hst Hne [G1 G2] Hp. pose proof (free_detached w q i Hw Hi Hst) as Hd.
  pose proof Hw as [Hq Ho]. pose proof (owned_shape w q None Hw) as Hs. set (w' := upd_task i g w).
  destruct (owned_not_waiting w q None i Hw Hi) as [Hws Hwm]; [by rewrite Hst|].
  assert (∀ j, j ≠ i → T w' j = T w j) as HT by (intros j Hj; unfold w'; by rewrite T_upd_ne).
  assert (T w' i = g (T w i)) as HTi by (unfold w'; by rewrite T_upd_eq).
  destruct (G1 (T w i)) as [B1 B2], (G2 (T w i)) as (S1 & S2 & S3 & S4 & S5 & _).
  assert (¬ is_target w i) as Hnt.
  { intros H. destruct (placed_target w q None i (owned_placed w q None Ho i Hi) H). congruence. }
  split; [apply queues_upd_task; [apply G2|done]|]. split.
  - intros j Hj. destruct (decide (j = i)) as [->|Hji].
    + apply placed_detached; unfold priority_ok; rewrite ?HTi, ?S1, ?B2, ?S4, ?S5, ?Hst; try done.
      intros ->. by destruct (placed_idle w q None _ (owned_placed w q None Ho _ idle_slot_in) eq_refl); congruence.
    + apply (placed_ext w w' q q None None j); try done; [by split; rewrite HT| |by apply Ho].
      intros Hr. by apply (placed_running w q None j (owned_placed w q None Ho j Hj)).
  - intros x Hx. destruct (owned_pending w q None Ho x Hx) as ([R1 R2] & [R3 R4] & R5).
    assert (ref_slot (ps_target x) ≠ i) as N1.
    { intros E. apply Hnt. unfold is_target. change (pending w') with (pending w) in Hx. by rewrite Hx. }
    assert (ref_slot (ps_previous x) ≠ i) as N2 by congruence.
    unfold ref_current. by rewrite !HT.
  - apply Ho.
  - done.
Qed.

Lemma inherited_vacant t p :
  t_base_priority t = p → t_inherited_waiters t = replicate 32 0 → inherited_priority t = p.
Proof. intros Hb Hi. unfold inherited_priority. rewrite Hi, Hb. simpl. lia. Qed.

Lemma inheritance_installed w q i g p :
  owned w q None → inheritance w None → slot_in i → t_state (T w i) = Free → installs g p →
  0 <= p < PRIORITY_LEVELS → vacant (T w i) → inheritance (upd_task i g w) None.
Proof.
  intros Hw [H1 [H2 H3] H4 H5 H6] Hi Hst [G1 G2] Hp [_ Hv]. pose proof (owned_shape w q None Hw) as Hs.
  destruct (owned_not_waiting w q None i Hw Hi) as [_ Hwm]; [by rewrite Hst|]. set (w' := upd_task i g w).
  assert (∀ j, j ≠ i → T w' j = T w j) as HT by (intros j Hj; unfold w'; by rewrite T_upd_ne).
  assert (T w' i = g (T w i)) as HTi by (unfold w'; by rewrite T_upd_eq).
  assert (∀ j, t_waiting_mutex (T w' j) = t_waiting_mutex (T w j)) as Hm by (intros j; apply T_upd_field; intros t; apply G2).
  assert (∀ j, t_inherited_waiters (T w' j) = t_inherited_waiters (T w j)) as Hinh by (intros j; apply T_upd_field; intros t; apply G2).
  assert (∀ j, owner_of w' j = owner_of w j) as Hown by (intros j; unfold owner_of; by rewrite Hm).
  assert (owner_of w i = NIL) as Hni by (unfold owner_of; by rewrite Hwm).
  split.
  - intros o Ho. destruct (decide (o = i)) as [->|Hne]; [|by rewrite HT; auto]. rewrite HTi. by destruct (G1 (T w i)) as [-> _].
  - split; [intros o Ho; by rewrite Hinh; apply H2|]. intros o x Ho Hx. rewrite Hinh, H3 by done. f_equal. symmetry.
    apply tally_ext; [|intros j Hj; by rewrite Hown]. intros j Hj E. rewrite Hown. split; [done|]. unfold prio. rewrite HT; [done|].
    intros ->. rewrite Hni in E. by apply slot_in_not_NIL in Ho.
  - intros o Ho _. destruct (decide (o = i)) as [->|Hne]; [|by rewrite HT; auto].
    rewrite HTi. destruct (G1 (T w i)) as [B1 ->]. symmetry. apply inherited_vacant; [done|].
    by rewrite <-HTi, Hinh.
  - destruct H5 as [R1 R2]. split; [|done]. intros j Hj. rewrite Hm. by apply R1.
  - by apply (same_donors_acyclic w).
Qed.

Lemma kernel_installed w q i g p :
  kernel w q → slot_in i → t_state (T w i) = Free → i ≠ current w → installs g p → 0 <= p < PRIORITY_LEVELS →
  vacant (T w i) → kernel (upd_task i g w) q ∧ ∀ a, permits (upd_task i g w) a = permits w a.
Proof.
  intros [[Ho Hso Hse Hgr] Hinh Hmu] Hi Hst Hne Hg Hp Hv. pose proof (owned_shape w q None Ho) as Hs.
  pose proof (free_detached w q i Ho Hi Hst) as Hd. pose proof Hg as [_ G2].
  set (w' := upd_task i g w).
  assert (∀ j, t_granted_sem (T w' j) = t_granted_sem (T w j)) as Hgs by (intros j; apply T_upd_field; intros t; apply G2).
  assert (∀ j, t_granted_mutex (T w' j) = t_granted_mutex (T w j)) as Hgm by (intros j; apply T_upd_field; intros t; apply G2).
  split; [split; [split|..]|intros a; by apply permits_same].
  - by apply (owned_installed w q i g p).
  - assert (∀ id, sorted_waits w (q id) → sorted_waits w' (q id)) as Hsorted; [|by intros a; split; apply Hsorted, Hso].
    intros id. apply sorted_waits_ext. intros j Hj. unfold w'. rewrite T_upd_ne; try done. intros ->. by apply (Hd id).
  - by apply (sems_same w w' q q).
  - destruct Hgr as [A1 A2 A3].
    assert (∀ j, t_waiting_sem (T w' j) = t_waiting_sem (T w j)) as E1 by (intros j; apply T_upd_field; intros t; apply G2).
    assert (∀ j, t_waiting_mutex (T w' j) = t_waiting_mutex (T w j)) as E2 by (intros j; apply T_upd_field; intros t; apply G2).
    assert (∀ j, t_sem_granted (T w' j) = t_sem_granted (T w j)) as E3 by (intros j; apply T_upd_field; intros t; apply G2).
    split; intros j Hj; rewrite ?Hgs, ?Hgm, ?E1, ?E2, ?E3; auto.
  - by apply (inheritance_installed w q i g p).
  - by apply (mutexes_same w w' q q).
Qed.

(** ** Creating a task *)

(** Bookkeeping of the scheduler that no invariant reads. *)
Lemma kernel_sched w q g :
  (∀ s, s_tasks (g s) = s_tasks s) → (∀ s, s_ready_head (g s) = s_ready_head s) →
  (∀ s, s_ready_tail (g s) = s_ready_tail s) →
  (∀ s, length (s_slot_generations (g s)) = length (s_slot_generations s)) →
  (∀ s, length (s_retired_stacks (g s)) = length (s_retired_stacks s)) →
  (∀ s, s_pending_switch (g s) = s_pending_switch s) → (∀ s, s_current (g s) = s_current s) →
  kernel w q → kernel (w <| w_sched ::= g |>) q.
Proof.
  intros H1 H2 H3 H4 H5 H6 H7 Hk. apply (kernel_unseen w _ q q None None Hk); [|by apply owned_sched, (kernel_owned w q None)|done].
  by apply quiet_unseen, quiet_sched.
Qed.

Definition spawn_refused (w : World) (c : Z) (reservation : option TaskReservation) (e : DriverError) : Prop :=
  match reservation with
  | None => e = NoTaskSlots ∧ free_count w c = total_remaining (reservations w)
  | Some r => match promise (reservations w) r with
              | None => e = InvalidHandle
              | Some entry => e_remaining entry = 0 ∧ e = NoTaskSlots
              end
  end.

(** The stack a reservation brings along. *)
Definition promised_stack (w : World) (reservation : option TaskReservation) : option ReservedStack :=
  r ← reservation; entry ← promise (reservations w) r; consumed_stack entry.

Lemma take_slot_spec w c reservation :
  shape w → capacity_ok c → slots_ok w c →
  wp (take_slot reservation c) (λ r w', match r with
    | Err e => w' = w ∧ spawn_refused w c reservation e
    | Ok (i, stack) => head (free_slots w c) = Some i ∧ stack = promised_stack w reservation ∧
        (∀ e, ¬ spawn_refused w c reservation e) ∧
        ∃ t', w' = set_reservations t' w ∧ table_ok t' ∧ total_remaining t' < free_count w c
    end) w.
Proof.
  intros Hs Hc Hok. destruct reservation as [r|]; cbn [take_slot].
  - wp_apply (alloc_reserved_spec w c r Hs Hc Hok). intros res w' H. unfold spawn_refused, promised_stack. cbn [mbind option_bind].
    destruct (promise (reservations w) r) as [e|]; [|by destruct H as [-> ->]].
    destruct (Z.eqb_spec (e_remaining e) 0); [by destruct H as [-> ->]|].
    destruct H as (i & t' & Hi & -> & -> & Ht' & Htot). destruct Hok as [Hok1 Hok2]. split_and!; [done|done|by intros ? []|].
    exists t'. split_and!; [done..|lia].
  - wp_steps. wp_apply (alloc_dynamic_spec w c Hs Hc Hok). intros [i|e] w' [-> H]; wp_steps.
    + destruct H. split_and!; [done|done|by intros ? []; lia|]. exists (reservations w). split_and!; [by rewrite set_reservations_same|apply Hok|done].
    + done.
Qed.

Lemma kernel_set_generation w q i v (Q : unit → World → Prop) :
  kernel w q → slot_in i →
  (∀ w', kernel w' q → w' = w <| w_sched ::= λ s, s <| s_slot_generations ::= λ l, alter_at (λ _, v) l i |> |> → Q tt w') →
  wp (set_generation i v) Q w.
Proof.
  intros Hk Hi HQ. pose proof (owned_shape w q None (kernel_owned w q None Hk)) as [_ _ _ Hg _].
  unfold set_generation. wp_steps. apply wp_sched_gets. wp_steps.
  destruct (proj2 (idx_is_Some (s_slot_generations (w_sched w)) i)) as [x Hx]; [unfold in_range, slot_in in *; lia|].
  eapply wp_expect; [done|]. apply wp_sched_modify, HQ; [|done].
  apply kernel_sched; try done. intros s. simpl. apply length_alter_at.
Qed.

Definition free_vacant (w : World) : Prop := ∀ i, slot_in i → t_state (T w i) = Free → vacant (T w i).

(** The generation of the new life. *)
Definition next_life (w : World) (i : Z) : Z :=
  Z.max (wrapping_add u16_max (at_ 0 (s_slot_generations (w_sched w)) i) 1) 1.

(** The TCB of the new task, but for its link. *)
Definition born (im : Image) (trap : bool) (tp fcsr stack size entry arg priority : Z) (policy : RunPolicy)
    (now generation : Z) (t : Tcb) : Tcb :=
  let top := align_down16 (stack + size) in
  let t := if trap then t <| t_saved_frame := top - 272 |> else t in
  readied now (new_task (initial_context im.(im_trampoline) top tp fcsr) stack size entry arg priority generation policy now t).

Lemma installs_new_task context stack size entry arg priority generation policy now :
  installs (new_task context stack size entry arg priority generation policy now) priority.
Proof. by split. Qed.

(** What the caller of [spawn_locked] owes: a stack that is really there. *)
Record stack_fits (trap : bool) (stack size : Z) : Prop := {
  stack_not_null : stack ≠ 0;
  stack_end : stack + size <= usize_max;
  stack_frame : trap = true → 272 <= align_down16 (stack + size);
}.

Definition spawn_stack (w : World) (reservation : option TaskReservation) (allocated_stack : Z) : Z :=
  match promised_stack w reservation with Some stack => stack.(rs_pointer) | None => allocated_stack end.

(** The new task [i]. *)
Record spawned_task (w w' : World) (q : Queues) (c i : Z) (g : Tcb → Tcb) : Prop := {
  spawned_slot : head (free_slots w c) = Some i;
  spawned_kernel : kernel w' (enqueued w' i q);
  spawned_slots : slots_ok w' c;
  spawned_fields {A} (f : Tcb → A) : (∀ t v, f (t <| t_next := v |>) = f t) →
    ∀ j, f (T w' j) = if decide (i = j) then f (g (T w j)) else f (T w j);
  spawned_permits a : permits w' a = permits w a;
  spawned_generations j : at_ 0 (s_slot_generations (w_sched w')) j =
    if decide (i = j) then next_life w i else at_ 0 (s_slot_generations (w_sched w)) j;
}.

Lemma kernel_set_reservations w q t : kernel w q → kernel (set_reservations t w) q.
Proof. intros Hk. by apply kernel_sched. Qed.

Lemma vacant_saved_frame t v : vacant t → vacant (t <| t_saved_frame := v |>).
Proof. by intros [? ?]. Qed.

Lemma install_spec w q i (trap : bool) frame h p now :
  kernel w q → slot_in i → t_state (T w i) = Free → i ≠ current w → installs h p → 0 <= p < PRIORITY_LEVELS →
  vacant (T w i) → i ≠ IDLE_SLOT →
  wp (when trap (set_task i (λ t, t <| t_saved_frame := frame |>)) ;; set_task i h ;; make_ready i now)
    (λ _ w', kernel w' (enqueued w' i q) ∧ (∀ a, permits w' a = permits w a) ∧
      updated w w' i (λ t, readied now (h (if trap then t <| t_saved_frame := frame |> else t))) ∧
      held (upd_task i (λ t, h (if trap then t <| t_saved_frame := frame |> else t)) w) w') w.
Proof.
  intros Hk Hi Hst Hne Hh Hp Hv Hidle. pose proof (owned_shape w q None (kernel_owned w q None Hk)) as Hs.
  set (g := λ t : Tcb, if trap then t <| t_saved_frame := frame |> else t).
  assert (wp (when trap (set_task i (λ t, t <| t_saved_frame := frame |>)) ;; set_task i h)
    (λ _ w1, w1 = upd_task i (λ t, h (g t)) w) w) as H1.
  { unfold g. destruct trap; cbn [when]; go; [|done]. by rewrite upd_task_compose. }
  assert (installs (λ t, h (g t)) p) as Hg.
  { destruct Hh as [A B]. split; [intros t; apply A|]. intros t. destruct (B (g t)) as (-> & -> & -> & -> & -> & -> & -> & ->).
    unfold g. by destruct trap. }
  destruct (kernel_installed w q i _ p Hk Hi Hst Hne Hg Hp Hv) as [Hk1 Hp1].
  set (w1 := upd_task i (λ t, h (g t)) w) in *.
  pose proof (owned_shape w1 q None (kernel_owned w1 q None Hk1)) as Hs1.
  assert (t_state (T w1 i) = Free) as Hst1.
  { unfold w1. rewrite T_upd_eq by done. destruct Hg as [_ B]. by destruct (B (T w i)) as (-> & _). }
  apply wp_bind_inv in H1. apply wp_bind. eapply wp_mono; [|exact H1]. intros [] w0 H0. apply wp_bind.
  eapply wp_mono; [|exact H0]. intros [] w0' ->. clear H1 H0 w0.
  assert (keeps held (make_ready i now)) as K by (apply (keeps_make_ready held); held_allowed).
  eapply wp_mono; [|eapply wp_keeps; [exact K|]; exact (kernel_make_ready w1 q i now Hk1 Hi
    (free_detached w1 q i (kernel_owned w1 q None Hk1) Hi Hst1) ltac:(by rewrite Hst1))].
  intros [] w2 [(Hk2 & Hu2 & Hp2) Hh2]. split_and!; [|intros a; by rewrite Hp2| |done].
  - rewrite <-(enqueued_priority w2 w1); [done|]. rewrite (Hu2 _ t_priority), decide_True; done.
  - intros A f Hf j. rewrite Hu2 by done. unfold w1. rewrite T_upd_task by done. by case_decide.
Qed.

(** The store in which a new task is installed: its slot has left the table of
    promises and has its next generation. *)
Record new_life (w w2 : World) (q : Queues) (c i : Z) : Prop := {
  life_kernel : kernel w2 q;
  life_table : table_ok (reservations w2) ∧ total_remaining (reservations w2) < free_count w c;
  life_tasks j : T w2 j = T w j;
  life_current : current w2 = current w;
  life_sems : w_sems w2 = w_sems w;
  life_generations j : at_ 0 (s_slot_generations (w_sched w2)) j =
    if decide (i = j) then next_life w i else at_ 0 (s_slot_generations (w_sched w)) j;
}.

Lemma new_life_spec w q c i t' (Q : unit → World → Prop) :
  kernel w q → slot_in i → table_ok t' → total_remaining t' < free_count w c →
  (∀ w2, new_life w w2 q c i → Q tt w2) →
  wp (set_generation i (next_life w i)) Q (set_reservations t' w).
Proof.
  intros Hk Hi Ht' Htot HQ. pose proof (owned_shape w q None (kernel_owned w q None Hk)) as [_ _ _ Hg _].
  apply (kernel_set_generation _ q); [by apply kernel_set_reservations|done|]. intros w2 Hk2 E. apply HQ.
  split; [done|by rewrite E|by intros; rewrite E|by rewrite E|by rewrite E|]. intros j. rewrite E. simpl.
  destruct (decide (i = j)) as [<-|Hj]; [|by rewrite at_alter_ne].
  rewrite at_alter_eq; [done|]. unfold in_range, slot_in in *. lia.
Qed.

Lemma birth_spec w w2 q c i im (trap : bool) tp fcsr stack size entry arg priority policy now :
  new_life w w2 q c i → head (free_slots w c) = Some i → slot_in i → t_state (T w (current w)) ≠ Free →
  vacant (T w i) → 0 <= priority < PRIORITY_LEVELS →
  let top := align_down16 (stack + size) in
  wp (when trap (set_task i (λ t, t <| t_saved_frame := top - 272 |>)) ;;
      set_task i (new_task (initial_context im.(im_trampoline) top tp fcsr) stack size entry arg priority (next_life w i) policy now) ;;
      make_ready i now)
    (λ _ w', spawned_task w w' q c i
      (born im trap tp fcsr stack size entry arg priority policy now (next_life w i))) w2.
Proof.
  intros [Hk2 [Ht2 Htot] HT2 Hc2 Hs2 Hg2] Hi His Hcur Hv Hp top.
  pose proof (free_slots_elem_head w c i Hi) as Hin. pose proof Hin as [Hfree Hr]%elem_of_free_slots.
  eapply wp_mono; [|apply (install_spec w2 q i trap (top - 272)
    (new_task (initial_context im.(im_trampoline) top tp fcsr) stack size entry arg priority (next_life w i) policy now)
    priority now Hk2 His)]; rewrite ?HT2, ?Hc2; try done.
  2:{ intros E. congruence. }
  2:{ unfold IDLE_SLOT in *. lia. }
  intros [] w' (Hk' & Hp' & Hu' & [_ S']). split; [done|done| | | |].
  - assert (reservations w' = reservations w2) as Er by (unfold reservations; by rewrite (S' _ s_reservations)).
    split; rewrite Er; [done|]. rewrite (free_count_taken w w' c i Hin); [lia| |].
    + rewrite (Hu' _ t_state), decide_True; done.
    + intros j Hj. by rewrite (Hu' _ t_state), decide_False, HT2.
  - intros A f Hf j. rewrite Hu' by done. rewrite !HT2. unfold born. by case_decide.
  - intros a. rewrite Hp'. apply permits_same; [by rewrite Hs2|intros j; by rewrite HT2].
  - intros j. rewrite (S' _ s_slot_generations) by done. apply Hg2.
Qed.

Lemma initial_frame_spec (trap : bool) i top (k : World → Prop) w :
  (trap = true → 272 <= top) →
  wp (when trap (set_task i (λ t, t <| t_saved_frame := top - 272 |>))) (λ _ w', k w') w →
  wp (when trap (frame ← expect (irq_frame_address top); set_task i (λ t, t <| t_saved_frame := frame |>)))
    (λ _ w', k w') w.
Proof.
  intros Ht H. destruct trap; [|done]. cbn [when] in *. apply wp_bind. eapply wp_expect; [|exact H].
  unfold irq_frame_address, TASK_CONTEXT_WORDS, checked_sub. specialize (Ht eq_refl). by rewrite (proj2 (Z.leb_le _ _)).
Qed.

Lemma spawn_locked_spec im trap tp fcsr reservation c allocated size entry arg priority policy now w q :
  kernel w q → free_vacant w → t_state (T w (current w)) ≠ Free → capacity_ok c → slots_ok w c →
  0 <= priority < PRIORITY_LEVELS →
  ((∀ e, ¬ spawn_refused w c reservation e) → stack_fits trap (spawn_stack w reservation allocated) size) →
  wp (spawn_locked im trap tp fcsr reservation c allocated size entry arg priority policy now) (λ r w', match r with
    | Err e => w' = w ∧ spawn_refused w c reservation e
    | Ok i => (∀ e, ¬ spawn_refused w c reservation e) ∧ spawned_task w w' q c i
        (born im trap tp fcsr (spawn_stack w reservation allocated) size entry arg priority policy now (next_life w i))
    end) w.
Proof.
  intros Hk Hfv Hcur Hc Hok Hp Hstack. pose proof (owned_shape w q None (kernel_owned w q None Hk)) as Hs.
  unfold spawn_locked. wp_steps. wp_apply (take_slot_spec w c reservation Hs Hc Hok). intros [[i st]|e] w1 H; [|done].
  destruct H as (Hi & -> & Hnr & t' & -> & Ht' & Htot). cbn [fst snd].
  fold (spawn_stack w reservation allocated). destruct (Hstack Hnr) as [S1 S2 S3].
  set (stack := spawn_stack w reservation allocated) in *. clear Hstack.
  pose proof (free_slots_elem_head w c i Hi) as Hin. pose proof Hin as [Hfree Hr]%elem_of_free_slots.
  pose proof (dynamic_slot_in c i Hc Hr) as His.
  wp_steps. apply wp_assert; [by apply negb_true_iff, Z.eqb_neq|]. wp_steps.
  apply (wp_expect _ (stack + size)); [unfold checked_add; by rewrite (proj2 (Z.leb_le _ _))|]. wp_steps.
  apply wp_sched_gets. wp_steps.
  assert (in_range (s_slot_generations (w_sched w)) i) as Hgi.
  { destruct Hs as [_ _ _ Hg _]. unfold in_range, slot_in in *. lia. }
  eapply wp_expect; [by apply (idx_at 0)|]. wp_steps.
  apply (new_life_spec w q c i t'); [done..|]. intros w2 H2. wp_steps.
  pose proof (birth_spec w w2 q c i im trap tp fcsr stack size entry arg priority policy now H2 Hi His Hcur (Hfv i His Hfree) Hp) as Hb.
  cbv zeta in Hb. apply wp_bind_inv in Hb. eapply wp_mono; [|apply (initial_frame_spec trap i _ _ w2 S3 Hb)].
  intros [] w3 H3. cbv beta in H3. wp_steps. apply wp_bind_inv in H3. eapply wp_mono; [|exact H3].
  intros [] w4 H4. wp_steps. eapply wp_mono; [|exact H4]. intros [] w5 H5. by wp_steps.
Qed.

(** The generations are 16-bit counters. *)
Definition generations_ok (w : World) : Prop :=
  ∀ i, slot_in i → 0 <= at_ 0 (s_slot_generations (w_sched w)) i <= u16_max.

Lemma next_life_ok w i : generations_ok w → slot_in i →
  1 <= next_life w i <= u16_max ∧ next_life w i ≠ at_ 0 (s_slot_generations (w_sched w)) i.
Proof.
  intros Hg Hi. specialize (Hg i Hi). unfold next_life, wrapping_add. unfold u16_max in *.
  set (g := at_ 0 _ i) in *. destruct (decide (g = 65535)) as [->|]; [done|].
  rewrite Z.mod_small by lia. lia.
Qed.

(** The task [t] runs [entry arg] with this priority and policy and has not run yet. *)
Record fresh_task (t : Tcb) (entry arg priority : Z) (policy : RunPolicy) (now : Z) : Prop := {
  fresh_state : t_state t = Ready;
  fresh_entry : t_entry t = Some entry ∧ t_arg t = arg;
  fresh_priority : t_base_priority t = priority ∧ t_priority t = priority;
  fresh_policy : t_run_policy t = policy ∧ t_budget t = for_policy policy now;
  fresh_waits : t_waiting_sem t = 0 ∧ t_waiting_mutex t = 0 ∧ t_granted_sem t = 0 ∧ t_granted_mutex t = 0;
}.

(** Everything of a task but its link. *)
Definition unlinked (t : Tcb) : Tcb := t <| t_next := 0 |>.

Lemma spawned_fresh w w' q c i im trap tp fcsr stack size entry arg priority policy now :
  kernel w q → slot_in i → t_state (T w i) = Free → vacant (T w i) →
  spawned_task w w' q c i (born im trap tp fcsr stack size entry arg priority policy now (next_life w i)) →
  fresh_task (T w' i) entry arg priority policy now.
Proof.
  intros Hk Hi Hfree [[V1 V2] _] [_ _ _ F _ _].
  destruct (owned_not_waiting w q None i (kernel_owned w q None Hk) Hi) as [Hws Hwm]; [by rewrite Hfree|].
  assert (∀ A (f : Tcb → A), (∀ t v, f (t <| t_next := v |>) = f t) → f (T w' i) =
    f (born im trap tp fcsr stack size entry arg priority policy now (next_life w i) (T w i))) as Fi.
  { intros A f Hf. by rewrite (F A f Hf i), decide_True. }
  split; [by rewrite (Fi _ t_state)|by rewrite (Fi _ t_entry), (Fi _ t_arg)
    |by rewrite (Fi _ t_base_priority), (Fi _ t_priority)|by rewrite (Fi _ t_run_policy), (Fi _ t_budget)|].
  rewrite (Fi _ t_waiting_sem), (Fi _ t_waiting_mutex), (Fi _ t_granted_sem), (Fi _ t_granted_mutex) by done.
  unfold born. by destruct trap.
Qed.

(** C8: Creating a task (RTOS-ID-001, RTOS-POLICY-001, RTOS-ADMISSION-002): the critical
    section of [spawn] is refused only for want of a slot no reservation has promised, or
    for a reservation that is not live or used up, and then changes nothing. Otherwise
    the lowest free slot holds the new task, ready to run with its entry, priority,
    policy and budget and waiting for nothing, queued at its priority; no other task
    changes but for its link; permits, grants and the promises of other reservations
    are kept; and the slot enters a life different from its last one, under which the
    task's identity resolves. *)
Theorem spawn_installs_task (im : Image) (trap : bool) (tp fcsr : Z) (reservation : option TaskReservation)
    (c allocated size entry arg priority : Z) (policy : RunPolicy) (now : Z) (w : World) (q : Queues) :
  kernel w q → free_vacant w → generations_ok w → t_state (T w (current w)) ≠ Free → capacity_ok c → slots_ok w c →
  0 <= priority < PRIORITY_LEVELS →
  ((∀ e, ¬ spawn_refused w c reservation e) → stack_fits trap (spawn_stack w reservation allocated) size) →
  wp (spawn_locked im trap tp fcsr reservation c allocated size entry arg priority policy now) (λ r w', match r with
    | Err e => w' = w ∧ spawn_refused w c reservation e
    | Ok i => (∀ e, ¬ spawn_refused w c reservation e) ∧ head (free_slots w c) = Some i ∧
        fresh_task (T w' i) entry arg priority policy now ∧ kernel w' (enqueued w' i q) ∧
        (∀ j, j ≠ i → unlinked (T w' j) = unlinked (T w j)) ∧ (∀ a, permits w' a = permits w a) ∧
        free_vacant w' ∧ generations_ok w' ∧ slots_ok w' c ∧
        t_identity_generation (T w' i) = at_ 0 (s_slot_generations (w_sched w')) i ∧
        t_identity_generation (T w' i) ≠ at_ 0 (s_slot_generations (w_sched w)) i ∧
        ∃ id, encode_task_id i (t_identity_generation (T w' i)) = Ok id ∧ wp (live_task id) (λ r _, r = Ok i) w'
    end) w.
Proof.
  intros Hk Hfv Hgen Hcur Hc Hok Hp Hstack.
  eapply wp_mono; [|exact (spawn_locked_spec im trap tp fcsr reservation c allocated size entry arg priority policy now w q
    Hk Hfv Hcur Hc Hok Hp Hstack)]. intros [i|e] w' H; [|done]. destruct H as [Hnr Hsp]. split; [done|].
  pose proof (spawned_slot w w' q c i _ Hsp) as Hi.
  pose proof (free_slots_elem_head w c i Hi) as [Hfree Hr]%elem_of_free_slots.
  pose proof (dynamic_slot_in c i Hc Hr) as His.
  pose proof (spawned_fresh w w' q c i im trap tp fcsr _ size entry arg priority policy now Hk His Hfree (Hfv i His Hfree) Hsp) as Hfresh.
  destruct Hsp as [_ Hk' Hok' F Hp' Hg']. destruct (next_life_ok w i Hgen His) as [Hl Hn].
  assert (∀ j, j ≠ i → unlinked (T w' j) = unlinked (T w j)) as Hun.
  { intros j Hj. by rewrite (F _ unlinked), decide_False. }
  assert (t_identity_generation (T w' i) = next_life w i) as Hid.
  { rewrite (F _ t_identity_generation), decide_True; done. }
  split_and!; try done.
  - intros j Hj Hst. destruct (decide (j = i)) as [->|Hji]; [by rewrite (fresh_state _ _ _ _ _ _ Hfresh) in Hst|].
    assert (∀ A (f : Tcb → A), (∀ t v, f (t <| t_next := v |>) = f t) → f (T w' j) = f (T w j)) as E.
    { intros A f Hf. by rewrite (F A f Hf), decide_False. }
    destruct (Hfv j Hj) as [V1 V2]; [by rewrite <-(E _ t_state)|].
    split; by rewrite ?(E _ t_granted_sem), ?(E _ t_granted_mutex), ?(E _ t_inherited_waiters).
  - intros j Hj. rewrite Hg'. case_decide; [lia|by apply Hgen].
  - by rewrite Hg', decide_True.
  - by rewrite Hid.
  - rewrite Hid. exists (next_life w i * 256 + i).
    assert (identity_ok i (next_life w i)) as Hio by done. split; [by apply encode_task_id_Ok|].
    assert (0 <= next_life w i * 256 + i <= u32_max) as Hrange.
    { unfold slot_in in His. rewrite slot_count_value in His. unfold u16_max, u32_max in *. lia. }
    apply live_task_spec; [exact (owned_shape w' _ None (kernel_owned w' _ None Hk'))|done|].
    rewrite (proj2 (decode_task_id_Ok _ i (next_life w i) Hrange)) by done.
    by rewrite Hid, Z.eqb_refl, (fresh_state _ _ _ _ _ _ Hfresh).
Qed.

Definition vacant_b (w : World) (i : Z) : bool :=
  negb (state_eqb (t_state (T w i)) Free) ||
    ((t_granted_sem (T w i) =? 0) && (t_granted_mutex (T w i) =? 0) &&
     bool_decide (t_inherited_waiters (T w i) = replicate 32 0)).

Lemma vacant_by_slots w : forallb (vacant_b w) (range 0 17) = true → free_vacant w.
Proof.
  intros H i Hi Hf. pose proof (all_slots _ H i Hi) as Hb. unfold vacant_b, state_eqb in Hb.
  rewrite Hf, bool_decide_true in Hb by done. cbn [negb orb] in Hb.
  apply andb_prop in Hb as [[?%Z.eqb_eq ?%Z.eqb_eq]%andb_prop ?%bool_decide_eq_true]. by split.
Qed.

Definition generation_b (w : World) (i : Z) : bool :=
  let g := at_ 0 (s_slot_generations (w_sched w)) i in (0 <=? g) && (g <=? u16_max).

Lemma generations_by_slots w : forallb (generation_b w) (range 0 17) = true → generations_ok w.
Proof.
  intros H i Hi. pose proof (all_slots _ H i Hi) as [?%Z.leb_le ?%Z.leb_le]%andb_prop. done.
Qed.

Lemma ready_three_vacant : free_vacant ready_three.
Proof. apply vacant_by_slots. by vm_compute. Qed.

Lemma ready_three_generations_ok : generations_ok ready_three.
Proof. apply generations_by_slots. by vm_compute. Qed.

Lemma ready_three_reservations : reservations ready_three = reservations (World_new 4).
Proof. by vm_compute. Qed.

Lemma ready_three_unpromised : (total_remaining (reservations ready_three) <=? free_count ready_three 14) = true.
Proof. by vm_compute. Qed.

Lemma ready_three_slots : slots_ok ready_three 14.
Proof.
  split; [|exact (proj1 (Z.leb_le _ _) ready_three_unpromised)].
  rewrite ready_three_reservations. apply (table_new_ok 4). lia.
Qed.

(** A fourth task at priority 7, in slot 5. *)
Definition witness_image : Image := mkImage 4096 8192 12288.

Lemma spawn_installs_task_witness :
  head (free_slots ready_three 14) = Some 5 ∧
  wp (spawn_locked witness_image true 0 0 None 14 131072 4096 77 99 7 (Preemptive 10) 5) (λ r w', match r with
    | Err e => w' = ready_three ∧ spawn_refused ready_three 14 None e
    | Ok i => (∀ e, ¬ spawn_refused ready_three 14 None e) ∧ head (free_slots ready_three 14) = Some i ∧
        fresh_task (T w' i) 77 99 7 (Preemptive 10) 5 ∧ kernel w' (enqueued w' i ready_three_queues) ∧
        (∀ j, j ≠ i → unlinked (T w' j) = unlinked (T ready_three j)) ∧ (∀ a, permits w' a = permits ready_three a) ∧
        free_vacant w' ∧ generations_ok w' ∧ slots_ok w' 14 ∧
        t_identity_generation (T w' i) = at_ 0 (s_slot_generations (w_sched w')) i ∧
        t_identity_generation (T w' i) ≠ at_ 0 (s_slot_generations (w_sched ready_three)) i ∧
        ∃ id, encode_task_id i (t_identity_generation (T w' i)) = Ok id ∧ wp (live_task id) (λ r _, r = Ok i) w'
    end) ready_three.
Proof.
  split; [by vm_compute|].
  apply (spawn_installs_task witness_image true 0 0 None 14 131072 4096 77 99 7 (Preemptive 10) 5 ready_three ready_three_queues);
    [exact ready_three_kernel|exact ready_three_vacant|exact ready_three_generations_ok| | |exact ready_three_slots| |].
  - by vm_compute.
  - done.
  - done.
  - intros _. split; [done|vm_compute; congruence|intros _; vm_compute; congruence].
Defined.
