(* ===== verification/Start.v ===== *)
(** * Starting the runtime ([src/runtime.rs])

    [init] adopts the caller as the main task and prepares the idle task. The store it
    leaves satisfies every invariant of the development. *)

From stdpp Require Import sorting.
From S2P Require Import Prelude Effects Budget Contract Config Context Reservation.
From S2P Require Import Tcb Store Chain Ready Wait Switch Invariant Dispatch Inherit Donation Sync.
From S2P Require Import Moves Permit Slide Lean Handoff Mutex Lock Acquire Exclusion.
From S2P Require Import Timer Frame Touch Wake Deadlines Slots Statics Tasks Birth.

Definition main_task (now : Z) : Tcb :=
  Tcb_empty <| t_state := Running |> <| t_identity_generation := 1 |>
    <| t_budget := on_dispatch now (for_policy Cooperative now) |> <| t_metrics ::= metrics_on_dispatch now |>.

Definition idle_task (im : Image) (trap : bool) (idle_top tp fcsr now : Z) : Tcb :=
  Tcb_empty <| t_ctx := initial_context im.(im_trampoline) idle_top tp fcsr |>
    <| t_saved_frame := if trap then idle_top - 272 else 0 |> <| t_state := Ready |>
    <| t_entry := Some im.(im_idle_entry) |>
    <| t_base_priority := PRIORITY_LEVELS - 1 |> <| t_priority := PRIORITY_LEVELS - 1 |>
    <| t_identity_generation := 1 |> <| t_metrics ::= metrics_on_ready now |>.

(** The store while [init] runs: only the main task [m] and idle [i] have been touched. *)
Record starting (n : nat) (w : World) (m i : Tcb) : Prop := {
  starting_queues : queues w no_queues;
  starting_tasks j : T w j = if decide (j = 0) then m else if decide (j = 1) then i else Tcb_empty;
  starting_generations : generations_ok w;
  starting_objects : w_sems w = ∅ ∧ w_mutexes w = ∅;
  starting_switch : pending w = None ∧ current w = 0 ∧ sequence_of w = 0 ∧ consumed_of w = 0;
  starting_reservations : reservations w = ReservationTable_new n;
  starting_retired : s_retired_count (w_sched w) = 0 ∧ s_irq_task (w_sched w) = NIL;
}.

Lemma starting_new n : starting n (World_new n) Tcb_empty Tcb_empty.
Proof.
  split; try done; [apply World_new_queues| |].
  - intros j. rewrite T_new. by repeat case_decide.
  - intros j Hj. change (s_slot_generations _) with (replicate 17 0). unfold at_.
    rewrite (idx_replicate 17 0). by case_match.
Qed.

Lemma slot_in_0 : slot_in 0.
Proof. unfold slot_in. rewrite slot_count_value. lia. Qed.

Lemma starting_main n w m i g (Q : unit → World → Prop) :
  starting n w m i → (∀ t, t_next (g t) = t_next t) →
  (∀ w', starting n w' (g m) i → Q tt w') → wp (set_task 0 g) Q w.
Proof.
  intros [Hq Ht Hg Ho Hs Hr Hret] Hn HQ. pose proof (queues_shape w _ Hq) as Hsh.
  apply wp_set_task; [done|apply slot_in_0|]. apply HQ. split; try done; [by apply queues_upd_task|].
  intros j. rewrite T_upd_task by (done || apply slot_in_0). rewrite !Ht. by repeat case_decide; congruence || subst.
Qed.

Lemma starting_idle n w m i g (Q : unit → World → Prop) :
  starting n w m i → (∀ t, t_next (g t) = t_next t) →
  (∀ w', starting n w' m (g i) → Q tt w') → wp (set_task IDLE_SLOT g) Q w.
Proof.
  intros [Hq Ht Hg Ho Hs Hr Hret] Hn HQ. pose proof (queues_shape w _ Hq) as Hsh.
  apply wp_set_task; [done|apply idle_slot_in|]. apply HQ. split; try done; [by apply queues_upd_task|].
  intros j. rewrite T_upd_task by (done || apply idle_slot_in). unfold IDLE_SLOT. rewrite !Ht.
  repeat case_decide; subst; done.
Qed.

Lemma starting_generation n w m i k (Q : unit → World → Prop) :
  starting n w m i → slot_in k → (∀ w', starting n w' m i → Q tt w') → wp (set_generation k 1) Q w.
Proof.
  intros [Hq Ht Hg Ho Hs Hr Hret] Hk HQ. pose proof (queues_shape w _ Hq) as [_ _ _ Hl _].
  assert (in_range (s_slot_generations (w_sched w)) k) as Hin by (unfold in_range, slot_in in *; lia).
  unfold set_generation. wp_steps. apply wp_sched_gets. wp_steps.
  eapply wp_expect; [by apply (idx_at 0)|]. apply wp_sched_modify, HQ. split; try done.
  - apply queues_sched; try done. intros s. simpl. apply length_alter_at.
  - intros j Hj. simpl. destruct (decide (k = j)) as [<-|Hne]; [by rewrite at_alter_eq|by rewrite at_alter_ne; auto].
Qed.

Lemma starting_current n w m i : starting n w m i → starting n (w <| w_sched ::= λ s, s <| s_current := 0 |> |>) m i.
Proof. intros [Hq Ht Hg Ho (? & ? & ? & ?) Hr Hret]. split; try done. by apply queues_sched. Qed.

Lemma starting_started n w m i : starting n w m i → starting n (w <| w_sched ::= λ s, s <| s_started := true |> |>) m i.
Proof. intros [Hq Ht Hg Ho Hs Hr Hret]. split; try done. by apply queues_sched. Qed.

Lemma init_spec n im (trap : bool) idle_top tp fcsr now :
  (trap = true → 272 <= idle_top) →
  wp (init_locked im trap idle_top tp fcsr now) (λ _ w', s_started (w_sched w') = true ∧
    starting n w' (main_task now) (idle_task im trap idle_top tp fcsr now)) (World_new n).
Proof.
  intros Ht. unfold init_locked, adopt_main, prepare_idle, set_current. wp_steps. apply wp_sched_gets.
  cbn [s_started World_new Sched_new w_sched]. wp_steps.
  eapply starting_main; [apply starting_new|done|]. intros w1 H1. wp_steps.
  eapply starting_generation; [exact H1|apply slot_in_0|]. clear H1. intros w2 H2. wp_steps.
  eapply starting_main; [exact H2|done|]. clear H2. intros w3 H3. wp_steps.
  apply wp_sched_modify. apply starting_current in H3. wp_steps.
  eapply starting_idle; [exact H3|done|]. clear H3. intros w4 H4. wp_steps.
  set (i := (Tcb_empty <| t_ctx := _ |>)) in *.
  assert (wp (when trap (frame ← expect (irq_frame_address idle_top); set_task IDLE_SLOT (λ t, t <| t_saved_frame := frame |>)))
    (λ _ w', starting n w' (main_task now) (i <| t_saved_frame := if trap then idle_top - 272 else 0 |>)) w4) as Hf.
  { destruct trap; [|done]. cbn [when]. apply wp_bind. apply (wp_expect _ (idle_top - 272)).
    - unfold irq_frame_address, TASK_CONTEXT_WORDS, checked_sub. specialize (Ht eq_refl). by rewrite (proj2 (Z.leb_le _ _)).
    - eapply starting_idle; [exact H4|done|]. by intros w' H'. }
  eapply wp_mono; [|exact Hf]. clear Hf H4 w4. intros [] w5 H5. wp_steps.
  eapply starting_idle; [exact H5|done|]. clear H5. intros w6 H6. wp_steps.
  eapply starting_generation; [exact H6|apply idle_slot_in|]. clear H6. intros w7 H7. wp_steps.
  apply wp_sched_modify. split; [done|]. by apply starting_started.
Qed.

(** ** The invariants hold from the start *)

Section Started.
  #[local] Set Default Proof Using "All".
  Context (n : nat) (w : World) (im : Image) (trap : bool) (idle_top tp fcsr now : Z).
  Context (Hst : starting n w (main_task now) (idle_task im trap idle_top tp fcsr now)).

Lemma started_T j : T w j = if decide (j = 0) then main_task now else
  if decide (j = 1) then idle_task im trap idle_top tp fcsr now else Tcb_empty.
Proof. apply Hst. Qed.

Lemma started_owned : owned w no_queues None.
Proof.
  destruct Hst as [Hq Ht _ _ (Hp & Hc & _) _ _].
  split; [done|]. split; try done; [|by rewrite Hp|by rewrite Hc; apply slot_in_0].
  intros j Hj. apply placed_detached; unfold is_target, priority_ok; rewrite ?Ht, ?Hp, ?Hc;
    repeat case_decide; simpl; try done; unfold PRIORITY_LEVELS, IDLE_SLOT in *; try lia; try (intros []; done).
  all: intros id; set_solver.
Qed.

Lemma started_kernel : kernel w no_queues.
Proof.
  pose proof started_owned as Ho. pose proof (owned_shape w _ None Ho) as Hs.
  pose proof Hst as [_ Ht _ [Hsem Hmtx] _ _ _].
  assert (∀ i, slot_in i → no_grant_b (T w i) = true) as Hno.
  { intros i _. rewrite Ht. by repeat case_decide. }
  destruct (no_grants w Hno) as [Hg Hz].
  split; [split|..].
  - done.
  - intros a. split; constructor.
  - split; rewrite ?Hsem; try done; [|by intros i Hi; rewrite Hz].
    intros a Ha. unfold permits, count_of. rewrite Hsem. pose proof (granted_by_range w a).
    change (0 + granted_by w a <= i32_max). unfold i32_max. lia.
  - done.
  - apply inheritance_idle; [done| |done]. intros i _. unfold inheritance_b. rewrite Ht. 
    destruct (decide (i = 0)); [by vm_compute|]. destruct (decide (i = 1)); by vm_compute.
  - by apply mutexes_none.
Qed.

Lemma started_tickets : tickets w.
Proof. destruct Hst as [_ _ _ _ (Hp & _ & H1 & H2) _ _]. split; rewrite ?H1, ?H2, ?Hp; done || (unfold u64_max; lia). Qed.

Lemma started_frames : trap = true → idle_top ≠ 272 → frames w.
Proof.
  pose proof started_T as HT. intros Htrap Hne i Hi. rewrite HT. rewrite Htrap. pose proof Hst as [_ _ _ _ (_ & -> & _) _ _].
  repeat case_decide; try done. intros _ _. simpl. lia.
Qed.

Lemma started_slots c : Z.of_nat n <= 255 → capacity_ok c → slots_ok w c.
Proof.
  intros Hn Hc. pose proof Hst as [_ _ _ _ _ Hr _]. split; rewrite Hr; [by apply table_new_ok|].
  change (0 <= free_count w c). pose proof (free_count_bound w c Hc). lia.
Qed.

Lemma started_rest : free_vacant w ∧ generations_ok w ∧ deadlines_set w.
Proof.
  split_and!.
  - intros i _. rewrite started_T. repeat case_decide; done.
  - apply Hst.
  - intros i _. rewrite started_T. repeat case_decide; done.
Qed.
End Started.

(** Everything [init] establishes. *)
Record running_system (w : World) (c : Z) (trap : bool) : Prop := {
  running_kernel : ∃ q, kernel w q;
  running_tickets : tickets w;
  running_frames : trap = true → frames w;
  running_slots : slots_ok w c;
  running_vacant : free_vacant w;
  running_generations : generations_ok w;
  running_deadlines : deadlines_set w;
}.

(** C9: Starting (RTOS-STATE-003): from the zeroed scheduler, [init]
    runs without a panic and leaves a store in which every invariant of the development
    holds: the main task runs in slot 0 with identity 256, idle is ready in slot 1 at the
    lowest priority and in no queue, every other slot is free, nothing is pending, and
    no slot is promised. A second [init] changes nothing. *)
Theorem init_establishes_invariants (n : nat) (c : Z) (im : Image) (trap : bool) (idle_top tp fcsr now : Z) :
  Z.of_nat n <= 255 → capacity_ok c → (trap = true → 272 < idle_top) →
  wp (init_locked im trap idle_top tp fcsr now) (λ _ w',
    running_system w' c trap ∧ kernel w' no_queues ∧ pending w' = None ∧ current w' = 0 ∧
    t_state (T w' 0) = Running ∧ encode_task_id 0 (t_identity_generation (T w' 0)) = Ok 256 ∧
    t_state (T w' IDLE_SLOT) = Ready ∧ t_priority (T w' IDLE_SLOT) = PRIORITY_LEVELS - 1 ∧
    (∀ i, i ≠ 0 → i ≠ IDLE_SLOT → t_state (T w' i) = Free) ∧
    total_remaining (reservations w') = 0 ∧
    wp (init_locked im trap idle_top tp fcsr now) (λ _ w'', w'' = w') w') (World_new n).
Proof.
  intros Hn Hc Ht. eapply wp_mono; [|apply (init_spec n im trap idle_top tp fcsr now)]; [|intros E; specialize (Ht E); lia].
  intros [] w [Hs Hst]. destruct (started_rest n w im trap idle_top tp fcsr now Hst) as (H1 & H2 & H3).
  pose proof (started_kernel n w im trap idle_top tp fcsr now Hst) as Hk.
  pose proof (started_T n w im trap idle_top tp fcsr now Hst) as HT.
  split.
  { split; [by eexists|by eapply started_tickets|..]; try done; [|by eapply started_slots].
    intros E. eapply started_frames; [done..|]. specialize (Ht E). lia. }
  destruct Hst as [_ _ _ _ (Hp & Hcur & _) Hr _]. split_and!; try done; rewrite ?HT; try done.
  - intros i H0 Hi. unfold IDLE_SLOT in Hi. rewrite HT. by rewrite !decide_False.
  - by rewrite Hr.
  - unfold init_locked. wp_steps. apply wp_sched_gets. rewrite Hs. by wp_steps.
Qed.

Lemma init_establishes_invariants_witness :
  wp (init_locked witness_image true 16384 0 0 5) (λ _ w',
    running_system w' 14 true ∧ kernel w' no_queues ∧ pending w' = None ∧ current w' = 0 ∧
    t_state (T w' 0) = Running ∧ encode_task_id 0 (t_identity_generation (T w' 0)) = Ok 256 ∧
    t_state (T w' IDLE_SLOT) = Ready ∧ t_priority (T w' IDLE_SLOT) = PRIORITY_LEVELS - 1 ∧
    (∀ i, i ≠ 0 → i ≠ IDLE_SLOT → t_state (T w' i) = Free) ∧
    total_remaining (reservations w') = 0 ∧
    wp (init_locked witness_image true 16384 0 0 5) (λ _ w'', w'' = w') w') (World_new 4).
Proof. apply (init_establishes_invariants 4 14 witness_image true 16384 0 0 5); done. Defined.
