(* ===== verification/Machine.v ===== *)
(** * The machine code of the context switch ([src/context.rs])

    The port-less context switch is forty lines of RISC-V assembly on either side of a
    stack change, and a new task starts from words written by hand into its frame. This
    file gives the instructions the switch uses a semantics, the switch itself as a list
    of them, line by line, and shows that a task that is switched away and back
    continues where it was, and that a new task starts at its entry.

    The privileged architecture says what the instructions do; what it leaves to the
    implementation (the mode [mret] leaves in MPP) is a parameter. Memory is word
    addressed, misaligned accesses trap ([None]). *)

From stdpp Require Import list functions.
From S2P Require Import Prelude Effects Context Tcb Tasks.

(** ** Instructions *)

Inductive Reg := X (n : Z) | F (n : Z).
#[export] Instance Reg_eq_dec : EqDecision Reg.
Proof. solve_decision. Defined.

Inductive Instr :=
| Li (rd : Reg) (v : Z)
| Mv (rd rs : Reg)
| Andi (rd rs : Reg) (v : Z)
| And (rd r1 r2 : Reg)
| Or (rd r1 r2 : Reg)
| Slli (rd rs : Reg) (n : Z)
| Store (src : Reg) (offset : Z) (base : Reg)
| Load (dst : Reg) (offset : Z) (base : Reg)
| CsrrcMstatus (rd rs : Reg)
| CsrwMstatus (rs : Reg)
| CsrwMepc (rs : Reg)
| Frcsr (rd : Reg)
| Fscsr (rs : Reg)
| Mret.

Record Machine := mkMachine {
  m_reg : Reg → Z;
  m_mem : Z → Z;
  m_pc : Z;
  m_mstatus : Z;
  m_mepc : Z;
  m_fcsr : Z;
  m_mode : Z;
}.
#[export] Instance eta_Machine : Eta Machine := λ m,
  mkMachine (m_reg m) (m_mem m) (m_pc m) (m_mstatus m) (m_mepc m) (m_fcsr m) (m_mode m).
#[export] Instance field_m_reg : Field m_reg. Proof. derive_field. Defined.
#[export] Instance field_m_mem : Field m_mem. Proof. derive_field. Defined.
#[export] Instance field_m_pc : Field m_pc. Proof. derive_field. Defined.
#[export] Instance field_m_mstatus : Field m_mstatus. Proof. derive_field. Defined.
#[export] Instance field_m_mepc : Field m_mepc. Proof. derive_field. Defined.
#[export] Instance field_m_fcsr : Field m_fcsr. Proof. derive_field. Defined.
#[export] Instance field_m_mode : Field m_mode. Proof. derive_field. Defined.

Definition word (x : Z) : Z := x mod 2 ^ 32.
Definition set_reg (r : Reg) (v : Z) (m : Machine) : Machine := m <| m_reg ::= λ f, <[r := v]> f |>.
Definition set_bit (n : Z) (b : bool) (x : Z) : Z :=
  if b then Z.lor x (Z.shiftl 1 n) else Z.ldiff x (Z.shiftl 1 n).

(** The word address of an access, if it is aligned. *)
Definition access (m : Machine) (base : Reg) (offset : Z) : option Z :=
  let a := word (m_reg m base + offset) in if a mod 4 =? 0 then Some a else None.

Definition MIE : Z := 3.
Definition MPIE : Z := 7.
Definition MPP : Z := 11.

Section Execution.
  Context (least_mode : Z).

Definition exec (i : Instr) (m : Machine) : option Machine :=
  match i with
  | Li rd v => Some (set_reg rd (word v) m)
  | Mv rd rs => Some (set_reg rd (m_reg m rs) m)
  | Andi rd rs v => Some (set_reg rd (Z.land (m_reg m rs) (word v)) m)
  | And rd r1 r2 => Some (set_reg rd (Z.land (m_reg m r1) (m_reg m r2)) m)
  | Or rd r1 r2 => Some (set_reg rd (Z.lor (m_reg m r1) (m_reg m r2)) m)
  | Slli rd rs n => Some (set_reg rd (word (Z.shiftl (m_reg m rs) n)) m)
  | Store src offset base =>
      a ← access m base offset; Some (m <| m_mem ::= λ f, <[a := m_reg m src]> f |>)
  | Load dst offset base =>
      a ← access m base offset; Some (set_reg dst (m_mem m a) m)
  | CsrrcMstatus rd rs =>
      Some (set_reg rd (m_mstatus m) (m <| m_mstatus := Z.ldiff (m_mstatus m) (m_reg m rs) |>))
  | CsrwMstatus rs => Some (m <| m_mstatus := m_reg m rs |>)
  | CsrwMepc rs => Some (m <| m_mepc := Z.ldiff (m_reg m rs) 1 |>)
  | Frcsr rd => Some (set_reg rd (m_fcsr m) m)
  | Fscsr rs => Some (m <| m_fcsr := m_reg m rs mod 256 |>)
  | Mret =>
      let s := m_mstatus m in
      Some (m <| m_pc := m_mepc m |> <| m_mode := Z.land (Z.shiftr s MPP) 3 |>
        <| m_mstatus := Z.lor (Z.ldiff (set_bit MPIE true (set_bit MIE (Z.testbit s MPIE) s)) (Z.shiftl 3 MPP))
             (Z.shiftl least_mode MPP) |>)
  end.

Fixpoint run (p : list Instr) (m : Machine) : option Machine :=
  match p with [] => Some m | i :: p => m' ← exec i m; run p m' end.

End Execution.

(** ** The registers of the calling convention *)

Definition ra : Reg := X 1.
Definition sp : Reg := X 2.
Definition tp : Reg := X 4.
Definition a (n : Z) : Reg := X (10 + n).
Definition t (n : Z) : Reg := if n <? 3 then X (5 + n) else X (25 + n).
Definition s (n : Z) : Reg := if n <? 2 then X (8 + n) else X (16 + n).
Definition fa (n : Z) : Reg := F (10 + n).
Definition ft (n : Z) : Reg := if n <? 8 then F n else F (20 + n).
Definition fs (n : Z) : Reg := if n <? 2 then F (8 + n) else F (16 + n).

(** ** The port-less context switch *)

Definition cooperative_context_switch_fallback : list Instr :=
  [Li (t 1) 8; CsrrcMstatus (t 0) (t 1); Andi (t 2) (t 0) 8; Slli (t 2) (t 2) 4; Li (t 1) (-137);
   And (t 0) (t 0) (t 1); Or (t 0) (t 0) (t 2); Li (t 1) 6144; Or (t 0) (t 0) (t 1);
   Store (t 0) 0 (a 0); Store ra 4 (a 0); Store tp 8 (a 0); Store sp 12 (a 0);
   Store (s 11) 16 (a 0); Store (s 10) 20 (a 0); Store (s 9) 24 (a 0); Store (s 8) 28 (a 0);
   Store (s 7) 32 (a 0); Store (s 6) 36 (a 0); Store (s 5) 40 (a 0); Store (s 4) 44 (a 0);
   Store (s 3) 48 (a 0); Store (s 2) 52 (a 0); Store (s 1) 56 (a 0); Store (s 0) 60 (a 0);
   Store (fs 11) 128 (a 0); Store (fs 10) 132 (a 0); Store (fs 9) 136 (a 0); Store (fs 8) 140 (a 0);
   Store (fs 7) 144 (a 0); Store (fs 6) 148 (a 0); Store (fs 5) 152 (a 0); Store (fs 4) 156 (a 0);
   Store (fs 3) 160 (a 0); Store (fs 2) 164 (a 0); Store (fs 1) 168 (a 0); Store (fs 0) 172 (a 0);
   Frcsr (t 0); Store (t 0) 256 (a 0); Mv (t 0) (a 1); Load (t 1) 0 (t 0); CsrwMstatus (t 1);
   Load (t 1) 4 (t 0); CsrwMepc (t 1); Load (t 1) 256 (t 0); Fscsr (t 1); Load (fs 11) 128 (t 0);
   Load (fs 10) 132 (t 0); Load (fs 9) 136 (t 0); Load (fs 8) 140 (t 0); Load (fs 7) 144 (t 0);
   Load (fs 6) 148 (t 0); Load (fs 5) 152 (t 0); Load (fs 4) 156 (t 0); Load (fs 3) 160 (t 0);
   Load (fs 2) 164 (t 0); Load (fs 1) 168 (t 0); Load (fs 0) 172 (t 0); Load (ft 11) 176 (t 0);
   Load (ft 10) 180 (t 0); Load (ft 9) 184 (t 0); Load (ft 8) 188 (t 0); Load (fa 7) 192 (t 0);
   Load (fa 6) 196 (t 0); Load (fa 5) 200 (t 0); Load (fa 4) 204 (t 0); Load (fa 3) 208 (t 0);
   Load (fa 2) 212 (t 0); Load (fa 1) 216 (t 0); Load (fa 0) 220 (t 0); Load (ft 7) 224 (t 0);
   Load (ft 6) 228 (t 0); Load (ft 5) 232 (t 0); Load (ft 4) 236 (t 0); Load (ft 3) 240 (t 0);
   Load (ft 2) 244 (t 0); Load (ft 1) 248 (t 0); Load (ft 0) 252 (t 0); Load tp 8 (t 0);
   Load (s 11) 16 (t 0); Load (s 10) 20 (t 0); Load (s 9) 24 (t 0); Load (s 8) 28 (t 0);
   Load (s 7) 32 (t 0); Load (s 6) 36 (t 0); Load (s 5) 40 (t 0); Load (s 4) 44 (t 0);
   Load (s 3) 48 (t 0); Load (s 2) 52 (t 0); Load (s 1) 56 (t 0); Load (s 0) 60 (t 0);
   Load (t 6) 64 (t 0); Load (t 5) 68 (t 0); Load (t 4) 72 (t 0); Load (t 3) 76 (t 0);
   Load (a 7) 80 (t 0); Load (a 6) 84 (t 0); Load (a 5) 88 (t 0); Load (a 4) 92 (t 0);
   Load (a 3) 96 (t 0); Load (a 2) 100 (t 0); Load (a 1) 104 (t 0); Load (a 0) 108 (t 0);
   Load (t 2) 112 (t 0); Load (t 1) 116 (t 0); Load ra 124 (t 0); Load sp 12 (t 0);
   Load (t 0) 120 (t 0); Mret].

(** [initialize_irq_frame]: the memory it leaves, for a frame ending at [top]. *)
Definition write_words (ws : list Z) (address : Z) (mem : Z → Z) : Z → Z :=
  foldl (λ mem '(k, v), <[address + 4 * Z.of_nat k := v]> mem) mem (imap pair ws).
Definition initialize_irq_frame (top entry tp fcsr : Z) (mem : Z → Z) : option (Z * (Z → Z)) :=
  frame ← irq_frame_address top;
  let mem := write_words (replicate (Z.to_nat TASK_CONTEXT_WORDS) 0) frame mem in
  let mem := <[frame := 30848]> mem in
  let mem := <[frame + 4 := word entry]> mem in
  let mem := <[frame + 8 := word tp]> mem in
  let mem := <[frame + 12 := word top]> mem in
  let mem := <[frame + 256 := fcsr]> mem in
  Some (frame, mem).

(** ** Runs of loads and stores *)

(** A context is a block of 68 aligned words that does not wrap around. *)
Record frame_at (a : Z) : Prop := {
  frame_range : 0 <= a ∧ a + 272 <= 2 ^ 32;
  frame_aligned : a mod 4 = 0;
}.
Definition in_frame (a x : Z) : Prop := a <= x < a + 272.

Definition offset_ok (o : Z) : bool := (0 <=? o) && (o <? 272) && (o mod 4 =? 0).

Lemma access_frame m base o : frame_at (m_reg m base) → offset_ok o = true → access m base o = Some (m_reg m base + o).
Proof.
  intros [Hr Ha] [[H1%Z.leb_le H2%Z.ltb_lt]%andb_prop H3%Z.eqb_eq]%andb_prop. unfold access, word.
  rewrite (Z.mod_small (_ + _)) by lia. rewrite Z.add_mod, Ha, H3 by lia. done.
Qed.

Lemma run_app lm p1 p2 m : run lm (p1 ++ p2) m = run lm p1 m ≫= run lm p2.
Proof. revert m. induction p1 as [|i p1 IH]; intros m; [done|]. simpl. destruct (exec lm i m); [apply IH|done]. Qed.

(** What a list of stores leaves at each address. *)
Fixpoint stored (l : list (Reg * Z)) (regs : Reg → Z) (base : Z) (mem : Z → Z) : Z → Z :=
  match l with [] => mem | (r, o) :: l => stored l regs base (<[base + o := regs r]> mem) end.
Fixpoint loaded (l : list (Reg * Z)) (mem : Z → Z) (base : Z) (regs : Reg → Z) : Reg → Z :=
  match l with [] => regs | (r, o) :: l => loaded l mem base (<[r := mem (base + o)]> regs) end.

Lemma run_stores lm l base m :
  frame_at (m_reg m base) → forallb (λ p, offset_ok p.2) l = true →
  run lm ((λ p, Store p.1 p.2 base) <$> l) m = Some (m <| m_mem := stored l (m_reg m) (m_reg m base) (m_mem m) |>).
Proof.
  intros Hf. revert m Hf. induction l as [|[r o] l IH]; intros m Hf Hl; [by destruct m|].
  simpl in Hl. apply andb_prop in Hl as [Ho Hl].
  rewrite fmap_cons. cbn [run exec fst snd]. rewrite access_frame by done. cbn [mbind option_bind]. by rewrite IH.
Qed.

Lemma run_loads lm l base m :
  frame_at (m_reg m base) → forallb (λ p, offset_ok p.2) l = true → forallb (λ p, negb (bool_decide (p.1 = base))) l = true →
  run lm ((λ p, Load p.1 p.2 base) <$> l) m = Some (m <| m_reg := loaded l (m_mem m) (m_reg m base) (m_reg m) |>).
Proof.
  intros Hf. revert m Hf. induction l as [|[r o] l IH]; intros m Hf Hl Hn; [by destruct m|].
  simpl in Hl, Hn. apply andb_prop in Hl as [Ho Hl]. apply andb_prop in Hn as [Hr%negb_true_iff%bool_decide_eq_false Hn].
  rewrite fmap_cons. cbn [run exec fst snd]. rewrite access_frame by done. cbn [mbind option_bind].
  assert (m_reg (set_reg r (m_mem m (m_reg m base + o)) m) base = m_reg m base) as E.
  { unfold set_reg. simpl. by rewrite fn_lookup_insert_ne. }
  rewrite IH by (done || by rewrite E). by rewrite E.
Qed.

Lemma stored_other l regs base mem x : (∀ p, p ∈ l → x ≠ base + p.2) → stored l regs base mem x = mem x.
Proof.
  revert mem. induction l as [|[r o] l IH]; intros mem Hx; [done|]. cbn [stored].
  rewrite IH by (intros; apply Hx; by right). rewrite fn_lookup_insert_ne; [done|].
  intros E. by apply (Hx (r, o)); [left|].
Qed.

Lemma stored_at l regs base mem r o : NoDup l.*2 → (r, o) ∈ l → stored l regs base mem (base + o) = regs r.
Proof.
  revert mem. induction l as [|[r' o'] l IH]; intros mem Hn Hin; [by apply elem_of_nil in Hin|].
  apply NoDup_cons in Hn as [Hni Hn]. cbn [stored]. apply elem_of_cons in Hin as [[= -> ->]|Hin]; [|by apply IH].
  rewrite stored_other; [by rewrite fn_lookup_insert|]. intros p Hp E. apply Hni.
  assert (o' = p.2) as E' by lia. cbn [snd]. rewrite E'. exact (list_elem_of_fmap_2 snd l p Hp).
Qed.

Lemma loaded_other l mem base regs r : (∀ p, p ∈ l → r ≠ p.1) → loaded l mem base regs r = regs r.
Proof.
  revert regs. induction l as [|[r' o] l IH]; intros regs Hx; [done|]. cbn [loaded].
  rewrite IH by (intros; apply Hx; by right). rewrite fn_lookup_insert_ne; [done|].
  intros ->. by apply (Hx (r, o)); [left|].
Qed.

Lemma loaded_at l mem base regs r o : NoDup l.*1 → (r, o) ∈ l → loaded l mem base regs r = mem (base + o).
Proof.
  revert regs. induction l as [|[r' o'] l IH]; intros regs Hn Hin; [by apply elem_of_nil in Hin|].
  apply NoDup_cons in Hn as [Hni Hn]. cbn [loaded]. apply elem_of_cons in Hin as [[= -> ->]|Hin]; [|by apply IH].
  rewrite loaded_other; [by rewrite fn_lookup_insert|]. intros p Hp ->. apply Hni. exact (list_elem_of_fmap_2 fst l p Hp).
Qed.

(** ** The parts of the switch *)

Definition saves : list (Reg * Z) :=
  [(ra, 4); (tp, 8); (sp, 12);
   (s 11, 16); (s 10, 20); (s 9, 24); (s 8, 28); (s 7, 32); (s 6, 36); (s 5, 40); (s 4, 44);
   (s 3, 48); (s 2, 52); (s 1, 56); (s 0, 60);
   (fs 11, 128); (fs 10, 132); (fs 9, 136); (fs 8, 140); (fs 7, 144); (fs 6, 148); (fs 5, 152); (fs 4, 156);
   (fs 3, 160); (fs 2, 164); (fs 1, 168); (fs 0, 172)].

(** What the switch restores, in its order; the base register itself comes last. *)
Definition restores : list (Reg * Z) :=
  [(fs 11, 128); (fs 10, 132); (fs 9, 136); (fs 8, 140); (fs 7, 144); (fs 6, 148); (fs 5, 152); (fs 4, 156);
   (fs 3, 160); (fs 2, 164); (fs 1, 168); (fs 0, 172);
   (ft 11, 176); (ft 10, 180); (ft 9, 184); (ft 8, 188); (fa 7, 192); (fa 6, 196); (fa 5, 200); (fa 4, 204);
   (fa 3, 208); (fa 2, 212); (fa 1, 216); (fa 0, 220); (ft 7, 224); (ft 6, 228); (ft 5, 232); (ft 4, 236);
   (ft 3, 240); (ft 2, 244); (ft 1, 248); (ft 0, 252); (tp, 8);
   (s 11, 16); (s 10, 20); (s 9, 24); (s 8, 28); (s 7, 32); (s 6, 36); (s 5, 40); (s 4, 44);
   (s 3, 48); (s 2, 52); (s 1, 56); (s 0, 60);
   (t 6, 64); (t 5, 68); (t 4, 72); (t 3, 76); (a 7, 80); (a 6, 84); (a 5, 88); (a 4, 92);
   (a 3, 96); (a 2, 100); (a 1, 104); (a 0, 108); (t 2, 112); (t 1, 116); (ra, 124); (sp, 12)].

Definition mask_interrupts : list Instr :=
  [Li (t 1) 8; CsrrcMstatus (t 0) (t 1); Andi (t 2) (t 0) 8; Slli (t 2) (t 2) 4; Li (t 1) (-137);
   And (t 0) (t 0) (t 1); Or (t 0) (t 0) (t 2); Li (t 1) 6144; Or (t 0) (t 0) (t 1); Store (t 0) 0 (a 0)].
Definition save_fcsr : list Instr := [Frcsr (t 0); Store (t 0) 256 (a 0)].
Definition restore_csrs : list Instr :=
  [Mv (t 0) (a 1); Load (t 1) 0 (t 0); CsrwMstatus (t 1); Load (t 1) 4 (t 0); CsrwMepc (t 1);
   Load (t 1) 256 (t 0); Fscsr (t 1)].

Lemma fallback_parts : cooperative_context_switch_fallback =
  (mask_interrupts ++ ((λ p, Store p.1 p.2 (a 0)) <$> saves) ++ save_fcsr) ++
  restore_csrs ++ ((λ p, Load p.1 p.2 (t 0)) <$> restores) ++ [Load (t 0) 120 (t 0); Mret].
Proof. reflexivity. Qed.

(** Running a list of instructions one at a time. *)
Definition reaches (lm : Z) (p : list Instr) (m : Machine) (Q : Machine → Prop) : Prop :=
  ∃ m', run lm p m = Some m' ∧ Q m'.

Lemma reaches_nil lm m (Q : Machine → Prop) : Q m → reaches lm [] m Q.
Proof. by exists m. Qed.

Lemma reaches_cons lm i p m m1 Q : exec lm i m = Some m1 → reaches lm p m1 Q → reaches lm (i :: p) m Q.
Proof. intros E (m' & Hr & HQ). exists m'. cbn [run]. rewrite E. done. Qed.

Lemma reaches_app lm p1 p2 m Q : reaches lm p1 m (λ m1, reaches lm p2 m1 Q) → reaches lm (p1 ++ p2) m Q.
Proof. intros (m1 & E1 & m2 & E2 & HQ). exists m2. rewrite run_app, E1. done. Qed.

Lemma reaches_mono lm p m (Q Q' : Machine → Prop) : (∀ m', Q m' → Q' m') → reaches lm p m Q → reaches lm p m Q'.
Proof. intros H (m' & E & HQ). exists m'. auto. Qed.

Ltac registers := repeat first
  [rewrite fn_lookup_insert | rewrite fn_lookup_insert_ne by (vm_compute; congruence)].

(** One instruction on registers, of a machine given field by field. *)
Ltac step :=
  eapply reaches_cons; [cbn -[word Z.land Z.lor Z.ldiff Z.shiftl a t s fa ft fs]; registers; reflexivity|].

(** The interrupt enable moves to where [mret] takes it from, and [mret] stays in
    machine mode. *)
Definition saved_mstatus (s : Z) : Z :=
  Z.lor (Z.lor (Z.land s (word (-137))) (word (Z.shiftl (Z.land s 8) 4))) 6144.

Lemma saved_mstatus_bits s :
  Z.testbit (saved_mstatus s) MPIE = Z.testbit s MIE ∧ Z.testbit (saved_mstatus s) MIE = false ∧
  Z.land (Z.shiftr (saved_mstatus s) MPP) 3 = 3.
Proof.
  assert (∀ i, 0 <= i < 32 → Z.testbit (saved_mstatus s) i =
    (Z.testbit s i && Z.testbit (word (-137)) i) || (Z.testbit (Z.land s 8) (i - 4)) || Z.testbit 6144 i) as Hb.
  { intros i Hi. unfold saved_mstatus. rewrite !Z.lor_spec, Z.land_spec. unfold word at 2.
    rewrite Z.mod_pow2_bits_low, Z.shiftl_spec by lia. done. }
  unfold MPIE, MIE, MPP. rewrite !Hb by lia. split_and!.
  - rewrite Z.land_spec. change (Z.testbit (word (-137)) 7) with false. change (Z.testbit 6144 7) with false.
    change (7 - 4) with 3. change (Z.testbit 8 3) with true. by rewrite andb_false_r, andb_true_r, orb_false_r.
  - change (Z.testbit (word (-137)) 3) with false. change (Z.testbit (Z.land s 8) (3 - 4)) with false. by rewrite andb_false_r.
  - apply Z.bits_inj'. intros i. destruct (decide (0 <= i)); [|by rewrite !Z.testbit_neg_r by lia].
    rewrite Z.land_spec, Z.shiftr_spec by lia. destruct (decide (i < 2)) as [Hi2|Hi2].
    + rewrite Hb by lia. assert (i = 0 ∨ i = 1) as [-> | ->] by lia; by rewrite orb_true_r.
    + assert (Z.testbit 3 i = false) as -> by (apply Z.bits_above_log2; simpl; lia). intros; apply andb_false_r.
Qed.

(** One load from a frame. *)
Ltac load :=
  eapply reaches_cons;
    [cbn [exec]; rewrite access_frame by (done || (cbn -[a t]; registers; done));
     cbn -[word Z.land Z.lor Z.ldiff Z.shiftl a t s fa ft fs]; registers; reflexivity|].

(** ** Saving *)

(** The caller of the switch: [old] and [new] are contexts. *)
Record saved (m m1 : Machine) : Prop := {
  saved_words p : p ∈ saves → m_mem m1 (m_reg m (a 0) + p.2) = m_reg m p.1;
  saved_csrs : m_mem m1 (m_reg m (a 0)) = saved_mstatus (m_mstatus m) ∧ m_mem m1 (m_reg m (a 0) + 256) = m_fcsr m;
  saved_elsewhere x : ¬ in_frame (m_reg m (a 0)) x → m_mem m1 x = m_mem m x;
  saved_new : m_reg m1 (a 1) = m_reg m (a 1);
}.

Lemma mask_spec lm m :
  frame_at (m_reg m (a 0)) → reaches lm mask_interrupts m (λ m1,
    (∀ r, r ≠ t 0 → r ≠ t 1 → r ≠ t 2 → m_reg m1 r = m_reg m r) ∧
    m_mem m1 = <[m_reg m (a 0) := saved_mstatus (m_mstatus m)]> (m_mem m) ∧ m_fcsr m1 = m_fcsr m).
Proof.
  intros Hf. destruct m as [f mem pc ms mepc fc mode]. unfold mask_interrupts. do 9 step.
  eapply reaches_cons.
  { cbn [exec]. rewrite access_frame; [reflexivity|cbn -[a t]; registers; exact Hf|done]. }
  apply reaches_nil. cbn -[a t word saved_mstatus Z.land Z.lor Z.shiftl]. registers. rewrite Z.add_0_r. split; [|done].
  intros r H0 H1 H2. by rewrite !fn_lookup_insert_ne by congruence.
Qed.

Lemma reaches_stores lm l base m Q :
  frame_at (m_reg m base) → forallb (λ p, offset_ok p.2) l = true →
  Q (m <| m_mem := stored l (m_reg m) (m_reg m base) (m_mem m) |>) →
  reaches lm ((λ p, Store p.1 p.2 base) <$> l) m Q.
Proof. intros. eexists. split; [by apply run_stores|done]. Qed.

Lemma reaches_loads lm l base m Q :
  frame_at (m_reg m base) → forallb (λ p, offset_ok p.2) l = true → forallb (λ p, negb (bool_decide (p.1 = base))) l = true →
  Q (m <| m_reg := loaded l (m_mem m) (m_reg m base) (m_reg m) |>) →
  reaches lm ((λ p, Load p.1 p.2 base) <$> l) m Q.
Proof. intros. eexists. split; [by apply run_loads|done]. Qed.

Lemma save_fcsr_spec lm m :
  frame_at (m_reg m (a 0)) → reaches lm save_fcsr m (λ m1,
    (∀ r, r ≠ t 0 → m_reg m1 r = m_reg m r) ∧ m_mem m1 = <[m_reg m (a 0) + 256 := m_fcsr m]> (m_mem m)).
Proof.
  intros Hf. destruct m as [f mem pc ms mepc fc mode]. unfold save_fcsr. step.
  eapply reaches_cons.
  { cbn [exec]. rewrite access_frame; [reflexivity|cbn -[a t]; registers; exact Hf|done]. }
  apply reaches_nil. cbn -[a t]. registers. split; [|done]. intros r H0. by rewrite fn_lookup_insert_ne by congruence.
Qed.

Lemma saves_ok : forallb (λ p, offset_ok p.2 && (4 <=? p.2) && (p.2 <? 256) &&
  negb (bool_decide (p.1 = t 0)) && negb (bool_decide (p.1 = t 1)) && negb (bool_decide (p.1 = t 2))) saves = true.
Proof. by vm_compute. Qed.

Lemma saves_offsets : NoDup saves.*2.
Proof. apply (bool_decide_unpack _). by vm_compute. Qed.

Lemma save_facts p : p ∈ saves → offset_ok p.2 = true ∧ 4 <= p.2 < 256 ∧ p.1 ≠ t 0 ∧ p.1 ≠ t 1 ∧ p.1 ≠ t 2.
Proof.
  intros Hp. pose proof saves_ok as H. rewrite forallb_forall in H. specialize (H p (proj1 (list_elem_of_In _ _) Hp)).
  repeat match goal with H : _ && _ = true |- _ => apply andb_prop in H as [? ?] end.
  repeat match goal with H : negb _ = true |- _ => apply negb_true_iff, bool_decide_eq_false in H end.
  split_and!; try done; lia.
Qed.

Lemma saving_spec lm m :
  frame_at (m_reg m (a 0)) →
  reaches lm (mask_interrupts ++ ((λ p, Store p.1 p.2 (a 0)) <$> saves) ++ save_fcsr) m (saved m).
Proof.
  intros Hf. apply reaches_app. eapply reaches_mono; [|apply (mask_spec lm m Hf)]. intros m1 (Hr1 & Hm1 & Hc1).
  assert (m_reg m1 (a 0) = m_reg m (a 0)) as Ha by (by apply Hr1).
  apply reaches_app, reaches_stores; rewrite ?Ha; [done|by vm_compute|].
  set (base := m_reg m (a 0)) in *.
  eapply reaches_mono; [|apply save_fcsr_spec; change (frame_at (m_reg m1 (a 0))); by rewrite Ha].
  intros m2 [Hr2 Hm2]. change (∀ r, r ≠ t 0 → m_reg m2 r = m_reg m1 r) in Hr2.
  change (m_mem m2 = <[m_reg m1 (a 0) + 256 := m_fcsr m1]> (stored saves (m_reg m1) base (m_mem m1))) in Hm2.
  rewrite Ha in Hm2.
  assert (∀ x, m_mem m2 x = (<[base + 256 := m_fcsr m1]> (stored saves (m_reg m1) base (m_mem m1))) x) as Hmem.
  { intros x. by rewrite Hm2. }
  split; fold base.
  - intros p Hp. destruct (save_facts p Hp) as (_ & Ho & H0 & H1 & H2). rewrite Hmem, fn_lookup_insert_ne by lia.
    destruct p as [r o]. rewrite (stored_at saves _ base _ r o saves_offsets Hp). by apply Hr1.
  - rewrite !Hmem, fn_lookup_insert, Hc1, fn_lookup_insert_ne by lia. split; [|done].
    rewrite stored_other; [by rewrite Hm1, fn_lookup_insert|]. intros p Hp. destruct (save_facts p Hp). lia.
  - intros x Hx. unfold in_frame in Hx. rewrite Hmem, fn_lookup_insert_ne by lia.
    rewrite stored_other; [|intros p Hp; destruct (save_facts p Hp); lia]. by rewrite Hm1, fn_lookup_insert_ne by lia.
  - rewrite Hr2 by done. by apply Hr1.
Qed.

(** ** Restoring *)

Record restored (m m1 : Machine) : Prop := {
  restored_words p : p ∈ restores → m_reg m1 p.1 = m_mem m (m_reg m (a 1) + p.2);
  restored_pc : m_pc m1 = Z.ldiff (m_mem m (m_reg m (a 1) + 4)) 1;
  restored_fcsr : m_fcsr m1 = m_mem m (m_reg m (a 1) + 256) mod 256;
  restored_mode : m_mode m1 = Z.land (Z.shiftr (m_mem m (m_reg m (a 1))) MPP) 3;
  restored_interrupts : Z.testbit (m_mstatus m1) MIE = Z.testbit (m_mem m (m_reg m (a 1))) MPIE;
  restored_memory : m_mem m1 = m_mem m;
}.

Lemma restore_csrs_spec lm m :
  frame_at (m_reg m (a 1)) → reaches lm restore_csrs m (λ m1,
    m_reg m1 (t 0) = m_reg m (a 1) ∧ m_mem m1 = m_mem m ∧ m_mstatus m1 = m_mem m (m_reg m (a 1)) ∧
    m_mepc m1 = Z.ldiff (m_mem m (m_reg m (a 1) + 4)) 1 ∧ m_fcsr m1 = m_mem m (m_reg m (a 1) + 256) mod 256).
Proof.
  intros Hf. destruct m as [f mem pc ms mepc fc mode]. cbn [m_reg m_mem] in *. unfold restore_csrs. step.
  do 3 (load; step). apply reaches_nil. cbn -[a t Z.ldiff Z.modulo]. registers.
  by rewrite Z.add_0_r.
Qed.

Lemma mret_interrupts lm s :
  Z.testbit (Z.lor (Z.ldiff (set_bit MPIE true (set_bit MIE (Z.testbit s MPIE) s)) (Z.shiftl 3 MPP)) (Z.shiftl lm MPP)) MIE =
    Z.testbit s MPIE.
Proof.
  unfold MIE, MPIE, MPP, set_bit. rewrite Z.lor_spec, Z.ldiff_spec, (Z.shiftl_spec lm), Z.lor_spec by lia.
  change (Z.testbit (Z.shiftl 3 11) 3) with false. change (Z.testbit (Z.shiftl 1 7) 3) with false.
  change (Z.testbit lm (3 - 11)) with false. cbn [negb]. rewrite orb_false_r, andb_true_r, orb_false_r.
  destruct (Z.testbit s 7); [by rewrite Z.lor_spec; apply orb_true_r|]. rewrite Z.ldiff_spec. by apply andb_false_r.
Qed.

Lemma restores_ok : forallb (λ p, offset_ok p.2) restores = true ∧
  forallb (λ p, negb (bool_decide (p.1 = t 0))) restores = true.
Proof. by vm_compute. Qed.

Lemma restores_registers : NoDup restores.*1.
Proof. apply (bool_decide_unpack _). by vm_compute. Qed.

Lemma restoring_spec lm m :
  frame_at (m_reg m (a 1)) →
  reaches lm (restore_csrs ++ ((λ p, Load p.1 p.2 (t 0)) <$> restores) ++ [Load (t 0) 120 (t 0); Mret]) m (restored m).
Proof.
  intros Hf. apply reaches_app. eapply reaches_mono; [|apply (restore_csrs_spec lm m Hf)].
  intros m1 (H0 & Hm & Hs & He & Hc). set (base := m_reg m (a 1)) in *.
  apply reaches_app, reaches_loads; rewrite ?H0; [done|apply restores_ok..|].
  set (m2 := m1 <| m_reg := _ |>).
  assert (m_reg m2 (t 0) = base) as H2.
  { change (loaded restores (m_mem m1) base (m_reg m1) (t 0) = base). rewrite loaded_other; [done|].
    intros p Hp E. destruct restores_ok as [_ Ho]. rewrite forallb_forall in Ho.
    specialize (Ho p (proj1 (list_elem_of_In _ _) Hp)). by apply negb_true_iff, bool_decide_eq_false in Ho. }
  eapply reaches_cons.
  { cbn [exec]. rewrite access_frame by (done || by rewrite H2). reflexivity. }
  eapply reaches_cons; [reflexivity|]. apply reaches_nil.
  split; fold base; try done.
  - intros p Hp. 
    change (<[t 0 := m_mem m1 (m_reg m2 (t 0) + 120)]> (loaded restores (m_mem m1) base (m_reg m1)) p.1 = m_mem m (base + p.2)).
    rewrite fn_lookup_insert_ne.
    + destruct p as [r o]. by rewrite (loaded_at restores _ base _ r o restores_registers Hp), Hm.
    + intros E. destruct restores_ok as [_ Ho]. rewrite forallb_forall in Ho.
      specialize (Ho p (proj1 (list_elem_of_In _ _) Hp)). by apply negb_true_iff, bool_decide_eq_false in Ho.
  - cbn. by rewrite <-Hs.
  - change (Z.testbit (Z.lor (Z.ldiff (set_bit MPIE true (set_bit MIE (Z.testbit (m_mstatus m1) MPIE) (m_mstatus m1)))
      (Z.shiftl 3 MPP)) (Z.shiftl lm MPP)) MIE = Z.testbit (m_mem m base) MPIE). by rewrite mret_interrupts, Hs.
Qed.

(** ** The switch *)

Definition apart (a b : Z) : Prop := a + 272 <= b ∨ b + 272 <= a.

Lemma fallback_spec lm m :
  frame_at (m_reg m (a 0)) → frame_at (m_reg m (a 1)) →
  reaches lm cooperative_context_switch_fallback m (λ m1, ∃ mid, saved m mid ∧ restored mid m1).
Proof.
  intros H0 H1. rewrite fallback_parts. apply reaches_app.
  eapply reaches_mono; [|apply (saving_spec lm m H0)]. intros mid Hs.
  eapply reaches_mono; [|apply restoring_spec; by rewrite (saved_new m mid Hs)]. intros m1 Hr. by exists mid.
Qed.

Definition callee_saved : list Reg :=
  [sp; tp; s 0; s 1; s 2; s 3; s 4; s 5; s 6; s 7; s 8; s 9; s 10; s 11;
   fs 0; fs 1; fs 2; fs 3; fs 4; fs 5; fs 6; fs 7; fs 8; fs 9; fs 10; fs 11].

(** Every callee-saved register is restored from where it was saved. *)
Lemma callee_saved_slots :
  forallb (λ r, existsb (λ p, bool_decide (p.1 = r) && bool_decide (p ∈ restores)) saves) callee_saved = true.
Proof. by vm_compute. Qed.

Lemma callee_saved_slot r : r ∈ callee_saved → ∃ o, (r, o) ∈ saves ∧ (r, o) ∈ restores.
Proof.
  intros Hr. pose proof callee_saved_slots as H. rewrite forallb_forall in H.
  specialize (H r (proj1 (list_elem_of_In _ _) Hr)). apply existsb_exists in H as ([r' o] & Hp%list_elem_of_In & H).
  apply andb_prop in H as [E%bool_decide_eq_true Hq%bool_decide_eq_true]. cbn [fst] in E. subst r'. by exists o.
Qed.

Lemma saves_ra : (ra, 4) ∈ saves.
Proof. left. Qed.

Lemma ldiff_even x : Z.even x = true → Z.ldiff x 1 = x.
Proof.
  intros H. apply Z.bits_inj'. intros i Hi. rewrite Z.ldiff_spec. destruct (decide (i = 0)) as [->|Hne].
  - rewrite Z.bit0_odd, <-Z.negb_even, H. done.
  - assert (Z.testbit 1 i = false) as -> by (apply Z.bits_above_log2; simpl; lia). apply andb_true_r.
Qed.

(** A thread that comes back: the frame it saved is the one it is restored from. *)
Lemma resumed_spec m0 mid m2 mid2 m3 :
  saved m0 mid → saved m2 mid2 → restored mid2 m3 →
  m_reg m2 (a 1) = m_reg m0 (a 0) → apart (m_reg m0 (a 0)) (m_reg m2 (a 0)) →
  (∀ x, in_frame (m_reg m0 (a 0)) x → m_mem m2 x = m_mem mid x) →
  Z.even (m_reg m0 ra) = true → 0 <= m_fcsr m0 < 256 →
  m_pc m3 = m_reg m0 ra ∧ (∀ r, r ∈ callee_saved → m_reg m3 r = m_reg m0 r) ∧ m_fcsr m3 = m_fcsr m0 ∧
  Z.testbit (m_mstatus m3) MIE = Z.testbit (m_mstatus m0) MIE ∧ m_mode m3 = 3.
Proof.
  intros Hs Hs2 Hr Ha Hap Hkeep Hra Hfc. set (A := m_reg m0 (a 0)) in *.
  assert (m_reg mid2 (a 1) = A) as Ha2 by (by rewrite (saved_new _ _ Hs2)).
  assert (∀ x, in_frame A x → m_mem mid2 x = m_mem mid x) as Hmem.
  { intros x Hx. rewrite (saved_elsewhere _ _ Hs2), Hkeep; [done..|]. unfold in_frame, apart in *. lia. }
  destruct (saved_csrs _ _ Hs) as [Hst Hf]. fold A in Hst, Hf.
  assert (∀ r o, (r, o) ∈ saves → m_mem mid2 (A + o) = m_reg m0 r) as Hword.
  { intros r o Hp. destruct (save_facts _ Hp) as (_ & Ho & _). cbn [snd] in Ho.
    rewrite Hmem by (unfold in_frame; lia). apply (saved_words _ _ Hs _ Hp). }
  split_and!.
  - rewrite (restored_pc _ _ Hr), Ha2, (Hword ra 4 saves_ra). by apply ldiff_even.
  - intros r (o & Hp & Hq)%callee_saved_slot. pose proof (restored_words _ _ Hr _ Hq) as E. cbn [fst snd] in E.
    rewrite E, Ha2. by apply Hword.
  - rewrite (restored_fcsr _ _ Hr), Ha2, Hmem, Hf by (unfold in_frame; lia). by apply Z.mod_small.
  - rewrite (restored_interrupts _ _ Hr), Ha2, Hmem, Hst by (unfold in_frame; lia). apply saved_mstatus_bits.
  - rewrite (restored_mode _ _ Hr), Ha2, Hmem, Hst by (unfold in_frame; lia). apply saved_mstatus_bits.
Qed.

(** C23: The port-less context switch (RTOS-PORT-001): executed instruction by instruction
    it writes nothing outside the context of the thread that leaves; and when that thread
    is switched back to, by a switch from any other context and with anything done to the
    rest of the machine in between, it continues after its call in machine mode with its
    stack pointer, its callee-saved integer and floating-point registers, its rounding
    mode and flags and its interrupt enable exactly as they were. *)
Theorem fallback_resumes_caller (lm : Z) (m0 : Machine) :
  frame_at (m_reg m0 (a 0)) → frame_at (m_reg m0 (a 1)) → apart (m_reg m0 (a 0)) (m_reg m0 (a 1)) →
  Z.even (m_reg m0 ra) = true → 0 <= m_fcsr m0 < 256 →
  reaches lm cooperative_context_switch_fallback m0 (λ m1,
    (∀ x, ¬ in_frame (m_reg m0 (a 0)) x → m_mem m1 x = m_mem m0 x) ∧
    ∀ m2, m_reg m2 (a 1) = m_reg m0 (a 0) → frame_at (m_reg m2 (a 0)) → apart (m_reg m0 (a 0)) (m_reg m2 (a 0)) →
      (∀ x, in_frame (m_reg m0 (a 0)) x → m_mem m2 x = m_mem m1 x) →
      reaches lm cooperative_context_switch_fallback m2 (λ m3,
        m_pc m3 = m_reg m0 ra ∧ (∀ r, r ∈ callee_saved → m_reg m3 r = m_reg m0 r) ∧ m_fcsr m3 = m_fcsr m0 ∧
        Z.testbit (m_mstatus m3) MIE = Z.testbit (m_mstatus m0) MIE ∧ m_mode m3 = 3)).
Proof.
  intros HA HB Hap Hra Hfc. eapply reaches_mono; [|by apply fallback_spec]. intros m1 (mid & Hs & Hr).
  pose proof (restored_memory _ _ Hr) as Hmem. split; [intros x Hx; rewrite Hmem; by apply Hs|].
  intros m2 Ha1 HC HapC Hkeep. eapply reaches_mono; [|apply fallback_spec; [done|by rewrite Ha1]].
  intros m3 (mid2 & Hs2 & Hr2). apply (resumed_spec m0 mid m2 mid2 m3); try done.
  intros x Hx. by rewrite <-Hmem, Hkeep.
Qed.

(** Two contexts at 4096 and 8192; the caller returns to 512. *)
Definition witness_machine : Machine :=
  mkMachine (λ r, if decide (r = a 0) then 4096 else if decide (r = a 1) then 8192 else
    if decide (r = ra) then 512 else match r with X n => 1000 + n | F n => 2000 + n end)
    (λ _, 0) 0 8 0 3 3.

Lemma fallback_resumes_caller_witness :
  Z.testbit (m_mstatus witness_machine) MIE = true ∧
  reaches 0 cooperative_context_switch_fallback witness_machine (λ m1,
    (∀ x, ¬ in_frame (m_reg witness_machine (a 0)) x → m_mem m1 x = m_mem witness_machine x) ∧
    ∀ m2, m_reg m2 (a 1) = m_reg witness_machine (a 0) → frame_at (m_reg m2 (a 0)) →
      apart (m_reg witness_machine (a 0)) (m_reg m2 (a 0)) →
      (∀ x, in_frame (m_reg witness_machine (a 0)) x → m_mem m2 x = m_mem m1 x) →
      reaches 0 cooperative_context_switch_fallback m2 (λ m3,
        m_pc m3 = m_reg witness_machine ra ∧
        (∀ r, r ∈ callee_saved → m_reg m3 r = m_reg witness_machine r) ∧ m_fcsr m3 = m_fcsr witness_machine ∧
        Z.testbit (m_mstatus m3) MIE = Z.testbit (m_mstatus witness_machine) MIE ∧ m_mode m3 = 3)).
Proof.
  split; [reflexivity|]. apply (fallback_resumes_caller 0 witness_machine).
  - split; [split; vm_compute; congruence|reflexivity].
  - split; [split; vm_compute; congruence|reflexivity].
  - left. vm_compute. congruence.
  - reflexivity.
  - split; vm_compute; congruence.
Defined.

(** ** A new context *)

(** The words [ws] are in memory from [a] on. *)
Definition words_at (mem : Z → Z) (a : Z) (ws : list Z) : Prop :=
  ∀ k v, ws !! k = Some v → mem (a + 4 * Z.of_nat k) = v.

Lemma write_words_spec ws a mem :
  words_at (write_words ws a mem) a ws ∧
  ∀ x, (∀ k, (k < length ws)%nat → x ≠ a + 4 * Z.of_nat k) → write_words ws a mem x = mem x.
Proof.
  unfold write_words. induction ws as [|v ws IH] using rev_ind; [done|].
  rewrite imap_app, foldl_app. cbn [imap foldl]. rewrite Nat.add_0_r. destruct IH as [IH1 IH2]. split.
  - intros k u Hk. apply lookup_app_Some in Hk as [Hk|[Hl Hk]].
    + apply lookup_lt_Some in Hk as Hlt. rewrite fn_lookup_insert_ne by lia. by apply IH1.
    + apply list_lookup_singleton_Some in Hk as [Hk <-]. assert (k = length ws) as -> by lia. apply fn_lookup_insert.
  - intros x Hx. rewrite length_app in Hx. cbn [length] in Hx.
    rewrite fn_lookup_insert_ne by (apply not_eq_sym, Hx; lia). apply IH2. intros k Hk. apply Hx. lia.
Qed.

Lemma words_at_insert mem a ws k v :
  words_at mem a ws → words_at (<[a + 4 * Z.of_nat k := v]> mem) a (<[k := v]> ws).
Proof.
  intros H j u [(<- & <- & _)|[Hj Hu]]%list_lookup_insert_Some; [apply fn_lookup_insert|].
  rewrite fn_lookup_insert_ne by lia. by apply H.
Qed.

Lemma context_words_initial entry top tp fcsr :
  context_words (initial_context entry top tp fcsr) =
    <[64%nat := fcsr]> (<[3%nat := word top]> (<[2%nat := tp]> (<[1%nat := word entry]> (<[0%nat := 30848]>
      (replicate (Z.to_nat TASK_CONTEXT_WORDS) 0))))).
Proof. reflexivity. Qed.

Lemma initialize_irq_frame_spec top entry tp fcsr mem :
  272 <= top → word tp = tp →
  ∃ mem', initialize_irq_frame top entry tp fcsr mem = Some (top - 272, mem') ∧
    words_at mem' (top - 272) (context_words (initial_context entry top tp fcsr)) ∧
    ∀ x, ¬ in_frame (top - 272) x → mem' x = mem x.
Proof.
  intros Ht Htp. unfold initialize_irq_frame, irq_frame_address, TASK_CONTEXT_WORDS, checked_sub.
  rewrite (proj2 (Z.leb_le _ _)) by lia. cbn [mbind option_bind]. change (68 * 4) with 272. set (frame := top - 272).
  eexists. split; [reflexivity|]. rewrite Htp.
  destruct (write_words_spec (replicate (Z.to_nat 68) 0) frame mem) as [H1 H2]. split.
  - rewrite context_words_initial. change TASK_CONTEXT_WORDS with 68.
    apply (words_at_insert _ _ _ 64), (words_at_insert _ _ _ 3), (words_at_insert _ _ _ 2), (words_at_insert _ _ _ 1).
    pose proof (words_at_insert _ frame _ 0 30848 H1) as H. by rewrite Z.add_0_r in H.
  - intros x Hx. unfold in_frame in Hx. rewrite !fn_lookup_insert_ne by lia. apply H2.
    rewrite length_replicate. intros k Hk. lia.
Qed.

(** The other words of a new context are zero. *)
Lemma initial_zero entry top tp fcsr o :
  offset_ok o = true → 16 <= o → o < 256 →
  context_words (initial_context entry top tp fcsr) !! Z.to_nat (o / 4) = Some 0 ∧ o = 4 * Z.of_nat (Z.to_nat (o / 4)).
Proof.
  intros [_ Hm%Z.eqb_eq]%andb_prop H1 H2. pose proof (Z.div_mod o 4 ltac:(lia)).
  split; [|lia]. rewrite context_words_initial, !list_lookup_insert_ne by lia.
  apply lookup_replicate_2. unfold TASK_CONTEXT_WORDS. lia.
Qed.

Lemma callee_saved_zero :
  forallb (λ r, bool_decide (r = sp) || bool_decide (r = tp) ||
    existsb (λ p, bool_decide (p.1 = r) && offset_ok p.2 && (16 <=? p.2) && (p.2 <? 256)) restores) callee_saved = true.
Proof. by vm_compute. Qed.

Lemma callee_saved_words r : r ∈ callee_saved → r ≠ sp → r ≠ tp →
  ∃ o, (r, o) ∈ restores ∧ offset_ok o = true ∧ 16 <= o < 256.
Proof.
  intros Hr H1 H2. pose proof callee_saved_zero as H. rewrite forallb_forall in H.
  specialize (H r (proj1 (list_elem_of_In _ _) Hr)). rewrite !bool_decide_false in H by done. cbn [orb] in H.
  apply existsb_exists in H as ([r' o] & Hp%list_elem_of_In & H).
  apply andb_prop in H as [[[E%bool_decide_eq_true Ho]%andb_prop H3%Z.leb_le]%andb_prop H4%Z.ltb_lt].
  cbn [fst snd] in *. subst r'. by exists o.
Qed.

(** C24: A new task starts at its entry: the frame [initialize_irq_frame]
    writes below the top of the stack is word for word the context a new TCB gets, and
    nothing else is written; and a switch to such a context arrives at the trampoline in
    machine mode with interrupts enabled, the stack pointer at the top of the stack, the
    given thread pointer and floating-point state, and zero in the other registers the
    calling convention preserves. *)
Theorem fresh_context_starts (lm top entry tp' fcsr : Z) (mem : Z → Z) :
  272 <= top < 2 ^ 32 → 0 <= entry < 2 ^ 32 → Z.even entry = true → 0 <= tp' < 2 ^ 32 → 0 <= fcsr < 256 →
  (∃ mem', initialize_irq_frame top entry tp' fcsr mem = Some (top - 272, mem') ∧
    words_at mem' (top - 272) (context_words (initial_context entry top tp' fcsr)) ∧
    ∀ x, ¬ in_frame (top - 272) x → mem' x = mem x) ∧
  ∀ m, frame_at (m_reg m (a 0)) → frame_at (m_reg m (a 1)) → apart (m_reg m (a 0)) (m_reg m (a 1)) →
    words_at (m_mem m) (m_reg m (a 1)) (context_words (initial_context entry top tp' fcsr)) →
    reaches lm cooperative_context_switch_fallback m (λ m1,
      m_pc m1 = entry ∧ m_mode m1 = 3 ∧ Z.testbit (m_mstatus m1) MIE = true ∧
      m_reg m1 sp = top ∧ m_reg m1 tp = tp' ∧ m_fcsr m1 = fcsr ∧
      ∀ r, r ∈ callee_saved → r ≠ sp → r ≠ tp → m_reg m1 r = 0).
Proof.
  intros Ht He Hev Htp Hfc. split; [apply initialize_irq_frame_spec; [lia|by apply Z.mod_small]|].
  intros m HA HB Hap Hw. eapply reaches_mono; [|by apply fallback_spec]. intros m1 (mid & Hs & Hr).
  set (B := m_reg m (a 1)) in *.
  assert (∀ k v, context_words (initial_context entry top tp' fcsr) !! k = Some v →
    (k < 68)%nat → m_mem mid (B + 4 * Z.of_nat k) = v) as Hword.
  { intros k v Hk Hl. rewrite (saved_elsewhere _ _ Hs); [by apply Hw|]. unfold in_frame, apart in *. lia. }
  assert (m_reg mid (a 1) = B) as Hb by apply (saved_new _ _ Hs).
  pose proof (restored_words _ _ Hr) as Hrw. rewrite Hb in Hrw.
  assert (∀ r k v, (r, 4 * Z.of_nat k) ∈ restores → context_words (initial_context entry top tp' fcsr) !! k = Some v →
    (k < 68)%nat → m_reg m1 r = v) as Hreg.
  { intros r k v Hp Hk Hl. rewrite (Hrw _ Hp : m_reg m1 r = _). by apply Hword. }
  destruct Hr as [_ Hpc Hf Hmode Hint _]. rewrite Hb in Hpc, Hf, Hmode, Hint.
  pose proof (Hword 0%nat _ eq_refl ltac:(lia)) as W0. rewrite Z.add_0_r in W0. rewrite W0 in Hmode, Hint.
  rewrite (Hword 1%nat _ eq_refl ltac:(lia) : m_mem mid (B + 4) = _) in Hpc.
  rewrite (Hword 64%nat _ eq_refl ltac:(lia) : m_mem mid (B + 256) = _) in Hf.
  split_and!.
  - rewrite Hpc. cbn [initial_context]. rewrite <-(ldiff_even entry Hev) at 2. f_equal. by apply Z.mod_small.
  - by rewrite Hmode.
  - by rewrite Hint.
  - rewrite (Hreg sp 3%nat (word top)); [unfold word; apply Z.mod_small; lia|apply (bool_decide_unpack _); by vm_compute|done|lia].
  - apply (Hreg tp 2%nat); [apply (bool_decide_unpack _); by vm_compute|done|lia].
  - rewrite Hf. by apply Z.mod_small.
  - intros r Hr H1 H2. destruct (callee_saved_words r Hr H1 H2) as (o & Hp & Ho & H3 & H4).
    destruct (initial_zero entry top tp' fcsr o Ho H3 H4) as [Hz Eo].
    apply (Hreg r (Z.to_nat (o / 4))); [by rewrite <-Eo|done|]. lia.
Qed.

(** A switch from the context at 4096 to a new one at 8192 whose stack ends at 16384. *)
Definition fresh_machine : Machine := witness_machine
  <| m_mem := write_words (context_words (initial_context 1024 16384 77 0)) 8192 (λ _, 0) |>.

Lemma fresh_context_starts_witness :
  (∃ mem', initialize_irq_frame 16384 1024 77 0 (λ _, 0) = Some (16112, mem') ∧
    words_at mem' 16112 (context_words (initial_context 1024 16384 77 0)) ∧
    ∀ x, ¬ in_frame 16112 x → mem' x = 0) ∧
  reaches 0 cooperative_context_switch_fallback fresh_machine (λ m1,
    m_pc m1 = 1024 ∧ m_mode m1 = 3 ∧ Z.testbit (m_mstatus m1) MIE = true ∧
    m_reg m1 sp = 16384 ∧ m_reg m1 tp = 77 ∧ m_fcsr m1 = 0 ∧
    ∀ r, r ∈ callee_saved → r ≠ sp → r ≠ tp → m_reg m1 r = 0).
Proof.
  destruct (fresh_context_starts 0 16384 1024 77 0 (λ _, 0)) as [H1 H2];
    [split; vm_compute; congruence..|reflexivity|split; vm_compute; congruence|split; vm_compute; congruence|].
  split; [exact H1|]. apply H2.
  - split; [split; vm_compute; congruence|reflexivity].
  - split; [split; vm_compute; congruence|reflexivity].
  - left. vm_compute. congruence.
  - exact (proj1 (write_words_spec (context_words (initial_context 1024 16384 77 0)) 8192 (λ _, 0))).
Defined.
