(* ===== verification/Storage.v ===== *)
(** * Caller-owned storage ([src/storage.rs])

    An arena of the application becomes the heap of the scheduler once: [install] claims
    the storage in a critical section, initialises the heap outside it, and gives the
    claim back when the arena is unusable. The heap itself ([hisi_alloc::CHeap]) is
    outside the repository and a parameter. The calls may interleave between the
    critical sections; [install_step] is that interleaving. The erased table of
    functions the runtime is given is the instance [storage_stack_heap] of the interface
    the rest of the development allocates through. *)

From stdpp Require Import relations.
From S2P Require Import Prelude Effects Config Statics.

Inductive StorageError :=
| AlreadyInstalled
| InvalidArena
| UnsupportedCapacity (requested maximum : Z).

(** The operations of the heap the storage uses; [Arena] is an arena's address. *)
Class CHeap (Arena H : Type) := {
  cheap_init : Arena → Z → H → result unit unit * H;
  cheap_allocate_zeroed : Z → Z → M H Z;
  cheap_deallocate : Z → M H (result unit unit);
  cheap_largest : Z → H → Z;
  cheap_live : H → gmap Z Z;
}.

Record SchedulerStorage (H : Type) := mkStorage { ss_heap : H; ss_installed : bool }.
Arguments mkStorage {H}. Arguments ss_heap {H}. Arguments ss_installed {H}.
#[export] Instance eta_SchedulerStorage H : Eta (SchedulerStorage H) := λ s, mkStorage (ss_heap s) (ss_installed s).
#[export] Instance field_ss_heap H : Field (@ss_heap H). Proof. derive_field. Defined.
#[export] Instance field_ss_installed H : Field (@ss_installed H). Proof. derive_field. Defined.

Section Storage.
  Context {Arena H : Type} `{CHeap Arena H} (n : Z).

(** [SchedulerStorage::install], critical section by critical section. *)
Definition install_claim : M (SchedulerStorage H) (result StorageError unit) :=
  if (n =? 0) || (DYNAMIC_TASK_CAPACITY <? n) then mret (Err (UnsupportedCapacity n DYNAMIC_TASK_CAPACITY))
  else
    already_installed ← gets ss_installed;
    modify (λ s, s <| ss_installed := true |>) ;;
    mret (if already_installed : bool then Err AlreadyInstalled else Ok tt).

Definition install_init (arena : Arena) (bytes : Z) : M (SchedulerStorage H) bool :=
  h ← gets ss_heap;
  let r := cheap_init arena bytes h in
  modify (λ s, s <| ss_heap := snd r |>) ;;
  mret (is_ok (fst r)).

Definition install_unclaim : M (SchedulerStorage H) unit := modify (λ s, s <| ss_installed := false |>).

(** The capacity of the storage it returns. *)
Definition install (arena : Arena) (bytes : Z) : M (SchedulerStorage H) (result StorageError Z) :=
  _ ←? install_claim;
  ok ← install_init arena bytes;
  if ok : bool then mret (Ok n) else install_unclaim ;; mret (Err InvalidArena).

(** ** Interleaved calls *)

Inductive InstallPhase :=
| Calling (arena : Arena) (bytes : Z)
| Claimed (arena : Arena) (bytes : Z)
| Rejected
| Returned (r : result StorageError Z).

Definition Installing : Type := SchedulerStorage H * list InstallPhase.

Inductive install_step (i : nat) : Installing → Installing → Prop :=
| step_claim s s' ps arena bytes r :
    ps !! i = Some (Calling arena bytes) → install_claim s = Done (r, s') →
    install_step i (s, ps) (s', <[i := match r with Ok _ => Claimed arena bytes | Err e => Returned (Err e) end]> ps)
| step_init s s' ps arena bytes b :
    ps !! i = Some (Claimed arena bytes) → install_init arena bytes s = Done (b, s') →
    install_step i (s, ps) (s', <[i := if b : bool then Returned (Ok n) else Rejected]> ps)
| step_unclaim s s' ps :
    ps !! i = Some Rejected → install_unclaim s = Done (tt, s') →
    install_step i (s, ps) (s', <[i := Returned (Err InvalidArena)]> ps).

(** The call that holds the storage. *)
Definition holds (p : InstallPhase) : bool :=
  match p with Claimed _ _ | Rejected | Returned (Ok _) => true | Calling _ _ | Returned (Err _) => false end.

Record install_ok (st : Installing) : Prop := {
  install_exclusive i j p p' : st.2 !! i = Some p → st.2 !! j = Some p' → holds p = true → holds p' = true → i = j;
  install_flag : st.1.(ss_installed) = true ↔ ∃ i p, st.2 !! i = Some p ∧ holds p = true;
}.

Lemma install_ok_start h calls : install_ok (mkStorage h false, (λ c, Calling c.1 c.2) <$> calls).
Proof.
  assert (∀ i p, ((λ c : Arena * Z, Calling c.1 c.2) <$> calls) !! i = Some p → holds p = false) as Hc.
  { intros i p (c & -> & _)%list_lookup_fmap_Some. done. }
  split; simpl; [intros i j p p' Hp _ Hh; apply Hc in Hp; congruence|].
  split; [done|]. intros (i & p & Hp & Hh). apply Hc in Hp. congruence.
Qed.

(** The phase of one call changes, and the flag with it. *)
Lemma install_ok_change s s' ps i p p' :
  install_ok (s, ps) → ps !! i = Some p →
  (holds p = true → ss_installed s' = holds p') →
  (holds p = false → holds p' = true → ss_installed s = false ∧ ss_installed s' = true) →
  (holds p = false → holds p' = false → ss_installed s' = ss_installed s) →
  install_ok (s', <[i := p']> ps).
Proof.
  intros [He Hf] Hp H1 H2 H3. cbn [fst snd] in He, Hf.
  assert (∀ j x, <[i:=p']> ps !! j = Some x → (j = i ∧ x = p') ∨ (j ≠ i ∧ ps !! j = Some x)) as Hl.
  { intros j x [(-> & -> & _)|[? ?]]%list_lookup_insert_Some; auto. }
  assert (<[i:=p']> ps !! i = Some p') as Hi by (apply list_lookup_insert_eq; by eapply lookup_lt_Some).
  destruct (holds p) eqn:Eh.
  - assert (∀ j x, j ≠ i → ps !! j = Some x → holds x = false) as Hothers.
    { intros j x Hj Hx. destruct (holds x) eqn:Ex; [|done]. destruct Hj. by apply (He j i x p). }
    split; simpl.
    + intros j k x y Hx Hy Hxh Hyh. apply Hl in Hx as [[-> _]|[Hj Hx]]; [|by rewrite (Hothers j x Hj Hx) in Hxh].
      apply Hl in Hy as [[-> _]|[Hk Hy]]; [done|by rewrite (Hothers k y Hk Hy) in Hyh].
    + rewrite H1 by done. split; [intros Hh; by exists i, p'|]. intros (j & x & Hx & Hxh).
      apply Hl in Hx as [[-> ->]|[Hj Hx]]; [done|by rewrite (Hothers j x Hj Hx) in Hxh].
  - destruct (holds p') eqn:Eh'.
    + destruct (H2 eq_refl eq_refl) as [E1 E2].
      assert (∀ j x, ps !! j = Some x → holds x = false) as Hnone.
      { intros j x Hx. destruct (holds x) eqn:Ex; [|done]. rewrite (proj2 Hf) in E1; [done|by exists j, x]. }
      split; simpl.
      * intros j k x y Hx Hy Hxh Hyh. apply Hl in Hx as [[-> _]|[Hj Hx]]; [|by rewrite (Hnone j x Hx) in Hxh].
        apply Hl in Hy as [[-> _]|[Hk Hy]]; [done|by rewrite (Hnone k y Hy) in Hyh].
      * rewrite E2. split; [intros _; by exists i, p'|done].
    + split; simpl.
      * intros j k x y Hx Hy Hxh Hyh. apply Hl in Hx as [[_ ->]|[Hj Hx]]; [congruence|].
        apply Hl in Hy as [[_ ->]|[Hk Hy]]; [congruence|]. by apply (He j k x y).
      * rewrite (H3 eq_refl eq_refl), Hf. split; intros (j & x & Hx & Hxh).
        -- exists j, x. split; [|done]. rewrite list_lookup_insert_ne; [done|]. intros ->. congruence.
        -- apply Hl in Hx as [[_ ->]|[Hj Hx]]; [congruence|]. by exists j, x.
Qed.

Lemma install_ok_step i st st' : install_ok st → install_step i st st' → install_ok st'.
Proof.
  intros Hok Hs. destruct Hs as [s s' ps arena bytes r Hp E|s s' ps arena bytes b Hp E|s s' ps Hp E].
  - apply (install_ok_change s s' ps i (Calling arena bytes)); try done.
    + intros _. revert E. unfold install_claim. destruct (_ || _); intros [= <- <-]; [done|]. by destruct (ss_installed s).
    + intros _. revert E. unfold install_claim. destruct (_ || _); intros [= <- <-]; [done|].
      by destruct (ss_installed s) eqn:Ei.
  - apply (install_ok_change s s' ps i (Claimed arena bytes)); try done. intros _. injection E as <- <-.
    assert (ss_installed s = true) as Hi by (apply (install_flag _ Hok); by exists i, (Claimed arena bytes)).
    simpl. rewrite Hi. by destruct (is_ok _).
  - apply (install_ok_change s s' ps i Rejected); try done. intros _. by injection E as <-.
Qed.

(** Any number of steps of any calls. *)
Definition interleaved : Installing → Installing → Prop := rtc (λ st st', ∃ i, install_step i st st').

Lemma interleaved_invariant (I : Installing → Prop) st st' :
  (∀ i st st', I st → install_step i st st' → I st') → I st → interleaved st st' → I st'.
Proof. intros HI Hst Hr. induction Hr as [|st st1 st2 [i Hs] _ IH]; [done|]. by eapply IH, HI. Qed.

Definition supported : Prop := n ≠ 0 ∧ n <= DYNAMIC_TASK_CAPACITY.

(** Only a supported storage is ever held, and success returns its capacity. *)
Definition install_sound (st : Installing) : Prop := ∀ i p, st.2 !! i = Some p →
  (holds p = true → supported) ∧ ∀ r, p = Returned (Ok r) → r = n.

Lemma install_sound_step i st st' : install_sound st → install_step i st st' → install_sound st'.
Proof.
  intros Hok Hs. destruct Hs as [s s' ps arena bytes r Hp E|s s' ps arena bytes b Hp E|s s' ps Hp E];
    intros j p [(_ & <- & _)|[_ H']]%list_lookup_insert_Some; try by apply (Hok j).
  - revert E. unfold install_claim, supported.
    destruct (Z.eqb_spec n 0), (Z.ltb_spec DYNAMIC_TASK_CAPACITY n); cbn [orb]; intros [= <- _]; try done.
    by destruct (ss_installed s).
  - destruct (Hok i _ Hp) as [Hsup _]. destruct b; (split; [intros _; by apply Hsup|]); [by intros r [= ->]|done].
  - done.
Qed.

Lemma install_progress i s ps p : ps !! i = Some p → (∃ r, p = Returned r) ∨ ∃ st', install_step i (s, ps) st'.
Proof.
  intros Hp. destruct p as [arena bytes|arena bytes| |r]; [right|right|right|left; by exists r].
  - destruct (install_claim s) as [[r s']|f] eqn:E; [eexists; eapply step_claim; [exact Hp|exact E]|].
    revert E. unfold install_claim. by destruct (_ || _).
  - set (r := cheap_init arena bytes (ss_heap s)).
    eexists. apply (step_init i s (s <| ss_heap := snd r |>) ps arena bytes (is_ok (fst r)) Hp). reflexivity.
  - eexists. eapply step_unclaim; [exact Hp|reflexivity].
Qed.

(** Only the call that claimed the storage touches the heap. *)
Lemma install_heap i s ps s' ps' :
  install_step i (s, ps) (s', ps') → ss_heap s' = ss_heap s ∨
    ∃ arena bytes, ps !! i = Some (Claimed arena bytes) ∧
      ss_heap s' = snd (cheap_init arena bytes (ss_heap s)) ∧
      ps' !! i = Some (match fst (cheap_init arena bytes (ss_heap s)) with Ok _ => Returned (Ok n) | Err _ => Rejected end).
Proof.
  intros Hs. inversion Hs as [? ? ? arena bytes r Hp E|? ? ? arena bytes b Hp E|? ? ? Hp E]; subst.
  - left. revert E. unfold install_claim. destruct (_ || _); by intros [= _ <-].
  - right. exists arena, bytes. injection E as <- <-. split_and!; [done|done|].
    rewrite list_lookup_insert_eq by (by eapply lookup_lt_Some). by destruct (fst _).
  - left. by injection E as <-.
Qed.

Lemma install_refused i s ps s' ps' : n = 0 ∨ DYNAMIC_TASK_CAPACITY < n →
  (∀ j p, ps !! j = Some p → holds p = false) → install_step i (s, ps) (s', ps') →
  s' = s ∧ (∀ j p, ps' !! j = Some p → holds p = false).
Proof.
  intros Hn Hnone Hs. assert ((n =? 0) || (DYNAMIC_TASK_CAPACITY <? n) = true) as Hb by lia.
  inversion Hs as [? ? ? arena bytes r Hp E|? ? ? arena bytes b Hp E|? ? ? Hp E]; subst;
    [|by apply Hnone in Hp..].
  revert E. unfold install_claim. rewrite Hb. intros [= <- <-]. split; [done|].
  intros j p [(_ & <- & _)|[_ H']]%list_lookup_insert_Some; [done|by eapply Hnone].
Qed.
End Storage.

(** C22: Storage is installed once. However concurrent calls of [install] interleave, at
    most one of them holds the storage, from its claim to its failure or for good once it
    succeeded; only that call touches the heap; after a success nothing changes the heap
    again; a storage whose capacity the build does not support is never touched; and no
    call gets stuck. *)
Theorem storage_installed_once {Arena H : Type} `{CHeap Arena H} (n : Z) (h : H) (calls : list (Arena * Z))
    (s : SchedulerStorage H) (ps : list InstallPhase) :
  interleaved n (mkStorage h false, (λ c, Calling c.1 c.2) <$> calls) (s, ps) →
  (∀ i j r r', ps !! i = Some (Returned (Ok r)) → ps !! j = Some (Returned (Ok r')) → i = j) ∧
  (ss_installed s = true ↔ ∃ i p, ps !! i = Some p ∧ holds p = true) ∧
  (∀ i r, ps !! i = Some (Returned (Ok r)) → r = n ∧ n ≠ 0 ∧ n <= DYNAMIC_TASK_CAPACITY) ∧
  (∀ i s' ps', install_step n i (s, ps) (s', ps') → ss_heap s' ≠ ss_heap s →
    (∃ arena bytes, ps !! i = Some (Claimed arena bytes)) ∧
    ∀ j r, ps !! j ≠ Some (Returned (Ok r))) ∧
  (n = 0 ∨ DYNAMIC_TASK_CAPACITY < n → s = mkStorage h false) ∧
  ∀ i p, ps !! i = Some p → (∃ r, p = Returned r) ∨ ∃ st', install_step n i (s, ps) st'.
Proof.
  intros Hr. pose proof (interleaved_invariant n install_ok _ _ (install_ok_step n) (install_ok_start h calls) Hr) as [He Hf].
  assert (install_sound n (mkStorage h false, (λ c : Arena * Z, Calling c.1 c.2) <$> calls)) as Hstart.
  { intros i p (c & -> & _)%list_lookup_fmap_Some. done. }
  pose proof (interleaved_invariant n (install_sound n) _ _ (install_sound_step n) Hstart Hr) as Hsound.
  split_and!.
  - intros i j r r' Hi Hj. by apply (He i j _ _ Hi Hj).
  - exact Hf.
  - intros i r Hi. destruct (Hsound i _ Hi) as [H1 H2]. by split; [apply H2|apply H1].
  - intros i s' ps' Hs Hne. destruct (install_heap n i s ps s' ps' Hs) as [|(arena & bytes & Hp & _)]; [done|].
    split; [by exists arena, bytes|]. intros j r Hj. assert (i = j) as <- by (by apply (He i j _ _ Hp Hj)). simpl in *. congruence.
  - intros Hn. apply (interleaved_invariant n (λ st, st.1 = mkStorage h false ∧ ∀ j p, st.2 !! j = Some p → holds p = false)
      (mkStorage h false, (λ c : Arena * Z, Calling c.1 c.2) <$> calls) (s, ps)); [| |done].
    + intros i [s1 ps1] [s2 ps2] [E1 E2] Hs. destruct (install_refused n i s1 ps1 s2 ps2 Hn E2 Hs) as [-> ?]. done.
    + split; [done|]. intros j p (c & -> & _)%list_lookup_fmap_Some. done.
  - intros i p Hp. by apply install_progress.
Qed.

(** ** The erased capability *)

(** The functions [install] hands to the runtime: stacks are 16-aligned, and the
    [debug_assert] on deallocation. *)
#[export] Instance storage_stack_heap {Arena H} `{CHeap Arena H} : StackHeap H := {
  heap_allocate size := cheap_allocate_zeroed size 16;
  heap_deallocate p := r ← cheap_deallocate p; assert_ (is_ok r);
  heap_largest h := cheap_largest 16 h;
  heap_live := cheap_live;
}.

(** What [hisi_alloc] documents of an initialised heap. *)
Class CHeapLaws (Arena H : Type) `{CHeap Arena H} : Prop := {
  cheap_allocate_law size h : wp (cheap_allocate_zeroed size 16) (λ p h',
    if p =? 0 then cheap_live h' = cheap_live h
    else 0 < p ∧ p + size <= usize_max ∧ cheap_live h !! p = None ∧ cheap_live h' = <[p := size]> (cheap_live h)) h;
  cheap_deallocate_law p h : is_Some (cheap_live h !! p) →
    wp (cheap_deallocate p) (λ r h', r = Ok tt ∧ cheap_live h' = delete p (cheap_live h)) h;
}.

#[export] Instance storage_stack_heap_laws {Arena H} `{CHeapLaws Arena H} : StackHeapLaws H.
Proof.
  split; [apply cheap_allocate_law|]. intros p h Hp. apply wp_bind.
  eapply wp_mono; [|by apply cheap_deallocate_law]. by intros _ h' [-> ?].
Qed.

(** A heap that hands out the rest of its arena: it starts at the arena, and the live
    allocations are below the mark. *)
Definition BumpHeap : Type := Z * Z * gmap Z Z.
#[export] Instance bump_heap : CHeap Z BumpHeap := {
  cheap_init arena bytes h := if bytes <? 64 then (Err tt, h) else (Ok tt, (arena, arena + bytes, ∅));
  cheap_allocate_zeroed size align h :=
    let '(mark, end_, live) := h in
    let p := (mark + align - 1) / align * align in
    if p + size <=? end_ then Done (p, (p + size, end_, <[p := size]> live)) else Done (0, h);
  cheap_deallocate p h := let '(mark, end_, live) := h in Done (Ok tt, (mark, end_, delete p live));
  cheap_largest align h := let '(mark, end_, _) := h in end_ - mark;
  cheap_live h := snd h;
}.

(** Two calls on one storage: the first has an arena that is too small; the second is
    turned away while the first holds the storage, and a third succeeds after it. *)
Definition witness_calls : list (Z * Z) := [(4096, 16); (8192, 1024); (8192, 1024)].

Lemma storage_installed_once_witness : ∃ s : SchedulerStorage BumpHeap,
  let ps := [Returned (Err InvalidArena); Returned (Err AlreadyInstalled); Returned (Ok 3)] in
  interleaved 3 (mkStorage (0, 0, ∅) false, (λ c, Calling c.1 c.2) <$> witness_calls) (s, ps) ∧
  (∀ i j r r', ps !! i = Some (Returned (Ok r)) → ps !! j = Some (Returned (Ok r')) → i = j) ∧
  (ss_installed s = true ↔ ∃ i p, ps !! i = Some p ∧ holds p = true) ∧
  (∀ i r, ps !! i = Some (Returned (Ok r)) → r = 3 ∧ 3 ≠ 0 ∧ 3 <= DYNAMIC_TASK_CAPACITY) ∧
  (∀ i s' ps', install_step (Arena := Z) 3 i (s, ps) (s', ps') → ss_heap s' ≠ ss_heap s →
    (∃ arena bytes, ps !! i = Some (Claimed arena bytes)) ∧ ∀ j r, ps !! j ≠ Some (Returned (Ok r))) ∧
  (3 = 0 ∨ DYNAMIC_TASK_CAPACITY < 3 → s = mkStorage (0, 0, ∅) false) ∧
  ∀ i p, ps !! i = Some p → (∃ r, p = Returned r) ∨ ∃ st', install_step 3 i (s, ps) st'.
Proof.
  exists (mkStorage (8192, 9216, ∅) true). set (ps := [_; _; _]).
  assert (interleaved 3 (mkStorage ((0, 0, ∅) : BumpHeap) false, (λ c, Calling c.1 c.2) <$> witness_calls)
    (mkStorage (8192, 9216, ∅) true, ps)) as Hr.
  { eapply rtc_l; [exists 0%nat; eapply (step_claim 3 0); reflexivity|].
    eapply rtc_l; [exists 1%nat; eapply (step_claim 3 1); reflexivity|].
    eapply rtc_l; [exists 0%nat; eapply (step_init 3 0); [reflexivity|vm_compute; reflexivity]|].
    eapply rtc_l; [exists 0%nat; eapply (step_unclaim 3 0); reflexivity|].
    eapply rtc_l; [exists 2%nat; eapply (step_claim 3 2); reflexivity|].
    eapply rtc_l; [exists 2%nat; eapply (step_init 3 2); [reflexivity|vm_compute; reflexivity]|]. apply rtc_refl. }
  split; [exact Hr|]. exact (storage_installed_once 3 (0, 0, ∅) witness_calls _ ps Hr).
Defined.
