(* ===== verification/Leave.v ===== *)
(** * Giving up the hart ([src/runtime.rs])

    The critical sections of [sleep_ms], [yield_now] and [task_exit] keep the whole
    system in order: the caller sleeps, is queued or is gone, and in the same step the
    hart is promised to the task that is best without it. *)

From stdpp Require Import sorting.
From S2P Require Import Prelude Effects Budget Contract Config Context Reservation.
From S2P Require Import Tcb Store Chain Ready Wait Switch Invariant Dispatch Inherit Donation Sync.
From S2P Require Import Moves Permit Slide Lean Handoff Mutex Lock Acquire Exclusion.
From S2P Require Import Timer Frame Touch Wake Slots Statics Tasks Birth.

(** ** Switching away *)

(** Of the scheduler itself, only the queues, the diagnostics, the pending switch and the
    last ticket differ. *)
Definition steady (w w' : World) : Prop := ∀ A (f : Sched → A), (∀ s h, f (s <| s_tasks ::= h |>) = f s) →
  (∀ s h, f (s <| s_ready_head ::= h |>) = f s) → (∀ s h, f (s <| s_ready_tail ::= h |>) = f s) →
  (∀ s h, f (s <| s_diagnostics ::= h |>) = f s) → (∀ s v, f (s <| s_pending_switch := v |>) = f s) →
  (∀ s v, f (s <| s_next_switch_sequence := v |>) = f s) → f (w_sched w') = f (w_sched w).

#[export] Instance steady_preorder : PreOrder steady.
Proof. split; [done|]. intros w1 w2 w3 H1 H2 A f **. rewrite H2, H1; done. Qed.

#[export] Program Instance steady_footprint : Footprint steady := {
  allowed _ _ := True;
}.
Next Obligation. intros i g w _ A f H **. apply H. Qed.
Next Obligation. done. Qed.
Next Obligation. intros id v w A f _ H **. destruct id; [apply H|done..]. Qed.
Next Obligation. intros id v w A f _ _ H **. destruct id; [apply H|done..]. Qed.
Next Obligation. intros h w A f _ _ _ H **. apply H. Qed.

Lemma steady_switch_away commit p g : keeps steady (prepare_switch_away_locked commit p g).
Proof.
  unfold prepare_switch_away_locked, prepare_switch_away_decision, prepare_switch_intent, commit_switch_intent, task_ref,
    task_ref_is_current, recover_completed_switch_request, restore_detached_switch_target.
  repeat first [ match goal with |- keeps _ (sched_modify _) => apply (keeps_modify steady); intros w A f H1 H2 H3 H4 H5 H6;
    first [apply H6|apply H5] end | keep1 ]; try exact I.
Qed.

(** The stopped current task has given the hart to the best ready task, or to idle. *)
Record departed (w w' : World) (q : Queues) (i : SwitchIntent) : Prop := {
  departed_intent : i = mkIntent (sequence_of w + 1) (ref_of w (current w))
    (ref_of w (default IDLE_SLOT (best q))) (t_resume_generation (T w (current w)));
  departed_kernel : kernel w' (taken (default IDLE_SLOT (best q)) q);
  departed_pending : pending w' = Some (mkPending i.(si_sequence) i.(si_previous) i.(si_target));
  departed_sequence : sequence_of w' = sequence_of w + 1;
  departed_quiet : quiet w w';
  departed_steady : steady w w';
}.

Lemma depart_spec w q generation :
  kernel w q → pending w = None → sequence_of w < u64_max → t_state (T w (current w)) ≠ Running →
  generation = t_resume_generation (T w (current w)) →
  wp (intent ← prepare_switch_away_locked true (current w) generation; expect intent) (λ i w', departed w w' q i) w.
Proof.
  intros Hk Hp Hseq Hst ->. pose proof (kernel_owned w q None Hk) as Ho.
  unfold prepare_switch_away_locked. apply wp_bind.
  eapply wp_mono; [|eapply wp_keeps; [apply (steady_switch_away true)|];
    exact (switch_away_spec w q (current w) (t_resume_generation (T w (current w))) true Ho Hp Hseq)].
  assert (source_unchanged w (current w) (t_resume_generation (T w (current w))) = true) as ->.
  { unfold source_unchanged, state_eqb. by rewrite !Z.eqb_refl, bool_decide_false. }
  intros r w' [(-> & Ho' & Hp' & Hs' & Hc' & Hq) Hsteady]. eapply wp_expect; [done|]. split; try done.
  eapply (kernel_quiet w w' q _ None None Hk Hq Ho'). intros a. apply (taken_waits w q _ a Ho).
  destruct (best q); [by left|by right].
Qed.

(** ** Sleeping *)

Definition asleep (wake_at : Z) (t : Tcb) : Tcb := t <| t_state := Sleeping |> <| t_wake_at := wake_at |>.

Lemma kernel_asleep w q wake_at :
  kernel w q → t_state (T w (current w)) = Running → current w ≠ IDLE_SLOT →
  kernel (upd_task (current w) (asleep wake_at) w) q.
Proof.
  intros Hk Hst Hidle. apply (kernel_unseen w _ q q None None Hk); [by apply unseen_upd| |done].
  apply (owned_leave w q None Sleeping); try done; [by apply (kernel_owned w q None)|by left].
Qed.

Definition slept (w : World) (wake_at : Z) : World :=
  upd_task (current w) (asleep wake_at) (w <| w_sched ::= λ s, s <| s_diagnostics ::= λ d, d <| d_sleeps ::= sat_incr_u32 |> |> |>).

Lemma sleep_spec w q wake_at :
  kernel w q → t_state (T w (current w)) = Running → current w ≠ IDLE_SLOT → sequence_of w < u64_max →
  wp (sleep_locked true wake_at) (λ r w',
    if negb (lock_depth w =? 0) then r = Err InvalidContext ∧ w' = w
    else ∃ i, r = Ok i ∧ kernel (slept w wake_at) q ∧ departed (slept w wake_at) w' q i) w.
Proof.
  intros Hk Hst Hidle Hseq. pose proof (kernel_owned w q None Hk) as Ho. pose proof (owned_shape w q None Ho) as Hs.
  assert (slot_in (current w)) as Hc by eauto with store.
  destruct (placed_running w q None _ (owned_placed w q None (proj2 Ho) _ Hc) Hst) as [_ Hp].
  unfold sleep_locked. apply wp_try_bind, (wp_switch_guard w q _ Ho).
  destruct (lock_depth w =? 0); cbn [negb]; [|done]. go. unfold bump, sched_modify. go.
  set (w0 := w <| w_sched ::= _ |>) in *. assert (kernel w0 q) as Hk0 by (by apply kernel_bump).
  pose proof (kernel_asleep w0 q wake_at Hk0 Hst Hidle) as Hk1. change (upd_task _ _ w0) with (slept w wake_at) in *.
  apply wp_set_task; [exact (owned_shape w0 q None (kernel_owned w0 q None Hk0))|done|].
  change (upd_task _ _ w0) with (slept w wake_at). apply bind_assoc_wp. change (current w) with (current (slept w wake_at)).
  assert (T (slept w wake_at) (current (slept w wake_at)) = asleep wake_at (T w (current w))) as E.
  { apply (T_upd_eq w0); [|done]. exact (owned_shape w0 q None (kernel_owned w0 q None Hk0)). }
  apply wp_bind. eapply wp_mono; [|apply (depart_spec (slept w wake_at) q); try done; by rewrite E].
  intros i w' H. go. by exists i.
Qed.

(** ** Yielding *)

Lemma prepare_committed_spec w q target :
  owned w q (Some target) → pending w = None → sequence_of w < u64_max → t_state (T w (current w)) ≠ Running →
  let i := mkIntent (sequence_of w + 1) (ref_of w (current w)) (ref_of w target) (t_resume_generation (T w (current w))) in
  wp (prepare_committed_switch_intent (current w) target) (λ r w', r = i ∧ w' = committed i (prepared w) ∧ owned w' q None) w.
Proof.
  intros Ho Hp Hseq Hst i. pose proof (owned_shape w q _ Ho) as Hs.
  assert (slot_in (current w)) as Hc by (by eapply owned_slot_current).
  assert (slot_in target) as Ht by (by apply (owned_hand_slot _ _ _ (proj2 Ho))).
  unfold prepare_committed_switch_intent. apply wp_bind.
  apply (prepare_spec w q (current w) target); try done. apply wp_bind.
  pose proof (owned_prepared w q _ Ho) as Ho1. pose proof (owned_shape _ q _ Ho1) as Hs1.
  assert (ref_ok (prepared w) (si_target i) = true) as Er by (apply ref_ok_spec; [done|by split]).
  wp_apply (commit_spec (prepared w) q i Ho1 Hp Er).
  assert (ref_ok (prepared w) (si_previous i) && live (prepared w) i = true) as ->.
  { apply andb_true_intro. split; [by apply ref_ok_spec|]. unfold live, state_eqb. cbn [si_previous si_previous_resume_generation i ref_slot ref_of].
    change (current (prepared w)) with (current w). change (T (prepared w)) with (T w). by rewrite !Z.eqb_refl, bool_decide_false. }
  intros b w' (-> & -> & Ho2). go. by apply wp_assert.
Qed.

Lemma quiet_committed i w : quiet w (committed i (prepared w)).
Proof. apply (quiet_trans w (prepared w)); by apply quiet_sched. Qed.

(** The caller is queued behind its peers, and the hart is promised to the task that was best. *)
Record yielded (w w' : World) (q : Queues) (x now : Z) (i : SwitchIntent) : Prop := {
  yielded_intent : i = mkIntent (sequence_of w + 1) (ref_of w (current w)) (ref_of w x) (t_resume_generation (T w (current w)));
  yielded_kernel : kernel w' (enqueued w (current w) (taken x q));
  yielded_pending : pending w' = Some (mkPending i.(si_sequence) i.(si_previous) i.(si_target));
  yielded_sequence : sequence_of w' = sequence_of w + 1;
  yielded_task : updated w w' (current w) (readied now);
}.

(** The caller is queued again and [y] is in hand. *)
Record relayed (w w2 : World) (q : Queues) (y now : Z) : Prop := {
  relayed_owned : owned w2 (enqueued w (current w) (taken y q)) (Some y);
  relayed_task : updated w w2 (current w) (readied now);
  relayed_unseen : unseen w w2;
  relayed_sched : pending w2 = None ∧ sequence_of w2 = sequence_of w ∧ current w2 = current w;
}.

Lemma relay_spec w w2 q y now :
  kernel w q → sequence_of w < u64_max → y ≠ current w → best q = Some y → relayed w w2 q y now →
  wp (prepare_switch true (current w) y) (λ i w', yielded w w' q y now i) w2.
Proof.
  intros Hk Hseq Hne Hb [Ho2 Hu Hun (Hp2 & Hs2 & Hcur2)]. pose proof (kernel_owned w q None Hk) as Ho.
  unfold prepare_switch. rewrite (proj2 (Z.eqb_neq _ _) Hne). cbn [negb andb]. rewrite <-Hcur2.
  wp_apply (prepare_committed_spec w2 _ y Ho2 Hp2).
  - intros i w3 (-> & -> & Ho3). assert (∀ j, ref_of w2 j = ref_of w j) as Href.
    { intros j. unfold ref_of. f_equal. rewrite (Hu _ t_identity_generation) by done. by case_decide. }
    assert (t_resume_generation (T w2 (current w)) = t_resume_generation (T w (current w))) as Hg
      by (by rewrite (Hu _ t_resume_generation), decide_True).
    rewrite Hs2, Hcur2, !Href, Hg in Ho3 |- *. split; try done.
    2: { rewrite <-Hs2. done. }
    apply (kernel_unseen w _ q _ None None Hk); [|done|].
    + etrans; [exact Hun|apply quiet_unseen, quiet_committed].
    + intros a. destruct (enqueued_waits w (current w) (taken y q) a) as [-> ->]. apply (taken_waits w q y a Ho). by left.
  - by rewrite Hs2.
  - rewrite Hcur2, (Hu _ t_state), decide_True by done. done.
Qed.

Lemma relayed_core w w2 q y now :
  kernel w q → slot_in (current w) → pending w = None → core w2 = core (upd_task (current w) (readied now) w) →
  owned w2 (enqueued w (current w) (taken y q)) (Some y) → relayed w w2 q y now.
Proof.
  intros Hk Hc Hp Hcw Ho2. pose proof (owned_shape w q None (kernel_owned w q None Hk)) as Hs. split.
  - done.
  - exact (updated_core w w2 (current w) _ Hs Hc Hcw).
  - etrans; [|by apply unseen_core]. by apply unseen_upd.
  - split_and!; [rewrite <-Hp; by apply (core_sched s_pending_switch (upd_task (current w) (readied now) w))
      |by apply (core_sched s_next_switch_sequence (upd_task (current w) (readied now) w))
      |by apply (core_sched s_current (upd_task (current w) (readied now) w))].
Qed.

(** The running task is in no queue. *)
Lemma best_not_running w q y : owned w q None → best q = Some y → t_state (T w (current w)) ≠ Ready → y ≠ current w.
Proof.
  intros Ho Hb Hst ->. assert (slot_in (current w)) as Hc by (by eapply owned_slot_current).
  apply (owned_not_queued w q None _ Ho Hc); [done|]. destruct (best_queued q _ Hb) as [p Hin].
  exists p. split; [|done]. by apply (queues_valid w q (proj1 Ho) _ _ Hin).
Qed.

Lemma yield_to_spec w w1 q y now :
  kernel w q → t_state (T w (current w)) = Running → sequence_of w < u64_max →
  core w1 = core w → owned w1 (taken y q) (Some y) → best q = Some y →
  wp (make_ready (current w) now ;; prepare_switch true (current w) y) (λ i w', yielded w w' q y now i) w1.
Proof.
  intros Hk Hst Hseq Hc1 Ho1 Hb. pose proof (kernel_owned w q None Hk) as Ho.
  assert (slot_in (current w)) as Hc by eauto with store.
  destruct (placed_running w q None _ (owned_placed w q None (proj2 Ho) _ Hc) Hst) as [_ Hp].
  assert (y ≠ current w) as Hne by (apply (best_not_running w q); [done..|by rewrite Hst]).
  assert (current w1 = current w) as Hcur1 by (by apply (core_sched s_current)).
  apply wp_bind. pose proof (owned_requeue w1 (taken y q) y now Ho1) as Hr. rewrite Hcur1 in Hr.
  wp_apply Hr; [|by rewrite (core_field t_state w w1)]. intros _ w2 [Ho2 Hc2].
  rewrite (enqueued_priority w w1) in Ho2 by (by apply (core_field t_priority)).
  apply (relay_spec w w2 q y now); try done. apply relayed_core; try done.
  rewrite Hc2. rewrite !(core_upd_task _ _ _ (readied now)) by done. by rewrite Hc1.
Qed.

(** A stopped task hands the hart to the best ready task, or to idle. *)
Lemma hand_over_spec w q :
  kernel w q → pending w = None → sequence_of w < u64_max → t_state (T w (current w)) ≠ Running →
  t_state (T w (current w)) ≠ Ready → current w ≠ IDLE_SLOT →
  wp (next ← ready_pop_or_idle; prepare_switch true (current w) next) (λ i w', departed w w' q i) w.
Proof.
  intros Hk Hp Hseq Hst Hst' Hidle. pose proof (kernel_owned w q None Hk) as Ho.
  assert (keeps steady (next ← ready_pop_or_idle; prepare_switch true (current w) next)) as K.
  { unfold prepare_switch, prepare_committed_switch_intent, prepare_switch_intent, commit_switch_intent, task_ref,
      task_ref_is_current, recover_completed_switch_request, restore_detached_switch_target.
    repeat first [ match goal with |- keeps _ (sched_modify _) => apply (keeps_modify steady); intros ? A f H1 H2 H3 H4 H5 H6;
      first [apply H6|apply H5] end | keep1 ]; try exact I. }
  eapply (wp_mono _ (λ i w', _ ∧ steady w w')); [|apply (wp_keeps steady); [exact K|]].
  { intros i w' [H1 H2]. revert H1. instantiate (1 := λ i w', steady w w' → departed w w' q i). auto. }
  apply wp_bind. wp_apply (owned_take_or_idle w q Ho); [|by apply (owned_idle_ready w q None)|unfold is_target; rewrite Hp; by intros []].
  intros x w1 (Hc1 & -> & Ho1). set (x := default IDLE_SLOT (best q)) in *.
  assert (x ≠ current w) as Hne.
  { unfold x. destruct (best q) as [y|] eqn:E; [by apply (best_not_running w q)|done]. }
  assert (pending w1 = None ∧ sequence_of w1 = sequence_of w ∧ current w1 = current w) as (Hp1 & Hs1 & Hcur1).
  { split_and!; [rewrite <-Hp; by apply (core_sched s_pending_switch)|by apply (core_sched s_next_switch_sequence)
      |by apply (core_sched s_current)]. }
  unfold prepare_switch. rewrite (proj2 (Z.eqb_neq _ _) Hne). cbn [negb andb]. rewrite <-Hcur1.
  wp_apply (prepare_committed_spec w1 _ x Ho1 Hp1); [|by rewrite Hs1|by rewrite Hcur1, (core_field t_state w w1)].
  intros i w2 (-> & -> & Ho2) Hsteady.
  assert (∀ j, ref_of w1 j = ref_of w j) as Href by (intros j; unfold ref_of; f_equal; by apply (core_field t_identity_generation)).
  rewrite Hs1, Hcur1, !Href, (core_field t_resume_generation w w1) in Ho2 |- * by done.
  assert (quiet w (committed (mkIntent (sequence_of w + 1) (ref_of w (current w)) (ref_of w x)
    (t_resume_generation (T w (current w)))) (prepared w1))) as Hq.
  { apply (quiet_trans w w1); [by apply quiet_core|apply quiet_committed]. }
  split; try done.
  - eapply (kernel_quiet w _ q _ None None Hk Hq Ho2). intros a. apply (taken_waits w q x a Ho).
    unfold x. destruct (best q); [by left|by right].
  - by rewrite <-Hs1.
  - by rewrite Hs1, Hcur1, !Href, (core_field t_resume_generation w w1) in Hsteady by done.
Qed.

Definition counted_yield (w : World) : World :=
  w <| w_sched ::= λ s, s <| s_diagnostics ::= λ d, d <| d_yields ::= sat_incr_u32 |> |> |>.

(** What [yield_now] finds once the sleepers are awake. *)
Record roused (w w1 : World) (q1 : Queues) (now : Z) : Prop := {
  roused_kernel : kernel w1 q1;
  roused_swept : swept (counted_yield w) w1 (wakes now);
  roused_held : held (counted_yield w) w1;
  roused_running : t_state (T w1 (current w)) = Running;
  roused_current : current w1 = current w;
}.

Lemma yield_spec w q now :
  kernel w q → t_state (T w (current w)) = Running → sequence_of w < u64_max →
  wp (yield_locked true now) (λ r w',
    if negb (lock_depth w =? 0) then r = Err InvalidContext ∧ w' = w
    else ∃ w1 q1, roused w w1 q1 now ∧
      match best q1 with
      | None => r = Ok None ∧ w' = w1
      | Some x => ∃ i, r = Ok (Some i) ∧ yielded w1 w' q1 x now i
      end) w.
Proof.
  intros Hk Hst Hseq. pose proof (kernel_owned w q None Hk) as Ho. pose proof (owned_shape w q None Ho) as Hs.
  assert (slot_in (current w)) as Hc by eauto with store.
  unfold yield_locked. apply wp_try_bind, (wp_switch_guard w q _ Ho).
  destruct (lock_depth w =? 0); cbn [negb]; [|done]. go. unfold bump, sched_modify. go.
  change (w <| w_sched ::= _ |>) with (counted_yield w). assert (kernel (counted_yield w) q) as Hk0 by (by apply kernel_bump).
  eapply wp_mono; [|eapply wp_keeps; [apply held_wake_sleepers|]; exact (wake_sleepers_spec _ q now Hk0)].
  intros _ w1 [Hsw Hh]. pose proof Hsw as [[q1 Hk1] _ Hc1 Hst1 _ _].
  assert (t_state (T w1 (current w)) = Running) as Hr1.
  { rewrite Hst1 by done. by rewrite running_not_waking. }
  assert (roused w w1 q1 now) as Hrou by (split; done).
  assert (sequence_of w1 = sequence_of w) as Hs1 by (destruct Hh as [_ S]; by apply (S _ s_next_switch_sequence)).
  change (current (counted_yield w)) with (current w) in Hc1.
  unfold take_yield_target. apply wp_bind, wp_bind. wp_apply (owned_take w1 q1 (kernel_owned w1 q1 None Hk1)).
  intros x w2 [Hc2 Hx]. destruct (best q1) as [y|] eqn:Hb.
  - destruct Hx as (-> & _ & Ho2). assert (slot_in y) as Hy by (by apply (owned_hand_slot _ _ _ (proj2 Ho2))).
    rewrite (proj2 (Z.eqb_neq _ _) (slot_in_not_NIL y Hy)).
    pose proof (yield_to_spec w1 w2 q1 y now Hk1) as H. rewrite Hc1 in H. specialize (H Hr1 ltac:(by rewrite Hs1) Hc2 Ho2 Hb).
    apply wp_bind_inv in H. apply wp_bind. eapply wp_mono; [|exact H]. intros [] w3 H3. go.
    eapply wp_mono; [|exact H3]. intros i w4 H4. go. exists w1, q1. split; [done|]. rewrite Hb. by exists i.
  - destruct Hx as [-> ->]. rewrite Z.eqb_refl. go. exists w1, q1. by rewrite Hb.
Qed.

(** ** Exiting *)

(** Nothing refers to the task [i]: it holds no grant and owns no mutex. *)
Record unbound (w : World) (i : Z) : Prop := {
  unbound_grants : t_granted_sem (T w i) = 0 ∧ t_granted_mutex (T w i) = 0;
  unbound_mutexes a st : w_mutexes w !! a = Some st → mtx_owner st ≠ i;
}.

Definition cleared (w : World) : World := upd_task (current w) (λ _, Tcb_empty) w.

Lemma queues_cleared w q i : queues w q → detached q i → queues (upd_task i (λ _, Tcb_empty) w) q.
Proof.
  intros Hq Hd. pose proof (queues_shape w q Hq) as Hs.
  assert (∀ id x, x ∈ q id → nx (upd_task i (λ _, Tcb_empty) w) x = nx w x) as Hn.
  { intros id x Hx. unfold nx. f_equal. unfold T. simpl. apply at_alter_ne. intros ->. by apply (Hd id). }
  split; try apply Hq; [eauto with store|..].
  intros id Hv. change (hd_of _ id) with (hd_of w id). eapply seg_ext; [|apply (queues_seg w q Hq id); by destruct id].
  intros x Hx. symmetry. by apply (Hn id).
Qed.

Lemma owned_cleared w q :
  owned w q None → t_state (T w (current w)) = Running → current w ≠ IDLE_SLOT → owned (cleared w) q None.
Proof.
  intros Hw Hst Hidle. pose proof Hw as [Hq Ho]. pose proof (owned_shape w q None Hw) as Hs.
  set (c := current w) in *. assert (slot_in c) as Hc by (by eapply owned_slot_current).
  destruct (placed_running w q None c (owned_placed w q None Ho c Hc) Hst) as [_ Hp].
  destruct (owned_not_waiting w q None c Hw Hc) as [Hws Hwm]; [by rewrite Hst|].
  assert (detached q c) as Hd.
  { apply (owned_detached w q None); try done. apply (owned_not_queued w q None); [done..|by rewrite Hst]. }
  assert (∀ j, T (cleared w) j = if decide (c = j) then Tcb_empty else T w j) as HT
    by (intros j; by apply T_upd_task).
  split; [by apply queues_cleared|]. split.
  - intros j Hj. destruct (decide (c = j)) as [<-|Hne].
    + apply placed_detached; unfold priority_ok, is_target; rewrite ?HT, ?decide_True by done; try done.
      change (pending (cleared w)) with (pending w). rewrite Hp. by intros [].
    + apply (placed_ext w (cleared w) q q None None j); try done; [|by intros Hr; apply (placed_running w q None j (owned_placed w q None Ho j Hj))|by apply Ho].
      by split; rewrite HT, decide_False.
  - intros p. change (pending (cleared w)) with (pending w). by rewrite Hp.
  - done.
  - done.
Qed.

Lemma inheritance_cleared w q i :
  owned w q None → inheritance w None → slot_in i → t_waiting_mutex (T w i) = 0 → unbound w i →
  inheritance (upd_task i (λ _, Tcb_empty) w) None.
Proof.
  intros Hw [H1 [H2 H3] H4 [R1 R2] H6] Hi Hwm [_ Hown]. pose proof (owned_shape w q None Hw) as Hs.
  set (w' := upd_task i _ w).
  assert (∀ j, T w' j = if decide (i = j) then Tcb_empty else T w j) as HT by (intros j; by apply T_upd_task).
  assert (∀ j, owner_of w' j = owner_of w j) as Hoo.
  { intros j. unfold owner_of. rewrite HT. case_decide; [subst; by rewrite Hwm|done]. }
  assert (∀ j, owner_of w j ≠ i) as Hni.
  { intros j. unfold owner_of. case_match; [intros E; by apply (slot_in_not_NIL i)|].
    destruct (w_mutexes w !! _) as [st|] eqn:E; [by eapply Hown|]. intros E'. by apply (slot_in_not_NIL i). }
  assert (∀ j, slot_in j → owner_of w j ≠ NIL → j ≠ i) as Hnw.
  { intros j _ Hne ->. apply Hne. unfold owner_of. by rewrite Hwm. }
  split.
  - intros o Ho. rewrite HT. case_decide; [done|by apply H1].
  - split; [intros o Ho; rewrite HT; case_decide; [done|by apply H2]|]. intros o p Ho Hp.
    rewrite HT. case_decide as E.
    + subst o. assert (donated w' i p = 0) as ->.
      { unfold donated, tally. rewrite (zsum_ext _ (λ _, 0)); [by vm_compute|]. intros j _.
        apply indicator_false. rewrite Hoo. intros [E _]. by apply (Hni j). }
      change (t_inherited_waiters Tcb_empty) with (replicate 32 0). rewrite (idx_replicate 32 0). unfold PRIORITY_LEVELS in Hp.
      by rewrite (proj2 (Z.leb_le _ _)), (proj2 (Z.ltb_lt _ _)) by lia.
    + rewrite H3 by done. f_equal. symmetry. apply tally_ext; [|intros j Hj; by rewrite Hoo].
      intros j Hj Eo. rewrite Hoo. split; [done|]. unfold prio. rewrite HT, decide_False; [done|].
      intros <-. apply (Hnw i Hi); [|done]. rewrite Eo. by apply slot_in_not_NIL.
  - intros o Ho _. rewrite HT. case_decide; [by vm_compute|by apply H4].
  - split; [|done]. intros j Hj. rewrite HT. case_decide; [done|by apply R1].
  - by apply (same_donors_acyclic w).
Qed.

Lemma kernel_cleared w q :
  kernel w q → t_state (T w (current w)) = Running → current w ≠ IDLE_SLOT → unbound w (current w) →
  kernel (cleared w) q.
Proof.
  intros [[Ho Hso Hse [A1 A2 A3]] Hinh Hmu] Hst Hidle Hub. pose proof Hub as [[U1 U2] _].
  pose proof (owned_shape w q None Ho) as Hs. unfold cleared. set (c := current w) in *.
  assert (slot_in c) as Hc by (by eapply owned_slot_current).
  destruct (owned_not_waiting w q None c Ho Hc) as [Hws Hwm]; [by rewrite Hst|].
  assert (detached q c) as Hd.
  { apply (owned_detached w q None); try done. apply (owned_not_queued w q None); [done..|by rewrite Hst]. }
  set (w' := upd_task c _ w).
  assert (∀ j, T w' j = if decide (c = j) then Tcb_empty else T w j) as HT by (intros j; by apply T_upd_task).
  assert (∀ j, t_granted_sem (T w' j) = t_granted_sem (T w j) ∧ t_granted_mutex (T w' j) = t_granted_mutex (T w j)) as Hg.
  { intros j. rewrite HT. case_decide; [by subst|done]. }
  split; [split|..].
  - by apply owned_cleared.
  - assert (∀ id, sorted_waits w (q id) → sorted_waits w' (q id)) as Hsorted; [|by intros a; split; apply Hsorted, Hso].
    intros id. apply sorted_waits_ext. intros j Hj. rewrite HT, decide_False; [done|]. intros <-. by apply (Hd id).
  - apply (sems_same w w' q q); try done. intros j. apply Hg.
  - split; intros j Hj; rewrite HT; case_decide; auto; try done; subst.
    split; [done|]. by intros [[]|[]].
  - by apply (inheritance_cleared w q).
  - apply (mutexes_same w w' q q); try done. intros j. apply Hg.
Qed.

(** The stack of the task is kept until somebody can free it. *)
Definition retired (stack : Z) (w : World) : World :=
  if stack =? 0 then w
  else w <| w_sched ::= λ s, (s <| s_retired_stacks ::= λ l, alter_at (λ _, stack) l (s_retired_count (w_sched w)) |>)
         <| s_retired_count := s_retired_count (w_sched w) + 1 |> |>.

Definition room_to_retire (w : World) (stack : Z) : Prop :=
  stack ≠ 0 → 0 <= s_retired_count (w_sched w) < TASK_SLOT_COUNT.

Lemma retire_spec w stack (Q : unit → World → Prop) :
  shape w → room_to_retire w stack → Q tt (retired stack w) → wp (retire_stack stack) Q w.
Proof.
  intros Hs Hr HQ. unfold retire_stack, room_to_retire, retired in *. destruct (Z.eqb_spec stack 0) as [->|Hne]; cbn [negb when].
  { by go. }
  specialize (Hr Hne). destruct Hs as [_ _ _ _ Hrs]. go. apply wp_assert; [apply Z.ltb_lt, Hr|]. go.
  destruct (proj2 (idx_is_Some (s_retired_stacks (w_sched w)) (s_retired_count (w_sched w)))) as [y Hy].
  { unfold in_range. rewrite slot_count_value in *. lia. }
  eapply wp_expect; [done|]. unfold sched_modify. go. eapply wp_expect.
  { unfold checked_add. rewrite (proj2 (Z.leb_le _ _)); [done|]. rewrite slot_count_value in Hr. unfold usize_max. lia. }
  go. exact HQ.
Qed.

Lemma quiet_retired stack w : quiet w (retired stack w).
Proof. unfold retired. case_match; [|by apply quiet_sched]. by split. Qed.

Lemma kernel_retired stack w q : kernel w q → kernel (retired stack w) q.
Proof. intros Hk. unfold retired. case_match; [done|]. apply kernel_sched; try done. intros s. simpl. apply length_alter_at. Qed.

Definition exited (w : World) : World := retired (t_stack (T w (current w))) (cleared w).

Lemma exit_spec w q :
  kernel w q → t_state (T w (current w)) = Running → current w ≠ IDLE_SLOT → sequence_of w < u64_max →
  lock_depth w = 0 → unbound w (current w) → room_to_retire w (t_stack (T w (current w))) →
  wp (exit_locked true) (λ i w', kernel (exited w) q ∧ departed (exited w) w' q i) w.
Proof.
  intros Hk Hst Hidle Hseq Hd Hub Hroom. pose proof (kernel_owned w q None Hk) as Ho. pose proof (owned_shape w q None Ho) as Hs.
  assert (slot_in (current w)) as Hc by eauto with store.
  destruct (placed_running w q None _ (owned_placed w q None (proj2 Ho) _ Hc) Hst) as [_ Hp].
  unfold exit_locked. go. fold (current w). change (t_scheduler_lock_depth _) with (lock_depth w).
  apply wp_assert; [by rewrite Hd|]. go. apply wp_assert; [by apply negb_true_iff, Z.eqb_neq|]. go.
  change (upd_task (current w) _ w) with (cleared w).
  pose proof (kernel_cleared w q Hk Hst Hidle Hub) as Hk1.
  apply retire_spec; [by apply shape_upd_task|done|]. change (retired _ (cleared w)) with (exited w). go.
  assert (current (exited w) = current w ∧ T (exited w) (current w) = Tcb_empty ∧ pending (exited w) = None ∧
    sequence_of (exited w) = sequence_of w) as (Ec & Et & Ep & Es).
  { unfold exited, retired. case_match; (split_and!; [done|by apply (T_upd_eq w)|done|done]). }
  assert (kernel (exited w) q) as Hk2 by (by apply kernel_retired).
  pose proof (owned_shape _ q None (kernel_owned _ q None Hk2)) as Hs2. go.
  pose proof (depart_spec (exited w) q (t_resume_generation (T (exited w) (current w))) Hk2 Ep) as H.
  rewrite Ec in H. specialize (H ltac:(by rewrite Es) ltac:(by rewrite Et) eq_refl). apply wp_bind_inv in H.
  eapply wp_mono; [|exact H]. intros o w1 H1. eapply wp_mono; [|exact H1]. done.
Qed.
