(* ===== verification/Fit.v ===== *)
(** * What every task satisfies ([src/runtime/scheduler.rs])

    The conditions on a task that no queue and no other task is needed to state ([fit]),
    and the relation [calm] between the stores before and after an operation: fit tasks
    stay fit, nobody dies, and the saved frames, the kind of the budgets and the
    scheduler's own bookkeeping stay. It is a footprint: the operations on semaphores,
    mutexes and sleeping tasks are calm because each of their writes is. *)

From stdpp Require Import sorting.
From S2P Require Import Prelude Effects Budget Contract Config Context Reservation.
From S2P Require Import Tcb Store Chain Ready Wait Switch Invariant Dispatch Inherit Donation Sync.
From S2P Require Import Moves Permit Slide Lean Handoff Mutex Lock Acquire Exclusion Timer Frame Touch Slots Statics Tasks.

Record fit (t : Tcb) : Prop := {
  fit_sleeping : t_state t = Sleeping → t_wake_at t ≠ 0;
  fit_throttled : t_state t = Throttled → spec (t_budget t) ≠ None;
  fit_budget : budget_ok (t_budget t);
  fit_phase : spec (t_budget t) ≠ None → replenishes_at (t_budget t) ≠ 0;
  fit_free : t_state t = Free → t_granted_sem t = 0 ∧ t_granted_mutex t = 0;
  fit_lock : t_scheduler_lock_depth t ≠ 0 → t_scheduler_lock_started_at t ≠ None;
}.

(** What the scheduler lock keeps in a task. *)
Definition lock_part (t : Tcb) := (t_scheduler_lock_depth t, t_scheduler_lock_started_at t).

(** An update that keeps a task fit and alive, its frame and its kind of budget. *)
Record calming (g : Tcb → Tcb) : Prop := {
  calming_fit t : fit t → fit (g t);
  calming_alive t : t_state (g t) = Free → t_state t = Free;
  calming_frame t : t_saved_frame (g t) = t_saved_frame t;
  calming_spec t : spec (t_budget (g t)) = spec (t_budget t);
}.

(** The scheduler's bookkeeping that only dispatches, spawns and exits touch. *)
Definition books (s : Sched) :=
  (s_current s, s_slot_generations s, s_reservations s, s_started s, s_last_consumed_switch_sequence s,
   s_retired_count s, s_irq_task s).

Record calm (x : option Z) (w w' : World) : Prop := {
  calm_fit j : x ≠ Some j → fit (T w j) → fit (T w' j);
  calm_alive j : x ≠ Some j → t_state (T w' j) = Free → t_state (T w j) = Free;
  calm_frame j : t_saved_frame (T w' j) = t_saved_frame (T w j);
  calm_idle : spec (t_budget (T w' IDLE_SLOT)) = spec (t_budget (T w IDLE_SLOT));
  calm_books : books (w_sched w') = books (w_sched w);
}.

#[export] Instance calm_preorder x : PreOrder (calm x).
Proof.
  split; [by split; auto|]. intros w1 w2 w3 [A1 B1 C1 D1 E1] [A2 B2 C2 D2 E2].
  split; intros; [auto|auto|by rewrite C2, C1|by rewrite D2, D1|by rewrite E2, E1].
Qed.

Lemma calm_upd x i g w :
  (x ≠ Some i → calming g) → (∀ t, t_saved_frame (g t) = t_saved_frame t) →
  (i = IDLE_SLOT → ∀ t, spec (t_budget (g t)) = spec (t_budget t)) → calm x w (upd_task i g w).
Proof.
  intros Hg Hf Hsp.
  split; [intros j Hj|intros j Hj|intros j; by apply T_upd_field| |done].
  - destruct (decide (j = i)) as [->|Hne]; [|intros H; unfold T; simpl; by rewrite at_alter_ne].
    destruct (Hg Hj) as [H _ _ _]. intros Ht. unfold T in *. simpl. unfold at_ in *. rewrite idx_alter_eq.
    destruct (idx _ i); simpl in *; [by apply H|done].
  - destruct (decide (j = i)) as [->|Hne]; [|intros H; revert H; unfold T; simpl; by rewrite at_alter_ne].
    destruct (Hg Hj) as [_ H _ _]. unfold T. simpl. unfold at_. rewrite idx_alter_eq.
    destruct (idx _ i); simpl in *; [by apply H|done].
  - destruct (decide (IDLE_SLOT = i)) as [<-|Hne]; [by apply (T_upd_field (λ t, spec (t_budget t))), Hsp|].
    unfold T. simpl. by rewrite at_alter_ne.
Qed.

#[export] Program Instance calm_footprint x : Footprint (calm x) := {
  allowed i g := (x ≠ Some i → calming g) ∧ (∀ t, t_saved_frame (g t) = t_saved_frame t) ∧
    (i = IDLE_SLOT → ∀ t, spec (t_budget (g t)) = spec (t_budget t));
}.
Next Obligation. intros x i g w (H1 & H2 & H3). by apply calm_upd. Qed.
Next Obligation. intros x i v. split_and!; try done. intros _. split; try done. intros t []. by split. Qed.
Next Obligation. intros x id v w. split; try (by destruct id); intros j; by destruct id. Qed.
Next Obligation. intros x id v w. split; try (by destruct id); intros j; by destruct id. Qed.
Next Obligation. intros x h w. by split. Qed.

#[export] Instance calm_walk x : WalkFootprint (calm x).
Proof. split; intros i v; (split_and!; [|done|done]); intros _; split; try done; intros t []; by split. Qed.

#[export] Instance calm_objects x : ObjectFootprint (calm x).
Proof. by split. Qed.

(** ** Updates *)

Lemma calming_allowed x i g : calming g → @allowed (calm x) _ i g.
Proof. intros []. by split_and!. Qed.

Ltac calm_task := intros [? ? ? ? ? ?]; split; cbn in *; solve [done | naive_solver].

Lemma calming_ready : calming (λ t, t <| t_state := Ready |>).
Proof. split; try done. by intros t [? ? ? ? ? ?]. Qed.

Lemma calming_metrics h : calming (λ t, t <| t_metrics ::= h |>).
Proof. split; try done. by intros t [? ? ? ? ? ?]. Qed.

(** Any update of a task that becomes ready. *)
Lemma calming_woken g :
  (∀ t, t_budget (g t) = t_budget t) → (∀ t, t_saved_frame (g t) = t_saved_frame t) →
  (∀ t, lock_part (g t) = lock_part t) → calming (λ t, (g t) <| t_state := Ready |>).
Proof.
  intros H1 H2 H3. split; intros t; [|done|apply H2|cbn; by rewrite H1].
  intros [? ? ? ? ? F6]. injection (H3 t) as E1 E2. split; cbn; rewrite ?H1, ?E1, ?E2; done.
Qed.

(** Two writes to one task are one. *)
Lemma set_task_twice i g h w : (set_task i g ;; set_task i h) w = set_task i (λ t, h (g t)) w.
Proof.
  unfold set_task, task_at, mbind, M_bind, sched_gets, gets, modify, expect. simpl.
  destruct (idx (s_tasks (w_sched w)) i) as [t|] eqn:E; simpl; [|done].
  rewrite idx_alter_eq, E. simpl. by rewrite upd_task_compose.
Qed.

Lemma keeps_ext {A} R (m m' : M World A) : (∀ w, m w = m' w) → keeps R m' → keeps R m.
Proof. intros E H w. rewrite E. apply H. Qed.

(** A task whose fields are set just before it becomes ready. *)
Lemma keeps_woken R `{!Footprint R} {A} i g now (k : unit → M World A) :
  allowed i (λ t, (g t) <| t_state := Ready |>) → allowed i (λ t, t <| t_metrics ::= metrics_on_ready now |>) →
  (∀ a, keeps R (k a)) → keeps R (set_task i g ;; make_ready i now ≫= k).
Proof.
  intros H1 H2 Hk.
  apply (keeps_ext R _ (set_task i (λ t, (g t) <| t_state := Ready |>) ;;
    ((set_task i (λ t, t <| t_metrics ::= metrics_on_ready now |>) ;; when (negb (i =? IDLE_SLOT)) (ready_push i)) ≫= k))).
  - intros w. unfold make_ready. pose proof (set_task_twice i g (λ t, t <| t_state := Ready |>) w) as E.
    unfold mbind, M_bind in *. rewrite <-E. destruct (set_task i g w) as [[[] w1]|]; [|done].
    by destruct (set_task i (λ t, t <| t_state := Ready |>) w1) as [[[] w2]|].
  - keep; auto.
Qed.

(** [make_ready] at the end of an operation. *)
Lemma keeps_woken_last R `{!Footprint R} i g now :
  allowed i (λ t, (g t) <| t_state := Ready |>) → allowed i (λ t, t <| t_metrics ::= metrics_on_ready now |>) →
  keeps R (set_task i g ;; make_ready i now).
Proof.
  intros H1 H2. apply (keeps_ext R _ (set_task i g ;; (make_ready i now ≫= mret))).
  - intros w. unfold mbind, M_bind. destruct (set_task i g w) as [[[] w1]|]; [|done].
    by destruct (make_ready i now w1) as [[[] w2]|].
  - apply (keeps_woken R); [done..|]. intros. apply (keeps_ret R).
Qed.

Ltac calms :=
  repeat first
    [ match goal with |- keeps ?R (set_task ?i _ ≫= (λ _, make_ready ?i _ ≫= _)) => apply (keeps_woken R); [| |intros ?] end
    | keep1 ];
  try solve [done | apply calming_allowed; first [by apply calming_woken | apply calming_metrics | apply calming_ready]].

Lemma calm_make_ready x i now : keeps (calm x) (make_ready i now).
Proof. apply (keeps_make_ready (calm x)); apply calming_allowed; [apply calming_ready|apply calming_metrics]. Qed.

Lemma calm_release x a now : keeps (calm x) (release_semaphore_locked a now).
Proof. unfold release_semaphore_locked. calms. Qed.

Lemma calm_release_mutex x a o now : keeps (calm x) (release_mutex_locked a o now).
Proof.
  unfold release_mutex_locked. calms; apply (keeps_for_waiters (calm x)); intros y; calms.
Qed.

(** A write of a value computed from the task as it was read. *)
Lemma set_task_read i t (G : Tcb → Tcb → Tcb) w :
  idx (s_tasks (w_sched w)) i = Some t → set_task i (G t) w = set_task i (λ u, G u u) w.
Proof.
  intros E. unfold set_task, task_at, mbind, M_bind, sched_gets, gets, modify, expect. simpl. rewrite E. simpl.
  assert (alter_at (G t) (s_tasks (w_sched w)) i = alter_at (λ u, G u u) (s_tasks (w_sched w)) i) as Ea.
  { apply alter_at_ext. intros u Hu. congruence. }
  destruct w as [s ss ms]. exact (f_equal (λ ts, Done (tt, mkWorld (s <| s_tasks := ts |>) ss ms)) Ea).
Qed.

Lemma set_task_read_bind {B} i t (G : Tcb → Tcb → Tcb) (k : unit → M World B) w :
  idx (s_tasks (w_sched w)) i = Some t → (set_task i (G t) ≫= k) w = (set_task i (λ u, G u u) ≫= k) w.
Proof. intros E. unfold mbind, M_bind. by rewrite (set_task_read i t G w E). Qed.

Lemma task_at_read {A} i (m m' : Tcb → M World A) w :
  (∀ t, idx (s_tasks (w_sched w)) i = Some t → m t w = m' t w) → (t ← task_at i; m t) w = (t ← task_at i; m' t) w.
Proof.
  intros H. unfold task_at, mbind, M_bind, sched_gets, gets, expect. simpl.
  destruct (idx (s_tasks (w_sched w)) i) as [t|]; simpl; [by apply H|done].
Qed.

Lemma calm_sched x g w :
  (∀ s, s_tasks (g s) = s_tasks s) → (∀ s, books (g s) = books s) → calm x w (w <| w_sched ::= g |>).
Proof.
  intros Ht Hb. assert (∀ j, T (w <| w_sched ::= g |>) j = T w j) as E by (intros j; unfold T; simpl; by rewrite Ht).
  split; intros; rewrite ?E in *; try done. apply Hb.
Qed.

Ltac calms ::=
  repeat first
    [ match goal with |- keeps ?R (set_task ?i _ ≫= (λ _, make_ready ?i _ ≫= _)) => apply (keeps_woken R); [| |intros ?] end
    | match goal with |- keeps ?R (set_task ?i _ ≫= (λ _, make_ready ?i _)) => apply (keeps_woken_last R) end
    | match goal with |- keeps (calm ?x) (sched_modify _) => apply (keeps_modify (calm x)); intros ?; by apply calm_sched end
    | keep1 ];
  try solve [done | apply calming_allowed; first [by apply calming_woken | apply calming_metrics | apply calming_ready]].

Lemma calm_restore x i : keeps (calm x) (restore_detached_switch_target i).
Proof. unfold restore_detached_switch_target. calms. Qed.

Lemma calm_commit x i : keeps (calm x) (commit_switch_intent i).
Proof. unfold commit_switch_intent, task_ref_is_current, recover_completed_switch_request. calms; apply calm_restore. Qed.

Lemma calm_prepare x p t : keeps (calm x) (prepare_switch_intent p t).
Proof. unfold prepare_switch_intent, task_ref. calms. Qed.

Lemma calm_switch_away x commit p g : keeps (calm x) (prepare_switch_away_locked commit p g).
Proof.
  unfold prepare_switch_away_locked, prepare_switch_away_decision.
  calms; first [apply calm_prepare | apply calm_commit].
Qed.
#[export] Hint Resolve calm_restore calm_commit calm_prepare calm_switch_away calm_make_ready calm_release calm_release_mutex : keeps.

Lemma calming_blocked g :
  (∀ t, t_budget (g t) = t_budget t) → (∀ t, t_saved_frame (g t) = t_saved_frame t) → (∀ t, t_state (g t) = Blocked) →
  (∀ t, lock_part (g t) = lock_part t) → calming g.
Proof.
  intros H1 H2 H3 H4. split; intros t; rewrite ?H1, ?H2, ?H3; try done.
  intros [? ? ? ? ? ?]. injection (H4 t) as E1 E2. split; rewrite ?H1, ?H3, ?E1, ?E2; done.
Qed.

Lemma calm_block x commit a c d : keeps (calm x) (block_on_semaphore commit a c d).
Proof. unfold block_on_semaphore, enqueue_waiter. calms; apply calming_allowed; by apply calming_blocked. Qed.
#[export] Hint Resolve calm_block : keeps.

Lemma calm_down x commit delivery a t d : keeps (calm x) (down_timeout commit delivery a t d).
Proof. unfold down_timeout, current_switch_guard. calms. Qed.

Lemma calm_lock x commit delivery a t d : keeps (calm x) (lock commit delivery a t d).
Proof.
  unfold lock, current_switch_guard, mutex_chain_contains, enqueue_mutex_waiter. calms; apply calming_allowed; by apply calming_blocked.
Qed.

Lemma calm_unlock x a now d : keeps (calm x) (unlock a now d).
Proof. unfold unlock. calms. Qed.

Lemma calming_ungrant g :
  (∀ t, t_budget (g t) = t_budget t) → (∀ t, t_saved_frame (g t) = t_saved_frame t) → (∀ t, t_state (g t) = t_state t) →
  (∀ t, t_wake_at (g t) = t_wake_at t) →
  (∀ t, t_granted_sem (g t) = 0 ∨ t_granted_sem (g t) = t_granted_sem t) →
  (∀ t, t_granted_mutex (g t) = 0 ∨ t_granted_mutex (g t) = t_granted_mutex t) → (∀ t, lock_part (g t) = lock_part t) →
  calming g.
Proof.
  intros H1 H2 H3 H4 H5 H6 H7. split; intros t; rewrite ?H1, ?H2, ?H3; try done.
  intros [F1 F2 F3 F4 F5 F6]. injection (H7 t) as E1 E2. split; rewrite ?H1, ?H3, ?H4, ?E1, ?E2; try done.
  intros Hf. destruct (F5 Hf) as [G1 G2]. destruct (H5 t) as [-> | ->], (H6 t) as [-> | ->]; done.
Qed.

Lemma calm_consume_sem x i : keeps (calm x) (consume_semaphore_grant_locked i).
Proof. unfold consume_semaphore_grant_locked. calms. apply calming_allowed, calming_ungrant; auto. Qed.

Lemma calm_consume_mutex x : keeps (calm x) consume_mutex_grant_locked.
Proof. unfold consume_mutex_grant_locked. calms. apply calming_allowed, calming_ungrant; auto. Qed.

(** ** Waking *)

Lemma calm_timeout_semaphore x i now : keeps (calm x) (timeout_semaphore_waiter_locked i now).
Proof. unfold timeout_semaphore_waiter_locked, remove_waiter. calms. Qed.

Lemma calm_timeout_mutex x i now : keeps (calm x) (timeout_mutex_waiter i now).
Proof.
  unfold timeout_mutex_waiter, remove_mutex_waiter. calms.
Qed.
#[export] Hint Resolve calm_timeout_semaphore calm_timeout_mutex : keeps.

Lemma calm_wake_task x now i : keeps (calm x) (wake_task now i).
Proof. unfold wake_task. calms. Qed.

(** ** Budgets *)

Definition phased (b : BudgetState) : Prop := budget_ok b ∧ (spec b ≠ None → replenishes_at b ≠ 0).

Lemma phased_replenish now b : time_ok now → phased b → phased (snd (replenish_if_due now b)).
Proof.
  intros Hn [Hb Hp]. split; [by apply replenish_if_due_ok|]. rewrite replenish_if_due_spec. intros Hs.
  unfold replenish_if_due. destruct (spec b) as [s|] eqn:E; [|done].
  destruct (_ || _) eqn:Eb; cbn; [by apply Hp|]. apply orb_false_iff in Eb as [_ Hle%Z.ltb_ge].
  unfold budget_ok in Hb. rewrite E in Hb. destruct Hb as ([[] ?] & _ & [] & _). specialize (Hp Hs).
  pose proof (Z.div_pos (now - replenishes_at b) (replenishment_period s)).
  unfold saturating_add, saturating_mul, u64_max in *. nia.
Qed.

Lemma spec_on_dispatch now b : spec (on_dispatch now b) = spec b.
Proof. unfold on_dispatch. rewrite <-(replenish_if_due_spec now b). by destruct (spec (snd _)) eqn:E. Qed.

Lemma phased_dispatch now b : time_ok now → phased b → phased (on_dispatch now b).
Proof.
  intros Hn Hb. split; [by apply on_dispatch_ok, Hb|]. rewrite spec_on_dispatch. intros Hs.
  destruct (phased_replenish now b Hn Hb) as [_ Hp]. rewrite replenish_if_due_spec in Hp. unfold on_dispatch.
  destruct (spec (snd _)); by apply Hp.
Qed.

Lemma charge_until_fields now b : spec (charge_until now b) = spec b ∧ replenishes_at (charge_until now b) = replenishes_at b.
Proof. unfold charge_until. by destruct (running_since b). Qed.

Lemma phased_switch_out now b : time_ok now → phased b → phased (on_switch_out now b).
Proof.
  intros Hn [Hb Hp]. split; [by apply on_switch_out_ok|]. unfold on_switch_out. cbn.
  by destruct (charge_until_fields now b) as [-> ->].
Qed.

Lemma on_timer_fields now locked b : spec (snd (Budget.on_timer now locked b)) = spec b ∧
  replenishes_at (snd (Budget.on_timer now locked b)) = replenishes_at b.
Proof.
  unfold Budget.on_timer. destruct (charge_until_fields now b) as [E1 E2].
  destruct (spec b) as [s|] eqn:E; [|by rewrite ?E].
  destruct (_ =? 0); cbn; [|by rewrite ?E1, ?E2]. destruct locked; cbn; by rewrite ?E1, ?E2.
Qed.

Lemma phased_on_timer now locked b : time_ok now → phased b → phased (snd (Budget.on_timer now locked b)).
Proof.
  intros Hn [Hb Hp]. split; [by apply on_timer_ok|]. by destruct (on_timer_fields now locked b) as [-> ->].
Qed.

Lemma calming_budget g :
  (∀ b, phased b → phased (g b)) → (∀ b, spec (g b) = spec b) → calming (λ t, t <| t_budget ::= g |>).
Proof.
  intros H1 H2. split; intros t; [|done|done|cbn; apply H2]. intros [F1 F2 F3 F4 F5 F6].
  destruct (H1 (t_budget t)) as [H3 H4]; [done|]. split; cbn; rewrite ?H2 in *; done.
Qed.

Lemma calm_replenish_task x now i : time_ok now → keeps (calm x) (replenish_task now i).
Proof.
  intros Hn. apply (keeps_ext (calm x) _ (t ← task_at i; if state_eqb t.(t_state) Throttled then
    set_task i (λ t, t <| t_budget ::= λ b, snd (replenish_if_due now b) |>) ;;
    when (fst (replenish_if_due now t.(t_budget))) (make_ready i now ;; bump d_budget_replenishments) else mret tt)).
  - intros w. apply task_at_read. intros t E. destruct (state_eqb _ _); [|done]. unfold mbind at 1 3, M_bind at 1 3.
    by rewrite (set_task_read i t (λ t u, u <| t_budget := snd (replenish_if_due now (t_budget t)) |>) w E).
  - calms. apply calming_allowed, (calming_budget (λ b, snd (replenish_if_due now b))).
    + intros b. by apply phased_replenish.
    + intros b. apply replenish_if_due_spec.
Qed.
#[export] Hint Resolve calm_wake_task : keeps.

Lemma calm_wake_sleepers x now : time_ok now → keeps (calm x) (wake_sleepers now).
Proof. intros Hn. unfold wake_sleepers, replenish_budgets. calms. by apply calm_replenish_task. Qed.

(** ** Cancelling

    A waiter is cleared before it becomes ready; everyone else is left in order. *)

Lemma calm_cancel i now : keeps (calm (Some i)) (cancel_wait_locked i now).
Proof.
  unfold cancel_wait_locked, cancel_semaphore_wait_locked, remove_waiter, remove_mutex_waiter.
  calms; split_and!; by try intros [].
Qed.

(** What cancellation does to a task that waits for nothing. *)
Definition return_grants (task now : Z) : M World WaitCancellationOutcome :=
  granted_sem ← tget t_granted_sem task;
  if negb (granted_sem =? 0) then
    set_task task (λ t, t <| t_granted_sem := 0 |> <| t_sem_granted := false |>) ;;
    release_semaphore_locked granted_sem now ;;
    mret Cancelled
  else
    granted_mutex ← tget t_granted_mutex task;
    if negb (granted_mutex =? 0) then
      set_task task (λ t, t <| t_granted_mutex := 0 |> <| t_sem_granted := false |>) ;;
      state ← mutex_at granted_mutex;
      assert_ (state.(mtx_owner) =? task) ;;
      assert_ (state.(mtx_depth) =? 1) ;;
      set_mutex granted_mutex (λ st, st <| mtx_depth := 0 |>) ;;
      release_mutex_locked granted_mutex task now ;;
      mret Cancelled
    else mret NotWaiting.

Lemma tget_read {A} (f : Tcb → A) i w : shape w → slot_in i → tget f i w = Done (f (T w i), w).
Proof.
  intros Hs Hi. unfold tget, task_at, mbind, M_bind, sched_gets, gets, expect. cbn.
  by rewrite (idx_at Tcb_empty) by (by apply shape_in).
Qed.

Lemma cancel_unwaiting w i now :
  shape w → slot_in i → t_waiting_sem (T w i) = 0 → t_waiting_mutex (T w i) = 0 →
  cancel_wait_locked i now w = return_grants i now w.
Proof.
  intros Hs Hi Hws Hwm. unfold cancel_wait_locked, cancel_semaphore_wait_locked, return_grants, mbind, M_bind.
  rewrite !(tget_read t_waiting_sem) by done. rewrite Hws. cbn [Z.eqb negb]. rewrite !(tget_read t_granted_sem) by done.
  destruct (negb (t_granted_sem (T w i) =? 0)); cbn [mret M_ret].
  - destruct (set_task i _ w) as [[[] w1]|]; [|done]. by destruct (release_semaphore_locked _ now w1) as [[? w2]|].
  - rewrite (tget_read t_waiting_mutex) by done. by rewrite Hwm.
Qed.

Lemma calm_return_grants x i now : keeps (calm x) (return_grants i now).
Proof. unfold return_grants. calms; apply calming_allowed, calming_ungrant; auto. Qed.

(** ** Giving up the hart *)

Lemma calm_sleep x commit wake_at : wake_at ≠ 0 → keeps (calm x) (sleep_locked commit wake_at).
Proof.
  intros Hw. unfold sleep_locked, current_switch_guard. calms. apply calming_allowed.
  split; try done. by intros t [? ? ? ? ? ?].
Qed.

Lemma calm_yield x ported now : time_ok now → keeps (calm x) (yield_locked ported now).
Proof.
  intros Hn. unfold yield_locked, current_switch_guard, take_yield_target, prepare_switch, prepare_committed_switch_intent.
  calms; first [by apply calm_wake_sleepers | apply (keeps_ready_pop_from (calm x))].
Qed.

(** ** Dispatching *)

(** Like [calm] when the hart changes hands: frames are saved and restored. *)
Definition standing (s : Sched) := (s_slot_generations s, s_reservations s, s_started s, s_retired_count s, s_irq_task s).

Record lively (w w' : World) : Prop := {
  lively_fit j : fit (T w j) → fit (T w' j);
  lively_alive j : t_state (T w' j) = Free → t_state (T w j) = Free;
  lively_idle : spec (t_budget (T w' IDLE_SLOT)) = spec (t_budget (T w IDLE_SLOT));
  lively_books : standing (w_sched w') = standing (w_sched w);
}.

Lemma calm_lively w w' : calm None w w' → lively w w'.
Proof.
  intros [A B _ D E]. split; intros; [by apply A|by apply B|done|]. unfold standing, books in *. by injection E as _ -> -> -> _ -> ->.
Qed.

#[export] Instance lively_preorder : PreOrder lively.
Proof.
  split; [by split; auto|]. intros w1 w2 w3 [A1 B1 C1 D1] [A2 B2 C2 D2].
  split; intros; [auto|auto|by rewrite C2, C1|by rewrite D2, D1].
Qed.

Record living (g : Tcb → Tcb) : Prop := {
  living_fit t : fit t → fit (g t);
  living_alive t : t_state (g t) = Free → t_state t = Free;
  living_spec t : spec (t_budget (g t)) = spec (t_budget t);
}.

#[export] Program Instance lively_footprint : Footprint lively := {
  allowed _ g := living g;
}.
Next Obligation.
  intros i g w [H1 H2 H3]. split; [intros j|intros j|by apply (T_upd_field (λ t, spec (t_budget t)))|done];
    (destruct (decide (j = i)) as [->|Hne]; [|intros H; revert H; unfold T; simpl; by rewrite at_alter_ne]).
  - intros Ht. unfold T in *. simpl. unfold at_ in *. rewrite idx_alter_eq. destruct (idx _ i); simpl in *; [by apply H1|done].
  - unfold T. simpl. unfold at_. rewrite idx_alter_eq. destruct (idx _ i); simpl in *; [by apply H2|done].
Qed.
Next Obligation. intros i v. split; try done. by intros t []. Qed.
Next Obligation. intros id v w. split; try (by destruct id); intros j; by destruct id. Qed.
Next Obligation. intros id v w. split; try (by destruct id); intros j; by destruct id. Qed.
Next Obligation. intros h w. by split. Qed.

Lemma lively_sched g w :
  (∀ s, s_tasks (g s) = s_tasks s) → (∀ s, standing (g s) = standing s) → lively w (w <| w_sched ::= g |>).
Proof.
  intros Ht Hb. assert (∀ j, T (w <| w_sched ::= g |>) j = T w j) as E by (intros j; unfold T; simpl; by rewrite Ht).
  split; intros; rewrite ?E in *; try done. apply Hb.
Qed.

Lemma calming_living g : calming g → living g.
Proof. by intros [? ? _ ?]. Qed.

Lemma living_running : living (λ t, t <| t_state := Running |>).
Proof. split; try done. by intros t [? ? ? ? ? ?]. Qed.

Lemma living_frame v : living (λ t, t <| t_saved_frame := v |>).
Proof. split; try done. by intros t [? ? ? ? ? ?]. Qed.

Lemma living_generation h : living (λ t, t <| t_resume_generation ::= h |>).
Proof. split; try done. by intros t [? ? ? ? ? ?]. Qed.

Lemma lively_trap frame depth now : time_ok now → keeps lively (schedule_from_trap frame depth now).
Proof.
  intros Hn. unfold schedule_from_trap, dispatch_to, account_switch, take_reschedule_target, consume_pending_switch,
    task_ref_is_current, ready_priority, set_current, ready_pop.
  repeat first [ match goal with |- keeps lively (sched_modify _) => apply (keeps_modify lively); intros ?; by apply lively_sched end
    | match goal with |- keeps lively (make_ready _ _) => apply (keeps_make_ready lively); apply calming_living;
        [apply calming_ready|apply calming_metrics] end
    | keep1 ];
  first [ done | apply living_frame | apply living_running | apply living_generation | apply calming_living, calming_metrics
    | apply calming_living, calming_budget; intros b;
      first [by apply phased_switch_out | by apply phased_dispatch | apply spec_on_dispatch | apply charge_until_fields] ].
Qed.
