(* ===== verification/System.v ===== *)
(** * The invariant of the whole system

    Everything the operations need and keep, in one record: the ownership, semaphores
    and mutexes of [kernel], the tickets, a frame for every task that is not on the
    hart, the slots, the conditions on single tasks, and live owners of mutexes. *)

From stdpp Require Import sorting.
From S2P Require Import Prelude Effects Budget Contract Config Context Reservation.
From S2P Require Import Tcb Store Chain Ready Wait Switch Invariant Dispatch Inherit Donation Sync.
From S2P Require Import Moves Permit Slide Lean Handoff Mutex Lock Acquire Exclusion.
From S2P Require Import Timer Frame Touch Wake Slots Statics Tasks Driver Birth Leave Fit.

(** Every living task that is off the hart has a frame to resume from. *)
Definition saved (w : World) : Prop := ∀ i, slot_in i → i ≠ current w → t_state (T w i) ≠ Free → t_saved_frame (T w i) ≠ 0.

(** No mutex belongs to a dead task. *)
Definition owners_live (w : World) : Prop := ∀ a st, w_mutexes w !! a = Some st → mtx_owner st ≠ NIL →
  t_state (T w (mtx_owner st)) ≠ Free.

Record system (c : Z) (w : World) : Prop := {
  system_kernel : ∃ q, kernel w q;
  system_tickets : tickets w;
  system_saved : saved w;
  system_slots : slots_ok w c;
  system_generations : generations_ok w;
  system_fit i : slot_in i → fit (T w i);
  system_owners : owners_live w;
  system_idle : spec (t_budget (T w IDLE_SLOT)) = None;
  system_started : s_started (w_sched w) = true;
  system_retired : 0 <= s_retired_count (w_sched w) <= TASK_SLOT_COUNT;
  system_irq : s_irq_task (w_sched w) = NIL ∨ slot_in (s_irq_task (w_sched w));
}.

Lemma saved_frames w : saved w → frames w.
Proof. intros H i Hi Hst Hne. apply H; [done..|congruence]. Qed.

(** ** Dead tasks leave nothing behind *)

Lemma system_vacant c w : system c w → free_vacant w.
Proof.
  intros [[q Hk] _ _ _ _ Hfit Hown _ _ _ _] i Hi Hst. destruct (fit_free (T w i) (Hfit i Hi) Hst) as [G1 G2].
  pose proof Hk as [_ [_ [H2 H3] _ _ _] _]. split; [done|].
  assert (∀ j, owner_of w j ≠ i) as Hni.
  { intros j. unfold owner_of. case_match; [intros E; by apply (slot_in_not_NIL i)|].
    destruct (w_mutexes w !! _) as [st|] eqn:E; [|intros E'; by apply (slot_in_not_NIL i)].
    intros Ei. apply (Hown _ st E); [rewrite Ei; by apply slot_in_not_NIL|by rewrite Ei]. }
  apply list_eq_same_length with 32%nat; [by rewrite length_replicate|by apply H2|].
  intros n x y Hn Hx Hy. apply lookup_replicate_1 in Hy as [-> _].
  specialize (H3 i (Z.of_nat n) Hi ltac:(unfold PRIORITY_LEVELS; lia)).
  assert (donated w i (Z.of_nat n) = 0) as E0.
  { unfold donated, tally. rewrite (zsum_ext _ (λ _, 0)); [by vm_compute|]. intros j _.
    apply indicator_false. intros [E _]. by apply (Hni j). }
  rewrite E0 in H3. rewrite idx_lookup in H3 by lia. rewrite Nat2Z.id in H3. congruence.
Qed.

(** ** Steps *)

Lemma free_count_mono w w' c : keeps_free w w' → free_count w c <= free_count w' c.
Proof.
  intros H. unfold free_count. apply Nat2Z.inj_le, submseteq_length, NoDup_submseteq; [apply NoDup_free_slots|].
  intros j. rewrite !elem_of_free_slots. intros [? ?]. by split; [apply H|].
Qed.

Lemma slots_ok_mono w w' c : keeps_free w w' → reservations w' = reservations w → slots_ok w c → slots_ok w' c.
Proof. intros H Hr [H1 H2]. pose proof (free_count_mono w w' c H). split; rewrite Hr; [done|lia]. Qed.

(** The owners after an operation: the ones before, or tasks that are ready now. *)
Definition owners_from (w w' : World) : Prop := ∀ a st', w_mutexes w' !! a = Some st' → mtx_owner st' ≠ NIL →
  t_state (T w' (mtx_owner st')) ≠ Free ∨ ∃ st, w_mutexes w !! a = Some st ∧ mtx_owner st = mtx_owner st'.

Lemma owners_from_same w w' :
  (∀ a, mtx_owner <$> w_mutexes w' !! a = mtx_owner <$> w_mutexes w !! a) → owners_from w w'.
Proof.
  intros H a st' Hst' _. specialize (H a). rewrite Hst' in H. destruct (w_mutexes w !! a) as [st|]; [|done].
  right. exists st. split; [done|]. by injection H.
Qed.

Lemma owners_from_core w w' :
  (∀ a, core_mtx <$> w_mutexes w' !! a = core_mtx <$> w_mutexes w !! a) → owners_from w w'.
Proof. intros H. apply owners_from_same. intros a. by apply core_mtx_owner. Qed.

Lemma owners_live_step w w' :
  owners_live w → owners_from w w' → (∀ j, t_state (T w' j) = Free → t_state (T w j) = Free) → owners_live w'.
Proof.
  intros H Hf Ha a st' Hst' Hn. destruct (Hf a st' Hst' Hn) as [|(st & Hst & E)]; [done|].
  intros Hfree%Ha. apply (H a st Hst); by rewrite E.
Qed.

(** What a step owes the invariant. *)
Lemma system_step c w w' :
  system c w → (∃ q', kernel w' q') → lively w w' → keeps_free w w' → tickets w' → saved w' → owners_from w w' →
  system c w'.
Proof.
  intros [H1 H2 H3 H4 H5 H6 H7 H8 H9 H10 H11] Hk [L1 L2 L3 L4] Hfree Ht Hs Ho.
  unfold standing in L4. injection L4 as E1 E2 E3 E4 E5. split; try done.
  - by apply (slots_ok_mono w w').
  - intros i Hi. rewrite E1. by apply H5.
  - intros i Hi. by apply L1, H6.
  - by apply (owners_live_step w w').
  - by rewrite L3.
  - by rewrite E3.
  - by rewrite E4.
  - by rewrite E5.
Qed.

Lemma saved_calm x w w' : calm x w w' → keeps_free w w' → saved w → saved w'.
Proof.
  intros [_ _ Hf _ Hb] Hfree H i Hi Hne Hst. unfold books in Hb. injection Hb as Ec _ _ _ _ _ _.
  rewrite Hf. apply H; [done| |].
  - intros ->. by apply Hne.
  - intros E. by apply Hst, Hfree.
Qed.

(** An operation that leaves the tickets alone. *)
Lemma system_calm c w w' :
  system c w → (∃ q', kernel w' q') → calm None w w' → keeps_free w w' → held w w' → owners_from w w' → system c w'.
Proof.
  intros Hs Hk Hc Hfree [_ S] Ho. apply (system_step c w w' Hs Hk (calm_lively _ _ Hc) Hfree); [| |done].
  - apply (tickets_same w); [by apply (S _ s_next_switch_sequence)|by apply (S _ s_last_consumed_switch_sequence)
      |by apply (S _ s_pending_switch)|apply Hs].
  - by apply (saved_calm None w w'), Hs.
Qed.

(** An operation that gives up the hart. *)
Lemma system_switch c w w' previous target :
  system c w → (∃ q', kernel w' q') → calm None w w' → keeps_free w w' → owners_from w w' →
  sequence_of w < u64_max → sequence_of w' = sequence_of w + 1 →
  pending w' = Some (mkPending (sequence_of w + 1) previous target) → system c w'.
Proof.
  intros Hs Hk Hc Hfree Ho Hb Hq Hp. apply (system_step c w w' Hs Hk (calm_lively _ _ Hc) Hfree); [| |done].
  - destruct (system_tickets c w Hs) as [H1 H2 _]. pose proof (calm_books None w w' Hc) as E. unfold books in E.
    injection E as _ _ _ _ E _ _. change (consumed_of w' = consumed_of w) in E. split; rewrite ?E, ?Hq; [lia|lia|].
    intros p. rewrite Hp. intros [= <-]. cbn. lia.
  - by apply (saved_calm None w w'), Hs.
Qed.

Lemma system_op {A} c (m : M World A) w :
  system c w → keeps (calm None) m → keeps held m →
  wp m (λ _ w', (∃ q', kernel w' q') ∧ keeps_free w w' ∧ owners_from w w') w → wp m (λ _ w', system c w') w.
Proof.
  intros Hs Hc Hh H. eapply wp_mono; [|eapply wp_keeps; [exact Hc|]; eapply wp_keeps; [exact Hh|]; exact H].
  intros _ w' [[(Hk & Hf & Ho) Hheld] Hcalm]. by apply (system_calm c w).
Qed.

(** ** Semaphores *)

Lemma system_release c w a st now :
  system c w → w_sems w !! a = Some st → permits w a < i32_max →
  wp (release_semaphore_locked a now) (λ _ w', system c w') w.
Proof.
  intros Hs Hst Hb. destruct (system_kernel c w Hs) as [q Hk]. pose proof Hk as [Hsem _ _].
  assert (a ≠ 0) as Ha by (intros ->; by rewrite (sems_address w q (semaphores_sems w q None Hsem)) in Hst).
  apply system_op; [done|apply calm_release| |].
  { unfold release_semaphore_locked. keep; held_allowed. }
  wp_apply (release_semaphore_spec w q a st now Hsem Ha Hst Hb). intros x w' (q' & [H1 H2 H3 _ _]).
  split_and!; [exists q'; by apply (kernel_same_mutexes w w' q q')|apply H3|apply owners_from_core, H3].
Qed.

Lemma system_up c w a st now depth :
  system c w → w_sems w !! a = Some st → permits w a < i32_max → wp (up a now depth) (λ _ w', system c w') w.
Proof.
  intros Hs Hst Hb. unfold up. apply wp_bind. wp_apply (system_release c w a st now Hs Hst Hb). intros x w' H. by go.
Qed.

Lemma system_consume_sem c w i :
  system c w → slot_in i → t_granted_mutex (T w i) = 0 → wp (consume_semaphore_grant_locked i) (λ _ w', system c w') w.
Proof.
  intros Hs Hi Hg. destruct (system_kernel c w Hs) as [q Hk]. pose proof Hk as [Hsem _ _].
  apply system_op; [done|apply calm_consume_sem| |].
  { unfold consume_semaphore_grant_locked. keep; held_allowed. }
  wp_apply (consume_grant_spec w q i Hsem Hi Hg). intros r w' (_ & H1 & H2 & _).
  split_and!; [exists q; by apply (kernel_same_mutexes w w' q q)|apply H2|apply owners_from_core, H2].
Qed.

(** A thread that may give up the hart, except for the scheduler lock. *)
Lemma system_down c w a st delivery timeout_ms deadline :
  system c w → w_sems w !! a = Some st → may_block w →
  wp (down_timeout true delivery a timeout_ms deadline) (λ _ w', system c w') w.
Proof.
  intros Hs Hst Hmay. destruct (system_kernel c w Hs) as [q Hk]. pose proof Hk as [Hsem _ _].
  eapply wp_mono; [|eapply wp_keeps; [apply (calm_down None)|];
    exact (down_timeout_spec w q true delivery a timeout_ms deadline st Hsem Hst (λ _ _ _ _, Hmay))].
  intros r w' [H Hcalm]. unfold down_outcome in H. case_match.
  { destruct H as (_ & -> & Hsem'). apply (system_calm c w); try done.
    - exists q. apply (kernel_same_mutexes w _ q q Hk Hsem'), counted_mutexes.
    - by intros j.
    - by apply owners_from_same. }
  case_match; [by destruct H as [_ ->]|]. case_match; [by destruct H as [_ ->]|].
  destruct H as (i & _ & [-> D2 D3 _ _ _ D7 D8]).
  eapply (system_switch c w w'); [done| |done|apply D7|apply owners_from_core, D7|apply Hmay|done|exact D3].
  eexists. exact (kernel_same_mutexes w w' q _ Hk D2 D7).
Qed.

(** ** Mutexes *)

Lemma owners_from_with_mutex a h w st :
  w_mutexes w !! a = Some st → (mtx_owner (h st) = NIL ∨ mtx_owner (h st) = mtx_owner st ∨ t_state (T w (mtx_owner (h st))) ≠ Free) →
  owners_from w (with_mutex a h w).
Proof.
  intros Hst Hh b st' Hb Hn. rewrite with_mutex_lookup in Hb. case_decide as E.
  - subst. rewrite Hst in Hb. injection Hb as <-. destruct Hh as [?|[E|E]]; [done|right; by exists st|by left].
  - right. by exists st'.
Qed.

Lemma system_lock c w a st delivery timeout_ms deadline :
  system c w → w_mutexes w !! a = Some st → may_block w →
  wp (lock true delivery a timeout_ms deadline) (λ _ w', system c w') w.
Proof.
  intros Hs Hst Hmay. destruct (system_kernel c w Hs) as [q Hk]. pose proof Hmay as [Hrun _ _ Hseq [_ Hng]].
  eapply wp_mono; [|eapply wp_keeps; [apply (calm_lock None)|];
    exact (lock_spec w q true delivery a timeout_ms deadline st Hk Hst Hrun Hng (λ _ _ _, Hmay))].
  intros r w' [H Hcalm]. unfold lock_outcome in H.
  assert (∀ h, w' = with_mutex a h w → kernel w' q →
    (mtx_owner (h st) = NIL ∨ mtx_owner (h st) = mtx_owner st ∨ t_state (T w (mtx_owner (h st))) ≠ Free) → system c w') as Hupd.
  { intros h -> Hk' Hh. apply (system_calm c w); try done; [by exists q|by intros j|].
    by apply (owners_from_with_mutex a h w st). }
  case_match.
  { case_match; [by destruct H as [_ ->]|]. destruct H as (_ & E & Hk'). apply (Hupd _ E Hk'). by right; left. }
  case_match. { destruct H as (_ & E & Hk'). apply (Hupd _ E Hk'). right; right. cbn. by rewrite Hrun. }
  case_match; [by destruct H as [_ ->]|]. case_match; [by destruct H as [_ ->]|].
  destruct H as [(_ & _ & ->)|(_ & i & q1 & _ & [-> L2 L3 _ _ _ L7 L8 L9])]; [done|].
  eapply (system_switch c w w'); [done|by eexists|done|done|by apply owners_from_core|done|done|exact L3].
Qed.

Lemma keeps_free_with_mutex a h w : keeps_free w (with_mutex a h w).
Proof. by intros j. Qed.

Lemma owners_from_given_up w w' q q' a st now :
  kernel w q → w_mutexes w !! a = Some st → given_up w w' q q' a now → owners_from w w'.
Proof.
  intros Hk Hst (_ & _ & H). pose proof (kernel_owned w q None Hk) as Ho. destruct (q (QMtx a)) as [|nxt l] eqn:E.
  - destruct H as [_ ->]. apply (owners_from_with_mutex a (λ st, st <| mtx_depth := 0 |> <| mtx_owner := NIL |>) w st Hst). by left.
  - set (w1 := with_mutex a (λ st, st <| mtx_depth := 0 |>) w) in *.
    assert (slot_in nxt) as Hn by (apply (queues_slot w q (proj1 Ho) (QMtx a)); rewrite E; left).
    assert (shape w1) as Hs1.
    { eapply owned_shape, (semaphores_owned _ q None), semaphores_with_mutex; [by intros ?|apply Hk]. }
    destruct H as [_ _ _ H _ _].
    destruct (handed_lookup w1 w' a nxt now (st <| mtx_depth := 0 |>)) as (Hm & st' & Hst' & Hown & _); [|done|].
    { unfold w1. by rewrite with_mutex_lookup, decide_True, Hst. }
    intros b sb Hb Hne. destruct (decide (b = a)) as [->|Hba].
    + left. assert (sb = st') as -> by congruence. rewrite Hown. rewrite (T_handed w1 w' a nxt now t_state) by done.
      by rewrite decide_True.
    + right. specialize (Hm b Hba). rewrite Hb in Hm. unfold w1 in Hm. rewrite with_mutex_lookup, decide_False in Hm by done.
      destruct (w_mutexes w !! b) as [s0|]; [|done]. exists s0. split; [done|]. by injection Hm.
Qed.

Lemma held_unlock a now depth : keeps held (unlock a now depth).
Proof.
  unfold unlock, release_mutex_locked. keep; try held_allowed; apply (keeps_for_waiters held); intros y; keep; held_allowed.
Qed.

Lemma system_unlock c w a st now depth :
  system c w → w_mutexes w !! a = Some st → t_state (T w (current w)) = Running →
  t_granted_mutex (T w (current w)) = 0 → wp (unlock a now depth) (λ _ w', system c w') w.
Proof.
  intros Hs Hst Hrun Hng. destruct (system_kernel c w Hs) as [q Hk].
  apply system_op; [done|apply calm_unlock|apply held_unlock|].
  wp_apply (unlock_spec w q a now depth st Hk Hst Hrun Hng). intros r w' H. unfold unlock_outcome in H.
  assert (owners_from w w) as Hrefl by (intros b sb Hb _; right; by exists sb).
  case_match; [destruct H as [_ ->]; split_and!; [by exists q|done|done]|].
  case_match; [destruct H as (_ & -> & Hk')|destruct H as (_ & q' & Hg)]; split_and!.
  - by exists q.
  - apply keeps_free_with_mutex.
  - apply (owners_from_with_mutex _ _ w st Hst). by right; left.
  - exists q'. apply Hg.
  - by eapply given_up_free.
  - by eapply owners_from_given_up.
Qed.

Lemma system_consume_mutex c w :
  system c w → t_granted_sem (T w (current w)) = 0 → wp consume_mutex_grant_locked (λ _ w', system c w') w.
Proof.
  intros Hs Hg. destruct (system_kernel c w Hs) as [q Hk]. pose proof (kernel_owned w q None Hk) as Ho.
  pose proof (owned_shape w q None Ho) as Hsh. assert (slot_in (current w)) as Hc by eauto with store.
  apply system_op; [done|apply calm_consume_mutex| |].
  { unfold consume_mutex_grant_locked. keep; held_allowed. }
  unfold consume_mutex_grant_locked. go. fold (current w). split_and!.
  - exists q. eapply (kernel_unseen (upd_task (current w) relinquish w)); [by apply kernel_relinquish| |by apply owned_upd|done].
    split; [|done..]. intros j. rewrite !T_upd_task by done. by case_decide.
  - apply keeps_free_same. intros j. by apply T_upd_field.
  - by apply owners_from_same.
Qed.

(** ** Cancelling *)

(** No mutex changes hands. *)
Definition same_owners (w w' : World) : Prop := ∀ a, mtx_owner <$> w_mutexes w' !! a = mtx_owner <$> w_mutexes w !! a.

#[export] Instance same_owners_preorder : PreOrder same_owners.
Proof. split; [done|]. intros w1 w2 w3 H1 H2 a. by rewrite H2, H1. Qed.

Lemma same_owners_wait h w a :
  (∀ st, mtx_owner (h st) = mtx_owner st) → same_owners w (w <| w_mutexes ::= alter h a |>).
Proof.
  intros H b. cbn. destruct (decide (b = a)) as [->|Hne]; [|by rewrite lookup_alter_ne].
  rewrite lookup_alter_eq. destruct (w_mutexes w !! a); cbn; [by rewrite H|done].
Qed.

#[export] Program Instance same_owners_footprint : Footprint same_owners := {
  allowed _ _ := True;
}.
Next Obligation. done. Qed.
Next Obligation. done. Qed.
Next Obligation. intros [p|a|a] v w; try done. by apply same_owners_wait. Qed.
Next Obligation. intros [p|a|a] v w; try done. by apply same_owners_wait. Qed.
Next Obligation. done. Qed.

#[export] Instance same_owners_walk : WalkFootprint same_owners.
Proof. by split. Qed.

Lemma keeps_same_owners_sem a h : keeps same_owners (set_sem a h).
Proof.
  intros w. unfold set_sem, sem_at, mbind, M_bind, gets, modify, expect. cbn.
  by destruct (w_sems w !! a).
Qed.
Ltac keep_owners := keep; first [exact I | apply keeps_same_owners_sem].

Lemma tget_bind {A B} (f : Tcb → A) i (k : A → M World B) w :
  shape w → slot_in i → (tget f i ≫= k) w = k (f (T w i)) w.
Proof. intros Hs Hi. unfold mbind, M_bind. by rewrite tget_read. Qed.

(** What holds after a run, if it does not fault. *)
Definition after {A} (m : M World A) (w : World) (P : A → World → Prop) : Prop :=
  match m w with Done (a, w') => P a w' | Fault _ => True end.

Lemma wp_after {A} (m : M World A) P Q w : wp m Q w → after m w P → wp m (λ a w', Q a w' ∧ P a w') w.
Proof. unfold wp, after. by destruct (m w) as [[a w']|]. Qed.

Lemma after_wp {A} (m : M World A) w (P : A → World → Prop) : wp m P w → after m w P.
Proof. unfold wp, after. by destruct (m w) as [[a w']|]. Qed.

Lemma after_keeps {A} R (m : M World A) w : keeps R m → after m w (λ _ w', R w w').
Proof. intros H. apply H. Qed.

Lemma after_mono {A} (m : M World A) w (P Q : A → World → Prop) : (∀ a w', P a w' → Q a w') → after m w P → after m w Q.
Proof. unfold after. destruct (m w) as [[a w']|]; auto. Qed.

Lemma after_bind {A B} (m : M World A) (k : A → M World B) w P :
  after m w (λ a w', after (k a) w' P) → after (m ≫= k) w P.
Proof. unfold after, mbind, M_bind. by destruct (m w) as [[a w']|]. Qed.

Lemma after_tget {A B} (f : Tcb → A) i (k : A → M World B) w P :
  shape w → slot_in i → after (k (f (T w i))) w P → after (tget f i ≫= k) w P.
Proof. intros Hs Hi H. unfold after. by rewrite tget_bind. Qed.

Lemma cancel_owners w q i now :
  kernel w q → slot_in i → t_granted_mutex (T w i) = 0 → after (cancel_wait_locked i now) w (λ _ w', same_owners w w').
Proof.
  intros Hk Hi Hg. pose proof Hk as [Hsem _ _]. pose proof (owned_shape w q None (kernel_owned w q None Hk)) as Hs.
  assert (keeps same_owners (cancel_semaphore_wait_locked i now)) as K.
  { unfold cancel_semaphore_wait_locked, release_semaphore_locked, remove_waiter. keep_owners. }
  unfold cancel_wait_locked. apply after_bind.
  eapply after_mono; [|apply after_wp; eapply wp_keeps; [exact K|exact (cancel_semaphore_spec w q i now Hsem Hi)]].
  intros r w1 [(q1 & _ & -> & _ & Hsame) Ho1]. destruct (negb (t_waiting_sem (T w i) =? 0) || _) eqn:E; [done|].
  rewrite Hsame by done. apply after_tget; [done..|]. destruct (negb (t_waiting_mutex (T w i) =? 0)).
  - apply after_keeps. unfold remove_mutex_waiter. keep_owners.
  - apply after_tget; [done..|]. by rewrite Hg.
Qed.

Lemma owners_from_trans w w1 w2 : w_mutexes w1 = w_mutexes w → owners_from w1 w2 → owners_from w w2.
Proof. unfold owners_from. by intros ->. Qed.

(** A waiter: everyone else is left in order, and it is ready. *)
Lemma system_cancel_waiting c w w' i :
  system c w → slot_in i → (∃ q', kernel w' q') → calm (Some i) w w' → same_field t_budget w w' → held w w' →
  keeps_free w w' → owners_from w w' → t_state (T w' i) = Ready → system c w'.
Proof.
  intros Hs Hi Hk [C1 C2 C3 C4 C5] Hb [Hh S] Hfree Ho Hst.
  assert (lively w w') as L.
  { split; [| |done|unfold books, standing in *; by injection C5 as _ -> -> -> _ -> ->].
    - intros j. destruct (decide (j = i)) as [->|Hne]; [|apply C1; congruence]. intros [F1 F2 F3 F4 F5 F6].
      split; rewrite ?Hst, ?(Hb i), ?(Hh _ t_scheduler_lock_depth), ?(Hh _ t_scheduler_lock_started_at); done.
    - intros j. destruct (decide (j = i)) as [->|Hne]; [by rewrite Hst|apply C2; congruence]. }
  apply (system_step c w w' Hs Hk L Hfree); [| |done].
  - apply (tickets_same w); [by apply (S _ s_next_switch_sequence)|by apply (S _ s_last_consumed_switch_sequence)
      |by apply (S _ s_pending_switch)|apply Hs].
  - apply (saved_calm (Some i) w); [done|done|apply Hs].
Qed.

Lemma held_cancel i now : keeps held (cancel_wait_locked i now).
Proof.
  unfold cancel_wait_locked, cancel_semaphore_wait_locked, release_semaphore_locked, release_mutex_locked,
    remove_waiter, remove_mutex_waiter.
  keep; try held_allowed; apply (keeps_for_waiters held); intros y; keep; held_allowed.
Qed.

Lemma budget_cancel i now : keeps (same_field t_budget) (cancel_wait_locked i now).
Proof.
  unfold cancel_wait_locked, cancel_semaphore_wait_locked, release_semaphore_locked, release_mutex_locked,
    remove_waiter, remove_mutex_waiter.
  keep; try done; apply (keeps_for_waiters (same_field t_budget)); intros y; by keep.
Qed.

Lemma cancelled_owners w w' q i now r :
  kernel w q → slot_in i → cancelled_wait w w' q i now r →
  (t_granted_mutex (T w i) = 0 → same_owners w w') → owners_from w w'.
Proof.
  intros Hk Hi [_ _ _ _ Hh] Hsame. destruct (decide (t_granted_mutex (T w i) = 0)) as [E|E].
  - by apply owners_from_same, Hsame.
  - destruct (Hh E) as [q' Hg]. pose proof Hk as [[_ _ _ Hgr] _ Hmu].
    destruct (mutexes_granted w q Hmu i Hi E) as (st & Hst & _).
    apply (owners_from_trans w (upd_task i relinquish w)); [done|].
    eapply owners_from_given_up; [apply kernel_relinquish; [exact Hk|done|]|exact Hst|exact Hg].
    by destruct (grants_exclusive w Hgr i Hi).
Qed.

Lemma system_cancel c w i now :
  system c w → slot_in i → wp (cancel_wait_locked i now) (λ _ w', system c w') w.
Proof.
  intros Hs Hi. destruct (system_kernel c w Hs) as [q Hk]. pose proof (owned_shape w q None (kernel_owned w q None Hk)) as Hsh.
  assert (after (cancel_wait_locked i now) w (λ _ w', t_granted_mutex (T w i) = 0 → same_owners w w')) as Ha.
  { destruct (decide (t_granted_mutex (T w i) = 0)) as [E|E].
    - eapply after_mono; [|by eapply cancel_owners]. auto.
    - unfold after. by destruct (cancel_wait_locked i now w) as [[? ?]|]. }
  pose proof (wp_after _ _ _ _ (cancel_wait_spec w q i now Hk Hi) Ha) as H.
  destruct (decide (t_waiting_sem (T w i) = 0 ∧ t_waiting_mutex (T w i) = 0)) as [[E1 E2]|Hwait].
  - unfold wp in H |- *. rewrite cancel_unwaiting in H |- * by done. apply (system_op c (return_grants i now) w Hs).
    + apply calm_return_grants.
    + unfold return_grants, release_semaphore_locked, release_mutex_locked.
      keep; try held_allowed; apply (keeps_for_waiters held); intros y; keep; held_allowed.
    + eapply wp_mono; [|exact H]. intros r w' [Hc Hsame]. pose proof Hc as [_ [R1 _ _ R4] _ _ _].
      split_and!; [done|done|by eapply cancelled_owners].
  - eapply wp_mono; [|eapply wp_keeps; [apply calm_cancel|]; eapply wp_keeps; [apply budget_cancel|];
      eapply wp_keeps; [apply held_cancel|]; exact H].
    intros r w' [[[[Hc Hsame] Hh] Hb] Hcalm]. pose proof Hc as [_ [R1 _ _ R4] _ Hr _].
    eapply (system_cancel_waiting c w w' i); try done; [by eapply cancelled_owners|]. apply Hr.
    destruct (decide (t_waiting_sem (T w i) = 0)); [right|by left]. tauto.
Qed.

(** ** Giving up the hart *)

(** The ticket of the intent [i] of the running task is pending, and its target is another task. *)
Record promised (w w' : World) (i : SwitchIntent) : Prop := {
  promised_previous : ref_slot (si_previous i) = current w;
  promised_target : slot_in (ref_slot (si_target i)) ∧ ref_slot (si_target i) ≠ current w;
  promised_pending : pending w' = Some (mkPending (si_sequence i) (si_previous i) (si_target i));
}.

Lemma best_slot w q x : owned w q None → best q = Some x → slot_in x.
Proof. intros Ho Hb. destruct (best_queued q x Hb) as [p Hin]. by apply (queues_slot w q (proj1 Ho) (QReady p)). Qed.

Lemma departed_promised w0 w w' q i :
  kernel w q → t_state (T w (current w)) ≠ Ready → current w ≠ IDLE_SLOT → current w = current w0 →
  departed w w' q i → promised w0 w' i.
Proof.
  intros Hk Hst Hidle Hc [-> _ Hp _ _ _]. pose proof (kernel_owned w q None Hk) as Ho. split; [done| |exact Hp].
  cbn. rewrite <-Hc. destruct (best q) as [x|] eqn:Hb; cbn; [|by split].
  split; [by apply (best_slot w q)|by apply (best_not_running w q)].
Qed.

Lemma yielded_promised w0 w w' q x now i :
  kernel w q → t_state (T w (current w)) = Running → best q = Some x → current w = current w0 →
  yielded w w' q x now i → promised w0 w' i.
Proof.
  intros Hk Hst Hb Hc [-> _ Hp _ _]. pose proof (kernel_owned w q None Hk) as Ho. split; [done| |exact Hp].
  cbn. rewrite <-Hc. split; [by apply (best_slot w q)|apply (best_not_running w q); [done..|by rewrite Hst]].
Qed.

Lemma keeps_free_quiet w w' : quiet w w' → keeps_free w w'.
Proof. intros [F _ _]. apply keeps_free_same. intros j. by apply (F _ t_state). Qed.

Lemma system_sleep c w wake_at :
  system c w → may_block w → wake_at ≠ 0 → wp (sleep_locked true wake_at) (λ _ w', system c w') w.
Proof.
  intros Hs [Hrun Hidle Hp Hseq _] Hne. destruct (system_kernel c w Hs) as [q Hk].
  pose proof (owned_shape w q None (kernel_owned w q None Hk)) as Hsh.
  assert (slot_in (current w)) as Hc by (eapply owned_slot_current, kernel_owned; exact Hk).
  eapply wp_mono; [|eapply wp_keeps; [by apply (calm_sleep None)|]; exact (sleep_spec w q wake_at Hk Hrun Hidle Hseq)].
  intros r w' [H Hcalm]. destruct (negb _); [by destruct H as [_ ->]|].
  destruct H as (i & _ & _ & [-> D2 D3 D4 D5 _]).
  eapply (system_switch c w w'); [done|by eexists|done| | |done|exact D4|exact D3].
  - apply (keeps_free_trans w (slept w wake_at)); [|by apply keeps_free_quiet].
    intros j Hj. unfold slept. rewrite T_upd_task by (done || by apply (shape_ext w)). case_decide; [|done]. subst. 
    change (T (w <| w_sched ::= _ |>) (current w)) with (T w (current w)). congruence.
  - apply owners_from_core, D5.
Qed.

Lemma system_yield c w now :
  system c w → t_state (T w (current w)) = Running → sequence_of w < u64_max → time_ok now →
  wp (yield_locked true now) (λ _ w', system c w') w.
Proof.
  intros Hs Hrun Hseq Hn. destruct (system_kernel c w Hs) as [q Hk].
  assert (keeps same_owners (yield_locked true now)) as K.
  { unfold yield_locked, current_switch_guard, wake_sleepers, wake_task, replenish_budgets, replenish_task,
      timeout_semaphore_waiter_locked, timeout_mutex_waiter, remove_waiter, remove_mutex_waiter, take_yield_target,
      ready_pop, prepare_switch, prepare_committed_switch_intent, prepare_switch_intent, commit_switch_intent, task_ref,
      task_ref_is_current, recover_completed_switch_request, restore_detached_switch_target.
    repeat first [ match goal with |- keeps _ (sched_modify _) => by apply (keeps_modify same_owners) end | keep1 ];
      first [exact I | apply (keeps_ready_pop_from same_owners) | apply (keeps_make_ready same_owners); exact I]. }
  eapply wp_mono; [|eapply wp_keeps; [by apply (calm_yield None)|]; eapply wp_keeps; [exact K|];
    exact (yield_spec w q now Hk Hrun Hseq)].
  intros r w' [[H Hown%owners_from_same] Hcalm]. destruct (negb _); [by destruct H as [_ ->]|].
  destruct H as (w1 & q1 & [R1 R2 [_ S] R4 R5] & H).
  assert (keeps_free w w1) as Hf1.
  { intros j Hj. destruct (decide (slot_in j)) as [Hji|Hji].
    - pose proof (swept_state _ _ _ R2 j Hji) as E. change (T (counted_yield w) j) with (T w j) in E. rewrite E, Hj.
      unfold wakes, due, refilled. by rewrite Hj.
    - rewrite T_out; [done| |done]. eapply owned_shape, kernel_owned, R1. }
  assert (sequence_of w1 = sequence_of w) as Hs1 by (by apply (S _ s_next_switch_sequence)).
  destruct (best q1) as [x|].
  - destruct H as (i & _ & [-> Y2 Y3 Y4 Y5]). rewrite Hs1 in Y3, Y4.
    eapply (system_switch c w w'); [done|by eexists|done| |done|done|exact Y4|exact Y3].
    apply (keeps_free_trans w w1); [done|]. eapply keeps_free_updated; [exact Y5|]. left. by rewrite R5, R4.
  - destruct H as [_ ->]. apply (system_step c w w1); try done; [by exists q1|by apply calm_lively| |].
    + apply (tickets_same w); [done|by apply (S _ s_last_consumed_switch_sequence)|by apply (S _ s_pending_switch)|apply Hs].
    + apply (saved_calm None w w1); [done|done|apply Hs].
Qed.

(** ** Exiting *)

(** The part of a task that [fit] and [saved] read. *)
Definition vitals (t : Tcb) :=
  (t_state t, t_wake_at t, t_budget t, t_granted_sem t, t_granted_mutex t, t_saved_frame t, lock_part t).

Lemma fit_vitals t t' : vitals t' = vitals t → fit t → fit t'.
Proof. unfold vitals. intros [= E1 E2 E3 E4 E5 _ E6 E7] [F1 F2 F3 F4 F5 F6].
  split; rewrite ?E1, ?E2, ?E3, ?E4, ?E5, ?E6, ?E7; done. Qed.

Lemma fit_empty : fit Tcb_empty.
Proof. split; try done. Qed.

(** What the exit of the current task owes. *)
Record may_exit (w : World) : Prop := {
  exit_may_block : may_block w;
  exit_unlocked : lock_depth w = 0;
  exit_owns_nothing a st : w_mutexes w !! a = Some st → mtx_owner st ≠ current w;
  exit_room : t_stack (T w (current w)) ≠ 0 → s_retired_count (w_sched w) < TASK_SLOT_COUNT;
}.

Lemma T_exited w j :
  shape w → slot_in (current w) → T (exited w) j = if decide (current w = j) then Tcb_empty else T w j.
Proof. intros Hs Hc. unfold exited, retired. case_match; by apply (T_upd_task w (current w) (λ _, Tcb_empty)). Qed.

Lemma exited_books w : reservations (exited w) = reservations w ∧ s_slot_generations (w_sched (exited w)) = s_slot_generations (w_sched w) ∧
  s_started (w_sched (exited w)) = s_started (w_sched w) ∧ consumed_of (exited w) = consumed_of w ∧
  sequence_of (exited w) = sequence_of w ∧ current (exited w) = current w ∧ w_mutexes (exited w) = w_mutexes w ∧
  s_irq_task (w_sched (exited w)) = s_irq_task (w_sched w).
Proof. unfold exited, retired. by case_match. Qed.

Lemma exited_retired w :
  0 <= s_retired_count (w_sched w) <= TASK_SLOT_COUNT →
  (t_stack (T w (current w)) ≠ 0 → s_retired_count (w_sched w) < TASK_SLOT_COUNT) →
  0 <= s_retired_count (w_sched (exited w)) <= TASK_SLOT_COUNT.
Proof.
  intros H Hr. unfold exited, retired. destruct (Z.eqb_spec (t_stack (T w (current w))) 0); [done|]. specialize (Hr n).
  change (0 <= s_retired_count (w_sched w) + 1 <= TASK_SLOT_COUNT). lia.
Qed.

Lemma system_departed c w w' q i :
  system c w → may_exit w → departed (exited w) w' q i → system c w'.
Proof.
  intros Hs [[Hrun Hidle Hp Hseq [Hg1 Hg2]] Hd Hown Hroom] [-> D2 D3 D4 D5 D6].
  pose proof Hs as [[q0 Hk] [Ht1 Ht2 _] S3 S4 S5 S6 S7 S8 S9 S10 S11].
  pose proof (owned_shape w q0 None (kernel_owned w q0 None Hk)) as Hsh.
  assert (slot_in (current w)) as Hc by (eapply owned_slot_current, kernel_owned; exact Hk).
  destruct (exited_books w) as (B1 & B2 & B3 & B4 & B5 & B6 & B7 & B8).
  assert (∀ j, vitals (T w' j) = if decide (current w = j) then vitals Tcb_empty else vitals (T w j)) as Hv.
  { intros j. rewrite (quiet_field _ _ D5 _ vitals) by done. rewrite T_exited by done. by case_decide. }
  assert (∀ A (f : Sched → A), _) as St by (intros A f; exact (D6 A f)).
  assert (keeps_free w w') as Hfree.
  { intros j Hj. specialize (Hv j). unfold vitals in Hv. case_decide; [by injection Hv|]. injection Hv as E. congruence. }
  split; [by eexists|..].
  - assert (consumed_of w' = consumed_of w) as E by (rewrite <-B4; by apply (St _ s_last_consumed_switch_sequence)).
    split; rewrite ?E, ?D4, ?B5; [lia|lia|]. intros p. rewrite D3. intros [= <-]. cbn. rewrite B5. lia.
  - intros j Hj. assert (current w' = current w) as -> by (rewrite <-B6; by apply (St _ s_current)).
    intros Hne Hst. specialize (Hv j). rewrite decide_False in Hv by done. unfold vitals in Hv.
    injection Hv as E _ _ _ _ Ef. rewrite Ef. apply S3; congruence.
  - apply (slots_ok_mono w w'); [done| |done]. rewrite <-B1. by apply (St _ s_reservations).
  - intros j Hj. assert (s_slot_generations (w_sched w') = s_slot_generations (w_sched w)) as ->
      by (rewrite <-B2; by apply (St _ s_slot_generations)). by apply S5.
  - intros j Hj. specialize (Hv j). case_decide; [eapply fit_vitals; [exact Hv|apply fit_empty]|].
    eapply fit_vitals; [exact Hv|by apply S6].
  - intros a st' Hst' Hn. pose proof (quiet_mutexes _ _ D5 a) as Hm. rewrite Hst', B7 in Hm.
    destruct (w_mutexes w !! a) as [st|] eqn:Hst; [|done]. injection Hm as Eo _. rewrite Eo in Hn |- *.
    specialize (Hv (mtx_owner st)). rewrite decide_False in Hv by (intros E; by apply (Hown a st)).
    injection Hv as -> _. by apply (S7 a st).
  - specialize (Hv IDLE_SLOT). rewrite decide_False in Hv by done. injection Hv as _ _ -> _. done.
  - rewrite <-S9, <-B3. by apply (St _ s_started).
  - assert (s_retired_count (w_sched w') = s_retired_count (w_sched (exited w))) as -> by (by apply (St _ s_retired_count)).
    by apply exited_retired.
  - assert (s_irq_task (w_sched w') = s_irq_task (w_sched w)) as -> by (rewrite <-B8; by apply (St _ s_irq_task)). done.
Qed.

Lemma system_exit c w : system c w → may_exit w → wp (exit_locked true) (λ _ w', system c w') w.
Proof.
  intros Hs Hme. pose proof Hme as [[Hrun Hidle Hp Hseq Hg] Hd Hown Hroom]. destruct (system_kernel c w Hs) as [q Hk].
  wp_apply (exit_spec w q Hk Hrun Hidle Hseq Hd); [|by split|].
  - intros i w' [_ H]. by eapply system_departed.
  - intros Hne. split; [apply Hs|by apply Hroom].
Qed.

(** ** The timer *)

Lemma system_sched c w g :
  (∀ s, s_tasks (g s) = s_tasks s) → (∀ s, s_ready_head (g s) = s_ready_head s) → (∀ s, s_ready_tail (g s) = s_ready_tail s) →
  (∀ s, length (s_retired_stacks (g s)) = length (s_retired_stacks s)) → (∀ s, s_pending_switch (g s) = s_pending_switch s) →
  (∀ s, s_next_switch_sequence (g s) = s_next_switch_sequence s) → (∀ s, books (g s) = books s) →
  system c w → system c (w <| w_sched ::= g |>).
Proof.
  intros G1 G2 G3 G4 G5 G6 G7 Hs. destruct (system_kernel c w Hs) as [q Hk].
  assert (∀ s, s_current (g s) = s_current s ∧ s_slot_generations (g s) = s_slot_generations s ∧
    s_last_consumed_switch_sequence (g s) = s_last_consumed_switch_sequence s) as G8.
  { intros s. specialize (G7 s). unfold books in G7. by injection G7. }
  assert (calm None w (w <| w_sched ::= g |>)) as Hc by (by apply calm_sched).
  assert (keeps_free w (w <| w_sched ::= g |>)) as Hf by (intros j; by rewrite T_sched).
  apply (system_step c w); [done| |by apply calm_lively|done| | |by apply owners_from_same].
  - exists q. apply kernel_sched; try done; intros s; destruct (G8 s) as (E1 & E2 & E3); congruence.
  - apply (tickets_same w); [apply G6|apply G8|apply G5|apply Hs].
  - apply (saved_calm None w); [done..|apply Hs].
Qed.

Lemma after_conj {A} (m : M World A) w (P Q : A → World → Prop) :
  after m w P → after m w Q → after m w (λ a w', P a w' ∧ Q a w').
Proof. unfold after. by destruct (m w) as [[a w']|]. Qed.

Lemma owners_wake_sleepers now : keeps same_owners (wake_sleepers now).
Proof.
  unfold wake_sleepers, wake_task, replenish_budgets, replenish_task, timeout_semaphore_waiter_locked,
    timeout_mutex_waiter, remove_waiter, remove_mutex_waiter.
  keep; first [exact I | apply (keeps_make_ready same_owners); exact I].
Qed.

Lemma after_on_timer w q now limit :
  kernel w q → time_ok now → after (on_timer now limit) w (λ _ w', same_owners w w' ∧
    calm (Some (current w)) w w' ∧ (t_state (T w (current w)) ≠ Running → calm None w w')).
Proof.
  intros Hk Hn. assert (slot_in (current w)) as Hc by (eapply owned_slot_current, kernel_owned; exact Hk).
  unfold on_timer. apply after_bind.
  eapply after_mono; [|apply after_wp; eapply wp_keeps; [by apply (calm_wake_sleepers None)|];
    eapply wp_keeps; [apply owners_wake_sleepers|]; exact (wake_sleepers_spec w q now Hk)].
  intros _ w1 [[[[q1 Hk1] _ Hc1 Hst1 _ _] Ho1] Hcalm1].
  pose proof (owned_shape w1 q1 None (kernel_owned w1 q1 None Hk1)) as Hs1.
  assert (calm (Some (current w)) w w1) as Hsome by (destruct Hcalm1; split; auto).
  match goal with |- after (sched_gets s_current ≫= ?k) w1 ?P => change (after (k (current w1)) w1 P) end.
  rewrite Hc1. set (c := current w) in *. cbv beta. apply after_tget; [done..|]. unfold state_eqb.
  destruct (decide (t_state (T w c) = Running)) as [E|E].
  - rewrite Hst1, (running_not_waking now _ E), E, bool_decide_true by done. cbn [negb].
    eapply after_mono; [|apply after_conj; [apply (after_keeps same_owners)|apply (after_keeps (calm (Some c)))]].
    + intros v w' [H1 H2]. split_and!; [by etrans|by etrans|done].
    + unfold count_exhaustion. keep; exact I.
    + unfold count_exhaustion. apply (keeps_bind (calm (Some c))); [apply (keeps_tget (calm (Some c)))|]. intros d.
      apply (keeps_ext (calm (Some c)) _ (t ← task_at c;
        set_task c (λ u, u <| t_budget := snd (Budget.on_timer now (negb (d =? 0)) (t_budget u)) |>) ;;
        verdict_locked c (fst (Budget.on_timer now (negb (d =? 0)) (t_budget t))) ;;
        t ← task_at c;
        when (match lock_violation t c now limit with Some _ => true | None => false end) (bump d_scheduler_lock_overruns) ;;
        mret (lock_violation t c now limit))).
      { intros w2. apply task_at_read. intros t Et.
        exact (set_task_read_bind c t (λ t u, u <| t_budget := snd (Budget.on_timer now (negb (d =? 0)) (t_budget t)) |>) _ w2 Et). }
      unfold verdict_locked, count_exhaustion.
      keep; split_and!; try done; try (by intros []). intros _ t. apply on_timer_fields.
  - rewrite Hst1 by done. rewrite bool_decide_false by (by destruct (wakes now _)). by split_and!.
Qed.

Lemma wakes_living now t : t_state t = Free → wakes now t = false.
Proof. unfold wakes, due, refilled, state_eqb. by intros ->. Qed.

(** The budget's verdict keeps the running task in order. *)
Lemma fit_charged now t t' :
  time_ok now → fit t → t_state t = Running → lock_part t' = lock_part t → t_budget t' = snd (charged now t) →
  t_state t' = (match fst (charged now t) with ThrottleNow => Throttled | _ => Running end) → fit t'.
Proof.
  intros Hn [F1 F2 F3 F4 F5 F6] Hrun [= El1 El2] Hb Hst.
  destruct (phased_on_timer now (negb (t_scheduler_lock_depth t =? 0)) (t_budget t) Hn) as [P1 P2]; [done|].
  split; rewrite ?Hb, ?El1, ?El2; try done.
  - intros E. rewrite Hst in E. by destruct (fst _).
  - intros E. rewrite Hst in E. revert E. unfold charged, Budget.on_timer.
    destruct (on_timer_fields now (negb (t_scheduler_lock_depth t =? 0)) (t_budget t)) as [Es _]. unfold Budget.on_timer in Es.
    rewrite Es. by destruct (spec (t_budget t)).
  - intros E. rewrite Hst in E. by destruct (fst _).
Qed.

Lemma ticked_free w w' now limit v : shape w' → ticked w w' now limit v → slot_in (current w) → keeps_free w w'.
Proof.
  intros Hs' [_ _ _ Ho Hr Hst] Hc j Hj. destruct (decide (slot_in j)) as [Hji|Hji]; [|by rewrite T_out].
  destruct (decide (j = current w)) as [->|Hne].
  - destruct (Hst ltac:(by rewrite Hj)) as [_ ->]. by rewrite (wakes_living now _ Hj).
  - rewrite Ho by done. by rewrite (wakes_living now _ Hj).
Qed.

Lemma system_on_timer c w now limit : system c w → time_ok now → wp (on_timer now limit) (λ _ w', system c w') w.
Proof.
  intros Hs Hn. destruct (system_kernel c w Hs) as [q Hk].
  assert (slot_in (current w)) as Hc by (eapply owned_slot_current, kernel_owned; exact Hk).
  assert (keeps held (on_timer now limit)) as K.
  { unfold on_timer, count_exhaustion. keep; first [held_allowed|apply held_wake_sleepers]. }
  eapply wp_mono; [|eapply wp_keeps; [exact K|]; apply wp_after;
    [exact (on_timer_spec w q now limit Hk (λ _, system_idle c w Hs))|exact (after_on_timer w q now limit Hk Hn)]].
  intros v w' [[Ht (Hown & Hsome & Hstop)] Hheld]. pose proof Ht as [[q' Hk'] _ _ _ Hr _].
  pose proof (ticked_free w w' now limit v (owned_shape w' q' None (kernel_owned w' q' None Hk')) Ht Hc) as Hfree.
  destruct (decide (t_state (T w (current w)) = Running)) as [E|E].
  2:{ apply (system_calm c w); [done|by exists q'|by apply Hstop|done|done|by apply owners_from_same]. }
  destruct (Hr E) as (Es & Eb & _). pose proof Hsome as [C1 C2 C3 C4 C5].
  assert (lively w w') as L.
  { split; [| |done|unfold books, standing in *; by injection C5 as _ -> -> -> _ -> ->].
    - intros j. destruct (decide (j = current w)) as [->|Hne]; [|apply C1; congruence].
      intros F. apply (fit_charged now (T w (current w))); try done. destruct Hheld as [Hh _]. by apply (Hh _ lock_part).
    - intros j. destruct (decide (j = current w)) as [->|Hne]; [|apply C2; congruence].
      rewrite Es. by destruct (fst _). }
  destruct Hheld as [_ S]. apply (system_step c w); [done|by exists q'|done|done| | |by apply owners_from_same].
  - apply (tickets_same w); [by apply (S _ s_next_switch_sequence)|by apply (S _ s_last_consumed_switch_sequence)
      |by apply (S _ s_pending_switch)|apply Hs].
  - by apply (saved_calm (Some (current w)) w), Hs.
Qed.

Lemma system_tick c w now limit : system c w → time_ok now → wp (on_timer_interrupt now limit) (λ _ w', system c w') w.
Proof.
  intros Hs Hn. unfold on_timer_interrupt, bump, sched_modify. go. set (w0 := w <| w_sched ::= _ |>).
  assert (system c w0) as Hs0 by (by apply system_sched).
  wp_apply (system_on_timer c w0 now limit Hs0 Hn). intros v w1 Hs1. go.
  destruct (negb _ && _); cbn [when]; go; [|done]. by apply system_sched.
Qed.

(** ** The trap epilogue *)

Lemma dispatched_waits w q x a :
  owned w q None → dispatch_target w q = Some x →
  dispatched_queues w x q (QSem a) = q (QSem a) ∧ dispatched_queues w x q (QMtx a) = q (QMtx a).
Proof.
  intros Ho Hx. assert (∀ y, best q = Some y ∨ y = IDLE_SLOT → taken y q (QSem a) = q (QSem a) ∧ taken y q (QMtx a) = q (QMtx a)) as Htk.
  { intros y Hy. apply (taken_waits w q y a Ho). by destruct Hy; [left|right]. }
  unfold dispatched_queues, dispatch_target, requeued in *. destruct (pending w) as [p|] eqn:Hp.
  - injection Hx as <-. pose proof (owned_target_detached w q p Ho Hp) as Hd.
    destruct (state_eqb _ _) eqn:E.
    + apply bool_decide_eq_true_1 in E. destruct (placed_running w q None _ (owned_placed w q None (proj2 Ho) _ (owned_slot_current w q _ Ho)) E) as [_ E'].
      congruence.
    + unfold taken. by rewrite !without_not_in by apply Hd.
  - destruct (state_eqb _ _).
    + destruct (enqueued_waits w (current w) (taken x q) a) as [-> ->]. apply Htk. left.
      unfold preemptor in Hx. repeat case_match; try done.
      * eapply first_ready_best; [|exact Hx]. pose proof (placed_priority w q None _ (owned_placed w q None (proj2 Ho) _ (owned_slot_current w q _ Ho))) as Hpr.
        unfold priority_ok, PRIORITY_LEVELS in *. lia.
      * eapply first_ready_best; [|exact Hx]. pose proof (placed_priority w q None _ (owned_placed w q None (proj2 Ho) _ (owned_slot_current w q _ Ho))) as Hpr.
        unfold priority_ok, PRIORITY_LEVELS in *. lia.
    + injection Hx as <-. apply Htk. destruct (best q); [by left|by right].
Qed.

Lemma best_ready w q x : owned w q None → best q = Some x → t_state (T w x) = Ready.
Proof.
  intros Ho Hb. destruct (best_queued q x Hb) as [p Hin].
  assert (slot_in x) as Hx by (by apply (queues_slot w q (proj1 Ho) (QReady p))).
  by apply (placed_ready w q None x (owned_placed w q None (proj2 Ho) x Hx) p).
Qed.

(** The task a dispatch chooses is alive. *)
Lemma dispatch_target_alive w q x : owned w q None → dispatch_target w q = Some x → t_state (T w x) ≠ Free.
Proof.
  intros Ho Hx. pose proof (owned_placed w q None (proj2 Ho) _ (owned_slot_current w q _ Ho)) as Hpl.
  assert (best q = Some x → t_state (T w x) ≠ Free) as Hbest by (intros H; by rewrite (best_ready w q x Ho H)).
  unfold dispatch_target in Hx. destruct (pending w) as [p|] eqn:Hp.
  - injection Hx as <-. destruct (owned_pending w q None (proj2 Ho) p Hp) as ([Hs _] & _).
    destruct (placed_target w q None _ (owned_placed w q None (proj2 Ho) _ Hs)) as [-> _]; [|done].
    unfold is_target. by rewrite Hp.
  - destruct (state_eqb _ _).
    + apply Hbest. unfold preemptor in Hx. pose proof (placed_priority w q None _ Hpl) as Hpr. unfold priority_ok, PRIORITY_LEVELS in Hpr.
      repeat case_match; try done; (eapply first_ready_best; [|exact Hx]); unfold PRIORITY_LEVELS; lia.
    + injection Hx as <-. destruct (best q) as [y|] eqn:E; [by apply Hbest|]. cbn.
      destruct (placed_idle w q None _ (owned_placed w q None (proj2 Ho) _ idle_slot_in) eq_refl) as [-> | ->]; done.
Qed.

Lemma unseen_trap frame depth now : keeps unseen (schedule_from_trap frame depth now).
Proof.
  unfold schedule_from_trap, dispatch_to, account_switch, take_reschedule_target, consume_pending_switch,
    task_ref_is_current, ready_priority, set_current, ready_pop.
  repeat first [ match goal with |- keeps _ (sched_modify _) => apply (keeps_modify unseen); by split end | keep1 ]; done.
Qed.

Lemma owners_trap frame depth now : keeps same_owners (schedule_from_trap frame depth now).
Proof.
  intros w. pose proof (unseen_trap frame depth now w) as H. destruct (schedule_from_trap frame depth now w) as [[f w']|]; [|done].
  intros a. apply core_mtx_owner, H.
Qed.

Lemma system_trap c w frame depth now :
  system c w → frame ≠ 0 → time_ok now → wp (schedule_from_trap frame depth now) (λ _ w', system c w') w.
Proof.
  intros Hs Hf Hn. destruct (system_kernel c w Hs) as [q Hk]. pose proof (kernel_owned w q None Hk) as Ho.
  eapply wp_mono; [|eapply wp_keeps; [by apply lively_trap|]; eapply wp_keeps; [apply unseen_trap|];
    eapply wp_keeps; [apply owners_trap|];
    exact (schedule_from_trap_spec w q frame depth now Ho (system_tickets c w Hs) (saved_frames w (system_saved c w Hs)) Hf)].
  intros f w' [[[H Hown] Hu] Hl]. destruct (if _ && _ then _ else _) as [x|] eqn:Hx; [|by destruct H as [_ ->]].
  destruct (_ && _); [|done]. destruct H as [O1 O2 O3 O4 [O5 O6] O7 O8 O9 O10].
  pose proof (dispatch_target_alive w q x Ho Hx) as Hax.
  assert (keeps_free w w') as Hfree.
  { intros j Hj. destruct (decide (j = x)) as [->|Hne]; [done|]. rewrite O7 by done.
    rewrite decide_False; [done|]. intros [_ ?]. congruence. }
  apply (system_step c w w'); try done; [| |by apply owners_from_same].
  - eexists. eapply (kernel_unseen w w' q _ None None Hk Hu O1). intros a. by apply dispatched_waits.
  - intros j Hj Hne Hst. rewrite O5 in Hne. rewrite O9 by done. clear O8. case_decide as Hd; [done|].
    assert (t_state (T w j) ≠ Free) as Hlive by (intros E; by apply Hst, Hfree).
    apply (system_saved c w Hs); [done| |done]. intros ->. by apply Hd.
Qed.

(** ** Creating *)

(** The running task, the tickets and the owners stay; slots and promises change. *)
Record desk (w w' : World) : Prop := {
  desk_sched A (f : Sched → A) : (∀ s h, f (s <| s_tasks ::= h |>) = f s) →
    (∀ s h, f (s <| s_ready_head ::= h |>) = f s) → (∀ s h, f (s <| s_ready_tail ::= h |>) = f s) →
    (∀ s h, f (s <| s_diagnostics ::= h |>) = f s) → (∀ s v, f (s <| s_reservations := v |>) = f s) →
    (∀ s h, f (s <| s_slot_generations ::= h |>) = f s) → f (w_sched w') = f (w_sched w);
  desk_owners : same_owners w w';
}.

#[export] Instance desk_preorder : PreOrder desk.
Proof.
  split; [by split|]. intros w1 w2 w3 [S1 O1] [S2 O2]. split; [|by etrans]. intros A f **. rewrite S2, S1; done.
Qed.

#[export] Program Instance desk_footprint : Footprint desk := {
  allowed _ _ := True;
}.
Next Obligation. intros i g w _. split; [|done]. intros A f H **. apply H. Qed.
Next Obligation. done. Qed.
Next Obligation. intros id v w. split; [|by apply (@fp_head same_owners _)]. intros A f _ H **. destruct id; [apply H|done..]. Qed.
Next Obligation. intros id v w. split; [|by apply (@fp_tail same_owners _)]. intros A f _ _ H **. destruct id; [apply H|done..]. Qed.
Next Obligation. intros h w. split; [|done]. intros A f _ _ _ H **. apply H. Qed.

Lemma desk_reservations {A} (m : M ReservationTable A) : keeps desk (with_reservations m).
Proof.
  intros w. unfold with_reservations, zoom. destruct (m _) as [[a t]|]; [|done]. split; [|done].
  intros B f _ _ _ _ H _. apply H.
Qed.

Lemma desk_find_free l : keeps desk (find_free l).
Proof. induction l as [|i l IH]; cbn [find_free]; keep; apply IH. Qed.

Lemma desk_spawn im trap tp fcsr reservation c allocated size entry arg priority policy now :
  keeps desk (spawn_locked im trap tp fcsr reservation c allocated size entry arg priority policy now).
Proof.
  unfold spawn_locked, take_slot, alloc_reserved_dynamic_slot_with_capacity, alloc_dynamic_slot_with_capacity,
    dynamic_slot_end, count_free, promised_total, set_generation.
  repeat first [ match goal with
    | |- keeps _ (sched_modify _) => apply (keeps_modify desk); intros w; split; [intros A f H1 H2 H3 H4 H5 H6; apply H6|done]
    | |- keeps _ (with_reservations _) => apply desk_reservations end | keep1 ].
  all: first [exact I | apply desk_find_free].
Qed.

Lemma phased_new policy now : RunPolicy_wf policy → time_ok now → phased (for_policy policy now).
Proof.
  intros Hp Hn. split; [by apply for_policy_ok|]. destruct policy as [|s|]; cbn; try done.
  intros _. destruct Hp as [Hp1 Hp2]. unfold time_ok, saturating_add, u64_max in *. lia.
Qed.

(** What the caller of [spawn] owes. *)
Record may_spawn (w : World) (reservation : option TaskReservation) (allocated size priority : Z)
    (policy : RunPolicy) : Prop := {
  spawn_running : t_state (T w (current w)) = Running;
  spawn_priority : 0 <= priority < PRIORITY_LEVELS;
  spawn_policy : RunPolicy_wf policy;
  spawn_stack_real : spawn_stack w reservation allocated ≠ 0;
  spawn_stack_end : spawn_stack w reservation allocated + size <= usize_max;
  spawn_stack_room : 272 < align_down16 (spawn_stack w reservation allocated + size);
}.

Lemma system_spawned c w w' q i im tp fcsr stack size entry arg priority policy now :
  system c w → capacity_ok c → t_state (T w (current w)) = Running → RunPolicy_wf policy → time_ok now →
  272 < align_down16 (stack + size) →
  spawned_task w w' q c i (born im true tp fcsr stack size entry arg priority policy now (next_life w i)) → desk w w' →
  system c w'.
Proof.
  intros Hs Hc Hrun Hpol Hn Htop [Sl Sk So Sf _ Sg] [St Ho].
  pose proof Hs as [_ Ht S3 S4 S5 S6 S7 S8 S9 S10 S11].
  pose proof (free_slots_elem_head w c i Sl) as [Hfree Hr]%elem_of_free_slots.
  pose proof (dynamic_slot_in c i Hc Hr) as His.
  assert (∀ j, vitals (T w' j) = if decide (i = j) then (Ready, 0, for_policy policy now, t_granted_sem (T w j),
    t_granted_mutex (T w j), align_down16 (stack + size) - 272, lock_part (T w j)) else vitals (T w j)) as Hv.
  { intros j. rewrite (Sf _ vitals) by done. by case_decide. }
  split.
  - by eexists.
  - apply (tickets_same w); [by apply (St _ s_next_switch_sequence)|by apply (St _ s_last_consumed_switch_sequence)
      |by apply (St _ s_pending_switch)|done].
  - intros j Hj. assert (current w' = current w) as -> by (by apply (St _ s_current)). intros Hne Hst.
    specialize (Hv j). case_decide; unfold vitals in Hv; injection Hv as E _ _ _ _ Ef; [rewrite Ef; lia|].
    rewrite Ef. apply S3; congruence.
  - done.
  - intros j Hj. rewrite Sg. case_decide; [|by apply S5]. subst. destruct (next_life_ok w j S5 Hj). lia.
  - intros j Hj. specialize (Hv j). case_decide; [|eapply fit_vitals; [exact Hv|by apply S6]].
    subst j. destruct (fit_free _ (S6 i Hj) Hfree) as [-> ->] in Hv. unfold vitals in Hv.
    injection Hv as E1 E2 E3 E4 E5 _ E6 E7. destruct (phased_new policy now Hpol Hn).
    split; rewrite ?E1, ?E3, ?E4, ?E5, ?E6, ?E7; try done. apply (fit_lock _ (S6 i Hj)).
  - apply (owners_live_step w w'); [done|by apply owners_from_same|]. intros j. specialize (Hv j).
    case_decide; unfold vitals in Hv; injection Hv as -> _; done.
  - specialize (Hv IDLE_SLOT). rewrite decide_False in Hv by (unfold IDLE_SLOT in *; lia). injection Hv as _ _ -> _. done.
  - rewrite <-S9. by apply (St _ s_started).
  - assert (s_retired_count (w_sched w') = s_retired_count (w_sched w)) as -> by (by apply (St _ s_retired_count)). done.
  - assert (s_irq_task (w_sched w') = s_irq_task (w_sched w)) as -> by (by apply (St _ s_irq_task)). done.
Qed.

Lemma system_spawn c w im tp fcsr reservation allocated size entry arg priority policy now :
  system c w → capacity_ok c → time_ok now → may_spawn w reservation allocated size priority policy →
  wp (spawn_locked im true tp fcsr reservation c allocated size entry arg priority policy now) (λ _ w', system c w') w.
Proof.
  intros Hs Hc Hn [M1 M2 M3 M4 M5 M6]. destruct (system_kernel c w Hs) as [q Hk].
  eapply wp_mono; [|eapply wp_keeps; [apply desk_spawn|];
    apply (spawn_locked_spec im true tp fcsr reservation c allocated size entry arg priority policy now w q Hk
      (system_vacant c w Hs)); [by rewrite M1|done|apply Hs|done|intros _; split; lia]].
  intros [i|e] w' [H Hd]; [|by destruct H as [-> _]]. destruct H as [_ H].
  by eapply (system_spawned c w w').
Qed.

(** ** The scheduler lock *)

(** An update of the current task that the queues and the waiting do not read. *)
Record touching (g : Tcb → Tcb) : Prop := {
  touching_accounting : accounting g;
  touching_sync t : sync_part (g t) = sync_part t;
  touching_frame t : t_saved_frame (g t) = t_saved_frame t;
  touching_budget t : t_budget (g t) = t_budget t;
  touching_wake t : t_wake_at (g t) = t_wake_at t;
}.

Lemma system_touch c w i g :
  system c w → slot_in i → touching g →
  (t_scheduler_lock_depth (g (T w i)) ≠ 0 → t_scheduler_lock_started_at (g (T w i)) ≠ None) →
  system c (upd_task i g w).
Proof.
  intros Hs Hc [G1 G2 G3 G4 G5] Hl. destruct (system_kernel c w Hs) as [q Hk].
  pose proof (owned_shape w q None (kernel_owned w q None Hk)) as Hsh.
  set (w' := upd_task i g w).
  assert (∀ j, T w' j = if decide (i = j) then g (T w j) else T w j) as HT by (intros j; by apply T_upd_task).
  assert (∀ j, t_state (T w' j) = t_state (T w j)) as Hst by (intros j; apply T_upd_field; intros t; apply G1).
  assert (∀ j, t_saved_frame (T w' j) = t_saved_frame (T w j)) as Hf by (intros j; by apply T_upd_field).
  assert (∀ j, t_budget (T w' j) = t_budget (T w j)) as Hb by (intros j; by apply T_upd_field).
  apply (system_step c w w'); [done| | |by apply keeps_free_same| | |by apply owners_from_same].
  - exists q. apply (kernel_unseen w w' q q None None Hk); [by apply unseen_upd| |done].
    apply owned_upd; [done|by apply (kernel_owned w q None)].
  - split; [| |by rewrite Hb|done].
    + intros j Hj. rewrite HT. case_decide; [|done]. subst j. destruct Hj as [F1 F2 F3 F4 F5 F6].
      destruct (G1 (T w i)) as (E & _). pose proof (G2 (T w i)) as Es. unfold sync_part in Es.
      injection Es as _ _ _ _ _ Eg1 Eg2 _. split; rewrite ?E, ?G4, ?G5, ?Eg1, ?Eg2; done.
    + intros j. by rewrite Hst.
  - apply (tickets_same w); [done..|apply Hs].
  - intros j Hj Hne. rewrite Hst, Hf. by apply (system_saved c w Hs).
Qed.

Lemma system_lock_current c w now :
  system c w → wp (lock_current now) (λ _ w', system c w') w.
Proof.
  intros Hs. destruct (system_kernel c w Hs) as [q Hk].
  pose proof (owned_shape w q None (kernel_owned w q None Hk)) as Hsh.
  assert (slot_in (current w)) as Hc by (eapply owned_slot_current, kernel_owned; exact Hk).
  unfold lock_current. go. fold (current w).
  destruct (Z.eqb_spec (t_scheduler_lock_depth (T w (current w))) 0) as [E|E]; cbn [when].
  - rewrite E. change (checked_add u16_max 0 1) with (Some 1). go. unfold bump, sched_modify. go.
    rewrite upd_task_compose. apply system_sched; try done. by apply system_touch.
  - go. destruct (checked_add u16_max _ 1) as [d|]; go; [|done]. unfold bump, sched_modify. go.
    apply system_sched; try done. apply system_touch; try done. cbn. intros _.
    by apply (fit_lock _ (system_fit c w Hs _ Hc)).
Qed.

Lemma unlock_current_spec c w now :
  system c w → wp (unlock_current now) (λ r w', r = (if lock_depth w =? 0 then Err InvalidContext else Ok tt) ∧
    system c w' ∧ (may_block w → may_block w') ∧ current w' = current w) w.
Proof.
  intros Hs. destruct (system_kernel c w Hs) as [q Hk].
  pose proof (owned_shape w q None (kernel_owned w q None Hk)) as Hsh.
  assert (slot_in (current w)) as Hc by (eapply owned_slot_current, kernel_owned; exact Hk).
  unfold unlock_current, lock_depth. go. fold (current w).
  destruct (Z.eqb_spec (t_scheduler_lock_depth (T w (current w))) 0) as [E|E]; [by go|]. go.
  pose proof (fit_lock _ (system_fit c w Hs _ Hc) E) as Hl.
  assert (∀ g, touching g → may_block w → may_block (upd_task (current w) g w)) as Hmay.
  { intros g [G1 G2 _ _ _] [M1 M2 M3 M4 [M5 M6]]. pose proof (G2 (T w (current w))) as Es. unfold sync_part in Es.
    injection Es as _ _ _ _ _ Eg1 Eg2 _. destruct (G1 (T w (current w))) as (E1 & _).
    split; try done; change (current (upd_task _ g w)) with (current w); rewrite ?T_upd_eq by done;
      [by rewrite E1|by rewrite Eg1, Eg2]. }
  destruct (Z.eqb_spec (t_scheduler_lock_depth (T w (current w)) - 1) 0) as [E1|E1]; cbn [when].
  - go. rewrite (T_upd_field t_scheduler_lock_started_at) by done.
    destruct (t_scheduler_lock_started_at (T w (current w))) as [t|] eqn:Et; [|done]. eapply wp_expect; [done|]. go.
    rewrite upd_task_compose. split_and!; [done|by apply system_touch|by apply Hmay|done].
  - go. split_and!; [done|by apply system_touch|by apply Hmay|done].
Qed.

Lemma system_throttle c w b :
  system c w → t_state (T w (current w)) = Running → current w ≠ IDLE_SLOT → phased b → spec b ≠ None →
  system c (upd_task (current w) (λ t, t <| t_budget := b |> <| t_state := Throttled |>) w).
Proof.
  intros Hs Hst Hidle [P1 P2] Hb. destruct (system_kernel c w Hs) as [q Hk].
  pose proof (owned_shape w q None (kernel_owned w q None Hk)) as Hsh.
  assert (slot_in (current w)) as Hc by (eapply owned_slot_current, kernel_owned; exact Hk).
  set (g := λ t : Tcb, t <| t_budget := b |> <| t_state := Throttled |>). set (w' := upd_task (current w) g w).
  assert (∀ j, T w' j = if decide (current w = j) then g (T w j) else T w j) as HT by (intros j; by apply T_upd_task).
  assert (keeps_free w w') as Hfree by (intros j Hj; rewrite HT; case_decide; [subst; congruence|done]).
  apply (system_step c w w'); [done| | |done| | |by apply owners_from_same].
  - exists q. apply (kernel_unseen w w' q q None None Hk); [by apply unseen_upd| |done].
    apply (owned_leave w q None Throttled); try done; [by apply (kernel_owned w q None)|by right].
  - split; [| |by rewrite HT, decide_False|done].
    + intros j Hj. rewrite HT. case_decide; [|done]. by destruct Hj.
    + intros j. rewrite HT. by case_decide.
  - apply (tickets_same w); [done..|apply Hs].
  - intros j Hj Hne Hlive. assert (current w ≠ j) by (intros E; by apply Hne).
    rewrite HT, decide_False in Hlive |- * by done. by apply (system_saved c w Hs).
Qed.

Lemma system_relayed c w w' x now i :
  system c w → (∃ q, yielded w w' q x now i) → t_state (T w (current w)) = Running → sequence_of w < u64_max →
  calm None w w' → same_owners w w' → system c w'.
Proof.
  intros Hs [q [-> Y2 Y3 Y4 Y5]] Hrun Hseq Hc Ho.
  eapply (system_switch c w w'); [done|by eexists|done| |by apply owners_from_same|done|exact Y4|exact Y3].
  eapply keeps_free_updated; [exact Y5|]. left. by rewrite Hrun.
Qed.

Lemma system_hand_over c w w' q i :
  system c w → departed w w' q i → sequence_of w < u64_max → calm None w w' → system c w'.
Proof.
  intros Hs [-> D2 D3 D4 D5 _] Hseq Hc.
  eapply (system_switch c w w'); [done|by eexists|done|by apply keeps_free_quiet| |done|exact D4|exact D3].
  apply owners_from_core, D5.
Qed.

Lemma phased_throttled now b s :
  phased b → time_ok now → spec b = Some s → lock_overrun_pending b = true →
  ∃ r b', throttle_after_lock_overrun now b = Done (Some r, b') ∧ phased b' ∧ spec b' ≠ None.
Proof.
  intros [H1 H2] Hn Es Hp. rewrite (throttle_unfold now b s H1 Hn Es Hp).
  pose proof (throttle_ok now b H1 Hn) as Hok. unfold wp in Hok. rewrite (throttle_unfold now b s H1 Hn Es Hp) in Hok.
  eexists _, _. split; [done|]. split; [|done]. split; [exact Hok|]. intros _. cbn.
  unfold budget_ok in H1. rewrite Es in H1. destruct H1 as ([? ?] & _ & [? ?] & _). specialize (H2 ltac:(by rewrite Es)).
  unfold next_boundary, time_ok, u64_max in *. destruct (Z.leb_spec (replenishes_at b) now); [|lia].
  pose proof (Z.div_pos (now - replenishes_at b) (replenishment_period s)). nia.
Qed.

(** The rest of [unlock_current_and_take_preemption] and the intent [unlock_scheduler] prepares. *)
Lemma system_overrun {A} c w now (k : Z → M World A) (Q : A → World → Prop) :
  system c w → may_block w → time_ok now → lock_overrun_pending (t_budget (T w (current w))) = true →
  (∀ next w', wp (prepare_switch true (current w) next) (λ i w', system c w' ∧ promised w w' i) w' → wp (k next) Q w') →
  wp (until ← throttle_task (current w) now; _ ← expect until;
      set_task (current w) (λ t, t <| t_state := Throttled |>) ;;
      bump d_budget_throttles ;;
      next ← ready_pop_or_idle; k next) Q w.
Proof.
  intros Hs [Hrun Hidle Hp Hseq _] Hn Hov HQ. destruct (system_kernel c w Hs) as [q Hk].
  pose proof (owned_shape w q None (kernel_owned w q None Hk)) as Hsh.
  assert (slot_in (current w)) as Hc by (eapply owned_slot_current, kernel_owned; exact Hk).
  pose proof (system_fit c w Hs _ Hc) as [_ _ Fb Fp _ _].
  assert (∃ s, spec (t_budget (T w (current w))) = Some s) as [s Es].
  { destruct (spec _) as [s|] eqn:Es; [by exists s|]. unfold budget_ok in Fb. rewrite Es in Fb. by rewrite Fb in Hov. }
  destruct (phased_throttled now _ s (conj Fb Fp) Hn Es Hov) as (r & b & Eb & Hb & Hbs).
  unfold throttle_task. go. rewrite Eb. go. eapply wp_expect; [done|].
  apply wp_bind, wp_set_task; [by apply shape_upd_task|done|]. rewrite upd_task_compose.
  pose proof (system_throttle c w b Hs Hrun Hidle Hb Hbs) as H1. set (w1 := upd_task (current w) _ w) in *.
  unfold bump, sched_modify. apply wp_bind, wp_modify. set (w2 := w1 <| w_sched ::= _ |>).
  assert (system c w2) as H2 by (by apply system_sched). destruct (system_kernel c w2 H2) as [q2 Hk2].
  assert (t_state (T w2 (current w2)) = Throttled) as Ht2 by (exact (f_equal t_state (T_upd_eq w (current w) (λ t, t <| t_budget := b |> <| t_state := Throttled |>) Hsh Hc))).
  assert (keeps (calm None) (next ← ready_pop_or_idle; prepare_switch true (current w2) next)) as K.
  { unfold prepare_switch, prepare_committed_switch_intent. calms; first [apply calm_prepare | apply calm_commit]. }
  assert (wp (next ← ready_pop_or_idle; prepare_switch true (current w2) next) (λ i w', system c w' ∧ promised w w' i) w2) as H.
  { eapply wp_mono; [|eapply wp_keeps; [exact K|]; apply (hand_over_spec w2 q2 Hk2); try done; by rewrite Ht2].
    intros i w' [H Hcalm]. split; [by eapply (system_hand_over c w2)|].
    apply (departed_promised w w2 w' q2 i); try done. by rewrite Ht2. }
  apply wp_bind_inv in H. apply wp_bind. eapply wp_mono; [|exact H]. intros next w3. apply HQ.
Qed.

Lemma relayed_slice w w2 q y now v :
  relayed w w2 q y now → relayed w (w2 <| w_sched ::= λ s, s <| s_time_slice_pending := v |> |>) q y now.
Proof. intros [H1 H2 H3 H4]. split; [by apply owned_sched|done|by etrans|done]. Qed.

Lemma system_rescheduled c w now :
  system c w → may_block w →
  wp (target ← (time_slice ← sched_gets s_time_slice_pending;
        target ← take_reschedule_target time_slice now;
        when (match target with Some _ => true | None => false end)
          (sched_modify (λ s, s <| s_time_slice_pending := false |>)) ;;
        mret target);
      match target with
      | None => mret None
      | Some (current, next) => intent ← prepare_switch true current next; mret (Some intent)
      end) (λ r w', system c w' ∧ ∀ i, r = Some i → promised w w' i) w.
Proof.
  intros Hs [Hrun Hidle Hp Hseq _]. destruct (system_kernel c w Hs) as [q Hk]. pose proof (kernel_owned w q None Hk) as Ho.
  pose proof (owned_shape w q None Ho) as Hsh. assert (slot_in (current w)) as Hc by eauto with store.
  set (slice := s_time_slice_pending (w_sched w)).
  assert (∀ b, keeps (calm None) (take_reschedule_target b now)) as K1.
  { intros b. unfold take_reschedule_target, ready_priority, ready_pop. calms; apply (keeps_ready_pop_from (calm None)). }
  assert (∀ b, keeps same_owners (take_reschedule_target b now)) as K2.
  { intros b. unfold take_reschedule_target, ready_priority, ready_pop. keep; try exact I.
    all: first [apply (keeps_ready_pop_from same_owners) | apply (keeps_make_ready same_owners); exact I]. }
  assert (∀ x, keeps (calm None) (prepare_switch true (current w) x)) as K3.
  { intros x. unfold prepare_switch, prepare_committed_switch_intent. calms; first [apply calm_prepare | apply calm_commit]. }
  assert (∀ x, keeps same_owners (prepare_switch true (current w) x)) as K4.
  { intros x. unfold prepare_switch, prepare_committed_switch_intent, prepare_switch_intent, commit_switch_intent, task_ref,
      task_ref_is_current, recover_completed_switch_request, restore_detached_switch_target.
    repeat first [ match goal with |- keeps _ (sched_modify _) => by apply (keeps_modify same_owners) end | keep1 ]; exact I. }
  apply wp_bind, wp_bind, wp_sched_gets, wp_bind. fold slice.
  eapply wp_mono; [|eapply wp_keeps; [apply K1|]; eapply wp_keeps; [apply K2|]; exact (reschedule_spec w q slice now Ho)].
  intros r w2 [[H Hown] Hcalm]. destruct (state_eqb _ _ ) eqn:Est; [|unfold state_eqb in Est; rewrite Hrun in Est; done].
  destruct (preemptor w q slice) as [x|]; [|destruct H as [-> ->]; cbn [when]; by go].
  destruct H as (-> & Ho2 & Hb & Hc2). cbn [when]. unfold sched_modify. go. set (w3 := w2 <| w_sched ::= _ |>).
  assert (relayed w w3 q x now) as Hr by (by apply relayed_slice, relayed_core).
  assert (x ≠ current w) as Hne by (apply (best_not_running w q); [done..|by rewrite Hrun]).
  assert (calm None w w3) as Hcalm3 by (etrans; [exact Hcalm|by apply calm_sched]).
  eapply wp_mono; [|eapply wp_keeps; [apply K3|]; eapply wp_keeps; [apply K4|]; exact (relay_spec w w3 q x now Hk Hseq Hne Hb Hr)].
  intros i w4 [[Hy Ho4] Hcalm4]. go. split; [|intros ? [= <-]; by apply (yielded_promised w w w4 q x now i)].
  eapply (system_relayed c w w4 x now i); [done|by exists q|done|done|by etrans|]. etrans; [exact Hown|exact Ho4].
Qed.

(** [unlock_scheduler]: a deferred throttle or a deferred preemption takes effect. *)
Lemma system_unlock_scheduler c w now :
  system c w → may_block w → time_ok now → wp (unlock_scheduler_locked true now)
    (λ r w', system c w' ∧ ∀ i, r = Ok (Some i) → promised w w' i) w.
Proof.
  intros Hs Hmay Hn. pose proof Hmay as [Hrun Hidle Hp Hseq Hg].
  unfold unlock_scheduler_locked, unlock_current_and_take_preemption. apply wp_try_bind, wp_try_bind.
  wp_apply (unlock_current_spec c w now Hs). intros r w1 (-> & Hs1 & Hm1 & Hcur). specialize (Hm1 Hmay).
  destruct (lock_depth w =? 0); [done|]. destruct (system_kernel c w1 Hs1) as [q1 Hk1].
  pose proof (owned_shape w1 q1 None (kernel_owned w1 q1 None Hk1)) as Hsh1.
  assert (slot_in (current w1)) as Hcs by (eapply owned_slot_current, kernel_owned; exact Hk1).
  apply wp_bind, wp_sched_gets. change (s_current (w_sched w1)) with (current w1). go.
  destruct (_ && lock_overrun_pending _) eqn:Eo.
  - apply andb_prop in Eo as [_ Eo]. apply (system_overrun c w1 now _ _ Hs1 Hm1 Hn Eo).
    intros next w2 H. go. eapply wp_mono; [|exact H]. intros i w3 [H3 H4]. go. split; [done|]. intros ? [= <-].
    destruct H4. by split; rewrite <-?Hcur.
  - pose proof (system_rescheduled c w1 now Hs1 Hm1) as H. apply wp_bind_inv, wp_bind_inv in H.
    apply wp_bind. eapply wp_mono; [|exact H]. intros slice w2 H2. apply wp_bind_inv in H2. apply wp_bind.
    eapply wp_mono; [|exact H2]. intros target w3 H3. apply wp_bind_inv in H3. apply wp_bind.
    eapply wp_mono; [|exact H3]. intros [] w4 H4. go. destruct target as [[cur next]|]; [|split; [apply H4|done]].
    apply wp_bind_inv in H4. apply wp_bind. eapply wp_mono; [|exact H4]. intros i w5 [H5 H6]. go. split; [done|].
    intros ? [= <-]. destruct (H6 i eq_refl). by split; rewrite <-?Hcur.
Qed.
