(* ===== verification/Upkeep.v ===== *)
(** * The remaining critical sections ([src/runtime.rs], [src/runtime/driver.rs])

    Interrupt accounting, the reclaiming of retired stacks, reservations, the
    destruction of semaphores and mutexes, and the two setters of a live task -- base
    priority and run policy -- keep the invariant of [System.v]. *)

From stdpp Require Import sorting.
From S2P Require Import Prelude Effects Budget Contract Config Context Reservation.
From S2P Require Import Tcb Store Chain Ready Wait Switch Invariant Dispatch Inherit Donation Sync.
From S2P Require Import Moves Permit Slide Lean Handoff Mutex Lock Acquire Exclusion.
From S2P Require Import Timer Frame Touch Wake Deadlines Slots Statics Tasks Driver Birth Leave Fit System.

(** ** Bookkeeping of the scheduler *)

(** What the invariant reads of the scheduler besides its tables of tasks and queues. *)
Record ledger_ok (w : World) (c : Z) : Prop := {
  ledger_slots : slots_ok w c;
  ledger_generations : generations_ok w;
  ledger_retired : 0 <= s_retired_count (w_sched w) <= TASK_SLOT_COUNT;
  ledger_irq : s_irq_task (w_sched w) = NIL ∨ slot_in (s_irq_task (w_sched w));
}.

Lemma system_ledger c w : system c w → ledger_ok w c.
Proof. by intros []. Qed.

(** The part of the scheduler a ledger entry must not touch. *)
Definition engine (s : Sched) :=
  (s_tasks s, s_ready_head s, s_ready_tail s, s_current s, s_pending_switch s, s_next_switch_sequence s,
   s_last_consumed_switch_sequence s, s_started s).

Lemma system_entry c w g :
  (∀ s, engine (g s) = engine s) → shape (w <| w_sched ::= g |>) → ledger_ok (w <| w_sched ::= g |>) c →
  system c w → system c (w <| w_sched ::= g |>).
Proof.
  intros G1 Hsh [L1 L2 L3 L4] [[q Hk] H2 H3 H4 H5 H6 H7 H8 H9 H10 H11].
  assert (∀ s, s_tasks (g s) = s_tasks s ∧ s_ready_head (g s) = s_ready_head s ∧ s_ready_tail (g s) = s_ready_tail s ∧
    s_current (g s) = s_current s ∧ s_pending_switch (g s) = s_pending_switch s ∧
    s_next_switch_sequence (g s) = s_next_switch_sequence s ∧
    s_last_consumed_switch_sequence (g s) = s_last_consumed_switch_sequence s ∧ s_started (g s) = s_started s) as E.
  { intros s. specialize (G1 s). unfold engine in G1. by injection G1. }
  assert (∀ j, T (w <| w_sched ::= g |>) j = T w j) as HT by (intros j; apply T_sched, E).
  set (w' := w <| w_sched ::= g |>) in *. assert (current w' = current w) as Ec by apply E.
  split; try done.
  - exists q. pose proof (kernel_owned w q None Hk) as Ho. assert (pending w' = pending w) as Ep by apply E.
    apply (kernel_unseen w w' q q None None Hk); [split; [intros j; by rewrite HT|done..]| |done].
    apply (owned_view w w'); [split; [intros j; split; by rewrite HT|done..]| |done].
    apply (queues_same w); [apply Ho|done|by intros []| | |intros j; unfold nx; by rewrite HT];
      intros [p|a|a]; try done; exact (f_equal (λ l, at_ NIL l p) (proj1 (proj2 (E (w_sched w))))) ||
      exact (f_equal (λ l, at_ NIL l p) (proj1 (proj2 (proj2 (E (w_sched w)))))).
  - apply (tickets_same w); [apply E..|done].
  - intros i. rewrite HT, Ec. apply H3.
  - intros i. rewrite HT. apply H6.
  - intros a st. rewrite HT. apply H7.
  - by rewrite HT.
  - etrans; [|exact H9]. apply E.
Qed.

Lemma slots_ok_sched w g c :
  (∀ s, s_tasks (g s) = s_tasks s) → (∀ s, s_reservations (g s) = s_reservations s) →
  slots_ok w c → slots_ok (w <| w_sched ::= g |>) c.
Proof.
  intros G1 G2. apply slots_ok_same; [|apply G2]. intros i. by rewrite (T_sched w g i).
Qed.

Lemma system_reclaim c w : system c w → wp take_retired_stacks (λ _ w', system c w') w.
Proof.
  intros Hs. destruct (system_ledger c w Hs) as [L1 L2 L3 L4].
  pose proof Hs as [[q Hk] _ _ _ _ _ _ _ _ _ _]. pose proof (owned_shape w q None (kernel_owned w q None Hk)) as [].
  unfold take_retired_stacks, sched_modify. go. apply system_entry; [done|by split| |done].
  split; [by apply slots_ok_sched|exact L2|by vm_compute|exact L4].
Qed.

(** ** Interrupts *)

Lemma system_irq_mark c w v t :
  v = NIL ∨ slot_in v → system c w →
  system c (w <| w_sched ::= λ s, s <| s_irq_task := v |> <| s_irq_started_at := t |> |>).
Proof.
  intros Hv Hs. destruct (system_ledger c w Hs) as [L1 L2 L3 L4].
  pose proof Hs as [[q Hk] _ _ _ _ _ _ _ _ _ _]. pose proof (owned_shape w q None (kernel_owned w q None Hk)) as [].
  apply system_entry; [done|by split| |done]. split; [by apply slots_ok_sched|exact L2|exact L3|exact Hv].
Qed.

Lemma touching_metrics h : touching (λ t, t <| t_metrics ::= h |>).
Proof. by split. Qed.

Lemma system_metrics c w i h : system c w → slot_in i → system c (upd_task i (λ t, t <| t_metrics ::= h |>) w).
Proof.
  intros Hs Hi. apply system_touch; [done|done|apply touching_metrics|]. apply (fit_lock _ (system_fit c w Hs i Hi)).
Qed.

Lemma system_shape c w : system c w → shape w ∧ slot_in (current w).
Proof.
  intros Hs. destruct (system_kernel c w Hs) as [q Hk]. pose proof (kernel_owned w q None Hk) as Ho.
  split; [by eapply owned_shape|by eapply owned_slot_current].
Qed.

Lemma system_interrupt_enter c w now :
  system c w → s_irq_task (w_sched w) = NIL → wp (interrupt_enter_sched now) (λ _ w', system c w' ∧
    current w' = current w ∧ (∀ j, (t_state (T w' j), lock_part (T w' j)) = (t_state (T w j), lock_part (T w j))) ∧ s_irq_task (w_sched w') = current w ∧
    s_irq_started_at (w_sched w') = now) w.
Proof.
  intros Hs Hirq. destruct (system_shape c w Hs) as [Hsh Hc]. unfold interrupt_enter_sched, sched_modify. go.
  apply wp_assert; [by apply Z.eqb_eq|]. go.
  set (w1 := w <| w_sched ::= _ |>). assert (system c w1) as H1 by (apply system_irq_mark; [by right|done]).
  apply wp_set_task; [apply (system_shape c w1 H1)|done|]. split; [by apply system_metrics|].
  split_and!; [done| |done..]. intros j. by rewrite (T_upd_field lock_part), (T_upd_field t_state).
Qed.

Lemma system_interrupt_exit c w now :
  system c w → wp (interrupt_exit_sched now) (λ _ w', system c w' ∧
    (s_irq_started_at (w_sched w) ≠ NO_TIMESTAMP → s_irq_task (w_sched w') = NIL)) w.
Proof.
  intros Hs. destruct (system_shape c w Hs) as [Hsh Hc]. unfold interrupt_exit_sched, sched_modify. go.
  destruct (Z.eqb_spec (s_irq_task (w_sched w)) NIL) as [E|E]; cbn [orb]; [by go|].
  destruct (Z.eqb_spec (s_irq_started_at (w_sched w)) NO_TIMESTAMP) as [E2|E2]; [by go|].
  assert (slot_in (s_irq_task (w_sched w))) as Hi by (by destruct (system_irq c w Hs)).
  go. split; [|done]. apply system_irq_mark; [by left|]. by apply system_metrics.
Qed.

Lemma system_rearm c w now limit embassy :
  system c w → wp (timer_deadline now limit embassy) (λ _ w', system c w') w.
Proof.
  intros Hs. destruct (system_kernel c w Hs) as [q Hk].
  wp_apply (timer_deadline_frame w q now limit embassy (kernel_owned w q None Hk)). intros d w' [v ->].
  by apply system_sched.
Qed.

(** ** Reservations *)

Lemma system_reservations c w t : system c w → slots_ok (set_reservations t w) c → system c (set_reservations t w).
Proof.
  intros Hs Hok. destruct (system_ledger c w Hs) as [L1 L2 L3 L4]. destruct (system_shape c w Hs) as [[] _].
  apply system_entry; [done|by split|by split|done].
Qed.

(** An operation on the reservation table alone. *)
Lemma system_reserving {A} c (m : M World A) (P : A → World → Prop) w :
  system c w → wp m (λ r w', slots_ok w' c ∧ (∃ t', w' = set_reservations t' w) ∧ P r w') w →
  wp m (λ _ w', system c w') w.
Proof. intros Hs H. wp_apply H. intros r w' (Hok & [t ->] & _). by apply system_reservations. Qed.

Lemma system_reserve c w required :
  system c w → capacity_ok c → 1 <= required →
  wp (reserve_dynamic_slots_with_capacity required c) (λ _ w', system c w') w.
Proof.
  intros Hs Hc Hr. eapply (system_reserving c _ _ w Hs), reserve_slots_ok; [|done|apply Hs|done].
  by apply (system_shape c w Hs).
Qed.

Lemma system_reserve_resources c w required stacks :
  system c w → capacity_ok c → 1 <= required.(task_slots) → stacks_for required.(task_slots) stacks →
  wp (reserve_dynamic_task_resources_with_capacity required stacks c) (λ _ w', system c w') w.
Proof.
  intros Hs Hc Hr Hst. eapply (system_reserving c _ _ w Hs), reserve_resources_slots_ok; [|done|apply Hs|done|done].
  by apply (system_shape c w Hs).
Qed.

Lemma system_reserve_plan c w plan stacks :
  system c w → capacity_ok c → plan_wf plan → plan_stacks_ok plan stacks →
  wp (reserve_dynamic_task_resource_plan_with_capacity plan stacks c) (λ _ w', system c w') w.
Proof.
  intros Hs Hc Hr Hst. eapply (system_reserving c _ _ w Hs), reserve_plan_slots_ok; [|done|apply Hs|done|done].
  by apply (system_shape c w Hs).
Qed.

Lemma system_release_reservation c w r :
  system c w → wp (release_task_reservation r) (λ _ w', system c w') w.
Proof.
  intros Hs. wp_apply (release_slots_ok w c r (system_slots c w Hs)). intros x w' (Hok & [t ->]).
  by apply system_reservations.
Qed.

(** ** Destruction *)

Definition without_sem (a : Z) (w : World) : World := w <| w_sems ::= delete a |>.
Definition without_mtx (a : Z) (w : World) : World := w <| w_mutexes ::= delete a |>.

(** The critical section of [semaphore_destroy] behind the handle table. *)
Definition destroy_semaphore_locked (pointer : Z) : M World (result DriverError unit) :=
  state ← sem_at pointer;
  granted ← pending_grant pointer;
  if semaphore_state_has_waiters state || granted then mret (Err InvalidContext)
  else modify (without_sem pointer) ;; mret (Ok tt).

(** The critical section of [mutex_destroy] behind the handle table. *)
Definition destroy_mutex_locked (pointer : Z) : M World (result DriverError unit) :=
  state ← mutex_at pointer;
  if mutex_state_is_busy state then mret (Err InvalidContext)
  else modify (without_mtx pointer) ;; mret (Ok tt).

Lemma lookup_delete_sub {A} (m : gmap Z A) a b x : delete a m !! b = Some x → m !! b = Some x ∧ b ≠ a.
Proof. intros H%lookup_delete_Some. by destruct H. Qed.

Lemma queues_without_sem w q a : queues w q → q (QSem a) = [] → queues (without_sem a w) q.
Proof.
  intros Hq Ha. pose proof Hq as [H1 H2 H3 H4 H5 H6 H7].
  assert (∀ id, valid (without_sem a w) id → valid w id ∧ id ≠ QSem a) as Hv.
  { intros [p|b|b]; cbn; [done| |done]. intros [st [? ?]%lookup_delete_sub]. split; [by exists st|congruence]. }
  assert (∀ id, id ≠ QSem a → hd_of (without_sem a w) id = hd_of w id ∧ tl_of (without_sem a w) id = tl_of w id) as He.
  { intros [p|b|b] Hne; [done| |done]. unfold hd_of, tl_of; simpl. assert (a ≠ b) by congruence. by rewrite lookup_delete_ne. }
  split; [by apply (shape_ext w)|..|done|done|done].
  - intros id [? Hne]%Hv. rewrite (proj1 (He id Hne)). by apply H2.
  - intros id [? Hne]%Hv. rewrite (proj2 (He id Hne)). by apply H3.
  - intros id i Hi. destruct (decide (id = QSem a)) as [->|Hne]; [by rewrite Ha in Hi; apply not_elem_of_nil in Hi|].
    specialize (H4 id i Hi). destruct id as [p|b|b]; [done| |done]. simpl in *. assert (a ≠ b) by congruence. by rewrite lookup_delete_ne.
Qed.

Lemma queues_without_mtx w q a : queues w q → q (QMtx a) = [] → queues (without_mtx a w) q.
Proof.
  intros Hq Ha. pose proof Hq as [H1 H2 H3 H4 H5 H6 H7].
  assert (∀ id, valid (without_mtx a w) id → valid w id ∧ id ≠ QMtx a) as Hv.
  { intros [p|b|b]; cbn; [done|done|]. intros [st [? ?]%lookup_delete_sub]. split; [by exists st|congruence]. }
  assert (∀ id, id ≠ QMtx a → hd_of (without_mtx a w) id = hd_of w id ∧ tl_of (without_mtx a w) id = tl_of w id) as He.
  { intros [p|b|b] Hne; [done|done|]. unfold hd_of, tl_of; simpl. assert (a ≠ b) by congruence. by rewrite lookup_delete_ne. }
  split; [by apply (shape_ext w)|..|done|done|done].
  - intros id [? Hne]%Hv. rewrite (proj1 (He id Hne)). by apply H2.
  - intros id [? Hne]%Hv. rewrite (proj2 (He id Hne)). by apply H3.
  - intros id i Hi. destruct (decide (id = QMtx a)) as [->|Hne]; [by rewrite Ha in Hi; apply not_elem_of_nil in Hi|].
    specialize (H4 id i Hi). destruct id as [p|b|b]; [done|done|]. simpl in *. assert (a ≠ b) by congruence. by rewrite lookup_delete_ne.
Qed.

Lemma kernel_without_sem w q a :
  kernel w q → q (QSem a) = [] → (∀ i, slot_in i → t_granted_sem (T w i) ≠ a) → kernel (without_sem a w) q.
Proof.
  intros Hk Hq Hg. pose proof Hk as [[Ho Hso [S1 S2 S3 S4 S5] Hgr] Hinh Hmu].
  assert (∀ b, b ≠ a → permits (without_sem a w) b = permits w b) as Hp.
  { intros b Hb. unfold permits, count_of, without_sem. simpl. by rewrite lookup_delete_ne. }
  split; [split|by apply (inheritance_same w)|by apply (mutexes_same w _ q q)].
  - apply (owned_view w); [by split|apply queues_without_sem; [apply Ho|done]|done].
  - done.
  - split.
    + destruct (w_sems (without_sem a w) !! 0) eqn:E; [|done]. apply lookup_delete_sub in E as [E _]. congruence.
    + intros b st [Hb _]%lookup_delete_sub. by eapply S2.
    + intros b Hb. destruct (decide (b = a)) as [->|Hne]; [|rewrite Hp by done; by apply S3].
      unfold permits, count_of, without_sem. simpl. rewrite lookup_delete_eq. simpl.
      assert (granted_by w a = 0) as E0; [|change (0 + granted_by w a <= i32_max); rewrite E0; by vm_compute].
      unfold granted_by. rewrite (zsum_ext _ (λ _, 0)); [done|]. intros i Hi%slots_elem. apply indicator_false. by apply Hg.
    + intros b st [Hb _]%lookup_delete_sub. by apply S4.
    + intros i Hi Hgi. change (T (without_sem a w) i) with (T w i) in *. unfold without_sem. simpl.
      rewrite lookup_delete_ne; [by apply S5|]. intros E. by apply (Hg i Hi).
  - by destruct Hgr.
Qed.

Lemma system_destroy_sem c w a st :
  system c w → w_sems w !! a = Some st → wp (destroy_semaphore_locked a) (λ _ w', system c w') w.
Proof.
  intros Hs Hst. destruct (system_kernel c w Hs) as [q Hk]. destruct (system_shape c w Hs) as [Hsh _].
  unfold destroy_semaphore_locked, pending_grant. apply wp_bind, (wp_sem_at a st); [done|]. go.
  destruct (semaphore_state_has_waiters st) eqn:Ew; cbn [orb]; [by go|].
  destruct (existsb _ _) eqn:Eg; [by go|]. go. unfold semaphore_state_has_waiters in Ew.
  apply orb_false_iff in Ew as [Hh%negb_false_iff%Z.eqb_eq _].
  assert (q (QSem a) = []) as Hq.
  { apply (queues_head_nil w q (QSem a)); [by eapply owned_queues, kernel_owned|by exists st|]. unfold hd_of. by rewrite Hst. }
  assert (∀ i, slot_in i → t_granted_sem (T w i) ≠ a) as Hg.
  { intros i Hi E. apply not_true_iff_false in Eg. apply Eg, existsb_exists. exists (T w i). split; [|by apply Z.eqb_eq].
    apply list_elem_of_In, (list_elem_of_lookup_2 _ (Z.to_nat i)). rewrite <-idx_lookup by (destruct Hi; lia).
    by apply idx_at, shape_in. }
  apply (system_step c w); [done|exists q; by apply kernel_without_sem|by split|by intros j| | |by apply owners_from_same].
  - apply (tickets_same w); [done..|apply Hs].
  - apply (system_saved c w Hs).
Qed.

Lemma kernel_without_mtx w q a st :
  kernel w q → w_mutexes w !! a = Some st → mtx_owner st = NIL → kernel (without_mtx a w) q.
Proof.
  intros Hk Hst Hn. pose proof Hk as [[Ho Hso [S1 S2 S3 S4 S5] [G1 G2 G3]] Hinh [M1 M2 M3 M4]].
  pose proof Hinh as [I1 [I2 I3] I4 [I5 I5'] I6]. destruct (M2 a st Hst Hn) as [Hqa _].
  assert (∀ i, slot_in i → t_waiting_mutex (T w i) ≠ a) as Hwa.
  { intros i Hi E. destruct (decide (a = 0)) as [->|Hne]; [congruence|].
    assert (i ∈ q (QMtx a)) as Hin; [|by rewrite Hqa in Hin; apply not_elem_of_nil in Hin].
    rewrite <-E. apply (placed_mtx_home w q None i (owned_placed w q None (proj2 Ho) i Hi)). by rewrite E. }
  assert (∀ i, owner_of (without_mtx a w) i = owner_of w i) as Hown.
  { intros i. unfold owner_of, without_mtx. change (T (w <| w_mutexes ::= _ |>) i) with (T w i). simpl.
    destruct (decide (t_waiting_mutex (T w i) = a)) as [->|Hne]; [rewrite lookup_delete_eq, Hst; by case_match|].
    by rewrite lookup_delete_ne. }
  assert (∀ b sb, w_mutexes (without_mtx a w) !! b = Some sb → w_mutexes w !! b = Some sb) as Hsub
    by (intros b sb [Hb _]%lookup_delete_sub; done).
  split; [split|..].
  - apply (owned_view w); [by split|apply queues_without_mtx; [apply Ho|done]|done].
  - done.
  - by split.
  - by split.
  - split; try done.
    + split; [done|]. intros o p Hos Hp. change (T (without_mtx a w) o) with (T w o). rewrite I3 by done. f_equal.
      symmetry. apply tally_ext; intros i _; by rewrite Hown.
    + split; [|intros b sb Hb; by apply (I5' b), Hsub].
      intros i Hi Hw. change (T (without_mtx a w) i) with (T w i) in *. simpl.
      rewrite lookup_delete_ne; [by apply I5|]. intros E. by apply (Hwa i Hi).
    + by apply (same_donors_acyclic w).
  - split.
    + destruct (w_mutexes (without_mtx a w) !! 0) eqn:E; [|done]. apply Hsub in E. congruence.
    + intros b sb Hb. by apply (M2 b), Hsub.
    + intros b sb Hb. by apply (M3 b), Hsub.
    + intros i Hi Hg. change (T (without_mtx a w) i) with (T w i) in *. destruct (M4 i Hi Hg) as (sg & Hsg & Hog & Hdg).
      exists sg. split; [|done]. simpl. rewrite lookup_delete_ne; [done|]. intros E. subst a. assert (sg = st) as -> by congruence.
      rewrite Hn in Hog. by apply (slot_in_not_NIL i).
Qed.

Lemma system_destroy_mtx c w a st :
  system c w → w_mutexes w !! a = Some st → wp (destroy_mutex_locked a) (λ _ w', system c w') w.
Proof.
  intros Hs Hst. destruct (system_kernel c w Hs) as [q Hk].
  unfold destroy_mutex_locked. apply wp_bind, (wp_mutex_at a st); [done|].
  destruct (mutex_state_is_busy st) eqn:Eb; [by go|]. go. unfold mutex_state_is_busy in Eb.
  apply orb_false_iff in Eb as [[Hn%negb_false_iff%Z.eqb_eq _]%orb_false_iff _].
  apply (system_step c w); [done|exists q; by eapply kernel_without_mtx|by split|by intros j| | |].
  - apply (tickets_same w); [done..|apply Hs].
  - apply (system_saved c w Hs).
  - intros b sb [Hb _]%lookup_delete_sub _. right. by exists sb.
Qed.

(** ** Base priorities *)

Lemma live_task_system c w task (Q : result DriverError Z → World → Prop) :
  system c w → 0 <= task <= u32_max →
  (∀ e, Q (Err e) w) → (∀ i, slot_in i → t_state (T w i) ≠ Free → decode_task_id task = Ok (i, t_identity_generation (T w i)) → Q (Ok i) w) →
  wp (live_task task) Q w.
Proof.
  intros Hs Ht He Hok. destruct (system_shape c w Hs) as [Hsh _]. apply live_task_spec; [done..|].
  destruct (decode_task_id task) as [[i g]|e] eqn:E; [|apply He]. pose proof E as E'.
  apply decode_task_id_Ok in E' as [[Hi _] _]; [|done]. unfold state_eqb.
  destruct (bool_decide_reflect (t_state (T w i) = Free)) as [|Hlive]; cbn [orb]; [apply He|].
  destruct (Z.eqb_spec (t_identity_generation (T w i)) g) as [<-|]; cbn [negb]; [by apply Hok|apply He].
Qed.

Lemma calming_base p : calming (λ t, t <| t_base_priority := p |>).
Proof. split; try done. by intros t [? ? ? ? ? ?]. Qed.

Definition rebased (p : Z) (t : Tcb) : Tcb := t <| t_base_priority := p |>.

(** A base priority changes; the effective priority of the task does not know yet. *)
Lemma inheritance_rebased w i p :
  shape w → slot_in i → 0 <= p < PRIORITY_LEVELS → inheritance w None →
  inheritance (upd_task i (rebased p) w) (Some i).
Proof.
  intros Hsh Hi Hp [I1 [I2 I3] I4 [R1 R2] I6]. set (w1 := upd_task i (rebased p) w).
  assert (∀ j, t_waiting_mutex (T w1 j) = t_waiting_mutex (T w j)) as Hw by (intros j; by apply T_upd_field).
  assert (∀ j, t_inherited_waiters (T w1 j) = t_inherited_waiters (T w j)) as Hn by (intros j; by apply T_upd_field).
  assert (∀ j, owner_of w1 j = owner_of w j) as Hown by (intros j; unfold owner_of; by rewrite Hw).
  split.
  - intros o Ho. unfold w1. rewrite T_upd_task by done. case_decide; [done|by apply I1].
  - split; [intros o Ho; rewrite Hn; by apply I2|]. intros o l Ho Hl. rewrite Hn, I3 by done. f_equal. symmetry.
    apply tally_ext; intros j _; rewrite ?Hown; [|done]. intros E. split; [done|]. by apply T_upd_field.
  - intros o Ho Hne. unfold w1. rewrite T_upd_task, decide_False by congruence. by apply I4.
  - split; [|done]. intros j Hj. rewrite Hw. by apply R1.
  - by apply (same_donors_acyclic w).
Qed.

(** The walk that follows. *)
Lemma kernel_rebased w q i p :
  kernel w q → slot_in i → 0 <= p < PRIORITY_LEVELS →
  wp (refresh_inherited_priority i 0) (λ _ w', (∃ q', kernel w' q') ∧
    same_but_priority (upd_task i (rebased p) w) w') (upd_task i (rebased p) w).
Proof.
  intros [[Ho Hso Hse Hgr] Hinh Hmu] Hi Hp. set (w1 := upd_task i (rebased p) w).
  pose proof (owned_shape w q None Ho) as Hsh.
  assert (∀ A (f : Tcb → A), (∀ t, f (rebased p t) = f t) → ∀ j, f (T w1 j) = f (T w j)) as F
    by (intros A f Hf j; by apply T_upd_field).
  wp_apply (refresh_spec w1 q None i); [|by apply owned_upd| |by apply inheritance_rebased|done].
  - intros _ w' [q' Hs]. split; [|apply Hs]. exists q'. apply (kernel_settled w1 w' q q' None); [| | |exact Hs].
    + apply (sems_same w w1 q q); [done|by apply (F _ t_granted_sem)|done..].
    + destruct Hgr as [G1 G2 G3]. split; intros j Hj; rewrite ?(F _ t_sem_granted), ?(F _ t_granted_sem),
        ?(F _ t_granted_mutex), ?(F _ t_waiting_sem), ?(F _ t_waiting_mutex) by done; auto.
    + apply (mutexes_same w w1 q q); [done|by apply (F _ t_granted_mutex)|done..].
  - apply (sorted_all_sbp w); [|done]. by apply (F _ t_priority).
Qed.

Lemma system_set_priority c w task p :
  system c w → 0 <= task <= u32_max → 0 <= p < PRIORITY_LEVELS →
  wp (set_task_priority_locked task p) (λ _ w', system c w') w.
Proof.
  intros Hs Ht Hp. destruct (system_kernel c w Hs) as [q Hk]. destruct (system_shape c w Hs) as [Hsh _].
  unfold set_task_priority_locked. apply wp_try_bind, (live_task_system c w task _ Hs Ht); [done|].
  intros i Hi Hlive _. go. change (upd_task i _ w) with (upd_task i (rebased p) w). set (w1 := upd_task i (rebased p) w).
  assert (calm None w w1) as Hc1 by (apply calm_upd; [intros _; apply calming_base|done..]).
  eapply wp_mono; [|eapply wp_keeps; [apply (keeps_refresh (calm None))|]; eapply wp_keeps; [apply (keeps_refresh held)|];
    eapply wp_keeps; [apply (keeps_refresh same_owners)|]; exact (kernel_rebased w q i p Hk Hi Hp)].
  intros [] w' [[[[Hk' Hsbp] Ho] [_ S]] Hc2]. go. assert (calm None w w') as Hc by (by etrans).
  assert (keeps_free w w') as Hf.
  { intros j Hj. rewrite (sbp_field _ _ Hsbp t_state) by done. unfold w1. by rewrite (T_upd_field t_state). }
  apply (system_step c w w' Hs Hk' (calm_lively _ _ Hc) Hf); [| |by apply owners_from_same].
  - apply (tickets_same w); [by apply (S _ s_next_switch_sequence)|by apply (S _ s_last_consumed_switch_sequence)
      |by apply (S _ s_pending_switch)|apply Hs].
  - by apply (saved_calm None w w'), Hs.
Qed.
