(* ===== verification/Policy.v ===== *)
(** * Run policies of live tasks ([src/runtime/scheduler.rs], [set_run_policy])

    A policy change takes a queued task out of its bucket and puts it at the end, gives it
    a fresh budget, makes a throttled task ready, and starts the budget of the running one.
    The queues and owners stay in order and nobody else changes. *)

From stdpp Require Import sorting.
From S2P Require Import Prelude Effects Budget Contract Config Context Reservation.
From S2P Require Import Tcb Store Chain Ready Wait Switch Invariant Dispatch Inherit Donation Sync.
From S2P Require Import Moves Permit Slide Lean Handoff Mutex Lock Acquire Exclusion.
From S2P Require Import Timer Frame Touch Wake Slots Statics Tasks Driver Birth Leave Fit System Upkeep.

(** The new policy and its budget. *)
Definition policed (policy : RunPolicy) (now : Z) (t : Tcb) : Tcb :=
  t <| t_run_policy := policy |> <| t_budget := for_policy policy now |>.

(** What becomes of the task. *)
Definition repoliced (policy : RunPolicy) (now : Z) (t : Tcb) : Tcb :=
  match t_state t with
  | Running => (policed policy now t) <| t_budget ::= on_dispatch now |>
  | Throttled => readied now (policed policy now t)
  | _ => policed policy now t
  end.

(** A queued task leaves its bucket and is in hand. *)
Lemma owned_pull w q i :
  owned w q None → slot_in i → i ∈ q (QReady (t_priority (T w i))) →
  wp (ready_remove i) (λ _ w', core w' = core w ∧ i ≠ IDLE_SLOT ∧
    owned w' (qset (QReady (t_priority (T w i))) (without i (q (QReady (t_priority (T w i))))) q) (Some i)) w.
Proof.
  intros Hw Hi Hin. pose proof Hw as [Hq Ho]. pose proof (owned_placed w q None Ho i Hi) as Hpl.
  destruct (placed_ready w q None i Hpl _ Hin) as (Hst & _ & Hni). set (p := t_priority (T w i)) in *.
  wp_apply (ready_remove_spec w q i Hq Hi); [|apply Hpl]. intros _ w' [Hc [Hq' _]]. fold p in Hq'. specialize (Hq' Hin).
  assert (valid w (QReady p)) as [Hp1 Hp2] by (by apply (queues_valid w q Hq _ i)).
  split; [done|]. split; [done|]. set (q' := qset (QReady p) _ q) in *.
  assert (detached q' i) as Hd.
  { intros id. unfold q', qset. case_decide as Hid; [rewrite elem_of_without; tauto|]. intros Hin'. apply Hid.
    by apply (queues_disjoint w q Hq (QReady p) id i). }
  pose proof (same_view_core w w' Hc) as V. destruct (V) as [Vt Vp Vc].
  apply (owned_change w w' q _ None _ i Hw Hq'); try done.
  - by apply same_view_except.
  - intros j id Hj. apply elem_of_qset. rewrite elem_of_without. tauto.
  - intros j Hj. split; congruence.
  - intros _. destruct (Vt i) as [V1 V2 V3 V4 V5]. destruct (owned_not_waiting w q None i Hw Hi) as [Hws Hwm]; [congruence|].
    assert (¬ is_target w' i) as Hnt.
    { rewrite is_target_same by done. intros Ht. apply (placed_target w q None i Hpl) in Ht as [_ Ht]. apply Ht. by exists p. }
    apply placed_detached; unfold priority_ok; rewrite ?V1, ?V2, ?V4, ?V5; try done; try congruence. by left.
Qed.

(** Readying in one write. *)
Lemma make_ready_once i now w :
  i ≠ IDLE_SLOT → make_ready i now w = (set_task i (readied now) ;; ready_push i) w.
Proof.
  intros Hi. unfold make_ready. rewrite (proj2 (Z.eqb_neq _ _) Hi). cbn [negb when].
  pose proof (set_task_twice i (λ t, t <| t_state := Ready |>) (λ t, t <| t_metrics ::= metrics_on_ready now |>) w) as E.
  unfold mbind, M_bind in *. unfold readied. rewrite <-E. by destruct (set_task i _ w) as [[[] w1]|].
Qed.

(** The outcome of a policy change. *)
Definition policy_set (w w' : World) (q : Queues) (i : Z) (policy : RunPolicy) (now : Z) : Prop :=
  ∃ q' h, owned w' q' None ∧ (∀ a, q' (QSem a) = q (QSem a) ∧ q' (QMtx a) = q (QMtx a)) ∧
    core w' = core (upd_task i (repoliced policy now) (w <| w_sched ::= λ s, s <| s_diagnostics ::= h |> |>)).

Lemma accounting_policed policy now : accounting (policed policy now).
Proof. by intros t. Qed.

Lemma policed_core w i policy now : core (upd_task i (policed policy now) w) = upd_task i (policed policy now) (core w).
Proof. apply core_upd_task. by intros []. Qed.

Lemma undiagnosed w : w <| w_sched ::= λ s, s <| s_diagnostics ::= λ d, d |> |> = w.
Proof. by destruct w as [[] ? ?]. Qed.

(** A queued task goes to the end of its bucket. *)
Lemma policy_queued w q i policy now :
  owned w q None → slot_in i → ready_queued q i →
  wp (ready_remove i ;; set_task i (policed policy now) ;; ready_push i) (λ _ w', policy_set w w' q i policy now) w.
Proof.
  intros Hw Hi Hr. pose proof (owned_shape w q None Hw) as Hsh.
  pose proof (proj1 (ready_queue_of w q None i Hw Hi) Hr) as Hin.
  destruct (placed_ready w q None i (owned_placed w q None (proj2 Hw) i Hi) _ Hin) as (Hst & _ & _).
  apply wp_bind. wp_apply (owned_pull w q i Hw Hi Hin). intros _ w1 (Hc1 & Hni & Hw1).
  pose proof (owned_shape w1 _ _ Hw1) as Hs1. go. set (w2 := upd_task i (policed policy now) w1).
  wp_apply (owned_put_back w2 _ i (owned_upd w1 _ _ i _ (accounting_policed policy now) Hw1) Hni).
  intros _ w3 [Hc3 Hw3]. eexists _, (λ d, d). split; [exact Hw3|]. split; [done|].
  rewrite undiagnosed, Hc3. unfold w2. rewrite (policed_core w1), Hc1, <-(policed_core w). f_equal.
  apply upd_task_at; [done..|]. unfold repoliced. by rewrite Hst.
Qed.

(** A throttled task becomes ready. *)
Lemma policy_throttled w q i policy now :
  owned w q None → slot_in i → i ≠ IDLE_SLOT → t_state (T w i) = Throttled →
  wp (set_task i (policed policy now) ;; set_task i (readied now) ;; ready_push i)
    (λ _ w', policy_set w w' q i policy now) w.
Proof.
  intros Hw Hi Hni Hst. pose proof (owned_shape w q None Hw) as Hsh.
  destruct (owned_not_waiting w q None i Hw Hi) as [Hws Hwm]; [by rewrite Hst|].
  assert (detached q i) as Hd by (apply (owned_detached w q None); try done; apply (owned_not_queued w q None); [done..|by rewrite Hst]).
  apply wp_bind, wp_set_task; [done..|]. set (w1 := upd_task i (policed policy now) w).
  assert (owned w1 q None) as Hw1 by (apply owned_upd; [apply accounting_policed|done]).
  assert (T w1 i = policed policy now (T w i)) as HT by (by apply T_upd_eq).
  assert (wp (set_task i (readied now) ;; ready_push i) (λ _ w', owned w' (enqueued w1 i q) None ∧
    core w' = core (upd_task i (readied now) w1)) w1) as H.
  { unfold wp. rewrite <-make_ready_once by done. apply owned_make_ready; [done..| | |]; rewrite HT; cbn; congruence. }
  eapply wp_mono; [|exact H]. intros _ w' [Ho Hc].
  eexists _, (λ d, d). split; [exact Ho|]. split; [apply enqueued_waits|].
  rewrite undiagnosed, Hc. unfold w1. rewrite upd_task_compose. f_equal. apply upd_task_at; [done..|].
  unfold repoliced. by rewrite Hst.
Qed.

(** Any other task stays where it is. *)
Lemma policy_kept w q i policy now h :
  owned w q None → slot_in i → t_state (T w i) ≠ Throttled →
  policy_set w (upd_task i (repoliced policy now) (w <| w_sched ::= λ s, s <| s_diagnostics ::= h |> |>)) q i policy now.
Proof.
  intros Hw Hi Hst. exists q, h. set (w0 := w <| w_sched ::= _ |>). split; [|done].
  assert (owned w0 q None) as Hw0 by (by apply owned_sched). pose proof (owned_shape w0 q None Hw0) as Hsh.
  rewrite (upd_task_at w0 i (repoliced policy now) (λ t, (policed policy now t) <| t_budget ::=
    if state_eqb (t_state (T w i)) Running then on_dispatch now else λ b, b |>)); [by apply owned_upd|done..|].
  change (T w0 i) with (T w i). unfold repoliced. destruct (t_state (T w i)); try done; by destruct (T w i).
Qed.

(** [set_run_policy] on any branch. *)
Lemma set_run_policy_spec w q i policy now :
  owned w q None → slot_in i → i ≠ IDLE_SLOT →
  wp (set_run_policy i policy now) (λ _ w', policy_set w w' q i policy now) w.
Proof.
  intros Hw Hi Hni. pose proof (owned_shape w q None Hw) as Hsh. unfold set_run_policy. go.
  eapply (wp_mono _ (λ b w', w' = w ∧ (b = true ↔ ready_queued q i))).
  2:{ unfold state_eqb. case_bool_decide as E; [by apply ready_contains_spec, Hw|]. go. split; [done|].
      split; [done|]. intros Hr. by destruct (owned_not_queued w q None i Hw Hi E). }
  intros b w0 [-> Hb]. go.
  destruct b.
  - assert (t_state (T w i) = Ready) as Hst.
    { destruct (proj1 Hb eq_refl) as (p & _ & Hin). by destruct (placed_ready w q None i (owned_placed w q None (proj2 Hw) i Hi) p Hin). }
    rewrite Hst. unfold state_eqb. rewrite bool_decide_true by done. cbn [negb andb orb when].
    pose proof (policy_queued w q i policy now Hw Hi (proj1 Hb eq_refl)) as H. apply wp_bind_inv in H.
    apply wp_bind. eapply wp_mono; [|exact H]. intros [] w1 H1. apply wp_bind_inv in H1. apply wp_bind.
    eapply wp_mono; [|exact H1]. intros [] w2 H2. by go.
  - destruct (decide (t_state (T w i) = Throttled)) as [Hst|Hst].
    { rewrite Hst. unfold state_eqb. rewrite (bool_decide_false (Throttled = Ready)), (bool_decide_false (Throttled = Running)),
        (bool_decide_true (Throttled = Throttled)) by done. cbn [negb andb orb when].
      apply wp_ret, wp_bind, wp_ret.
      pose proof (policy_throttled w q i policy now Hw Hi Hni Hst) as H. apply wp_bind_inv in H.
      apply wp_bind. eapply wp_mono; [|exact H]. intros [] w1 H1. apply wp_bind_inv in H1. apply wp_bind.
      eapply wp_mono; [|exact H1]. intros [] w2 H2. by go. }
    eapply (wp_mono _ (λ _ w', ∃ h, w' = w <| w_sched ::= λ s, s <| s_diagnostics ::= h |> |>)).
    2:{ apply wp_when; intros _; go; [by eexists|]. exists (λ d, d). by rewrite undiagnosed. }
    intros _ w0 [h ->]. set (w0 := w <| w_sched ::= _ |>). cbn [when].
    pose proof (policy_kept w q i policy now h Hw Hi Hst) as H. fold w0 in H.
    assert (shape w0) as Hs0 by (by apply (shape_ext w)).
    apply wp_bind, wp_ret, wp_bind, wp_set_task; [done..|]. unfold state_eqb.
    rewrite (bool_decide_false (t_state (T w i) = Throttled)) by done. cbn [orb when]. set (w1 := upd_task i _ w0).
    assert (shape w1) as Hs1 by (by apply shape_upd_task).
    apply wp_bind. case_bool_decide as Hrun.
    + apply wp_set_task; [done..|]. apply wp_ret. unfold w1. rewrite upd_task_compose.
      rewrite (upd_task_at w0 i _ (repoliced policy now)); [exact H|done..|]. change (T w0 i) with (T w i).
      unfold repoliced. by rewrite Hrun.
    + apply wp_ret, wp_ret. unfold w1. rewrite (upd_task_at w0 i _ (repoliced policy now)); [exact H|done..|].
      change (T w0 i) with (T w i). unfold repoliced. by destruct (t_state (T w i)).
Qed.

(** ** The invariant *)

Lemma fit_repoliced policy now t :
  RunPolicy_wf policy → time_ok now → t_state t ≠ Free → fit t → fit (repoliced policy now t).
Proof.
  intros Hp Hn Hlive [F1 F2 F3 F4 F5 F6]. destruct (phased_new policy now Hp Hn) as [P1 P2].
  destruct (phased_dispatch now _ Hn (conj P1 P2)) as [D1 D2].
  unfold repoliced. destruct (t_state t) eqn:E; try done; split; cbn; rewrite ?E; done.
Qed.

Lemma repoliced_alive policy now t : t_state (repoliced policy now t) = Free ↔ t_state t = Free.
Proof. unfold repoliced. by destruct (t_state t) eqn:E; cbn; rewrite ?E. Qed.

Lemma repoliced_kept policy now t :
  sync_part (repoliced policy now t) = sync_part t ∧ t_saved_frame (repoliced policy now t) = t_saved_frame t.
Proof. unfold repoliced. by destruct (t_state t). Qed.

Lemma policy_set_task w w' q i policy now {A} (f : Tcb → A) j :
  policy_set w w' q i policy now → shape w → slot_in i → (∀ t, f (core_tcb t) = f t) →
  f (T w' j) = if decide (i = j) then f (repoliced policy now (T w j)) else f (T w j).
Proof.
  intros (q' & h & _ & _ & Hc) Hs Hi Hf. rewrite (core_field f _ w' j Hf Hc), T_upd_task by (done || by apply (shape_ext w)).
  by case_decide.
Qed.

Lemma policy_set_sched w w' q i policy now {A} (f : Sched → A) :
  policy_set w w' q i policy now → (∀ s g, f (s <| s_tasks ::= g |>) = f s) → (∀ s v, f (s <| s_ready_head := v |>) = f s) →
  (∀ s v, f (s <| s_ready_tail := v |>) = f s) → (∀ s g, f (s <| s_diagnostics ::= g |>) = f s) →
  f (w_sched w') = f (w_sched w).
Proof.
  intros (q' & h & _ & _ & Hc) H1 H2 H3 H4. eapply eq_trans; [eapply core_sched; [|exact Hc]|].
  - intros s. cbn. by rewrite H3, H2, H1.
  - etrans; [apply (H1 _ (λ l, alter_at (repoliced policy now) l i))|]. apply H4.
Qed.

Lemma system_set_run_policy c w task policy now :
  system c w → 0 <= task <= u32_max → (∀ g, decode_task_id task ≠ Ok (IDLE_SLOT, g)) → RunPolicy_wf policy → time_ok now →
  wp (set_run_policy_locked task policy now) (λ _ w', system c w') w.
Proof.
  intros Hs Ht Hidle Hp Hn. destruct (system_kernel c w Hs) as [q Hk]. destruct (system_shape c w Hs) as [Hsh _].
  unfold set_run_policy_locked. apply wp_try_bind, (live_task_system c w task _ Hs Ht); [done|].
  intros i Hi Hlive Hdec. apply wp_bind.
  assert (i ≠ IDLE_SLOT) as Hni by (intros ->; by eapply Hidle).
  wp_apply (set_run_policy_spec w q i policy now (kernel_owned w q None Hk) Hi Hni). intros [] w' H. go.
  pose proof (λ A f j, policy_set_task w w' q i policy now (A := A) f j H Hsh Hi) as F.
  pose proof (λ A f, policy_set_sched w w' q i policy now (A := A) f H) as S. pose proof H as (q' & h & Ho & Hq & Hc).
  assert (∀ j, t_state (T w' j) = Free ↔ t_state (T w j) = Free) as Hfree.
  { intros j. rewrite (F _ t_state) by done. case_decide; [apply repoliced_alive|done]. }
  apply (system_step c w w'); [done| | |by intros j; apply Hfree| | |].
  - exists q'. apply (kernel_unseen w w' q q' None None Hk); [|done|done]. split.
    + intros j. rewrite (F _ sync_part) by done. case_decide; [apply repoliced_kept|done].
    + intros a. etrans; [by apply core_sems|done].
    + intros a. etrans; [by apply core_mutexes|done].
  - split; [| | |].
    + intros j Hj. apply (fit_vitals (if decide (i = j) then repoliced policy now (T w j) else T w j)).
      * rewrite (F _ vitals) by done. by case_decide.
      * case_decide; [|done]. subst. by apply fit_repoliced.
    + intros j. by apply Hfree.
    + rewrite (F _ (λ t, spec (t_budget t))) by done. by rewrite decide_False.
    + by apply (S _ standing).
  - apply (tickets_same w); [by apply (S _ s_next_switch_sequence)|by apply (S _ s_last_consumed_switch_sequence)
      |by apply (S _ s_pending_switch)|apply Hs].
  - intros j Hj Hne Hst. assert (current w' = current w) as Ec by (by apply (S _ s_current)). rewrite Ec in Hne.
    rewrite (F _ t_saved_frame) by done. rewrite Hfree in Hst. case_decide; [rewrite (proj2 (repoliced_kept _ _ _))|];
      by apply (system_saved c w Hs).
  - apply owners_from_core. intros a. etrans; [by apply core_mutexes|done].
Qed.
