(* ===== verification/Reach.v ===== *)
(** * Every reachable state

    The critical sections of the runtime as the events of one transition system, from
    [init] on: threads call the operations of the driver, interrupts come at any time,
    and the trap epilogue moves the hart. Whatever their order, the invariant of
    [System.v] holds between any two of them, and none of them panics or hangs. (The
    sections of [execute_switch] itself are added in [Threads.v].) *)

From stdpp Require Import sorting.
From S2P Require Import Prelude Effects Budget Contract Config Context Reservation.
From S2P Require Import Tcb Store Chain Ready Wait Switch Invariant Dispatch Inherit Donation Sync.
From S2P Require Import Moves Permit Slide Lean Handoff Mutex Lock Acquire Exclusion.
From S2P Require Import Timer Frame Touch Wake Slots Statics Deadlines Tasks Driver Birth Start Leave Fit System Upkeep Policy.

(** ** The start *)

Lemma system_starting n c w im idle_top tp fcsr now :
  starting n w (main_task now) (idle_task im true idle_top tp fcsr now) → s_started (w_sched w) = true →
  Z.of_nat n <= 255 → capacity_ok c → 272 < idle_top → system c w.
Proof.
  intros Hst Hs Hn Hc Ht. pose proof (started_T n w im true idle_top tp fcsr now Hst) as HT.
  assert (current w = 0) as Hcur by apply Hst. assert (w_mutexes w = ∅) as Hm by apply Hst.
  split.
  - eexists. by eapply started_kernel.
  - by eapply started_tickets.
  - intros i Hi Hne Hlive. rewrite HT in Hlive |- *. rewrite Hcur in Hne. repeat case_decide; try done. cbn. lia.
  - by eapply started_slots.
  - apply Hst.
  - intros i _. rewrite HT. repeat case_decide; [|split; done|apply fit_empty]. split; try done.
  - intros a st. by rewrite Hm, lookup_empty.
  - rewrite HT. done.
  - done.
  - by rewrite (proj1 (starting_retired n w _ _ Hst)).
  - left. apply (starting_retired n w _ _ Hst).
Qed.

(** ** Events *)

Inductive event :=
| NewSemaphore (a count : Z)
| NewMutex (a : Z)
| DestroySemaphore (a : Z)
| DestroyMutex (a : Z)
| UpSemaphore (a now interrupt_depth : Z)
| DownSemaphore (a timeout_ms deadline : Z)
| DownForever (a : Z)
| ConsumeSemaphore
| LockMutex (a timeout_ms deadline : Z)
| UnlockMutex (a now interrupt_depth : Z)
| ConsumeMutex
| CancelWait (i now : Z)
| LockScheduler (now : Z)
| UnlockScheduler (now : Z)
| SleepUntil (wake_at : Z)
| YieldNow (now : Z)
| TaskExit
| SpawnTask (reservation : option TaskReservation) (stack size entry arg priority : Z) (policy : RunPolicy) (now : Z)
| ReclaimStacks
| SetPriority (task : TaskId) (priority : Z)
| SetRunPolicy (task : TaskId) (policy : RunPolicy) (now : Z)
| AdmitSlots (required : Z)
| AdmitResources (required : TaskResourceRequirements) (stacks : list Z)
| AdmitPlan (plan : TaskResourcePlan) (stacks : list (list Z))
| ReleaseAdmission (reservation : TaskReservation)
| InterruptEnter (now : Z)
| InterruptExit (now : Z)
| SoftwareInterrupt
| TimerInterrupt (now lock_limit : Z)
| RearmTimer (now lock_limit : Z) (embassy : option Z)
| TrapEpilogue (frame interrupt_depth now : Z)
| ReadTask (i : Z)
| ReadStackSize (reservation : TaskReservation).

Section Transitions.
  #[local] Set Default Proof Using "Type".
  Context (im : Image) (tp fcsr : Z) (n : nat) (c idle_top start : Z).

(** The critical section of an event. *)
Definition exec (e : event) : M World unit :=
  match e with
  | NewSemaphore a count => modify (with_sem a count)
  | NewMutex a => modify (with_mtx a)
  | DestroySemaphore a => _ ← destroy_semaphore_locked a; mret tt
  | DestroyMutex a => _ ← destroy_mutex_locked a; mret tt
  | UpSemaphore a now depth => _ ← up a now depth; mret tt
  | DownSemaphore a timeout_ms deadline => _ ← down_timeout true true a timeout_ms deadline; mret tt
  | DownForever a => _ ← down true true a; mret tt
  | ConsumeSemaphore => current ← sched_gets s_current; _ ← consume_semaphore_grant_locked current; mret tt
  | LockMutex a timeout_ms deadline => _ ← lock true true a timeout_ms deadline; mret tt
  | UnlockMutex a now depth => _ ← unlock a now depth; mret tt
  | ConsumeMutex => _ ← consume_mutex_grant_locked; mret tt
  | CancelWait i now => _ ← cancel_wait_locked i now; mret tt
  | LockScheduler now => _ ← lock_current now; mret tt
  | UnlockScheduler now => _ ← unlock_scheduler_locked true now; mret tt
  | SleepUntil wake_at => _ ← sleep_locked true wake_at; mret tt
  | YieldNow now => _ ← yield_locked true now; mret tt
  | TaskExit => _ ← exit_locked true; mret tt
  | SpawnTask reservation stack size entry arg priority policy now =>
      _ ← spawn_locked im true tp fcsr reservation c stack size entry arg priority policy now; mret tt
  | ReclaimStacks => _ ← take_retired_stacks; mret tt
  | SetPriority task priority => _ ← set_task_priority_locked task priority; mret tt
  | SetRunPolicy task policy now => _ ← set_run_policy_locked task policy now; mret tt
  | AdmitSlots required => _ ← reserve_dynamic_slots_with_capacity required c; mret tt
  | AdmitResources required stacks => _ ← reserve_dynamic_task_resources_with_capacity required stacks c; mret tt
  | AdmitPlan plan stacks => _ ← reserve_dynamic_task_resource_plan_with_capacity plan stacks c; mret tt
  | ReleaseAdmission reservation => _ ← release_task_reservation reservation; mret tt
  | InterruptEnter now => interrupt_enter_sched now
  | InterruptExit now => interrupt_exit_sched now
  | SoftwareInterrupt => bump d_software_interrupts
  | TimerInterrupt now limit => _ ← on_timer_interrupt now limit; mret tt
  | RearmTimer now limit embassy => _ ← timer_deadline now limit embassy; mret tt
  | TrapEpilogue frame depth now => _ ← schedule_from_trap frame depth now; mret tt
  | ReadTask i => _ ← task_at i; mret tt
  | ReadStackSize reservation => _ ← reservation_stack_size reservation; mret tt
  end.

(** A thread that runs and has consumed its last grant. *)
Record thread (w : World) : Prop := {
  thread_running : t_state (T w (current w)) = Running;
  thread_not_idle : current w ≠ IDLE_SLOT;
  thread_sequence : sequence_of w < u64_max;
  thread_grants : t_granted_sem (T w (current w)) = 0 ∧ t_granted_mutex (T w (current w)) = 0;
}.

Lemma thread_may_block w : system c w → thread w → may_block w.
Proof.
  intros Hs [H1 H2 H3 H4]. destruct (system_kernel c w Hs) as [q Hk]. pose proof (kernel_owned w q None Hk) as Ho.
  split; try done. assert (slot_in (current w)) as Hc by (by eapply owned_slot_current).
  by apply (placed_running w q None _ (owned_placed w q None (proj2 Ho) _ Hc)).
Qed.

(** What the callers of the critical sections guarantee: objects and tasks exist, a thread
    calls while it runs and has consumed its last grant, counters of 2^31 permits and
    2^64 tickets do not run out, an exiting task has given its mutexes back, and
    clocks and stacks are real. *)
Definition legal (w : World) (e : event) : Prop :=
  match e with
  | NewSemaphore a count => w_sems w !! a = None ∧ a ≠ 0 ∧ 0 <= count <= i32_max
  | NewMutex a => w_mutexes w !! a = None ∧ a ≠ 0
  | DestroySemaphore a => is_Some (w_sems w !! a)
  | DestroyMutex a => is_Some (w_mutexes w !! a)
  | UpSemaphore a _ _ => is_Some (w_sems w !! a) ∧ permits w a < i32_max
  | DownSemaphore a _ _ => is_Some (w_sems w !! a) ∧ thread w
  | DownForever a => is_Some (w_sems w !! a) ∧ thread w
  | ConsumeSemaphore => t_granted_mutex (T w (current w)) = 0
  | LockMutex a _ _ => is_Some (w_mutexes w !! a) ∧ thread w
  | UnlockMutex a _ _ => is_Some (w_mutexes w !! a) ∧ t_state (T w (current w)) = Running ∧
      t_granted_mutex (T w (current w)) = 0
  | ConsumeMutex => t_granted_sem (T w (current w)) = 0
  | CancelWait i _ => slot_in i
  | LockScheduler _ => True
  | UnlockScheduler now => thread w ∧ time_ok now
  | SleepUntil wake_at => thread w ∧ wake_at ≠ 0
  | YieldNow now => t_state (T w (current w)) = Running ∧ sequence_of w < u64_max ∧ time_ok now
  | TaskExit => thread w ∧ lock_depth w = 0 ∧ (∀ a st, w_mutexes w !! a = Some st → mtx_owner st ≠ current w) ∧
      (t_stack (T w (current w)) ≠ 0 → s_retired_count (w_sched w) < TASK_SLOT_COUNT)
  | SpawnTask reservation stack size _ _ priority policy now =>
      may_spawn w reservation stack size priority policy ∧ time_ok now
  | ReclaimStacks => True
  | SetPriority task priority => 0 <= task <= u32_max ∧ 0 <= priority < PRIORITY_LEVELS
  | SetRunPolicy task policy now => 0 <= task <= u32_max ∧ (∀ g, decode_task_id task ≠ Ok (IDLE_SLOT, g)) ∧
      RunPolicy_wf policy ∧ time_ok now
  | AdmitSlots required => 1 <= required
  | AdmitResources required stacks => 1 <= required.(task_slots) ∧ stacks_for required.(task_slots) stacks
  | AdmitPlan plan stacks => plan_wf plan ∧ plan_stacks_ok plan stacks
  | ReleaseAdmission _ => True
  | InterruptEnter _ => s_irq_task (w_sched w) = NIL
  | InterruptExit _ => True
  | SoftwareInterrupt => True
  | TimerInterrupt now _ => time_ok now
  | RearmTimer _ _ _ => True
  | TrapEpilogue frame _ now => frame ≠ 0 ∧ time_ok now
  | ReadTask i => slot_in i
  | ReadStackSize _ => True
  end.

(** The states between two critical sections. *)
Inductive reachable : World → Prop :=
| reach_start w :
    init_locked im true idle_top tp fcsr start (World_new n) = Done (tt, w) → reachable w
| reach_step w e w' : reachable w → legal w e → exec e w = Done (tt, w') → reachable w'.

(** ** Every event keeps the invariant *)

Lemma system_new_semaphore w a count :
  system c w → w_sems w !! a = None → a ≠ 0 → 0 <= count <= i32_max → system c (with_sem a count w).
Proof.
  intros Hs Ha Hne Hn. destruct (system_kernel c w Hs) as [q [Hsem Hinh Hmu]].
  apply (system_step c w); [done| |by split|by intros j| | |by apply owners_from_same].
  - exists q. split; [by apply semaphores_with_sem| |].
    + by apply (inheritance_same w).
    + by apply (mutexes_same w _ q q).
  - apply (tickets_same w); [done..|apply Hs].
  - apply (system_saved c w Hs).
Qed.

Lemma system_new_mutex w a :
  system c w → w_mutexes w !! a = None → a ≠ 0 → system c (with_mtx a w).
Proof.
  intros Hs Ha Hne. destruct (system_kernel c w Hs) as [q Hk].
  apply (system_step c w); [done|exists q; by apply kernel_with_mtx|by split|by intros j| | |].
  - apply (tickets_same w); [done..|apply Hs].
  - apply (system_saved c w Hs).
  - intros b st Hb Hn. unfold with_mtx in Hb. cbn in Hb. apply lookup_insert_Some in Hb as [[<- <-]|[_ Hb]]; [done|].
    right. by exists st.
Qed.

(** Waiting for a permit forever is waiting with no deadline. *)
Lemma down_forever ported delivery a w :
  down ported delivery a w = (r ← down_timeout ported delivery a 1 0;
    mret (match r with Ok (_, i) => Ok i | Err e => Err e end)) w.
Proof.
  unfold down, down_timeout, sem_at, set_sem, try_bind, mbind, M_bind, gets, modify. cbn.
  destruct (w_sems w !! a) as [st|] eqn:E; [|done]. cbn. destruct (0 <? sem_count st); cbn.
  - by destruct (sem_at a w) as [[s w1]|].
  - destruct delivery; cbn; [|done]. destruct (current_switch_guard w) as [[[i|e] w1]|]; cbn; [|done..].
    by destruct (block_on_semaphore ported a i 0 w1) as [[x w2]|].
Qed.

Lemma system_down_forever w a st :
  system c w → w_sems w !! a = Some st → may_block w → wp (down true true a) (λ _ w', system c w') w.
Proof.
  intros Hs Hst Hmay. unfold wp. rewrite down_forever. apply wp_bind.
  wp_apply (system_down c w a st true 1 0 Hs Hst Hmay). intros r w' H. by go.
Qed.

Lemma stack_size_pure r t (Q : result DriverError (option Z) → ReservationTable → Prop) :
  (∀ a, Q a t) → wp (stack_size r) Q t.
Proof.
  intros HQ. unfold stack_size, resolve. wp_steps. apply wp_resolve_slot.
  destruct (token_slot t r) as [slot|] eqn:E; wp_steps; [|done].
  apply token_slot_Some in E as (e & He & _). eapply wp_entry_at; [done|]. by wp_steps.
Qed.

Lemma exec_system w e :
  capacity_ok c → system c w → legal w e → wp (exec e) (λ _ w', system c w') w.
Proof.
  intros Hc Hs Hl.
  assert (∀ A (m : M World A), wp m (λ _ w', system c w') w → wp (_ ← m; mret tt) (λ _ w', system c w') w) as Hop.
  { intros A m H. apply wp_bind. eapply wp_mono; [|exact H]. intros. by go. }
  assert (slot_in (current w)) as Hcur.
  { destruct (system_kernel c w Hs) as [q Hk]. eapply owned_slot_current, kernel_owned, Hk. }
  pose proof (thread_may_block w Hs) as Hmay.
  destruct e; cbn [exec legal] in *; try (apply Hop).
  - destruct Hl as (? & ? & ?). apply wp_modify. by apply system_new_semaphore.
  - destruct Hl. apply wp_modify. by apply system_new_mutex.
  - destruct Hl as [st Hst]. by eapply system_destroy_sem.
  - destruct Hl as [st Hst]. by eapply system_destroy_mtx.
  - destruct Hl as [[st Hst] ?]. by eapply system_up.
  - destruct Hl as [[st Hst] ?%Hmay]. by eapply system_down.
  - destruct Hl as [[st Hst] ?%Hmay]. by eapply system_down_forever.
  - exact (system_consume_sem c w (current w) Hs Hcur Hl).
  - destruct Hl as [[st Hst] ?%Hmay]. by eapply system_lock.
  - destruct Hl as ([st Hst] & ? & ?). by eapply system_unlock.
  - by apply system_consume_mutex.
  - by apply system_cancel.
  - by apply system_lock_current.
  - destruct Hl as [?%Hmay ?]. eapply wp_mono; [|by apply system_unlock_scheduler]. by intros r w' [].
  - destruct Hl as [?%Hmay ?]. by apply system_sleep.
  - destruct Hl as (? & ? & ?). by apply system_yield.
  - destruct Hl as (?%Hmay & ? & ? & ?). by apply system_exit.
  - destruct Hl. by apply system_spawn.
  - by apply system_reclaim.
  - destruct Hl. by apply system_set_priority.
  - destruct Hl as (? & ? & ? & ?). by apply system_set_run_policy.
  - by apply system_reserve.
  - destruct Hl. by apply system_reserve_resources.
  - destruct Hl. by apply system_reserve_plan.
  - by apply system_release_reservation.
  - wp_apply (system_interrupt_enter c w now Hs Hl). by intros _ w' [].
  - wp_apply (system_interrupt_exit c w now Hs). by intros _ w' [].
  - apply wp_sched_modify. by apply system_sched.
  - by apply system_tick.
  - by apply system_rearm.
  - destruct Hl. by apply system_trap.
  - destruct (system_kernel c w Hs) as [q Hk]. by apply wp_task_at; [eapply owned_shape, kernel_owned|..].
  - apply wp_with_reservations, stack_size_pure. intros r. by rewrite set_reservations_same.
Qed.

Lemma reachable_system w :
  Z.of_nat n <= 255 → capacity_ok c → 272 < idle_top → reachable w → system c w.
Proof.
  intros Hn Hc Ht. induction 1 as [w Hw|w e w' _ IH Hl He].
  - pose proof (init_spec n im true idle_top tp fcsr start ltac:(lia)) as H. unfold wp in H. rewrite Hw in H.
    destruct H as [H1 H2]. by eapply system_starting.
  - pose proof (exec_system w e Hc IH Hl) as H. unfold wp in H. by rewrite He in H.
Qed.



(** A reachable store and the events after which it is one. *)
Lemma reachable_exec w e :
  Z.of_nat n <= 255 → capacity_ok c → 272 < idle_top → reachable w → legal w e →
  ∃ w', exec e w = Done (tt, w') ∧ reachable w'.
Proof.
  intros Hn Hc Ht Hw Hl. pose proof (exec_system w e Hc (reachable_system w Hn Hc Ht Hw) Hl) as H. unfold wp in H.
  destruct (exec e w) as [[[] w']|] eqn:E; [|done]. exists w'. split; [done|]. by eapply reach_step.
Qed.
(** A sequence of legal events. *)
Fixpoint legal_run (es : list event) (w : World) : Prop :=
  match es with
  | [] => True
  | e :: es => legal w e ∧ match exec e w with Done (_, w') => legal_run es w' | Fault _ => False end
  end.

Lemma reachable_run es w : reachable w → legal_run es w → wp (for_each es exec) (λ _ w', reachable w') w.
Proof.
  revert w. induction es as [|e es IH]; intros w Hw Hl; cbn [for_each]; [by go|].
  destruct Hl as [Hl Hrun]. apply wp_bind. unfold wp. destruct (exec e w) as [[[] w']|] eqn:E; [|done].
  apply IH; [by eapply reach_step|done].
Qed.

End Transitions.

(** A semaphore, a second task, an interrupt, a wait that hands the hart over, a post. *)
Definition witness_events : list event := [
  NewSemaphore 64 0; NewMutex 128;
  SpawnTask None 131072 4096 77 99 7 (Preemptive 10) 6;
  InterruptEnter 7; TimerInterrupt 7 100; InterruptExit 8;
  LockMutex 128 100 108; DownSemaphore 64 1000 1008; TrapEpilogue 5000 0 9;
  LockMutex 128 100 110; TrapEpilogue 6000 0 10; TimerInterrupt 1008 100; TrapEpilogue 7000 0 1009].

Definition witness_start : World := match init_locked witness_image true 16384 0 0 5 (World_new 4) with
  Done (_, w) => w | Fault _ => World_new 4 end.


Lemma witness_started : init_locked witness_image true 16384 0 0 5 (World_new 4) = Done (tt, witness_start).
Proof. by vm_compute. Qed.

Lemma witness_legal : legal_run witness_image 0 0 14 witness_events witness_start.
Proof. vm_compute. repeat first [ (intros; discriminate) | split | (eexists; reflexivity) | done ]. Qed.

(** ** Priorities *)

(** C14: The priority-inheritance rule (RTOS-MUTEX-001). In every state that any
    interleaving of locks, unlocks, timeouts, cancellations, exits, priority changes and
    all the other critical sections reaches, a task runs at exactly the best of its base
    priority and the effective priorities of the tasks that wait for a mutex it owns --
    so through a chain of owners no owner is ever less urgent than anyone behind it --
    and the per-priority counters, which the code adds to and takes from instead of
    looking at the waiters, are exact, at most one per task, so they never wrap. *)
Theorem effective_priority_rule (im : Image) (tp fcsr : Z) (n : nat) (c idle_top start : Z) (w : World) (o : Z) :
  Z.of_nat n <= 255 → capacity_ok c → 272 < idle_top → reachable im tp fcsr n c idle_top start w → slot_in o →
  t_priority (T w o) <= t_base_priority (T w o) ∧
  (∀ i, slot_in i → owner_of w i = o → t_priority (T w o) <= t_priority (T w i)) ∧
  (t_priority (T w o) = t_base_priority (T w o) ∨
   ∃ i, slot_in i ∧ owner_of w i = o ∧ t_priority (T w i) = t_priority (T w o)) ∧
  (∀ i, tc (waits_for w) i o → t_priority (T w o) <= t_priority (T w i)) ∧
  (∀ p, 0 <= p < PRIORITY_LEVELS → ∃ c, idx (t_inherited_waiters (T w o)) p = Some c ∧ 0 <= c <= 17 ∧
    c = Z.of_nat (length (filter (λ i, owner_of w i = o ∧ t_priority (T w i) = p) slots))).
Proof.
  intros Hn Hc Ht Hw Ho. destruct (system_kernel c w) as [q Hk]; [by eapply reachable_system|].
  by apply (effective_priorities w q None).
Qed.

(** The main task owns the mutex a more urgent task has just asked for. *)
Definition donating_events : list event := take 10 witness_events.

Definition donating_world : World :=
  match for_each donating_events (exec witness_image 0 0 14) witness_start with Done (_, w) => w | Fault _ => witness_start end.

Lemma donating_legal : legal_run witness_image 0 0 14 donating_events witness_start.
Proof. vm_compute. repeat first [ (intros; discriminate) | split | (eexists; reflexivity) | done ]. Qed.

Lemma donating_done : for_each donating_events (exec witness_image 0 0 14) witness_start = Done (tt, donating_world).
Proof. by vm_compute. Qed.

Lemma wp_outcome {A} (m : M World A) (Q : A → World → Prop) w a w' : m w = Done (a, w') → wp m Q w → Q a w'.
Proof. unfold wp. by intros ->. Qed.

Lemma donating_reachable : reachable witness_image 0 0 4 14 16384 5 donating_world.
Proof.
  apply (wp_outcome _ (λ _ w, reachable witness_image 0 0 4 14 16384 5 w) _ _ _ donating_done).
  apply reachable_run; [apply reach_start, witness_started|exact donating_legal].
Qed.

Lemma donating_owner : owner_of donating_world 2 = 0.
Proof. by vm_compute. Qed.

Lemma donating_priority : (t_priority (T donating_world 0), t_base_priority (T donating_world 0)) = (7, 31).
Proof. by vm_compute. Qed.

Lemma effective_priority_rule_witness :
  (t_priority (T donating_world 0), t_base_priority (T donating_world 0)) = (7, 31) ∧
  t_priority (T donating_world 0) <= t_priority (T donating_world 2).
Proof.
  split; [exact donating_priority|].
  assert (slot_in 0 ∧ slot_in 2) as [H0 H2] by done.
  destruct (effective_priority_rule witness_image 0 0 4 14 16384 5 donating_world 0) as (_ & H & _);
    [done|done|done|exact donating_reachable|exact H0|]. apply H; [exact H2|exact donating_owner].
Defined.
