(* ===== verification/Threads.v ===== *)
(** * Threads inside [execute_switch]

    A thread that gives up the hart does so in several critical sections: one that
    promises the hart to another task, one that checks the promise, and one it repeats
    until it is back. Interrupts and other tasks run between them. Here every task slot
    carries the place its thread has reached, the sections of [execute_switch]
    ([src/runtime.rs]) are events of their own beside those of [Reach.v], and the
    outcome of each is known in every reachable state. *)

From S2P Require Import Prelude Effects Budget Contract Config Context Reservation.
From S2P Require Import Tcb Store Chain Ready Wait Switch Invariant Dispatch Inherit Donation Sync.
From S2P Require Import Moves Permit Slide Lean Handoff Mutex Lock Acquire Exclusion.
From S2P Require Import Timer Frame Touch Wake Slots Statics Tasks Driver Birth Start Leave Fit System Upkeep Policy Reach.

(** ** Threads *)

(** A thread runs its own code, has an intent to check, or waits to be dispatched. *)
Inductive phase :=
| Own
| Delivering (intent : SwitchIntent)
| Awaiting (intent : SwitchIntent).

Definition waiting (p : phase) : option SwitchIntent :=
  match p with Own => None | Delivering i => Some i | Awaiting i => Some i end.

(** The scheduler and the phase of the thread in every slot. *)
Record Threads := mkThreads {
  th_world : World;
  th_phase : Z → phase;
}.

(** What a critical section hands back to the code around it. *)
Inductive effect :=
| Nothing
| Handoff (intent : SwitchIntent)
| Born (slot : Z).

Definition set_phase (j : Z) (p : phase) (ph : Z → phase) : Z → phase := λ k, if decide (k = j) then p else ph k.

Inductive step :=
| Enter (e : event)
| Deliver
| Return.

Section Steps.
  #[local] Set Default Proof Using "Type".
  Context (im : Image) (tp fcsr : Z) (n : nat) (c idle_top start : Z).

(** The critical section of an event with its result. *)
Definition section (e : event) : M World effect :=
  match e with
  | DownSemaphore a timeout_ms deadline =>
      r ← down_timeout true true a timeout_ms deadline;
      mret (match r with Ok (_, Some i) => Handoff i | _ => Nothing end)
  | DownForever a =>
      r ← down true true a; mret (match r with Ok (Some i) => Handoff i | _ => Nothing end)
  | LockMutex a timeout_ms deadline =>
      r ← lock true true a timeout_ms deadline;
      mret (match r with Ok (_, Some i) => Handoff i | _ => Nothing end)
  | UnlockScheduler now =>
      r ← unlock_scheduler_locked true now; mret (match r with Ok (Some i) => Handoff i | _ => Nothing end)
  | SleepUntil wake_at => r ← sleep_locked true wake_at; mret (match r with Ok i => Handoff i | Err _ => Nothing end)
  | YieldNow now => r ← yield_locked true now; mret (match r with Ok (Some i) => Handoff i | _ => Nothing end)
  | TaskExit => i ← exit_locked true; mret (Handoff i)
  | SpawnTask reservation stack size entry arg priority policy now =>
      r ← spawn_locked im true tp fcsr reservation c stack size entry arg priority policy now;
      mret (match r with Ok i => Born i | Err _ => Nothing end)
  | _ => exec im tp fcsr c e ;; mret Nothing
  end.

Definition in_store {A} (m : M World A) : M Threads A := zoom th_world (λ w s, mkThreads w (th_phase s)) m.

Definition become (j : Z) (p : phase) : M Threads unit := modify (λ s, mkThreads (th_world s) (set_phase j p (th_phase s))).

(** What the thread [j] does with the result: an intent goes to [execute_switch]; a new
    task has a thread that starts afresh. *)
Definition follow (j : Z) (x : effect) : M Threads unit :=
  match x with
  | Nothing => mret tt
  | Handoff i => become j (Delivering i)
  | Born i => become i Own
  end.

(** One critical section: of an event, of the check in [execute_switch], of one round of
    its loop. *)
Definition act (s : step) : M Threads unit :=
  current ← gets (λ s, s_current (w_sched (th_world s)));
  p ← gets (λ s, th_phase s current);
  match s, p with
  | Enter e, _ => x ← in_store (section e); follow current x
  | Deliver, Delivering i =>
      if ref_slot (si_target i) =? ref_slot (si_previous i)
      then in_store (resume_self (ref_slot (si_target i))) ;; become current Own
      else in_store (delivery_section i) ;; become current (Awaiting i)
  | Return, Awaiting i =>
      back ← in_store (resumed (ref_slot (si_previous i)) (si_previous_resume_generation i));
      when back (become current Own)
  | _, _ => mret tt
  end.

(** The sections that may give up the hart. *)
Definition giving_up (e : event) : bool :=
  match e with
  | DownSemaphore _ _ _ | DownForever _ | LockMutex _ _ _ | UnlockScheduler _ | SleepUntil _ | YieldNow _ | TaskExit => true
  | _ => false
  end.

Definition is_trap (e : event) : bool := match e with TrapEpilogue _ _ _ => true | _ => false end.

(** No dispatch brings the counter of a waiting thread back to where it was. *)
Definition unwrapped (s : Threads) : bool := forallb (λ j, match waiting (th_phase s j) with
  | Some i => negb (wrapping_add u32_max (t_resume_generation (T (th_world s) j)) 1 =? si_previous_resume_generation i)
  | None => true
  end) slots.

(** A thread inside [execute_switch] calls nothing that gives up the hart again, and is
    not dispatched 2^32 times before it looks. *)
Definition may (s : Threads) (x : step) : Prop :=
  let w := th_world s in
  match x with
  | Enter e => legal w e ∧ (giving_up e = true → th_phase s (current w) = Own) ∧
      (is_trap e = true → unwrapped s = true)
  | Deliver => ∃ i, th_phase s (current w) = Delivering i
  | Return => ∃ i, th_phase s (current w) = Awaiting i
  end.

(** The states between two critical sections. *)
Inductive attainable : Threads → Prop :=
| attain_start w :
    init_locked im true idle_top tp fcsr start (World_new n) = Done (tt, w) → attainable (mkThreads w (λ _, Own))
| attain_step s x s' : attainable s → may s x → act x s = Done (tt, s') → attainable s'.

Lemma section_exec e w : exec im tp fcsr c e w = (_ ← section e; mret tt) w.
Proof.
  assert (∀ A (m : M World A) (f : A → effect), (_ ← m; mret tt) w = (_ ← (a ← m; mret (f a)); mret tt) w) as H.
  { intros A m f. unfold mbind, M_bind. by destruct (m w) as [[a w']|]. }
  assert (∀ m : M World unit, m w = (_ ← (m ;; mret Nothing); mret tt) w) as H'.
  { intros m. unfold mbind, M_bind. by destruct (m w) as [[[] w']|]. }
  destruct e; cbn [section exec]; first [apply H | apply H'].
Qed.

End Steps.

(** ** What a section leaves alone *)

(** The hart, the resumption counters and the frames stay, and nobody exits; with [b], the
    pending ticket stays too. *)
Record stays (b : bool) (w w' : World) : Prop := {
  stays_current : current w' = current w;
  stays_generation j : t_resume_generation (T w' j) = t_resume_generation (T w j);
  stays_frame j : t_saved_frame (T w' j) = t_saved_frame (T w j);
  stays_alive j : t_state (T w' j) = Free → t_state (T w j) = Free;
  stays_pending : b = true → pending w' = pending w;
}.

#[export] Instance stays_preorder b : PreOrder (stays b).
Proof.
  split; [by split|]. intros w1 w2 w3 [A1 B1 C1 D1 E1] [A2 B2 C2 D2 E2].
  split; intros; [congruence|by rewrite B2|by rewrite C2|auto|by rewrite E2, E1].
Qed.

Record staying (g : Tcb → Tcb) : Prop := {
  staying_generation t : t_resume_generation (g t) = t_resume_generation t;
  staying_frame t : t_saved_frame (g t) = t_saved_frame t;
  staying_alive t : t_state (g t) = Free → t_state t = Free;
}.

#[export] Program Instance stays_footprint b : Footprint (stays b) := {
  allowed _ g := staying g;
}.
Next Obligation.
  intros b i g w [H1 H2 H3]. split; [done|intros j; by apply T_upd_field..|intros j|done].
  destruct (decide (j = i)) as [->|Hne]; [|intros H; revert H; unfold T; simpl; by rewrite at_alter_ne].
  unfold T. simpl. unfold at_. rewrite idx_alter_eq. destruct (idx _ i); simpl in *; [by apply H3|done].
Qed.
Next Obligation. by split. Qed.
Next Obligation. intros b id v w. split; try (by destruct id); intros j; by destruct id. Qed.
Next Obligation. intros b id v w. split; try (by destruct id); intros j; by destruct id. Qed.
Next Obligation. by split. Qed.

#[export] Instance stays_walk b : WalkFootprint (stays b).
Proof. split; by split. Qed.

#[export] Instance stays_objects b : ObjectFootprint (stays b).
Proof. by split. Qed.

Lemma stays_sched b g w :
  (∀ s, s_tasks (g s) = s_tasks s) → (∀ s, s_current (g s) = s_current s) →
  (b = true → ∀ s, s_pending_switch (g s) = s_pending_switch s) → stays b w (w <| w_sched ::= g |>).
Proof.
  intros H1 H2 H3. assert (∀ j, T (w <| w_sched ::= g |>) j = T w j) as E by (intros j; unfold T; simpl; by rewrite H1).
  split; intros; rewrite ?E in *; try done; [apply H2|by apply H3].
Qed.

Lemma stays_reservations b {A} (m : M ReservationTable A) : keeps (stays b) (with_reservations m).
Proof.
  intros w. unfold with_reservations, zoom. destruct (m _) as [[a t]|]; [|done]. by apply stays_sched.
Qed.

Ltac stay :=
  repeat first
    [ match goal with
      | |- keeps (stays ?b) (sched_modify _) => apply (keeps_modify (stays b)); intros ?; by apply stays_sched
      | |- keeps (stays ?b) (with_reservations _) => apply (stays_reservations b)
      | |- keeps (stays ?b) (modify _) => apply (keeps_modify (stays b)); intros ?; by split
      | |- keeps (stays ?b) (make_ready _ _) => apply (keeps_make_ready (stays b))
      | |- keeps (stays ?b) (for_waiters _ _ _) => apply (keeps_for_waiters (stays b)); intros ?
      | |- allowed _ _ => solve [split; first [done | by intros []]]
      end
    | keep1 ].

Lemma stays_timeout_mutex b i now : keeps (stays b) (timeout_mutex_waiter i now).
Proof. unfold timeout_mutex_waiter, remove_mutex_waiter. stay. Qed.

Lemma stays_timeout_semaphore b i now : keeps (stays b) (timeout_semaphore_waiter_locked i now).
Proof. unfold timeout_semaphore_waiter_locked, remove_waiter. stay. Qed.

Lemma stays_replenish_task b now i : keeps (stays b) (replenish_task now i).
Proof. unfold replenish_task. stay. Qed.
#[export] Hint Resolve stays_timeout_mutex stays_timeout_semaphore stays_replenish_task : keeps.

Lemma stays_wake_task b now i : keeps (stays b) (wake_task now i).
Proof. unfold wake_task. stay. Qed.
#[export] Hint Resolve stays_wake_task : keeps.

Lemma stays_wake_sleepers b now : keeps (stays b) (wake_sleepers now).
Proof. unfold wake_sleepers, replenish_budgets. stay. Qed.

Lemma stays_refresh b i depth : keeps (stays b) (refresh_inherited_priority i depth).
Proof. apply (keeps_refresh (stays b)). Qed.

Lemma stays_live_task b t : keeps (stays b) (live_task t).
Proof. unfold live_task. stay. Qed.

Lemma stays_release b a now : keeps (stays b) (release_semaphore_locked a now).
Proof. unfold release_semaphore_locked. stay. Qed.

Lemma stays_release_mutex b a o now : keeps (stays b) (release_mutex_locked a o now).
Proof. unfold release_mutex_locked. stay. Qed.

Lemma stays_available b c : keeps (stays b) (available_slots c).
Proof. unfold available_slots, count_free, dynamic_slot_end, promised_total. stay. Qed.
#[export] Hint Resolve stays_wake_sleepers stays_refresh stays_live_task stays_release stays_release_mutex stays_available : keeps.

Lemma stays_cancel b i now : keeps (stays b) (cancel_wait_locked i now).
Proof. unfold cancel_wait_locked, cancel_semaphore_wait_locked, remove_waiter, remove_mutex_waiter. stay. Qed.

Lemma stays_on_timer b now limit : keeps (stays b) (on_timer now limit).
Proof. unfold on_timer, count_exhaustion. stay. Qed.

Lemma stays_set_run_policy b i policy now : keeps (stays b) (set_run_policy i policy now).
Proof. unfold set_run_policy. stay. Qed.

Lemma stays_timer_deadline b now limit embassy : keeps (stays b) (timer_deadline now limit embassy).
Proof.
  unfold timer_deadline, earliest_wake_deadline, next_dispatch_deadline, next_time_slice_deadline, has_equal_priority_ready,
    earliest_budget_deadline, scheduler_lock_deadline, ready_priority, set_slice_deadline. stay.
Qed.
#[export] Hint Resolve stays_cancel stays_on_timer stays_set_run_policy stays_timer_deadline : keeps.

(** The sections that move the hart, promise it or change slots. *)
Definition moves_hart (e : event) : bool :=
  match e with
  | TrapEpilogue _ _ _ | SpawnTask _ _ _ _ _ _ _ _ => true
  | _ => giving_up e
  end.

Lemma stays_exec im tp fcsr c e : moves_hart e = false → keeps (stays true) (exec im tp fcsr c e).
Proof.
  intros He. destruct e; cbn in He; try discriminate He; clear He; cbn [exec].
  all: unfold destroy_semaphore_locked, pending_grant, destroy_mutex_locked, up, consume_semaphore_grant_locked, unlock,
      consume_mutex_grant_locked, lock_current, take_retired_stacks, set_task_priority_locked, set_run_policy_locked,
      reserve_dynamic_slots_with_capacity, reserve_dynamic_task_resources_with_capacity,
      reserve_dynamic_task_resource_plan_with_capacity, release_task_reservation, reservation_stack_size,
      interrupt_enter_sched, interrupt_exit_sched, on_timer_interrupt.
  all: stay.
Qed.

Lemma stays_prepare p t : keeps (stays false) (prepare_switch true p t).
Proof.
  unfold prepare_switch, prepare_committed_switch_intent, prepare_switch_intent, commit_switch_intent, task_ref,
    task_ref_is_current, recover_completed_switch_request, restore_detached_switch_target. stay.
Qed.

Lemma stays_switch_away p g : keeps (stays false) (prepare_switch_away_locked true p g).
Proof.
  unfold prepare_switch_away_locked, prepare_switch_away_decision, prepare_switch_intent, commit_switch_intent, task_ref,
    task_ref_is_current, recover_completed_switch_request, restore_detached_switch_target. stay.
Qed.
#[export] Hint Resolve stays_prepare stays_switch_away : keeps.

Lemma stays_giving_up im tp fcsr c e : giving_up e = true → e ≠ TaskExit → keeps (stays false) (exec im tp fcsr c e).
Proof.
  intros He Hne. destruct e; cbn in He; try discriminate He; clear He; cbn [exec].
  all: try (by destruct Hne).
  all: unfold down, down_timeout, block_on_semaphore, enqueue_waiter, lock, mutex_chain_contains, enqueue_mutex_waiter,
    unlock_scheduler_locked, unlock_current_and_take_preemption, unlock_current, throttle_task, take_reschedule_target,
    sleep_locked, yield_locked, take_yield_target, current_switch_guard, ready_pop, ready_priority; stay.
Qed.

(** ** What a section promises *)

Lemma pending_promised w w' q i :
  owned w' q None → ref_slot (si_previous i) = current w →
  pending w' = Some (mkPending (si_sequence i) (si_previous i) (si_target i)) → t_state (T w' (current w)) ≠ Ready →
  promised w w' i.
Proof.
  intros Ho Hpre Hp Hst. destruct (owned_pending w' q None (proj2 Ho) _ Hp) as ([Hs _] & _). cbn in Hs. split; [done|split; [done|]|done].
  intros E. apply Hst. rewrite <-E.
  destruct (placed_target w' q None _ (owned_placed w' q None (proj2 Ho) _ Hs)) as [-> _]; [|done]. unfold is_target. by rewrite Hp.
Qed.

Section Promises.
  #[local] Set Default Proof Using "Type".
  Context (im : Image) (tp fcsr c : Z).

(** What the code around a section may rely on. *)
Definition result_ok (w w' : World) (x : effect) : Prop :=
  match x with
  | Handoff i => promised w w' i
  | Born _ | Nothing => True
  end.

Lemma promised_down w a st timeout_ms deadline :
  system c w → w_sems w !! a = Some st → may_block w →
  wp (down_timeout true true a timeout_ms deadline) (λ r w', ∀ b i, r = Ok (b, Some i) → promised w w' i) w.
Proof.
  intros Hs Hst Hmay. destruct (system_kernel c w Hs) as [q Hk]. pose proof Hk as [Hsem _ _].
  wp_apply (down_timeout_spec w q true true a timeout_ms deadline st Hsem Hst (λ _ _ _ _, Hmay)).
  intros r w' H b i ->. unfold down_outcome in H. repeat case_match; try by destruct H as [[=] _].
  destruct H as (i' & [= -> ->] & [-> D2 D3 _ D5 _ _ _]).
  apply (pending_promised w w' (suspended_queues w q a)); [by apply (semaphores_owned _ _ None)|done|exact D3|]. destruct D5 as [-> _]. done.
Qed.

Lemma promised_lock w a st timeout_ms deadline :
  system c w → w_mutexes w !! a = Some st → may_block w →
  wp (lock true true a timeout_ms deadline) (λ r w', ∀ b i, r = Ok (b, Some i) → promised w w' i) w.
Proof.
  intros Hs Hst Hmay. destruct (system_kernel c w Hs) as [q Hk]. pose proof Hmay as [Hrun _ _ _ [_ Hng]].
  wp_apply (lock_spec w q true true a timeout_ms deadline st Hk Hst Hrun Hng (λ _ _ _, Hmay)).
  intros r w' H b i ->. unfold lock_outcome in H. repeat case_match; try by destruct H as [[=] _].
  all: destruct H as [(_ & [=] & _)|(_ & i' & q1 & [= -> ->] & [-> L2 L3 _ L5 _ _ _ _])].
  all: eapply (pending_promised w w'); [exact (kernel_owned _ _ None L2)|done|exact L3|by destruct L5 as [-> _]].
Qed.

Lemma promised_sleep w wake_at :
  system c w → may_block w → wp (sleep_locked true wake_at) (λ r w', ∀ i, r = Ok i → promised w w' i) w.
Proof.
  intros Hs [Hrun Hidle Hp Hseq _]. destruct (system_kernel c w Hs) as [q Hk].
  pose proof (owned_shape w q None (kernel_owned w q None Hk)) as Hsh.
  assert (slot_in (current w)) as Hc by (eapply owned_slot_current, kernel_owned; exact Hk).
  wp_apply (sleep_spec w q wake_at Hk Hrun Hidle Hseq). intros r w' H i ->. case_match; [by destruct H|].
  destruct H as (i' & [= ->] & Hk' & Hd). apply (departed_promised w (slept w wake_at) w' q i'); try done.
  change (current (slept w wake_at)) with (current w). unfold slept. rewrite T_upd_eq by (done || by apply (shape_ext w)). done.
Qed.

Lemma promised_yield w now :
  system c w → t_state (T w (current w)) = Running → sequence_of w < u64_max →
  wp (yield_locked true now) (λ r w', ∀ i, r = Ok (Some i) → promised w w' i) w.
Proof.
  intros Hs Hrun Hseq. destruct (system_kernel c w Hs) as [q Hk]. wp_apply (yield_spec w q now Hk Hrun Hseq).
  intros r w' H i ->. case_match; [by destruct H|]. destruct H as (w1 & q1 & [R1 _ _ R4 R5] & H).
  destruct (best q1) as [x|] eqn:Hb; [|by destruct H]. destruct H as (i' & [= ->] & Hy).
  apply (yielded_promised w w1 w' q1 x now i'); try done. by rewrite R5.
Qed.

Lemma exit_left w :
  system c w → may_exit w → wp (exit_locked true) (λ i w', promised w w' i ∧ current w' = current w ∧
    ∀ j, slot_in j → t_state (T w' j) = Free → t_saved_frame (T w' j) = 0 ∨
      t_state (T w j) = Free ∧ t_saved_frame (T w' j) = t_saved_frame (T w j)) w.
Proof.
  intros Hs [[Hrun Hidle Hp Hseq Hg] Hd Hown Hroom]. destruct (system_kernel c w Hs) as [q Hk].
  pose proof (owned_shape w q None (kernel_owned w q None Hk)) as Hsh.
  assert (slot_in (current w)) as Hc by (eapply owned_slot_current, kernel_owned; exact Hk).
  wp_apply (exit_spec w q Hk Hrun Hidle Hseq Hd); [|by split|intros Hne; split; [apply Hs|by apply Hroom]].
  intros i w' [Hk' Hdep]. destruct (exited_books w) as (_ & _ & _ & _ & _ & B6 & _).
  pose proof Hdep as [_ _ _ _ Hq Hst]. split_and!.
  - apply (departed_promised w (exited w) w' q i); rewrite ?B6; try done. rewrite T_exited, decide_True by done. done.
  - rewrite <-B6. by apply (Hst _ s_current).
  - intros j Hj. rewrite (quiet_field _ _ Hq _ t_saved_frame), (quiet_field _ _ Hq _ t_state) by done.
    rewrite T_exited by done. case_decide; [by left|by right].
Qed.

End Promises.

(** ** The invariant *)

(** The ticket is still pending, or the thread has been dispatched since it took it. *)
Definition delivered (w : World) (j : Z) (i : SwitchIntent) : Prop :=
  (∃ p, pending w = Some p ∧ ps_sequence p = si_sequence i) ∨
  t_resume_generation (T w j) ≠ si_previous_resume_generation i.

(** The intent a thread in the slot [j] holds. *)
Record bound (w : World) (j : Z) (i : SwitchIntent) : Prop := {
  bound_previous : ref_slot (si_previous i) = j;
  bound_target : slot_in (ref_slot (si_target i)) ∧ ref_slot (si_target i) ≠ j;
  bound_delivered : current w = j → delivered w j i;
}.

(** A free slot holds no frame. *)
Definition frameless (w : World) : Prop := ∀ j, slot_in j → t_state (T w j) = Free → t_saved_frame (T w j) = 0.

Record sound (c : Z) (s : Threads) : Prop := {
  sound_system : system c (th_world s);
  sound_frameless : frameless (th_world s);
  sound_bound j i : waiting (th_phase s j) = Some i → bound (th_world s) j i;
}.

Lemma frameless_stays b w w' : stays b w w' → frameless w → frameless w'.
Proof. intros [_ _ Hf Ha _] H j Hj Hst. rewrite Hf. apply H; [done|by apply Ha]. Qed.

Lemma bound_stays w w' j i : stays true w w' → bound w j i → bound w' j i.
Proof.
  intros [Hc Hg _ _ Hp] [H1 H2 H3]. split; [done..|]. rewrite Hc. intros E. specialize (H3 E).
  unfold delivered. by rewrite Hp, Hg.
Qed.

(** The intents of threads that are off the hart are bound whatever happens. *)
Lemma bound_off w w' j i : bound w j i → current w' ≠ j → bound w' j i.
Proof. intros [H1 H2 _] Hne. by split. Qed.

Lemma promised_bound w w' i : promised w w' i → bound w' (current w) i.
Proof. intros [H1 H2 H3]. split; [done..|]. intros _. left. by eexists. Qed.

Lemma wp_in_store {A} (m : M World A) (Q : A → Threads → Prop) s :
  wp m (λ a w', Q a (mkThreads w' (th_phase s))) (th_world s) → wp (in_store m) Q s.
Proof. unfold wp, in_store, zoom. by destruct (m (th_world s)) as [[a w']|]. Qed.

Section Soundness.
  #[local] Set Default Proof Using "Type".
  Context (im : Image) (tp fcsr : Z) (n : nat) (c idle_top start : Z).
  #[local] Abbreviation section := (section im tp fcsr c).

(** What a section leaves to the thread that ran it: the invariant for every other
    thread and for the result. *)
Definition leaves (s : Threads) (x : effect) (w' : World) : Prop :=
  system c w' → sound c (mkThreads w' (match x with
    | Nothing => th_phase s
    | Handoff i => set_phase (current (th_world s)) (Delivering i) (th_phase s)
    | Born i => set_phase i Own (th_phase s)
    end)).

Lemma leaves_quiet s w' : sound c s → stays true (th_world s) w' → leaves s Nothing w'.
Proof.
  intros [H1 H2 H3] Hst Hs. split; [done|by eapply frameless_stays|]. intros j i Hj. eapply bound_stays; [done|by apply H3].
Qed.

(** The calling thread held no intent. *)
Lemma leaves_given s x w' :
  sound c s → th_phase s (current (th_world s)) = Own → current w' = current (th_world s) → frameless w' →
  match x with Nothing => True | Handoff i => promised (th_world s) w' i | Born _ => False end → leaves s x w'.
Proof.
  intros [H1 H2 H3] Hown Hc Hf Hx Hs. split; [done..|]. cbn. intros j i Hj.
  destruct (decide (j = current (th_world s))) as [->|Hne].
  - destruct x as [|i'|]; [by rewrite Hown in Hj| |done]. unfold set_phase in Hj. rewrite decide_True in Hj by done.
    injection Hj as <-. by apply promised_bound.
  - apply (bound_off (th_world s)); [|congruence]. apply H3. destruct x as [|i'|]; [done| |done].
    unfold set_phase in Hj. by rewrite decide_False in Hj.
Qed.

Lemma section_keeps R e : keeps R (exec im tp fcsr c e) → keeps R (section e).
Proof.
  intros H w. specialize (H w). rewrite section_exec in H. unfold mbind, M_bind in H.
  by destruct (Threads.section _ _ _ _ e w) as [[x w']|].
Qed.

Lemma section_system w e :
  capacity_ok c → system c w → legal w e → wp (section e) (λ _ w', system c w') w.
Proof.
  intros Hc Hs Hl. pose proof (exec_system im tp fcsr c w e Hc Hs Hl) as H. unfold wp in H |- *.
  rewrite section_exec in H. unfold mbind, M_bind in H. by destruct (Threads.section _ _ _ _ e w) as [[x w']|].
Qed.

Lemma section_spawn w reservation stack size entry arg priority policy now :
  capacity_ok c → system c w → legal w (SpawnTask reservation stack size entry arg priority policy now) →
  wp (section (SpawnTask reservation stack size entry arg priority policy now)) (λ x w', match x with
    | Nothing => w' = w
    | Born i => current w' = current w ∧ pending w' = pending w ∧ i ≠ current w ∧
        ∀ j, j ≠ i → t_resume_generation (T w' j) = t_resume_generation (T w j)
    | Handoff _ => False
    end ∧ (frameless w → frameless w')) w.
Proof.
  intros Hc Hs [[M1 M2 M3 M4 M5 M6] Hn]. destruct (system_kernel c w Hs) as [q Hk]. cbn [Threads.section]. apply wp_bind.
  eapply wp_mono; [|eapply wp_keeps; [apply desk_spawn|];
    apply (spawn_locked_spec im true tp fcsr reservation c stack size entry arg priority policy now w q Hk
      (system_vacant c w Hs)); [by rewrite M1|done|apply Hs|done|intros _; split; lia]].
  intros [i|e] w' [H [St _]]; [|destruct H as [-> _]; by go]. destruct H as [_ [Sl _ _ Sf _ _]]. go.
  pose proof (free_slots_elem_head w c i Sl) as [Hfree _]%elem_of_free_slots. split; [split_and!|].
  - by apply (St _ s_current).
  - by apply (St _ s_pending_switch).
  - intros ->. congruence.
  - intros j Hj. by rewrite (Sf _ t_resume_generation), decide_False.
  - intros Hf j Hj. rewrite (Sf _ t_state), (Sf _ t_saved_frame) by done. case_decide; [done|by apply Hf].
Qed.

Lemma leaves_born s i w' :
  sound c s → current w' = current (th_world s) → pending w' = pending (th_world s) → i ≠ current (th_world s) →
  (∀ j, j ≠ i → t_resume_generation (T w' j) = t_resume_generation (T (th_world s) j)) → frameless w' → leaves s (Born i) w'.
Proof.
  intros [H1 H2 H3] Hc Hp Hi Hg Hf Hs. split; [done..|]. cbn. intros j k Hk. unfold set_phase in Hk. case_decide as Hj; [done|].
  destruct (H3 j k Hk) as [B1 B2 B3]. split; [done..|]. rewrite Hc. intros E. specialize (B3 E). unfold delivered. by rewrite Hp, Hg.
Qed.

Lemma unwrapped_spec s j i :
  unwrapped s = true → slot_in j → waiting (th_phase s j) = Some i →
  wrapping_add u32_max (t_resume_generation (T (th_world s) j)) 1 ≠ si_previous_resume_generation i.
Proof.
  intros H Hj%slots_elem Hi. unfold unwrapped in H. rewrite forallb_forall in H. apply list_elem_of_In in Hj.
  specialize (H j Hj). rewrite Hi in H. by apply negb_true_iff, Z.eqb_neq in H.
Qed.

(** The dispatched thread's counter moves on; the others are off the hart. *)
Lemma leaves_trap s frame depth now :
  sound c s → frame ≠ 0 → may s (Enter (TrapEpilogue frame depth now)) →
  wp (section (TrapEpilogue frame depth now)) (λ x w', leaves s x w') (th_world s).
Proof.
  intros Hsound Hf (_ & _ & Hround). specialize (Hround eq_refl). pose proof Hsound as [Hs Hfree Hb].
  destruct (system_kernel c _ Hs) as [q Hk]. pose proof (kernel_owned _ q None Hk) as Ho.
  cbn [Threads.section exec]. apply wp_bind, wp_bind.
  wp_apply (schedule_from_trap_spec _ q frame depth now Ho (system_tickets c _ Hs) (saved_frames _ (system_saved c _ Hs)) Hf).
  intros f w' H. go. destruct (if _ && _ then _ else _) as [x|].
  2:{ destruct H as [_ ->]. by apply leaves_quiet. }
  destruct H as [_ _ _ _ [Hcur Hrun] Hst _ Hfr Hg]. intros Hs'. split; [done| |]; cbn [th_world th_phase].
  - intros j Hj E. assert (j ≠ x) as Hne by (intros ->; congruence). rewrite Hfr by done. rewrite Hst in E by done.
    case_decide as D; [done|]. rewrite decide_False; [by apply Hfree|]. by intros [_ ?].
  - intros j i Hw. pose proof (Hb j i Hw) as Hbd. destruct (decide (j = x)) as [->|Hne]; [|by apply (bound_off (th_world s)); [|congruence]].
    destruct Hbd as [B1 B2 _]. split; [done..|]. intros _. right. rewrite Hg, decide_True by done.
    apply (unwrapped_spec s x i); try done.
    destruct (system_kernel c w' Hs') as [q' Hk']. rewrite <-Hcur. by eapply owned_slot_current, kernel_owned.
Qed.

Lemma section_quiet e w : moves_hart e = false → after (section e) w (λ x _, x = Nothing).
Proof.
  intros He. assert (∀ m : M World unit, after (m ;; mret Nothing) w (λ x _, x = Nothing)) as H.
  { intros m. unfold after, mbind, M_bind. by destruct (m w) as [[[] w']|]. }
  destruct e; cbn in He; try discriminate He; apply H.
Qed.

(** A thread gives up the hart: what it gets back, and what is left. *)
Lemma section_given w e :
  capacity_ok c → system c w → legal w e → giving_up e = true → frameless w →
  after (section e) w (λ x w', current w' = current w ∧ frameless w' ∧
    match x with Nothing => True | Handoff i => promised w w' i | Born _ => False end).
Proof.
  intros Hc Hs Hl He Hf. assert (e = TaskExit ∨ e ≠ TaskExit) as [->|Hne] by (destruct e; first [by left | by right]).
  { destruct Hl as (Hth & L1 & L2 & L3). cbn [Threads.section]. apply after_wp, wp_bind.
    wp_apply (exit_left c w Hs); [|by split; [eapply thread_may_block|..]]. intros i w' (H1 & H2 & H3). go.
    split_and!; [done| |done]. intros j Hj Hst. destruct (H3 j Hj Hst) as [|[Hst' ->]]; [done|]. by apply Hf. }
  assert (after (section e) w (λ x w', match x with Nothing => True | Handoff i => promised w w' i | Born _ => False end)) as Hx.
  { pose proof (thread_may_block c w Hs) as Hmay.
    destruct e; cbn in He; try discriminate He; cbn [Threads.section legal] in *; apply after_wp, wp_bind.
    - destruct Hl as [[st Hst] ?%Hmay]. wp_apply (promised_down c w a st timeout_ms deadline Hs Hst); [|done].
      intros [[b [i|]]|e] w' Hr; go; [by eapply Hr|done..].
    - destruct Hl as [[st Hst] ?%Hmay]. unfold wp. rewrite down_forever. apply wp_bind.
      wp_apply (promised_down c w a st 1 0 Hs Hst); [|done]. intros [[b [i|]]|e] w' Hr; go; [by eapply Hr|done..].
    - destruct Hl as [[st Hst] ?%Hmay]. wp_apply (promised_lock c w a st timeout_ms deadline Hs Hst); [|done].
      intros [[b [i|]]|e] w' Hr; go; [by eapply Hr|done..].
    - destruct Hl as [?%Hmay ?]. wp_apply (system_unlock_scheduler c w now Hs); [|done..].
      intros [[i|]|e] w' [_ Hr]; go; [by apply Hr|done..].
    - destruct Hl as [?%Hmay ?]. wp_apply (promised_sleep c w wake_at Hs); [|done].
      intros [i|e] w' Hr; go; [by apply Hr|done].
    - destruct Hl as (? & ? & ?). wp_apply (promised_yield c w now Hs); [|done..].
      intros [[i|]|e] w' Hr; go; [by apply Hr|done..].
    - by destruct Hne. }
  pose proof (after_keeps _ _ w (section_keeps _ _ (stays_giving_up im tp fcsr c e He Hne))) as Hk.
  eapply after_mono; [|exact (after_conj _ _ _ _ Hx Hk)]. intros x w' [H1 H2].
  split_and!; [by destruct H2|by eapply frameless_stays|done].
Qed.

(** Every section an interrupt or a thread may enter keeps the invariant. *)
Lemma section_sound s e :
  capacity_ok c → sound c s → may s (Enter e) → wp (section e) (λ x w', leaves s x w' ∧ system c w') (th_world s).
Proof.
  intros Hc Hsound Hmay. pose proof Hsound as [Hs Hf _]. pose proof Hmay as (Hl & Hown & _).
  pose proof (section_system _ e Hc Hs Hl) as Hsys.
  assert (after (section e) (th_world s) (λ x w', leaves s x w')) as H.
  2:{ eapply wp_mono; [|exact (wp_after _ _ _ _ Hsys H)]. by intros x w' []. }
  destruct (giving_up e) eqn:He.
  { eapply after_mono; [|by apply section_given]. intros x w' (H1 & H2 & H3). by apply leaves_given; [|apply Hown|..]. }
  destruct (moves_hart e) eqn:Hm.
  2:{ pose proof (after_keeps _ _ (th_world s) (section_keeps _ _ (stays_exec im tp fcsr c e Hm))) as Hk.
    eapply after_mono; [|exact (after_conj _ _ _ _ (section_quiet e _ Hm) Hk)]. intros x w' [-> H]. by apply leaves_quiet. }
  destruct e; cbn in He, Hm; try discriminate He; try discriminate Hm; apply after_wp.
  - wp_apply (section_spawn (th_world s)); [|done..]. intros [|i|i] w' [H Hf'].
    + subst. by apply leaves_quiet.
    + done.
    + destruct H as (H1 & H2 & H3 & H4). apply leaves_born; auto.
  - destruct Hl as [Hfr _]. by apply leaves_trap.
Qed.

Lemma sound_enter s e :
  capacity_ok c → sound c s → may s (Enter e) → wp (act im tp fcsr c (Enter e)) (λ _ s', sound c s') s.
Proof.
  intros Hc Hs Hm. unfold act. apply wp_bind, wp_gets, wp_bind, wp_gets, wp_bind, wp_in_store.
  wp_apply (section_sound s e Hc Hs Hm). intros [|i|i] w' [Hl Hsys]; specialize (Hl Hsys); cbn [follow].
  - by apply wp_ret.
  - unfold become. by apply wp_modify.
  - unfold become. by apply wp_modify.
Qed.

(** The thread on the hart checks its intent. *)
Lemma act_deliver s i :
  sound c s → th_phase s (current (th_world s)) = Delivering i →
  act im tp fcsr c Deliver s =
    if state_eqb (t_state (T (th_world s) (ref_slot (si_target i)))) Free then Fault Panicked
    else Done (tt, mkThreads (th_world s) (set_phase (current (th_world s)) (Awaiting i) (th_phase s))).
Proof.
  intros [Hs Hf Hb] Hp. set (w := th_world s) in *. destruct (Hb (current w) i) as [B1 [B2 B3] B4]; [by rewrite Hp|].
  destruct (system_kernel c w Hs) as [q Hk]. pose proof (owned_shape w q None (kernel_owned w q None Hk)) as Hsh.
  assert (slot_in (current w)) as Hc by (eapply owned_slot_current, kernel_owned; exact Hk).
  set (x := ref_slot (si_target i)) in *.
  assert (delivery_section i w = if state_eqb (t_state (T w x)) Free then Fault Panicked else Done (tt, w)) as E.
  { unfold delivery_section, intent_delivered, target_has_frame. rewrite B1. fold x.
    unfold sched_gets. unfold mbind, M_bind, gets. rewrite tget_read by done. cbn.
    change (s_pending_switch (w_sched w)) with (pending w). change (s_current (w_sched w)) with (current w).
    assert (match pending w with Some p => ps_sequence p =? si_sequence i | None => false end ||
      negb (t_resume_generation (T w (current w)) =? si_previous_resume_generation i) = true) as ->.
    { destruct (B4 eq_refl) as [(p & -> & ->)|Hg]; [by rewrite Z.eqb_refl|].
      apply orb_true_iff; right. by apply negb_true_iff, Z.eqb_neq. }
    cbn. rewrite tget_read by done. cbn. change (s_current (w_sched w)) with (current w).
    rewrite (proj2 (Z.eqb_neq (current w) x)) by (intros E; by rewrite E in B3). rewrite orb_false_r.
    unfold state_eqb. case_bool_decide as Hst; [by rewrite (Hf x B2 Hst)|].
    by rewrite (proj2 (Z.eqb_neq _ _) (system_saved c w Hs x B2 B3 Hst)). }
  unfold act, mbind, M_bind, gets. fold w. change (s_current (w_sched w)) with (current w). rewrite Hp. fold x.
  rewrite B1, (proj2 (Z.eqb_neq _ _) B3). unfold in_store, zoom. fold w. rewrite E. by destruct (state_eqb _ _).
Qed.

(** One round of the loop. *)
Lemma act_return s i :
  sound c s → th_phase s (current (th_world s)) = Awaiting i →
  act im tp fcsr c Return s = Done (tt,
    if t_resume_generation (T (th_world s) (current (th_world s))) =? si_previous_resume_generation i then s
    else mkThreads (th_world s) (set_phase (current (th_world s)) Own (th_phase s))).
Proof.
  intros [Hs Hf Hb] Hp. set (w := th_world s) in *. destruct (Hb (current w) i) as [B1 _ _]; [by rewrite Hp|].
  destruct (system_kernel c w Hs) as [q Hk]. pose proof (owned_shape w q None (kernel_owned w q None Hk)) as Hsh.
  assert (slot_in (current w)) as Hc by (eapply owned_slot_current, kernel_owned; exact Hk).
  unfold act, mbind, M_bind, gets. fold w. change (s_current (w_sched w)) with (current w). rewrite Hp, B1.
  unfold in_store, zoom, resumed, sched_gets, mbind, M_bind, gets. fold w. rewrite tget_read by done.
  change (s_current (w_sched w)) with (current w). rewrite Z.eqb_refl. cbn. subst w.
  destruct (_ =? _); [by destruct s|done].
Qed.

Lemma sound_phase s p :
  sound c s → (∀ i, waiting p = Some i → waiting (th_phase s (current (th_world s))) = Some i) →
  sound c (mkThreads (th_world s) (set_phase (current (th_world s)) p (th_phase s))).
Proof.
  intros [H1 H2 H3] Hp. split; [done..|]. cbn. intros j i. unfold set_phase. case_decide; [|by apply H3].
  subst. intros Hw. by apply H3, Hp.
Qed.

(** The running thread's intended target has exited since the intent was committed. *)
Definition stranded (s : Threads) : Prop := ∃ i, th_phase s (current (th_world s)) = Delivering i ∧
  t_state (T (th_world s) (ref_slot (si_target i))) = Free.

Lemma sound_act s x :
  capacity_ok c → sound c s → may s x → (x = Deliver → ¬ stranded s) → wp (act im tp fcsr c x) (λ _ s', sound c s') s.
Proof.
  intros Hc Hs Hm Hx. destruct x as [e| |]; [by apply sound_enter|..]; destruct Hm as [i Hi]; unfold wp.
  - rewrite (act_deliver s i Hs Hi). unfold state_eqb. case_bool_decide as Hst; [by apply (Hx eq_refl); exists i|].
    apply sound_phase; [done|]. by rewrite Hi.
  - rewrite (act_return s i Hs Hi). case_match; [done|]. by apply sound_phase.
Qed.

Lemma attainable_sound s :
  Z.of_nat n <= 255 → capacity_ok c → 272 < idle_top → attainable im tp fcsr n c idle_top start s → sound c s.
Proof.
  intros Hn Hc Ht. induction 1 as [w Hw|s x s' _ IH Hm Hx].
  - pose proof (init_spec n im true idle_top tp fcsr start ltac:(lia)) as H. unfold wp in H. rewrite Hw in H.
    destruct H as [H1 H2]. split; [by eapply system_starting| |done]. intros j _. cbn.
    rewrite (started_T n w im true idle_top tp fcsr start H2). by repeat case_decide.
  - assert (x = Deliver → ¬ stranded s) as Hns.
    { intros -> (i & Hi & Hst). rewrite (act_deliver s i IH Hi), Hst in Hx. done. }
    pose proof (sound_act s x Hc IH Hm Hns) as H. unfold wp in H. by rewrite Hx in H.
Qed.

End Soundness.

(** ** Runs *)

Fixpoint run (im : Image) (tp fcsr c : Z) (xs : list step) : M Threads unit :=
  match xs with [] => mret tt | x :: xs => act im tp fcsr c x ;; run im tp fcsr c xs end.

Fixpoint may_run (im : Image) (tp fcsr c : Z) (xs : list step) (s : Threads) : Prop :=
  match xs with
  | [] => True
  | x :: xs => may s x ∧ match act im tp fcsr c x s with Done (_, s') => may_run im tp fcsr c xs s' | Fault _ => False end
  end.

Lemma attainable_run im tp fcsr n c idle_top start xs s s' :
  attainable im tp fcsr n c idle_top start s → may_run im tp fcsr c xs s →
  run im tp fcsr c xs s = Done (tt, s') → attainable im tp fcsr n c idle_top start s'.
Proof.
  revert s. induction xs as [|x xs IH]; intros s Hs Hm Hr; cbn in *; [by injection Hr as <-|].
  destruct Hm as [Hm Hrest]. unfold mbind, M_bind in Hr. destruct (act im tp fcsr c x s) as [[[] s1]|] eqn:E; [|done].
  apply (IH s1); [by eapply attain_step|done..].
Qed.

(** The main task waits for a permit, a second task posts it and sleeps, the main task is
    back and in the loop of [execute_switch]. *)
Definition waiting_steps : list step := [
  Enter (NewSemaphore 64 0); Enter (SpawnTask None 131072 4096 77 99 7 (Preemptive 10) 6);
  Enter (DownSemaphore 64 1000 1008); Deliver; Enter (TrapEpilogue 5000 0 9);
  Enter (UpSemaphore 64 10 0); Enter (SleepUntil 50); Deliver; Enter (TrapEpilogue 6000 0 11)].

(** The same, but the main task is interrupted before its check, and the second task exits. *)
Definition stranding_steps : list step := [
  Enter (NewSemaphore 64 0); Enter (SpawnTask None 131072 4096 77 99 7 (Preemptive 10) 6);
  Enter (DownSemaphore 64 1000 1008); Enter (TrapEpilogue 5000 0 9);
  Enter (UpSemaphore 64 10 0); Enter TaskExit; Deliver; Enter (TrapEpilogue 6000 0 11)].

Definition threads_start : Threads := mkThreads witness_start (λ _, Own).
Definition after_steps (xs : list step) : Threads :=
  match run witness_image 0 0 14 xs threads_start with Done (_, s) => s | Fault _ => threads_start end.

Ltac run_legal := vm_compute; repeat first [ (intros; discriminate) | split | (eexists; reflexivity) | done ].

Lemma waiting_may : may_run witness_image 0 0 14 waiting_steps threads_start.
Proof. run_legal. Qed.

Lemma stranding_may : may_run witness_image 0 0 14 stranding_steps threads_start.
Proof. run_legal. Qed.

(** C1: Every thread and every interrupt runs on (RTOS-STATE-001, RTOS-SCHED-001, RTOS-PORT-004).
    From the start on, let threads create, use and destroy semaphores and mutexes, sleep,
    yield, exit, spawn, reserve slots and change priorities and policies, let them pass
    through the sections of [execute_switch], and let interrupts, timer ticks and trap
    epilogues come between any two critical sections. In every state this reaches, all
    the invariants hold together -- single ownership of every task, exact permits, exact
    priority inheritance, ordered tickets, a frame for every task off the hart, a free
    slot behind every promise -- and every section that may be entered ends, without a
    panic, in a state of the same kind, with one exception. The exception is the check in
    [execute_switch]: it passes as long as the target of the intent has not exited since
    the intent was committed, and panics if it has. A thread that has passed the check
    leaves the loop at its next look, unless its ticket is still pending and no trap
    has dispatched it. *)
Theorem threads_safe (im : Image) (tp fcsr : Z) (n : nat) (c idle_top start : Z) (s : Threads) :
  Z.of_nat n <= 255 → capacity_ok c → 272 < idle_top → attainable im tp fcsr n c idle_top start s →
  system c (th_world s) ∧
  (∀ x, may s x → (x = Deliver → ¬ stranded s) →
    ∃ s', act im tp fcsr c x s = Done (tt, s') ∧ attainable im tp fcsr n c idle_top start s') ∧
  (stranded s → act im tp fcsr c Deliver s = Fault Panicked) ∧
  (∀ i, th_phase s (current (th_world s)) = Awaiting i →
    (∃ p, pending (th_world s) = Some p ∧ ps_sequence p = si_sequence i) ∨
    act im tp fcsr c Return s =
      Done (tt, mkThreads (th_world s) (set_phase (current (th_world s)) Own (th_phase s)))).
Proof.
  intros Hn Hc Ht Hs. pose proof (attainable_sound im tp fcsr n c idle_top start s Hn Hc Ht Hs) as Hok.
  split_and!.
  - apply Hok.
  - intros x Hm Hx. pose proof (sound_act im tp fcsr c s x Hc Hok Hm Hx) as H. unfold wp in H.
    destruct (act im tp fcsr c x s) as [[[] s']|] eqn:E; [|done]. exists s'. split; [done|]. by eapply attain_step.
  - intros (i & Hi & Hst). by rewrite (act_deliver im tp fcsr c s i Hok Hi), Hst.
  - intros i Hi. rewrite (act_return im tp fcsr c s i Hok Hi).
    destruct (sound_bound c s Hok (current (th_world s)) i) as [_ _ Hd]; [by rewrite Hi|].
    destruct (Hd eq_refl) as [?|Hg]; [by left|right]. by rewrite (proj2 (Z.eqb_neq _ _) Hg).
Qed.

Lemma waiting_run : run witness_image 0 0 14 waiting_steps threads_start = Done (tt, after_steps waiting_steps).
Proof. by vm_compute. Qed.

Lemma stranding_run : run witness_image 0 0 14 stranding_steps threads_start = Done (tt, after_steps stranding_steps).
Proof. by vm_compute. Qed.

Lemma attainable_after xs :
  may_run witness_image 0 0 14 xs threads_start → run witness_image 0 0 14 xs threads_start = Done (tt, after_steps xs) →
  attainable witness_image 0 0 4 14 16384 5 (after_steps xs).
Proof. apply attainable_run, attain_start, witness_started. Qed.

Lemma waiting_returns : may (after_steps waiting_steps) Return.
Proof. vm_compute. by eexists. Qed.

Lemma stranding_strands : stranded (after_steps stranding_steps).
Proof. vm_compute. eexists. by split. Qed.

(** What is left of the system when the second task has exited: the main task holds the
    hart and its permit. *)
Lemma stranded_main :
  let w := th_world (after_steps stranding_steps) in
  (current w, t_state (T w 0), t_granted_sem (T w 0)) = (0, Running, 64).
Proof. by vm_compute. Qed.

Lemma threads_safe_witness :
  (∃ s', act witness_image 0 0 14 Return (after_steps waiting_steps) = Done (tt, s') ∧
    attainable witness_image 0 0 4 14 16384 5 s') ∧
  act witness_image 0 0 14 Deliver (after_steps stranding_steps) = Fault Panicked.
Proof.
  split.
  - destruct (threads_safe witness_image 0 0 4 14 16384 5 (after_steps waiting_steps)) as (_ & H & _);
      [done|done|done|exact (attainable_after _ waiting_may waiting_run)|].
    apply H; [exact waiting_returns|discriminate].
  - destruct (threads_safe witness_image 0 0 4 14 16384 5 (after_steps stranding_steps)) as (_ & _ & H & _);
      [done|done|done|exact (attainable_after _ stranding_may stranding_run)|].
    apply H. exact stranding_strands.
Defined.
