(* ===== verification/Rearm.v ===== *)
(** * Rearming the timer while others do ([rearm_timer] of [src/runtime/time.rs])

    The calls of [rearm_timer] that are in progress, one critical section or port call at
    a time, interleaved with each other and with the events of [Reach.v]. The generation
    ticket makes the last call on the timer the one of the newest deadline. *)

From stdpp Require Import list sets.
From S2P Require Import Prelude Effects Budget Contract Config Context Reservation Resource.
From S2P Require Import Tcb Store Chain Ready Wait Switch Invariant Dispatch Inherit Donation Sync.
From S2P Require Import Moves Permit Slide Lean Handoff Mutex Lock Acquire Exclusion.
From S2P Require Import Timer Frame Touch Wake Deadlines Slots Statics Tasks Driver Birth Start Leave Fit System Upkeep Policy Reach.

(** ** The steps of one call *)

(** Between two steps a call is about to read the clock, to compute its deadline, to call
    the port, or to look at the ticket again. *)
Inductive RearmPhase :=
| Idle
| Wanted
| Timed (now : Z)
| Claimed (ticket : Z) (call : PortCall)
| Armed (ticket : Z).

(** The call that programs the timer for a deadline. *)
Definition deadline_call (max_delay now : Z) (deadline : option Z) : PortCall :=
  match deadline with Some deadline => ArmTimer (timer_delay deadline now max_delay) | None => DisarmTimer end.

Section Rearming.
  Context {H : Type} `{StackHeap H, Outside} (limit max_delay : Z).

(** The critical section of the loop. *)
Definition deadline_section (now : Z) : M (Rtos H) (Z * PortCall) :=
  embassy ← embassy_expiration now;
  deadline ← in_world (timer_deadline now limit embassy);
  generation ← claim_timer_rearm_generation;
  mret (generation, deadline_call max_delay now deadline).

Definition rearm_step (p : RearmPhase) : M (Rtos H) RearmPhase :=
  match p with
  | Idle => mret Idle
  | Wanted => now ← now_ms; mret (Timed now)
  | Timed now => claim ← deadline_section now; mret (Claimed claim.1 claim.2)
  | Claimed ticket call => call_port call ;; mret (Armed ticket)
  | Armed ticket => still_current ← timer_rearm_ticket_is_current ticket; mret (if still_current : bool then Idle else Wanted)
  end.

Fixpoint rearm_steps (n : nat) (p : RearmPhase) : M (Rtos H) RearmPhase :=
  match n with O => mret p | S n => p' ← rearm_step p; rearm_steps n p' end.

(** A call that is left alone is the loop of [rearm_timer], which then runs once. *)
Lemma rearm_alone r :
  rearm_steps 4 Wanted r = (rearm_loop 1 (Some limit) max_delay ;; mret Idle) r.
Proof.
  unfold rearm_steps, rearm_step, deadline_section, rearm_loop, deadline_call, now_ms, start_state, expect, embassy_expiration,
    next_read, in_world, zoom, claim_timer_rearm_generation, timer_rearm_ticket_is_current, call_port, gets, modify, mbind, M_bind, mret, M_ret; cbn.
  destruct (r_start r) as [s|]; cbn; [|done]. destruct (timer_deadline _ _ _ _) as [[d w']|]; cbn; [|done].
  by rewrite Z.eqb_refl.

Qed.

(** ** Calls and events, interleaved *)

Context (im : Image) (tp fcsr : Z) (n : nat) (c idle_top start : Z).
Abbreviation reach := (reachable im tp fcsr n c idle_top start).

(** What has happened, oldest first: events whose operation ends with a rearm or not, and
    computed deadlines with the state they leave. *)
Inductive moment :=
| Asked (e : event)
| Quiet (e : event)
| Computed (w : World) (call : PortCall).

Definition Rearming : Type := Rtos H * list RearmPhase * list moment.

Definition section_moment (p p' : RearmPhase) (w : World) : list moment :=
  match p, p' with Timed _, Claimed _ call => [Computed w call] | _, _ => [] end.

(** The [i]-th context: a thread or an interrupt, with at most one call in progress. *)
Inductive rearming (i : nat) : Rearming → Rearming → Prop :=
| rearming_event r ps h e w' (asks : bool) :
    ps !! i = Some Idle → legal (r_world r) e → exec im tp fcsr c e (r_world r) = Done (tt, w') →
    rearming i (r, ps, h)
      (r <| r_world := w' |>, <[i := if asks then Wanted else Idle]> ps, h ++ [if asks then Asked e else Quiet e])
| rearming_step r r' ps h p p' :
    ps !! i = Some p → p ≠ Idle → (∀ now, p = Timed now → r_timer_generation r < u64_max) →
    rearm_step p r = Done (p', r') →
    rearming i (r, ps, h) (r', <[i := p']> ps, h ++ section_moment p p' (r_world r')).

Definition rearming_run : Rearming → Rearming → Prop := rtc (λ st st', ∃ i, rearming i st st').

(** ** What a step does *)

Definition embassy_reading (k : nat) (now : Z) : option Z :=
  embassy_next_expiration (next_expiration k (saturating_mul u64_max now EMBASSY_TICKS_PER_MILLISECOND)) now.

Inductive moved (r : Rtos H) : RearmPhase → RearmPhase → Rtos H → Prop :=
| moved_idle : moved r Idle Idle r
| moved_timed : moved r Wanted (Timed (monotonic_ms (r_reads r))) (r <| r_reads ::= S |>)
| moved_claimed now d w' :
    reach w' → timer_deadline now limit (embassy_reading (r_reads r) now) (r_world r) = Done (d, w') →
    moved r (Timed now) (Claimed (wrapping_add u64_max (r_timer_generation r) 1) (deadline_call max_delay now d))
      (r <| r_reads ::= S |> <| r_world := w' |> <| r_timer_generation := wrapping_add u64_max (r_timer_generation r) 1 |>)
| moved_armed ticket call : moved r (Claimed ticket call) (Armed ticket) (r <| r_port_log ::= λ l, l ++ [call] |>)
| moved_checked ticket : moved r (Armed ticket) (if r_timer_generation r =? ticket then Idle else Wanted) r.

Context (Hn : Z.of_nat n <= 255) (Hc : capacity_ok c) (Htop : 272 < idle_top).

Lemma rearm_step_spec p r :
  is_Some (r_start r) → reach (r_world r) → wp (rearm_step p) (moved r p) r.
Proof using All.
  intros [s Hs] Hw. destruct p as [| |now|ticket call|ticket]; cbn [rearm_step].
  - apply wp_ret. constructor.
  - unfold now_ms, start_state. wp_steps. rewrite Hs. apply wp_ret. unfold next_read. wp_steps. constructor.
  - destruct (reachable_exec im tp fcsr n c idle_top start (r_world r) (RearmTimer now limit (embassy_reading (r_reads r) now))
      Hn Hc Htop Hw I) as (w' & E & Hw').
    unfold exec, mbind, M_bind in E.
    destruct (timer_deadline now limit _ (r_world r)) as [[d w1]|] eqn:Ed; [|done]. injection E as ->.
    unfold wp, deadline_section, embassy_expiration, next_read, in_world, zoom, claim_timer_rearm_generation, gets, modify,
      mbind, M_bind, mret, M_ret. cbn. unfold embassy_reading in Ed. rewrite Ed. cbn. by constructor.
  - unfold call_port. wp_steps. constructor.
  - unfold timer_rearm_ticket_is_current. wp_steps. constructor.
Qed.

(** ** The invariant *)

Definition ticket_of (p : RearmPhase) : option Z :=
  match p with Claimed ticket _ | Armed ticket => Some ticket | _ => None end.

(** The call will compute another deadline. *)
Definition restarts (generation : Z) (p : RearmPhase) : Prop :=
  match p with Wanted | Timed _ => True | Armed ticket => ticket ≠ generation | Idle | Claimed _ _ => False end.

Definition quiet (m : moment) : Prop := match m with Quiet _ => True | _ => False end.

(** [call] is for the deadline of a snapshot of the scheduler and the embassy queue, which
    leaves the scheduler in [w]. *)
Definition computed (w : World) (call : PortCall) : Prop :=
  ∃ k k' w0 d, let now := monotonic_ms k in
    timer_deadline now limit (embassy_reading k' now) w0 = Done (d, w) ∧ call = deadline_call max_delay now d.

(** The newest deadline is the one of all that was asked for, and [on] says of its call. *)
Definition newest (h : list moment) (on : PortCall → Prop) : Prop :=
  ∃ h1 w call h2, h = h1 ++ Computed w call :: h2 ∧ Forall quiet h2 ∧ computed w call ∧ on call.

(** The newest call is on the timer, or on its way, and on the way under one ticket only. *)
Definition settled (r : Rtos H) (ps : list RearmPhase) (call : PortCall) : Prop :=
  (last (r_port_log r) = Some call ∨ ∃ i, ps !! i = Some (Claimed (r_timer_generation r) call)) ∧
  ∀ i call', ps !! i = Some (Claimed (r_timer_generation r) call') → call' = call.

Record rearms_ok (st : Rearming) : Prop := {
  ok_reach : reach (r_world st.1.1);
  ok_started : is_Some (r_start st.1.1);
  ok_generation : 0 <= r_timer_generation st.1.1 <= u64_max;
  ok_tickets i p ticket : st.1.2 !! i = Some p → ticket_of p = Some ticket → ticket <= r_timer_generation st.1.1;
  ok_timed i now : st.1.2 !! i = Some (Timed now) → ∃ k, now = monotonic_ms k;
  ok_newest : (∃ i p, st.1.2 !! i = Some p ∧ restarts (r_timer_generation st.1.1) p) ∨ newest st.2 (settled st.1.1 st.1.2);
}.

(** A phase changes: what the others say stays. *)
Lemma phases_change (P : nat → RearmPhase → Prop) (ps : list RearmPhase) i p p' :
  ps !! i = Some p → (∀ j x, ps !! j = Some x → P j x) → P i p' → ∀ j x, <[i := p']> ps !! j = Some x → P j x.
Proof. intros Hp K1 K2 j x [(<- & <- & _)|[? ?]]%list_lookup_insert_Some; auto. Qed.

Lemma newest_quiet h on on' e : newest h on → (∀ call, on call → on' call) → newest (h ++ [Quiet e]) on'.
Proof.
  intros (h1 & w & call & h2 & -> & Hq & Hc' & Ho) Himp. exists h1, w, call, (h2 ++ [Quiet e]).
  split; [by rewrite <-app_assoc|]. split; [by apply Forall_app_2; [|constructor]|]. auto.
Qed.

Lemma newest_mono h on on' : newest h on → (∀ call, on call → on' call) → newest h on'.
Proof. intros (h1 & w & call & h2 & ? & ? & ? & ?) Himp. exists h1, w, call, h2. auto. Qed.

Lemma phase_set (ps : list RearmPhase) i p p' : ps !! i = Some p → <[i := p']> ps !! i = Some p'.
Proof. intros Hp. apply list_lookup_insert_eq. by eapply lookup_lt_Some. Qed.

(** A call on its way stays so when the phase that changes is not it. *)
Lemma settled_change r r' ps i p p' call :
  ps !! i = Some p → r_timer_generation r' = r_timer_generation r → r_port_log r' = r_port_log r →
  (∀ call', p ≠ Claimed (r_timer_generation r) call') → (∀ call', p' ≠ Claimed (r_timer_generation r) call') →
  settled r ps call → settled r' (<[i := p']> ps) call.
Proof.
  intros Hp Eg El Hne Hne' [K1 K2]. unfold settled. rewrite Eg, El. split.
  - destruct K1 as [|[j Hj]]; [by left|]. right. exists j. rewrite list_lookup_insert_ne; [done|].
    intros ->. rewrite Hp in Hj. injection Hj as ->. by eapply Hne.
  - intros j call' [(-> & E & _)|[? ?]]%list_lookup_insert_Some; [by apply Hne' in E|by eapply K2].
Qed.

(** Another call that will compute a deadline still will. *)
Lemma restarts_change g (ps : list RearmPhase) i p p' :
  ps !! i = Some p → ¬ restarts g p → (∃ j x, ps !! j = Some x ∧ restarts g x) →
  ∃ j x, <[i := p']> ps !! j = Some x ∧ restarts g x.
Proof.
  intros Hp Hn' (j & x & Hx & Hr). exists j, x. split; [|done]. rewrite list_lookup_insert_ne; [done|].
  intros ->. congruence.
Qed.

(** The tickets and readings of the other calls stay good. *)
Lemma tickets_change g g' (ps : list RearmPhase) i p p' :
  ps !! i = Some p → g <= g' → (∀ ticket, ticket_of p' = Some ticket → ticket <= g') →
  (∀ j x ticket, ps !! j = Some x → ticket_of x = Some ticket → ticket <= g) →
  ∀ j x ticket, <[i := p']> ps !! j = Some x → ticket_of x = Some ticket → ticket <= g'.
Proof.
  intros Hp Hg Hp' Hps j x ticket [(<- & <- & _)|[? ?]]%list_lookup_insert_Some; [by apply Hp'|].
  intros ?. etrans; [|exact Hg]. by eapply Hps.
Qed.

Lemma timed_change (ps : list RearmPhase) i p p' :
  ps !! i = Some p → (∀ now, p' = Timed now → ∃ k, now = monotonic_ms k) →
  (∀ j now, ps !! j = Some (Timed now) → ∃ k, now = monotonic_ms k) →
  ∀ j now, <[i := p']> ps !! j = Some (Timed now) → ∃ k, now = monotonic_ms k.
Proof. intros Hp Hp' Hps j now [(<- & -> & _)|[? ?]]%list_lookup_insert_Some; [by apply Hp'|by eapply Hps]. Qed.

Lemma ok_event i r ps h e w' asks :
  rearms_ok (r, ps, h) → ps !! i = Some Idle → legal (r_world r) e → exec im tp fcsr c e (r_world r) = Done (tt, w') →
  rearms_ok (r <| r_world := w' |>, <[i := if asks : bool then Wanted else Idle]> ps, h ++ [if asks then Asked e else Quiet e]).
Proof.
  intros [K1 K2 K3 K4 K5 K6] Hp Hl He. cbn [fst snd] in *. split; cbn [fst snd]; try done.
  - by eapply reach_step.
  - eapply tickets_change; [done|reflexivity|by destruct asks|done].
  - destruct asks; by eapply timed_change.
  - destruct asks; [left; exists i, Wanted; split; [by eapply phase_set|done]|]. destruct K6 as [Hr|Hs].
    + left. by apply (restarts_change (r_timer_generation r) ps i Idle); [done|cbn; tauto|].
    + right. eapply newest_quiet; [exact Hs|]. intros call. by apply (settled_change r _ ps i Idle Idle).
Qed.

Lemma ok_step i r r' ps h p p' :
  rearms_ok (r, ps, h) → ps !! i = Some p → p ≠ Idle → (∀ now, p = Timed now → r_timer_generation r < u64_max) →
  rearm_step p r = Done (p', r') → rearms_ok (r', <[i := p']> ps, h ++ section_moment p p' (r_world r')).
Proof using All.
  intros [K1 K2 K3 K4 K5 K6] Hp Hidle Hfresh E. cbn [fst snd] in *.
  pose proof (rearm_step_spec p r K2 K1) as Hm. unfold wp in Hm. rewrite E in Hm. clear E.
  destruct Hm as [| |now d w' Hw' Ed|ticket call|ticket]; [done|..]; cbn [section_moment]; rewrite ?app_nil_r.
  - split; cbn [fst snd]; try done.
    + by eapply tickets_change.
    + eapply timed_change; [done| |done]. intros now [= <-]. by eexists.
    + left. eexists i, _. split; [by eapply phase_set|done].
  - assert (wrapping_add u64_max (r_timer_generation r) 1 = r_timer_generation r + 1) as Eg.
    { specialize (Hfresh now eq_refl). unfold wrapping_add. apply Z.mod_small. lia. }
    rewrite Eg. split; cbn [fst snd]; try done; cbn [r_timer_generation].
    + cbn. specialize (Hfresh now eq_refl). lia.
    + eapply tickets_change; [done| |by intros ? [= <-]|done]. cbn. lia.
    + by eapply timed_change.
    + right. exists h, w', (deadline_call max_delay now d), []. split; [done|]. split; [constructor|].
      split; [destruct (K5 i now Hp) as [k ->]; by eexists k, _, _, _|]. split.
      * right. exists i. by eapply phase_set.
      * intros j call' [(_ & E & _)|[_ Hj]]%list_lookup_insert_Some; [by injection E|].
        specialize (K4 j _ _ Hj eq_refl). cbn in K4. lia.
  - split; cbn [fst snd]; try done.
    + eapply tickets_change; [done|reflexivity| |done]. intros t [= <-]. by eapply (K4 i).
    + by eapply timed_change.
    + destruct (decide (ticket = r_timer_generation r)) as [->|Hne];
        [|left; exists i, (Armed ticket); split; [by eapply phase_set|done]].
      destruct K6 as [Hr|Hs]; [left; eapply restarts_change; [done|cbn; tauto|done]|].
      right. eapply newest_mono; [exact Hs|]. intros call' [S1 S2]. rewrite <-(S2 i call Hp). split; cbn.
      * left. apply last_snoc.
      * intros j c' [(_ & E & _)|[_ Hj]]%list_lookup_insert_Some; [done|]. rewrite (S2 i call Hp). by eapply S2.
  - split; cbn [fst snd]; try done.
    + eapply tickets_change; [done|reflexivity|by destruct (_ =? _)|done].
    + eapply timed_change; [done|by destruct (_ =? _)|done].
    + destruct (Z.eqb_spec (r_timer_generation r) ticket) as [<-|Hne];
        [|left; exists i, Wanted; split; [by eapply phase_set|done]].
      destruct K6 as [Hr|Hs]; [left; eapply restarts_change; [done|cbn; tauto|done]|].
      right. eapply newest_mono; [exact Hs|]. intros call'. by apply (settled_change r r ps i (Armed (r_timer_generation r)) Idle).
Qed.

Lemma rearming_ok i st st' : rearms_ok st → rearming i st st' → rearms_ok st'.
Proof using All. intros Hok Hs. destruct Hs; [by apply ok_event|by eapply ok_step]. Qed.

Lemma run_ok st st' : rearms_ok st → rearming_run st st' → rearms_ok st'.
Proof using All. intros Hok Hr. induction Hr as [|st st1 st2 [i Hs] _ IH]; [done|]. by eapply IH, rearming_ok. Qed.

(** ** No call is stuck *)

(** The steps a call has left when it is alone. *)
Definition steps_left (generation : Z) (p : RearmPhase) : nat :=
  match p with
  | Idle => 0
  | Armed ticket => if ticket =? generation then 1 else 5
  | Claimed ticket _ => if ticket =? generation then 2 else 6
  | Timed _ => 3
  | Wanted => 4
  end.

Lemma one_step i r ps h p :
  rearms_ok (r, ps, h) → ps !! i = Some p → p ≠ Idle → (∀ now, p = Timed now → r_timer_generation r < u64_max) →
  ∃ p' r', moved r p p' r' ∧ rearm_step p r = Done (p', r') ∧
    rearming i (r, ps, h) (r', <[i := p']> ps, h ++ section_moment p p' (r_world r')).
Proof using All.
  intros Hok Hp Hne Hf. pose proof (rearm_step_spec p r (ok_started _ Hok) (ok_reach _ Hok)) as Hm. unfold wp in Hm.
  destruct (rearm_step p r) as [[p' r']|] eqn:E; [|done]. exists p', r'. split; [done|]. split; [done|]. by apply rearming_step.
Qed.

Lemma moved_left r p p' r' :
  moved r p p' r' → p ≠ Idle → 0 <= r_timer_generation r → ((3 <= steps_left (r_timer_generation r) p)%nat → r_timer_generation r < u64_max) →
  S (steps_left (r_timer_generation r') p') = steps_left (r_timer_generation r) p ∧
  ((3 <= steps_left (r_timer_generation r') p')%nat → r_timer_generation r' < u64_max).
Proof.
  intros Hm Hne Hg Hf. destruct Hm as [| |now d w' _ _|ticket call|ticket]; [done|..]; cbn in *.
  - split; [done|lia].
  - rewrite Z.eqb_refl. split; [done|lia].
  - destruct (_ =? _); split; try done; lia.
  - rewrite (Z.eqb_sym ticket) in *. destruct (_ =? _); cbn; split; try done; lia.
Qed.

Lemma finishes i k r ps h p :
  rearms_ok (r, ps, h) → ps !! i = Some p → steps_left (r_timer_generation r) p = k → ((3 <= k)%nat → r_timer_generation r < u64_max) →
  ∃ r' h', nsteps (rearming i) k (r, ps, h) (r', <[i := Idle]> ps, h').
Proof using All.
  revert r ps h p. induction k as [|k IH]; intros r ps h p Hok Hp Hk Hf.
  - assert (p = Idle) as -> by (destruct p; cbn in Hk; repeat case_match; done).
    exists r, h. rewrite list_insert_id by done. constructor.
  - assert (p ≠ Idle) as Hne by (by intros ->).
    destruct (one_step i r ps h p Hok Hp Hne) as (p' & r' & Hm & _ & Hs); [intros now ->; apply Hf; cbn in Hk; lia|].
    destruct (moved_left r p p' r' Hm Hne) as [L1 L2]; [apply Hok|rewrite Hk; exact Hf|].
    assert (steps_left (r_timer_generation r') p' = k) as Lk by lia. rewrite Lk in L2.
    destruct (IH r' _ _ p' (rearming_ok _ _ _ Hok Hs) (phase_set ps i p p' Hp) Lk L2) as (r2 & h2 & Hn2).
    exists r2, h2. rewrite list_insert_insert_eq in Hn2. by eapply nsteps_l.
Qed.

End Rearming.

(** C3: A stale deadline is never the last (RTOS-TIMER-003). Let any number of threads and
    interrupts be inside [rearm_timer] at once, their clock readings, deadline sections,
    port calls and ticket checks interleaved in any order with each other and with any
    events of the scheduler, as long as the 2^64 tickets last. Then a call that is left
    alone ends within six of its steps, wherever it stands. And whenever no call is in
    progress, the last call on the timer is the one of the newest deadline section, which
    computed it from one snapshot of the scheduler and the embassy queue, after every
    event whose operation asked for a rearm. *)
Theorem rearms_converge {H} `{StackHeap H, Outside} (limit max_delay : Z) (im : Image) (tp fcsr : Z) (n : nat)
    (c idle_top start : Z) (r0 r : Rtos H) (ps0 ps : list RearmPhase) (h : list moment) :
  Z.of_nat n <= 255 → capacity_ok c → 272 < idle_top → is_Some (r_start r0) →
  reachable im tp fcsr n c idle_top start (r_world r0) → 0 <= r_timer_generation r0 <= u64_max →
  (∀ p, p ∈ ps0 → p = Idle ∨ p = Wanted) → Wanted ∈ ps0 →
  rearming_run limit max_delay im tp fcsr c (r0, ps0, []) (r, ps, h) →
  reachable im tp fcsr n c idle_top start (r_world r) ∧
  (∀ i p, ps !! i = Some p → r_timer_generation r < u64_max →
    ∃ k r' h', (k <= 6)%nat ∧ nsteps (rearming limit max_delay im tp fcsr c i) k (r, ps, h) (r', <[i := Idle]> ps, h')) ∧
  ((∀ p, p ∈ ps → p = Idle) → newest limit max_delay h (λ call, last (r_port_log r) = Some call)).
Proof.
  intros Hn Hc Ht Hs Hw Hg Hps Hwant Hrun.
  assert (rearms_ok limit max_delay im tp fcsr n c idle_top start (r0, ps0, [])) as Hok0.
  { split; cbn [fst snd]; try done.
    - intros i p ticket Hp%list_elem_of_lookup_2 Ht'. by destruct (Hps p Hp) as [-> | ->].
    - intros i now Hp%list_elem_of_lookup_2. by destruct (Hps _ Hp).
    - left. apply list_elem_of_lookup in Hwant as [i Hi]. by exists i, Wanted. }
  pose proof (run_ok limit max_delay im tp fcsr n c idle_top start Hn Hc Ht _ _ Hok0 Hrun) as Hok.
  split; [apply Hok|]. split.
  - intros i p Hp Hgen. exists (steps_left (r_timer_generation r) p).
    destruct (finishes limit max_delay im tp fcsr n c idle_top start Hn Hc Ht i _ r ps h p Hok Hp eq_refl) as (r' & h' & Hf); [done|].
    exists r', h'. split; [|exact Hf]. destruct p; cbn; repeat case_match; lia.
  - intros Hidle. assert (∀ i p, ps !! i = Some p → p = Idle) as Hi by (intros i p Hp; by eapply Hidle, list_elem_of_lookup_2).
    destruct (ok_newest _ _ _ _ _ _ _ _ _ _ Hok) as [(i & p & Hp & Hr)|Hnew]; [by rewrite (Hi i p Hp) in Hr|].
    eapply newest_mono; [exact Hnew|]. intros call [[Hl|[i Hl]] _]; [done|by apply Hi in Hl].
Qed.

(** *** A stale call *)

(** Two calls, step by step in the given order. *)
Fixpoint moves {H} `{StackHeap H, Outside} (limit max_delay : Z) (order : list nat) (st : @Rearming H) : option (@Rearming H) :=
  match order with
  | [] => Some st
  | i :: order =>
      let '(r, ps, h) := st in
      match ps !! i with
      | None | Some Idle => None
      | Some p =>
          if r_timer_generation r <? u64_max then
            match rearm_step limit max_delay p r with
            | Done (p', r') => moves limit max_delay order (r', <[i := p']> ps, h ++ section_moment p p' (r_world r'))
            | Fault _ => None
            end
          else None
      end
  end.

Lemma moves_run {H} `{StackHeap H, Outside} limit max_delay im tp fcsr c order (st st' : @Rearming H) :
  moves limit max_delay order st = Some st' → rearming_run limit max_delay im tp fcsr c st st'.
Proof.
  revert st. induction order as [|i order IH]; intros [[r ps] h] E; cbn [moves] in E; [injection E as <-; constructor|].
  destruct (ps !! i) as [p|] eqn:Hp; [|done]. assert (p ≠ Idle) as Hne by (by intros ->).
  destruct (Z.ltb_spec (r_timer_generation r) u64_max); [|by destruct p].
  destruct (rearm_step limit max_delay p r) as [[p' r']|] eqn:Es; [|by destruct p].
  eapply rtc_l; [|eapply IH; destruct p; [done|exact E..]]. exists i. by apply rearming_step.
Qed.

Definition witness_heap : StackHeap unit := {|
  heap_allocate _ := mret 0; heap_deallocate _ := mret tt; heap_largest _ := 0; heap_live _ := ∅ |}.
Definition witness_outside : Outside := {|
  monotonic_ms n := Z.of_nat n; interrupts_enabled _ := true; next_expiration _ _ := u64_max |}.
Definition witness_state : StartState := mkStartState (mkStartConfig 4096 Cooperative (Some 100)) (Some 14) (Some 1000).
Definition witness_rtos : Rtos unit := mkRtos (Some witness_state) witness_start 0 (Resource.new 4) 0 tt 0 [].

(** The first call computes its deadline, the second overtakes it, and the first arms last. *)
Definition witness_moves : list nat := [0; 0; 1; 1; 1; 0; 1; 0; 0; 0; 0; 0]%nat.
Definition witness_final : @Rearming unit :=
  let H := witness_heap in let O := witness_outside in
  match moves 100 1000 witness_moves (witness_rtos, [Wanted; Wanted], []) with Some st => st | None => (witness_rtos, [], []) end.

Lemma witness_run :
  let H := witness_heap in let O := witness_outside in
  rearming_run 100 1000 witness_image 0 0 14 (witness_rtos, [Wanted; Wanted], [])
    (witness_final.1.1, witness_final.1.2, witness_final.2).
Proof.
  intros H O. apply (moves_run 100 1000 witness_image 0 0 14 witness_moves). unfold witness_final. fold H O.
  destruct (moves _ _ _ _) as [[[r ps] h]|] eqn:E; [done|]. exfalso. revert E. by vm_compute.
Qed.

Lemma witness_idle : witness_final.1.2 = [Idle; Idle].
Proof. by vm_compute. Qed.

Lemma witness_all_idle p : p ∈ witness_final.1.2 → p = Idle.
Proof. rewrite witness_idle. set_solver. Qed.

Lemma witness_capacity : capacity_ok 14.
Proof. done. Qed.
Lemma witness_installed : is_Some (r_start witness_rtos).
Proof. by eexists. Qed.
Lemma witness_generation : 0 <= r_timer_generation witness_rtos <= u64_max.
Proof. done. Qed.
Lemma witness_phases p : p ∈ [Wanted; Wanted] → p = Idle ∨ p = Wanted.
Proof. set_solver. Qed.
Lemma witness_wanted : Wanted ∈ [Wanted; Wanted].
Proof. set_solver. Qed.

Lemma rearms_converge_witness :
  let H := witness_heap in let O := witness_outside in
  newest 100 1000 witness_final.2 (λ call, last (r_port_log witness_final.1.1) = Some call).
Proof.
  intros H O.
  destruct (rearms_converge 100 1000 witness_image 0 0 4 14 16384 5 witness_rtos witness_final.1.1 [Wanted; Wanted] witness_final.1.2
    witness_final.2 ltac:(done) witness_capacity ltac:(done) witness_installed (reach_start _ _ _ _ _ _ _ _ witness_started)
    witness_generation witness_phases witness_wanted witness_run) as (_ & _ & Hnew).
  apply Hnew. exact witness_all_idle.
Defined.

(** *** A change of priority *)

(** The main task runs [Preemptive] at priority 10; a task waits at priority 30. *)
Definition waiting_events : list event := [
  SpawnTask None 131072 4096 77 99 30 (Preemptive 10) 6; SetPriority 256 10; SetRunPolicy 256 (Preemptive 10) 7].
Definition waiting_world : World :=
  match for_each waiting_events (exec witness_image 0 0 14) witness_start with Done (_, w) => w | Fault _ => witness_start end.

Lemma waiting_legal : legal_run witness_image 0 0 14 waiting_events witness_start.
Proof. vm_compute. repeat first [ (intros; discriminate) | split | (eexists; reflexivity) | done ]. Qed.

Lemma waiting_done : for_each waiting_events (exec witness_image 0 0 14) witness_start = Done (tt, waiting_world).
Proof. by vm_compute. Qed.

Lemma waiting_reachable : reachable witness_image 0 0 4 14 16384 5 waiting_world.
Proof.
  apply (wp_outcome _ (λ _ w, reachable witness_image 0 0 4 14 16384 5 w) _ _ _ waiting_done).
  apply reachable_run; [apply reach_start, witness_started|exact waiting_legal].
Qed.

(** [set_task_priority] neither rearms the timer nor requests a reschedule: the task may
    become better than the running one, and the dispatch deadline immediate
    (RTOS-DISPATCH-001), while the timer stays as it was -- here disarmed. *)
Lemma priority_change_not_rearmed :
  let H := witness_heap in
  let r := witness_rtos <| r_world := waiting_world |> in
  reachable witness_image 0 0 4 14 16384 5 (r_world r) ∧
  wp (timer_deadline 8 100 None) (λ d _, d = None) (r_world r) ∧
  wp (set_task_priority 258 3) (λ x r', x = Ok tt ∧ r_port_log r' = r_port_log r ∧
    wp (timer_deadline 8 100 None) (λ d _, d = Some 8) (r_world r')) r.
Proof. split; [exact waiting_reachable|]. split; by vm_compute. Qed.
