(* ===== verification/Ws63.v ===== *)
(** * The WS63 target adapter ([src/ws63.rs])

    The scheduler port over the chip's timer and software interrupt. The HAL crate is a
    parameter: an instance of [Hal] says what its functions do to a state of the
    hardware. A run of the runtime records the port's calls; [in_rtos] makes them on the
    hardware in that order. *)

From stdpp Require Import sorting.
From S2P Require Import Prelude Effects Budget Contract Config Context Reservation Resource.
From S2P Require Import Tcb Store Chain Ready Wait Switch Invariant Dispatch Inherit Donation Sync.
From S2P Require Import Moves Permit Slide Lean Handoff Mutex Lock Acquire Exclusion.
From S2P Require Import Timer Frame Touch Wake Deadlines Slots Statics Tasks Driver Birth Start Leave Fit System Upkeep Policy Reach Rearm.

(** ** The HAL *)

Class Hal (D : Type) := {
  (** [TimerAlarm0] *)
  TimerAlarm0_new : D → D;
  TimerAlarm0_drop : D → D;
  TimerAlarm0_MAX_DELAY_MS : Z;
  TimerAlarm0_arm_millis : Z → D → D;
  TimerAlarm0_disarm : D → D;
  TimerAlarm0_clear_interrupt : D → D;
  (** [SoftwareInterrupt0] *)
  SoftwareInterrupt0_new : D → D;
  SoftwareInterrupt0_drop : D → D;
  SoftwareInterrupt0_pend_interrupt : D → D;
  SoftwareInterrupt0_clear_interrupt : D → D;
  (** [interrupt::enable_global], and the [n]-th reading of [Instant::now().raw()] *)
  enable_global : D → D;
  Instant_now_raw : nat → Z;
}.

(** ** Configuration *)

Record Ws63Config := mkWs63Config {
  minimum_stack_size : Z;
  radio_task_policy : RunPolicy;
  max_scheduler_lock_duration : Z;
}.

Definition Ws63Config_default : Ws63Config :=
  let config := PortedConfig_default in
  mkWs63Config config.(pc_minimum_stack_size) config.(pc_radio_task_policy) config.(pc_max_scheduler_lock_duration).

(** [impl From<Config> for PortedConfig] *)
Definition ported_config (config : Ws63Config) : PortedConfig :=
  mkPortedConfig config.(minimum_stack_size) config.(radio_task_policy) config.(max_scheduler_lock_duration).

(** The boot counter runs at 24 MHz. *)
Definition ws63_monotonic_ms (raw : Z) : Z := raw / 24000.

(** ** The runtime on the hardware *)

Record Board (H D : Type) := mkBoard {
  bd_rtos : Rtos H;
  bd_hal : D;
}.
Arguments mkBoard {H D}. Arguments bd_rtos {H D}. Arguments bd_hal {H D}.

#[export] Instance eta_Board H D : Eta (Board H D) := λ b, mkBoard (bd_rtos b) (bd_hal b).
#[export] Instance field_bd_rtos H D : Field (@bd_rtos H D). Proof. derive_field. Defined.
#[export] Instance field_bd_hal H D : Field (@bd_hal H D). Proof. derive_field. Defined.

Section Port.
  Context {H D : Type} `{StackHeap H, Hal D} (enabled : nat → bool) (expiration : nat → Z → Z).
  Context (im : Image) (initial_tp initial_fcsr : Z).

#[local] Instance ws63_outside : Outside := {
  monotonic_ms n := ws63_monotonic_ms (Instant_now_raw n);
  interrupts_enabled := enabled;
  next_expiration := expiration;
}.

Definition hal (f : D → D) : M (Board H D) unit := modify (λ b, b <| bd_hal ::= f |>).

(** The callbacks of the [SchedulerPort] that [start] installs. *)
Definition port_call (c : PortCall) : D → D :=
  match c with
  | ArmTimer delay => TimerAlarm0_arm_millis delay
  | DisarmTimer => TimerAlarm0_disarm
  | PendReschedule => SoftwareInterrupt0_pend_interrupt
  | ReportViolation _ => λ d, d
  end.
Definition port_calls (cs : list PortCall) (d : D) : D := fold_left (λ d c, port_call c d) cs d.

Definition in_rtos {A} (m : M (Rtos H) A) : M (Board H D) A :=
  modify (λ b, b <| bd_rtos ::= λ r, r <| r_port_log := [] |> |>) ;;
  a ← zoom bd_rtos (λ r b, b <| bd_rtos := r |>) m;
  calls ← gets (λ b, r_port_log (bd_rtos b));
  hal (port_calls calls) ;;
  mret a.

(** [install] is the outcome of registering the runtime with the contract crate. The tokens
    are dropped on an early return and forgotten at the end. *)
Definition start (config : Ws63Config) (dynamic_capacity : Z) (install : result DriverError unit) :
    M (Board H D) (result StartError unit) :=
  hal TimerAlarm0_new ;;
  hal SoftwareInterrupt0_new ;;
  max_timer_delay ← expect (if TimerAlarm0_MAX_DELAY_MS =? 0 then None else Some TimerAlarm0_MAX_DELAY_MS);
  r ← in_rtos (start_with_port_and_storage im initial_tp initial_fcsr (ported_config config) dynamic_capacity
        max_timer_delay install);
  match r with
  | Err e => hal SoftwareInterrupt0_drop ;; hal TimerAlarm0_drop ;; mret (Err e)
  | Ok _ =>
      hal enable_global ;;
      in_rtos request_reschedule ;;
      mret (Ok tt)
  end.

Definition handle_timer_interrupt : M (Board H D) unit :=
  hal TimerAlarm0_clear_interrupt ;;
  in_rtos interrupt_enter ;;
  in_rtos on_timer_interrupt_handler ;;
  in_rtos interrupt_exit.

Definition handle_software_interrupt : M (Board H D) unit :=
  hal SoftwareInterrupt0_clear_interrupt ;;
  in_rtos interrupt_enter ;;
  in_rtos on_software_interrupt ;;
  in_rtos interrupt_exit.

(** The symbols [bind_interrupts] binds. *)
Inductive Irq := TIMER_INT0 | SOFT_INT0.
#[export] Instance Irq_eq_dec : EqDecision Irq.
Proof. solve_decision. Defined.
Definition bind_interrupts (i : Irq) : M (Board H D) unit :=
  match i with TIMER_INT0 => handle_timer_interrupt | SOFT_INT0 => handle_software_interrupt end.

End Port.

(** ** The interrupts, on the scheduler *)

(** The timestamp of the interrupt being served stays. *)
Definition stamp_kept (w w' : World) : Prop := s_irq_started_at (w_sched w') = s_irq_started_at (w_sched w).

#[export] Instance stamp_kept_preorder : PreOrder stamp_kept.
Proof. split; [done|]. intros w1 w2 w3 H1 H2. unfold stamp_kept in *. by rewrite H2. Qed.

#[export] Program Instance stamp_kept_footprint : Footprint stamp_kept := { allowed _ _ := True }.
Next Obligation. done. Qed.
Next Obligation. done. Qed.
Next Obligation. intros [] v w; done. Qed.
Next Obligation. intros [] v w; done. Qed.
Next Obligation. done. Qed.

#[export] Instance stamp_kept_walk : WalkFootprint stamp_kept.
Proof. by split. Qed.

#[export] Instance stamp_kept_objects : ObjectFootprint stamp_kept.
Proof. by split. Qed.

Lemma stamp_wake_sleepers now : keeps stamp_kept (wake_sleepers now).
Proof.
  unfold wake_sleepers, wake_task, replenish_budgets, replenish_task, timeout_semaphore_waiter_locked,
    timeout_mutex_waiter, remove_waiter, remove_mutex_waiter.
  keep; first [exact I | apply (keeps_make_ready stamp_kept); exact I].
Qed.

Lemma stamp_tick now limit : keeps stamp_kept (on_timer_interrupt now limit).
Proof.
  unfold on_timer_interrupt, on_timer, count_exhaustion.
  repeat first [ match goal with |- keeps _ (sched_modify _) => by apply (keeps_modify stamp_kept) end
    | apply stamp_wake_sleepers | keep1 ]; try exact I.
Qed.

(** The violation the sweep reports: the running task has held the scheduler lock too long. *)
Definition overrun (now limit : Z) (w : World) : option ContractViolation :=
  if state_eqb (t_state (T w (current w))) Running then lock_violation (T w (current w)) (current w) now limit else None.

Lemma tick_verdict c w now limit :
  system c w → wp (on_timer_interrupt now limit) (λ v _, v = overrun now limit w) w.
Proof.
  intros Hs. unfold on_timer_interrupt, bump, sched_modify. go. set (w0 := w <| w_sched ::= _ |>).
  assert (system c w0) as Hs0 by (by apply system_sched). destruct (system_kernel c w0 Hs0) as [q Hk].
  wp_apply (on_timer_spec w0 q now limit Hk (λ _, system_idle c w0 Hs0)). intros v w1 [_ _ _ _ Hr Hst].
  assert (v = overrun now limit w) as ->; [|go; destruct (negb _ && _); cbn [when]; by go].
  change (overrun now limit w) with (overrun now limit w0). unfold overrun, state_eqb. case_bool_decide as E.
  - by destruct (Hr E) as (_ & _ & ->).
  - by destruct (Hst E).
Qed.

Lemma overrun_same now limit w w' :
  current w' = current w → (t_state (T w' (current w)), lock_part (T w' (current w))) = (t_state (T w (current w)), lock_part (T w (current w))) →
  overrun now limit w' = overrun now limit w.
Proof. unfold overrun, lock_violation, lock_part. by intros -> [= -> _ ->]. Qed.

(** What the interrupts do to the scheduler, by the readings of the clock ([clock k] is the
    [k]-th) and of the embassy queue. The outermost entry and exit; a nested one leaves the scheduler alone. *)
Definition entered (clock : nat → Z) (depth : Z) (w w' : World) : Prop :=
  if depth =? 0 then ∃ k, interrupt_enter_sched (clock k) w = Done (tt, w') else w' = w.
Definition left_irq (clock : nat → Z) (depth : Z) (w w' : World) : Prop :=
  if depth =? 0 then ∃ k, interrupt_exit_sched (clock k) w = Done (tt, w') else w' = w.

(** A rearm at the [k]-th reading, and the call that ends it. *)
Definition armed (clock : nat → Z) (expiration : nat → Z → Z) (limit max_delay : Z) (k : nat) (w w' : World) (call : PortCall) : Prop :=
  let now := clock k in
  let embassy := embassy_next_expiration (expiration (S k) (saturating_mul u64_max now EMBASSY_TICKS_PER_MILLISECOND)) now in
  ∃ deadline, timer_deadline now limit embassy w = Done (deadline, w') ∧
    call = deadline_call max_delay now deadline.

(** The sweep of the timer interrupt, which reports no violation, and the rearm after it. *)
Definition swept_and_armed (clock : nat → Z) (expiration : nat → Z → Z) (limit max_delay : Z) (w w' : World) (call : PortCall) : Prop :=
  ∃ k w1, on_timer_interrupt (clock k) limit w = Done (None, w1) ∧ armed clock expiration limit max_delay (S k) w1 w' call.

(** ** Runs of the runtime *)

Section Serving.
  #[local] Set Default Proof Using "All".
  Context {H D : Type} `{StackHeap H, Hal D} (enabled : nat → bool) (expiration : nat → Z → Z).
  Context (im : Image) (tp fcsr : Z) (n : nat) (c idle_top start : Z).
#[local] Instance board_outside : Outside := ws63_outside enabled expiration.

Lemma wp_in_world {A} (m : M World A) (Q : A → Rtos H → Prop) r :
  wp m (λ a w', Q a (r <| r_world := w' |>)) (r_world r) → wp (in_world m) Q r.
Proof. unfold wp, in_world, zoom. by destruct (m (r_world r)) as [[a w']|]. Qed.

Abbreviation clock := (λ k, ws63_monotonic_ms (Instant_now_raw k)).
Abbreviation reach := (reachable im tp fcsr n c idle_top start).
Context (Hn : Z.of_nat n <= 255) (Hc : capacity_ok c) (Htop : 272 < idle_top).
Context (Hclock : ∀ k, 0 <= Instant_now_raw k <= u64_max).

Lemma ws63_clock k : time_ok (monotonic_ms k) ∧ monotonic_ms k < NO_TIMESTAMP.
Proof.
  clear Hn Hc Htop. specialize (Hclock k). cbn. unfold ws63_monotonic_ms, time_ok, NO_TIMESTAMP.
  assert (0 <= Instant_now_raw k / 24000) by (apply Z.div_pos; lia).
  assert (Instant_now_raw k / 24000 < u64_max) by (apply Z.div_lt_upper_bound; unfold u64_max in *; lia). lia.
Qed.

(** One event of the scheduler inside a run of the runtime. *)
Lemma event_runs {A} e (m : M World A) w :
  exec im tp fcsr c e w = (_ ← m; mret tt) w → legal w e → reach w → ∃ a w', m w = Done (a, w') ∧ reach w'.
Proof.
  intros He Hl Hw. destruct (reachable_exec im tp fcsr n c idle_top start w e Hn Hc Htop Hw Hl) as (w' & E & Hw').
  rewrite He in E. unfold mbind, M_bind in E. destruct (m w) as [[a w1]|]; [|done]. injection E as ->. by exists a, w'.
Qed.

Lemma mret_tt (m : M World unit) w : m w = (_ ← m; mret tt) w.
Proof. unfold mbind, M_bind. by destruct (m w) as [[[] w']|]. Qed.

Lemma wp_done {S A} (m : M S A) a s' Q s : m s = Done (a, s') → Q a s' → wp m Q s.
Proof. unfold wp. by intros ->. Qed.

Lemma wp_start_state s (Q : StartState → Rtos H → Prop) r : r_start r = Some s → Q s r → wp start_state Q r.
Proof. intros Hs HQ. unfold start_state. apply wp_bind, wp_gets. by rewrite Hs. Qed.

Lemma wp_now_ms s (Q : Z → Rtos H → Prop) r :
  r_start r = Some s → Q (monotonic_ms (r_reads r)) (r <| r_reads ::= S |>) → wp now_ms Q r.
Proof. intros Hs HQ. unfold now_ms. apply wp_bind, (wp_start_state s); [done|]. done. Qed.

Record rearmed (limit max_delay : Z) (r r' : Rtos H) : Prop := {
  rearmed_reach : reach (r_world r');
  rearmed_call : ∃ call, armed clock expiration limit max_delay (r_reads r) (r_world r) (r_world r') call ∧
    r_port_log r' = r_port_log r ++ [call];
  rearmed_start : r_start r' = r_start r;
  rearmed_depth : r_interrupt_depth r' = r_interrupt_depth r;
}.

Lemma rearm_spec s limit max_delay r :
  r_start r = Some s → s.(st_port) = Some max_delay → s.(st_config).(sc_max_scheduler_lock_duration) = Some limit →
  reach (r_world r) → wp rearm_timer (λ _ r', rearmed limit max_delay r r') r.
Proof.
  intros Hs Hp Hl Hw. unfold rearm_timer, start_state. apply wp_bind, wp_bind, wp_gets. rewrite Hs. apply wp_ret.
  rewrite Hp, Hl. cbn [rearm_loop]. apply wp_bind, (wp_now_ms s); [done|]. set (now := monotonic_ms _).
  unfold embassy_expiration, next_read. wp_steps. set (embassy := embassy_next_expiration _ _).
  destruct (event_runs (RearmTimer now limit embassy) (timer_deadline now limit embassy) (r_world r) eq_refl I Hw)
    as (d & w' & Ed & Hw').
  apply wp_bind, wp_in_world. eapply wp_done; [exact Ed|].
  unfold claim_timer_rearm_generation, call_port, timer_rearm_ticket_is_current. wp_steps. cbn. rewrite Z.eqb_refl. wp_steps.
  split; try done. eexists. split; [|done]. by exists d.
Qed.

(** What the operations of the runtime leave of its statics. *)
Record statics_kept (r r' : Rtos H) : Prop := {
  statics_reach : reach (r_world r');
  statics_start : r_start r' = r_start r;
}.

Lemma enter_irq_spec s r :
  r_start r = Some s → 0 <= r_interrupt_depth r < u16_max → (r_interrupt_depth r = 0 → s_irq_task (w_sched (r_world r)) = NIL) →
  reach (r_world r) →
  wp interrupt_enter (λ _ r', statics_kept r r' ∧ r_interrupt_depth r' = r_interrupt_depth r + 1 ∧ r_port_log r' = r_port_log r ∧
    (∀ now limit, overrun now limit (r_world r') = overrun now limit (r_world r)) ∧ r_reads r' = S (r_reads r) ∧
    (r_interrupt_depth r = 0 → s_irq_started_at (w_sched (r_world r')) ≠ NO_TIMESTAMP) ∧
    entered clock (r_interrupt_depth r) (r_world r) (r_world r')) r.
Proof.
  intros Hs Hd Hirq Hw. unfold interrupt_enter, next_read, entered. wp_steps. rewrite Hs. wp_steps. cbn.
  destruct (Z.eqb_spec (r_interrupt_depth r) 0) as [E|E]; cbn [when].
  - set (now := ws63_monotonic_ms _).
    destruct (event_runs (InterruptEnter now) (interrupt_enter_sched now) (r_world r)) as (a & w' & Ew & Hw');
      [apply mret_tt|by apply Hirq|done|]. destruct a.
    pose proof (system_interrupt_enter c _ now (reachable_system im tp fcsr n c idle_top start _ Hn Hc Htop Hw) (Hirq E)) as Hwp.
    unfold wp in Hwp. rewrite Ew in Hwp. destruct Hwp as (_ & Ecur & Elock & _ & Est).
    apply wp_in_world. eapply wp_done; [exact Ew|]. cbn. split; [done|]. split; [unfold saturating_add, u16_max in *; lia|].
    split; [done|]. split; [intros t l; apply overrun_same; [exact Ecur|apply Elock]|]. split; [done|].
    split; [|by exists (r_reads r)]. intros _. rewrite Est. destruct (ws63_clock (r_reads r)) as [_ Hlt]. unfold now. cbn in Hlt. lia.
  - cbn. split; [done|]. split; [unfold saturating_add, u16_max in *; lia|]. done.
Qed.

Lemma exit_irq_spec s r :
  r_start r = Some s → 1 <= r_interrupt_depth r → reach (r_world r) →
  wp interrupt_exit (λ _ r', statics_kept r r' ∧ r_interrupt_depth r' = r_interrupt_depth r - 1 ∧ r_port_log r' = r_port_log r ∧
    (r_interrupt_depth r = 1 → s_irq_started_at (w_sched (r_world r)) ≠ NO_TIMESTAMP → s_irq_task (w_sched (r_world r')) = NIL) ∧
    left_irq clock (r_interrupt_depth r - 1) (r_world r) (r_world r')) r.
Proof.
  intros Hs Hd Hw. unfold interrupt_exit, next_read, left_irq. wp_steps. rewrite Hs. wp_steps. cbn.
  apply wp_assert. { apply negb_true_iff, Z.eqb_neq. lia. }
  assert (saturating_sub (r_interrupt_depth r) 1 = r_interrupt_depth r - 1) as Es by (unfold saturating_sub; lia).
  replace (r_interrupt_depth r - 1 =? 0) with (r_interrupt_depth r =? 1) by (destruct (Z.eqb_spec (r_interrupt_depth r) 1); lia).
  destruct (Z.eqb_spec (r_interrupt_depth r) 1) as [E|E]; cbn [when].
  - set (now := ws63_monotonic_ms _).
    destruct (event_runs (InterruptExit now) (interrupt_exit_sched now) (r_world r)) as (a & w' & Ew & Hw');
      [apply mret_tt|done|done|]. destruct a.
    pose proof (system_interrupt_exit c _ now (reachable_system im tp fcsr n c idle_top start _ Hn Hc Htop Hw)) as Hwp.
    unfold wp in Hwp. rewrite Ew in Hwp. destruct Hwp as (_ & Hnil).
    apply wp_bind, wp_in_world. eapply wp_done; [exact Ew|]. cbn. rewrite Es. split_and!; try done. by exists (r_reads r).
  - cbn. by rewrite Es.
Qed.

Lemma timer_handler_spec s limit max_delay r :
  r_start r = Some s → s.(st_port) = Some max_delay → s.(st_config).(sc_max_scheduler_lock_duration) = Some limit →
  reach (r_world r) → overrun (monotonic_ms (r_reads r)) limit (r_world r) = None →
  wp on_timer_interrupt_handler (λ _ r', statics_kept r r' ∧ r_interrupt_depth r' = r_interrupt_depth r ∧
    stamp_kept (r_world r) (r_world r') ∧
    ∃ call, r_port_log r' = r_port_log r ++ [call] ∧ swept_and_armed clock expiration limit max_delay (r_world r) (r_world r') call) r.
Proof.
  intros Hs Hp Hl Hw Hlock. pose proof (reachable_system im tp fcsr n c idle_top start _ Hn Hc Htop Hw) as Hsys.
  unfold on_timer_interrupt_handler. apply wp_bind, (wp_now_ms s); [done|]. set (now := monotonic_ms _).
  apply wp_bind, (wp_start_state s); [done|]. rewrite Hl. wp_steps.
  destruct (event_runs (TimerInterrupt now limit) (on_timer_interrupt now limit) (r_world r) eq_refl) as (v & w1 & E1 & Hw1);
    [apply ws63_clock|done|].
  pose proof (tick_verdict c (r_world r) now limit Hsys) as Hq. unfold wp in Hq. rewrite E1 in Hq.
  assert (v = None) as -> by (etrans; [exact Hq|exact Hlock]).
  pose proof (stamp_tick now limit (r_world r)) as Hst. rewrite E1 in Hst.
  apply wp_bind, wp_in_world. eapply wp_done; [exact E1|]. wp_steps. set (r1 := _ <| r_world := w1 |>).
  wp_apply (rearm_spec s limit max_delay r1); [|done..].
  intros _ r' [R1 (call & Ha & El) R3 R4]. split; [by split|]. split; [done|].
  split.
  - destruct (system_kernel c w1 (reachable_system im tp fcsr n c idle_top start _ Hn Hc Htop Hw1)) as [q Hk].
    destruct Ha as (d & Ed & _). change (r_world r1) with w1 in Ed.
    match type of Ed with timer_deadline ?t ?l ?e _ = _ =>
      pose proof (timer_deadline_frame w1 q t l e (kernel_owned w1 q None Hk)) as Hf end. unfold wp in Hf. rewrite Ed in Hf.
    destruct Hf as [v ->]. exact Hst.
  - exists call. split; [exact El|]. by exists (r_reads r), w1.
Qed.

Lemma software_handler_spec r :
  reach (r_world r) →
  wp on_software_interrupt (λ _ r', statics_kept r r' ∧ r_interrupt_depth r' = r_interrupt_depth r ∧
    stamp_kept (r_world r) (r_world r') ∧ r_port_log r' = r_port_log r ∧
    bump d_software_interrupts (r_world r) = Done (tt, r_world r')) r.
Proof.
  intros Hw. destruct (event_runs SoftwareInterrupt (bump d_software_interrupts) (r_world r)) as (a & w' & Ew & Hw');
    [apply mret_tt|done|done|]. destruct a.
  apply wp_in_world. eapply wp_done; [exact Ew|]. split; [done|]. split; [done|]. split; [|done].
  by injection Ew as <-.
Qed.

Lemma wp_in_rtos {A} (m : M (Rtos H) A) (Q : A → Board H D → Prop) b :
  wp m (λ a r', Q a (mkBoard r' (port_calls (r_port_log r') (bd_hal b)))) ((bd_rtos b) <| r_port_log := [] |>) →
  wp (in_rtos m) Q b.
Proof.
  unfold wp at 1. destruct (m _) as [[a r']|] eqn:E; [|done]. intros HQ. destruct b as [r d].
  unfold in_rtos, hal. apply wp_bind, wp_modify, wp_bind. apply (wp_done _ a (mkBoard r' d)); [|exact HQ].
  unfold zoom. cbn in *. by rewrite E.
Qed.

(** The bracket both handlers put around their work. *)
Definition served (b b' : Board H D) : Prop :=
  reach (r_world (bd_rtos b')) ∧ r_start (bd_rtos b') = r_start (bd_rtos b) ∧
  r_interrupt_depth (bd_rtos b') = r_interrupt_depth (bd_rtos b) ∧
  (r_interrupt_depth (bd_rtos b) = 0 → s_irq_task (w_sched (r_world (bd_rtos b'))) = NIL).

Lemma bracket_spec s (m : M (Rtos H) unit) (P : Rtos H → Rtos H → Prop) b :
  r_start (bd_rtos b) = Some s → reach (r_world (bd_rtos b)) → 0 <= r_interrupt_depth (bd_rtos b) < u16_max →
  (r_interrupt_depth (bd_rtos b) = 0 → s_irq_task (w_sched (r_world (bd_rtos b))) = NIL) →
  (∀ r, r_start r = Some s → reach (r_world r) → r_port_log r = [] →
    (∀ now limit, overrun now limit (r_world r) = overrun now limit (r_world (bd_rtos b))) → r_reads r = S (r_reads (bd_rtos b)) →
    wp m (λ _ r', statics_kept r r' ∧ r_interrupt_depth r' = r_interrupt_depth r ∧ stamp_kept (r_world r) (r_world r') ∧
      P r r') r) →
  wp (in_rtos interrupt_enter ;; in_rtos m ;; in_rtos interrupt_exit) (λ _ b', served b b' ∧
    ∃ r r', let depth := r_interrupt_depth (bd_rtos b) in
      entered clock depth (r_world (bd_rtos b)) (r_world r) ∧ P r r' ∧ left_irq clock depth (r_world r') (r_world (bd_rtos b')) ∧
      bd_hal b' = port_calls (r_port_log r') (bd_hal b)) b.
Proof.
  intros Hs Hw Hd Hirq Hm. apply wp_bind, wp_in_rtos.
  wp_apply (enter_irq_spec s); [|done..].
  intros _ r1 ([W1 S1] & D1 & L1 & K1 & N1 & T1 & EN1). rewrite L1. cbn [port_calls r_port_log fold_left].
  apply wp_bind, wp_in_rtos. cbn [bd_rtos].
  wp_apply (Hm (r1 <| r_port_log := [] |>)); [|by etrans|done|done|exact K1|exact N1].
  intros _ r2 ([W2 S2] & D2 & T2 & HP). apply wp_in_rtos. cbn [bd_rtos bd_hal].
  wp_apply (exit_irq_spec s (r2 <| r_port_log := [] |>)); [|rewrite <-Hs; etrans; [exact S2|exact S1]| |exact W2].
  - intros _ r3 ([W3 S3] & D3 & L3 & N3 & EX3). split.
    + split; [exact W3|]. split; [cbn; rewrite S3; etrans; [exact S2|exact S1]|]. cbn in *. split; [lia|].
      intros E. apply N3; [lia|]. unfold stamp_kept in T2. cbn in T2. rewrite T2. by apply T1.
    + exists (r1 <| r_port_log := [] |>), r2. split; [exact EN1|]. split; [exact HP|]. split; [|cbn; by rewrite L3].
      cbn in *. replace (r_interrupt_depth (bd_rtos b)) with (r_interrupt_depth r2 - 1) by lia. exact EX3.
  - cbn in *. lia.
Qed.

Lemma timer_served s limit max_delay (b : Board H D) :
  r_start (bd_rtos b) = Some s → s.(st_port) = Some max_delay → 1 <= max_delay →
  s.(st_config).(sc_max_scheduler_lock_duration) = Some limit →
  reach (r_world (bd_rtos b)) → 0 <= r_interrupt_depth (bd_rtos b) < u16_max →
  (r_interrupt_depth (bd_rtos b) = 0 → s_irq_task (w_sched (r_world (bd_rtos b))) = NIL) →
  overrun (clock (S (r_reads (bd_rtos b)))) limit (r_world (bd_rtos b)) = None →
  wp (handle_timer_interrupt enabled expiration) (λ _ b', served b b' ∧
    ∃ w1 w2 call, let depth := r_interrupt_depth (bd_rtos b) in
      entered clock depth (r_world (bd_rtos b)) w1 ∧ swept_and_armed clock expiration limit max_delay w1 w2 call ∧
      left_irq clock depth w2 (r_world (bd_rtos b')) ∧ (∀ delay, call = ArmTimer delay → 1 <= delay <= max_delay) ∧
      bd_hal b' = port_call call (TimerAlarm0_clear_interrupt (bd_hal b))) b.
Proof.
  intros Hs Hp Hmax Hl Hw Hd Hirq Hlock. unfold handle_timer_interrupt, hal. apply wp_bind, wp_modify.
  wp_apply (bracket_spec s on_timer_interrupt_handler (λ r r', ∃ call, r_port_log r' = r_port_log r ++ [call] ∧
    r_port_log r = [] ∧ swept_and_armed clock expiration limit max_delay (r_world r) (r_world r') call)); [|done..|].
  - intros _ b' [Hsv (r & r' & He & (call & E1 & E2 & Hc') & Hx & Eh)]. split; [exact Hsv|].
    exists (r_world r), (r_world r'), call. do 2 (split; [done|]). split; [done|]. split; [|by rewrite Eh, E1, E2].
    intros delay ->. destruct Hc' as (k & w1 & _ & [d|] & _ & [= ->]). unfold timer_delay. lia.
  - intros r Hr Hwr Hlog Hlk Hrd. wp_apply (timer_handler_spec s limit max_delay r Hr Hp Hl Hwr); [|by rewrite Hrd, Hlk].
    intros _ r' (H1' & H2' & H3' & call & E & Hc'). split_and!; try done. by exists call.
Qed.

(** *** The lock held too long *)

Lemma then_fault {S A B} (m : M S A) (k : A → M S B) e s : wp m (λ a s', k a s' = Fault e) s → (m ≫= k) s = Fault e.
Proof. unfold wp, mbind, M_bind. by destruct (m s) as [[a s']|]. Qed.

Lemma fault_then {S A B} (m : M S A) (k : A → M S B) e s : m s = Fault e → (m ≫= k) s = Fault e.
Proof. unfold mbind, M_bind. by intros ->. Qed.

Lemma timer_handler_stops s limit max_delay v (r : Rtos H) :
  r_start r = Some s → s.(st_port) = Some max_delay → s.(st_config).(sc_max_scheduler_lock_duration) = Some limit →
  reach (r_world r) → overrun (monotonic_ms (r_reads r)) limit (r_world r) = Some v →
  on_timer_interrupt_handler r = Fault Hung.
Proof.
  intros Hs Hp Hl Hw Hlock. pose proof (reachable_system im tp fcsr n c idle_top start _ Hn Hc Htop Hw) as Hsys.
  unfold on_timer_interrupt_handler. apply then_fault, (wp_now_ms s); [done|]. set (now := monotonic_ms _).
  apply then_fault, (wp_start_state s); [done|]. rewrite Hl. apply then_fault, wp_ret.
  destruct (event_runs (TimerInterrupt now limit) (on_timer_interrupt now limit) (r_world r) eq_refl) as (v' & w1 & E1 & _);
    [apply ws63_clock|done|].
  pose proof (tick_verdict c (r_world r) now limit Hsys) as Hq. unfold wp in Hq. rewrite E1 in Hq.
  assert (v' = Some v) as -> by (etrans; [exact Hq|exact Hlock]).
  apply then_fault, wp_in_world. eapply wp_done; [exact E1|]. apply fault_then. by rewrite Hp.
Qed.

Lemma in_rtos_fault {A} (m : M (Rtos H) A) e b : m ((bd_rtos b) <| r_port_log := [] |>) = Fault e → in_rtos m b = Fault e.
Proof.
  intros E. destruct b as [r d]. unfold in_rtos, hal. apply then_fault, wp_modify, fault_then. unfold zoom. cbn in *. by rewrite E.
Qed.

Lemma timer_stops s limit max_delay v (b : Board H D) :
  r_start (bd_rtos b) = Some s → s.(st_port) = Some max_delay →
  s.(st_config).(sc_max_scheduler_lock_duration) = Some limit →
  reach (r_world (bd_rtos b)) → 0 <= r_interrupt_depth (bd_rtos b) < u16_max →
  (r_interrupt_depth (bd_rtos b) = 0 → s_irq_task (w_sched (r_world (bd_rtos b))) = NIL) →
  overrun (clock (S (r_reads (bd_rtos b)))) limit (r_world (bd_rtos b)) = Some v →
  handle_timer_interrupt enabled expiration b = Fault Hung.
Proof.
  intros Hs Hp Hl Hw Hd Hirq Hlock. unfold handle_timer_interrupt, hal. apply then_fault, wp_modify, then_fault, wp_in_rtos.
  wp_apply (enter_irq_spec s); [|done..]. intros _ r1 ([W1 S1] & D1 & L1 & K1 & N1 & T1 & EN1).
  apply fault_then, in_rtos_fault. cbn [bd_rtos].
  apply (timer_handler_stops s limit max_delay v (r1 <| r_port_log := [] |>));
    [by etrans|done|done|done|]. etrans; [exact (K1 _ _)|]. etrans; [|exact Hlock].
  change (r_reads (r1 <| r_port_log := [] |>)) with (r_reads r1). by rewrite N1.
Qed.

Lemma software_served s (b : Board H D) :
  r_start (bd_rtos b) = Some s → reach (r_world (bd_rtos b)) → 0 <= r_interrupt_depth (bd_rtos b) < u16_max →
  (r_interrupt_depth (bd_rtos b) = 0 → s_irq_task (w_sched (r_world (bd_rtos b))) = NIL) →
  wp (handle_software_interrupt enabled expiration) (λ _ b', served b b' ∧
    (∃ w1 w2, let depth := r_interrupt_depth (bd_rtos b) in
      entered clock depth (r_world (bd_rtos b)) w1 ∧ bump d_software_interrupts w1 = Done (tt, w2) ∧
      left_irq clock depth w2 (r_world (bd_rtos b'))) ∧
    bd_hal b' = SoftwareInterrupt0_clear_interrupt (bd_hal b)) b.
Proof.
  intros Hs Hw Hd Hirq. unfold handle_software_interrupt, hal. apply wp_bind, wp_modify.
  wp_apply (bracket_spec s on_software_interrupt (λ r r', r_port_log r' = [] ∧ bump d_software_interrupts (r_world r) = Done (tt, r_world r'))); [|done..|].
  - intros _ b' [Hsv (r & r' & He & [E Hb] & Hx & Eh)]. split; [exact Hsv|]. split; [|by rewrite Eh, E].
    by exists (r_world r), (r_world r').
  - intros r Hr Hwr Hlog _ _. wp_apply (software_handler_spec r Hwr).
    intros _ r' (H1' & H2' & H3' & E & Hb). by rewrite E.
Qed.

End Serving.

(** C2: The chip's interrupts (RTOS-TIMER-001, RTOS-PORT-002, RTOS-PORT-003, RTOS-LOCK-004). Let the
    runtime of a board be started with its port, in any reachable state, with interrupts
    nested to any depth short of the counter's width, and no task marked as interrupted
    when none is being served. The handler bound to the software interrupt always returns. The handler bound to the timer returns exactly when, at its
    reading of the clock, the running task has not held the scheduler lock for the
    configured limit; when it has, the handler reports the violation to the port's
    fail-stop function and never returns. A handler that returns has acknowledged its
    source first, the interrupt depth and the interrupt accounting are balanced, and the
    scheduler is in a reachable state again. The timer handler then has made exactly one
    call on the timer, for the deadline computed after its sweep: armed with a
    delay the timer can hold, or disarmed when nothing is due at all; the software handler
    makes none. *)
Theorem ws63_interrupts_served {H D} `{StackHeap H, Hal D} (enabled : nat → bool) (expiration : nat → Z → Z)
    (im : Image) (tp fcsr : Z) (n : nat) (c idle_top start : Z) (irq : Irq) (s : StartState) (limit max_delay : Z)
    (b : Board H D) :
  Z.of_nat n <= 255 → capacity_ok c → 272 < idle_top → (∀ k, 0 <= Instant_now_raw k <= u64_max) →
  r_start (bd_rtos b) = Some s → s.(st_port) = Some max_delay → 1 <= max_delay →
  s.(st_config).(sc_max_scheduler_lock_duration) = Some limit →
  reachable im tp fcsr n c idle_top start (r_world (bd_rtos b)) → 0 <= r_interrupt_depth (bd_rtos b) < u16_max →
  (r_interrupt_depth (bd_rtos b) = 0 → s_irq_task (w_sched (r_world (bd_rtos b))) = NIL) →
  let clock k := ws63_monotonic_ms (Instant_now_raw k) in
  let depth := r_interrupt_depth (bd_rtos b) in
  match (if decide (irq = TIMER_INT0) then overrun (clock (S (r_reads (bd_rtos b)))) limit (r_world (bd_rtos b)) else None) with
  | Some _ => bind_interrupts enabled expiration irq b = Fault Hung
  | None => wp (bind_interrupts enabled expiration irq) (λ _ b',
      (reachable im tp fcsr n c idle_top start (r_world (bd_rtos b')) ∧ r_start (bd_rtos b') = r_start (bd_rtos b) ∧
       r_interrupt_depth (bd_rtos b') = depth ∧ (depth = 0 → s_irq_task (w_sched (r_world (bd_rtos b'))) = NIL)) ∧
      match irq with
      | TIMER_INT0 => ∃ w1 w2 call,
          entered clock depth (r_world (bd_rtos b)) w1 ∧ swept_and_armed clock expiration limit max_delay w1 w2 call ∧
          left_irq clock depth w2 (r_world (bd_rtos b')) ∧ (∀ delay, call = ArmTimer delay → 1 <= delay <= max_delay) ∧
          bd_hal b' = port_call call (TimerAlarm0_clear_interrupt (bd_hal b))
      | SOFT_INT0 =>
          (∃ w1 w2, entered clock depth (r_world (bd_rtos b)) w1 ∧ bump d_software_interrupts w1 = Done (tt, w2) ∧
           left_irq clock depth w2 (r_world (bd_rtos b'))) ∧
          bd_hal b' = SoftwareInterrupt0_clear_interrupt (bd_hal b)
      end) b
  end.
Proof.
  intros Hn Hc Ht Hck Hs Hp Hmax Hl Hw Hd Hirq clock depth. destruct irq.
  - rewrite decide_True by done. destruct (overrun _ limit _) as [v|] eqn:E.
    + by apply (timer_stops enabled expiration im tp fcsr n c idle_top start Hn Hc Ht Hck s limit max_delay v b).
    + apply (timer_served enabled expiration im tp fcsr n c idle_top start Hn Hc Ht Hck s limit max_delay b); done.
  - rewrite decide_False by done. apply (software_served enabled expiration im tp fcsr n c idle_top start Hn Hc Ht Hck s b); done.
Qed.

(** Hardware that logs, the clock stopped. *)
Definition witness_hal (raw : Z) : Hal (list Z) := {|
  TimerAlarm0_new := app [1]; TimerAlarm0_drop := app [2]; TimerAlarm0_MAX_DELAY_MS := 1000;
  TimerAlarm0_arm_millis delay := app [3; delay]; TimerAlarm0_disarm := app [4]; TimerAlarm0_clear_interrupt := app [5];
  SoftwareInterrupt0_new := app [6]; SoftwareInterrupt0_drop := app [7]; SoftwareInterrupt0_pend_interrupt := app [8];
  SoftwareInterrupt0_clear_interrupt := app [9]; enable_global := app [10]; Instant_now_raw _ := raw |}.
Definition witness_board : Board unit (list Z) := mkBoard witness_rtos [].

(** The main task takes the scheduler lock at 6 ms and keeps it. *)
Definition locked_world : World :=
  match exec witness_image 0 0 14 (LockScheduler 6) witness_start with Done (_, w) => w | Fault _ => witness_start end.
Definition locked_board : Board unit (list Z) := mkBoard (witness_rtos <| r_world := locked_world |>) [].

Lemma locked_reachable : reachable witness_image 0 0 4 14 16384 5 locked_world.
Proof.
  apply (reach_step _ _ _ _ _ _ _ witness_start (LockScheduler 6)); [apply reach_start, witness_started|done|by vm_compute].
Qed.

Lemma witness_in_time :
  overrun (ws63_monotonic_ms (@Instant_now_raw _ (witness_hal 240000) (S (r_reads (bd_rtos witness_board))))) 100
    (r_world (bd_rtos witness_board)) = None.
Proof. by vm_compute. Qed.

Lemma locked_overrun :
  overrun (ws63_monotonic_ms (@Instant_now_raw _ (witness_hal 4800000) (S (r_reads (bd_rtos locked_board))))) 100
    (r_world (bd_rtos locked_board)) = Some (SchedulerLockOverrun 0 194 100).
Proof. by vm_compute. Qed.

Lemma verdict_none {A} (irq : Irq) (o : option A) (P Q : Prop) :
  o = None → match (if decide (irq = TIMER_INT0) then o else None) with Some _ => P | None => Q end → Q.
Proof. intros ->. by case_decide. Qed.

Lemma verdict_some {A} (o : option A) v (P Q : Prop) :
  o = Some v → match (if decide (TIMER_INT0 = TIMER_INT0) then o else None) with Some _ => P | None => Q end → P.
Proof. intros ->. by rewrite decide_True. Qed.

Lemma ws63_interrupts_served_witness :
  (let H := witness_heap in let D := witness_hal 240000 in
   wp (bind_interrupts (λ _, true) (λ _ _, u64_max) TIMER_INT0) (λ _ b',
    (reachable witness_image 0 0 4 14 16384 5 (r_world (bd_rtos b')) ∧
     r_start (bd_rtos b') = r_start (bd_rtos witness_board) ∧
     r_interrupt_depth (bd_rtos b') = 0 ∧ (0 = 0 → s_irq_task (w_sched (r_world (bd_rtos b'))) = NIL)) ∧
    ∃ w1 w2 call,
      entered (λ k, ws63_monotonic_ms (Instant_now_raw k)) 0 (r_world (bd_rtos witness_board)) w1 ∧
      swept_and_armed (λ k, ws63_monotonic_ms (Instant_now_raw k)) (λ _ _, u64_max) 100 1000 w1 w2 call ∧
      left_irq (λ k, ws63_monotonic_ms (Instant_now_raw k)) 0 w2 (r_world (bd_rtos b')) ∧
      (∀ delay, call = ArmTimer delay → 1 <= delay <= 1000) ∧
      bd_hal b' = port_call call (TimerAlarm0_clear_interrupt (bd_hal witness_board))) witness_board) ∧
  (let H := witness_heap in let D := witness_hal 4800000 in
   bind_interrupts (λ _, true) (λ _ _, u64_max) TIMER_INT0 locked_board = Fault Hung).
Proof.
  split; intros H D.
  - eapply (verdict_none TIMER_INT0 _ _ _ witness_in_time).
    apply (ws63_interrupts_served (λ _, true) (λ _ _, u64_max) witness_image 0 0 4 14 16384 5 TIMER_INT0 witness_state 100 1000
      witness_board); try done.
    apply reach_start, witness_started.
  - eapply (verdict_some _ _ _ _ locked_overrun).
    apply (ws63_interrupts_served (λ _, true) (λ _ _, u64_max) witness_image 0 0 4 14 16384 5 TIMER_INT0 witness_state 100 1000
      locked_board); try done.
    exact locked_reachable.
Defined.
